(* ===== verification/_CoqProject ===== *)
-Q . S2P
Prelude.v
Machine.v
Interleaving.v
Errors.v
Config.v
Ids.v
Frames.v
Header.v
Codec.v
Crates.v
Window.v
SendWindowConc.v
RecvWindowConc.v
StreamState.v
RecvBuffer.v
StreamInner.v
StreamFacts.v
StreamInv.v
Session.v
Reader.v
StreamCode.v
StreamConc.v
FlowControl.v
WriterConc.v
Api.v
Keepalive.v
Writer.v
SessionInv.v
System.v
SessionConc.v
Overlap.v
Dispatch.v
Delivery.v
Liveness.v
Handshake.v
Tasks.v
UnitTests.v
Pair.v
Duplex.v
Endpoints.v
Transparency.v
Lifecycle.v
Credit.v
Progress.v
Wires.v
Users.v
Utf8.v
Tokio.v
Programs.v
Processes.v
Echo.v
Tunnel.v
ProgramRuns.v
Scenario.v
WireRun.v
