(* ===== verification/Prelude.v ===== *)
(** * net-mux: a verification development

    [net-mux] multiplexes one ordered byte connection into many flow-controlled
    logical streams.  This library models the crate under [src/] (paths below are
    relative to it) and proves what makes it correct.

    ** The program

    A session ([src/session/]) owns a connection.  Its reader task decodes frames
    ([src/protocol/]) and dispatches them to the streams of the registry; its
    writer task encodes the frames that streams and tasks queue; the closer task
    removes finished streams; the keepalive task pings the peer.  A stream
    ([src/stream/]) is shared between the user's handle and the session: it has
    lifecycle bits, a chunk queue of received bytes, and two credit windows
    ([src/flow/window.rs]).  Streams talk to the session through two unbounded
    channels (outbound frames, closed ids), tasks are told to stop through a watch
    channel, and parked tasks are woken through atomic wakers.

    ** The files

    - [Prelude], [Machine], [Interleaving]: results, [u32] arithmetic and byte
      order, threads over shared memory.
    - [Errors] ([src/error.rs]), [Config] ([src/config.rs]), [Ids]
      ([src/util/id.rs]: roles and the lock-free id allocator).
    - [Frames], [Header], [Codec] ([src/protocol/]): flags and frames, the 12-byte
      header, [FrameCodec].
    - [Crates]: the third-party primitives as classes of operations with their
      documented laws, each with an instance: [AtomicWakerOps]
      ([futures_util::task::AtomicWaker]), [UnboundedChannelOps]
      ([tokio::sync::mpsc]), [WatchOps] ([tokio::sync::watch]).  The methods of
      [bitflags!] are [BitflagsOps] in [Frames], [FramedWrite] is
      [FramedWriteOps] in [Writer], the iteration order of a [HashMap] is
      [DrainOrder] in [Session].
    - [Window] ([src/flow/window.rs]): [SendWindow] and [RecvWindow], sequentially
      and access by access; [SendWindowConc], [RecvWindowConc]: the access-level
      machines under every interleaving.
    - [StreamState], [RecvBuffer], [StreamInner] ([src/stream/]): the data and
      every operation of a stream, as transformers of the stream and of the
      session's channels ([Links]); [StreamFacts], [StreamInv]: what each
      operation does, and what all sequences of them keep.
    - [Session] ([src/session/inner.rs], [manager.rs]): the shared state, with
      [Arc<StreamInner>] as locations of a heap, the registry and the shutdown;
      [Reader] ([reader.rs]), [Writer] ([writer.rs]), [Keepalive]
      ([keepalive.rs]), [Api] ([session/mod.rs], [stream/mod.rs]): the code of
      the tasks and of the user's calls.
    - [StreamCode]: the same stream operations as sequences of atomic accesses,
      with [poll_read] and [wait_acked] as programs with a program counter;
      [StreamConc]: these programs under every interleaving with the session's
      operations; [WriterConc]: [poll_write] access by access among them.
    - [FlowControl]: two endpoints of a stream and the wires between them.
    - [SessionInv], [System]: the session invariant, kept by every piece of
      session code; [Dispatch], [Handshake], [Delivery], [Liveness]: what the
      reader, [open] and [accept], the writer and the keepalive task achieve.
    - [SessionConc]: [open], the SYN handling and the shutdown access by access,
      by any number of overlapping calls; [Overlap]: a whole session whose users
      call [open] access by access while everything else goes on.
    - [Tasks]: the session with its four tasks, calls of [open] access by access,
      calls of [accept] up to their subscription and from it, the calls of [close],
      and a connection that may stall; each move runs one of them to its next
      await, or its next access.
    - [Pair]: what two sessions know of each other's streams, over views of them
      and ordered wires; [Duplex]: a client and a server session with their users,
      any number of streams, and the connection between them, where each step of
      a side is seen as a step of its view; [Endpoints]: the frames that arrive,
      and the invariant of the whole; [Transparency]: the bytes from writer to
      reader; [Lifecycle]: what the end of a stream says about the other side;
      [Credit]: the account of each stream's window across both sessions;
      [Progress]: how a writer without credit gets on; [Scenario]: an executable
      run of it.
    - [Wires]: the same two sessions over bytes, which the writer tasks encode,
      the connection delivers in pieces of any size and the reader tasks decode;
      [WireRun]: an executable run of it.
    - [Programs] ([examples/]): the echo and the tunnel programs, as terms that
      step at every await, over the two sessions of [Duplex].  [Utf8] has the
      decoding of [String::from_utf8_lossy]; [Tokio] the helpers of [tokio::io]
      ([write_all], [read_to_end], [copy], [copy_bidirectional]) as the class
      [TokioIo], with an instance.  [Users], [Processes]: what a user sees of its
      streams, and pools of tasks; [Echo], [Tunnel]: the invariants of the two
      pairs of programs; [ProgramRuns]: an executable run of each.
    - [UnitTests]: the crate's own unit tests and its property test.

    Fields, constructors and operations have the names of the source; an [async]
    function is split at its awaits ([open_start], [open_poll], [open_finish]),
    and a [select!] loop into its turns ([Reader.turn], [writer_turn],
    [closer_turn]), the watch tested first as [biased] says.

    ** What is proved

    - Wire format ([Codec]): frames survive encoding, arbitrary chunking and
      decoding; decoding is sound, its errors are exactly those of the code, and
      its buffer is bounded.
    - Ids ([Ids]): under every interleaving ids are distinct and of the right
      parity, as if allocated one after the other.
    - Windows ([SendWindowConc], [RecvWindowConc]): credit is never invented, no
      wake-up is lost, no consumed byte is credited twice or forgotten.
    - Streams ([RecvBuffer], [StreamFacts], [StreamInv]): the chunk queue is a
      byte FIFO; reads and writes on every branch; lifecycle, emission and
      wake-up invariants over all sequences of operations that do not overlap.
    - Stream races ([StreamCode], [StreamConc], [WriterConc]): run undisturbed the
      accesses are the operations; under every interleaving no reader and no opener
      misses its wake-up, bytes stay in order, what is sent is what [poll_write]
      reported as taken, within the credit granted, and a stream announces its end at
      most once.  Three lemmas exhibit races: [poll_read] can report end of file with
      the last payload in the buffer, and end of file instead of a reset, and a
      payload can follow a RST.
    - End to end ([FlowControl]): credit is conserved, bytes arrive complete and
      in order, end of stream means complete, and there is no credit deadlock,
      for two ends with the same initial window; with different windows a stall
      is exhibited.
    - Sessions ([System], [Overlap], [Dispatch], [Handshake], [Delivery],
      [Liveness]): the session invariant over all runs, with calls of [open] inside
      one another (each adds one to the bound on the registry), robustness against arbitrary input,
      complete shutdown with one GoAway that reaches the peer, the contracts of
      SYN handling, [open] and [accept], FIFO writing, keepalive.  Two lemmas
      exhibit races the code loses: data in flight after a local reset, and a
      shutdown between the check and the subscription of [accept].
    - Session races ([SessionConc]): with [k] overlapping opens the registry stays
      within [max_streams + k], ids stay distinct, one GoAway at most.  Two lemmas
      show that [max_streams] itself can be exceeded, and that an [open] that
      overlaps a shutdown can be left waiting on a closed session.
    - Tasks ([Tasks]): no task exits before the shutdown; after it the tasks and the
      calls of [accept] and [close] make a bounded number of moves and can always go
      on until they are done, except while the connection takes no bytes, and except
      for an [accept] that subscribes too late to see the shutdown; [close] returns
      only when all tasks have exited.
    - Two sessions ([Pair], [Duplex], [Endpoints], [Transparency]): as long as
      nobody resets a stream or closes a session, no keepalive deadline passes
      and the connection holds, on every stream what is read is what was written, in order, and what
      is missing is in the buffer or on its way; end of stream means everything
      was read.  The exclusion of resets is needed: see the race above.  A stream
      that one side keeps is not reset on the other, and the end of a stream was
      caused by a shutdown or a drop of the peer ([Lifecycle]).  When both grant the
      same window, credit is conserved on every stream ([Credit]).  The frames move
      without the codec here; the limits it checks come in with [Wires].
    - Bytes ([Wires]): with one [max_frame_size] of at most 16 MiB on both sides
      and a connection that holds, the system over bytes and the one over frames
      have the same sessions and show their users the same; so neither session ever
      finds a fault with the other, down to the decoder, the sessions stay
      transparent over bytes, and with equal windows moves of the tasks and reads of
      the peer let every writer on.  With different limits a session that closes is
      exhibited ([WireRun]).
    - Programs ([Echo], [Tunnel]): the echo client prints, for each line it was
      given except possibly the last, that line; through the tunnel each socket
      gets a prefix of what the other sent, and all of it when both copies
      succeed.  Both hold under every interleaving of whole polls and for every reply
      of the operating system, as long as the connection and the sessions hold.
    - Tests ([UnitTests]): every unit test passes, and the property test of the
      codec holds for every input of its generators.

    ** Fuel and bounds

    [RecvBuffer.read_into] runs its loop with two more turns than there are
    chunks, and always finishes ([read_into_spec]).  [FrameCodec.decode_all] has
    one turn per byte, and every frame takes twelve.  [poll_read] needs one turn
    of its loop, and any more give the same result ([poll_read_loop_total]).
    [Reader.run] has two turns per item and one more ([run_turns_finish]).
    [drain] has a turn per queued frame; in [Tasks] the loops have no fuel, and
    [close_terminates] bounds their moves.  The access-level loops return after
    the number of accesses [window_code_terminates] states.  Integers are [Z]
    with saturation, wrap-around and truncation written out; the configuration
    is only assumed to be one the builder can produce ([Config.valid]).

    ** What is not modelled

    Weak memory (accesses are sequentially consistent).  Time: a timeout is an
    outcome, tickers and deadlines may fire at any moment, and in [Liveness] a
    deadline is the set of pongs that beat it.  The transport below [FramedRead]
    and [FramedWrite]: in [Wires] it is a connection that accepts every write and
    delivers its bytes in order, in [Reader] and [Writer] also one that fails; in
    [Tasks] it may stall at any time, for good or for a while.  Dropping the future of [close] while it joins, which aborts the
    tasks.  Tracing.  The operations of [System] and [Duplex], and with the exception
    of [open] and the start of [accept] those of [Overlap] and [Tasks], run
    undisturbed, in any order; the overlaps inside them are the subject of
    [StreamConc], [WriterConc] and [SessionConc].  The systems of two sessions
    ([Duplex], [Wires] and the programs) have no [Stream::reset], no close, no
    keepalive deadline and no failure of the connection, and their polls do not
    overlap the delivery of a frame: what is shown of them holds under these
    conditions, and the lemmas named above show that some of them are needed.  The
    programs of [examples/] are safe in the
    sense above; that they get anywhere is not stated, and the echo client does
    not on lines longer than the windows, as it writes a whole line before it
    reads.  Their runs are looked at until a [main] returns or closes its session,
    and the set-up of tracing is left out.  [benches/] and the integration tests
    only call the library. *)

From stdpp Require Export base tactics list gmap strings numbers.

(** Results of fallible Rust code: [Result<A, E>]. *)
Inductive Result (E A : Type) : Type :=
| Ok (a : A)
| Err (e : E).
Arguments Ok {E A} a.
Arguments Err {E A} e.

#[global] Instance Result_ret (E : Type) : MRet (Result E) := λ A a, Ok a.
#[global] Instance Result_bind (E : Type) : MBind (Result E) := λ A B f m,
  match m with Ok a => f a | Err e => Err e end.

(** [Option::ok_or]. *)
Definition ok_or {E A : Type} (o : option A) (e : E) : Result E A :=
  match o with Some a => Ok a | None => Err e end.

Definition is_ok {E A : Type} (r : Result E A) : bool :=
  match r with Ok _ => true | Err _ => false end.

(** ** Tactics *)

(** Closes a decidable goal about concrete data: evaluate, then take apart the
    conjunctions, comparisons and [Forall]s that are left. *)
Ltac concrete :=
  repeat match goal with
    | |- Forall _ (_ :: _) => constructor | |- Forall _ [] => constructor
    | |- Forall _ _ => progress hnf
    | |- _ ∧ _ => split
    end;
  vm_compute;
  solve [repeat first
    [ reflexivity | discriminate | match goal with |- _ ∧ _ => split end
    | match goal with |- _ → _ => intro end | exact I ]].
