(* ===== verification/Machine.v ===== *)
(** * Rust machine integers and byte order

    The fixed-width arithmetic the crate uses ([u8], [u16], [u32]) on [Z], with
    wrap-around, saturation and checked addition written out, and the
    big-endian conversions [to_be_bytes] / [from_be_bytes] of the standard
    library over [list byte]. *)

From S2P Require Import Prelude.
From Stdlib Require Export Strings.Byte.
From Stdlib Require Import ZArith Lia.

Local Open Scope Z_scope.

#[global] Instance byte_eq_decision : EqDecision byte := Byte.byte_eq_dec.

(** The value ranges of the unsigned types. *)
Definition U8_MAX : Z := 255.
Definition U16_MAX : Z := 65535.
Definition U32_MAX : Z := 4294967295.
Definition USIZE_MAX : Z := 18446744073709551615.

Definition is_u16 (x : Z) : Prop := 0 ≤ x ≤ U16_MAX.
Definition is_u32 (x : Z) : Prop := 0 ≤ x ≤ U32_MAX.

#[global] Instance is_u16_dec x : Decision (is_u16 x).
Proof. unfold is_u16. apply _. Defined.
#[global] Instance is_u32_dec x : Decision (is_u32 x).
Proof. unfold is_u32. apply _. Defined.

(** [u32::saturating_add], [u32::checked_add], [u32::wrapping_add] and the
    truncating cast [as u32]. *)
Definition saturating_add_u32 (a b : Z) : Z := Z.min (a + b) U32_MAX.
Definition checked_add_u32 (a b : Z) : option Z :=
  if a + b <=? U32_MAX then Some (a + b) else None.
Definition wrapping_add_u32 (a b : Z) : Z := (a + b) mod (U32_MAX + 1).
Definition as_u32 (x : Z) : Z := x mod (U32_MAX + 1).

(** [u8] values as bytes. *)
Definition u8_val (b : byte) : Z := Z.of_N (Byte.to_N b).
Definition u8_of (z : Z) : byte :=
  default Byte.x00 (Byte.of_N (Z.to_N (z mod 256))).

Lemma u8_val_range (b : byte) : 0 ≤ u8_val b < 256.
Proof. unfold u8_val. pose proof (Byte.to_N_bounded b). lia. Qed.

Lemma u8_val_of (z : Z) : u8_val (u8_of z) = z mod 256.
Proof.
  unfold u8_val, u8_of. pose proof (Z.mod_pos_bound z 256 ltac:(lia)).
  destruct (Byte.of_N (Z.to_N (z mod 256))) as [b|] eqn:E; simpl.
  - apply Byte.to_of_N in E. lia.
  - apply Byte.of_N_None_iff in E. lia.
Qed.

Lemma u8_val_inj (a b : byte) : u8_val a = u8_val b → a = b.
Proof.
  unfold u8_val. intros H%N2Z.inj.
  pose proof (Byte.of_to_N a) as Ha. pose proof (Byte.of_to_N b) as Hb. congruence.
Qed.

Lemma u8_of_val (b : byte) : u8_of (u8_val b) = b.
Proof.
  apply u8_val_inj. rewrite u8_val_of. apply Z.mod_small, u8_val_range.
Qed.

(** [n]-byte big-endian encoding: [to_be_bytes] of a [u16] is [be_bytes 2], of
    a [u32] is [be_bytes 4]; [from_be_bytes] is [be_val]. *)
Fixpoint be_bytes (n : nat) (x : Z) : list byte :=
  match n with
  | O => []
  | S n' => u8_of (Z.shiftr x (8 * Z.of_nat n')) :: be_bytes n' x
  end.

Fixpoint be_val (l : list byte) : Z :=
  match l with
  | [] => 0
  | b :: l' => Z.shiftl (u8_val b) (8 * Z.of_nat (length l')) + be_val l'
  end.

Lemma length_be_bytes n x : length (be_bytes n x) = n.
Proof. induction n; simpl; congruence. Qed.

Lemma be_val_bound (l : list byte) : 0 ≤ be_val l < 2 ^ (8 * Z.of_nat (length l)).
Proof.
  induction l as [|b l IH]; cbn [be_val length]; [lia|].
  rewrite Z.shiftl_mul_pow2 by lia. pose proof (u8_val_range b).
  replace (8 * Z.of_nat (S (length l))) with (8 + 8 * Z.of_nat (length l)) by lia.
  rewrite Z.pow_add_r by lia. nia.
Qed.

Lemma be_val_be_bytes n x :
  be_val (be_bytes n x) = x mod 2 ^ (8 * Z.of_nat n).
Proof.
  induction n as [|n IH]; cbn [be_val be_bytes]; [now rewrite Z.mod_1_r|].
  rewrite length_be_bytes, IH, u8_val_of, Z.shiftl_mul_pow2, Z.shiftr_div_pow2 by lia.
  replace (8 * Z.of_nat (S n)) with (8 * Z.of_nat n + 8) by lia.
  rewrite Z.pow_add_r by lia. change (2 ^ 8) with 256.
  rewrite Z.rem_mul_r by lia. lia.
Qed.

Lemma be_bytes_add_mul n x y :
  be_bytes n (x * 2 ^ (8 * Z.of_nat n) + y) = be_bytes n y.
Proof.
  assert (∀ m k, (m ≤ k)%nat →
    be_bytes m (x * 2 ^ (8 * Z.of_nat k) + y) = be_bytes m y) as H; [|by apply H].
  intros m k. induction m as [|m IH]; intros Hk; [done|]. cbn [be_bytes].
  rewrite IH by lia. f_equal. apply u8_val_inj.
  rewrite !u8_val_of, !Z.shiftr_div_pow2 by lia.
  replace (8 * Z.of_nat k) with (8 * (Z.of_nat k - Z.of_nat m - 1) + 8 + 8 * Z.of_nat m) by lia.
  rewrite !Z.pow_add_r by lia. change (2 ^ 8) with 256.
  rewrite !Z.mul_assoc, Z.add_comm, Z.div_add by lia.
  now rewrite Z.add_comm, Z.add_mod, Z.mod_mul, Z.add_0_l, Z.mod_mod by lia.
Qed.

Lemma be_bytes_be_val (l : list byte) : be_bytes (length l) (be_val l) = l.
Proof.
  induction l as [|b l IH]; [done|]. cbn [be_bytes be_val length].
  pose proof (be_val_bound l).
  rewrite Z.shiftl_mul_pow2 by lia. rewrite be_bytes_add_mul, IH. f_equal.
  rewrite Z.shiftr_div_pow2 by lia. rewrite Z.div_add_l by lia.
  rewrite Z.div_small by lia. rewrite Z.add_0_r. apply u8_of_val.
Qed.

Lemma be_val_be_bytes_u32 x : is_u32 x → be_val (be_bytes 4 x) = x.
Proof.
  unfold is_u32, U32_MAX. intros. rewrite be_val_be_bytes. apply Z.mod_small. simpl. lia.
Qed.

Lemma be_val_be_bytes_u16 x : is_u16 x → be_val (be_bytes 2 x) = x.
Proof.
  unfold is_u16, U16_MAX. intros. rewrite be_val_be_bytes. apply Z.mod_small. simpl. lia.
Qed.
