(* ===== verification/Interleaving.v ===== *)
(** * Interleavings of threads over shared memory

    The lock-free parts of the crate are modelled at the granularity of their
    atomic accesses: a thread is a program counter with its locals, one step of
    a thread is one atomic access (or one library call documented as atomic) on
    the shared state, and the system interleaves the steps of any number of
    threads.  Memory is sequentially consistent. *)

From S2P Require Import Prelude.
From stdpp Require Export relations.

Section Interleaving.
Context {Sh Lo : Type}.
Variable tstep : Lo → Sh → Lo → Sh → Prop.

(** A configuration: the shared state and the threads. *)
Record config : Type := mk_config { shared : Sh; threads : list Lo }.

Inductive sys_step : config → config → Prop :=
| Sys_step (i : nat) (l l' : Lo) (s s' : Sh) (ts : list Lo) :
    ts !! i = Some l →
    tstep l s l' s' →
    sys_step (mk_config s ts) (mk_config s' (<[i := l']> ts)).

Definition reachable (c0 c : config) : Prop := rtc sys_step c0 c.

(** Rule induction: a predicate kept by every thread step holds in every
    reachable configuration. *)
Lemma reachable_invariant (P : config → Prop) (c0 : config) :
  P c0 →
  (∀ i l l' s s' ts,
     ts !! i = Some l → tstep l s l' s' →
     P (mk_config s ts) → P (mk_config s' (<[i := l']> ts))) →
  ∀ c, reachable c0 c → P c.
Proof.
  intros H0 Hstep c Hr. induction Hr as [|c c1 c2 Hs Hr IH]; [done|].
  apply IH. destruct Hs as [i l l' s s' ts Hi Ht]. eauto.
Qed.

End Interleaving.

Arguments config : clear implicits.
Arguments mk_config {Sh Lo}.
Arguments shared {Sh Lo}.
Arguments threads {Sh Lo}.

(** Facts about [Forall] and [Exists] on a list of threads after one of them
    moved. *)
Section Threads.
Context {Lo : Type}.
Implicit Types (ts : list Lo) (P : Lo → Prop).

Lemma Forall_insert_thread P ts i l' :
  Forall P ts → P l' → Forall P (<[i := l']> ts).
Proof. intros. by apply Forall_insert. Qed.

(** The moving thread may itself be the witness, so it is excluded. *)
Lemma Exists_insert_other P ts i l l' :
  ts !! i = Some l → ¬ P l → Exists P ts → Exists P (<[i := l']> ts).
Proof.
  intros Hi Hl (x & Hx & HP)%Exists_exists.
  apply list_elem_of_lookup in Hx as [j Hj].
  apply Exists_exists. exists x. split; [|done].
  apply list_elem_of_lookup. exists j. rewrite list_lookup_insert_ne; [done|].
  intros ->. congruence.
Qed.

Lemma Exists_insert_here P ts i l l' :
  ts !! i = Some l → P l' → Exists P (<[i := l']> ts).
Proof.
  intros Hi Hl. apply Exists_exists. exists l'. split; [|done].
  apply list_elem_of_lookup. exists i. apply list_lookup_insert_eq.
  by eapply lookup_lt_Some.
Qed.

Lemma Exists_none P ts : Forall (λ l, ¬ P l) ts → ¬ Exists P ts.
Proof. rewrite Forall_Exists_neg. done. Qed.

End Threads.
