(* ===== verification/Errors.v ===== *)
(** * Errors ([src/error.rs])

    The crate's [Error] and wire-level [ErrorCode], the numeric encoding of a
    code in [GoAway] frames, the conversion to [std::io::Error] and the
    [Display] texts. *)

From stdpp Require Import pretty.
From S2P Require Import Prelude Machine.

Local Open Scope Z_scope.

Module ErrorCode.

(** [enum ErrorCode]. *)
Inductive t : Type :=
| Normal
| ProtocolError
| InternalError
| FlowControlError
| StreamLimit
| InvalidVersion
| Timeout
| Unknown (v : Z).

#[global] Instance t_eq_dec : EqDecision t.
Proof. solve_decision. Defined.

(** [ErrorCode::as_u32]. *)
Definition as_u32 (c : t) : Z :=
  match c with
  | Normal => 0
  | ProtocolError => 1
  | InternalError => 2
  | FlowControlError => 3
  | StreamLimit => 4
  | InvalidVersion => 5
  | Timeout => 6
  | Unknown v => v
  end.

(** [impl From<u32> for ErrorCode]. *)
Definition from_u32 (v : Z) : t :=
  match v with
  | 0 => Normal
  | 1 => ProtocolError
  | 2 => InternalError
  | 3 => FlowControlError
  | 4 => StreamLimit
  | 5 => InvalidVersion
  | 6 => Timeout
  | other => Unknown other
  end.

(** [impl Display for ErrorCode]. *)
Definition fmt (c : t) : string :=
  match c with
  | Normal => "normal"
  | ProtocolError => "protocol error"
  | InternalError => "internal error"
  | FlowControlError => "flow control error"
  | StreamLimit => "stream limit"
  | InvalidVersion => "invalid version"
  | Timeout => "timeout"
  | Unknown v => "unknown error code " +:+ pretty v
  end.

(** A code as the type can hold it: the [u32] of [Unknown] is in range. *)
Definition wf (c : t) : Prop := is_u32 (as_u32 c).

(** The codes that decoding produces: [Unknown] never aliases a named code. *)
Definition canonical (c : t) : Prop :=
  match c with Unknown v => 7 ≤ v | _ => True end.

Lemma as_u32_from_u32 (v : Z) : as_u32 (from_u32 v) = v.
Proof.
  destruct v as [|p|p]; [done| |done].
  do 3 (destruct p as [p|p|]; try done).
Qed.

Lemma from_u32_canonical (v : Z) : is_u32 v → canonical (from_u32 v).
Proof.
  unfold is_u32. intros [Hv _]. destruct v as [|p|p]; [done| |lia].
  do 3 (destruct p as [p|p|]; try done); simpl; lia.
Qed.

Lemma from_u32_as_u32 (c : t) : canonical c → from_u32 (as_u32 c) = c.
Proof.
  destruct c as [| | | | | | |v]; try done. simpl. intros Hv.
  destruct v as [|p|p]; [lia| |lia].
  do 3 (destruct p as [p|p|]; try done); lia.
Qed.

Lemma as_u32_inj_canonical (c d : t) :
  canonical c → canonical d → as_u32 c = as_u32 d → c = d.
Proof.
  intros Hc Hd E. rewrite <- (from_u32_as_u32 c), <- (from_u32_as_u32 d) by done.
  by rewrite E.
Qed.

End ErrorCode.

Module Io.

(** The [std::io::ErrorKind]s the crate builds or matches. *)
Inductive ErrorKind : Type :=
| NotConnected | ConnectionReset | TimedOut | InvalidData | BrokenPipe
| OtherKind | OsKind (code : Z).

#[global] Instance ErrorKind_eq_dec : EqDecision ErrorKind.
Proof. solve_decision. Defined.

End Io.

Module Error.

(** [enum Error], mutually with [std::io::Error], which may carry a crate error
    ([io::Error::new(kind, err)]), a message ([io::Error::new(kind, "...")]) or
    nothing (an error of the transport). *)
Inductive t : Type :=
| SessionClosed
| GoAway (c : ErrorCode.t)
| StreamReset (id : Z)
| TooManyStreams (limit : Z)
| Timeout
| Protocol (msg : string)
| Io (e : io_error)
with io_error : Type :=
| io_new (kind : Io.ErrorKind) (inner : t)
| io_msg (kind : Io.ErrorKind) (msg : string)
| io_os (kind : Io.ErrorKind).

(** [io::Error::kind]. *)
Definition kind (e : io_error) : Io.ErrorKind :=
  match e with io_new k _ | io_msg k _ | io_os k => k end.

(** [impl From<Error> for io::Error]. *)
Definition into_io (err : t) : io_error :=
  match err with
  | Io e => e
  | SessionClosed | GoAway _ => io_new Io.NotConnected err
  | StreamReset _ => io_new Io.ConnectionReset err
  | Timeout => io_new Io.TimedOut err
  | Protocol _ => io_new Io.InvalidData err
  | TooManyStreams _ => io_new Io.OtherKind err
  end.

(** [impl From<io::Error> for Error] (the [#[from]] of the [Io] variant). *)
Definition from_io (e : io_error) : t := Io e.

(** [reader::run]'s classification of an error into the code it closes with. *)
Definition is_protocol (e : t) : bool :=
  match e with Protocol _ => true | _ => false end.

End Error.

(** The crate-wide [Result<T>] alias. *)
Abbreviation MuxResult := (Result Error.t).
