(* ===== verification/Config.v ===== *)
(** * Session configuration ([src/config.rs]) *)

From S2P Require Import Prelude Machine.

Local Open Scope Z_scope.

(** [std::time::Duration], in nanoseconds. *)
Abbreviation Duration := Z.
Definition from_secs (s : Z) : Duration := s * 1000000000.

Module Config.

(** [struct Config]. *)
Record t : Type := mk {
  initial_stream_window : Z;          (* u32 *)
  max_frame_size : Z;                 (* u32 *)
  max_streams : Z;                    (* usize *)
  keepalive_interval : option Duration;
  keepalive_timeout : Duration;
  open_timeout : Duration;
}.

Definition DEFAULT_INITIAL_STREAM_WINDOW : Z := 256 * 1024.
Definition DEFAULT_MAX_FRAME_SIZE : Z := 64 * 1024.
Definition DEFAULT_MAX_STREAMS : Z := 1024.
Definition DEFAULT_KEEPALIVE_INTERVAL : Duration := from_secs 30.
Definition DEFAULT_KEEPALIVE_TIMEOUT : Duration := from_secs 30.
Definition DEFAULT_OPEN_TIMEOUT : Duration := from_secs 10.

(** [impl Default for Config]. *)
Definition default : t := {|
  initial_stream_window := DEFAULT_INITIAL_STREAM_WINDOW;
  max_frame_size := DEFAULT_MAX_FRAME_SIZE;
  max_streams := DEFAULT_MAX_STREAMS;
  keepalive_interval := Some DEFAULT_KEEPALIVE_INTERVAL;
  keepalive_timeout := DEFAULT_KEEPALIVE_TIMEOUT;
  open_timeout := DEFAULT_OPEN_TIMEOUT;
|}.

(** What the types of the fields guarantee. *)
Definition typed (c : t) : Prop :=
  is_u32 (initial_stream_window c) ∧ is_u32 (max_frame_size c) ∧
  0 ≤ max_streams c ≤ USIZE_MAX.

(** What the builder guarantees on top: no limit is zero. *)
Definition valid (c : t) : Prop :=
  typed c ∧ 1 ≤ initial_stream_window c ∧ 1 ≤ max_frame_size c ∧ 1 ≤ max_streams c.

End Config.

Module ConfigBuilder.

(** [struct ConfigBuilder]: a wrapper of the configuration being built. *)
Record t : Type := mk { inner : Config.t }.

(** [Config::builder] / [ConfigBuilder::default]. *)
Definition builder : t := mk Config.default.

Definition initial_stream_window (bytes : Z) (b : t) : t :=
  let c := inner b in
  mk {| Config.initial_stream_window := Z.max bytes 1;
        Config.max_frame_size := Config.max_frame_size c;
        Config.max_streams := Config.max_streams c;
        Config.keepalive_interval := Config.keepalive_interval c;
        Config.keepalive_timeout := Config.keepalive_timeout c;
        Config.open_timeout := Config.open_timeout c |}.

Definition max_frame_size (bytes : Z) (b : t) : t :=
  let c := inner b in
  mk {| Config.initial_stream_window := Config.initial_stream_window c;
        Config.max_frame_size := Z.max bytes 1;
        Config.max_streams := Config.max_streams c;
        Config.keepalive_interval := Config.keepalive_interval c;
        Config.keepalive_timeout := Config.keepalive_timeout c;
        Config.open_timeout := Config.open_timeout c |}.

Definition max_streams (n : Z) (b : t) : t :=
  let c := inner b in
  mk {| Config.initial_stream_window := Config.initial_stream_window c;
        Config.max_frame_size := Config.max_frame_size c;
        Config.max_streams := Z.max n 1;
        Config.keepalive_interval := Config.keepalive_interval c;
        Config.keepalive_timeout := Config.keepalive_timeout c;
        Config.open_timeout := Config.open_timeout c |}.

Definition keepalive_interval (every : option Duration) (b : t) : t :=
  let c := inner b in
  mk {| Config.initial_stream_window := Config.initial_stream_window c;
        Config.max_frame_size := Config.max_frame_size c;
        Config.max_streams := Config.max_streams c;
        Config.keepalive_interval := every;
        Config.keepalive_timeout := Config.keepalive_timeout c;
        Config.open_timeout := Config.open_timeout c |}.

Definition keepalive_timeout (dur : Duration) (b : t) : t :=
  let c := inner b in
  mk {| Config.initial_stream_window := Config.initial_stream_window c;
        Config.max_frame_size := Config.max_frame_size c;
        Config.max_streams := Config.max_streams c;
        Config.keepalive_interval := Config.keepalive_interval c;
        Config.keepalive_timeout := dur;
        Config.open_timeout := Config.open_timeout c |}.

Definition open_timeout (dur : Duration) (b : t) : t :=
  let c := inner b in
  mk {| Config.initial_stream_window := Config.initial_stream_window c;
        Config.max_frame_size := Config.max_frame_size c;
        Config.max_streams := Config.max_streams c;
        Config.keepalive_interval := Config.keepalive_interval c;
        Config.keepalive_timeout := Config.keepalive_timeout c;
        Config.open_timeout := dur |}.

(** [ConfigBuilder::build]. *)
Definition build (b : t) : Config.t := inner b.

(** The calls a program can chain on a builder, with arguments of their types. *)
Inductive call : Type :=
| CWindow (bytes : Z) | CFrame (bytes : Z) | CStreams (n : Z)
| CInterval (every : option Duration) | CKaTimeout (dur : Duration)
| COpenTimeout (dur : Duration).

Definition call_typed (c : call) : Prop :=
  match c with
  | CWindow n | CFrame n => is_u32 n
  | CStreams n => 0 ≤ n ≤ USIZE_MAX
  | _ => True
  end.

Definition apply_call (b : t) (c : call) : t :=
  match c with
  | CWindow n => initial_stream_window n b
  | CFrame n => max_frame_size n b
  | CStreams n => max_streams n b
  | CInterval e => keepalive_interval e b
  | CKaTimeout d => keepalive_timeout d b
  | COpenTimeout d => open_timeout d b
  end.

Lemma apply_call_valid (b : t) (c : call) :
  call_typed c → Config.valid (inner b) → Config.valid (inner (apply_call b c)).
Proof.
  destruct c; cbn; unfold Config.valid, Config.typed, is_u32, U32_MAX, USIZE_MAX;
    cbn; lia.
Qed.

(** C39: Every configuration the builder can produce is usable: whatever calls
    are chained, in whatever order and with whatever arguments of their types,
    the window, the frame limit and the stream limit are at least 1 and fit
    their types; the default already is. *)
Theorem builder_always_valid (calls : list call) :
  Forall call_typed calls → Config.valid (build (foldl apply_call builder calls)).
Proof.
  intros Hc. unfold build. assert (Config.valid (inner builder)) as H0 by concrete.
  revert H0. generalize builder. induction Hc as [|c calls Hc _ IH]; intros b Hb; [done|].
  cbn. apply IH. by apply apply_call_valid.
Qed.

Lemma builder_always_valid_witness :
  Config.valid (build (foldl apply_call builder [CWindow 0; CStreams 0; CWindow 5; CFrame 0])).
Proof. apply builder_always_valid. repeat constructor; concrete. Defined.

End ConfigBuilder.
