(* ===== verification/Ids.v ===== *)
(** * Stream identifiers ([src/util/id.rs])

    Roles, the parity rule and the lock-free allocator: the sequential
    [allocate], and its compare-and-swap loop as a machine run by any number of
    threads. *)

From S2P Require Import Prelude Machine Interleaving.
From Stdlib Require Import ZArith Lia.

Local Open Scope Z_scope.

Abbreviation StreamId := Z.

Module Role.

(** [enum Role]. *)
Inductive t : Type := Client | Server.

#[global] Instance t_eq_dec : EqDecision t.
Proof. solve_decision. Defined.

(** [Role::first_id]. *)
Definition first_id (r : t) : StreamId :=
  match r with Client => 1 | Server => 2 end.

(** [Role::owns]; [is_multiple_of(2)] is a remainder test. *)
Definition owns (r : t) (id : StreamId) : bool :=
  match r with
  | Client => negb (id mod 2 =? 0)
  | Server => negb (id =? 0) && (id mod 2 =? 0)
  end.

(** The role of the other end of the connection. *)
Definition peer (r : t) : t := match r with Client => Server | Server => Client end.

Lemma owns_exclusive (r : t) (id : StreamId) : owns r id = true → owns (peer r) id = false.
Proof.
  destruct r; simpl; destruct (id mod 2 =? 0), (id =? 0); simpl; done.
Qed.

Lemma owns_nonzero (r : t) (id : StreamId) : owns r id = true → id ≠ 0.
Proof. destruct r; simpl; intros H ->; discriminate. Qed.

Lemma owns_first_plus (r : t) (n : Z) : 0 ≤ n → owns r (first_id r + 2 * n) = true.
Proof.
  intros Hn. destruct r; simpl.
  - rewrite (Z.mul_comm 2), Z.mod_add by lia. done.
  - rewrite (Z.mul_comm 2), Z.mod_add by lia. simpl.
    apply andb_true_intro. split; [|done]. apply negb_true_iff, Z.eqb_neq. lia.
Qed.

End Role.

Module StreamIdAllocator.

(** [struct StreamIdAllocator]: the atomic counter. *)
Record t : Type := mk { next : Z }.

(** [StreamIdAllocator::new]. *)
Definition new (role : Role.t) : t := mk (Role.first_id role).

(** [StreamIdAllocator::allocate], run without interference: the
    compare-and-swap succeeds at once. *)
Definition allocate (a : t) : option StreamId * t :=
  let cur := next a in
  match checked_add_u32 cur 2 with
  | None => (None, a)
  | Some nxt => (Some cur, mk nxt)
  end.

(** Repeated calls on one allocator: the results, in call order. *)
Fixpoint allocate_n (n : nat) (a : t) : list (option StreamId) * t :=
  match n with
  | O => ([], a)
  | S n' =>
    let '(r, a1) := allocate a in
    let '(rs, a2) := allocate_n n' a1 in
    (r :: rs, a2)
  end.

(** The loop at the granularity of its atomic accesses. *)
Inductive pc : Type :=
| ALoop                       (* about to load [next] *)
| ACas (cur nxt : Z)          (* about to compare-and-swap *)
| ADone (r : option StreamId).

(** One access.  [spurious] is the failure [compare_exchange_weak] may report
    although the values agree. *)
Definition step (spurious : bool) (p : pc) (a : t) : pc * t :=
  match p with
  | ALoop =>
    let cur := next a in
    match checked_add_u32 cur 2 with
    | None => (ADone None, a)
    | Some nxt => (ACas cur nxt, a)
    end
  | ACas cur nxt =>
    if negb spurious && (next a =? cur) then (ADone (Some cur), mk nxt) else (ALoop, a)
  | ADone r => (ADone r, a)
  end.

(** One thread running alone, with the given spurious failures. *)
Fixpoint run (spurious : list bool) (p : pc) (a : t) : pc * t :=
  match spurious with
  | [] => (p, a)
  | b :: bs => let '(p', a') := step b p a in run bs p' a'
  end.

(** The allocator shared by a session's tasks, with the ids handed out so far,
    in the order of the successful swaps. *)
Record shared_alloc : Type := mk_shared { alloc : t; handed_out : list StreamId }.

Inductive tstep : pc → shared_alloc → pc → shared_alloc → Prop :=
| T_access (b : bool) (p p' : pc) (a a' : t) (log : list StreamId) :
    step b p a = (p', a') →
    (∀ r, p ≠ ADone r) →
    tstep p (mk_shared a log) p'
      (mk_shared a' (match p' with ADone (Some id) => log ++ [id] | _ => log end))
| T_call (r : option StreamId) (s : shared_alloc) :   (* the thread calls [allocate] again *)
    tstep (ADone r) s ALoop s.

(** [n] threads about to call [allocate] on a fresh allocator. *)
Definition init (role : Role.t) (n : nat) : config shared_alloc pc :=
  mk_config (mk_shared (new role) []) (replicate n ALoop).

(** The ids of a role in allocation order. *)
Definition ids_upto (role : Role.t) (k : nat) : list StreamId :=
  (λ i, Role.first_id role + 2 * Z.of_nat i) <$> seq 0 k.

Lemma ids_upto_S role k :
  ids_upto role (S k) = ids_upto role k ++ [Role.first_id role + 2 * Z.of_nat k].
Proof. unfold ids_upto. rewrite seq_S, fmap_app. done. Qed.

Lemma NoDup_ids_upto role k : NoDup (ids_upto role k).
Proof. apply NoDup_fmap_2; [|apply NoDup_seq]. intros i j. lia. Qed.

Lemma checked_add_u32_Some a b c : checked_add_u32 a b = Some c → c = a + b ∧ c ≤ U32_MAX.
Proof.
  unfold checked_add_u32. destruct (Z.leb_spec (a + b) U32_MAX); [|done].
  intros [= <-]. lia.
Qed.

(** What every reachable configuration satisfies: the ids handed out are an
    initial segment of the role's ids and [next] is the one after them. *)
Definition alloc_inv (role : Role.t) (c : config shared_alloc pc) : Prop :=
  (∃ k : nat, handed_out (shared c) = ids_upto role k ∧
     next (alloc (shared c)) = Role.first_id role + 2 * Z.of_nat k ∧
     next (alloc (shared c)) ≤ U32_MAX) ∧
  Forall (λ p, match p with
               | ACas cur nxt => nxt = cur + 2 ∧ nxt ≤ U32_MAX
               | _ => True end) (threads c).

Lemma alloc_inv_init role n : alloc_inv role (init role n).
Proof.
  split; simpl.
  - exists 0%nat. destruct role; unfold U32_MAX; simpl; split_and!; done.
  - by apply Forall_replicate.
Qed.

Lemma alloc_inv_step role i p p' s s' ts :
  ts !! i = Some p → tstep p s p' s' →
  alloc_inv role (mk_config s ts) → alloc_inv role (mk_config s' (<[i := p']> ts)).
Proof.
  intros Hi Ht [(k & Hlog & Hnext & Hmax) Hts]. simpl in *.
  pose proof (Forall_lookup_1 _ _ _ _ Hts Hi) as Hp.
  destruct Ht as [b p p' a a' log Hstep Hnd|]; simpl in *; subst.
  2: { split; [by exists k|by apply Forall_insert_thread]. }
  destruct p as [|cur nxt|r]; simpl in Hstep; [| |by destruct (Hnd r)].
  - destruct (checked_add_u32 (next a) 2) as [nx|] eqn:E; simplify_eq.
    + apply checked_add_u32_Some in E. split; [by exists k|].
      apply Forall_insert_thread; [done|]. simpl. lia.
    + split; [by exists k|by apply Forall_insert_thread].
  - destruct (negb b && (next a =? cur)) eqn:E; simplify_eq.
    + apply andb_prop in E as [_ E]. apply Z.eqb_eq in E. subst cur. split.
      * exists (S k). simpl. rewrite ids_upto_S. split_and!; [by rewrite Hnext|lia|lia].
      * by apply Forall_insert_thread.
    + split; [by exists k|by apply Forall_insert_thread].
Qed.

Lemma alloc_inv_reachable role n c :
  reachable tstep (init role n) c → alloc_inv role c.
Proof.
  apply (reachable_invariant tstep (alloc_inv role)).
  - apply alloc_inv_init.
  - intros. eapply alloc_inv_step; eauto.
Qed.

(** ** Sequential behaviour *)

Lemma allocate_in_range role k :
  Role.first_id role + 2 * Z.of_nat (S k) ≤ U32_MAX →
  allocate (mk (Role.first_id role + 2 * Z.of_nat k)) =
    (Some (Role.first_id role + 2 * Z.of_nat k), mk (Role.first_id role + 2 * Z.of_nat (S k))).
Proof.
  intros H. unfold allocate, checked_add_u32. cbn [next].
  destruct (Z.leb_spec (Role.first_id role + 2 * Z.of_nat k + 2) U32_MAX); [|lia].
  do 2 f_equal. lia.
Qed.

Lemma allocate_n_ids role j k :
  Role.first_id role + 2 * Z.of_nat (j + k) ≤ U32_MAX →
  allocate_n k (mk (Role.first_id role + 2 * Z.of_nat j)) =
    ((λ i, Some (Role.first_id role + 2 * Z.of_nat i)) <$> seq j k,
     mk (Role.first_id role + 2 * Z.of_nat (j + k))).
Proof.
  revert j. induction k as [|k IH]; intros j Hj.
  - simpl. by rewrite Nat.add_0_r.
  - cbn [allocate_n seq fmap list_fmap]. rewrite allocate_in_range by lia.
    rewrite IH by lia. by rewrite Nat.add_succ_r.
Qed.

Lemma allocate_n_new role k :
  Role.first_id role + 2 * Z.of_nat k ≤ U32_MAX →
  fst (allocate_n k (new role)) = Some <$> ids_upto role k.
Proof.
  intros H. unfold new.
  replace (Role.first_id role) with (Role.first_id role + 2 * Z.of_nat 0) by lia.
  rewrite allocate_n_ids by lia. unfold ids_upto. by rewrite <- list_fmap_compose.
Qed.

Lemma ids_upto_owned role k :
  Forall (λ id, Role.owns role id = true ∧ Role.owns (Role.peer role) id = false ∧ id ≠ 0)
    (ids_upto role k).
Proof.
  apply Forall_fmap, Forall_forall. intros i _. cbn.
  pose proof (Role.owns_first_plus role (Z.of_nat i) ltac:(lia)) as H.
  eauto using Role.owns_exclusive, Role.owns_nonzero.
Qed.

Lemma length_ids_upto role k : length (ids_upto role k) = k.
Proof. unfold ids_upto. by rewrite length_fmap, length_seq. Qed.

(** A thread alone: [k] spurious failures, then a swap that is not disturbed. *)
Lemma run_done bs r a : run bs (ADone r) a = (ADone r, a).
Proof. induction bs; simpl; auto. Qed.

Definition k_failures (k : nat) : list bool := mjoin (replicate k [false; true]).

Lemma run_with_failures k a :
  run (k_failures k ++ [false; false]) ALoop a =
    (ADone (fst (allocate a)), snd (allocate a)).
Proof.
  unfold k_failures, allocate. induction k as [|k IH]; cbn.
  - destruct (checked_add_u32 (next a) 2); cbn; [by rewrite Z.eqb_refl|done].
  - destruct (checked_add_u32 (next a) 2); cbn; [exact IH|by rewrite run_done].
Qed.

End StreamIdAllocator.

Import StreamIdAllocator.

(** C26: However the tasks of a session interleave their
    [allocate] calls, atomic access by atomic access, the ids handed out are,
    in the order of the successful swaps, exactly what the same number of
    sequential calls returns: pairwise distinct, of the session's own parity
    (so never one the peer may allocate) and never the reserved id 0. *)
Theorem allocate_linearizable (role : Role.t) (n : nat) (c : config shared_alloc pc) :
  reachable tstep (init role n) c →
  let ids := handed_out (shared c) in
  Some <$> ids = fst (allocate_n (length ids) (new role)) ∧
  NoDup ids ∧
  Forall (λ id, Role.owns role id = true ∧ Role.owns (Role.peer role) id = false ∧ id ≠ 0) ids.
Proof.
  intros [(k & Hids & Hnext & Hmax) _]%alloc_inv_reachable. simpl.
  rewrite Hids, length_ids_upto, allocate_n_new by lia.
  split_and!; [done|apply NoDup_ids_upto|apply ids_upto_owned].
Qed.

(** Two threads race: both load 1, the second swaps first, the first fails. *)
Lemma allocate_linearizable_witness :
  let c := mk_config (mk_shared (mk 3) [1]) [ALoop; ADone (Some 1)] in
  reachable tstep (init Role.Client 2) c ∧
  NoDup (handed_out (shared c)).
Proof.
  cut (reachable tstep (init Role.Client 2)
         (mk_config (mk_shared (mk 3) [1]) [ALoop; ADone (Some 1)])).
  { intros H. split; [exact H|]. apply (allocate_linearizable Role.Client 2 _ H). }
  unfold init, reachable. simpl.
  eapply rtc_l; [apply (Sys_step tstep 0 ALoop); [done|]; by eapply (T_access false)|].
  eapply rtc_l; [apply (Sys_step tstep 1 ALoop); [done|]; by eapply (T_access false)|].
  eapply rtc_l; [apply (Sys_step tstep 1 (ACas 1 3)); [done|]; by eapply (T_access false)|].
  eapply rtc_l; [apply (Sys_step tstep 0 (ACas 1 3)); [done|]; by eapply (T_access false)|].
  apply rtc_refl.
Defined.

(** The compare-and-swap loop, run alone, stops
    after any finite number [k] of spurious failures of
    [compare_exchange_weak], with the result and the counter of the sequential
    [allocate]. *)
Lemma allocate_loop_terminates (k : nat) (a : t) :
  run (k_failures k ++ [false; false]) ALoop a =
    (ADone (fst (allocate a)), snd (allocate a)).
Proof. apply run_with_failures. Qed.

(** [allocate] fails exactly when the counter is
    within one stride of the end of the 32-bit space; the failure leaves the
    allocator as it was, so every later call fails too, and a success returns
    the counter and advances it by 2 without wrapping. *)
Lemma allocate_exhaustion (a : t) :
  is_u32 (next a) →
  if decide (next a ≤ U32_MAX - 2)
  then allocate a = (Some (next a), mk (next a + 2)) ∧ is_u32 (next a + 2)
  else ∀ n, allocate_n n a = (replicate n None, a).
Proof.
  unfold is_u32. intros Hu. case_decide as Hd.
  - unfold allocate, checked_add_u32.
    destruct (Z.leb_spec (next a + 2) U32_MAX); [|lia]. split; [done|lia].
  - assert (allocate a = (None, a)) as E.
    { unfold allocate, checked_add_u32. destruct (Z.leb_spec (next a + 2) U32_MAX); [lia|done]. }
    intros n. induction n as [|n IH]; [done|]. cbn [allocate_n]. by rewrite E, IH.
Qed.

