(* ===== verification/Frames.v ===== *)
(** * Frames ([src/protocol/frame.rs])

    The lifecycle flags and the in-memory frames.  [Flags] is declared through
    the [bitflags!] macro: the struct and its constants are in the source, the
    methods are the macro's, so they are a parameter ([BitflagsOps]) with the
    crate's documented behaviour as laws. *)

From S2P Require Import Prelude Machine Errors.
From Stdlib Require Import ZArith Lia.

Local Open Scope Z_scope.

(** [bytes::Bytes] is represented by its contents. *)
Abbreviation Bytes := (list byte).

Module Flags.

(** [struct Flags: u16] and its constants. *)
Record t : Type := mk { bits : Z }.

#[global] Instance t_eq_dec : EqDecision t.
Proof. solve_decision. Defined.

Definition SYN : t := mk (Z.shiftl 1 0).
Definition ACK : t := mk (Z.shiftl 1 1).
Definition FIN : t := mk (Z.shiftl 1 2).
Definition RST : t := mk (Z.shiftl 1 3).

(** [Flags::empty()]. *)
Definition empty : t := mk 0.

(** The union of the declared flags. *)
Definition all_bits : Z :=
  Z.lor (Z.lor (bits SYN) (bits ACK)) (Z.lor (bits FIN) (bits RST)).

(** A value with declared bits only. *)
Definition wf (f : t) : Prop := Z.land (bits f) (Z.lnot all_bits) = 0.

End Flags.

(** The methods [bitflags!] generates that the crate calls: [from_bits] refuses
    a value with an undeclared bit, [contains] tests that every bit of its
    argument is set. *)
Class BitflagsOps : Type := {
  from_bits : Z → option Flags.t;
  contains : Flags.t → Flags.t → bool;
  from_bits_spec : ∀ b, from_bits b =
    if Z.land b (Z.lnot Flags.all_bits) =? 0 then Some (Flags.mk b) else None;
  contains_spec : ∀ f g, contains f g = (Z.land (Flags.bits f) (Flags.bits g) =? Flags.bits g);
}.

(** The parameter instantiated: the two methods as their documentation reads. *)
Program Definition documented_bitflags : BitflagsOps := {|
  from_bits b := if Z.land b (Z.lnot Flags.all_bits) =? 0 then Some (Flags.mk b) else None;
  contains f g := Z.land (Flags.bits f) (Flags.bits g) =? Flags.bits g;
|}.
Solve All Obligations with done.

Section FlagFacts.
Context {BF : BitflagsOps}.

Lemma from_bits_wf (f : Flags.t) : Flags.wf f → from_bits (Flags.bits f) = Some f.
Proof.
  intros H. rewrite from_bits_spec. rewrite (proj2 (Z.eqb_eq _ _) H). by destruct f.
Qed.

Lemma from_bits_Some (b : Z) (f : Flags.t) :
  from_bits b = Some f → Flags.bits f = b ∧ Flags.wf f.
Proof.
  rewrite from_bits_spec. destruct (Z.eqb_spec (Z.land b (Z.lnot Flags.all_bits)) 0); [|done].
  intros [= <-]. done.
Qed.

(** Which of the four flags is set, bit by bit. *)
Lemma contains_bit (f : Flags.t) (i : Z) :
  0 ≤ i → contains f (Flags.mk (Z.shiftl 1 i)) = Z.testbit (Flags.bits f) i.
Proof.
  intros Hi. rewrite contains_spec. cbn [Flags.bits].
  rewrite Z.shiftl_1_l. apply eq_true_iff_eq. rewrite Z.eqb_eq.
  split.
  - intros E. assert (Z.testbit (Z.land (Flags.bits f) (2 ^ i)) i = true) as H.
    { rewrite E. apply Z.pow2_bits_true; lia. }
    rewrite Z.land_spec in H. by apply andb_prop in H as [? _].
  - intros Hb. apply Z.bits_inj'. intros n Hn. rewrite Z.land_spec, Z.pow2_bits_eqb by lia.
    destruct (Z.eqb_spec i n); [subst; by rewrite Hb|by rewrite andb_false_r].
Qed.

End FlagFacts.

Lemma flags_wf_range (f : Flags.t) : Flags.wf f → 0 ≤ Flags.bits f ≤ 15.
Proof.
  unfold Flags.wf. destruct f as [b]. cbn [Flags.bits].
  change Flags.all_bits with (Z.ones 4). intros H.
  assert (b = Z.land b (Z.ones 4)) as ->.
  { apply Z.bits_inj'. intros n Hn. rewrite Z.land_spec.
    assert (Z.testbit (Z.land b (Z.lnot (Z.ones 4))) n = false) as Hf
      by (rewrite H; apply Z.bits_0).
    rewrite Z.land_spec, Z.lnot_spec in Hf by lia.
    destruct (Z.testbit b n), (Z.testbit (Z.ones 4) n); done. }
  rewrite Z.land_ones by lia. change (2 ^ 4) with 16.
  pose proof (Z.mod_pos_bound b 16 ltac:(lia)). lia.
Qed.

Module Frame.

(** [enum Frame]. *)
Inductive t : Type :=
| Data (stream_id : Z) (flags : Flags.t) (payload : Bytes)
| WindowUpdate (stream_id : Z) (flags : Flags.t) (delta : Z)
| Ping (flags : Flags.t) (opaque : Z)
| GoAway (error_code : ErrorCode.t).

#[global] Instance t_eq_dec : EqDecision t.
Proof. solve_decision. Defined.

(** The constructors of [impl Frame]. *)
Definition data (stream_id : Z) (flags : Flags.t) (payload : Bytes) : t :=
  Data stream_id flags payload.
Definition syn (stream_id : Z) : t := Data stream_id Flags.SYN [].
Definition ack (stream_id : Z) : t := Data stream_id Flags.ACK [].
Definition fin (stream_id : Z) : t := Data stream_id Flags.FIN [].
Definition rst (stream_id : Z) : t := Data stream_id Flags.RST [].
Definition window_update (stream_id delta : Z) : t := WindowUpdate stream_id Flags.empty delta.
Definition ping (opaque : Z) : t := Ping Flags.empty opaque.
Definition pong (opaque : Z) : t := Ping Flags.ACK opaque.
Definition go_away (error_code : ErrorCode.t) : t := GoAway error_code.

(** A frame whose fields fit their types ([u32] ids, deltas and codes, declared
    flag bits). *)
Definition wf (f : t) : Prop :=
  match f with
  | Data id fl _ => is_u32 id ∧ Flags.wf fl
  | WindowUpdate id fl d => is_u32 id ∧ Flags.wf fl ∧ is_u32 d
  | Ping fl o => Flags.wf fl ∧ is_u32 o
  | GoAway c => ErrorCode.wf c
  end.

(** The payload of a [Data] frame; the other frames carry none. *)
Definition payload (f : t) : Bytes := match f with Data _ _ p => p | _ => [] end.

(** The frame the peer observes: [ErrorCode::Unknown] with the number of a
    named code is read as the named code. *)
Definition normalize (f : t) : t :=
  match f with
  | GoAway c => GoAway (ErrorCode.from_u32 (ErrorCode.as_u32 c))
  | _ => f
  end.

Definition canonical (f : t) : Prop :=
  match f with GoAway c => ErrorCode.canonical c | _ => True end.

Lemma normalize_canonical (f : t) : canonical f → normalize f = f.
Proof. destruct f; simpl; try done. intros. by rewrite ErrorCode.from_u32_as_u32. Qed.

End Frame.
