(* ===== verification/Header.v ===== *)
(** * The 12-byte frame header ([src/protocol/header.rs]) *)

From S2P Require Import Prelude Machine Errors Frames.
From Stdlib Require Import ZArith Lia.

Local Open Scope Z_scope.

Definition PROTOCOL_VERSION : Z := 1.
Definition HEADER_LEN : nat := 12.

Module FrameType.

(** [#[repr(u8)] enum FrameType]. *)
Inductive t : Type := Data | WindowUpdate | Ping | GoAway.

#[global] Instance t_eq_dec : EqDecision t.
Proof. solve_decision. Defined.

(** The discriminant, [as u8]. *)
Definition as_u8 (ty : t) : Z :=
  match ty with Data => 0 | WindowUpdate => 1 | Ping => 2 | GoAway => 3 end.

(** [impl TryFrom<u8> for FrameType]. *)
Definition try_from (value : Z) : MuxResult t :=
  match value with
  | 0 => Ok Data
  | 1 => Ok WindowUpdate
  | 2 => Ok Ping
  | 3 => Ok GoAway
  | _ => Err (Error.Protocol "unknown frame type")
  end.

Lemma try_from_as_u8 (ty : t) : try_from (as_u8 ty) = Ok ty.
Proof. by destruct ty. Qed.

Lemma as_u8_surj (v : Z) : 0 ≤ v ≤ 3 → ∃ ty, v = as_u8 ty.
Proof.
  intros H. assert (v = 0 ∨ v = 1 ∨ v = 2 ∨ v = 3) as [->|[->|[->| ->]]] by lia;
    [by exists Data|by exists WindowUpdate|by exists Ping|by exists GoAway].
Qed.

Lemma try_from_Ok (v : Z) (ty : t) : try_from v = Ok ty → v = as_u8 ty.
Proof. destruct v as [|[[p|p|]|[p|p|]|]|p]; simpl; intros; simplify_eq; done. Qed.

Lemma try_from_unknown (v : Z) :
  ¬ 0 ≤ v ≤ 3 → try_from v = Err (Error.Protocol "unknown frame type").
Proof. destruct v as [|[[p|p|]|[p|p|]|]|p]; simpl; intros; try done; lia. Qed.

End FrameType.

(** [out[off..off + src.len()].copy_from_slice(src)] on a byte array. *)
Definition copy_at (off : nat) (src out : list byte) : list byte :=
  take off out ++ src ++ drop (off + length src) out.

Module Header.

(** [struct Header]. *)
Record t : Type := mk {
  version : Z;
  frame_type : FrameType.t;
  flags : Flags.t;
  stream_id : Z;
  length : Z;
}.

(** [Header::encode], writing into the array [out]. *)
Definition encode (h : t) (out : list byte) : list byte :=
  let out := copy_at 0 [u8_of (version h)] out in
  let out := copy_at 1 [u8_of (FrameType.as_u8 (frame_type h))] out in
  let out := copy_at 2 (be_bytes 2 (Flags.bits (flags h))) out in
  let out := copy_at 4 (be_bytes 4 (stream_id h)) out in
  copy_at 8 (be_bytes 4 (length h)) out.

Section Decode.
Context {BF : BitflagsOps}.

(** [Header::decode] of a 12-byte array. *)
Definition decode (bytes : list byte) : MuxResult t :=
  let at_ (i : nat) : byte := nth i bytes Byte.x00 in   (* bytes[i] *)
  let version := u8_val (at_ 0%nat) in
  if negb (version =? PROTOCOL_VERSION)
  then Err (Error.Protocol "unsupported protocol version")
  else
    frame_type ← FrameType.try_from (u8_val (at_ 1%nat));
    let flags_bits := be_val [at_ 2%nat; at_ 3%nat] in
    flags ← ok_or (from_bits flags_bits) (Error.Protocol "unknown flag bits");
    let stream_id := be_val [at_ 4%nat; at_ 5%nat; at_ 6%nat; at_ 7%nat] in
    let length := be_val [at_ 8%nat; at_ 9%nat; at_ 10%nat; at_ 11%nat] in
    Ok (mk version frame_type flags stream_id length).

End Decode.

(** A header this version of the library builds. *)
Definition wf (h : t) : Prop :=
  version h = PROTOCOL_VERSION ∧ Flags.wf (flags h) ∧ is_u32 (stream_id h) ∧ is_u32 (length h).

(** The 12 bytes on the wire. *)
Definition wire (h : t) : list byte :=
  u8_of (version h) :: u8_of (FrameType.as_u8 (frame_type h)) ::
  be_bytes 2 (Flags.bits (flags h)) ++ be_bytes 4 (stream_id h) ++ be_bytes 4 (length h).

Lemma length_header_wire (h : t) : List.length (wire h) = HEADER_LEN.
Proof. unfold wire. cbn [List.length]. rewrite !length_app, !length_be_bytes. done. Qed.

Lemma encode_wire (h : t) (out : list byte) :
  List.length out = HEADER_LEN → encode h out = wire h.
Proof.
  intros H. do 12 (destruct out as [|? out]; [discriminate H|]).
  destruct out; [|discriminate H]. reflexivity.
Qed.

Section Roundtrip.
Context {BF : BitflagsOps}.

Lemma decode_wire (h : t) : wf h → decode (wire h) = Ok h.
Proof.
  intros (Hv & Hf & Hid & Hlen).
  pose proof (be_val_be_bytes_u32 _ Hid) as Ei.
  pose proof (be_val_be_bytes_u32 _ Hlen) as El.
  assert (be_val (be_bytes 2 (Flags.bits (flags h))) = Flags.bits (flags h)) as Ef.
  { apply be_val_be_bytes_u16. apply flags_wf_range in Hf. unfold is_u16, U16_MAX. lia. }
  unfold decode, wire. cbn [be_bytes nth app] in Ei, El, Ef |- *.
  rewrite Ei, El, Ef, from_bits_wf, Hv, !u8_val_of by done.
  replace (FrameType.as_u8 (frame_type h) mod 256) with (FrameType.as_u8 (frame_type h))
    by (by destruct (frame_type h)).
  rewrite FrameType.try_from_as_u8. destruct h; simpl in *; by subst.
Qed.

(** What a successful decode says about the bytes it read. *)
Lemma decode_Ok (bytes : list byte) (h : t) :
  List.length bytes = HEADER_LEN → decode bytes = Ok h → wf h ∧ wire h = bytes.
Proof.
  intros H. do 12 (destruct bytes as [|? bytes]; [discriminate H|]).
  destruct bytes; [|discriminate H]. clear H. unfold decode. cbn [nth].
  destruct (Z.eqb_spec (u8_val b) PROTOCOL_VERSION) as [Hv|]; cbn [negb]; [|done].
  destruct (FrameType.try_from (u8_val b0)) as [ty|] eqn:Ety; [|done]. cbn [mbind Result_bind].
  destruct (from_bits _) as [fl|] eqn:Efl; [|done]. cbn [ok_or]. intros E.
  assert (∀ h', Ok h' = @Ok Error.t t h → h' = h) as HOk by congruence.
  apply HOk in E as <-. clear HOk.
  apply FrameType.try_from_Ok in Ety. apply from_bits_Some in Efl as [Ebits Hfl].
  pose proof (be_val_bound [b3; b4; b5; b6]). pose proof (be_val_bound [b7; b8; b9; b10]).
  split.
  - split_and!; simpl; auto; unfold is_u32, U32_MAX; simpl in *; lia.
  - unfold wire. cbn [version frame_type flags stream_id length].
    pose proof (be_bytes_be_val [b1; b2]) as E1.
    pose proof (be_bytes_be_val [b3; b4; b5; b6]) as E2.
    pose proof (be_bytes_be_val [b7; b8; b9; b10]) as E3.
    cbn [Datatypes.length] in E1, E2, E3.
    by rewrite Ebits, <- Ety, !u8_of_val, E1, E2, E3.
Qed.

End Roundtrip.

End Header.
