(* ===== verification/Codec.v ===== *)
(** * The frame codec ([src/protocol/codec.rs])

    [FrameCodec] as the [Decoder] and [Encoder] of [tokio_util::codec] see it:
    [decode] takes a frame off the front of the receive buffer or asks for more
    bytes, [encode] appends a frame to the send buffer.  Buffers ([BytesMut])
    are represented by their contents. *)

From S2P Require Import Prelude Machine Errors Frames Header.
From Stdlib Require Import ZArith Lia.

Local Open Scope Z_scope.

Definition ABSOLUTE_MAX_PAYLOAD : Z := 16 * 1024 * 1024.

Module FrameCodec.

(** [struct FrameCodec]. *)
Record t : Type := mk { max_payload : Z }.

(** [FrameCodec::new]. *)
Definition new (max_payload : Z) : t := mk (Z.min max_payload ABSOLUTE_MAX_PAYLOAD).

(** [FrameCodec::default]. *)
Definition default : t := new ABSOLUTE_MAX_PAYLOAD.

(** The header fields and payload [encode] extracts from a frame; [Err] is the
    size check of the [Data] arm. *)
Definition frame_parts (c : t) (frame : Frame.t)
  : MuxResult (FrameType.t * Flags.t * Z * Z * option Bytes) :=
  match frame with
  | Frame.Data stream_id flags payload =>
    if max_payload c <? Z.of_nat (length payload)
    then Err (Error.Protocol "data payload exceeds limit")
    else
      let len := as_u32 (Z.of_nat (length payload)) in
      Ok (FrameType.Data, flags, stream_id, len, Some payload)
  | Frame.WindowUpdate stream_id flags delta =>
    Ok (FrameType.WindowUpdate, flags, stream_id, delta, None)
  | Frame.Ping flags opaque => Ok (FrameType.Ping, flags, 0, opaque, None)
  | Frame.GoAway error_code =>
    Ok (FrameType.GoAway, Flags.empty, 0, ErrorCode.as_u32 error_code, None)
  end.

(** [Encoder::encode]: the result and the send buffer. *)
Definition encode (c : t) (frame : Frame.t) (dst : list byte) : MuxResult unit * list byte :=
  match frame_parts c frame with
  | Err e => (Err e, dst)
  | Ok (frame_type, flags, stream_id, len, payload) =>
    let header := Header.mk PROTOCOL_VERSION frame_type flags stream_id len in
    let header_bytes := Header.encode header (replicate HEADER_LEN Byte.x00) in
    let dst := dst ++ header_bytes in
    let dst := match payload with Some p => dst ++ p | None => dst end in
    (Ok (), dst)
  end.

Section Decode.
Context {BF : BitflagsOps}.

(** [Decoder::decode]: the result and the receive buffer left over. *)
Definition decode (c : t) (src : list byte) : MuxResult (option Frame.t) * list byte :=
  if (length src <? HEADER_LEN)%nat then (Ok None, src) else
  match Header.decode (take HEADER_LEN src) with
  | Err e => (Err e, src)
  | Ok header =>
    let payload_len :=
      match Header.frame_type header with
      | FrameType.Data => Header.length header
      | FrameType.WindowUpdate | FrameType.Ping | FrameType.GoAway => 0
      end in
    if max_payload c <? payload_len
    then (Err (Error.Protocol "frame payload exceeds limit"), src)
    else
      let total := (HEADER_LEN + Z.to_nat payload_len)%nat in
      if (length src <? total)%nat then (Ok None, src) else
      let src := drop HEADER_LEN src in
      let '(payload, src) :=
        if payload_len =? 0 then ([], src)
        else (take (Z.to_nat payload_len) src, drop (Z.to_nat payload_len) src) in
      let frame :=
        match Header.frame_type header with
        | FrameType.Data => Frame.Data (Header.stream_id header) (Header.flags header) payload
        | FrameType.WindowUpdate =>
          Frame.WindowUpdate (Header.stream_id header) (Header.flags header) (Header.length header)
        | FrameType.Ping => Frame.Ping (Header.flags header) (Header.length header)
        | FrameType.GoAway => Frame.GoAway (ErrorCode.from_u32 (Header.length header))
        end in
      (Ok (Some frame), src)
  end.

(** [while let Some(f) = codec.decode(&mut buf)? { decoded.push(f) }], the loop
    that drains a buffer: the frames, the error that stopped it if any, and
    the bytes left. Every frame takes at least a header off the buffer, so the
    buffer's length is fuel enough. *)
Fixpoint decode_loop (fuel : nat) (c : t) (src : list byte)
  : list Frame.t * option Error.t * list byte :=
  match fuel with
  | O => ([], None, src)
  | S fuel' =>
    match decode c src with
    | (Err e, src') => ([], Some e, src')
    | (Ok None, src') => ([], None, src')
    | (Ok (Some f), src') =>
      let '(fs, e, rest) := decode_loop fuel' c src' in (f :: fs, e, rest)
    end
  end.

Definition decode_all (c : t) (src : list byte) : list Frame.t * option Error.t * list byte :=
  decode_loop (S (length src)) c src.

End Decode.

(** [for f in &frames { codec.encode(f, &mut buf)? }]. *)
Fixpoint encode_all (c : t) (frames : list Frame.t) (dst : list byte)
  : MuxResult unit * list byte :=
  match frames with
  | [] => (Ok (), dst)
  | f :: fs =>
    match encode c f dst with
    | (Ok _, dst') => encode_all c fs dst'
    | (Err e, dst') => (Err e, dst')
    end
  end.

(** A codec as a session builds it. *)
Definition wf (c : t) : Prop := 0 ≤ max_payload c ≤ ABSOLUTE_MAX_PAYLOAD.

Lemma new_wf (m : Z) : 0 ≤ m → wf (new m).
Proof. unfold wf, new, ABSOLUTE_MAX_PAYLOAD. simpl. lia. Qed.

(** The frames the codec accepts for sending. *)
Definition sendable (c : t) (f : Frame.t) : Prop :=
  Frame.wf f ∧ Z.of_nat (length (Frame.payload f)) ≤ max_payload c.

(** ** The wire image of a frame *)

Definition frame_header (f : Frame.t) : Header.t :=
  match f with
  | Frame.Data id fl p => Header.mk PROTOCOL_VERSION FrameType.Data fl id (Z.of_nat (length p))
  | Frame.WindowUpdate id fl d => Header.mk PROTOCOL_VERSION FrameType.WindowUpdate fl id d
  | Frame.Ping fl o => Header.mk PROTOCOL_VERSION FrameType.Ping fl 0 o
  | Frame.GoAway e => Header.mk PROTOCOL_VERSION FrameType.GoAway Flags.empty 0 (ErrorCode.as_u32 e)
  end.

Definition wire (f : Frame.t) : list byte := Header.wire (frame_header f) ++ Frame.payload f.

Lemma length_wire (f : Frame.t) : length (wire f) = (HEADER_LEN + length (Frame.payload f))%nat.
Proof. unfold wire. by rewrite length_app, Header.length_header_wire. Qed.

Lemma frame_header_wf (c : t) (f : Frame.t) : wf c → sendable c f → Header.wf (frame_header f).
Proof.
  unfold wf, sendable, ABSOLUTE_MAX_PAYLOAD. intros Hc [Hf Hlen].
  unfold Header.wf. destruct f; simpl in *; unfold ErrorCode.wf, is_u32, U32_MAX in *;
    destruct_and?; split_and!; solve [done | lia].
Qed.

Lemma encode_sendable (c : t) (f : Frame.t) (dst : list byte) :
  wf c → sendable c f → encode c f dst = (Ok (), dst ++ wire f).
Proof.
  unfold wf, ABSOLUTE_MAX_PAYLOAD. intros Hc [Hf Hlen]. unfold encode, wire.
  destruct f as [id fl p| | |]; cbn [frame_parts Frame.payload] in *.
  - destruct (Z.ltb_spec (max_payload c) (Z.of_nat (length p))); [lia|].
    unfold as_u32. rewrite Z.mod_small by (unfold U32_MAX; lia).
    rewrite Header.encode_wire by done. by rewrite app_assoc.
  - rewrite Header.encode_wire by done. by rewrite app_nil_r.
  - rewrite Header.encode_wire by done. by rewrite app_nil_r.
  - rewrite Header.encode_wire by done. by rewrite app_nil_r.
Qed.

Lemma encode_all_sendable (c : t) (fs : list Frame.t) (dst : list byte) :
  wf c → Forall (sendable c) fs →
  encode_all c fs dst = (Ok (), dst ++ mjoin (wire <$> fs)).
Proof.
  intros Hc Hfs. revert dst. induction Hfs as [|f fs Hf _ IH]; intros dst.
  - simpl. by rewrite app_nil_r.
  - cbn [encode_all]. rewrite encode_sendable, IH by done. rewrite <- app_assoc. done.
Qed.

Section DecodeFacts.
Context {BF : BitflagsOps}.

Lemma decode_short (c : t) (src : list byte) :
  (length src < HEADER_LEN)%nat → decode c src = (Ok None, src).
Proof. intros H. unfold decode. by rewrite (proj2 (Nat.ltb_lt _ _) H). Qed.

Lemma take_wire (f : Frame.t) (rest : list byte) :
  take HEADER_LEN (wire f ++ rest) = Header.wire (frame_header f).
Proof.
  unfold wire. rewrite <- app_assoc, take_app_le by (rewrite Header.length_header_wire; done).
  apply take_ge. by rewrite Header.length_header_wire.
Qed.

Lemma drop_wire (f : Frame.t) (rest : list byte) :
  drop HEADER_LEN (wire f ++ rest) = Frame.payload f ++ rest.
Proof.
  unfold wire. rewrite <- app_assoc, drop_app_le by (rewrite Header.length_header_wire; done).
  by rewrite drop_ge by (by rewrite Header.length_header_wire).
Qed.

(** The payload length [decode] reads off the header of [f]. *)
Lemma payload_len_frame (f : Frame.t) :
  match Header.frame_type (frame_header f) with
  | FrameType.Data => Header.length (frame_header f)
  | FrameType.WindowUpdate | FrameType.Ping | FrameType.GoAway => 0
  end = Z.of_nat (length (Frame.payload f)).
Proof. by destruct f. Qed.

Lemma decode_frame (c : t) (f : Frame.t) (rest : list byte) :
  wf c → sendable c f →
  decode c (wire f ++ rest) = (Ok (Some (Frame.normalize f)), rest).
Proof.
  intros Hc Hf. pose proof (frame_header_wf c f Hc Hf) as Hh. destruct Hf as [Hf Hlen].
  unfold decode. rewrite take_wire, drop_wire, Header.decode_wire by done.
  rewrite !length_app, length_wire, payload_len_frame, Nat2Z.id.
  destruct (Nat.ltb_spec (HEADER_LEN + length (Frame.payload f) + length rest) HEADER_LEN); [lia|].
  destruct (Z.ltb_spec (max_payload c) (Z.of_nat (length (Frame.payload f)))); [lia|].
  destruct (Nat.ltb_spec (HEADER_LEN + length (Frame.payload f) + length rest)
    (HEADER_LEN + length (Frame.payload f))); [lia|].
  destruct (Z.eqb_spec (Z.of_nat (length (Frame.payload f))) 0) as [E|E].
  - assert (Frame.payload f = []) as Hp by (apply nil_length_inv; lia).
    rewrite Hp. destruct f; simpl in *; by subst.
  - rewrite take_app_length, drop_app_length. destruct f; simpl in *; [done|lia..].
Qed.

(** Bytes of a frame that have not all arrived: no frame, no error, nothing
    consumed. *)
Lemma decode_partial (c : t) (f : Frame.t) (p q : list byte) :
  wf c → sendable c f → wire f = p ++ q → q ≠ [] → decode c p = (Ok None, p).
Proof.
  intros Hc Hf Hpq Hq. destruct (decide (length p < HEADER_LEN)%nat) as [|Hlp];
    [by apply decode_short|].
  pose proof (frame_header_wf c f Hc Hf) as Hh. destruct Hf as [Hf Hlen].
  assert (length p < HEADER_LEN + length (Frame.payload f))%nat as Hshort.
  { rewrite <- length_wire, Hpq, length_app.
    destruct q; [done|simpl; lia]. }
  assert (take HEADER_LEN p = Header.wire (frame_header f)) as Ht.
  { rewrite <- (take_wire f []), app_nil_r, Hpq. rewrite take_app_le by lia. done. }
  unfold decode. rewrite Ht, Header.decode_wire, payload_len_frame, Nat2Z.id by done.
  destruct (Nat.ltb_spec (length p) HEADER_LEN); [lia|].
  destruct (Z.ltb_spec (max_payload c) (Z.of_nat (length (Frame.payload f)))); [lia|].
  by destruct (Nat.ltb_spec (length p) (HEADER_LEN + length (Frame.payload f))); [|lia].
Qed.

(** ** Draining a buffer *)

(** The wire image of a sequence of frames. *)
Definition wire_all (fs : list Frame.t) : list byte := mjoin (wire <$> fs).

Lemma wire_all_cons f fs : wire_all (f :: fs) = wire f ++ wire_all fs.
Proof. done. Qed.

Lemma wire_all_app fs gs : wire_all (fs ++ gs) = wire_all fs ++ wire_all gs.
Proof. unfold wire_all. by rewrite fmap_app, join_app. Qed.

Lemma decode_loop_frames (c : t) (fs : list Frame.t) (tail : list byte) (fuel : nat) :
  wf c → Forall (sendable c) fs → decode c tail = (Ok None, tail) → (length fs < fuel)%nat →
  decode_loop fuel c (wire_all fs ++ tail) = (Frame.normalize <$> fs, None, tail).
Proof.
  intros Hc Hfs Htail. revert fuel.
  induction Hfs as [|f fs Hf _ IH]; intros fuel Hfuel;
    (destruct fuel as [|fuel]; [lia|]); cbn [decode_loop].
  - simpl. by rewrite Htail.
  - rewrite wire_all_cons, <- app_assoc, decode_frame by done.
    rewrite IH by (simpl in Hfuel; lia). done.
Qed.

Lemma length_wire_all_ge (fs : list Frame.t) : (length fs ≤ length (wire_all fs))%nat.
Proof.
  induction fs as [|f fs IH]; [simpl; lia|].
  rewrite wire_all_cons, length_app, length_wire. simpl. lia.
Qed.

Lemma decode_all_frames (c : t) (fs : list Frame.t) (tail : list byte) :
  wf c → Forall (sendable c) fs → decode c tail = (Ok None, tail) →
  decode_all c (wire_all fs ++ tail) = (Frame.normalize <$> fs, None, tail).
Proof.
  intros. apply decode_loop_frames; try done.
  pose proof (length_wire_all_ge fs). rewrite length_app. lia.
Qed.

Lemma decode_nil (c : t) : decode c [] = (Ok None, []).
Proof. done. Qed.

(** Every prefix of a stream of frames splits into complete frames and a rest
    that is not a frame yet. *)
Lemma split_prefix (c : t) (fs : list Frame.t) (s r : list byte) :
  wf c → Forall (sendable c) fs → s ++ r = wire_all fs →
  ∃ fs1 fs2 tail, fs = fs1 ++ fs2 ∧ s = wire_all fs1 ++ tail ∧
    tail ++ r = wire_all fs2 ∧ decode c tail = (Ok None, tail).
Proof.
  intros Hc Hfs. revert s. induction Hfs as [|f fs Hf _ IH]; intros s Hs.
  - apply app_eq_nil in Hs as [-> ->]. by exists [], [], [].
  - rewrite wire_all_cons in Hs.
    apply app_eq_inv in Hs as [(k & -> & Hr)|(k & Hk & Hr)].
    + destruct (IH k (eq_sym Hr)) as (fs1 & fs2 & tail & -> & -> & Ht & Hd).
      exists (f :: fs1), fs2, tail. split_and!; try done.
      by rewrite wire_all_cons, app_assoc.
    + destruct k as [|b k].
      * rewrite app_nil_r in Hk. exists [f], fs, []. subst r.
        split_and!; try done. unfold wire_all. simpl. by rewrite !app_nil_r.
      * exists [], (f :: fs), s. split_and!; try done.
        -- by rewrite wire_all_cons, Hk, Hr, <- app_assoc.
        -- by apply (decode_partial c f s (b :: k)).
Qed.

(** A receiver that appends each chunk as it arrives and takes the complete
    frames off its buffer. *)
Fixpoint receive (c : t) (buf : list byte) (chunks : list (list byte))
  : list Frame.t * option Error.t * list byte :=
  match chunks with
  | [] => ([], None, buf)
  | chunk :: chunks' =>
    match decode_all c (buf ++ chunk) with
    | (fs, Some e, rest) => (fs, Some e, rest)
    | (fs, None, rest) =>
      let '(gs, e, rest') := receive c rest chunks' in (fs ++ gs, e, rest')
    end
  end.

Lemma receive_chunks (c : t) (chunks : list (list byte)) (fs : list Frame.t) (buf : list byte) :
  wf c → Forall (sendable c) fs → decode c buf = (Ok None, buf) →
  buf ++ mjoin chunks = wire_all fs →
  receive c buf chunks = (Frame.normalize <$> fs, None, []).
Proof.
  intros Hc. revert fs buf. induction chunks as [|ch chunks IH]; intros fs buf Hfs Hd Hbuf.
  - simpl in Hbuf. rewrite app_nil_r in Hbuf. subst buf. cbn [receive].
    destruct fs as [|f fs]; [done|]. apply Forall_cons_1 in Hfs as [Hf _].
    rewrite wire_all_cons, decode_frame in Hd by done. discriminate Hd.
  - cbn [receive]. cbn [mjoin list_join] in Hbuf. rewrite app_assoc in Hbuf.
    destruct (split_prefix c fs (buf ++ ch) (mjoin chunks) Hc Hfs Hbuf)
      as (fs1 & fs2 & tail & -> & Hs & Ht & Hdt).
    apply Forall_app in Hfs as [Hfs1 Hfs2].
    rewrite Hs, decode_all_frames by done. rewrite (IH fs2 tail) by done.
    by rewrite fmap_app.
Qed.

(** ** What [decode] reads *)

(** The fields of a 12-byte header at the front of a buffer. *)
Definition hd_version (src : list byte) : Z := u8_val (nth 0 src Byte.x00).
Definition hd_type (src : list byte) : Z := u8_val (nth 1 src Byte.x00).
Definition hd_flags (src : list byte) : Z := be_val (take 2 (drop 2 src)).
Definition hd_length (src : list byte) : Z := be_val (take 4 (drop 8 src)).

Lemma header_decode_fields (src : list byte) :
  (HEADER_LEN ≤ length src)%nat →
  Header.decode (take HEADER_LEN src) =
    if negb (hd_version src =? PROTOCOL_VERSION)
    then Err (Error.Protocol "unsupported protocol version")
    else
      frame_type ← FrameType.try_from (hd_type src);
      flags ← ok_or (from_bits (hd_flags src)) (Error.Protocol "unknown flag bits");
      Ok (Header.mk (hd_version src) frame_type flags (be_val (take 4 (drop 4 src))) (hd_length src)).
Proof.
  unfold HEADER_LEN. intros H.
  do 12 (destruct src as [|? src]; [simpl in H; lia|]). reflexivity.
Qed.

Lemma split_payload (pl : Z) (src : list byte) :
  (if pl =? 0 then ([], src) else (take (Z.to_nat pl) src, drop (Z.to_nat pl) src)) =
    (take (Z.to_nat pl) src, drop (Z.to_nat pl) src).
Proof. by destruct (Z.eqb_spec pl 0) as [->|]. Qed.

Lemma decode_consumes (c : t) (src rest : list byte) (f : Frame.t) :
  wf c → decode c src = (Ok (Some f), rest) →
  ∃ h, Header.wf h ∧ src = Header.wire h ++ Frame.payload f ++ rest ∧
    sendable c f ∧ Frame.canonical f ∧
    match f with
    | Frame.Data id fl p => h = frame_header f
    | Frame.WindowUpdate id fl d => h = frame_header f
    | Frame.Ping fl o => h = Header.mk PROTOCOL_VERSION FrameType.Ping fl (Header.stream_id h) o
    | Frame.GoAway e => Header.frame_type h = FrameType.GoAway ∧ Header.length h = ErrorCode.as_u32 e
    end.
Proof.
  intros Hc. unfold decode.
  destruct (Nat.ltb_spec (length src) HEADER_LEN); [done|].
  destruct (Header.decode (take HEADER_LEN src)) as [h|] eqn:Hd; [|done].
  apply Header.decode_Ok in Hd as [Hh Hw]; [|rewrite length_take; lia].
  set (pl := match Header.frame_type h with FrameType.Data => _ | _ => _ end).
  destruct (Z.ltb_spec (max_payload c) pl) as [|Hpl]; [done|].
  destruct (Nat.ltb_spec (length src) (HEADER_LEN + Z.to_nat pl)) as [|Htot]; [done|].
  rewrite split_payload. intros Hf. exists h.
  assert (Header.version h = PROTOCOL_VERSION ∧ is_u32 (Header.length h)) as [Hv Hu]
    by (destruct Hh; tauto).
  assert (src = Header.wire h ++ take (Z.to_nat pl) (drop HEADER_LEN src)
                  ++ drop (Z.to_nat pl) (drop HEADER_LEN src)) as Hsrc.
  { rewrite take_drop, Hw. by rewrite take_drop. }
  assert (length (take (Z.to_nat pl) (drop HEADER_LEN src)) = Z.to_nat pl) as Hlen.
  { rewrite length_take, length_drop. lia. }
  destruct h as [v ty fl id len]; simpl in Hv, Hu, pl.
  destruct Hh as (_ & Hfl & Hid & _); simpl in Hfl, Hid.
  unfold is_u32, wf in *. destruct ty; simpl in Hf; simplify_eq; subst pl;
    cbn [Frame.payload Frame.canonical frame_header] in *.
  - split_and!; try done.
    + split; cbn [Frame.wf Frame.payload]; [done|]. rewrite Hlen. lia.
    + f_equal. lia.
  - split_and!; done.
  - split_and!; done.
  - split_and!; try done.
    + split; [|cbn; lia]. cbn. unfold ErrorCode.wf. by rewrite ErrorCode.as_u32_from_u32.
    + by apply ErrorCode.from_u32_canonical.
    + by rewrite ErrorCode.as_u32_from_u32.
Qed.

End DecodeFacts.

End FrameCodec.

Import FrameCodec.

Section Claims.
Context {BF : BitflagsOps}.

(** C13: Whatever frames a session queues and however the transport cuts their
    bytes into chunks, a receiver that appends each chunk and decodes obtains
    the same frames in the same order, no error and no byte left over; a frame
    whose error code is canonical arrives unchanged, so on such frames this is
    a full round trip of the codec. *)
Theorem codec_stream_roundtrip (c : t) (fs : list Frame.t) (chunks : list (list byte)) :
  wf c → Forall (sendable c) fs →
  snd (encode_all c fs []) = mjoin chunks →
  fst (encode_all c fs []) = Ok () ∧
  receive c [] chunks = (Frame.normalize <$> fs, None, []) ∧
  (Forall Frame.canonical fs → Frame.normalize <$> fs = fs).
Proof.
  intros Hc Hfs. rewrite encode_all_sendable by done. simpl. intros Hch. split_and!; [done| |].
  - apply receive_chunks; [done..|]. by rewrite <- Hch.
  - intros Hcan. rewrite <- (list_fmap_id fs) at 2. apply list_fmap_ext.
    intros i f Hi. apply Frame.normalize_canonical. by apply (Forall_lookup_1 _ _ _ _ Hcan Hi).
Qed.

(** Decoding one frame off the front of a buffer: a frame the codec accepts
    for sending, followed by any bytes, decodes to that frame and leaves
    exactly those bytes; a strict prefix of its image yields no frame, no error
    and consumes nothing. *)
Lemma codec_frame_roundtrip (c : t) (f : Frame.t) (dst rest : list byte) :
  wf c → sendable c f → Frame.canonical f →
  ∃ bytes, encode c f dst = (Ok (), dst ++ bytes) ∧
    decode c (bytes ++ rest) = (Ok (Some f), rest) ∧
    ∀ p q, bytes = p ++ q → q ≠ [] → decode c p = (Ok None, p).
Proof.
  intros Hc Hf Hcan. exists (wire f). split_and!.
  - by apply encode_sendable.
  - rewrite decode_frame by done. by rewrite Frame.normalize_canonical.
  - intros p q E Hq. by apply (decode_partial c f p q).
Qed.

(** C35: A decoded frame is within the limits and stands for the bytes taken:
    the buffer is a valid header, the payload and the rest.  [Data] and
    [WindowUpdate] frames re-encode to exactly the bytes consumed; of a [Ping]
    only the stream id is not kept, of a [GoAway] the stream id and the flags. *)
Theorem codec_decode_sound (c : t) (src rest : list byte) (f : Frame.t) :
  wf c → decode c src = (Ok (Some f), rest) →
  ∃ h, Header.wf h ∧ src = Header.wire h ++ Frame.payload f ++ rest ∧
    sendable c f ∧ Frame.canonical f ∧
    match f with
    | Frame.Data _ _ _ | Frame.WindowUpdate _ _ _ =>
      encode c f [] = (Ok (), Header.wire h ++ Frame.payload f)
    | Frame.Ping fl o => h = Header.mk PROTOCOL_VERSION FrameType.Ping fl (Header.stream_id h) o
    | Frame.GoAway e => Header.frame_type h = FrameType.GoAway ∧ Header.length h = ErrorCode.as_u32 e
    end.
Proof.
  intros Hc Hd. destruct (decode_consumes c src rest f Hc Hd) as (h & Hh & Hsrc & Hs & Hcan & Hf).
  exists h. split_and!; try done.
  destruct f; try done; rewrite encode_sendable by done; by subst h.
Qed.

(** C36: The errors of [decode], in the order the code checks them, each leaving
    the buffer as it was: bad version, unknown type, undeclared flag bits, and a
    [Data] length over the limit, which is refused on the header alone before
    any payload is buffered. *)
Theorem codec_decode_errors (c : t) (src : list byte) :
  (HEADER_LEN ≤ length src)%nat → 0 ≤ max_payload c →
  let reason :=
    if negb (hd_version src =? PROTOCOL_VERSION) then Some "unsupported protocol version"
    else if negb (hd_type src <=? 3) then Some "unknown frame type"
    else if negb (Z.land (hd_flags src) (Z.lnot Flags.all_bits) =? 0) then Some "unknown flag bits"
    else if (hd_type src =? 0) && (max_payload c <? hd_length src)
    then Some "frame payload exceeds limit" else None in
  match reason with
  | Some m => decode c src = (Err (Error.Protocol m), src)
  | None => is_ok (fst (decode c src)) = true
  end.
Proof.
  intros Hlen Hmax. unfold decode.
  destruct (Nat.ltb_spec (length src) HEADER_LEN); [lia|].
  rewrite header_decode_fields by done.
  destruct (negb (hd_version src =? PROTOCOL_VERSION)); [done|].
  destruct (Z.leb_spec (hd_type src) 3) as [Hty|Hty]; cbn [negb].
  - assert (0 ≤ hd_type src) by (unfold hd_type; apply u8_val_range).
    destruct (FrameType.as_u8_surj (hd_type src)) as [ty Ety]; [lia|].
    rewrite Ety, FrameType.try_from_as_u8, from_bits_spec. cbn [mbind Result_bind].
    destruct (Z.land (hd_flags src) (Z.lnot Flags.all_bits) =? 0); cbn; [|done].
    rewrite split_payload.
    destruct ty; cbn [Header.frame_type Header.length FrameType.as_u8 Z.eqb andb];
      [|rewrite (proj2 (Z.ltb_ge (max_payload c) 0) Hmax); by case_match..].
    destruct (max_payload c <? hd_length src); [done|by case_match].
  - rewrite FrameType.try_from_unknown by lia. done.
Qed.

(** When [decode] asks for more bytes it has consumed none, and the buffer
    it keeps is shorter than one header plus the configured payload limit, at
    most 16 MiB: a peer cannot make the receive buffer grow further. *)
Lemma codec_buffer_bounded (c : t) (src src' : list byte) :
  wf c → decode c src = (Ok None, src') →
  src' = src ∧
  Z.of_nat (length src) < Z.of_nat HEADER_LEN + max_payload c ≤
    Z.of_nat HEADER_LEN + ABSOLUTE_MAX_PAYLOAD.
Proof.
  intros Hc. unfold decode, wf in *.
  destruct (Nat.ltb_spec (length src) HEADER_LEN); [intros [= <-]; split; [done|lia]|].
  destruct (Header.decode _) as [h|]; [|done].
  set (pl := match Header.frame_type h with FrameType.Data => _ | _ => _ end).
  destruct (Z.ltb_spec (max_payload c) pl); [done|].
  destruct (Nat.ltb_spec (length src) (HEADER_LEN + Z.to_nat pl)) as [Hlt|].
  - intros [= <-]. split; [done|lia].
  - rewrite split_payload. done.
Qed.

(** [encode] refuses exactly the [Data] frames over the limit, with the
    send buffer untouched; every other frame is appended whole. *)
Lemma codec_encode_limit (c : t) (f : Frame.t) (dst : list byte) :
  wf c → Frame.wf f →
  encode c f dst =
    if max_payload c <? Z.of_nat (length (Frame.payload f))
    then (Err (Error.Protocol "data payload exceeds limit"), dst)
    else (Ok (), dst ++ wire f).
Proof.
  intros Hc Hf. destruct (Z.ltb_spec (max_payload c) (Z.of_nat (length (Frame.payload f)))) as [Hlt|].
  - unfold encode, wf in *. destruct f; cbn in Hlt; try lia. cbn [frame_parts].
    by rewrite (proj2 (Z.ltb_lt _ _) Hlt).
  - by apply encode_sendable.
Qed.

End Claims.

(** Two frames cut into three chunks, the second chunk spanning the boundary. *)
Definition ex_frames : list Frame.t :=
  [Frame.Data 7 Flags.SYN (u8_of <$> [104; 101; 108; 108; 111]); Frame.ping 51966].

Definition ex_chunks : list (list byte) :=
  [take 4 (wire_all ex_frames); take 16 (drop 4 (wire_all ex_frames)); drop 20 (wire_all ex_frames)].

Lemma codec_stream_roundtrip_witness :
  @receive documented_bitflags default [] ex_chunks = (ex_frames, None, []).
Proof.
  destruct (@codec_stream_roundtrip documented_bitflags default ex_frames ex_chunks)
    as (_ & H & Hn); [concrete|unfold ex_frames; concrete|concrete|].
  rewrite H, Hn by (unfold ex_frames; concrete). reflexivity.
Defined.

Lemma codec_decode_sound_witness :
  ∃ h, Header.wf h ∧
    wire (Frame.window_update 3 65536) ++ [Byte.x07] = Header.wire h ++ [] ++ [Byte.x07].
Proof.
  destruct (@codec_decode_sound documented_bitflags default
    (wire (Frame.window_update 3 65536) ++ [Byte.x07]) [Byte.x07] (Frame.window_update 3 65536))
    as (h & Hh & Hsrc & _); [concrete|reflexivity|]. by exists h.
Defined.

Lemma codec_decode_errors_witness :
  let src := u8_of <$> [1; 0; 0; 16; 0; 0; 0; 1; 0; 0; 0; 0] in
  @decode documented_bitflags default src = (Err (Error.Protocol "unknown flag bits"), src).
Proof.
  refine (@codec_decode_errors documented_bitflags default
    (u8_of <$> [1; 0; 0; 16; 0; 0; 0; 1; 0; 0; 0; 0]) _ _); [|concrete].
  simpl. unfold HEADER_LEN. lia.
Defined.

Lemma codec_buffer_bounded_witness :
  Z.of_nat (length (take 14 (wire_all ex_frames))) < 12 + 16777216.
Proof.
  eapply (@codec_buffer_bounded documented_bitflags default
    (take 14 (wire_all ex_frames)) (take 14 (wire_all ex_frames))); [concrete|reflexivity].
Defined.

