(* ===== verification/Crates.v ===== *)
(** * Third-party primitives

    The asynchronous primitives the crate builds on live in other packages
    ([futures_util::task::AtomicWaker], [tokio::sync::mpsc],
    [tokio::sync::watch]).  Each is a
    parameter of the model: a class of operations with the documented
    behaviour as laws, stated through an observation of the primitive's state.
    An instance of each class shows that the laws can be met and lets concrete
    runs be evaluated. *)

From S2P Require Import Prelude.

(** The identity of a [std::task::Waker]: the task it wakes. *)
Abbreviation Waker := nat.

(** [AtomicWaker]: one slot.  [register] replaces the waker in it, [wake] takes
    the waker out and wakes it; both are atomic. *)
Class AtomicWakerOps (W : Type) : Type := {
  waker_new : W;
  waker_register : Waker → W → W;
  waker_wake : W → option Waker * W;
  registered : W → option Waker;
  registered_new : registered waker_new = None;
  registered_register : ∀ k w, registered (waker_register k w) = Some k;
  wake_wakes : ∀ w, fst (waker_wake w) = registered w;
  registered_wake : ∀ w, registered (snd (waker_wake w)) = None;
}.

(** [mpsc::unbounded_channel]: a FIFO queue.  [send] fails exactly when the
    receiver is gone, and then enqueues nothing; [try_recv] takes the oldest
    message; dropping the receiver drops the messages in the queue. *)
Class UnboundedChannelOps (C : Type → Type) : Type := {
  chan_new : ∀ {A}, C A;
  chan_send : ∀ {A}, A → C A → bool * C A;          (* [is_ok] of the result *)
  chan_try_recv : ∀ {A}, C A → option A * C A;
  chan_drop_rx : ∀ {A}, C A → C A;
  queued : ∀ {A}, C A → list A;
  rx_alive : ∀ {A}, C A → bool;
  queued_new : ∀ {A}, queued (@chan_new A) = [];
  rx_alive_new : ∀ {A}, rx_alive (@chan_new A) = true;
  send_ok : ∀ {A} (x : A) c, fst (chan_send x c) = rx_alive c;
  queued_send : ∀ {A} (x : A) c,
    queued (snd (chan_send x c)) = if rx_alive c then queued c ++ [x] else queued c;
  rx_alive_send : ∀ {A} (x : A) c, rx_alive (snd (chan_send x c)) = rx_alive c;
  try_recv_head : ∀ {A} (c : C A), fst (chan_try_recv c) = head (queued c);
  queued_try_recv : ∀ {A} (c : C A), queued (snd (chan_try_recv c)) = tail (queued c);
  rx_alive_try_recv : ∀ {A} (c : C A), rx_alive (snd (chan_try_recv c)) = rx_alive c;
  rx_alive_drop : ∀ {A} (c : C A), rx_alive (chan_drop_rx c) = false;
  queued_drop : ∀ {A} (c : C A), queued (chan_drop_rx c) = [];
}.

(** [watch::channel]: the last value sent, versioned.  [send] stores a value
    and fails when every receiver is gone; a receiver obtained by [subscribe]
    starts with the current value marked as seen, and its [changed] is ready
    exactly when a version it has not seen exists, which it then marks as
    seen.  [X] is the channel, [R] a receiver. *)
Class WatchOps (X R : Type) : Type := {
  watch_channel : bool → R * X;
  watch_subscribe : X → R * X;
  watch_drop_rx : R → X → X;
  watch_send : bool → X → bool * X;                 (* [is_ok] of the result *)
  watch_changed : R → X → option R;                 (* [None]: pending *)
  watch_borrow : X → bool;
  version : X → nat;
  receivers : X → nat;
  seen : R → nat;
  channel_spec : ∀ v, watch_borrow (snd (watch_channel v)) = v ∧
    seen (fst (watch_channel v)) = version (snd (watch_channel v)) ∧
    receivers (snd (watch_channel v)) = 1;
  subscribe_spec : ∀ x, seen (fst (watch_subscribe x)) = version x ∧
    version (snd (watch_subscribe x)) = version x ∧
    watch_borrow (snd (watch_subscribe x)) = watch_borrow x ∧
    receivers (snd (watch_subscribe x)) = S (receivers x);
  drop_rx_spec : ∀ r x, version (watch_drop_rx r x) = version x ∧
    watch_borrow (watch_drop_rx r x) = watch_borrow x ∧
    receivers (watch_drop_rx r x) = pred (receivers x);
  send_spec : ∀ v x, receivers x ≠ 0 → fst (watch_send v x) = true ∧
    watch_borrow (snd (watch_send v x)) = v ∧
    version (snd (watch_send v x)) = S (version x) ∧
    receivers (snd (watch_send v x)) = receivers x;
  send_closed : ∀ v x, receivers x = 0 → watch_send v x = (false, x);
  changed_pending : ∀ r x, watch_changed r x = None ↔ seen r = version x;
  changed_ready : ∀ r x r', watch_changed r x = Some r' → seen r' = version x;
}.

Create Rewrite HintDb crates.
#[export] Hint Rewrite @registered_new @registered_register @wake_wakes @registered_wake : crates.
#[export] Hint Rewrite @queued_new @rx_alive_new @send_ok @queued_send @rx_alive_send
  @try_recv_head @queued_try_recv @rx_alive_try_recv @rx_alive_drop @queued_drop : crates.

(** ** Instances *)

(** A waker slot. *)
#[export] Program Instance slot_waker : AtomicWakerOps (option Waker) := {|
  waker_new := None;
  waker_register k _ := Some k;
  waker_wake w := (w, None);
  registered w := w;
|}.
Solve All Obligations with done.

(** A queue with the liveness of its receiver. *)
Record list_chan (A : Type) : Type := mk_list_chan { lc_queue : list A; lc_alive : bool }.
Arguments mk_list_chan {A}.
Arguments lc_queue {A}.
Arguments lc_alive {A}.

#[export] Program Instance list_chan_ops : UnboundedChannelOps list_chan := {|
  chan_new _ := mk_list_chan [] true;
  chan_send _ x c := (lc_alive c,
    if lc_alive c then mk_list_chan (lc_queue c ++ [x]) true else c);
  chan_try_recv _ c := (head (lc_queue c), mk_list_chan (tail (lc_queue c)) (lc_alive c));
  chan_drop_rx _ c := mk_list_chan [] false;
  queued _ c := lc_queue c;
  rx_alive _ c := lc_alive c;
|}.
Solve All Obligations with (intros; simpl; by repeat case_match).

(** A versioned value with a receiver count. *)
Record cell : Type := mk_cell { c_value : bool; c_version : nat; c_receivers : nat }.

#[export] Program Instance cell_watch : WatchOps cell nat := {|
  watch_channel v := (0, mk_cell v 0 1);
  watch_subscribe x := (c_version x, mk_cell (c_value x) (c_version x) (S (c_receivers x)));
  watch_drop_rx _ x := mk_cell (c_value x) (c_version x) (pred (c_receivers x));
  watch_send v x := if (c_receivers x =? 0)%nat then (false, x)
    else (true, mk_cell v (S (c_version x)) (c_receivers x));
  watch_changed r x := if (r =? c_version x)%nat then None else Some (c_version x);
  watch_borrow := c_value;
  version := c_version;
  receivers := c_receivers;
  seen r := r;
|}.
Solve All Obligations with
  (intros; simpl in *; repeat case_match; simplify_eq/=; try done;
   rewrite ?Nat.eqb_eq, ?Nat.eqb_neq in *; naive_solver).
