(* ===== verification/Window.v ===== *)
(** * Credit windows ([src/flow/window.rs])

    [SendWindow] and [RecvWindow] as sequential operations, and their lock-free
    code at the granularity of its atomic accesses, run by concurrent tasks. *)

From S2P Require Import Prelude Machine Crates Interleaving.
From Stdlib Require Import ZArith Lia.

Local Open Scope Z_scope.

(** [enum AcquireOutcome]. *)
Inductive AcquireOutcome : Type :=
| Acquired (n : Z)
| Closed
| Pending.

Module SendWindow.
Section SendWindow.
Context {W : Type} {AW : AtomicWakerOps W}.

(** [struct SendWindow]. *)
Record t : Type := mk { available : Z; closed : bool; waker : W }.

(** [SendWindow::new]. *)
Definition new (initial : Z) : t := mk initial false waker_new.

(** [SendWindow::try_take], undisturbed: the swap of the value just loaded
    succeeds. *)
Definition try_take (desired : Z) (w : t) : option Z * t :=
  let cur := available w in
  if cur =? 0 then (None, w)
  else
    let take := Z.min cur desired in
    (Some take, mk (cur - take) (closed w) (waker w)).

(** [SendWindow::poll_acquire] by the task with waker [cx]. *)
Definition poll_acquire (cx : Waker) (desired : Z) (w : t) : AcquireOutcome * t :=
  if closed w then (Closed, w) else
  match try_take desired w with
  | (Some n, w) => (Acquired n, w)
  | (None, w) =>
    let w := mk (available w) (closed w) (waker_register cx (waker w)) in
    if closed w then (Closed, w) else
    match try_take desired w with
    | (Some n, w) => (Acquired n, w)
    | (None, w) => (Pending, w)
    end
  end.

(** [SendWindow::grant]: the task woken, if any, and the window. *)
Definition grant (delta : Z) (w : t) : option Waker * t :=
  if delta =? 0 then (None, w) else
  let new := saturating_add_u32 (available w) delta in
  let woken := waker_wake (waker w) in
  (fst woken, mk new (closed w) (snd woken)).

(** [SendWindow::close]. *)
Definition close (w : t) : option Waker * t :=
  let woken := waker_wake (waker w) in
  (fst woken, mk (available w) true (snd woken)).

Definition wf (w : t) : Prop := is_u32 (available w).

(** ** The code, access by access *)

(** The polling task: [P..1] is the first check, [P..2] the check repeated after
    registering. *)
Inductive ppc : Type :=
| PClosed1 (desired : Z)
| PLoad1 (desired : Z)
| PCas1 (desired cur : Z)
| PRegister (desired : Z)
| PClosed2 (desired : Z)
| PLoad2 (desired : Z)
| PCas2 (desired cur : Z)
| PRet (r : AcquireOutcome).

(** [cx] is the polling task's waker; [spurious] a failure of the weak swap. *)
Definition pstep (cx : Waker) (spurious : bool) (p : ppc) (w : t) : ppc * t :=
  match p with
  | PClosed1 d => (if closed w then PRet Closed else PLoad1 d, w)
  | PLoad1 d =>
    let cur := available w in (if cur =? 0 then PRegister d else PCas1 d cur, w)
  | PCas1 d cur =>
    let take := Z.min cur d in
    if negb spurious && (available w =? cur)
    then (PRet (Acquired take), mk (cur - take) (closed w) (waker w))
    else (PLoad1 d, w)
  | PRegister d => (PClosed2 d, mk (available w) (closed w) (waker_register cx (waker w)))
  | PClosed2 d => (if closed w then PRet Closed else PLoad2 d, w)
  | PLoad2 d =>
    let cur := available w in (if cur =? 0 then PRet Pending else PCas2 d cur, w)
  | PCas2 d cur =>
    let take := Z.min cur d in
    if negb spurious && (available w =? cur)
    then (PRet (Acquired take), mk (cur - take) (closed w) (waker w))
    else (PLoad2 d, w)
  | PRet r => (PRet r, w)
  end.

(** The tasks that give credit or close the window. *)
Inductive npc : Type :=
| GStart (delta : Z)          (* [grant] called *)
| GLoop (delta cur : Z)       (* [cur] loaded, about to swap *)
| GWake
| CStart                      (* [close] called *)
| CWake
| NDone.

#[global] Instance npc_eq_dec : EqDecision npc.
Proof. solve_decision. Defined.

(** One access, and the waker it wakes. *)
Definition nstep (spurious : bool) (p : npc) (w : t) : npc * t * option Waker :=
  match p with
  | GStart delta =>
    if delta =? 0 then (NDone, w, None) else (GLoop delta (available w), w, None)
  | GLoop delta cur =>
    let new := saturating_add_u32 cur delta in
    if negb spurious && (available w =? cur)
    then (GWake, mk new (closed w) (waker w), None)
    else (GLoop delta (available w), w, None)
  | CStart => (CWake, mk (available w) true (waker w), None)
  | GWake | CWake =>
    let '(woken, k) := waker_wake (waker w) in (NDone, mk (available w) (closed w) k, woken)
  | NDone => (NDone, w, None)
  end.

(** *** Undisturbed runs *)

Fixpoint prun (cx : Waker) (n : nat) (p : ppc) (w : t) : ppc * t :=
  match n with
  | O => (p, w)
  | S n' => let '(p', w') := pstep cx false p w in prun cx n' p' w'
  end.

Fixpoint nrun (n : nat) (p : npc) (w : t) : npc * t * list Waker :=
  match n with
  | O => (p, w, [])
  | S n' =>
    let '(p1, w1, woken) := nstep false p w in
    let '(p2, w2, ws) := nrun n' p1 w1 in
    (p2, w2, option_list woken ++ ws)
  end.

Lemma prun_poll_acquire cx desired w :
  prun cx 7 (PClosed1 desired) w =
    (PRet (fst (poll_acquire cx desired w)), snd (poll_acquire cx desired w)).
Proof.
  unfold poll_acquire, try_take. destruct w as [a [] k]; [done|]. cbn [prun pstep closed available].
  destruct (a =? 0) eqn:Ha; cbn [prun pstep closed available waker negb andb];
    [|by rewrite Z.eqb_refl].
  by rewrite Ha.
Qed.

Lemma nrun_grant delta w :
  nrun 3 (GStart delta) w =
    (NDone, snd (grant delta w), option_list (fst (grant delta w))).
Proof.
  unfold grant. cbn [nrun nstep]. destruct (delta =? 0); [done|].
  cbn [nstep negb andb]. rewrite Z.eqb_refl. cbn [nstep waker available closed].
  destruct (waker_wake (waker w)) as [[k|] w']; done.
Qed.

Lemma nrun_close w :
  nrun 2 CStart w = (NDone, snd (close w), option_list (fst (close w))).
Proof.
  unfold close. cbn [nrun nstep waker available closed].
  destruct (waker_wake (waker w)) as [[k|] w']; done.
Qed.

End SendWindow.
Arguments t : clear implicits.
End SendWindow.

Module RecvWindow.

(** [struct RecvWindow]. *)
Record t : Type := mk { initial : Z; pending_credit : Z }.

(** [RecvWindow::new]. *)
Definition new (initial : Z) : t := mk initial 0.

(** [(self.initial / 2).max(1)]. *)
Definition threshold (w : t) : Z := Z.max (initial w / 2) 1.

(** [RecvWindow::on_consume], undisturbed.  [fetch_add] wraps while the local
    sum saturates, so the first swap can fail even without interference; the
    loop then retries with the value found, or gives up below the threshold. *)
Definition on_consume (bytes : Z) (w : t) : option Z * t :=
  if bytes =? 0 then (None, w) else
  let prev := pending_credit w in
  let w := mk (initial w) (wrapping_add_u32 prev bytes) in
  let new := saturating_add_u32 prev bytes in
  if threshold w <=? new then
    if pending_credit w =? new then (Some new, mk (initial w) 0)
    else
      let actual := pending_credit w in
      if actual <? threshold w then (None, w)
      else (Some actual, mk (initial w) 0)
  else (None, w).

(** A sequence of calls: the window updates it asks for, in order. *)
Fixpoint consume_all (bs : list Z) (w : t) : list Z * t :=
  match bs with
  | [] => ([], w)
  | b :: bs' =>
    let '(r, w1) := on_consume b w in
    let '(rs, w2) := consume_all bs' w1 in
    (option_list r ++ rs, w2)
  end.

(** Between calls the tally is below the threshold. *)
Definition wf (w : t) : Prop :=
  is_u32 (initial w) ∧ 0 ≤ pending_credit w < threshold w.

Lemma threshold_range (w : t) : is_u32 (initial w) → 1 ≤ threshold w ≤ U32_MAX.
Proof.
  unfold is_u32, threshold. intros [H1 H2].
  pose proof (Z.div_le_upper_bound (initial w) 2 U32_MAX ltac:(lia) ltac:(unfold U32_MAX in *; lia)).
  unfold U32_MAX in *. lia.
Qed.

(** The tally when the sum fits a [u32]. *)
Lemma on_consume_fits (bytes : Z) (w : t) :
  wf w → 0 ≤ bytes → pending_credit w + bytes ≤ U32_MAX →
  on_consume bytes w =
    if threshold w <=? pending_credit w + bytes
    then (Some (pending_credit w + bytes), mk (initial w) 0)
    else (None, mk (initial w) (pending_credit w + bytes)).
Proof.
  intros (Hi & Hp & Hlt) Hb Hfit. unfold on_consume, saturating_add_u32, wrapping_add_u32.
  pose proof (threshold_range w Hi). destruct w as [ini p]; cbn [initial pending_credit] in *.
  change (threshold (mk ini _)) with (threshold (mk ini p)).
  destruct (Z.eqb_spec bytes 0) as [->|Hnz].
  - rewrite Z.add_0_r. destruct (Z.leb_spec (threshold (mk ini p)) p); [lia|done].
  - rewrite Z.min_l, Z.mod_small by lia.
    destruct (threshold (mk ini p) <=? p + bytes); [|done]. by rewrite Z.eqb_refl.
Qed.

Lemma on_consume_wf (bytes : Z) (w : t) :
  wf w → 0 ≤ bytes → pending_credit w + bytes ≤ U32_MAX → wf (snd (on_consume bytes w)).
Proof.
  intros Hw Hb Hfit. rewrite on_consume_fits by done. destruct Hw as (Hi & Hp & Hlt).
  pose proof (threshold_range w Hi). unfold wf, threshold in *.
  destruct (Z.leb_spec (Z.max (initial w / 2) 1) (pending_credit w + bytes));
    simpl; split_and!; try done; lia.
Qed.

(** Every byte is either in the tally or in a window update. *)
Lemma on_consume_conserves (bytes : Z) (w : t) :
  wf w → 0 ≤ bytes → pending_credit w + bytes ≤ U32_MAX →
  default 0 (fst (on_consume bytes w)) + pending_credit (snd (on_consume bytes w)) =
    pending_credit w + bytes.
Proof. intros. rewrite on_consume_fits by done. case_match; simpl; lia. Qed.

(** ** The code, access by access *)

Inductive pc : Type :=
| RAdd (bytes : Z)          (* [on_consume] called *)
| RCas (cur : Z)            (* about to swap [cur] for 0 *)
| RRet (r : option Z).

Definition step (spurious : bool) (p : pc) (w : t) : pc * t :=
  match p with
  | RAdd bytes =>
    if bytes =? 0 then (RRet None, w) else
    let prev := pending_credit w in
    let w := mk (initial w) (wrapping_add_u32 prev bytes) in
    let new := saturating_add_u32 prev bytes in
    (if threshold w <=? new then RCas new else RRet None, w)
  | RCas cur =>
    if negb spurious && (pending_credit w =? cur)
    then (RRet (Some cur), mk (initial w) 0)
    else
      let actual := pending_credit w in
      (if actual <? threshold w then RRet None else RCas actual, w)
  | RRet r => (RRet r, w)
  end.

Fixpoint run (n : nat) (p : pc) (w : t) : pc * t :=
  match n with
  | O => (p, w)
  | S n' => let '(p', w') := step false p w in run n' p' w'
  end.

Lemma run_on_consume bytes w :
  run 3 (RAdd bytes) w = (RRet (fst (on_consume bytes w)), snd (on_consume bytes w)).
Proof.
  unfold on_consume. cbn [run step]. destruct (bytes =? 0); [done|].
  set (w1 := mk _ _). set (new := saturating_add_u32 _ _).
  destruct (threshold w1 <=? new); cbn [step negb andb]; [|done].
  destruct (pending_credit w1 =? new); [done|].
  destruct (pending_credit w1 <? threshold w1); cbn [step negb andb]; [done|].
  by rewrite Z.eqb_refl.
Qed.

End RecvWindow.

(** The lock-free loops terminate and do what the sequential operations
    say: run without interference, [poll_acquire] returns after at most seven
    atomic accesses, [grant] after three, [close] after two and [on_consume]
    after three, with the outcome, the window and the wake-ups of the
    sequential definitions. *)
Lemma window_code_terminates {W : Type} {AW : AtomicWakerOps W}
    (cx : Waker) (desired delta bytes : Z) (w : SendWindow.t W) (r : RecvWindow.t) :
  SendWindow.prun cx 7 (SendWindow.PClosed1 desired) w =
    (SendWindow.PRet (fst (SendWindow.poll_acquire cx desired w)),
     snd (SendWindow.poll_acquire cx desired w)) ∧
  SendWindow.nrun 3 (SendWindow.GStart delta) w =
    (SendWindow.NDone, snd (SendWindow.grant delta w),
     option_list (fst (SendWindow.grant delta w))) ∧
  SendWindow.nrun 2 SendWindow.CStart w =
    (SendWindow.NDone, snd (SendWindow.close w), option_list (fst (SendWindow.close w))) ∧
  RecvWindow.run 3 (RecvWindow.RAdd bytes) r =
    (RecvWindow.RRet (fst (RecvWindow.on_consume bytes r)), snd (RecvWindow.on_consume bytes r)).
Proof.
  split_and!; [apply SendWindow.prun_poll_acquire|apply SendWindow.nrun_grant|
    apply SendWindow.nrun_close|apply RecvWindow.run_on_consume].
Qed.

