(* ===== verification/SendWindowConc.v ===== *)
(** * The send window under concurrency ([src/flow/window.rs])

    One task polls [poll_acquire] (the stream's writer); any number of others
    call [grant] and [close] (the session's reader, shutdown).  A step is one
    atomic access.  The model carries the ghost totals of credit granted and
    acquired, and whether the polling task has been woken since its last poll
    began. *)

From S2P Require Import Prelude Machine Crates Interleaving Window.
From Stdlib Require Import ZArith Lia.
Import SendWindow.

Local Open Scope Z_scope.

Section Conc.
Context {W : Type} {AW : AtomicWakerOps W}.
Variable me : Waker.       (* the polling task *)
Variable initial : Z.

Record sw_config : Type := mk_sw {
  win : SendWindow.t W;
  notified : bool;
  acquired : Z;            (* total of the [Acquired] outcomes so far *)
  granted : Z;             (* total of the deltas added so far *)
  poller : ppc;
  notifiers : list npc;
}.

(** The credit one step of a task takes or gives. *)
Definition credit_taken (p : ppc) : Z := match p with PRet (Acquired n) => n | _ => 0 end.
Definition credit_given (p p' : npc) : Z :=
  match p, p' with GLoop delta _, GWake => delta | _, _ => 0 end.

Definition is_ret (p : ppc) : bool := match p with PRet _ => true | _ => false end.

Inductive sw_step : sw_config → sw_config → Prop :=
| SW_poll_access b w n acq gr p p' w' ns :     (* the poller's next access *)
    is_ret p = false →
    pstep me b p w = (p', w') →
    sw_step (mk_sw w n acq gr p ns) (mk_sw w' n (acq + credit_taken p') gr p' ns)
| SW_poll_start d w n acq gr r ns :            (* the runtime polls the task again *)
    1 ≤ d ≤ U32_MAX →
    sw_step (mk_sw w n acq gr (PRet r) ns) (mk_sw w false acq gr (PClosed1 d) ns)
| SW_notify b w w' n acq gr p i q q' woken ns : (* an access of a granter or closer *)
    ns !! i = Some q → q ≠ NDone →
    nstep b q w = (q', w', woken) →
    sw_step (mk_sw w n acq gr p ns)
      (mk_sw w' (n || bool_decide (woken = Some me)) acq (gr + credit_given q q') p
         (<[i := q']> ns))
| SW_call q w n acq gr p i ns :                (* a task calls [grant] or [close] *)
    ns !! i = Some NDone →
    q = CStart ∨ (∃ delta, q = GStart delta ∧ is_u32 delta) →
    sw_step (mk_sw w n acq gr p ns) (mk_sw w n acq gr p (<[i := q]> ns)).

(** A fresh window, a writer about to poll for [d] bytes, [k] idle tasks. *)
Definition sw_init (d : Z) (k : nat) : sw_config :=
  mk_sw (SendWindow.new initial) false 0 0 (PClosed1 d) (replicate k NDone).

(** ** Credit accounting *)

Definition ppc_ok (p : ppc) : Prop :=
  match p with
  | PClosed1 d | PLoad1 d | PRegister d | PClosed2 d | PLoad2 d => 1 ≤ d
  | PCas1 d cur | PCas2 d cur => 1 ≤ d ∧ 1 ≤ cur ≤ U32_MAX
  | PRet _ => True
  end.

Definition npc_ok (q : npc) : Prop :=
  match q with
  | GStart delta => is_u32 delta
  | GLoop delta cur => 1 ≤ delta ≤ U32_MAX ∧ is_u32 cur
  | _ => True
  end.

Definition credit_inv (c : sw_config) : Prop :=
  is_u32 (available (win c)) ∧ 0 ≤ acquired c ∧ 0 ≤ granted c ∧
  available (win c) + acquired c ≤ initial + granted c ∧
  (initial + granted c ≤ U32_MAX → available (win c) + acquired c = initial + granted c) ∧
  ppc_ok (poller c) ∧ Forall npc_ok (notifiers c).

Lemma credit_inv_init d k : is_u32 initial → 1 ≤ d → credit_inv (sw_init d k).
Proof.
  unfold credit_inv, is_u32. simpl. intros. split_and!; try lia.
  by apply Forall_replicate.
Qed.

Lemma credit_inv_pstep b p p' (w w' : SendWindow.t W) n acq gr ns :
  is_ret p = false → pstep me b p w = (p', w') →
  credit_inv (mk_sw w n acq gr p ns) →
  credit_inv (mk_sw w' n (acq + credit_taken p') gr p' ns).
Proof.
  unfold credit_inv, is_u32. destruct w as [a cl k]. simpl.
  intros Hr Hs (Ha & Hacq & Hgr & Hle & Heq & Hp & Hns).
  destruct p; simpl in *; simplify_eq;
    repeat case_match; simplify_eq; simpl;
    try (match goal with H : _ && _ = true |- _ => apply andb_prop in H as [_ H] end);
    rewrite ?Z.eqb_eq, ?Z.eqb_neq in *; simplify_eq; split_and!; try done; try lia.
Qed.

Lemma credit_inv_nstep b i q q' woken (w w' : SendWindow.t W) n n' acq gr p ns :
  ns !! i = Some q → nstep b q w = (q', w', woken) →
  credit_inv (mk_sw w n acq gr p ns) →
  credit_inv (mk_sw w' n' acq (gr + credit_given q q') p (<[i := q']> ns)).
Proof.
  unfold credit_inv, is_u32. destruct w as [a cl k]. simpl.
  intros Hi Hs (Ha & Hacq & Hgr & Hle & Heq & Hp & Hns).
  pose proof (Forall_lookup_1 _ _ _ _ Hns Hi) as Hq.
  assert (∀ q', npc_ok q' → Forall npc_ok (<[i := q']> ns)) as Hins
    by (intros; by apply Forall_insert_thread).
  destruct q; simpl in *; unfold is_u32 in *; repeat case_match; simplify_eq; simpl;
    try (match goal with H : _ && _ = true |- _ => apply andb_prop in H as [_ H] end);
    rewrite ?Z.eqb_eq, ?Z.eqb_neq in *; simplify_eq; split_and!; try apply Hins; simpl;
    unfold is_u32, saturating_add_u32; try done; lia.
Qed.

Lemma credit_inv_step c c' : sw_step c c' → credit_inv c → credit_inv c'.
Proof.
  intros [b w n acq gr p p' w' ns Hr Hs|d w n acq gr r ns Hd
         |b w w' n acq gr p i q q' woken ns Hi Hq Hs|q w n acq gr p i ns Hi Hq] Hinv.
  - by eapply credit_inv_pstep.
  - unfold credit_inv in *; simpl in *. destruct_and!. split_and!; try done; lia.
  - by eapply credit_inv_nstep.
  - unfold credit_inv in *; simpl in *. destruct_and!. split_and!; try done.
    apply Forall_insert_thread; [done|]. by destruct Hq as [->|(delta & -> & ?)].
Qed.

(** ** Wake-ups *)

(** A task that has changed the window and is about to wake. *)
Definition waking (q : npc) : Prop := q = GWake ∨ q = CWake.

#[local] Instance waking_dec q : Decision (waking q).
Proof. unfold waking. apply _. Defined.

(** The poller has registered and has not returned since. *)
Definition registered_pc (p : ppc) : bool :=
  match p with PClosed2 _ | PLoad2 _ | PCas2 _ _ | PRet Pending => true | _ => false end.

(** ... and has moreover seen the window open after registering. *)
Definition rechecked_pc (p : ppc) : bool :=
  match p with PLoad2 _ | PCas2 _ _ | PRet Pending => true | _ => false end.

(** While the poller has not been woken, its waker sits in the slot, and a
    window that has become ready since the re-check has a waker on its way. *)
Definition wake_inv (c : sw_config) : Prop :=
  notified c = false →
  (registered_pc (poller c) = true → registered (waker (win c)) = Some me) ∧
  (rechecked_pc (poller c) = true → closed (win c) = true → Exists waking (notifiers c)) ∧
  (poller c = PRet Pending → available (win c) ≠ 0 → Exists waking (notifiers c)).

Lemma wake_inv_pstep b p p' (w w' : SendWindow.t W) n acq acq' gr ns :
  is_ret p = false → pstep me b p w = (p', w') →
  wake_inv (mk_sw w n acq gr p ns) → wake_inv (mk_sw w' n acq' gr p' ns).
Proof.
  unfold wake_inv. destruct w as [a cl k]. simpl. intros Hr Hs Hinv Hn.
  destruct (Hinv Hn) as (H1 & H2 & H3). clear Hinv.
  destruct p; simpl in *; simplify_eq; repeat case_match; simplify_eq; simpl;
    rewrite ?Z.eqb_eq, ?Z.eqb_neq in *; autorewrite with crates; split_and!;
    naive_solver.
Qed.

(** A waking step takes the waker out of the slot and leaves the rest. *)
Lemma nstep_waking b q q' (w w' : SendWindow.t W) woken :
  waking q → nstep b q w = (q', w', woken) →
  woken = registered (waker w) ∧ available w' = available w ∧ closed w' = closed w.
Proof.
  intros [->| ->]; simpl; rewrite <- (wake_wakes (waker w));
    destruct (waker_wake (waker w)); simpl; intros; by simplify_eq.
Qed.

(** Any other step leaves the slot, and one that changes the window leads to a
    waking step. *)
Lemma nstep_not_waking b q q' (w w' : SendWindow.t W) woken :
  ¬ waking q → nstep b q w = (q', w', woken) →
  waker w' = waker w ∧ (waking q' ∨ available w' = available w ∧ closed w' = closed w).
Proof.
  unfold waking. intros Hq. destruct q; simpl; try (by destruct Hq; auto);
    repeat case_match; intros; simplify_eq; simpl; auto.
Qed.

Lemma wake_inv_nstep b i q q' woken (w w' : SendWindow.t W) n acq gr gr' p ns :
  ns !! i = Some q → nstep b q w = (q', w', woken) →
  wake_inv (mk_sw w n acq gr p ns) →
  wake_inv (mk_sw w' (n || bool_decide (woken = Some me)) acq gr' p (<[i := q']> ns)).
Proof.
  unfold wake_inv. simpl. intros Hi Hs Hinv [Hn Hw]%orb_false_iff.
  destruct (Hinv Hn) as (H1 & H2 & H3). clear Hinv.
  apply bool_decide_eq_false in Hw.
  destruct (decide (waking q)) as [Hq|Hq].
  - destruct (nstep_waking b q q' w w' woken Hq Hs) as (Ewk & Ea & Ec).
    assert (registered_pc p = false) as Hp.
    { destruct (registered_pc p); [|done]. destruct Hw. rewrite Ewk. auto. }
    split_and!; [by rewrite Hp|intros H; by destruct p as [| | | | | | |[]]|by intros ->].
  - destruct (nstep_not_waking b q q' w w' woken Hq Hs) as (Ewk & Hchg).
    rewrite Ewk. destruct Hchg as [Hq'|[Ea Ec]].
    + split_and!; [done|intros; by apply (Exists_insert_here _ _ _ q)..].
    + rewrite Ea, Ec. split_and!; [done|..];
        intros; apply (Exists_insert_other _ _ _ q); auto.
Qed.

Lemma wake_inv_step c c' : sw_step c c' → wake_inv c → wake_inv c'.
Proof.
  intros [b w n acq gr p p' w' ns Hr Hs|d w n acq gr r ns Hd
         |b w w' n acq gr p i q q' woken ns Hi Hq Hs|q w n acq gr p i ns Hi Hq] Hinv.
  - by eapply wake_inv_pstep.
  - by intros _.
  - by eapply wake_inv_nstep.
  - intros Hn. destruct (Hinv Hn) as (H1 & H2 & H3). simpl in *.
    assert (Exists waking ns → Exists waking (<[i := q]> ns)).
    { intros. eapply Exists_insert_other; [done| |done]. by intros [?|?]. }
    split_and!; naive_solver.
Qed.

Definition sw_reachable (d : Z) (k : nat) : sw_config → Prop := rtc sw_step (sw_init d k).

Lemma sw_reachable_inv d k c :
  is_u32 initial → 1 ≤ d → sw_reachable d k c → credit_inv c ∧ wake_inv c.
Proof.
  intros Hi Hd Hr. assert (credit_inv (sw_init d k) ∧ wake_inv (sw_init d k)) as H0.
  { split; [by apply credit_inv_init|by intros _]. }
  induction Hr as [|c1 c2 c3 Hs _ IH]; [done|].
  apply IH. destruct H0. eauto using credit_inv_step, wake_inv_step.
Qed.

(** C16: Credit is conserved under every interleaving of one writer polling with
    any number of tasks granting and closing: the bytes acquired never exceed
    the initial window plus the credit granted, the window stays a [u32], and
    as long as the peer has not granted past [u32::MAX] (where [grant]
    saturates) not one byte of credit is lost or created. *)
Theorem send_window_credit (d : Z) (k : nat) (c : sw_config) :
  is_u32 initial → 1 ≤ d → sw_reachable d k c →
  is_u32 (available (win c)) ∧
  acquired c ≤ initial + granted c ∧
  (initial + granted c ≤ U32_MAX → available (win c) + acquired c = initial + granted c).
Proof.
  intros Hi Hd Hr. destruct (sw_reachable_inv d k c Hi Hd Hr) as [(Ha & _ & _ & Hle & Heq & _) _].
  split_and!; [done| |done]. unfold is_u32 in Ha. lia.
Qed.

(** C15: No lost wake-up: whenever the writer's last poll returned [Pending] and
    the window now has credit or is closed, the writer has been woken or some
    task is just about to wake it; so once the other tasks are idle, a writer
    that was not woken faces a window that is open and empty. *)
Theorem send_window_no_lost_wakeup (d : Z) (k : nat) (c : sw_config) :
  is_u32 initial → 1 ≤ d → sw_reachable d k c →
  poller c = PRet Pending →
  (available (win c) ≠ 0 ∨ closed (win c) = true →
     notified c = true ∨ Exists waking (notifiers c)) ∧
  (Forall (λ q, q = NDone) (notifiers c) → notified c = false →
     available (win c) = 0 ∧ closed (win c) = false).
Proof.
  intros Hi Hd Hr Hp. destruct (sw_reachable_inv d k c Hi Hd Hr) as [_ Hw].
  assert (available (win c) ≠ 0 ∨ closed (win c) = true →
    notified c = true ∨ Exists waking (notifiers c)) as Hgoal.
  { destruct (notified c) eqn:Hn; [by left|]. right.
    destruct (Hw Hn) as (_ & H2 & H3). rewrite Hp in *. naive_solver. }
  split; [done|]. intros Hidle Hn.
  assert (¬ Exists waking (notifiers c)) as Hno.
  { apply Exists_none. eapply Forall_impl; [exact Hidle|]. by intros q -> [?|?]. }
  rewrite Hn in Hgoal. destruct (decide (available (win c) = 0)), (closed (win c)); naive_solver.
Qed.

End Conc.

(** The writer finds the window empty, a grant of 8 lands between its check and
    its registration, and the writer's re-check takes it; it then polls again
    and parks. *)
Lemma send_window_credit_witness :
  ∃ c : sw_config, sw_reachable 7 0 16 1 c ∧ acquired c = 8 ∧
    available (win c) + acquired c = 0 + granted c.
Proof.
  assert (∃ c : sw_config, sw_reachable 7 0 16 1 c ∧ acquired c = 8 ∧ granted c = 8)
    as (c & Hc & Ha & Hg).
  { eexists. split; [|split].
    - unfold sw_reachable, sw_init. simpl.
      eapply rtc_l; [by eapply (SW_poll_access _ false)|].
      eapply rtc_l; [by eapply (SW_poll_access _ false)|].
      eapply rtc_l; [eapply (SW_call _ (GStart 8)) with (i := 0%nat); [done|right; eexists; split; [done|concrete]]|].
      eapply rtc_l; [by eapply (SW_notify _ false) with (i := 0%nat)|].
      eapply rtc_l; [by eapply (SW_notify _ false) with (i := 0%nat)|].
      eapply rtc_l; [by eapply (SW_poll_access _ false)|].
      eapply rtc_l; [by eapply (SW_poll_access _ false)|].
      eapply rtc_l; [by eapply (SW_poll_access _ false)|].
      eapply rtc_l; [by eapply (SW_poll_access _ false)|].
      apply rtc_refl.
    - reflexivity.
    - reflexivity. }
  exists c. split_and!; [done|done|].
  destruct (send_window_credit 7 0 16 1 c) as (_ & _ & H); [concrete|concrete|done|].
  apply H. rewrite Hg. concrete.
Defined.

(** The writer parks on an empty window, is not woken, and nobody is active. *)
Lemma send_window_no_lost_wakeup_witness :
  ∃ c : sw_config, sw_reachable 7 0 16 2 c ∧ poller c = PRet Pending ∧
    available (win c) = 0 ∧ closed (win c) = false.
Proof.
  assert (∃ c : sw_config, sw_reachable 7 0 16 2 c ∧ poller c = PRet Pending ∧
    notified c = false ∧ notifiers c = [NDone; NDone]) as (c & Hc & Hp & Hn & Hns).
  { eexists. split_and!.
    - unfold sw_reachable, sw_init. simpl.
      do 5 (eapply rtc_l; [by eapply (SW_poll_access _ false)|]). apply rtc_refl.
    - reflexivity.
    - reflexivity.
    - reflexivity. }
  exists c. split_and!; [done|done| |];
    apply (send_window_no_lost_wakeup 7 0 16 2 c); try done; try concrete;
    rewrite Hns; repeat constructor.
Defined.
