(* ===== verification/RecvWindowConc.v ===== *)
(** * The receive window under concurrency ([src/flow/window.rs])

    Any number of tasks call [on_consume] on one window, one atomic access per
    step, with the ghost totals of bytes consumed and of credit emitted. *)

From S2P Require Import Prelude Machine Interleaving Window.
From Stdlib Require Import ZArith Lia.
Import RecvWindow.

Local Open Scope Z_scope.

Record rw_shared : Type := mk_rw { rwin : RecvWindow.t; consumed : Z; emitted : Z }.

Definition bytes_added (p : pc) : Z := match p with RAdd n => n | _ => 0 end.
Definition credit_emitted (p p' : pc) : Z :=
  match p, p' with RCas _, RRet (Some n) => n | _, _ => 0 end.

Definition is_done (p : pc) : bool := match p with RRet _ => true | _ => false end.

Inductive rw_tstep : pc → rw_shared → pc → rw_shared → Prop :=
| RW_access b p p' w w' cons em :
    is_done p = false →
    step b p w = (p', w') →
    rw_tstep p (mk_rw w cons em) p'
      (mk_rw w' (cons + bytes_added p) (em + credit_emitted p p'))
| RW_call r n s :                        (* the task consumes [n] more bytes *)
    is_u32 n → rw_tstep (RRet r) s (RAdd n) s.

Definition rw_init (initial : Z) (k : nat) : config rw_shared pc :=
  mk_config (mk_rw (RecvWindow.new initial) 0 0) (replicate k (RRet None)).

(** A task in the swap loop. *)
Definition swapping (p : pc) : Prop := match p with RCas _ => True | _ => False end.
#[local] Instance swapping_dec p : Decision (swapping p).
Proof. destruct p; simpl; apply _. Defined.

(** The tally and the emitted credit account for the bytes consumed, up to
    multiples of [2^32] (the wrap-around of [fetch_add]); a tally over the
    threshold has a task in the swap loop to emit it. *)
Definition rw_inv (ini : Z) (c : config rw_shared pc) : Prop :=
  let s := shared c in
  initial (rwin s) = ini ∧ is_u32 (pending_credit (rwin s)) ∧ 0 ≤ emitted s ∧
  (∃ laps, 0 ≤ laps ∧
     consumed s = pending_credit (rwin s) + emitted s + laps * (U32_MAX + 1)) ∧
  (threshold (rwin s) ≤ pending_credit (rwin s) → Exists swapping (threads c)) ∧
  Forall (λ p, match p with
               | RAdd n => is_u32 n
               | RCas cur => threshold (rwin s) ≤ cur
               | RRet _ => True end) (threads c).

Lemma rw_inv_init ini k : is_u32 ini → rw_inv ini (rw_init ini k).
Proof.
  intros Hi. unfold rw_inv, is_u32, U32_MAX. simpl. split_and!; try done.
  - by exists 0.
  - intros Ht. pose proof (threshold_range (RecvWindow.new ini) Hi).
    unfold threshold in *. simpl in *. lia.
  - by apply Forall_replicate.
Qed.

Lemma wrapping_add_laps a b :
  is_u32 a → is_u32 b →
  ∃ laps, 0 ≤ laps ∧ a + b = wrapping_add_u32 a b + laps * (U32_MAX + 1) ∧
    is_u32 (wrapping_add_u32 a b) ∧ (laps = 0 → saturating_add_u32 a b = a + b) ∧
    (laps ≠ 0 → saturating_add_u32 a b = U32_MAX).
Proof.
  unfold is_u32, wrapping_add_u32, saturating_add_u32. intros Ha Hb.
  exists ((a + b) / (U32_MAX + 1)).
  pose proof (Z.div_mod (a + b) (U32_MAX + 1) ltac:(unfold U32_MAX; lia)).
  pose proof (Z.mod_pos_bound (a + b) (U32_MAX + 1) ltac:(unfold U32_MAX; lia)).
  pose proof (Z.div_pos (a + b) (U32_MAX + 1) ltac:(lia) ltac:(unfold U32_MAX; lia)).
  unfold U32_MAX in *. split_and!; lia.
Qed.

Lemma rw_inv_step ini i p p' s s' ts :
  is_u32 ini → ts !! i = Some p → rw_tstep p s p' s' →
  rw_inv ini (mk_config s ts) → rw_inv ini (mk_config s' (<[i := p']> ts)).
Proof.
  intros Hini Hi Ht (Hw & Hp & Hem & (laps & Hlaps & Heq) & Hsw & Hts).
  pose proof (Forall_lookup_1 _ _ _ _ Hts Hi) as Hpc.
  destruct Ht as [b p p' w w' cons em Hnd Hs|r n s Hn]; simpl in *.
  2: { unfold rw_inv, threshold in *; simpl in *; split_and!; eauto.
       - intros. eapply Exists_insert_other; [done| |auto]. by intros [].
       - by apply Forall_insert_thread. }
  assert (1 ≤ threshold w ≤ U32_MAX) as Hthr
    by (apply threshold_range; by rewrite Hw).
  destruct w as [ini0 pend]; simpl in *; subst ini0.
  assert (∀ P q, Forall P ts → P q → Forall P (<[i := q]> ts)) as Hins
    by (intros; by apply Forall_insert_thread).
  assert (∀ q, swapping q → Exists swapping (<[i := q]> ts)) as Hhere
    by (intros; by apply (Exists_insert_here _ _ _ p)).
  assert (∀ q, ¬ swapping p → Exists swapping ts → Exists swapping (<[i := q]> ts)) as Hother
    by (intros; by apply (Exists_insert_other _ _ _ p)).
  destruct p as [n|cur|r]; simpl in *; [| |done].
  - destruct (Z.eqb_spec n 0) as [->|Hn]; simplify_eq; simpl in *.
    { rewrite !Z.add_0_r. unfold rw_inv, threshold in *; simpl in *; split_and!; eauto. }
    destruct (wrapping_add_laps pend n Hp Hpc) as (l2 & Hl2 & Hadd & Hu & H0 & H1).
    unfold threshold in *; simpl in *.
    unfold rw_inv, threshold in *; simpl in *; split_and!; eauto; try lia.
    + exists (laps + l2). lia.
    + destruct (Z.leb_spec (Z.max (ini / 2) 1) (saturating_add_u32 pend n)); [by intros; apply Hhere|].
      intros. exfalso. destruct (decide (l2 = 0)) as [E|E]; [specialize (H0 E)|specialize (H1 E)];
        unfold U32_MAX in *; lia.
    + apply Hins; [done|]. by destruct (Z.leb_spec (Z.max (ini / 2) 1) (saturating_add_u32 pend n)).
  - destruct (negb b && (pend =? cur)) eqn:E; simplify_eq; simpl in *; rewrite ?Z.add_0_r.
    + apply andb_prop in E as [_ E]. apply Z.eqb_eq in E. subst cur.
      unfold threshold, is_u32, U32_MAX in *; simpl in *.
      unfold rw_inv, threshold in *; simpl in *; split_and!; eauto; unfold is_u32, U32_MAX; try lia.
      exists laps. lia.
    + unfold rw_inv, threshold in *; simpl in *.
      destruct (Z.ltb_spec pend (Z.max (ini / 2) 1)); simpl; rewrite !Z.add_0_r;
        split_and!; eauto; try lia. intros. by apply Hhere.
Qed.

Lemma rw_inv_reachable ini k c :
  is_u32 ini → reachable rw_tstep (rw_init ini k) c → rw_inv ini c.
Proof.
  intros Hi. apply (reachable_invariant rw_tstep (rw_inv ini)); [by apply rw_inv_init|].
  intros. eapply rw_inv_step; eauto.
Qed.

(** C27: However tasks race in [on_consume], no consumed byte is credited twice,
    and none is lost as long as the bytes consumed and not yet credited fit a [u32]
    (beyond that the tally wraps around): the credit emitted plus the tally is then
    exactly the bytes consumed.  Every emitted update is at least the threshold
    [max(initial / 2, 1)]; and once no call is in progress the tally is below the
    threshold, so no update is overdue. *)
Theorem recv_window_accounting (ini : Z) (k : nat) (c : config rw_shared pc) :
  is_u32 ini → reachable rw_tstep (rw_init ini k) c →
  let s := shared c in
  emitted s ≤ consumed s ∧
  (consumed s - emitted s ≤ U32_MAX → pending_credit (rwin s) + emitted s = consumed s) ∧
  Forall (λ p, ∀ cur, p = RCas cur → Z.max (ini / 2) 1 ≤ cur) (threads c) ∧
  (Forall (λ p, is_done p = true) (threads c) → pending_credit (rwin s) < Z.max (ini / 2) 1).
Proof.
  intros Hi Hr. destruct (rw_inv_reachable ini k c Hi Hr)
    as (Hw & Hp & Hem & (laps & Hlaps & Heq) & Hsw & Hts).
  simpl. unfold is_u32, U32_MAX, threshold in *. rewrite Hw in *. split_and!; try lia.
  - eapply Forall_impl; [exact Hts|]. by intros p Hp' cur ->.
  - intros Hdone. destruct (Z.lt_ge_cases (pending_credit (rwin (shared c))) (Z.max (ini / 2) 1))
      as [|Hge]; [done|]. exfalso.
    apply (Exists_none swapping (threads c)); [|by auto].
    eapply Forall_impl; [exact Hdone|]. by intros [] ? ?.
Qed.

(** Two tasks consume 30 bytes each of a 100-byte window; both see the
    threshold crossed or not in their own order, and one update of 60 is due. *)
Lemma recv_window_accounting_witness :
  ∃ c, reachable rw_tstep (rw_init 100 2) c ∧ emitted (shared c) = 60 ∧
    pending_credit (rwin (shared c)) + emitted (shared c) = consumed (shared c).
Proof.
  assert (∃ c, reachable rw_tstep (rw_init 100 2) c ∧ emitted (shared c) = 60 ∧
    consumed (shared c) = 60) as (c & Hc & He & Hcons).
  { eexists. split_and!.
    - unfold reachable, rw_init. simpl.
      eapply rtc_l; [eapply (Sys_step _ 0 (RRet None) (RAdd 30)); [done|apply RW_call; concrete]|].
      eapply rtc_l; [eapply (Sys_step _ 1 (RRet None) (RAdd 30)); [done|apply RW_call; concrete]|].
      eapply rtc_l; [eapply (Sys_step _ 0 (RAdd 30)); [done|by eapply (RW_access false)]|].
      eapply rtc_l; [eapply (Sys_step _ 1 (RAdd 30)); [done|by eapply (RW_access false)]|].
      eapply rtc_l; [eapply (Sys_step _ 1 (RCas 60)); [done|by eapply (RW_access false)]|].
      apply rtc_refl.
    - reflexivity.
    - reflexivity. }
  exists c. split_and!; [done|done|].
  apply (recv_window_accounting 100 2 c); [concrete|done|rewrite He, Hcons; concrete].
Defined.
