(* ===== verification/StreamState.v ===== *)
(** * Per-stream read/write state ([src/stream/state.rs]) *)

From S2P Require Import Prelude.

Module StreamState.

(** [struct StreamState]: three independent atomic booleans. *)
Record t : Type := mk { read_open : bool; write_open : bool; reset : bool }.

#[global] Instance t_eq_dec : EqDecision t.
Proof. solve_decision. Defined.

(** [StreamState::new]. *)
Definition new : t := mk true true false.

(** [StreamState::is_reset]. *)
Definition is_reset (s : t) : bool := reset s.

(** [close_read] / [close_write]: a swap; the result is the old value, [true]
    the first time. *)
Definition close_read (s : t) : bool * t := (read_open s, mk false (write_open s) (reset s)).
Definition close_write (s : t) : bool * t := (write_open s, mk (read_open s) false (reset s)).

(** [mark_reset]: sets the sticky bit, closes both halves; [true] the first
    time. *)
Definition mark_reset (s : t) : bool * t :=
  let first := negb (reset s) in
  let s := mk (read_open s) (write_open s) true in
  let s := mk false (write_open s) (reset s) in
  let s := mk (read_open s) false (reset s) in
  (first, s).

(** A reset stream is closed both ways. *)
Definition wf (s : t) : Prop := reset s = true → read_open s = false ∧ write_open s = false.

(** Progress of the lifecycle: halves only close, the reset bit only sets. *)
Definition le (s s' : t) : Prop :=
  (read_open s' = true → read_open s = true) ∧
  (write_open s' = true → write_open s = true) ∧
  (reset s = true → reset s' = true).

#[global] Instance le_preorder : PreOrder le.
Proof. split; [intros s|intros s1 s2 s3]; unfold le; naive_solver. Qed.

Lemma close_read_wf s : wf s → wf (snd (close_read s)).
Proof. unfold wf. simpl. naive_solver. Qed.
Lemma close_write_wf s : wf s → wf (snd (close_write s)).
Proof. unfold wf. simpl. naive_solver. Qed.
Lemma mark_reset_wf s : wf (snd (mark_reset s)).
Proof. unfold wf. done. Qed.

Lemma close_read_le s : le s (snd (close_read s)).
Proof. unfold le. simpl. naive_solver. Qed.
Lemma close_write_le s : le s (snd (close_write s)).
Proof. unfold le. simpl. naive_solver. Qed.
Lemma mark_reset_le s : le s (snd (mark_reset s)).
Proof. unfold le. simpl. naive_solver. Qed.

End StreamState.

Create HintDb stream_state discriminated.
#[export] Hint Resolve StreamState.close_read_wf StreamState.close_write_wf
  StreamState.mark_reset_wf StreamState.close_read_le StreamState.close_write_le
  StreamState.mark_reset_le : stream_state.
