(* ===== verification/RecvBuffer.v ===== *)
(** * Per-stream inbound buffer ([src/stream/recv.rs])

    A FIFO queue of byte chunks, read through a [ReadBuf].  The abstract view is
    the sequence of bytes still to be read. *)

From S2P Require Import Prelude Machine Frames.

Module ReadBuf.

(** [tokio::io::ReadBuf]: the bytes filled in so far and the room left. *)
Record t : Type := mk { filled : list byte; remaining : nat }.

(** [ReadBuf::put_slice]. *)
Definition put_slice (bs : list byte) (b : t) : t :=
  mk (filled b ++ bs) (remaining b - length bs).

End ReadBuf.

Module RecvBuffer.

(** [struct RecvBuffer]. *)
Record t : Type := mk { queue : list Bytes }.

(** [RecvBuffer::new]. *)
Definition new : t := mk [].

(** [RecvBuffer::push]. *)
Definition push (chunk : Bytes) (r : t) : t :=
  if bool_decide (chunk = []) then r else mk (queue r ++ [chunk]).

(** [RecvBuffer::is_empty]. *)
Definition is_empty (r : t) : bool := forallb (λ c, bool_decide (c = [])) (queue r).

(** The loop of [RecvBuffer::read_into]; [None] when the fuel runs out. *)
Fixpoint read_loop (fuel : nat) (q : list Bytes) (buf : ReadBuf.t) (total : nat)
  : option (nat * ReadBuf.t * list Bytes) :=
  match fuel with
  | O => None
  | S fuel' =>
    if (ReadBuf.remaining buf =? 0)%nat then Some (total, buf, q) else
    match q with
    | [] => Some (total, buf, q)
    | front :: q' =>
      if bool_decide (front = []) then read_loop fuel' q' buf total
      else
        let n := Nat.min (ReadBuf.remaining buf) (length front) in
        let buf := ReadBuf.put_slice (take n front) buf in
        let front := drop n front in
        let total := (total + n)%nat in
        read_loop fuel' (if bool_decide (front = []) then q' else front :: q') buf total
    end
  end.

(** [RecvBuffer::read_into]: the number of bytes copied, the filled buffer and
    the queue left.  Two iterations per chunk and one to leave the loop. *)
Definition read_into (r : t) (buf : ReadBuf.t) : option (nat * ReadBuf.t * t) :=
  match read_loop (S (S (length (queue r)))) (queue r) buf 0 with
  | Some (n, buf, q) => Some (n, buf, mk q)
  | None => None
  end.

(** The abstract view. *)
Definition contents (r : t) : list byte := concat (queue r).

(** No chunk in the queue is empty. *)
Definition wf (r : t) : Prop := Forall (λ c, c ≠ []) (queue r).

Lemma push_contents chunk r : contents (push chunk r) = contents r ++ chunk.
Proof.
  unfold push, contents. case_bool_decide as E; [by rewrite E, app_nil_r|]. simpl.
  rewrite concat_app. simpl. by rewrite app_nil_r.
Qed.

Lemma push_wf chunk r : wf r → wf (push chunk r).
Proof.
  unfold push, wf. intros. case_bool_decide; [done|].
  apply Forall_app. split; [done|by repeat constructor].
Qed.

Lemma is_empty_contents r : is_empty r = true ↔ contents r = [].
Proof.
  unfold is_empty, contents. destruct r as [q]. simpl.
  induction q as [|c q IH]; simpl; [done|].
  rewrite andb_true_iff, bool_decide_eq_true, IH. split.
  - by intros [-> ->].
  - intros [? ?]%app_eq_nil. done.
Qed.

(** What the loop does to the bytes: it moves as many as fit. *)
Lemma read_loop_spec fuel q buf total :
  Forall (λ c, c ≠ []) q → (length q + 1 < fuel)%nat ∨ ReadBuf.remaining buf = 0%nat ∧ (0 < fuel)%nat →
  ∃ q', let n := Nat.min (ReadBuf.remaining buf) (length (concat q)) in
    read_loop fuel q buf total =
      Some ((total + n)%nat, ReadBuf.mk (ReadBuf.filled buf ++ take n (concat q))
              (ReadBuf.remaining buf - n), q') ∧
    concat q' = drop n (concat q) ∧ Forall (λ c, c ≠ []) q'.
Proof.
  revert q buf total. induction fuel as [|fuel IH]; intros q buf total Hq Hfuel; [lia|].
  cbn [read_loop]. destruct buf as [f r]. cbn [ReadBuf.remaining ReadBuf.filled] in *.
  destruct (Nat.eqb_spec r 0) as [->|Hr].
  { exists q. simpl. rewrite Nat.add_0_r, take_0, app_nil_r, drop_0. done. }
  destruct q as [|c q].
  { exists []. simpl. rewrite Nat.min_0_r, Nat.add_0_r, app_nil_r, Nat.sub_0_r. done. }
  apply Forall_cons_1 in Hq as [Hc Hq]. rewrite bool_decide_false by done.
  unfold ReadBuf.put_slice. cbn [ReadBuf.remaining ReadBuf.filled concat].
  simpl in Hfuel. rewrite length_take, (Nat.min_l (Nat.min r (length c))) by lia.
  destruct (decide (r < length c)%nat) as [Hlt|Hge].
  - (* the chunk is only partly taken, and the buffer is full *)
    rewrite (Nat.min_l r (length c)) by lia.
    assert (drop r c ≠ []) as Hd by (intros E%(f_equal length); rewrite length_drop in E; simpl in E; lia).
    rewrite bool_decide_false by done.
    destruct (IH (drop r c :: q) (ReadBuf.mk (f ++ take r c) (r - r)) (total + r)%nat)
      as (q' & Hl & Hj & Hq'); [by constructor|right; simpl; lia|].
    exists q'. simpl in *. rewrite Nat.sub_diag in *. simpl in *.
    rewrite length_app, Nat.min_l by lia. rewrite take_0, app_nil_r, drop_0, Nat.add_0_r in *.
    rewrite Hl, Hj, take_app_le, drop_app_le by lia. rewrite Nat.sub_diag. done.
  - rewrite (Nat.min_r r (length c)) by lia.
    rewrite drop_ge, bool_decide_true by done. rewrite take_ge by lia.
    destruct (IH q (ReadBuf.mk (f ++ c) (r - length c)) (total + length c)%nat)
      as (q' & Hl & Hj & Hq'); [done|left; lia|].
    exists q'. simpl in *. rewrite Hl, length_app.
    replace (Nat.min r (length c + length (concat q)))
      with (length c + Nat.min (r - length c) (length (concat q)))%nat by lia.
    rewrite take_app_add, drop_app_add, <- app_assoc, Hj.
    split_and!; [|done|done]. by rewrite Nat.add_assoc, Nat.sub_add_distr.
Qed.

Lemma read_into_spec (r : t) (buf : ReadBuf.t) :
  wf r →
  ∃ r', let n := Nat.min (ReadBuf.remaining buf) (length (contents r)) in
    read_into r buf =
      Some (n, ReadBuf.mk (ReadBuf.filled buf ++ take n (contents r)) (ReadBuf.remaining buf - n), r') ∧
    contents r' = drop n (contents r) ∧ wf r'.
Proof.
  intros Hr. destruct (read_loop_spec (S (S (length (queue r)))) (queue r) buf 0 Hr)
    as (q' & Hl & Hj & Hq'); [left; lia|].
  exists (mk q'). unfold read_into. simpl in *. by rewrite Hl.
Qed.

End RecvBuffer.

Import RecvBuffer.

(** The operations of the two ends of the buffer: the session's reader pushes
    chunks, the application reads into a buffer with some room. *)
Inductive buf_op : Type := OpPush (chunk : Bytes) | OpRead (room : nat).

(** The implementation: the bytes each read returned, and the buffer. *)
Fixpoint run_ops (ops : list buf_op) (r : RecvBuffer.t) : option (list (list byte) * RecvBuffer.t) :=
  match ops with
  | [] => Some ([], r)
  | OpPush c :: ops' => run_ops ops' (push c r)
  | OpRead room :: ops' =>
    '(n, buf, r') ← read_into r (ReadBuf.mk [] room);
    '(outs, r'') ← run_ops ops' r';
    Some (ReadBuf.filled buf :: outs, r'')
  end.

(** The specification: one sequence of bytes. *)
Fixpoint spec_ops (ops : list buf_op) (bs : list byte) : list (list byte) * list byte :=
  match ops with
  | [] => ([], bs)
  | OpPush c :: ops' => spec_ops ops' (bs ++ c)
  | OpRead room :: ops' =>
    let '(outs, bs') := spec_ops ops' (drop room bs) in (take room bs :: outs, bs')
  end.

Lemma take_min_length {A} (n : nat) (l : list A) : take (Nat.min n (length l)) l = take n l.
Proof.
  destruct (Nat.le_ge_cases n (length l)); [by rewrite Nat.min_l|].
  rewrite Nat.min_r by lia. by rewrite !take_ge by lia.
Qed.

Lemma drop_min_length {A} (n : nat) (l : list A) : drop (Nat.min n (length l)) l = drop n l.
Proof.
  destruct (Nat.le_ge_cases n (length l)); [by rewrite Nat.min_l|].
  rewrite Nat.min_r by lia. by rewrite !drop_ge by lia.
Qed.

Lemma run_ops_spec ops r :
  RecvBuffer.wf r →
  ∃ r', run_ops ops r = Some (fst (spec_ops ops (contents r)), r') ∧
    contents r' = snd (spec_ops ops (contents r)) ∧ RecvBuffer.wf r'.
Proof.
  revert r. induction ops as [|[c|room] ops IH]; intros r Hr; cbn [run_ops spec_ops].
  - by exists r.
  - destruct (IH (push c r)) as (r' & H1 & H2 & H3); [by apply push_wf|].
    rewrite push_contents in H1, H2. by exists r'.
  - destruct (read_into_spec r (ReadBuf.mk [] room) Hr) as (r1 & E & Hc & Hr1). simpl in E, Hc.
    rewrite E. simpl. rewrite drop_min_length in Hc. rewrite take_min_length.
    destruct (IH r1 Hr1) as (r' & H1 & H2 & H3). rewrite Hc in H1, H2.
    rewrite H1. simpl. destruct (spec_ops ops (drop room (contents r))) as [outs bs'].
    by exists r'.
Qed.

(** C37: The chunked queue implements a plain byte FIFO: every sequence of
    pushes and reads, with any chunk sizes (empty pushes included) and any read
    sizes, terminates and returns exactly the bytes the FIFO returns, and leaves
    the same bytes behind; [is_empty] says whether any are left. *)
Theorem recv_buffer_refines_fifo (ops : list buf_op) :
  ∃ r, run_ops ops RecvBuffer.new = Some (fst (spec_ops ops []), r) ∧
    contents r = snd (spec_ops ops []) ∧
    is_empty r = bool_decide (snd (spec_ops ops []) = []).
Proof.
  destruct (run_ops_spec ops RecvBuffer.new) as (r & H1 & H2 & _); [by constructor|].
  exists r. split_and!; [done|done|]. change (contents RecvBuffer.new) with (@nil byte) in H2.
  rewrite <- H2. apply eq_true_iff_eq. by rewrite is_empty_contents, bool_decide_eq_true.
Qed.
