(* ===== verification/StreamInner.v ===== *)
(** * A logical stream ([src/stream/inner.rs], [src/stream/mod.rs])

    [StreamInner] is shared between the user's [Stream] handle and the session,
    and its operations act on the stream's own fields and on the session's
    channels: the outbound frame queue and the closer queue.  An operation is a
    state transformer over both. *)

From S2P Require Import Prelude Machine Errors Config Ids Frames Crates Window StreamState.
From S2P Require Import RecvBuffer.
From Stdlib Require Import ZArith Lia.

Local Open Scope Z_scope.

(** [std::task::Poll]. *)
Inductive Poll (A : Type) : Type := Ready (a : A) | PollPending.
Arguments Ready {A} a.
Arguments PollPending {A}.

(** The result of a read or write poll. *)
Abbreviation PollIo A := (Poll (Result Error.io_error A)).

(** [enum Origin]. *)
Inductive Origin : Type := Local | Remote.

Section StreamInner.
Context {W : Type} {AW : AtomicWakerOps W}.
Context {C : Type → Type} {CH : UnboundedChannelOps C}.

(** The session's side of a stream: the channels its senders [out_tx] and
    [closer_tx] feed, and the wakers woken so far. *)
Record Links : Type := mkLinks {
  out_ch : C Frame.t;
  closer_ch : C StreamId;
  woken : list Waker;
}.

(** [struct StreamInner]. *)
Record StreamInner : Type := mkStreamInner {
  id : StreamId;
  config : Config.t;
  state : StreamState.t;
  send_window : SendWindow.t W;
  recv_window : RecvWindow.t;
  recv : RecvBuffer.t;
  recv_waker : W;
  ack_received : bool;
  ack_waker : W;
  fin_sent : bool;
}.

(** [StreamInner::new]; the senders it is given are the session's [Links]. *)
Definition new (id : StreamId) (origin : Origin) (config : Config.t) : StreamInner :=
  let initial_window := Config.initial_stream_window config in
  {| id := id;
     config := config;
     state := StreamState.new;
     send_window := SendWindow.new initial_window;
     recv_window := RecvWindow.new initial_window;
     recv := RecvBuffer.new;
     recv_waker := waker_new;
     ack_received := match origin with Remote => true | Local => false end;
     ack_waker := waker_new;
     fin_sent := false |}.

(** ** Field updates *)

Definition set_state (x : StreamState.t) (s : StreamInner) : StreamInner :=
  mkStreamInner (id s) (config s) x (send_window s) (recv_window s) (recv s) (recv_waker s)
    (ack_received s) (ack_waker s) (fin_sent s).
Definition set_send_window (x : SendWindow.t W) (s : StreamInner) : StreamInner :=
  mkStreamInner (id s) (config s) (state s) x (recv_window s) (recv s) (recv_waker s)
    (ack_received s) (ack_waker s) (fin_sent s).
Definition set_recv_window (x : RecvWindow.t) (s : StreamInner) : StreamInner :=
  mkStreamInner (id s) (config s) (state s) (send_window s) x (recv s) (recv_waker s)
    (ack_received s) (ack_waker s) (fin_sent s).
Definition set_recv (x : RecvBuffer.t) (s : StreamInner) : StreamInner :=
  mkStreamInner (id s) (config s) (state s) (send_window s) (recv_window s) x (recv_waker s)
    (ack_received s) (ack_waker s) (fin_sent s).
Definition set_recv_waker (x : W) (s : StreamInner) : StreamInner :=
  mkStreamInner (id s) (config s) (state s) (send_window s) (recv_window s) (recv s) x
    (ack_received s) (ack_waker s) (fin_sent s).
Definition set_ack_received (x : bool) (s : StreamInner) : StreamInner :=
  mkStreamInner (id s) (config s) (state s) (send_window s) (recv_window s) (recv s)
    (recv_waker s) x (ack_waker s) (fin_sent s).
Definition set_ack_waker (x : W) (s : StreamInner) : StreamInner :=
  mkStreamInner (id s) (config s) (state s) (send_window s) (recv_window s) (recv s)
    (recv_waker s) (ack_received s) x (fin_sent s).
Definition set_fin_sent (x : bool) (s : StreamInner) : StreamInner :=
  mkStreamInner (id s) (config s) (state s) (send_window s) (recv_window s) (recv s)
    (recv_waker s) (ack_received s) (ack_waker s) x.

(** ** The state transformer *)

Definition M (A : Type) : Type := StreamInner * Links → A * (StreamInner * Links).

#[global] Instance M_ret : MRet M := λ A a s, (a, s).
#[global] Instance M_bind : MBind M := λ A B f m s, f (fst (m s)) (snd (m s)).

Definition get {A} (f : StreamInner → A) : M A := λ '(s, l), (f s, (s, l)).
Definition put (f : StreamInner → StreamInner) : M unit := λ '(s, l), ((), (f s, l)).

(** A swap on the lifecycle bits. *)
Definition on_state (f : StreamState.t → bool * StreamState.t) : M bool :=
  λ '(s, l), (fst (f (state s)), (set_state (snd (f (state s))) s, l)).

(** [self.fin_sent.swap(true)]. *)
Definition swap_fin_sent : M bool := λ '(s, l), (fin_sent s, (set_fin_sent true s, l)).

(** [self.out_tx.send(frame)] and [self.closer_tx.send(id)]: [is_ok]. *)
Definition send_out (f : Frame.t) : M bool := λ '(s, l),
  let r := chan_send f (out_ch l) in (fst r, (s, mkLinks (snd r) (closer_ch l) (woken l))).
Definition send_closer (i : StreamId) : M bool := λ '(s, l),
  let r := chan_send i (closer_ch l) in (fst r, (s, mkLinks (out_ch l) (snd r) (woken l))).

Definition note_woken (k : option Waker) (l : Links) : Links :=
  mkLinks (out_ch l) (closer_ch l) (woken l ++ option_list k).

(** [self.recv_waker.wake()], [self.ack_waker.wake()]. *)
Definition wake_recv : M unit := λ '(s, l),
  let r := waker_wake (recv_waker s) in ((), (set_recv_waker (snd r) s, note_woken (fst r) l)).
Definition wake_ack : M unit := λ '(s, l),
  let r := waker_wake (ack_waker s) in ((), (set_ack_waker (snd r) s, note_woken (fst r) l)).

(** [self.send_window.close()], [self.send_window.grant(n)]. *)
Definition close_send_window : M unit := λ '(s, l),
  let r := SendWindow.close (send_window s) in
  ((), (set_send_window (snd r) s, note_woken (fst r) l)).
Definition grant_window (delta : Z) : M unit := λ '(s, l),
  let r := SendWindow.grant delta (send_window s) in
  ((), (set_send_window (snd r) s, note_woken (fst r) l)).

Definition when (b : bool) (m : M unit) : M unit := if b then m else mret ().

(** ** Operations *)

(** [StreamInner::can_recv]. *)
Definition can_recv (s : StreamInner) : bool :=
  StreamState.read_open (state s) && negb (StreamState.is_reset (state s)).

(** [StreamInner::push_data]. *)
Definition push_data (payload : Bytes) : M unit :=
  if bool_decide (payload = []) then mret () else
  put (λ s, set_recv (RecvBuffer.push payload (recv s)) s);;
  wake_recv.

(** [StreamInner::remote_fin]. *)
Definition remote_fin : M unit :=
  on_state StreamState.close_read;;
  wake_recv.

(** [StreamInner::remote_reset]. *)
Definition remote_reset : M unit :=
  on_state StreamState.mark_reset;;
  close_send_window;;
  wake_recv;;
  wake_ack;;
  i ← get id;
  send_closer i;;
  mret ().

(** [StreamInner::grant_send_credit]. *)
Definition grant_send_credit (delta : Z) : M unit := grant_window delta.

(** [StreamInner::mark_acked]. *)
Definition mark_acked : M unit :=
  put (set_ack_received true);;
  wake_ack.

(** The three tests of [wait_acked], made before and after registering. *)
Definition ack_status (s : StreamInner) : Poll (MuxResult unit) :=
  if ack_received s then Ready (Ok ())
  else if StreamState.is_reset (state s) then Ready (Err (Error.StreamReset (id s)))
  else if negb (StreamState.write_open (state s)) then Ready (Err Error.SessionClosed)
  else PollPending.

(** One poll of [StreamInner::wait_acked] by the task with waker [cx]. *)
Definition wait_acked (cx : Waker) : M (Poll (MuxResult unit)) :=
  st ← get ack_status;
  match st with
  | Ready r => mret (Ready r)
  | PollPending =>
    put (λ s, set_ack_waker (waker_register cx (ack_waker s)) s);;
    get ack_status
  end.

(** [StreamInner::force_close]. *)
Definition force_close : M unit :=
  on_state StreamState.close_read;;
  on_state StreamState.close_write;;
  close_send_window;;
  wake_recv;;
  wake_ack.

Definition reset_error : Error.io_error := Error.io_msg Io.ConnectionReset "stream reset".

(** [q.read_into(buf)] under the lock: the bytes copied and the buffer. *)
Definition read_recv (buf : ReadBuf.t) : M (nat * ReadBuf.t) := λ '(s, l),
  match RecvBuffer.read_into (recv s) buf with
  | Some (n, buf', r) => ((n, buf'), (set_recv r s, l))
  | None => ((0%nat, buf), (s, l))
  end.

(** [self.recv_window.on_consume(n)]. *)
Definition consume_window (n : Z) : M (option Z) := λ '(s, l),
  let r := RecvWindow.on_consume n (recv_window s) in (fst r, (set_recv_window (snd r) s, l)).

(** One turn of the loop of [StreamInner::poll_read]; [None] is [continue]. *)
Definition poll_read_turn (cx : Waker) (buf : ReadBuf.t)
  : M (option (PollIo unit) * ReadBuf.t) :=
  st ← get state;
  if StreamState.is_reset st then mret (Some (Ready (Err reset_error)), buf) else
  '(consumed, buf) ← read_recv buf;
  if (0 <? consumed)%nat then
    delta ← consume_window (as_u32 (Z.of_nat consumed));
    match delta with
    | Some d => i ← get id; send_out (Frame.window_update i d);; mret ()
    | None => mret ()
    end;;
    mret (Some (Ready (Ok ())), buf)
  else
  st ← get state;
  if negb (StreamState.read_open st) then mret (Some (Ready (Ok ())), buf) else
  put (λ s, set_recv_waker (waker_register cx (recv_waker s)) s);;
  still_empty ← get (λ s, RecvBuffer.is_empty (recv s));
  if negb still_empty then mret (None, buf) else
  st ← get state;
  if negb (StreamState.read_open st) || StreamState.is_reset st then mret (None, buf) else
  mret (Some PollPending, buf).

Fixpoint poll_read_loop (fuel : nat) (cx : Waker) (buf : ReadBuf.t)
  : M (option (PollIo unit) * ReadBuf.t) :=
  match fuel with
  | O => mret (None, buf)
  | S fuel' =>
    '(r, buf) ← poll_read_turn cx buf;
    match r with
    | Some r => mret (Some r, buf)
    | None => poll_read_loop fuel' cx buf
    end
  end.

(** [StreamInner::poll_read]: the loop, undisturbed, returns in its first turn
    ([poll_read_loop_total]), so its result is always there. *)
Definition poll_read (cx : Waker) (buf : ReadBuf.t) : M (option (PollIo unit) * ReadBuf.t) :=
  if (ReadBuf.remaining buf =? 0)%nat then mret (Some (Ready (Ok ())), buf)
  else poll_read_loop 1 cx buf.

(** [self.send_window.poll_acquire(cx, want)]. *)
Definition acquire (cx : Waker) (want : Z) : M AcquireOutcome := λ '(s, l),
  let r := SendWindow.poll_acquire cx want (send_window s) in
  (fst r, (set_send_window (snd r) s, l)).

(** [StreamInner::poll_write]. *)
Definition poll_write (cx : Waker) (buf : list byte) : M (PollIo nat) :=
  st ← get state;
  if StreamState.is_reset st then mret (Ready (Err reset_error)) else
  if negb (StreamState.write_open st)
  then mret (Ready (Err (Error.io_msg Io.BrokenPipe "write half closed"))) else
  if bool_decide (buf = []) then mret (Ready (Ok 0%nat)) else
  max_frame ← get (λ s, Config.max_frame_size (config s));
  let want := Z.min (Z.of_nat (length buf)) max_frame in
  let want := as_u32 (Z.min want U32_MAX) in
  outcome ← acquire cx want;
  match outcome with
  | Closed => mret (Ready (Err (Error.io_msg Io.BrokenPipe "send window closed")))
  | Pending => mret PollPending
  | Acquired n =>
    let payload := take (Z.to_nat n) buf in
    i ← get id;
    ok ← send_out (Frame.data i Flags.empty payload);
    if negb ok then
      grant_window n;;
      on_state StreamState.close_write;;
      mret (Ready (Err (Error.io_msg Io.BrokenPipe "session is shutting down")))
    else mret (Ready (Ok (Z.to_nat n)))
  end.

(** [StreamInner::local_fin], which is also [Stream::poll_shutdown]. *)
Definition local_fin : M unit :=
  st ← get state;
  if StreamState.is_reset st then mret () else
  first ← on_state StreamState.close_write;
  if negb first then mret () else
  sent ← swap_fin_sent;
  when (negb sent) (i ← get id; send_out (Frame.fin i);; mret ()).

(** [StreamInner::local_reset], which is also [Stream::reset]. *)
Definition local_reset : M unit :=
  first ← on_state StreamState.mark_reset;
  if negb first then mret () else
  sent ← swap_fin_sent;
  when (negb sent) (i ← get id; send_out (Frame.rst i);; mret ());;
  close_send_window;;
  wake_recv;;
  wake_ack;;
  i ← get id;
  send_closer i;;
  mret ().

(** [StreamInner::on_user_drop], called by [Stream::drop]. *)
Definition on_user_drop : M unit :=
  st ← get state;
  when (StreamState.write_open st && negb (StreamState.is_reset st)) local_fin;;
  i ← get id;
  send_closer i;;
  mret ().

End StreamInner.

Arguments Links : clear implicits.
Arguments StreamInner : clear implicits.
