(* ===== verification/StreamFacts.v ===== *)
(** * What the stream operations do

    Closed forms of [poll_read] and [poll_write] on every branch, and the
    invariants that all operations of a stream keep. *)

From S2P Require Import Prelude Machine Errors Config Ids Frames Crates Window StreamState.
From S2P Require Import RecvBuffer StreamInner.
From Stdlib Require Import ZArith Lia.

Local Open Scope Z_scope.

(** Unfolds the state transformer. *)
Ltac run_m :=
  cbv beta iota zeta delta [mbind mret M_bind M_ret get put on_state swap_fin_sent send_out
    send_closer note_woken wake_recv wake_ack close_send_window grant_window when read_recv
    consume_window acquire push_data remote_fin remote_reset grant_send_credit mark_acked
    force_close local_fin local_reset on_user_drop wait_acked];
  cbn [fst snd].

Section StreamFacts.
Context {W : Type} {AW : AtomicWakerOps W}.
Context {C : Type → Type} {CH : UnboundedChannelOps C}.
Implicit Types (s : StreamInner W) (l : Links C).

(** A stream as the code keeps it between operations. *)
Definition stream_wf (s : StreamInner W) : Prop :=
  Config.typed (config s) ∧
  StreamState.wf (state s) ∧
  SendWindow.wf (send_window s) ∧
  is_u32 (RecvWindow.initial (recv_window s)) ∧
  RecvBuffer.wf (recv s).

Lemma stream_new_wf i origin cfg : Config.typed cfg → stream_wf (new i origin cfg).
Proof.
  intros Hc. pose proof Hc as (Hw & _). unfold stream_wf, new. simpl.
  split_and!; try done; try apply Hw; by constructor.
Qed.

(** ** Writing *)

(** How many bytes a write of [len] bytes asks the window for. *)
Definition want (s : StreamInner W) (len : nat) : Z :=
  Z.min (Z.of_nat len) (Config.max_frame_size (config s)).

Lemma want_as_u32 s len :
  Config.typed (config s) → as_u32 (Z.min (want s len) U32_MAX) = want s len.
Proof.
  intros (_ & [H1 H2] & _). unfold as_u32, want in *. unfold U32_MAX in *.
  rewrite Z.min_l by lia. apply Z.mod_small. lia.
Qed.

Definition sent (s : StreamInner W) (n : Z) : StreamInner W :=
  set_send_window (SendWindow.mk (SendWindow.available (send_window s) - n)
    (SendWindow.closed (send_window s)) (SendWindow.waker (send_window s))) s.

Lemma poll_write_spec cx buf s l :
  stream_wf s →
  poll_write cx buf (s, l) =
    if StreamState.is_reset (state s) then (Ready (Err reset_error), (s, l))
    else if negb (StreamState.write_open (state s))
    then (Ready (Err (Error.io_msg Io.BrokenPipe "write half closed")), (s, l))
    else if bool_decide (buf = []) then (Ready (Ok 0%nat), (s, l))
    else if SendWindow.closed (send_window s)
    then (Ready (Err (Error.io_msg Io.BrokenPipe "send window closed")), (s, l))
    else if SendWindow.available (send_window s) =? 0
    then (PollPending,
          (set_send_window (SendWindow.mk 0 false
             (waker_register cx (SendWindow.waker (send_window s)))) s, l))
    else
      let n := Z.min (SendWindow.available (send_window s)) (want s (length buf)) in
      let frame := Frame.data (id s) Flags.empty (take (Z.to_nat n) buf) in
      let l' := mkLinks (snd (chan_send frame (out_ch l))) (closer_ch l) (woken l) in
      if rx_alive (out_ch l) then (Ready (Ok (Z.to_nat n)), (sent s n, l'))
      else
        let '(_, (s', l'')) := grant_window n (sent s n, l') in
        (Ready (Err (Error.io_msg Io.BrokenPipe "session is shutting down")),
         (set_state (snd (StreamState.close_write (state s'))) s', l'')).
Proof.
  intros (Hcfg & _ & _). unfold poll_write. run_m.
  destruct (StreamState.is_reset (state s)); [done|].
  destruct (StreamState.write_open (state s)); [|done]. cbn [negb].
  destruct (bool_decide (buf = [])); [done|]. cbn [fst snd].
  fold (want s (length buf)). rewrite want_as_u32 by done.
  unfold SendWindow.poll_acquire, SendWindow.try_take.
  destruct s as [i cfg st [a cl k] rw rb rk ar ak fs]; cbn in *.
  destruct cl; [done|]. destruct (Z.eqb_spec a 0) as [->|Ha]; cbn; [done|].
  rewrite send_ok. destruct (rx_alive (out_ch l)); done.
Qed.

(** ** Reading *)

(** The window update a read of [n] bytes emits. *)
Definition after_consume (s : StreamInner W) (n : nat) : option Z * RecvWindow.t :=
  RecvWindow.on_consume (as_u32 (Z.of_nat n)) (recv_window s).

Definition update_sent (s : StreamInner W) (delta : option Z) (l : Links C) : Links C :=
  match delta with
  | Some d => mkLinks (snd (chan_send (Frame.window_update (id s) d) (out_ch l))) (closer_ch l) (woken l)
  | None => l
  end.

Lemma poll_read_turn_spec cx buf s l :
  stream_wf s → ReadBuf.remaining buf ≠ 0%nat →
  ∃ r', let bytes := RecvBuffer.contents (recv s) in
    let n := Nat.min (ReadBuf.remaining buf) (length bytes) in
    RecvBuffer.contents r' = drop n bytes ∧ RecvBuffer.wf r' ∧
    poll_read_turn cx buf (s, l) =
      if StreamState.is_reset (state s) then ((Some (Ready (Err reset_error)), buf), (s, l))
      else if bool_decide (bytes = []) then
        if negb (StreamState.read_open (state s))
        then ((Some (Ready (Ok ())), buf), (set_recv r' s, l))
        else ((Some PollPending, buf),
              (set_recv_waker (waker_register cx (recv_waker s)) (set_recv r' s), l))
      else
        ((Some (Ready (Ok ())),
          ReadBuf.mk (ReadBuf.filled buf ++ take n bytes) (ReadBuf.remaining buf - n)),
         (set_recv_window (snd (after_consume s n)) (set_recv r' s),
          update_sent s (fst (after_consume s n)) l)).
Proof.
  intros (_ & _ & _ & _ & Hb) Hrem.
  destruct (RecvBuffer.read_into_spec (recv s) buf Hb) as (r' & E & Hc & Hr').
  exists r'. simpl in *. split_and!; [done|done|]. unfold poll_read_turn. run_m.
  destruct (StreamState.is_reset (state s)) eqn:Hreset; [done|]. cbn [fst snd].
  rewrite E. cbn [fst snd]. case_bool_decide as Hbytes.
  - rewrite Hbytes in *. cbn [length] in *. rewrite Nat.min_0_r in *. cbn.
    rewrite app_nil_r, Nat.sub_0_r.
    replace (ReadBuf.mk (ReadBuf.filled buf) (ReadBuf.remaining buf)) with buf by (by destruct buf).
    destruct (StreamState.read_open (state s)) eqn:Ho; [|done]. cbn.
    assert (RecvBuffer.is_empty r' = true) as -> by (by apply RecvBuffer.is_empty_contents).
    cbn. by rewrite Ho, Hreset.
  - assert (0 < Nat.min (ReadBuf.remaining buf) (length (RecvBuffer.contents (recv s))))%nat as Hn.
    { destruct (RecvBuffer.contents (recv s)); [done|]. simpl. lia. }
    rewrite (proj2 (Nat.ltb_lt _ _) Hn). unfold after_consume, update_sent. cbn.
    by destruct (fst (RecvWindow.on_consume _ _)).
Qed.

(** Undisturbed, the loop of [poll_read] returns in its first turn. *)
Lemma poll_read_loop_total fuel cx buf s l :
  stream_wf s → ReadBuf.remaining buf ≠ 0%nat → (1 ≤ fuel)%nat →
  poll_read_loop fuel cx buf (s, l) = poll_read_turn cx buf (s, l) ∧
  is_Some (fst (fst (poll_read_turn cx buf (s, l)))).
Proof.
  intros Hs Hr Hf. destruct fuel as [|fuel]; [lia|].
  destruct (poll_read_turn_spec cx buf s l Hs Hr) as (r' & _ & _ & E).
  cbn [poll_read_loop]. run_m. rewrite E.
  destruct (StreamState.is_reset (state s)), (bool_decide (RecvBuffer.contents (recv s) = [])),
    (StreamState.read_open (state s));
    by split; [|eexists].
Qed.

(** What the caller of [poll_write] can rely on. *)
Definition write_contract (cx : Waker) (buf : list byte) (s : StreamInner W) (l : Links C)
    (r : PollIo nat) (s' : StreamInner W) (l' : Links C) : Prop :=
  let avail := SendWindow.available (send_window s) in
  match r with
  | Ready (Ok n) =>
    Z.of_nat n = Z.min avail (want s (length buf)) ∧ (n = 0%nat → buf = []) ∧
    s' = sent s (Z.of_nat n) ∧
    queued (out_ch l') = queued (out_ch l) ++
      (if bool_decide (buf = []) then [] else [Frame.data (id s) Flags.empty (take n buf)])
  | PollPending =>
    avail = 0 ∧ SendWindow.closed (send_window s) = false ∧
    StreamState.write_open (state s) = true ∧ StreamState.is_reset (state s) = false ∧
    registered (SendWindow.waker (send_window s')) = Some cx ∧
    SendWindow.available (send_window s') = 0 ∧ l' = l
  | Ready (Err e) =>
    (StreamState.is_reset (state s) = true ∨ StreamState.write_open (state s) = false ∨
     SendWindow.closed (send_window s) = true ∨
     rx_alive (out_ch l) = false ∧ StreamState.write_open (state s') = false) ∧
    Error.kind e = (if StreamState.is_reset (state s) then Io.ConnectionReset else Io.BrokenPipe) ∧
    SendWindow.available (send_window s') = avail ∧ queued (out_ch l') = queued (out_ch l)
  end.

Lemma sent_0 s : sent s 0 = s.
Proof. unfold sent. rewrite Z.sub_0_r. by destruct s as [???[]]. Qed.

(** C30: [poll_write] on every branch.  When it accepts [n] bytes it has taken
    exactly [n = min(credit, len, max_frame_size)] bytes of credit, which is at
    least one byte of a non-empty buffer, and queued one [Data] frame of this
    stream carrying the first [n] bytes; when it parks, the credit is zero, the
    window open and the caller's waker registered; when it fails, the stream is
    reset, closed for writing or the session's writer is gone, the error kind
    says which, no frame was queued and no credit was lost (the refund on a dead
    writer included). *)
Theorem poll_write_contract cx buf s l :
  stream_wf s → 1 ≤ Config.max_frame_size (config s) →
  let '(r, (s', l')) := poll_write cx buf (s, l) in
  write_contract cx buf s l r s' l'.
Proof.
  intros Hwf Hmax. rewrite poll_write_spec by done. pose proof Hwf as (_ & _ & [Ha1 Ha2] & _).
  unfold write_contract.
  destruct (StreamState.is_reset (state s)) eqn:Hr; [by split_and!; try left|].
  destruct (StreamState.write_open (state s)) eqn:Ho; cbn [negb]; [|by split_and!; try (right; left)].
  case_bool_decide as Hb.
  { subst buf. unfold want. cbn [length]. rewrite sent_0, app_nil_r. split_and!; try done. lia. }
  destruct (SendWindow.closed (send_window s)) eqn:Hc; [by split_and!; try (do 2 right; left)|].
  destruct (Z.eqb_spec (SendWindow.available (send_window s)) 0) as [Hz|Hnz].
  { cbn. autorewrite with crates. done. }
  assert (0 < length buf)%nat by (destruct buf; simpl; [done|lia]).
  set (n := Z.min _ _).
  assert (1 ≤ n ≤ SendWindow.available (send_window s)) as Hn by (unfold n, want; lia).
  destruct (rx_alive (out_ch l)) eqn:Hrx; cbn.
  - rewrite queued_send, Hrx, Z2Nat.id by lia. split_and!; try done. lia.
  - unfold SendWindow.grant. destruct (Z.eqb_spec n 0); [lia|]. cbn.
    rewrite queued_send, Hrx. unfold saturating_add_u32. split_and!; try done; [by do 3 right|lia].
Qed.

(** The window update [on_consume] asks for is the only frame a read emits. *)
Definition updates (s : StreamInner W) (delta : option Z) : list Frame.t :=
  Frame.window_update (id s) <$> option_list delta.

(** What the caller of [poll_read] can rely on. *)
Definition read_contract (cx : Waker) (buf : ReadBuf.t) (s : StreamInner W) (l : Links C)
    (r : PollIo unit) (buf' : ReadBuf.t) (s' : StreamInner W) (l' : Links C) : Prop :=
  let bytes := RecvBuffer.contents (recv s) in
  let room := ReadBuf.remaining buf in
  match r with
  | Ready (Ok _) =>
    let n := Nat.min room (length bytes) in
    ReadBuf.filled buf' = ReadBuf.filled buf ++ take room bytes ∧
    ReadBuf.remaining buf' = (room - n)%nat ∧
    RecvBuffer.contents (recv s') = drop room bytes ∧
    (n = 0%nat → room = 0%nat ∨ StreamState.read_open (state s) = false) ∧
    recv_window s' = snd (after_consume s n) ∧
    (rx_alive (out_ch l) = true →
     queued (out_ch l') = queued (out_ch l) ++ updates s (fst (after_consume s n)))
  | PollPending =>
    bytes = [] ∧ StreamState.read_open (state s) = true ∧
    StreamState.is_reset (state s) = false ∧ registered (recv_waker s') = Some cx ∧
    RecvBuffer.contents (recv s') = [] ∧ recv_window s' = recv_window s ∧ buf' = buf ∧ l' = l
  | Ready (Err e) =>
    StreamState.is_reset (state s) = true ∧ Error.kind e = Io.ConnectionReset ∧
    buf' = buf ∧ s' = s ∧ l' = l
  end.

Lemma after_consume_0 s : after_consume s 0 = (None, recv_window s).
Proof. done. Qed.

Lemma queued_update_sent s delta l :
  rx_alive (out_ch l) = true →
  queued (out_ch (update_sent s delta l)) = queued (out_ch l) ++ updates s delta.
Proof.
  intros Hrx. destruct delta; cbn; [by rewrite queued_send, Hrx|by rewrite app_nil_r].
Qed.

Lemma poll_read_cases cx buf s l :
  stream_wf s →
  ∃ r buf' s' l', poll_read cx buf (s, l) = ((Some r, buf'), (s', l')) ∧
    read_contract cx buf s l r buf' s' l'.
Proof.
  intros Hwf. unfold poll_read. destruct (Nat.eqb_spec (ReadBuf.remaining buf) 0) as [Hz|Hnz].
  { do 4 eexists. split; [done|]. unfold read_contract. rewrite Hz, take_0, drop_0, !app_nil_r. cbn.
    rewrite ?app_nil_r. split_and!; auto. }
  destruct (poll_read_loop_total 1 cx buf s l Hwf Hnz ltac:(lia)) as [-> _].
  destruct (poll_read_turn_spec cx buf s l Hwf Hnz) as (r' & Hr' & _ & ->).
  unfold read_contract. destruct (StreamState.is_reset (state s)) eqn:Hreset.
  { by do 4 eexists. }
  case_bool_decide as Hb; [rewrite Hb in *; destruct (StreamState.read_open (state s)) eqn:Ho|].
  - do 4 eexists. split; [done|]. cbn. autorewrite with crates.
    split_and!; try done. by rewrite Hr', drop_nil.
  - do 4 eexists. split; [done|]. cbn in Hr' |- *. rewrite Nat.min_0_r, after_consume_0, take_nil, drop_nil.
    cbn. rewrite ?app_nil_r, Nat.sub_0_r. rewrite drop_nil in Hr'. split_and!; auto.
  - do 4 eexists. split; [done|]. cbn.
    rewrite Hr', take_min_length, drop_min_length. split_and!; try done.
    + destruct (RecvBuffer.contents (recv s)); [done|]. simpl. lia.
    + apply queued_update_sent.
Qed.

(** C31: [poll_read] on every branch, and it always returns: the loop needs one
    turn when nothing interferes.  It hands over exactly the next
    [min(room, buffered)] bytes in order, returns without bytes only for an empty
    buffer or at end of stream, and queues exactly the window update
    [on_consume] asks for; it parks only with nothing buffered on an open stream
    and with the caller's waker registered; it fails only on a reset stream. *)
Theorem poll_read_contract cx buf s l :
  stream_wf s →
  ∃ r buf' s' l', poll_read cx buf (s, l) = ((Some r, buf'), (s', l')) ∧
    read_contract cx buf s l r buf' s' l'.
Proof. apply poll_read_cases. Qed.

End StreamFacts.
