(* ===== verification/StreamInv.v ===== *)
(** * Invariants of a stream

    Every operation on a stream, in any order and with any state of the
    session's channels in between (the writer task drains them, other streams
    use them, their receivers go away).  The history [h] collects the frames the
    stream has queued. *)

From S2P Require Import Prelude Machine Errors Config Ids Frames Header Codec Crates Window.
From S2P Require Import StreamState RecvBuffer StreamInner StreamFacts.
From Stdlib Require Import ZArith Lia.

Local Open Scope Z_scope.

(** The operations of [StreamInner], with their arguments. *)
Inductive op : Type :=
| OPush (payload : Bytes)
| ORemoteFin
| ORemoteReset
| OGrant (delta : Z)
| OAck
| OWaitAcked (cx : Waker)
| OForceClose
| ORead (cx : Waker) (buf : ReadBuf.t)
| OWrite (cx : Waker) (buf : list byte)
| OFin
| OReset
| ODrop.

Definition op_typed (o : op) : Prop :=
  match o with OGrant delta => is_u32 delta | _ => True end.

(** A frame that ends the stream's outbound half. *)
Definition is_end (f : Frame.t) : Prop :=
  ∃ i, f = Frame.fin i ∨ f = Frame.rst i.

Definition is_update (f : Frame.t) : Prop :=
  match f with Frame.WindowUpdate _ _ _ => True | _ => False end.

(** The frames stream [i] may emit when frames are limited to [max] bytes. *)
Definition stream_frame (i : StreamId) (max : Z) (f : Frame.t) : Prop :=
  match f with
  | Frame.Data j fl p =>
    j = i ∧ (fl = Flags.empty ∧ p ≠ [] ∧ Z.of_nat (length p) ≤ max ∨
             (fl = Flags.FIN ∨ fl = Flags.RST) ∧ p = [])
  | Frame.WindowUpdate j fl d => j = i ∧ fl = Flags.empty ∧ 1 ≤ d ≤ U32_MAX
  | _ => False
  end.

(** After the end of the outbound half only window updates follow. *)
Definition orderly (h : list Frame.t) : Prop :=
  ∀ h1 f h2, h = h1 ++ f :: h2 → is_end f → Forall is_update h2.

Lemma orderly_nil : orderly [].
Proof. by intros [] ? ?. Qed.

Lemma orderly_snoc h f :
  orderly h → (Exists is_end h → is_update f) → orderly (h ++ [f]).
Proof.
  intros Ho Hf h1 g h2 Heq Hg.
  destruct h2 as [|x h2 _] using rev_ind; [done|].
  rewrite app_comm_cons, app_assoc in Heq. apply app_inj_tail in Heq as [-> ->].
  apply Forall_app. split; [by eapply Ho|]. constructor; [|done].
  apply Hf, Exists_app. right. by left.
Qed.

Section StreamInv.
Context {W : Type} {AW : AtomicWakerOps W}.
Context {C : Type → Type} {CH : UnboundedChannelOps C}.
Implicit Types (s : StreamInner W) (l : Links C) (h : list Frame.t).

Definition apply (o : op) (sl : StreamInner W * Links C) : StreamInner W * Links C :=
  match o with
  | OPush p => snd (push_data p sl)
  | ORemoteFin => snd (remote_fin sl)
  | ORemoteReset => snd (remote_reset sl)
  | OGrant d => snd (grant_send_credit d sl)
  | OAck => snd (mark_acked sl)
  | OWaitAcked cx => snd (wait_acked cx sl)
  | OForceClose => snd (force_close sl)
  | ORead cx buf => snd (poll_read cx buf sl)
  | OWrite cx buf => snd (poll_write cx buf sl)
  | OFin => snd (local_fin sl)
  | OReset => snd (local_reset sl)
  | ODrop => snd (on_user_drop sl)
  end.

(** An acknowledged stream stays so. *)
Lemma apply_keeps_ack o s l : ack_received s = true → ack_received (fst (apply o (s, l))) = true.
Proof.
  intros Ha. destruct o; cbn [apply]; unfold poll_write, poll_read, poll_read_loop, poll_read_turn;
    run_m; repeat (case_match; simplify_eq/=); done.
Qed.

Inductive sstep : StreamInner W * list Frame.t → StreamInner W * list Frame.t → Prop :=
| SStep o s s' l l' h fs :
    op_typed o → apply o (s, l) = (s', l') →
    queued (out_ch l') = queued (out_ch l) ++ fs →
    sstep (s, h) (s', h ++ fs).

(** A parked task has nothing to do: its waker is registered only while the
    condition it waits for is false. *)
Definition wakers_inv (s : StreamInner W) : Prop :=
  (is_Some (registered (recv_waker s)) →
     RecvBuffer.contents (recv s) = [] ∧ StreamState.read_open (state s) = true ∧
     StreamState.is_reset (state s) = false) ∧
  (is_Some (registered (SendWindow.waker (send_window s))) →
     SendWindow.available (send_window s) = 0 ∧ SendWindow.closed (send_window s) = false) ∧
  (is_Some (registered (ack_waker s)) →
     ack_received s = false ∧ StreamState.is_reset (state s) = false).

Definition stream_inv (i : StreamId) (cfg : Config.t) (s : StreamInner W) : Prop :=
  id s = i ∧ config s = cfg ∧ stream_wf s ∧
  (StreamState.is_reset (state s) = true → SendWindow.closed (send_window s) = true) ∧
  (fin_sent s = true → StreamState.write_open (state s) = false) ∧
  wakers_inv s.

Definition emission_inv (i : StreamId) (cfg : Config.t) (s : StreamInner W) (h : list Frame.t) : Prop :=
  Forall (stream_frame i (Config.max_frame_size cfg)) h ∧ orderly h ∧
  (Exists is_end h → fin_sent s = true).

(** What an operation does to the lifecycle and to the history. *)
Definition step_ok (i : StreamId) (cfg : Config.t) s s' fs : Prop :=
  stream_inv i cfg s' ∧ StreamState.le (state s) (state s') ∧
  (fin_sent s = true → fin_sent s' = true) ∧
  (fs = [] ∨ ∃ f, fs = [f] ∧ stream_frame i (Config.max_frame_size cfg) f ∧
     (fin_sent s = true → is_update f) ∧ (is_end f → fin_sent s' = true)).

Lemma on_consume_Some bytes w d w' :
  is_u32 (RecvWindow.initial w) → RecvWindow.on_consume bytes w = (Some d, w') → 1 ≤ d ≤ U32_MAX.
Proof.
  intros Hi. pose proof (RecvWindow.threshold_range w Hi) as Ht. unfold RecvWindow.on_consume.
  set (w1 := RecvWindow.mk _ _). change (RecvWindow.threshold w1) with (RecvWindow.threshold w).
  destruct (bytes =? 0); [done|].
  destruct (Z.leb_spec (RecvWindow.threshold w)
    (saturating_add_u32 (RecvWindow.pending_credit w) bytes)) as [Hle|]; [|done].
  destruct (_ =? _).
  - intros [= <- _]. unfold saturating_add_u32 in *. lia.
  - destruct (Z.ltb_spec (RecvWindow.pending_credit w1) (RecvWindow.threshold w)); [done|].
    intros [= <- _]. subst w1. cbn in *. unfold wrapping_add_u32 in *.
    pose proof (Z.mod_pos_bound (RecvWindow.pending_credit w + bytes) (U32_MAX + 1)). unfold U32_MAX in *. lia.
Qed.

Lemma on_consume_initial bytes w :
  RecvWindow.initial (snd (RecvWindow.on_consume bytes w)) = RecvWindow.initial w.
Proof. unfold RecvWindow.on_consume. by repeat case_match. Qed.

Lemma saturating_add_range a b : is_u32 a → is_u32 b → is_u32 (saturating_add_u32 a b).
Proof. unfold is_u32, saturating_add_u32. lia. Qed.

Lemma step_ok_quiet i cfg s s' l l' fs :
  stream_inv i cfg s' → StreamState.le (state s) (state s') →
  (fin_sent s = true → fin_sent s' = true) →
  queued (out_ch l') = queued (out_ch l) → queued (out_ch l') = queued (out_ch l) ++ fs →
  step_ok i cfg s s' fs.
Proof.
  intros ??? -> Hq. unfold step_ok. split_and!; auto. left.
  apply (app_inv_head (queued (out_ch l))). by rewrite app_nil_r.
Qed.

(** The operation keeps the invariant and emits what it may. *)
Definition op_ok (o : op) : Prop := ∀ i cfg s l s' l' fs,
  1 ≤ Config.max_frame_size cfg → stream_inv i cfg s → apply o (s, l) = (s', l') →
  queued (out_ch l') = queued (out_ch l) ++ fs → step_ok i cfg s s' fs.

Ltac solve_inv :=
  unfold stream_inv, wakers_inv, stream_wf, StreamState.wf, StreamState.le, SendWindow.wf,
    StreamState.is_reset in *; cbn in *; autorewrite with crates in *;
  pose proof (@is_Some_None Waker);
  destruct_and?; split_and?; try tauto; try (intros; intuition congruence).

(** Case analysis on the tests of an unfolded operation. *)
Ltac cases_if :=
  repeat match goal with
    | |- context [if ?b then _ else _] => destruct b eqn:?; cbn [fst snd negb andb orb]
    | |- context [match ack_status ?s with _ => _ end] => destruct (ack_status s) eqn:?; cbn [fst snd]
    end.

(** An operation that queues nothing: its successor states are explicit. *)
Ltac quiet_op :=
  intros i cfg s l s' l' fs Hmax Hi He Hq; revert He; cbn [apply]; run_m; try unfold SendWindow.grant;
  cases_if;
  intros [= <- <-]; eapply step_ok_quiet; try exact Hq; try done; solve_inv.

Lemma push_data_ok p : op_ok (OPush p).
Proof. quiet_op. by apply RecvBuffer.push_wf. Qed.

Lemma remote_fin_ok : op_ok ORemoteFin.
Proof. quiet_op. Qed.

Lemma remote_reset_ok : op_ok ORemoteReset.
Proof. quiet_op. Qed.

Lemma mark_acked_ok : op_ok OAck.
Proof. quiet_op. Qed.

Lemma force_close_ok : op_ok OForceClose.
Proof. quiet_op. Qed.

Lemma grant_ok d : is_u32 d → op_ok (OGrant d).
Proof.
  intros Hd. quiet_op; by apply saturating_add_range.
Qed.

Lemma ack_status_pending s :
  ack_status s = PollPending → ack_received s = false ∧ StreamState.is_reset (state s) = false.
Proof. unfold ack_status. by repeat case_match. Qed.

Lemma wait_acked_ok cx : op_ok (OWaitAcked cx).
Proof.
  intros i cfg s l s' l' fs Hmax Hi He Hq. revert He. cbn [apply]. run_m.
  destruct (ack_status s) eqn:E; cbn [fst snd]; intros [= <- <-];
    eapply step_ok_quiet; try exact Hq; try done.
  apply ack_status_pending in E. solve_inv.
Qed.

(** An operation that queues [f] when the writer is alive. *)
Lemma step_ok_emit i cfg s s' l l' f fs :
  stream_inv i cfg s' → StreamState.le (state s) (state s') →
  (fin_sent s = true → fin_sent s' = true) →
  queued (out_ch l') = (if rx_alive (out_ch l) then queued (out_ch l) ++ [f] else queued (out_ch l)) →
  queued (out_ch l') = queued (out_ch l) ++ fs →
  stream_frame i (Config.max_frame_size cfg) f → (fin_sent s = true → is_update f) →
  (is_end f → fin_sent s' = true) →
  step_ok i cfg s s' fs.
Proof.
  intros ??? -> Hq ???. destruct (rx_alive (out_ch l)).
  - apply app_inv_head in Hq as <-. unfold step_ok. eauto 10.
  - eapply (step_ok_quiet i cfg s s' l l); eauto.
Qed.

Lemma stream_frame_fin i m : stream_frame i m (Frame.fin i).
Proof. split; [done|]. right. auto. Qed.
Lemma stream_frame_rst i m : stream_frame i m (Frame.rst i).
Proof. split; [done|]. right. auto. Qed.

Lemma local_fin_ok : op_ok OFin.
Proof.
  intros i cfg s l s' l' fs Hmax Hi He Hq. revert He. cbn [apply]. run_m. cases_if;
    intros [= <- <-]; try solve [eapply step_ok_quiet; try exact Hq; try done; solve_inv].
  eapply step_ok_emit; try exact Hq; try (cbn; autorewrite with crates; done).
  all: try (destruct Hi as (-> & _); apply stream_frame_fin); cbn in *;
    try (by destruct (fin_sent s)).
  all: solve_inv.
Qed.

Lemma local_reset_ok : op_ok OReset.
Proof.
  intros i cfg s l s' l' fs Hmax Hi He Hq. revert He. cbn [apply]. run_m.
  unfold StreamState.mark_reset. cbn [fst snd].
  destruct (StreamState.reset (state s)) eqn:Hre; cbn [negb]; cases_if;
    intros [= <- <-]; try solve [eapply step_ok_quiet; try exact Hq; try done; solve_inv].
  eapply step_ok_emit; try exact Hq; try (cbn; autorewrite with crates; done).
  all: try (destruct Hi as (-> & _); apply stream_frame_rst); cbn in *;
    try (by destruct (fin_sent s)).
  all: solve_inv.
Qed.

Lemma on_user_drop_ok : op_ok ODrop.
Proof.
  intros i cfg s l s' l' fs Hmax Hi. cbn [apply].
  destruct (StreamState.write_open (state s) && negb (StreamState.is_reset (state s))) eqn:Hb.
  - destruct (snd (local_fin (s, l))) as [s1 l1] eqn:E. 
    assert (snd (on_user_drop (s, l)) = snd (send_closer (id s1) (s1, l1))) as ->.
    { unfold on_user_drop, mbind, M_bind, get, when. cbn [fst snd]. by rewrite Hb, E. }
    run_m. intros [= <- <-] Hq. by eapply local_fin_ok.
  - unfold on_user_drop. run_m. rewrite Hb. intros [= <- <-] Hq.
    eapply step_ok_quiet; try exact Hq; done.
Qed.

Lemma poll_write_ok cx buf : op_ok (OWrite cx buf).
Proof.
  intros i cfg s l s' l' fs Hmax Hi He Hq. revert He. cbn [apply].
  pose proof Hi as (Hid & Hcfg & Hwf & _). rewrite poll_write_spec by done.
  pose proof Hwf as (_ & _ & [Ha1 Ha2] & _).
  destruct (StreamState.is_reset (state s)) eqn:Hr;
    [intros [= <- <-]; by eapply step_ok_quiet|].
  destruct (StreamState.write_open (state s)) eqn:Ho; cbn [negb];
    [|intros [= <- <-]; by eapply step_ok_quiet].
  case_bool_decide as Hb; [intros [= <- <-]; by eapply step_ok_quiet|].
  destruct (SendWindow.closed (send_window s)) eqn:Hc;
    [intros [= <- <-]; by eapply step_ok_quiet|].
  destruct (Z.eqb_spec (SendWindow.available (send_window s)) 0) as [Hz|Hnz].
  { intros [= <- <-]. eapply step_ok_quiet; try exact Hq; try done. solve_inv. }
  assert (0 < length buf)%nat by (destruct buf; simpl; [done|lia]).
  set (n := Z.min _ _).
  assert (1 ≤ n ≤ SendWindow.available (send_window s)) as Hn by (unfold n, want; rewrite Hcfg; lia).
  assert (n ≤ Z.of_nat (length buf) ∧ n ≤ Config.max_frame_size cfg) as Hn2
    by (unfold n, want; rewrite Hcfg; lia).
  assert (stream_inv i cfg (sent s n)) as Hs.
  { solve_inv. unfold is_u32 in *. lia. }
  cbn. destruct (rx_alive (out_ch l)) eqn:Hrx; cbn; intros [= <- <-].
  - eapply step_ok_emit; try exact Hq; try done.
    + cbn. by rewrite queued_send, Hrx.
    + cbn. split; [done|]. left. rewrite length_take. split_and!; try lia; [done|].
      intros Hnil%(f_equal length). rewrite length_take in Hnil. simpl in Hnil. lia.
    + destruct Hi as (_ & _ & _ & _ & Hf & _). rewrite Ho in Hf. intros H'. by discriminate Hf.
    + intros [j [Hj|Hj]]; discriminate.
  - eapply step_ok_quiet; try exact Hq; try done.
    + unfold SendWindow.grant. destruct (Z.eqb_spec n 0); [lia|]. solve_inv.
      apply saturating_add_range; unfold is_u32 in *; lia.
    + cbn. by rewrite queued_send, Hrx.
Qed.

Lemma poll_read_ok cx buf : op_ok (ORead cx buf).
Proof.
  intros i cfg s l s' l' fs Hmax Hi He Hq. revert He. cbn [apply].
  pose proof Hi as (Hid & Hcfg & Hwf & _). pose proof Hwf as (_ & _ & _ & Hini & _).
  unfold poll_read. destruct (Nat.eqb_spec (ReadBuf.remaining buf) 0) as [Hz|Hnz].
  { intros [= <- <-]. by eapply step_ok_quiet. }
  destruct (poll_read_loop_total 1 cx buf s l Hwf Hnz ltac:(lia)) as [-> _].
  destruct (poll_read_turn_spec cx buf s l Hwf Hnz) as (r' & Hc' & Hwf' & ->).
  destruct (StreamState.is_reset (state s)) eqn:Hr;
    [intros [= <- <-]; by eapply step_ok_quiet|].
  case_bool_decide as Hb; [rewrite Hb, drop_nil in Hc'; destruct (StreamState.read_open (state s)) eqn:Ho|].
  1,2: intros [= <- <-]; eapply step_ok_quiet; try exact Hq; try done; solve_inv.
  set (n := Nat.min _ _). intros [= <- <-].
  assert (stream_inv i cfg (set_recv_window (snd (after_consume s n)) (set_recv r' s))) as Hs.
  { unfold after_consume. solve_inv. by rewrite on_consume_initial. }
  unfold after_consume in *. destruct (RecvWindow.on_consume _ _) as [[d|] w'] eqn:E.
  - eapply step_ok_emit; try exact Hq; try done.
    + cbn. by rewrite queued_send.
    + apply on_consume_Some in E; [|done]. cbn. split_and!; try done; lia.
    + by intros _.
    + intros [j [Hj|Hj]]; discriminate.
  - eapply step_ok_quiet; try exact Hq; done.
Qed.

Lemma apply_ok o : op_typed o → op_ok o.
Proof.
  destruct o; intros H; [apply push_data_ok|apply remote_fin_ok|apply remote_reset_ok|
    by apply grant_ok|apply mark_acked_ok|apply wait_acked_ok|apply force_close_ok|apply poll_read_ok|
    apply poll_write_ok|apply local_fin_ok|apply local_reset_ok|apply on_user_drop_ok].
Qed.

(** The frames an operation queues: nothing while the writer is gone. *)
Definition appends (o : op) (s : StreamInner W) : Prop := ∀ l, ∃ fs,
  queued (out_ch (snd (apply o (s, l)))) =
    queued (out_ch l) ++ (if rx_alive (out_ch l) then fs else []) ∧
  rx_alive (out_ch (snd (apply o (s, l)))) = rx_alive (out_ch l).

Ltac solve_appends Hrx :=
  autorewrite with crates; cbn;
  first [exists []; autorewrite with crates; rewrite ?Hrx; by rewrite ?app_nil_r
        |eexists [_]; autorewrite with crates; rewrite ?Hrx; by rewrite ?app_nil_r].

Lemma local_fin_appends s : appends OFin s.
Proof.
  intros l. destruct (rx_alive (out_ch l)) eqn:Hrx; cbn [apply]; run_m; cases_if; solve_appends Hrx.
Qed.

Lemma apply_appends o s : stream_wf s → appends o s.
Proof.
  intros Hwf. destruct o; try (by apply local_fin_appends); intros l; cbn [apply];
    destruct (rx_alive (out_ch l)) eqn:Hrx.
  1-14: run_m; try unfold SendWindow.grant; cases_if; solve_appends Hrx.
  1,2: unfold poll_read; destruct (Nat.eqb_spec (ReadBuf.remaining buf) 0) as [Hz|Hnz];
    [solve_appends Hrx|];
    destruct (poll_read_loop_total 1 cx buf s l Hwf Hnz ltac:(lia)) as [-> _];
    destruct (poll_read_turn_spec cx buf s l Hwf Hnz) as (r' & _ & _ & ->);
    cases_if; try solve_appends Hrx; destruct (fst (after_consume _ _)); solve_appends Hrx.
  1,2: rewrite poll_write_spec by done; rewrite Hrx; cases_if; solve_appends Hrx.
  1,2: run_m; cases_if; solve_appends Hrx.
  all: unfold on_user_drop, mbind, M_bind, get, when; cbn [fst snd];
    destruct (StreamState.write_open _ && _); [|run_m; solve_appends Hrx];
    destruct (local_fin_appends s l) as (fs & Hq & Ha); cbn [apply] in *;
    destruct (local_fin (s, l)) as [u [s1 l1]]; run_m; cbn in *; rewrite Hrx in *; by exists fs.
Qed.

Lemma apply_step_ok o i cfg s l :
  op_typed o → 1 ≤ Config.max_frame_size cfg → stream_inv i cfg s →
  ∃ fs, step_ok i cfg s (fst (apply o (s, l))) fs ∧
    queued (out_ch (snd (apply o (s, l)))) = queued (out_ch l) ++ fs.
Proof.
  intros Ho Hmax Hi. pose proof Hi as (_ & _ & Hwf & _).
  destruct (apply_appends o s Hwf l) as (fs & Hq & _). eexists. split; [|exact Hq].
  eapply (apply_ok o Ho); eauto. apply surjective_pairing.
Qed.

Lemma apply_inv o i cfg s l :
  op_typed o → 1 ≤ Config.max_frame_size cfg → stream_inv i cfg s →
  stream_inv i cfg (fst (apply o (s, l))).
Proof. intros Ho Hm Hi. destruct (apply_step_ok o i cfg s l Ho Hm Hi) as (fs & (? & _) & _). done. Qed.

Lemma stream_new_inv i origin cfg :
  Config.typed cfg → stream_inv i cfg (new i origin cfg).
Proof.
  intros Hc. pose proof (stream_new_wf (W := W) i origin cfg Hc) as Hw.
  unfold stream_inv, wakers_inv, new in *. cbn. rewrite !registered_new.
  split_and!; try done; by intros [? [=]].
Qed.

Lemma sstep_inv i cfg s h s' h' :
  1 ≤ Config.max_frame_size cfg → sstep (s, h) (s', h') →
  stream_inv i cfg s → emission_inv i cfg s h →
  stream_inv i cfg s' ∧ emission_inv i cfg s' h' ∧ StreamState.le (state s) (state s').
Proof.
  intros Hmax Hst Hi (He1 & He2 & He3). inversion Hst as [o ?? l l' ? fs Ho Ha Hq]; subst.
  destruct (apply_ok o Ho i cfg s l s' l' fs Hmax Hi Ha Hq) as (Hi' & Hle & Hf & Hfs).
  split_and!; [done| |done]. unfold emission_inv.
  destruct Hfs as [->|(f & -> & Hsf & Hup & Hend)]; [rewrite app_nil_r; auto|].
  rewrite Forall_app, Exists_app. split_and!; auto.
  - apply orderly_snoc; auto.
  - intros [H|H]; [auto|]. apply Exists_cons in H as [H|H%Exists_nil]; [auto|done].
Qed.

Lemma run_inv i cfg s h s' h' :
  1 ≤ Config.max_frame_size cfg → rtc sstep (s, h) (s', h') →
  stream_inv i cfg s → emission_inv i cfg s h →
  stream_inv i cfg s' ∧ emission_inv i cfg s' h' ∧ StreamState.le (state s) (state s').
Proof.
  intros Hmax Hr. remember (s, h) as x eqn:Hx. remember (s', h') as y eqn:Hy.
  revert s h Hx. induction Hr as [x|x [s1 h1] y H1 _ IH]; intros s h -> Hi He.
  - simplify_eq. by split_and!.
  - destruct (sstep_inv i cfg s h s1 h1 Hmax H1 Hi He) as (Hi1 & He1 & Hle).
    destruct (IH Hy s1 h1 eq_refl Hi1 He1) as (? & ? & ?). split_and!; try done. by transitivity (state s1).
Qed.

Lemma new_run i origin cfg s h :
  Config.valid cfg → rtc sstep (new i origin cfg, []) (s, h) →
  stream_inv i cfg s ∧ emission_inv i cfg s h ∧ StreamState.le StreamState.new (state s).
Proof.
  intros (Ht & _ & Hm & _) Hr. apply (run_inv _ _ _ _ _ _ Hm Hr); [by apply stream_new_inv|].
  unfold emission_inv. split_and!; [done|apply orderly_nil|]. by intros ?%Exists_nil.
Qed.

(** Whatever operations run on a stream, in whatever order: its id and
    configuration never change, the credit stays a [u32], the inbound queue never
    holds an empty chunk, a reset stream is closed both ways and its send window
    is closed, a stream whose FIN or RST is out is closed for writing, and the
    lifecycle only moves forward between any two moments. *)
Theorem stream_invariant i origin cfg s h s' h' :
  Config.valid cfg → rtc sstep (new i origin cfg, []) (s, h) → rtc sstep (s, h) (s', h') →
  id s' = i ∧ config s' = cfg ∧ is_u32 (SendWindow.available (send_window s')) ∧
  Forall (λ c, c ≠ []) (RecvBuffer.queue (recv s')) ∧
  (StreamState.is_reset (state s') = true →
     StreamState.read_open (state s') = false ∧ StreamState.write_open (state s') = false ∧
     SendWindow.closed (send_window s') = true) ∧
  (fin_sent s' = true → StreamState.write_open (state s') = false) ∧
  StreamState.le (state s) (state s').
Proof.
  intros Hv H1 H2. destruct (new_run i origin cfg s h Hv H1) as (Hi & He & _).
  destruct Hv as (_ & _ & Hm & _).
  destruct (run_inv i cfg s h s' h' Hm H2 Hi He)
    as ((? & ? & (_ & Hst & ? & _ & ?) & Hc & ? & _) & _ & Hle).
  split_and!; try done. intros Hr. destruct (Hst Hr). split_and!; auto.
Qed.

(** No missed wake-up between operations: at every moment a reader's waker
    is registered only while there is nothing to read on an open stream, a
    writer's only while there is no credit on an open window, and an opener's
    only before the ACK and before a reset.  Every operation that makes one of
    these conditions true has taken and woken the waker. *)
Theorem stream_no_missed_wakeup i origin cfg s h :
  Config.valid cfg → rtc sstep (new i origin cfg, []) (s, h) → wakers_inv s.
Proof.
  intros Hv Hr. destruct (new_run i origin cfg s h Hv Hr) as ((_ & _ & _ & _ & _ & Hw) & _). exact Hw.
Qed.

(** What a stream puts on the wire as long as its operations do not overlap: only
    frames of its own id; payload frames are non-empty, flag-free and at most
    [max_frame_size] long, window updates carry a positive delta, and after its FIN
    or RST nothing but window updates follows.  What is left of this when they do
    overlap is in [WriterConc]. *)
Lemma stream_emission i origin cfg s h :
  Config.valid cfg → rtc sstep (new i origin cfg, []) (s, h) →
  Forall (stream_frame i (Config.max_frame_size cfg)) h ∧ orderly h.
Proof.
  intros Hv Hr. destruct (new_run i origin cfg s h Hv Hr) as (_ & (H1 & H2 & _) & _). done.
Qed.

Lemma stream_frame_sendable i max f :
  is_u32 i → 0 ≤ max ≤ ABSOLUTE_MAX_PAYLOAD → stream_frame i max f →
  FrameCodec.sendable (FrameCodec.new max) f.
Proof.
  intros Hi Hmax. unfold FrameCodec.sendable, FrameCodec.new. cbn.
  rewrite Z.min_l by lia. destruct f as [j fl p|j fl d| |]; cbn; try done.
  - intros (-> & [(-> & _ & ?)|([-> | ->] & ->)]); split; try split; try done; cbn; lia.
  - intros (-> & -> & ?). split; [|lia]. unfold is_u32. split_and!; [apply Hi|apply Hi|done|lia|lia].
Qed.

(** With [max_frame_size] at most 16 MiB, the writer's codec, built from
    the same configuration, accepts every frame a stream can queue, whatever
    was done to the stream. *)
Lemma stream_frames_encodable i origin cfg s h dst :
  is_u32 i → Config.valid cfg → Config.max_frame_size cfg ≤ ABSOLUTE_MAX_PAYLOAD →
  rtc sstep (new i origin cfg, []) (s, h) →
  fst (FrameCodec.encode_all (FrameCodec.new (Config.max_frame_size cfg)) h dst) = Ok ().
Proof.
  intros Hi Hv Hmax Hr. destruct (new_run i origin cfg s h Hv Hr) as (_ & (Hf & _ & _) & _).
  destruct Hv as (_ & _ & Hm & _).
  rewrite FrameCodec.encode_all_sendable; [done|apply FrameCodec.new_wf; lia|].
  eapply Forall_impl; [|exact Hf]. intros f. apply stream_frame_sendable; [done|lia].
Qed.

(** The 16 MiB bound on the codec is not enforced by the configuration.
    With a [max_frame_size] above it, a large enough write is accepted and
    queues one frame that the session's own codec, built from the same
    configuration, refuses to encode. *)
Theorem oversized_frame_unsendable cx buf s l :
  stream_wf s → StreamState.is_reset (state s) = false →
  StreamState.write_open (state s) = true → SendWindow.closed (send_window s) = false →
  rx_alive (out_ch l) = true →
  ABSOLUTE_MAX_PAYLOAD < Config.max_frame_size (config s) →
  ABSOLUTE_MAX_PAYLOAD < SendWindow.available (send_window s) →
  ABSOLUTE_MAX_PAYLOAD < Z.of_nat (length buf) →
  ∃ n f, fst (poll_write cx buf (s, l)) = Ready (Ok n) ∧
    queued (out_ch (snd (snd (poll_write cx buf (s, l))))) = queued (out_ch l) ++ [f] ∧
    fst (FrameCodec.encode (FrameCodec.new (Config.max_frame_size (config s))) f []) =
      Err (Error.Protocol "data payload exceeds limit").
Proof.
  intros Hwf Hr Ho Hc Hrx Hmax Hav Hlen.
  assert (0 < ABSOLUTE_MAX_PAYLOAD) as Hpos by done.
  rewrite poll_write_spec, Hr, Ho, Hc, Hrx by done. cbn [negb].
  rewrite bool_decide_eq_false_2 by (intros ->; simpl in Hlen; lia).
  destruct (Z.eqb_spec (SendWindow.available (send_window s)) 0) as [Hz|Hnz]; [lia|].
  set (n := Z.min _ _). assert (ABSOLUTE_MAX_PAYLOAD < n) by (unfold n, want; lia).
  assert (n ≤ Z.of_nat (length buf)) by (unfold n, want; lia).
  eexists _, _. split; [reflexivity|]. cbn [fst snd out_ch]. rewrite queued_send, Hrx.
  split; [reflexivity|]. unfold FrameCodec.encode, FrameCodec.frame_parts, Frame.data.
  assert (Z.of_nat (length (take (Z.to_nat n) buf)) = n) as -> by (rewrite length_take; lia).
  unfold FrameCodec.new. cbn [FrameCodec.max_payload].
  destruct (Z.ltb_spec (Z.min (Config.max_frame_size (config s)) ABSOLUTE_MAX_PAYLOAD) n); [done|lia].
Qed.

(** A reset is final: once a stream is reset, after any further operations
    every write and every read with room fails with [ConnectionReset], touches
    nothing and queues nothing. *)
Lemma stream_reset_final i origin cfg s h s' h' cx wbuf rbuf l :
  Config.valid cfg → rtc sstep (new i origin cfg, []) (s, h) →
  StreamState.is_reset (state s) = true → rtc sstep (s, h) (s', h') →
  ReadBuf.remaining rbuf ≠ 0%nat →
  poll_write cx wbuf (s', l) = (Ready (Err reset_error), (s', l)) ∧
  poll_read cx rbuf (s', l) = ((Some (Ready (Err reset_error)), rbuf), (s', l)) ∧
  Error.kind reset_error = Io.ConnectionReset.
Proof.
  intros Hv H1 Hr H2 Hb. destruct (new_run i origin cfg s h Hv H1) as (Hi & He & _).
  destruct Hv as (_ & _ & Hm & _).
  destruct (run_inv i cfg s h s' h' Hm H2 Hi He) as ((_ & _ & Hwf & _) & _ & (_ & _ & Hle)).
  specialize (Hle Hr). change (StreamState.is_reset (state s') = true) in Hle. split_and!; [by rewrite poll_write_spec; [rewrite Hle|]| |done].
  unfold poll_read. rewrite (proj2 (Nat.eqb_neq _ _) Hb).
  destruct (poll_read_loop_total 1 cx rbuf s' l Hwf Hb ltac:(lia)) as [-> _].
  destruct (poll_read_turn_spec cx rbuf s' l Hwf Hb) as (r' & _ & _ & ->). by rewrite Hle.
Qed.

End StreamInv.

(** ** Concrete runs *)

Section Witnesses.

Definition cfg8 : Config.t := Config.mk 8 4 16 None 0 0.
Abbreviation stream0 := (@new (option Waker) slot_waker 1 Local cfg8).
Definition links0 : Links list_chan := mkLinks chan_new chan_new [].
Definition msg : list byte := [Byte.x01; Byte.x02; Byte.x03; Byte.x04; Byte.x05; Byte.x06].

(** A run of operations on concrete data: the stream and the frames it queued. *)
Fixpoint run_ops (os : list op) (s : StreamInner (option Waker)) (h : list Frame.t)
  : StreamInner (option Waker) * list Frame.t :=
  match os with
  | [] => (s, h)
  | o :: os' =>
    let '(s', l') := apply o (s, links0) in run_ops os' s' (h ++ lc_queue (out_ch l'))
  end.

Lemma run_ops_rtc os s h :
  Forall op_typed os →
  rtc (sstep (C := list_chan)) (s, h) (fst (run_ops os s h), snd (run_ops os s h)).
Proof.
  rewrite <- surjective_pairing. revert s h. induction os as [|o os IH]; intros s h Ht; [done|]. inversion Ht; subst.
  cbn [run_ops]. destruct (apply o (s, links0)) as [s' l'] eqn:E.
  eapply rtc_l; [|by apply IH]. by eapply (SStep o s s' links0 l').
Qed.

Definition demo : list op :=
  [OWrite 7 msg; OWrite 7 msg; OWrite 7 msg; OGrant 3; OWrite 7 msg;
   OPush msg; ORead 9 (ReadBuf.mk [] 10); ORead 9 (ReadBuf.mk [] 10); OReset; OWrite 7 msg; ODrop].

Lemma demo_run n :
  rtc (sstep (C := list_chan)) (stream0, [])
    (fst (run_ops (take n demo) stream0 []), snd (run_ops (take n demo) stream0 [])).
Proof. apply run_ops_rtc, Forall_take. unfold demo. repeat constructor; concrete. Qed.

Lemma cfg8_valid : Config.valid cfg8.
Proof. concrete. Qed.

Lemma poll_write_contract_witness :
  ∃ s' l', poll_write 7 msg (stream0, links0) = (Ready (Ok 4%nat), (s', l')) ∧
    write_contract 7 msg stream0 links0 (Ready (Ok 4%nat)) s' l'.
Proof.
  pose proof (@poll_write_contract _ slot_waker _ list_chan_ops 7 msg stream0 links0
    ltac:(apply stream_new_wf; concrete) ltac:(concrete)) as H.
  exists (fst (snd (poll_write 7 msg (stream0, links0)))), (snd (snd (poll_write 7 msg (stream0, links0)))).
  split; [vm_compute; reflexivity|exact H].
Defined.

Lemma poll_read_contract_witness :
  let s := set_recv (RecvBuffer.mk [msg]) stream0 in
  ∃ r buf' s' l', poll_read 7 (ReadBuf.mk [] 4) (s, links0) = ((Some r, buf'), (s', l')) ∧
    read_contract 7 (ReadBuf.mk [] 4) s links0 r buf' s' l'.
Proof.
  intros s. apply (@poll_read_contract _ slot_waker _ list_chan_ops). unfold stream_wf.
  split_and!; try concrete. by repeat constructor.
Defined.

Lemma stream_invariant_witness :
  let s' := fst (run_ops (take 11 demo) stream0 []) in
  StreamState.is_reset (state s') = true ∧ SendWindow.closed (send_window s') = true.
Proof.
  pose proof (@stream_invariant _ slot_waker _ list_chan_ops 1 Local cfg8 stream0 []
    (fst (run_ops (take 11 demo) stream0 [])) (snd (run_ops (take 11 demo) stream0 [])) cfg8_valid
    (rtc_refl _ _) (demo_run 11))
    as (_ & _ & _ & _ & H & _).
  split; [vm_compute; reflexivity|]. by apply H.
Defined.

Lemma stream_no_missed_wakeup_witness :
  let s := fst (run_ops (take 3 demo) stream0 []) in
  registered (SendWindow.waker (send_window s)) = Some 7%nat ∧
  SendWindow.available (send_window s) = 0.
Proof.
  pose proof (@stream_no_missed_wakeup _ slot_waker _ list_chan_ops 1 Local cfg8
    (fst (run_ops (take 3 demo) stream0 [])) (snd (run_ops (take 3 demo) stream0 []))
    cfg8_valid (demo_run 3)) as (_ & H & _).
  split; [vm_compute; reflexivity|]. apply H. by exists 7%nat.
Defined.

(** 32 MiB windows and frames, and a write of one byte more than 16 MiB. *)
Definition cfg_big : Config.t := Config.mk 33554432 33554432 16 None 0 0.
Definition big_buf : list byte := replicate (Z.to_nat 16777217) Byte.x00.

Lemma oversized_frame_unsendable_witness :
  ∃ n f, fst (poll_write 7 big_buf (@new (option Waker) slot_waker 1 Local cfg_big, links0)) = Ready (Ok n) ∧
    fst (FrameCodec.encode (FrameCodec.new 33554432) f []) =
      Err (Error.Protocol "data payload exceeds limit").
Proof.
  destruct (@oversized_frame_unsendable _ slot_waker _ list_chan_ops 7 big_buf
    (@new (option Waker) slot_waker 1 Local cfg_big) links0) as (n & f & H1 & _ & H2);
    [apply stream_new_wf; concrete|reflexivity|reflexivity|reflexivity|reflexivity|reflexivity|reflexivity|
     unfold big_buf; rewrite length_replicate, Z2Nat.id; [reflexivity|lia]|].
  exists n, f. split; [exact H1|exact H2].
Defined.

End Witnesses.
