(* ===== verification/Session.v ===== *)
(** * Session state ([src/session/inner.rs], [src/session/manager.rs])

    The state all tasks of a session share.  Streams are shared objects
    ([Arc<StreamInner>]): a reference is a location in the session's heap, and
    the registry, the accept queue and the user's handles hold locations. *)

From S2P Require Import Prelude Machine Errors Config Ids Frames Crates Window StreamState.
From S2P Require Import RecvBuffer StreamInner.
From Stdlib Require Import ZArith Lia.

Local Open Scope Z_scope.

(** A reference to a [StreamInner]. *)
Abbreviation Loc := nat.

Module StreamRegistry.

(** [struct StreamRegistry]: the map under its lock. *)
Abbreviation t := (gmap StreamId Loc).

(** [StreamRegistry::new]. *)
Definition new : t := ∅.

(** [StreamRegistry::insert]. *)
Definition insert (id : StreamId) (stream : Loc) (g : t) : MuxResult unit * t :=
  match g !! id with
  | Some _ => (Err (Error.Protocol "duplicate stream id"), g)
  | None => (Ok (), <[id := stream]> g)
  end.

(** [StreamRegistry::get]. *)
Definition get (id : StreamId) (g : t) : option Loc := g !! id.

(** [StreamRegistry::remove]. *)
Definition remove (id : StreamId) (g : t) : option Loc * t := (g !! id, delete id g).

(** [StreamRegistry::len]. *)
Definition len (g : t) : Z := Z.of_nat (size g).

End StreamRegistry.

(** The iteration order of a [HashMap] is unspecified: [drain] yields the
    entries in some order. *)
Class DrainOrder : Type := {
  drain_order : StreamRegistry.t → list (StreamId * Loc);
  drain_order_perm : ∀ g, drain_order g ≡ₚ map_to_list g;
}.

#[export] Program Instance key_order : DrainOrder := {| drain_order := map_to_list |}.
Solve All Obligations with done.

(** The background tasks in a session's [JoinSet]. *)
Inductive Task : Type := TWriter | TReader | TCloser | TKeepalive.

Section SessionInner.
Context {W : Type} {AW : AtomicWakerOps W}.
Context {C : Type → Type} {CH : UnboundedChannelOps C}.
Context {X R : Type} {WO : WatchOps X R}.
Context {DO : DrainOrder}.

(** [StreamRegistry::drain]. *)
Definition registry_drain (g : StreamRegistry.t) : list Loc * StreamRegistry.t :=
  (snd <$> drain_order g, ∅).

(** [struct SessionInner], with the streams its references point to, the
    channels its senders feed and the wakers woken so far. *)
Record Session : Type := mkSession {
  s_config : Config.t;
  s_role : Role.t;
  s_id_alloc : StreamIdAllocator.t;
  s_registry : StreamRegistry.t;
  s_heap : list (StreamInner W);
  s_out : C Frame.t;
  s_closer : C StreamId;
  s_accept : C Loc;
  s_pong : C Z;
  s_shutdown : X;
  s_is_closing : bool;
  s_peer_gone : bool;
  s_tasks : option (list Task);
  s_woken : list Waker;
}.

(** *** Field updates *)

Definition set_id_alloc (x : StreamIdAllocator.t) (s : Session) : Session :=
  mkSession (s_config s) (s_role s) x (s_registry s) (s_heap s) (s_out s) (s_closer s)
    (s_accept s) (s_pong s) (s_shutdown s) (s_is_closing s) (s_peer_gone s) (s_tasks s) (s_woken s).
Definition set_registry (x : StreamRegistry.t) (s : Session) : Session :=
  mkSession (s_config s) (s_role s) (s_id_alloc s) x (s_heap s) (s_out s) (s_closer s)
    (s_accept s) (s_pong s) (s_shutdown s) (s_is_closing s) (s_peer_gone s) (s_tasks s) (s_woken s).
Definition set_heap (x : list (StreamInner W)) (s : Session) : Session :=
  mkSession (s_config s) (s_role s) (s_id_alloc s) (s_registry s) x (s_out s) (s_closer s)
    (s_accept s) (s_pong s) (s_shutdown s) (s_is_closing s) (s_peer_gone s) (s_tasks s) (s_woken s).
Definition set_out (x : C Frame.t) (s : Session) : Session :=
  mkSession (s_config s) (s_role s) (s_id_alloc s) (s_registry s) (s_heap s) x (s_closer s)
    (s_accept s) (s_pong s) (s_shutdown s) (s_is_closing s) (s_peer_gone s) (s_tasks s) (s_woken s).
Definition set_closer (x : C StreamId) (s : Session) : Session :=
  mkSession (s_config s) (s_role s) (s_id_alloc s) (s_registry s) (s_heap s) (s_out s) x
    (s_accept s) (s_pong s) (s_shutdown s) (s_is_closing s) (s_peer_gone s) (s_tasks s) (s_woken s).
Definition set_accept (x : C Loc) (s : Session) : Session :=
  mkSession (s_config s) (s_role s) (s_id_alloc s) (s_registry s) (s_heap s) (s_out s)
    (s_closer s) x (s_pong s) (s_shutdown s) (s_is_closing s) (s_peer_gone s) (s_tasks s) (s_woken s).
Definition set_pong (x : C Z) (s : Session) : Session :=
  mkSession (s_config s) (s_role s) (s_id_alloc s) (s_registry s) (s_heap s) (s_out s)
    (s_closer s) (s_accept s) x (s_shutdown s) (s_is_closing s) (s_peer_gone s) (s_tasks s) (s_woken s).
Definition set_shutdown (x : X) (s : Session) : Session :=
  mkSession (s_config s) (s_role s) (s_id_alloc s) (s_registry s) (s_heap s) (s_out s)
    (s_closer s) (s_accept s) (s_pong s) x (s_is_closing s) (s_peer_gone s) (s_tasks s) (s_woken s).
Definition set_is_closing (x : bool) (s : Session) : Session :=
  mkSession (s_config s) (s_role s) (s_id_alloc s) (s_registry s) (s_heap s) (s_out s)
    (s_closer s) (s_accept s) (s_pong s) (s_shutdown s) x (s_peer_gone s) (s_tasks s) (s_woken s).
Definition set_peer_gone (x : bool) (s : Session) : Session :=
  mkSession (s_config s) (s_role s) (s_id_alloc s) (s_registry s) (s_heap s) (s_out s)
    (s_closer s) (s_accept s) (s_pong s) (s_shutdown s) (s_is_closing s) x (s_tasks s) (s_woken s).
Definition set_tasks (x : option (list Task)) (s : Session) : Session :=
  mkSession (s_config s) (s_role s) (s_id_alloc s) (s_registry s) (s_heap s) (s_out s)
    (s_closer s) (s_accept s) (s_pong s) (s_shutdown s) (s_is_closing s) (s_peer_gone s) x (s_woken s).
Definition set_woken (x : list Waker) (s : Session) : Session :=
  mkSession (s_config s) (s_role s) (s_id_alloc s) (s_registry s) (s_heap s) (s_out s)
    (s_closer s) (s_accept s) (s_pong s) (s_shutdown s) (s_is_closing s) (s_peer_gone s) (s_tasks s) x.

(** *** Session code as a state transformer *)

Definition SM (A : Type) : Type := Session → A * Session.

#[global] Instance SM_ret : MRet SM := λ A a s, (a, s).
#[global] Instance SM_bind : MBind SM := λ A B f m s, f (fst (m s)) (snd (m s)).

Definition sget {A} (f : Session → A) : SM A := λ s, (f s, s).
Definition sput (f : Session → Session) : SM unit := λ s, ((), f s).
Definition swhen (b : bool) (m : SM unit) : SM unit := if b then m else mret ().

(** [self.out_tx.send(frame)]: [is_ok]. *)
Definition s_send (f : Frame.t) : SM bool := λ s,
  let r := chan_send f (s_out s) in (fst r, set_out (snd r) s).

(** A method call on the stream at a location: the method sees the stream and
    the session's channels.  [None] only for a dangling reference. *)
Definition on_stream {A} (loc : Loc) (m : M (W := W) (C := C) A) : SM (option A) := λ s,
  match s_heap s !! loc with
  | None => (None, s)
  | Some st =>
    let r := m (st, mkLinks (s_out s) (s_closer s) (s_woken s)) in
    let '(st', l') := snd r in
    (Some (fst r), set_heap (<[loc := st']> (s_heap s))
      (set_out (out_ch l') (set_closer (closer_ch l') (set_woken (woken l') s))))
  end.

(** [Arc::new(StreamInner { .. })]. *)
Definition alloc_stream (st : StreamInner W) : SM Loc := λ s,
  (length (s_heap s), set_heap (s_heap s ++ [st]) s).

(** The registry's methods on the shared registry. *)
Definition reg_insert (id : StreamId) (loc : Loc) : SM (MuxResult unit) := λ s,
  let r := StreamRegistry.insert id loc (s_registry s) in (fst r, set_registry (snd r) s).
Definition reg_remove (id : StreamId) : SM (option Loc) := λ s,
  let r := StreamRegistry.remove id (s_registry s) in (fst r, set_registry (snd r) s).
Definition reg_drain : SM (list Loc) := λ s,
  let r := registry_drain (s_registry s) in (fst r, set_registry (snd r) s).

(** *** [impl SessionInner] *)

(** [SessionInner::shutdown_rx]. *)
Definition shutdown_rx : SM R := λ s,
  let r := watch_subscribe (s_shutdown s) in (fst r, set_shutdown (snd r) s).

(** [SessionInner::is_closed]. *)
Definition is_closed (s : Session) : bool := s_is_closing s.

(** [for stream in .. { stream.force_close() }]. *)
Fixpoint force_close_all (locs : list Loc) : SM unit :=
  match locs with
  | [] => mret ()
  | loc :: locs' => on_stream loc force_close;; force_close_all locs'
  end.

(** [SessionInner::initiate_shutdown]. *)
Definition initiate_shutdown (code : ErrorCode.t) : SM unit :=
  closing ← sget s_is_closing;
  sput (set_is_closing true);;
  if (closing : bool) then mret () else
  s_send (Frame.go_away code);;
  streams ← reg_drain;
  force_close_all streams;;
  sput (λ s, set_shutdown (snd (watch_send true (s_shutdown s))) s).

(** [SessionInner::note_peer_gone]. *)
Definition note_peer_gone (code : ErrorCode.t) : SM unit := sput (set_peer_gone true).

End SessionInner.

Arguments Session : clear implicits.
