(* ===== verification/Reader.v ===== *)
(** * The inbound frame loop ([src/session/reader.rs])

    Frames decoded from the connection are dispatched to the session and its
    streams. *)

From S2P Require Import Prelude Machine Errors Config Ids Frames Crates Window StreamState.
From S2P Require Import RecvBuffer StreamInner Session.
From Stdlib Require Import ZArith Lia.

Local Open Scope Z_scope.

(** What [framed.next()] yields: a frame, a decode or transport error, or the
    end of the connection. *)
Inductive item : Type :=
| NextFrame (f : Frame.t)
| NextErr (e : Error.t)
| NextEof.

(** The code an error closes the session with. *)
Definition close_code (e : Error.t) : ErrorCode.t :=
  match e with
  | Error.Protocol _ => ErrorCode.ProtocolError
  | _ => ErrorCode.InternalError
  end.

Section Deliver.
Context {BF : BitflagsOps}.
Context {W : Type} {AW : AtomicWakerOps W}.
Context {C : Type → Type} {CH : UnboundedChannelOps C}.

(** The part of [handle_data] after the stream was found. *)
Definition deliver_data (flags : Flags.t) (payload : Bytes) : M (W := W) (C := C) (MuxResult unit) :=
  when (contains flags Flags.ACK) mark_acked;;
  let finish : M (MuxResult unit) :=
    when (contains flags Flags.FIN) remote_fin;;
    when (contains flags Flags.RST) remote_reset;;
    mret (Ok ()) in
  if bool_decide (payload = []) then finish else
  can ← get can_recv;
  if negb can then local_reset;; mret (Err (Error.Protocol "data after FIN"))
  else push_data payload;; finish.

End Deliver.

Section Reader.
Context {BF : BitflagsOps}.
Context {W : Type} {AW : AtomicWakerOps W}.
Context {C : Type → Type} {CH : UnboundedChannelOps C}.
Context {X R : Type} {WO : WatchOps X R}.
Context {DO : DrainOrder}.

Abbreviation SM := (SM (W := W) (C := C) (X := X)).

(** What the SYN part of [handle_data] decides: [None] falls through to the
    delivery. *)
Definition handle_syn (stream_id : StreamId) : SM (option (MuxResult unit)) :=
  role ← sget s_role;
  if Role.owns role stream_id
  then mret (Some (Err (Error.Protocol "peer SYN with our parity"))) else
  gone ← sget s_peer_gone;
  if (gone : bool) then s_send (Frame.rst stream_id);; mret (Some (Ok ())) else
  len ← sget (λ s, StreamRegistry.len (s_registry s));
  max ← sget (λ s, Config.max_streams (s_config s));
  if max <=? len then s_send (Frame.rst stream_id);; mret (Some (Ok ())) else
  config ← sget s_config;
  loc ← alloc_stream (new stream_id Remote config);
  r ← reg_insert stream_id loc;
  match r with
  | Err _ => mret (Some (Err (Error.Protocol "duplicate stream id")))
  | Ok _ =>
    sent ← (λ s, let r := chan_send loc (s_accept s) in (fst r, set_accept (snd r) s));
    if negb sent then
      reg_remove stream_id;;
      s_send (Frame.rst stream_id);;
      mret (Some (Ok ()))
    else mret None
  end.

(** [handle_data]. *)
Definition handle_data (stream_id : StreamId) (flags : Flags.t) (payload : Bytes)
  : SM (MuxResult unit) :=
  if stream_id =? 0 then mret (Err (Error.Protocol "data on stream id 0")) else
  early ← (if contains flags Flags.SYN then handle_syn stream_id else mret None);
  match early with
  | Some r => mret r
  | None =>
    found ← sget (λ s, StreamRegistry.get stream_id (s_registry s));
    match found with
    | None =>
      swhen (negb (contains flags Flags.ACK) && negb (contains flags Flags.RST))
        (s_send (Frame.rst stream_id);; mret ());;
      mret (Ok ())
    | Some loc =>
      r ← on_stream loc (deliver_data flags payload);
      mret (default (Ok ()) r)
    end
  end.

(** [dispatch]. *)
Definition dispatch (frame : Frame.t) : SM (MuxResult unit) :=
  match frame with
  | Frame.Data stream_id flags payload => handle_data stream_id flags payload
  | Frame.WindowUpdate stream_id _ delta =>
    found ← sget (λ s, StreamRegistry.get stream_id (s_registry s));
    match found with
    | Some loc => on_stream loc (grant_send_credit delta);; mret (Ok ())
    | None => mret (Ok ())
    end
  | Frame.Ping flags opaque =>
    if contains flags Flags.ACK
    then (λ s, ((), set_pong (snd (chan_send opaque (s_pong s))) s));; mret (Ok ())
    else s_send (Frame.pong opaque);; mret (Ok ())
  | Frame.GoAway error_code =>
    note_peer_gone error_code;;
    initiate_shutdown error_code;;
    mret (Ok ())
  end.

(** The second arm of the [select!] in [run], on the item [framed.next()]
    yields; [true] when the loop goes on. *)
Definition on_item (i : item) : SM bool :=
  match i with
  | NextEof => initiate_shutdown ErrorCode.Normal;; mret false
  | NextErr e => initiate_shutdown (close_code e);; mret false
  | NextFrame f =>
    r ← dispatch f;
    match r with
    | Err e => initiate_shutdown (close_code e);; mret false
    | Ok _ => mret true
    end
  end.

(** One turn of the loop of [run]: the shutdown watch first ([biased]), then
    the next item if there is one.  The receiver goes on, or the loop ends
    ([None]). *)
Definition turn (rx : R) (items : list item) : SM (option R * list item) := λ s,
  match watch_changed rx (s_shutdown s) with
  | Some rx' => ((if watch_borrow (s_shutdown s) then None else Some rx', items), s)
  | None =>
    match items with
    | [] => ((Some rx, []), s)
    | i :: items' =>
      let '(go, s') := on_item i s in ((if (go : bool) then Some rx else None, items'), s')
    end
  end.

(** [run] on the items that arrive, undisturbed.  A turn takes an item or marks
    a change as seen, so two turns per item are enough. *)
Fixpoint run_turns (fuel : nat) (rx : R) (items : list item) : SM (option R * list item) := λ s,
  match fuel with
  | O => ((Some rx, items), s)
  | S fuel' =>
    let '((orx, items'), s') := turn rx items s in
    match orx with
    | None => ((None, items'), s')
    | Some rx' => run_turns fuel' rx' items' s'
    end
  end.

Definition run (rx : R) (items : list item) : SM (option R * list item) :=
  run_turns (2 * length items + 1) rx items.

End Reader.
