(* ===== verification/StreamCode.v ===== *)
(** * Stream operations, access by access ([src/stream/inner.rs])

    A [StreamInner] is shared between the user's task, the session's reader and
    whoever shuts the session down.  Here its operations are written as the
    sequences of atomic accesses they make to it: loads, stores and swaps of its
    atomic booleans, the critical sections of the receive buffer's lock, waker
    calls and channel sends.  Operations without loops are trees of accesses
    ([code]); the polling operations [poll_read] and [wait_acked] are programs
    with a program counter.  Run undisturbed, each does what its definition in
    [StreamInner] says. *)

From S2P Require Import Prelude Machine Errors Config Ids Frames Crates Window StreamState.
From S2P Require Import RecvBuffer StreamInner StreamFacts StreamInv Session Reader.
From Stdlib Require Import ZArith Lia.

Local Open Scope Z_scope.

(** An access whose result is not looked at. *)
Inductive access : Type :=
| StoreReadOpen                 (* [read_open.store(false)] *)
| StoreWriteOpen                (* [write_open.store(false)] *)
| StoreAck                      (* [ack_received.store(true)] *)
| Push (payload : Bytes)        (* [recv.lock().push(payload)] *)
| CloseWindow                   (* [send_window.closed.store(true)] *)
| AddCredit (delta : Z)         (* the swap of [SendWindow::grant] that succeeds *)
| WakeWindow                    (* [send_window.waker.wake()] *)
| WakeRecv                      (* [recv_waker.wake()] *)
| WakeAck                       (* [ack_waker.wake()] *)
| SendOut (f : Frame.t)         (* [out_tx.send(f)] *)
| SendCloser (i : StreamId).    (* [closer_tx.send(i)] *)

(** An access that yields a boolean: a load, or a swap with its old value. *)
Inductive test : Type :=
| LoadReset
| LoadReadOpen
| LoadWriteOpen
| SwapReset                     (* [reset.swap(true)] *)
| SwapReadOpen                  (* [read_open.swap(false)] *)
| SwapWriteOpen                 (* [write_open.swap(false)] *)
| SwapFinSent.                  (* [fin_sent.swap(true)] *)

(** Code without loops: the accesses in order, branching on tests. *)
Inductive code : Type :=
| Ret (r : MuxResult unit)
| Do (a : access) (k : code)
| If (t : test) (yes no : code).

(** ** The operations *)

(** [StreamState::mark_reset], whose result says whether this was the first
    time; the bit is set before the halves are closed. *)
Definition mark_reset_code (first again : code) : code :=
  let stores (k : code) := Do StoreReadOpen (Do StoreWriteOpen k) in
  If SwapReset (stores again) (stores first).

Definition push_data_code (payload : Bytes) (k : code) : code :=
  if bool_decide (payload = []) then k else Do (Push payload) (Do WakeRecv k).

(** The swap's result is only traced. *)
Definition remote_fin_code (k : code) : code :=
  If SwapReadOpen (Do WakeRecv k) (Do WakeRecv k).

(** [SendWindow::close], then the wake-ups and the closer. *)
Definition teardown_code (i : StreamId) (k : code) : code :=
  Do CloseWindow (Do WakeWindow (Do WakeRecv (Do WakeAck (Do (SendCloser i) k)))).

Definition remote_reset_code (i : StreamId) (k : code) : code :=
  mark_reset_code (teardown_code i k) (teardown_code i k).

Definition grant_code (delta : Z) (k : code) : code :=
  if delta =? 0 then k else Do (AddCredit delta) (Do WakeWindow k).

Definition mark_acked_code (k : code) : code := Do StoreAck (Do WakeAck k).

Definition force_close_code (k : code) : code :=
  let wakes := Do CloseWindow (Do WakeWindow (Do WakeRecv (Do WakeAck k))) in
  let close_write := If SwapWriteOpen wakes wakes in
  If SwapReadOpen close_write close_write.

Definition local_fin_code (i : StreamId) (k : code) : code :=
  If LoadReset k
    (If SwapWriteOpen (If SwapFinSent k (Do (SendOut (Frame.fin i)) k)) k).

Definition local_reset_code (i : StreamId) (k : code) : code :=
  mark_reset_code
    (If SwapFinSent (teardown_code i k) (Do (SendOut (Frame.rst i)) (teardown_code i k)))
    k.

Definition on_user_drop_code (i : StreamId) (k : code) : code :=
  let finish := Do (SendCloser i) k in
  If LoadWriteOpen (If LoadReset finish (local_fin_code i finish)) finish.

(** The session reader's delivery of a frame to the stream [i]. *)
Definition deliver_code {BF : BitflagsOps} (i : StreamId) (flags : Flags.t) (payload : Bytes) : code :=
  let reset := if contains flags Flags.RST then remote_reset_code i (Ret (Ok ())) else Ret (Ok ()) in
  let finish := if contains flags Flags.FIN then remote_fin_code reset else reset in
  let refuse := local_reset_code i (Ret (Err (Error.Protocol "data after FIN"))) in
  let body :=
    if bool_decide (payload = []) then finish else
    If LoadReadOpen (If LoadReset refuse (push_data_code payload finish)) refuse in
  if contains flags Flags.ACK then mark_acked_code body else body.

Section StreamCode.
Context {BF : BitflagsOps}.
Context {W : Type} {AW : AtomicWakerOps W}.
Context {C : Type → Type} {CH : UnboundedChannelOps C}.

(** ** What an access does *)

Definition do_access (a : access) : M (W := W) (C := C) unit :=
  match a with
  | StoreReadOpen => put (λ s, set_state (StreamState.mk false (StreamState.write_open (state s))
                                            (StreamState.reset (state s))) s)
  | StoreWriteOpen => put (λ s, set_state (StreamState.mk (StreamState.read_open (state s)) false
                                             (StreamState.reset (state s))) s)
  | StoreAck => put (set_ack_received true)
  | Push payload => put (λ s, set_recv (RecvBuffer.push payload (recv s)) s)
  | CloseWindow => put (λ s, set_send_window (SendWindow.mk (SendWindow.available (send_window s)) true
                                                (SendWindow.waker (send_window s))) s)
  | AddCredit delta =>
    put (λ s, set_send_window
      (SendWindow.mk (saturating_add_u32 (SendWindow.available (send_window s)) delta)
         (SendWindow.closed (send_window s)) (SendWindow.waker (send_window s))) s)
  | WakeWindow => λ '(s, l),
    let w := send_window s in
    let r := waker_wake (SendWindow.waker w) in
    ((), (set_send_window (SendWindow.mk (SendWindow.available w) (SendWindow.closed w) (snd r)) s,
          note_woken (fst r) l))
  | WakeRecv => wake_recv
  | WakeAck => wake_ack
  | SendOut f => send_out f;; mret ()
  | SendCloser i => send_closer i;; mret ()
  end.

Definition do_test (t : test) : M (W := W) (C := C) bool :=
  match t with
  | LoadReset => get (λ s, StreamState.is_reset (state s))
  | LoadReadOpen => get (λ s, StreamState.read_open (state s))
  | LoadWriteOpen => get (λ s, StreamState.write_open (state s))
  | SwapReset => λ '(s, l),
    (StreamState.reset (state s),
     (set_state (StreamState.mk (StreamState.read_open (state s)) (StreamState.write_open (state s)) true) s, l))
  | SwapReadOpen => on_state StreamState.close_read
  | SwapWriteOpen => on_state StreamState.close_write
  | SwapFinSent => swap_fin_sent
  end.

(** One step of code: its next access. *)
Definition code_step (c : code) (m : StreamInner W * Links C) : code * (StreamInner W * Links C) :=
  match c with
  | Ret r => (Ret r, m)
  | Do a k => (k, snd (do_access a m))
  | If t yes no => let '(b, m') := do_test t m in ((if (b : bool) then yes else no), m')
  end.

(** Undisturbed runs. *)
Fixpoint exec (c : code) : M (W := W) (C := C) (MuxResult unit) :=
  match c with
  | Ret r => mret r
  | Do a k => do_access a;; exec k
  | If t yes no => b ← do_test t; if (b : bool) then exec yes else exec no
  end.

(** ** [poll_read] *)

(** The accesses of the loop, in order. *)
Inductive rpc : Type :=
| RReset                        (* [state.is_reset()] *)
| RDrain                        (* [recv.lock().read_into(buf)] *)
| RConsume (n : nat)            (* [recv_window.on_consume(n)] *)
| RUpdate (delta : Z)           (* [out_tx.send(window_update)] *)
| ROpen                         (* [state.read_open()] *)
| RRegister                     (* [recv_waker.register(cx.waker())] *)
| RRecheckEmpty                 (* [recv.lock().is_empty()] *)
| RRecheckOpen
| RRecheckReset
| RDone (r : PollIo unit).

Definition rstep (cx : Waker) (p : rpc) (buf : ReadBuf.t) : M (W := W) (C := C) (rpc * ReadBuf.t) :=
  match p with
  | RReset =>
    b ← get (λ s, StreamState.is_reset (state s));
    mret (if (b : bool) then RDone (Ready (Err reset_error)) else RDrain, buf)
  | RDrain =>
    '(consumed, buf) ← read_recv buf;
    mret (if (0 <? consumed)%nat then RConsume consumed else ROpen, buf)
  | RConsume n =>
    delta ← consume_window (as_u32 (Z.of_nat n));
    mret (match delta with Some d => RUpdate d | None => RDone (Ready (Ok ())) end, buf)
  | RUpdate d =>
    i ← get id; send_out (Frame.window_update i d);;
    mret (RDone (Ready (Ok ())), buf)
  | ROpen =>
    b ← get (λ s, StreamState.read_open (state s));
    mret (if negb b then RDone (Ready (Ok ())) else RRegister, buf)
  | RRegister =>
    put (λ s, set_recv_waker (waker_register cx (recv_waker s)) s);;
    mret (RRecheckEmpty, buf)
  | RRecheckEmpty =>
    b ← get (λ s, RecvBuffer.is_empty (recv s));
    mret (if negb b then RReset else RRecheckOpen, buf)
  | RRecheckOpen =>
    b ← get (λ s, StreamState.read_open (state s));
    mret (if negb b then RReset else RRecheckReset, buf)
  | RRecheckReset =>
    b ← get (λ s, StreamState.is_reset (state s));
    mret (if (b : bool) then RReset else RDone PollPending, buf)
  | RDone r => mret (RDone r, buf)
  end.

(** A poll starts with the test of the room in the buffer. *)
Definition rstart (buf : ReadBuf.t) : rpc :=
  if (ReadBuf.remaining buf =? 0)%nat then RDone (Ready (Ok ())) else RReset.

Fixpoint rrun (cx : Waker) (fuel : nat) (p : rpc) (buf : ReadBuf.t)
  : M (W := W) (C := C) (rpc * ReadBuf.t) :=
  match fuel with
  | O => mret (p, buf)
  | S fuel' => '(p, buf) ← rstep cx p buf; rrun cx fuel' p buf
  end.

(** ** [wait_acked] *)

(** The three tests, before and after registering. *)
Inductive opc : Type :=
| OAck1 | OReset1 | OOpen1
| ORegister
| OAck2 | OReset2 | OOpen2
| ODone (r : Poll (MuxResult unit)).

Definition ostep (cx : Waker) (p : opc) : M (W := W) (C := C) opc :=
  match p with
  | OAck1 =>
    b ← get ack_received; mret (if (b : bool) then ODone (Ready (Ok ())) else OReset1)
  | OReset1 =>
    b ← get (λ s, StreamState.is_reset (state s)); i ← get id;
    mret (if (b : bool) then ODone (Ready (Err (Error.StreamReset i))) else OOpen1)
  | OOpen1 =>
    b ← get (λ s, StreamState.write_open (state s));
    mret (if negb b then ODone (Ready (Err Error.SessionClosed)) else ORegister)
  | ORegister =>
    put (λ s, set_ack_waker (waker_register cx (ack_waker s)) s);; mret OAck2
  | OAck2 =>
    b ← get ack_received; mret (if (b : bool) then ODone (Ready (Ok ())) else OReset2)
  | OReset2 =>
    b ← get (λ s, StreamState.is_reset (state s)); i ← get id;
    mret (if (b : bool) then ODone (Ready (Err (Error.StreamReset i))) else OOpen2)
  | OOpen2 =>
    b ← get (λ s, StreamState.write_open (state s));
    mret (if negb b then ODone (Ready (Err Error.SessionClosed)) else ODone PollPending)
  | ODone r => mret (ODone r)
  end.

Fixpoint orun (cx : Waker) (fuel : nat) (p : opc) : M (W := W) (C := C) opc :=
  match fuel with
  | O => mret p
  | S fuel' => p ← ostep cx p; orun cx fuel' p
  end.

(** ** Undisturbed, the accesses are the operations *)

(** Running an operation's code before a continuation. *)
Definition then_code (m : M (W := W) (C := C) unit) (k : code) : M (MuxResult unit) := m;; exec k.

(** Both sides computed, on a stream with its fields named. *)
Ltac run_code :=
  let ro := fresh "ro" in let wo := fresh "wo" in let rs := fresh "rs" in let fs := fresh "fs" in
  match goal with m : (StreamInner W * Links C)%type |- _ =>
    destruct m as [[? ? [ro wo rs] [? ? ?] ? ? ? ? ? fs] ?] end;
  unfold then_code, mbind, M_bind;
  destruct ro, wo, rs, fs; try reflexivity.

Lemma exec_push_data p k m : exec (push_data_code p k) m = then_code (push_data p) k m.
Proof. unfold push_data_code, push_data. case_bool_decide; run_code. Qed.

Lemma exec_remote_fin k m : exec (remote_fin_code k) m = then_code remote_fin k m.
Proof. run_code. Qed.

Lemma exec_remote_reset k m : exec (remote_reset_code (id (fst m)) k) m = then_code remote_reset k m.
Proof. run_code. Qed.

Lemma exec_grant d k m : exec (grant_code d k) m = then_code (grant_send_credit d) k m.
Proof.
  unfold grant_code. destruct (d =? 0) eqn:Hd.
  2: { destruct m as [[] []]. unfold then_code, mbind, M_bind. cbn. unfold SendWindow.grant.
       by rewrite Hd. }
  destruct m as [[] []]. unfold then_code, mbind, M_bind. cbn. unfold SendWindow.grant.
  rewrite Hd. cbn. unfold set_send_window, note_woken. cbn. by rewrite app_nil_r.
Qed.

Lemma exec_mark_acked k m : exec (mark_acked_code k) m = then_code mark_acked k m.
Proof. run_code. Qed.

Lemma exec_force_close k m : exec (force_close_code k) m = then_code force_close k m.
Proof. run_code. Qed.

Lemma exec_local_fin k m : exec (local_fin_code (id (fst m)) k) m = then_code local_fin k m.
Proof. run_code. Qed.

Lemma exec_local_reset k m : exec (local_reset_code (id (fst m)) k) m = then_code local_reset k m.
Proof. run_code. Qed.

Lemma exec_on_user_drop k m : exec (on_user_drop_code (id (fst m)) k) m = then_code on_user_drop k m.
Proof. run_code. Qed.

Lemma bind_run {A B} (x : M (W := W) (C := C) A) (k : A → M (W := W) (C := C) B) m : (x ≫= k) m = k (fst (x m)) (snd (x m)).
Proof. done. Qed.

(** The part of the delivery after the payload. *)
Lemma exec_deliver_finish (fin rst : bool) m :
  let reset := if rst then remote_reset_code (id (fst m)) (Ret (Ok ())) else Ret (Ok ()) in
  exec (if fin then remote_fin_code reset else reset) m =
    (when fin remote_fin;; when rst remote_reset;; mret (Ok ())) m.
Proof. destruct fin, rst; run_code. Qed.

Lemma exec_deliver flags p m :
  exec (deliver_code (id (fst m)) flags p) m = deliver_data flags p m.
Proof.
  assert (∀ m', id (fst m') = id (fst m) →
    exec (let reset := if contains flags Flags.RST then remote_reset_code (id (fst m)) (Ret (Ok ())) else Ret (Ok ()) in
          if contains flags Flags.FIN then remote_fin_code reset else reset) m' =
    (when (contains flags Flags.FIN) remote_fin;; when (contains flags Flags.RST) remote_reset;;
     mret (Ok ())) m') as Hfin by (intros m' <-; apply exec_deliver_finish).
  unfold deliver_code, deliver_data. cbv zeta in *.
  set (finish := if contains flags Flags.FIN then _ else _) in *.
  set (refuse := local_reset_code _ _).
  assert (∀ m', id (fst m') = id (fst m) →
    exec (if bool_decide (p = []) then finish
          else If LoadReadOpen (If LoadReset refuse (push_data_code p finish)) refuse) m' =
    (if bool_decide (p = []) then
       when (contains flags Flags.FIN) remote_fin;; when (contains flags Flags.RST) remote_reset;; mret (Ok ())
     else can ← get can_recv;
       if negb can then local_reset;; mret (Err (Error.Protocol "data after FIN"))
       else push_data p;; when (contains flags Flags.FIN) remote_fin;;
            when (contains flags Flags.RST) remote_reset;; mret (Ok ())) m') as Hbody.
  { intros m' Hm. destruct (bool_decide (p = [])) eqn:Hp; [by apply Hfin|].
    assert (exec refuse m' = (local_reset;; mret (Err (Error.Protocol "data after FIN"))) m') as Href
      by (unfold refuse; rewrite <- Hm; apply exec_local_reset).
    destruct m' as [s l]. cbn [exec]. rewrite !bind_run. cbn [do_test get fst snd].
    unfold can_recv. destruct (StreamState.read_open (state s)); cbn [andb negb]; [|exact Href].
    rewrite bind_run. cbn [get fst snd].
    destruct (StreamState.is_reset (state s)); cbn [andb negb]; [exact Href|].
    rewrite exec_push_data. unfold then_code. rewrite !bind_run. apply Hfin. rewrite <- Hm. unfold push_data. rewrite Hp. done. }
  unfold when at 1. destruct (contains flags Flags.ACK).
  - rewrite exec_mark_acked. unfold then_code. rewrite !bind_run. apply Hbody. by destruct m.
  - by apply Hbody.
Qed.

Lemma orun_wait_acked cx m :
  orun cx 7 OAck1 m = (ODone (fst (wait_acked cx m)), snd (wait_acked cx m)).
Proof.
  destruct m as [[? ? [ro wo rs] ? ? ? ? ar ? ?] l]. unfold wait_acked, mbind, M_bind, ack_status.
  destruct ar; [done|]. destruct rs; [done|]. by destruct wo.
Qed.

Lemma rrun_done cx n r buf m : rrun cx n (RDone r) buf m = ((RDone r, buf), m).
Proof. induction n as [|n IH]; [done|]. cbn. unfold mbind, M_bind. cbn. apply IH. Qed.

Lemma rrun_poll_read cx buf m :
  stream_wf (fst m) →
  ∃ r buf' m', poll_read cx buf m = ((Some r, buf'), m') ∧
    rrun cx 7 (rstart buf) buf m = ((RDone r, buf'), m').
Proof.
  destruct m as [s l]. intros Hwf. cbn in Hwf. unfold poll_read, rstart.
  destruct (Nat.eqb_spec (ReadBuf.remaining buf) 0) as [|Hnz].
  { do 3 eexists. split; [done|]. apply rrun_done. }
  destruct (poll_read_loop_total 1 cx buf s l Hwf Hnz ltac:(lia)) as [-> _].
  pose proof Hwf as (_ & _ & _ & _ & Hb).
  destruct (RecvBuffer.read_into_spec (recv s) buf Hb) as (r' & E & Hc & _).
  unfold poll_read_turn. cbn [rrun rstep]. run_m.
  destruct (StreamState.is_reset (state s)) eqn:Hreset;
    [do 3 eexists; split; [done|]; apply (rrun_done cx 6)|].
  cbn [rrun rstep]. run_m. rewrite E. cbn [fst snd].
  destruct (0 <? _)%nat eqn:Hn.
  - cbn [rrun rstep]. run_m. destruct (fst (RecvWindow.on_consume _ _)) as [d|];
      (do 3 eexists; split; [done|]).
    + cbn [rrun rstep]. run_m. apply (rrun_done cx 3).
    + apply (rrun_done cx 4).
  - cbn [rrun rstep]. run_m. cbn.
    destruct (StreamState.read_open (state s)) eqn:Ho; cbn;
      [|do 3 eexists; split; [done|]; apply (rrun_done cx 4)].
    assert (RecvBuffer.is_empty r' = true) as He.
    { apply RecvBuffer.is_empty_contents. rewrite Hc. apply Nat.ltb_ge in Hn.
      cbn in Hn. destruct (RecvBuffer.contents (recv s)); [by rewrite drop_nil|].
      cbn in Hn. lia. }
    rewrite He. do 3 eexists. split; [cbn; rewrite Ho, Hreset; done|].
    do 2 (run_m; cbn). rewrite He. do 2 (run_m; cbn). rewrite Ho. do 2 (run_m; cbn). by rewrite Hreset.
Qed.

(** The access-level code is the sequential operations: run without
    interference, the accesses of the reader's delivery, of [grant],
    [force_close], [local_fin], [local_reset] and [on_user_drop] lead to the
    stream, the queued frames and the wake-ups of the operations, [wait_acked]
    returns after at most seven accesses and [poll_read] likewise, with the
    result, the bytes and the state the operations give. *)
Lemma stream_code_equivalence cx flags p d buf m :
  stream_wf (fst m) →
  let i := id (fst m) in
  let done (op : M unit) (c : code → code) := exec (c (Ret (Ok ()))) m = (Ok (), snd (op m)) in
  exec (deliver_code i flags p) m = deliver_data flags p m ∧
  done (grant_send_credit d) (grant_code d) ∧
  done force_close force_close_code ∧
  done local_fin (local_fin_code i) ∧
  done local_reset (local_reset_code i) ∧
  done on_user_drop (on_user_drop_code i) ∧
  orun cx 7 OAck1 m = (ODone (fst (wait_acked cx m)), snd (wait_acked cx m)) ∧
  ∃ r buf' m', poll_read cx buf m = ((Some r, buf'), m') ∧
    rrun cx 7 (rstart buf) buf m = ((RDone r, buf'), m').
Proof.
  intros Hwf i done. subst i done. cbv beta.
  rewrite exec_deliver, exec_grant, exec_force_close, exec_local_fin, exec_local_reset,
    exec_on_user_drop, orun_wait_acked.
  split_and!; try reflexivity. by apply rrun_poll_read.
Qed.

End StreamCode.
