(* ===== verification/StreamConc.v ===== *)
(** * A stream under concurrency ([src/stream/inner.rs])

    One task polls the stream ([poll_read], or [wait_acked] while it is being
    opened) and any number of others run the loop-free operations on it: the
    session's reader delivering frames, a shutdown, the user's reset, FIN and
    drop.  A step is one atomic access ([StreamCode]).  The writer's credit
    machine is [SendWindowConc], and [WriterConc] has [poll_write] among these
    operations. *)

From S2P Require Import Prelude Machine Interleaving Errors Config Ids Frames Crates Window StreamState.
From S2P Require Import RecvBuffer StreamInner StreamFacts StreamInv Session Reader StreamCode.
From Stdlib Require Import ZArith Lia.

Local Open Scope Z_scope.

(** What other tasks may call on the stream [i]. *)
Inductive session_call {BF : BitflagsOps} (i : StreamId) : code → Prop :=
| Call_deliver flags p : session_call i (deliver_code i flags p)
| Call_grant d : session_call i (grant_code d (Ret (Ok ())))
| Call_force_close : session_call i (force_close_code (Ret (Ok ()))).

Inductive stream_call {BF : BitflagsOps} (i : StreamId) : code → Prop :=
| Call_session c : session_call i c → stream_call i c
| Call_fin : stream_call i (local_fin_code i (Ret (Ok ())))
| Call_reset : stream_call i (local_reset_code i (Ret (Ok ())))
| Call_drop : stream_call i (on_user_drop_code i (Ret (Ok ()))).

(** ** The machine *)

Section Machine.
Context {BF : BitflagsOps}.
Context {W : Type} {AW : AtomicWakerOps W}.
Context {C : Type → Type} {CH : UnboundedChannelOps C}.
Abbreviation mem := (StreamInner W * Links C)%type.
Context {P A : Type}.
Variable pstep : P → mem → P * mem.       (* an access of the polling task *)
Variable pdone : P → bool.                (* its poll has returned *)
Variable pnext : A → P → P.               (* it is polled again, with an argument *)
Variable calls : code → Prop.

(** [since] is the length of the log of wake-ups when the poll began; [pushed]
    collects the bytes put into the receive buffer. *)
Record conf : Type := mk_conf {
  memory : mem;
  poller : P;
  since : nat;
  others : list code;
  pushed : list byte;
}.

Definition payload_of (c : code) : list byte :=
  match c with Do (Push p) _ => p | _ => [] end.

Inductive conf_step : conf → conf → Prop :=
| Poll_access m m' p p' n ts bs :
    pdone p = false → pstep p m = (p', m') →
    conf_step (mk_conf m p n ts bs) (mk_conf m' p' n ts bs)
| Poll_start m p a n ts bs :
    pdone p = true →
    conf_step (mk_conf m p n ts bs) (mk_conf m (pnext a p) (length (woken (snd m))) ts bs)
| Other_access m m' p n ts bs i c c' :
    ts !! i = Some c → code_step c m = (c', m') →
    conf_step (mk_conf m p n ts bs) (mk_conf m' p n (<[i := c']> ts) (bs ++ payload_of c))
| Other_call m p n ts bs i r c :
    ts !! i = Some (Ret r) → calls c →
    conf_step (mk_conf m p n ts bs) (mk_conf m p n (<[i := c]> ts) bs).

(** The task with waker [k] has been woken since its poll began. *)
Definition notified (k : Waker) (c : conf) : Prop := k ∈ drop (since c) (woken (snd (memory c))).

#[global] Instance notified_dec k c : Decision (notified k c).
Proof. unfold notified. apply _. Defined.

(** Executable schedules. *)
Inductive move : Type := MPoll | MStart (a : A) | MOther (i : nat) | MCall (i : nat) (c : code).

Definition do_move (a : move) (c : conf) : conf :=
  let '(mk_conf m p n ts bs) := c in
  match a with
  | MPoll => let '(p', m') := pstep p m in mk_conf m' p' n ts bs
  | MStart a => mk_conf m (pnext a p) (length (woken (snd m))) ts bs
  | MOther i =>
    match ts !! i with
    | Some c => let '(c', m') := code_step c m in mk_conf m' p n (<[i := c']> ts) (bs ++ payload_of c)
    | None => mk_conf m p n ts bs
    end
  | MCall i c => mk_conf m p n (<[i := c]> ts) bs
  end.

Definition move_ok (a : move) (c : conf) : bool :=
  match a with
  | MPoll => negb (pdone (poller c))
  | MStart _ => pdone (poller c)
  | MOther i => match others c !! i with Some _ => true | None => false end
  | MCall i _ => match others c !! i with Some (Ret _) => true | _ => false end
  end.

Fixpoint moves_ok (l : list move) (c : conf) : bool :=
  match l with [] => true | a :: l' => move_ok a c && moves_ok l' (do_move a c) end.

Definition call_ok (a : move) : Prop := match a with MCall _ c => calls c | _ => True end.

Lemma do_move_step a c : move_ok a c = true → call_ok a → conf_step c (do_move a c).
Proof.
  destruct c as [m p n ts bs], a; cbn.
  - intros ?%negb_true_iff _. destruct (pstep p m) eqn:E. by apply Poll_access.
  - intros. by apply Poll_start.
  - destruct (ts !! i) as [c|] eqn:Hc; [|done]. intros. destruct (code_step c m) eqn:E.
    by eapply Other_access.
  - destruct (ts !! i) as [[r| |]|] eqn:Hc; try done. intros. by eapply Other_call.
Qed.

Lemma moves_reach l c :
  moves_ok l c = true → Forall call_ok l → rtc conf_step c (foldl (λ c a, do_move a c) c l).
Proof.
  revert c. induction l as [|a l IH]; intros c; cbn; [done|].
  intros [H1 H2]%andb_prop [H3 H4]%Forall_cons_1.
  eapply rtc_l; [by apply do_move_step|auto].
Qed.

End Machine.

Arguments conf W C P : clear implicits.
Arguments mk_conf {W C P}.
Arguments memory {W C P}.
Arguments poller {W C P}.
Arguments since {W C P}.
Arguments others {W C P}.
Arguments pushed {W C P}.
Arguments move : clear implicits.
Arguments MPoll {A}.
Arguments MStart {A}.
Arguments MOther {A}.
Arguments MCall {A}.

(** ** Wake-ups in the code *)

(** The two waker slots a poll can park in. *)
Inductive slot_kind : Type := RecvSlot | AckSlot.

Definition wake_of (k : slot_kind) : access :=
  match k with RecvSlot => WakeRecv | AckSlot => WakeAck end.

Definition is_wake (k : slot_kind) (a : access) : bool :=
  match k, a with RecvSlot, WakeRecv | AckSlot, WakeAck => true | _, _ => false end.

(** Every path from here wakes the slot. *)
Fixpoint will_wake (k : slot_kind) (c : code) : bool :=
  match c with
  | Ret _ => false
  | Do a c' => is_wake k a || will_wake k c'
  | If _ yes no => will_wake k yes && will_wake k no
  end.

(** Whatever makes a parked reader ready is followed by a wake-up; a store that
    closes the read half without one happens only after the reset bit was set
    ([rs]). *)
Fixpoint recv_ok (rs : bool) (c : code) : bool :=
  match c with
  | Ret _ => true
  | Do a k =>
    recv_ok rs k &&
    match a with Push _ => will_wake RecvSlot k | StoreReadOpen => rs | _ => true end
  | If SwapReset yes no => recv_ok true yes && recv_ok true no && will_wake RecvSlot no
  | If SwapReadOpen yes no =>
    recv_ok rs yes && recv_ok rs no && will_wake RecvSlot yes && will_wake RecvSlot no
  | If _ yes no => recv_ok rs yes && recv_ok rs no
  end.

(** The same for a parked opener. *)
Fixpoint ack_ok (rs : bool) (c : code) : bool :=
  match c with
  | Ret _ => true
  | Do a k =>
    ack_ok rs k &&
    match a with StoreAck => will_wake AckSlot k | StoreWriteOpen => rs | _ => true end
  | If SwapReset yes no => ack_ok true yes && ack_ok true no && will_wake AckSlot no
  | If SwapWriteOpen yes no =>
    ack_ok rs yes && ack_ok rs no && will_wake AckSlot yes && will_wake AckSlot no
  | If _ yes no => ack_ok rs yes && ack_ok rs no
  end.

Lemma recv_ok_reset rs c : recv_ok rs c = true → recv_ok true c = true.
Proof.
  induction c as [|a k IH|t y IHy n IHn]; cbn; [done| |].
  - rewrite !andb_true_iff. intros [? ?]. destruct a; naive_solver.
  - destruct t; rewrite ?andb_true_iff; naive_solver.
Qed.

Lemma ack_ok_reset rs c : ack_ok rs c = true → ack_ok true c = true.
Proof.
  induction c as [|a k IH|t y IHy n IHn]; cbn; [done| |].
  - rewrite !andb_true_iff. intros [? ?]. destruct a; naive_solver.
  - destruct t; rewrite ?andb_true_iff; naive_solver.
Qed.

Section Calls.
Context {BF : BitflagsOps}.

Lemma stream_call_recv_ok i c : stream_call i c → recv_ok false c = true.
Proof.
  intros [c' [flags p|d|]| | |]; try reflexivity.
  - unfold deliver_code, push_data_code.
    destruct (contains flags Flags.ACK), (contains flags Flags.FIN), (contains flags Flags.RST),
      (bool_decide (p = [])); reflexivity.
  - unfold grant_code. by destruct (d =? 0).
Qed.

Lemma session_call_ack_ok i c : session_call i c → ack_ok false c = true.
Proof.
  intros [flags p|d|]; try reflexivity.
  - unfold deliver_code, push_data_code.
    destruct (contains flags Flags.ACK), (contains flags Flags.FIN), (contains flags Flags.RST),
      (bool_decide (p = [])); reflexivity.
  - unfold grant_code. by destruct (d =? 0).
Qed.

End Calls.

(** ** What one access of another task does to a parked poll *)

Section Steps.
Context {BF : BitflagsOps}.
Context {W : Type} {AW : AtomicWakerOps W}.
Context {C : Type → Type} {CH : UnboundedChannelOps C}.
Implicit Types (s : StreamInner W) (l : Links C).

Definition slot (k : slot_kind) (s : StreamInner W) : W :=
  match k with RecvSlot => recv_waker s | AckSlot => ack_waker s end.

(** An access either wakes the slot, or leaves it alone and keeps the promise of
    a wake-up. *)
Lemma code_step_slot k c s l c' s' l' :
  code_step c (s, l) = (c', (s', l')) →
  (woken l' = woken l ++ option_list (registered (slot k s)) ∧ c = Do (wake_of k) c') ∨
  (slot k s' = slot k s ∧ woken l `prefix_of` woken l' ∧
   (will_wake k c = true → will_wake k c' = true)).
Proof.
  destruct c as [r|a c0|t y n]; cbn [code_step].
  - intros [= <- <- <-]. right. done.
  - destruct k, a; cbn; rewrite ?wake_wakes; intros [= <- <- <-]; cbn; auto;
      right; split_and!; try done; by apply prefix_app_r.
  - intros H. right. destruct t; cbn in H; injection H as <- <- <-; destruct k; cbn;
      split_and!; try done; rewrite andb_true_iff; case_match; naive_solver.
Qed.

Abbreviation bytes_in s := (RecvBuffer.contents (recv s)).
Abbreviation read_open s := (StreamState.read_open (state s)).
Abbreviation write_open s := (StreamState.write_open (state s)).
Abbreviation is_reset s := (StreamState.is_reset (state s)).

(** An access that makes a parked reader ready is followed by a wake-up. *)
Lemma code_step_recv c s l c' s' l' :
  code_step c (s, l) = (c', (s', l')) → recv_ok (is_reset s) c = true →
  recv_ok (is_reset s') c' = true ∧ (is_reset s = true → is_reset s' = true) ∧
  (read_open s' = true → read_open s = true) ∧
  bytes_in s' = bytes_in s ++ payload_of c ∧
  (will_wake RecvSlot c' = true ∨
   bytes_in s' = bytes_in s ∧ is_reset s' = is_reset s ∧
   (is_reset s = false → read_open s' = read_open s)).
Proof.
  destruct c as [r|a c0|t y n]; cbn [code_step recv_ok payload_of].
  - intros [= <- <- <-] _. rewrite app_nil_r. split_and!; auto.
  - rewrite andb_true_iff. intros H [Hok Ha]. destruct a; cbn in H; injection H as <- <- <-; cbn;
      rewrite ?app_nil_r, ?RecvBuffer.push_contents; split_and!; auto; [done|].
    unfold StreamState.is_reset in *. right. split_and!; auto. congruence.
  - intros H Hok. destruct t; cbn in H; injection H as <- <- <-; cbn;
      rewrite ?app_nil_r; rewrite ?andb_true_iff in Hok; destruct_and?;
      unfold StreamState.is_reset in *; cbn in *; (split_and!; try done);
      try (case_match; by auto).
Qed.

(** The same for a parked opener. *)
Lemma code_step_ack c s l c' s' l' :
  code_step c (s, l) = (c', (s', l')) → ack_ok (is_reset s) c = true →
  ack_ok (is_reset s') c' = true ∧ (is_reset s = true → is_reset s' = true) ∧
  (will_wake AckSlot c' = true ∨
   ack_received s' = ack_received s ∧ is_reset s' = is_reset s ∧
   (is_reset s = false → write_open s' = write_open s)).
Proof.
  destruct c as [r|a c0|t y n]; cbn [code_step ack_ok].
  - intros [= <- <- <-] _. split_and!; auto.
  - rewrite andb_true_iff. intros H [Hok Ha]. destruct a; cbn in H; injection H as <- <- <-; cbn;
      split_and!; auto.
    unfold StreamState.is_reset in *. right. split_and!; auto. congruence.
  - intros H Hok. destruct t; cbn in H; injection H as <- <- <-; cbn;
      rewrite ?andb_true_iff in Hok; destruct_and?;
      unfold StreamState.is_reset in *; cbn in *; (split_and!; try done);
      try (case_match; by auto).
Qed.

(** Another task that is about to wake the slot. *)
Definition waking (k : slot_kind) (ts : list code) : Prop := Exists (λ c, will_wake k c = true) ts.

(** The waker of a task stays in the slot until it is woken, and a wake-up that
    was on its way still is, or has happened. *)
Lemma waking_step k (me : Waker) n i c c' s l s' l' ts :
  ts !! i = Some c → code_step c (s, l) = (c', (s', l')) →
  (n ≤ length (woken l))%nat →
  (n ≤ length (woken l'))%nat ∧
  ((me ∉ drop n (woken l')) →
   (me ∉ drop n (woken l)) ∧
   (registered (slot k s) = Some me → registered (slot k s') = Some me ∧
      (waking k ts → waking k (<[i := c']> ts)))).
Proof.
  intros Hi Hc Hn. destruct (code_step_slot k c s l c' s' l' Hc) as [[Hw ->]|(Hs & [x Hw] & Hp)].
  - rewrite Hw, drop_app_le, length_app, elem_of_app by done. split; [lia|].
    intros Hno. split; [naive_solver|]. intros Hr. rewrite Hr in Hno. cbn in Hno. set_solver.
  - rewrite Hw, drop_app_le, length_app, elem_of_app by done. split; [lia|].
    intros Hno. split; [naive_solver|]. rewrite Hs. intros Hr. split; [done|].
    intros Hex. destruct (will_wake k c) eqn:Hwc.
    + eapply Exists_insert_here; eauto.
    + eapply Exists_insert_other; [done| |done]. congruence.
Qed.

Lemma waking_here k i c c' ts : ts !! i = Some c → will_wake k c' = true → waking k (<[i := c']> ts).
Proof. intros. by eapply Exists_insert_here. Qed.

End Steps.

(** ** The reader *)

Section ReaderTask.
Context {BF : BitflagsOps}.
Context {W : Type} {AW : AtomicWakerOps W}.
Context {C : Type → Type} {CH : UnboundedChannelOps C}.
Variable me : Waker.            (* the reading task *)
Variable i : StreamId.

(** The state of the reading task: the poll it is in and its buffer, and the
    bytes earlier polls gave it. *)
Record reader : Type := mk_reader { r_pc : rpc; r_buf : ReadBuf.t; r_got : list byte }.

Definition reader_step (p : reader) (m : StreamInner W * Links C) : reader * (StreamInner W * Links C) :=
  let '((pc, buf), m') := rstep me (r_pc p) (r_buf p) m in (mk_reader pc buf (r_got p), m').

Definition reader_done (p : reader) : bool := match r_pc p with RDone _ => true | _ => false end.

(** The next poll, with an empty buffer of [room] bytes. *)
Definition reader_next (room : nat) (p : reader) : reader :=
  mk_reader (rstart (ReadBuf.mk [] room)) (ReadBuf.mk [] room) (r_got p ++ ReadBuf.filled (r_buf p)).

Abbreviation rconf := (conf W C reader).
Definition read_step : rconf → rconf → Prop :=
  conf_step reader_step reader_done reader_next (stream_call i).

(** Channels that are open and empty, nobody woken yet. *)
Definition fresh_links (l : Links C) : Prop :=
  rx_alive (out_ch l) = true ∧ queued (out_ch l) = [] ∧ woken l = [].

(** A fresh stream, a task that has not read yet and [k] idle tasks. *)
Definition read_init (origin : Origin) (config : Config.t) (l : Links C) (k : nat) : rconf :=
  mk_conf (new i origin config, l) (mk_reader (RDone (Ready (Ok ()))) (ReadBuf.mk [] 0) []) 0
    (replicate k (Ret (Ok ()))) [].

Definition read_reachable origin config l k : rconf → Prop := rtc read_step (read_init origin config l k).

#[global] Instance rpc_drain_dec p : Decision (p = RDrain).
Proof. destruct p; (by left) || (by right). Defined.

(** The reader's poll has registered ... *)
Definition r_registered (p : rpc) : bool :=
  match p with RRecheckEmpty | RRecheckOpen | RRecheckReset | RDone PollPending => true | _ => false end.
(** ... has then found the buffer empty ... *)
Definition r_saw_empty (p : rpc) : bool :=
  match p with RRecheckOpen | RRecheckReset | RDone PollPending => true | _ => false end.
(** ... and the read half open. *)
Definition r_saw_open (p : rpc) : bool :=
  match p with RRecheckReset | RDone PollPending => true | _ => false end.

Definition read_wake_inv (c : rconf) : Prop :=
  let '(s, l) := memory c in
  let pc := r_pc (poller c) in
  (since c ≤ length (woken l))%nat ∧
  Forall (λ t, recv_ok (StreamState.is_reset (state s)) t = true) (others c) ∧
  (¬ notified me c →
   (r_registered pc = true → registered (recv_waker s) = Some me) ∧
   (r_saw_empty pc = true → RecvBuffer.contents (recv s) ≠ [] → waking RecvSlot (others c)) ∧
   (r_saw_open pc = true → StreamState.is_reset (state s) = false →
      StreamState.read_open (state s) = false → waking RecvSlot (others c)) ∧
   (pc = RDone PollPending → StreamState.is_reset (state s) = true → waking RecvSlot (others c))).

(** The critical section that drains the queue. *)
Lemma rstep_drain buf s (l : Links C) :
  ∃ n buf' r', rstep me RDrain buf (s, l) =
      ((if (0 <? n)%nat then RConsume n else ROpen, buf'), (set_recv r' s, l)) ∧
    (RecvBuffer.wf (recv s) → RecvBuffer.wf r' ∧
       ∃ bs, ReadBuf.filled buf' = ReadBuf.filled buf ++ bs ∧ length bs = n ∧
         RecvBuffer.contents (recv s) = bs ++ RecvBuffer.contents r').
Proof.
  cbn [rstep]. run_m. destruct (RecvBuffer.read_into (recv s) buf) as [[[n buf'] r']|] eqn:E.
  - exists n, buf', r'. split; [done|]. intros Hwf.
    destruct (RecvBuffer.read_into_spec (recv s) buf Hwf) as (r1 & E1 & Hc & Hr1).
    rewrite E in E1. cbn in E1. injection E1 as -> -> ->. split; [done|].
    eexists. split; [done|]. rewrite length_take, Hc, take_drop. split; [lia|done].
  - exists 0%nat, buf, (recv s). split; [by destruct s|]. intros Hwf. split; [done|].
    exists []. by rewrite app_nil_r.
Qed.

Lemma read_wake_poll p p' (m m' : StreamInner W * Links C) n ts bs :
  reader_done p = false → reader_step p m = (p', m') →
  read_wake_inv (mk_conf m p n ts bs) → read_wake_inv (mk_conf m' p' n ts bs).
Proof.
  destruct m as [s l], p as [pc buf g]. unfold reader_step. intros Hd Hs Hinv. revert Hs.
  destruct (decide (pc = RDrain)) as [->|Hnd].
  { destruct (rstep_drain buf s l) as (k & buf' & r' & E & _). cbn [r_pc r_buf]. rewrite E.
    intros [= <- <-]. unfold read_wake_inv, notified in *. cbn in *. destruct Hinv as (? & ? & _).
    split_and!; [done|done|]. intros _. by destruct k; cbn; split_and!. }
  destruct pc; try done; cbn [r_pc r_buf r_got rstep]; run_m; cbn;
    repeat (case_match; cbn); intros [= <- <-]; unfold read_wake_inv, notified in *; cbn in *;
    destruct Hinv as (Hn & Hok & Hinv); (split_and!; [exact Hn|exact Hok|]);
    intros Hno; destruct (Hinv Hno) as (H1 & H2 & H3 & H4); autorewrite with crates;
    rewrite ?negb_true_iff, ?negb_false_iff in *; split_and!; try done; try (by auto); try congruence.
  all: intros _ Hb; by destruct Hb; apply RecvBuffer.is_empty_contents.
Qed.

Lemma read_wake_other (m m' : StreamInner W * Links C) p n ts bs bs' j c c' :
  ts !! j = Some c → code_step c m = (c', m') →
  read_wake_inv (mk_conf m p n ts bs) → read_wake_inv (mk_conf m' p n (<[j := c']> ts) bs').
Proof.
  destruct m as [s l], m' as [s' l']. unfold read_wake_inv, notified. cbn.
  intros Hj Hc (Hn & Hok & Hinv).
  pose proof (Forall_lookup_1 _ _ _ _ Hok Hj) as Hcok. cbn in Hcok.
  destruct (waking_step RecvSlot me n j c c' s l s' l' ts Hj Hc Hn) as (Hn' & Hw).
  destruct (code_step_recv c s l c' s' l' Hc Hcok) as (Hcok' & Hrs & Hro & _ & Heff).
  split_and!; [done| |].
  { apply Forall_insert; [|done]. eapply Forall_impl; [exact Hok|]. cbn. intros t Ht.
    destruct (StreamState.is_reset (state s)) eqn:E; [by rewrite Hrs|].
    destruct (StreamState.is_reset (state s')); [by eapply recv_ok_reset|done]. }
  intros Hno. destruct (Hw Hno) as (Hno0 & Hreg). destruct (Hinv Hno0) as (H1 & H2 & H3 & H4).
  assert (r_registered (r_pc p) = true →
    registered (recv_waker s') = Some me ∧
    (waking RecvSlot ts → waking RecvSlot (<[j:=c']> ts))) as Hkeep by (intros; by apply Hreg, H1).
  assert (∀ b, (b = true → r_registered (r_pc p) = true) →
    (b = true → will_wake RecvSlot c' = true → waking RecvSlot (<[j:=c']> ts)) ∧
    (b = true → waking RecvSlot ts → waking RecvSlot (<[j:=c']> ts))) as Hb.
  { intros b Hbr. split; intros Hbt; [intros; by eapply waking_here|by apply Hkeep, Hbr]. }
  destruct (Hb (r_saw_empty (r_pc p))) as [E1 E2]; [by destruct (r_pc p)|].
  destruct (Hb (r_saw_open (r_pc p))) as [O1 O2]; [by destruct (r_pc p)|].
  split_and!.
  - intros. by apply Hkeep.
  - intros Hp Hne. destruct Heff as [?|(Eb & _)]; [by apply E1|]. rewrite Eb in Hne. auto.
  - intros Hp Hr Hclosed. destruct Heff as [?|(_ & Er & Eo)]; [by apply O1|].
    rewrite Er in Hr. rewrite Eo in Hclosed by done. auto.
  - intros Hp Hr. rewrite Hp in O1, O2. destruct Heff as [?|(_ & Er & _)]; [by apply O1|].
    rewrite Er in Hr. auto.
Qed.

Lemma read_wake_step c c' : read_step c c' → read_wake_inv c → read_wake_inv c'.
Proof.
  intros [m m' p p' n ts bs Hd Hs|m p room n ts bs Hd|m m' p n ts bs j t t' Hj Ht
         |m p n ts bs j r t Hj Ht] Hinv.
  - by eapply read_wake_poll.
  - destruct m as [s l]. unfold read_wake_inv in *. cbn in *. destruct Hinv as (_ & Hok & _).
    split_and!; [done|done|]. intros _. unfold rstart. cbn. case_match; cbn; split_and!; done.
  - by eapply read_wake_other.
  - destruct m as [s l]. unfold read_wake_inv in *. cbn in *. destruct Hinv as (Hn & Hok & Hinv).
    assert (waking RecvSlot ts → waking RecvSlot (<[j:=t]> ts)) as Hk
      by (intros; eapply Exists_insert_other; done).
    split_and!; [done| |].
    + apply Forall_insert; [done|]. apply stream_call_recv_ok in Ht.
      destruct (StreamState.is_reset (state s)); [by eapply recv_ok_reset|done].
    + intros Hno. destruct (Hinv Hno) as (H1 & H2 & H3 & H4). naive_solver.
Qed.

(** ** The bytes *)

Definition got (c : rconf) : list byte := r_got (poller c) ++ ReadBuf.filled (r_buf (poller c)).

(** The poll returned without bytes although there was room: end of stream. *)
Definition at_eof (p : reader) : Prop :=
  r_pc p = RDone (Ready (Ok ())) ∧ ReadBuf.filled (r_buf p) = [] ∧ ReadBuf.remaining (r_buf p) ≠ 0%nat.

Definition read_bytes_inv (c : rconf) : Prop :=
  let s := fst (memory c) in
  RecvBuffer.wf (recv s) ∧
  Forall (λ t, recv_ok (StreamState.is_reset (state s)) t = true) (others c) ∧
  pushed c = got c ++ RecvBuffer.contents (recv s) ∧
  (∀ n, r_pc (poller c) = RConsume n → ReadBuf.filled (r_buf (poller c)) ≠ []) ∧
  (∀ d, r_pc (poller c) = RUpdate d → ReadBuf.filled (r_buf (poller c)) ≠ []) ∧
  (at_eof (poller c) → StreamState.read_open (state s) = false).

Lemma read_bytes_poll p p' (m m' : StreamInner W * Links C) n ts bs :
  reader_done p = false → reader_step p m = (p', m') →
  read_bytes_inv (mk_conf m p n ts bs) → read_bytes_inv (mk_conf m' p' n ts bs).
Proof.
  destruct m as [s l], p as [pc buf g]. unfold reader_step. intros Hd Hs Hinv. revert Hs.
  destruct (decide (pc = RDrain)) as [->|Hnd].
  { destruct (rstep_drain buf s l) as (k & buf' & r' & E & Hb). cbn [r_pc r_buf]. rewrite E.
    intros [= <- <-]. unfold read_bytes_inv, got, at_eof in *. cbn in *.
    destruct Hinv as (Hwf & Hok & Hp & _ & _ & He). destruct (Hb Hwf) as (Hwf' & x & Hf & Hl & Hc).
    split_and!; try done.
    - by rewrite Hp, Hf, Hc, <- !app_assoc.
    - intros n' Hn. destruct k; [done|]. rewrite Hf. destruct x; [done|]. by destruct (ReadBuf.filled buf).
    - by destruct k.
    - by destruct k; intros []. }
  destruct pc; try done; cbn [r_pc r_buf r_got rstep]; run_m; cbn;
    repeat (case_match; cbn); intros [= <- <-]; unfold read_bytes_inv, got, at_eof in *; cbn in *;
    destruct Hinv as (Hwf & Hok & Hp & Hc & Hu & He); rewrite ?negb_true_iff in *;
    (split_and!; [exact Hwf|exact Hok|exact Hp|done|first [done|intros ? _; exact (Hc _ eq_refl)]|]);
    intros (Hpc & Hf & _); try done.
  - by destruct (Hc _ eq_refl).
  - by destruct (Hu _ eq_refl).
Qed.

Lemma read_bytes_other (m m' : StreamInner W * Links C) p n ts bs j c c' :
  ts !! j = Some c → code_step c m = (c', m') →
  read_bytes_inv (mk_conf m p n ts bs) →
  read_bytes_inv (mk_conf m' p n (<[j := c']> ts) (bs ++ payload_of c)).
Proof.
  destruct m as [s l], m' as [s' l']. unfold read_bytes_inv, got. cbn.
  intros Hj Hc (Hwf & Hok & Hp & H1 & H2 & H3).
  pose proof (Forall_lookup_1 _ _ _ _ Hok Hj) as Hcok. cbn in Hcok.
  destruct (code_step_recv c s l c' s' l' Hc Hcok) as (Hcok' & Hrs & Hro & Hbytes & _).
  split_and!; try done.
  - destruct c as [|a ?|t ? ?]; cbn in Hc; [|destruct a|destruct t]; cbn in Hc; injection Hc as <- <- <-;
      try done; by apply RecvBuffer.push_wf.
  - apply Forall_insert; [|done]. eapply Forall_impl; [exact Hok|]. cbn. intros t Ht.
    destruct (StreamState.is_reset (state s)) eqn:E; [by rewrite Hrs|].
    destruct (StreamState.is_reset (state s')); [by eapply recv_ok_reset|done].
  - by rewrite Hp, Hbytes, !app_assoc.
  - intros He. destruct (StreamState.read_open (state s')); [|done].
    by rewrite Hro in H3 by done; apply H3.
Qed.

Lemma read_bytes_step c c' : read_step c c' → read_bytes_inv c → read_bytes_inv c'.
Proof.
  intros [m m' p p' n ts bs Hd Hs|m p room n ts bs Hd|m m' p n ts bs j t t' Hj Ht
         |m p n ts bs j r t Hj Ht] Hinv.
  - by eapply read_bytes_poll.
  - unfold read_bytes_inv, got, at_eof in *. cbn in *. destruct Hinv as (? & ? & Hp & _).
    unfold rstart. cbn. rewrite app_nil_r. split_and!; try done; try (by case_match).
    destruct (Nat.eqb_spec room 0); cbn; intros (? & ? & ?); [done|congruence].
  - by eapply read_bytes_other.
  - unfold read_bytes_inv in *. cbn in *. destruct Hinv as (? & Hok & ?). split_and!; try naive_solver.
    apply Forall_insert; [done|]. apply stream_call_recv_ok in Ht.
    destruct (StreamState.is_reset (state (fst m))); [by eapply recv_ok_reset|done].
Qed.

Lemma read_reachable_inv origin config l k c :
  fresh_links l → read_reachable origin config l k c → read_wake_inv c ∧ read_bytes_inv c.
Proof.
  intros Hl Hr. assert (read_wake_inv (read_init origin config l k) ∧
    read_bytes_inv (read_init origin config l k)) as H0.
  { unfold read_wake_inv, read_bytes_inv, at_eof. cbn. split_and!; try done; try lia.
    - by apply Forall_replicate.
    - by constructor.
    - by apply Forall_replicate. }
  induction Hr as [|c1 c2 c3 Hs _ IH]; [done|]. apply IH. destruct H0.
  split; [by eapply read_wake_step|by eapply read_bytes_step].
Qed.

Definition idle (ts : list code) : Prop := Forall (λ t, ∃ r, t = Ret r) ts.

Lemma idle_not_waking k ts : idle ts → ¬ waking k ts.
Proof.
  intros H. apply Exists_none. eapply Forall_impl; [exact H|]. by intros t [r ->].
Qed.

(** C12: No lost wake-up for readers: under every interleaving of the accesses of
    [poll_read] with those of any other operations on the stream, when the poll
    returned [Pending] and there are bytes, the read half is closed or the
    stream is reset, the reading task has been woken since or another task is on
    its way to wake it.  So a reader that was not woken, once the others are
    idle, waits on a stream that is open and empty. *)
Theorem reader_no_lost_wakeup origin config l k c :
  fresh_links l → read_reachable origin config l k c → r_pc (poller c) = RDone PollPending →
  let s := fst (memory c) in
  (RecvBuffer.contents (recv s) ≠ [] ∨ StreamState.read_open (state s) = false ∨
     StreamState.is_reset (state s) = true →
   notified me c ∨ waking RecvSlot (others c)) ∧
  (idle (others c) → ¬ notified me c →
   RecvBuffer.contents (recv s) = [] ∧ StreamState.read_open (state s) = true ∧
   StreamState.is_reset (state s) = false).
Proof.
  intros Hl Hr Hp s. destruct (read_reachable_inv origin config l k c Hl Hr) as [Hw _].
  unfold read_wake_inv in Hw. destruct c as [[s0 l0] p n ts bs]. cbn in *. subst s.
  destruct Hw as (_ & _ & Hw). rewrite Hp in Hw. cbn in Hw.
  set (c := mk_conf (s0, l0) p n ts bs) in *.
  assert (RecvBuffer.contents (recv s0) ≠ [] ∨ StreamState.read_open (state s0) = false ∨
    StreamState.is_reset (state s0) = true → notified me c ∨ waking RecvSlot ts) as Hgoal.
  { intros Hready. destruct (decide (notified me c)) as [|Hno]; [by left|]. right.
    destruct (Hw Hno) as (_ & H2 & H3 & H4).
    destruct (StreamState.is_reset (state s0)); naive_solver. }
  split; [done|]. intros Hidle Hno. apply (idle_not_waking RecvSlot) in Hidle.
  destruct (decide (RecvBuffer.contents (recv s0) = [])); [|naive_solver].
  destruct (StreamState.read_open (state s0)), (StreamState.is_reset (state s0)); naive_solver.
Qed.

(** C14: Reading is a FIFO under every interleaving: the bytes the reading task
    has been given, followed by those still buffered, are exactly the bytes the
    other tasks pushed, in the order they were pushed; and end of stream is
    reported only once the read half is closed.  It may then be reported with bytes
    still buffered: [poll_read_eof_race]. *)
Theorem reader_bytes_fifo origin config l k c :
  fresh_links l → read_reachable origin config l k c →
  pushed c = got c ++ RecvBuffer.contents (recv (fst (memory c))) ∧
  (at_eof (poller c) → StreamState.read_open (state (fst (memory c))) = false).
Proof.
  intros Hl Hr. destruct (read_reachable_inv origin config l k c Hl Hr) as [_ (_ & _ & Hp & _ & _ & He)].
  done.
Qed.

End ReaderTask.

(** ** The opener *)

Section OpenerTask.
Context {BF : BitflagsOps}.
Context {W : Type} {AW : AtomicWakerOps W}.
Context {C : Type → Type} {CH : UnboundedChannelOps C}.
Variable me : Waker.            (* the task in [Session::open] *)
Variable i : StreamId.

Abbreviation oconf := (conf W C opc).

Definition opener_done (p : opc) : bool := match p with ODone _ => true | _ => false end.

(** The stream has no handle yet, so only the session acts on it. *)
Definition wait_step : oconf → oconf → Prop :=
  conf_step (ostep me) opener_done (λ (_ : unit) _, OAck1) (session_call i).

Definition wait_init (config : Config.t) (l : Links C) (k : nat) : oconf :=
  mk_conf (new i Local config, l) OAck1 0 (replicate k (Ret (Ok ()))) [].

Definition wait_reachable config l k : oconf → Prop := rtc wait_step (wait_init config l k).

(** The poll has registered, has then found no ACK, and no reset. *)
Definition o_registered (p : opc) : bool :=
  match p with OAck2 | OReset2 | OOpen2 | ODone PollPending => true | _ => false end.
Definition o_saw_unacked (p : opc) : bool :=
  match p with OReset2 | OOpen2 | ODone PollPending => true | _ => false end.
Definition o_saw_unreset (p : opc) : bool :=
  match p with OOpen2 | ODone PollPending => true | _ => false end.

Definition wait_wake_inv (c : oconf) : Prop :=
  let '(s, l) := memory c in
  (since c ≤ length (woken l))%nat ∧
  Forall (λ t, ack_ok (StreamState.is_reset (state s)) t = true) (others c) ∧
  (¬ notified me c →
   (o_registered (poller c) = true → registered (ack_waker s) = Some me) ∧
   (o_saw_unacked (poller c) = true → ack_received s = true → waking AckSlot (others c)) ∧
   (o_saw_unreset (poller c) = true → StreamState.is_reset (state s) = true →
      waking AckSlot (others c)) ∧
   (poller c = ODone PollPending → StreamState.is_reset (state s) = false →
      StreamState.write_open (state s) = false → waking AckSlot (others c))).

Lemma wait_wake_poll p p' (m m' : StreamInner W * Links C) n ts bs :
  opener_done p = false → ostep me p m = (p', m') →
  wait_wake_inv (mk_conf m p n ts bs) → wait_wake_inv (mk_conf m' p' n ts bs).
Proof.
  destruct m as [s l]. intros Hd Hs Hinv. revert Hs.
  destruct p; try done; cbn [ostep]; run_m; cbn; repeat (case_match; cbn); intros [= <- <-];
    unfold wait_wake_inv, notified in *; cbn in *;
    destruct Hinv as (Hn & Hok & Hinv); (split_and!; [exact Hn|exact Hok|]);
    intros Hno; destruct (Hinv Hno) as (H1 & H2 & H3 & H4); autorewrite with crates;
    rewrite ?negb_true_iff, ?negb_false_iff in *; split_and!; try done; try (by auto); congruence.
Qed.

Lemma wait_wake_other (m m' : StreamInner W * Links C) p n ts bs bs' j c c' :
  ts !! j = Some c → code_step c m = (c', m') →
  wait_wake_inv (mk_conf m p n ts bs) → wait_wake_inv (mk_conf m' p n (<[j := c']> ts) bs').
Proof.
  destruct m as [s l], m' as [s' l']. unfold wait_wake_inv, notified. cbn.
  intros Hj Hc (Hn & Hok & Hinv).
  pose proof (Forall_lookup_1 _ _ _ _ Hok Hj) as Hcok. cbn in Hcok.
  destruct (waking_step AckSlot me n j c c' s l s' l' ts Hj Hc Hn) as (Hn' & Hw).
  destruct (code_step_ack c s l c' s' l' Hc Hcok) as (Hcok' & Hrs & Heff).
  split_and!; [done| |].
  { apply Forall_insert; [|done]. eapply Forall_impl; [exact Hok|]. cbn. intros t Ht.
    destruct (StreamState.is_reset (state s)) eqn:E; [by rewrite Hrs|].
    destruct (StreamState.is_reset (state s')); [by eapply ack_ok_reset|done]. }
  intros Hno. destruct (Hw Hno) as (Hno0 & Hreg). destruct (Hinv Hno0) as (H1 & H2 & H3 & H4).
  assert (o_registered p = true → registered (ack_waker s') = Some me ∧
    (waking AckSlot ts → waking AckSlot (<[j:=c']> ts))) as Hkeep by (intros; by apply Hreg, H1).
  assert (o_registered p = true → will_wake AckSlot c' = true ∨ waking AckSlot ts →
    waking AckSlot (<[j:=c']> ts)) as Hgo.
  { intros Hp [?|?]; [by eapply waking_here|by apply Hkeep]. }
  split_and!.
  - intros. by apply Hkeep.
  - intros Hp Ha. apply Hgo; [by destruct p as [| | | | | | |[]]|].
    destruct Heff as [?|(Ea & _)]; [by left|]. rewrite Ea in Ha. auto.
  - intros Hp Hr. apply Hgo; [by destruct p as [| | | | | | |[]]|].
    destruct Heff as [?|(_ & Er & _)]; [by left|]. rewrite Er in Hr. auto.
  - intros Hp Hr Hclosed. apply Hgo; [by rewrite Hp|].
    destruct Heff as [?|(_ & Er & Eo)]; [by left|]. rewrite Er in Hr. rewrite Eo in Hclosed by done. auto.
Qed.

Lemma wait_wake_step c c' : wait_step c c' → wait_wake_inv c → wait_wake_inv c'.
Proof.
  intros [m m' p p' n ts bs Hd Hs|m p a n ts bs Hd|m m' p n ts bs j t t' Hj Ht
         |m p n ts bs j r t Hj Ht] Hinv.
  - by eapply wait_wake_poll.
  - destruct m as [s l]. unfold wait_wake_inv in *. cbn in *. destruct Hinv as (_ & Hok & _). done.
  - by eapply wait_wake_other.
  - destruct m as [s l]. unfold wait_wake_inv in *. cbn in *. destruct Hinv as (Hn & Hok & Hinv).
    assert (waking AckSlot ts → waking AckSlot (<[j:=t]> ts)) as Hk
      by (intros; eapply Exists_insert_other; done).
    split_and!; [done| |].
    + apply Forall_insert; [done|]. apply session_call_ack_ok in Ht.
      destruct (StreamState.is_reset (state s)); [by eapply ack_ok_reset|done].
    + intros Hno. destruct (Hinv Hno) as (H1 & H2 & H3 & H4). naive_solver.
Qed.

(** C28: No lost wake-up for [open]: under every interleaving of the accesses of
    [wait_acked] with frames delivered by the session's reader and with a
    shutdown, an opener whose poll returned [Pending] while the stream has been
    acknowledged, reset or closed has been woken since, or is about to be; with
    the other tasks idle an opener that was not woken really has to wait. *)
Theorem opener_no_lost_wakeup config l k c :
  wait_reachable config l k c → poller c = ODone PollPending →
  let s := fst (memory c) in
  (ack_received s = true ∨ StreamState.is_reset (state s) = true ∨
     StreamState.write_open (state s) = false →
   notified me c ∨ waking AckSlot (others c)) ∧
  (idle (others c) → ¬ notified me c → ack_status s = PollPending).
Proof.
  intros Hr Hp s.
  assert (wait_wake_inv c) as Hw.
  { clear Hp s. assert (wait_wake_inv (wait_init config l k)) as H0.
    { unfold wait_wake_inv. cbn. split_and!; try done; [lia|]. by apply Forall_replicate. }
    induction Hr as [|c1 c2 c3 Hs _ IH]; [done|]. by eapply IH, wait_wake_step. }
  unfold wait_wake_inv in Hw. destruct c as [[s0 l0] p n ts bs]. cbn in *. subst p s.
  destruct Hw as (_ & _ & Hw). cbn in Hw. set (c := mk_conf (s0, l0) _ n ts bs) in *.
  assert (ack_received s0 = true ∨ StreamState.is_reset (state s0) = true ∨
    StreamState.write_open (state s0) = false → notified me c ∨ waking AckSlot ts) as Hgoal.
  { intros Hready. destruct (decide (notified me c)) as [|Hno]; [by left|]. right.
    destruct (Hw Hno) as (_ & H2 & H3 & H4).
    destruct (StreamState.is_reset (state s0)); naive_solver. }
  split; [done|]. intros Hidle Hno. apply (idle_not_waking AckSlot) in Hidle. unfold ack_status.
  destruct (ack_received s0); [naive_solver|].
  destruct (StreamState.is_reset (state s0)); [naive_solver|].
  destruct (StreamState.write_open (state s0)); naive_solver.
Qed.

End OpenerTask.

(** ** FIN and RST are sent once *)

(** A frame that ends the outbound half. *)
Definition terminal (f : Frame.t) : bool :=
  match f with
  | Frame.Data _ flags _ => bool_decide (flags = Flags.FIN) || bool_decide (flags = Flags.RST)
  | _ => false
  end.

(** Frames are sent only by the task that set [fin_sent] first, right after. *)
Fixpoint fin_ok (c : code) : bool :=
  match c with
  | Ret _ => true
  | Do (SendOut _) _ => false
  | Do _ k => fin_ok k
  | If SwapFinSent yes no =>
    fin_ok yes && match no with Do (SendOut _) k => fin_ok k | _ => false end
  | If _ yes no => fin_ok yes && fin_ok no
  end.

(** ... which is about to send. *)
Definition announcing (c : code) : bool :=
  match c with Do (SendOut _) k => fin_ok k | _ => false end.

Definition announcers (ts : list code) : nat := length (filter (λ c, announcing c = true) ts).

Lemma announcers_insert ts j c c' :
  ts !! j = Some c →
  (announcers (<[j := c']> ts) + Nat.b2n (announcing c) =
   announcers ts + Nat.b2n (announcing c'))%nat.
Proof.
  unfold announcers. revert j. induction ts as [|t ts IH]; intros j Hj; [done|].
  destruct j as [|j]; cbn in Hj.
  - injection Hj as ->. change (<[0%nat := c']> (c :: ts)) with (c' :: ts). rewrite !filter_cons.
    destruct (announcing c), (announcing c'); simpl; lia.
  - specialize (IH j Hj). change (<[S j := c']> (t :: ts)) with (t :: <[j := c']> ts).
    rewrite !filter_cons. destruct (announcing t); simpl; lia.
Qed.

Section Terminal.
Context {BF : BitflagsOps}.
Context {W : Type} {AW : AtomicWakerOps W}.
Context {C : Type → Type} {CH : UnboundedChannelOps C}.
Variable me : Waker.
Variable i : StreamId.

Definition terminals (l : Links C) : nat := length (filter (λ f, terminal f = true) (queued (out_ch l))).

Lemma stream_call_fin_ok c : stream_call i c → fin_ok c = true.
Proof.
  intros [c' [flags p|d|]| | |]; try reflexivity.
  - unfold deliver_code, push_data_code.
    destruct (contains flags Flags.ACK), (contains flags Flags.FIN), (contains flags Flags.RST),
      (bool_decide (p = [])); reflexivity.
  - unfold grant_code. by destruct (d =? 0).
Qed.

Lemma terminals_send f l :
  (length (filter (λ f, terminal f = true) (queued (snd (chan_send f (out_ch l))))) ≤
   terminals l + Nat.b2n (terminal f))%nat.
Proof.
  unfold terminals. rewrite queued_send. destruct (rx_alive _); [|lia]. rewrite filter_app, length_app.
  rewrite filter_cons, filter_nil. destruct (terminal f); simpl; lia.
Qed.

Lemma fin_ok_not_announcing c : fin_ok c = true → announcing c = false.
Proof. by destruct c as [|[]|]. Qed.

(** One access pays for the frame it queues with the flag it sets. *)
Lemma code_step_fin c (s s' : StreamInner W) (l l' : Links C) c' :
  code_step c (s, l) = (c', (s', l')) → fin_ok c || announcing c = true →
  fin_ok c' || announcing c' = true ∧
  (terminals l' + Nat.b2n (announcing c') + Nat.b2n (fin_sent s) ≤
   terminals l + Nat.b2n (announcing c) + Nat.b2n (fin_sent s'))%nat.
Proof.
  destruct c as [r|a k|t y n]; cbn [code_step].
  - intros [= <- <- <-] _. cbn. split; [done|lia].
  - destruct a; cbn; rewrite ?orb_false_r; intros [= <- <- <-] Hk; rewrite ?Hk; cbn;
      rewrite ?(fin_ok_not_announcing _ Hk); unfold terminals; cbn; (split; [done|]); try lia.
    unfold mbind, M_bind. cbn. pose proof (terminals_send f l) as Ht. unfold terminals in Ht.
    assert (Nat.b2n (terminal f) ≤ 1)%nat by (destruct (terminal f); cbn; lia).
    lia.
  - intros H Hok. cbn in Hok. rewrite orb_false_r in Hok.
    destruct t; cbn in H; injection H as <- <- <-; apply andb_prop in Hok as [Hy Hn];
      unfold terminals; cbn; try (case_match; rewrite ?Hy, ?Hn, ?fin_ok_not_announcing by done; cbn;
        (split; [done|lia])).
    destruct (fin_sent s); cbn.
    + rewrite Hy, fin_ok_not_announcing by done. cbn. split; [done|lia].
    + destruct n as [|[] k|]; try done. cbn in *. rewrite Hn. cbn. split; [done|lia].
Qed.

Definition fin_inv (c : conf W C reader) : Prop :=
  let '(s, l) := memory c in
  Forall (λ t, fin_ok t || announcing t = true) (others c) ∧
  (terminals l + announcers (others c) ≤ Nat.b2n (fin_sent s))%nat.

(** The reading task sends window updates only. *)
Lemma fin_inv_poll p p' (m m' : StreamInner W * Links C) n ts bs :
  reader_step me p m = (p', m') →
  fin_inv (mk_conf m p n ts bs) → fin_inv (mk_conf m' p' n ts bs).
Proof.
  destruct m as [s l], p as [pc buf g]. unfold reader_step. intros Hs Hinv. revert Hs.
  destruct (decide (pc = RDrain)) as [->|Hnd].
  { destruct (rstep_drain me buf s l) as (k & buf' & r' & E & _). cbn [r_pc r_buf]. rewrite E.
    by intros [= <- <-]. }
  destruct pc; try done; cbn [r_pc r_buf r_got rstep]; run_m; cbn;
    repeat (case_match; cbn); intros [= <- <-]; unfold fin_inv in *; cbn in *; try exact Hinv.
  destruct Hinv as [Hok Hle]. split; [done|].
  pose proof (terminals_send (Frame.window_update (id s) delta) l) as Ht. cbn in Ht.
  unfold terminals in *. cbn. lia.
Qed.

Lemma fin_inv_step c c' : read_step me i c c' → fin_inv c → fin_inv c'.
Proof.
  intros [m m' p p' n ts bs Hd Hs|m p room n ts bs Hd|m m' p n ts bs j t t' Hj Ht
         |m p n ts bs j r t Hj Ht] Hinv.
  - by eapply fin_inv_poll.
  - exact Hinv.
  - destruct m as [s l], m' as [s' l']. unfold fin_inv in *. cbn [memory others] in *.
    destruct Hinv as [Hok Hle]. pose proof (Forall_lookup_1 _ _ _ _ Hok Hj) as Htok. cbv beta in Htok.
    destruct (code_step_fin t s s' l l' t' Ht Htok) as [Hok' Hpay].
    split; [by apply Forall_insert|]. pose proof (announcers_insert ts j t t' Hj). lia.
  - destruct m as [s l]. unfold fin_inv in *. cbn [memory others] in *. destruct Hinv as [Hok Hle].
    pose proof (stream_call_fin_ok t Ht) as Hf. pose proof (fin_ok_not_announcing t Hf) as Ha.
    pose proof (announcers_insert ts j _ t Hj) as Hn. rewrite Ha in Hn. cbn [announcing Nat.b2n] in Hn.
    split; [|lia]. apply Forall_insert; [done|]. by rewrite Hf.
Qed.

(** C17: A stream ends its outbound half once: however the accesses of FINs,
    resets, drops, refused deliveries, peer resets and shutdowns interleave,
    at most one FIN or RST frame is ever queued, and none before [fin_sent] is
    set. *)
Theorem stream_terminates_once origin config l k c :
  fresh_links l → read_reachable me i origin config l k c →
  (length (filter (λ f, terminal f = true) (queued (out_ch (snd (memory c))))) ≤
   if fin_sent (fst (memory c)) then 1 else 0)%nat.
Proof.
  intros (_ & Hq & _) Hr. assert (fin_inv c) as Hinv.
  { assert (fin_inv (read_init i origin config l k)) as H0.
    { unfold fin_inv. cbn. split; [by apply Forall_replicate|].
      unfold terminals, announcers. rewrite Hq. cbn.
      assert (∀ n, filter (λ c, announcing c = true) (replicate n (Ret (Ok ()))) = []) as ->; [|done].
      intros n. induction n; [done|]. cbn [replicate]. by rewrite filter_cons. }
    induction Hr as [|c1 c2 c3 Hs _ IH]; [done|]. by eapply IH, fin_inv_step. }
  unfold fin_inv in Hinv. destruct c as [[s0 l0] p n ts bs]. cbn in *. destruct Hinv as [_ Hle].
  unfold terminals in Hle. destruct (fin_sent s0); cbn in Hle; lia.
Qed.

End Terminal.

(** ** Schedules *)

Section Schedules.

#[local] Existing Instance documented_bitflags.

Abbreviation rconf0 := (conf (option Waker) list_chan reader).
Abbreviation oconf0 := (conf (option Waker) list_chan opc).

Lemma links0_fresh : fresh_links links0.
Proof. done. Qed.

(** The reader of stream 1 is task 7; one other task. *)
Definition rplay (l : list (move nat)) : rconf0 :=
  foldl (λ c a, do_move (reader_step 7) reader_next a c) (read_init 1 Remote cfg8 links0 1) l.

Lemma rplay_reachable l :
  moves_ok (reader_step 7) reader_done reader_next l (read_init 1 Remote cfg8 links0 1) = true →
  Forall (call_ok (stream_call 1)) l →
  read_reachable 7 1 Remote cfg8 links0 1 (rplay l).
Proof. apply moves_reach. Qed.

(** Task 0 delivers a frame, in [n] accesses. *)
Definition rdeliver {A} (flags : Flags.t) (p : Bytes) (n : nat) : list (move A) :=
  MCall 0 (deliver_code 1 flags p) :: replicate n (MOther 0).

Ltac calls :=
  repeat (apply Forall_cons_2; [first [exact I|apply Call_session, Call_deliver|apply Call_deliver
    |apply Call_reset|apply Call_fin]|]); apply Forall_nil_2.

(** The poll finds the queue empty; payload and FIN arrive; the poll finds the
    read half closed. *)
Definition eof_race : list (move nat) :=
  MStart 16%nat :: MPoll :: MPoll :: rdeliver Flags.empty msg 4 ++ rdeliver Flags.FIN [] 2 ++ [MPoll].

Definition reset_race : list (move nat) :=
  MStart 16%nat :: MPoll :: MPoll :: rdeliver Flags.RST [] 8 ++ [MPoll].

(** [poll_read] can report end of stream while bytes are waiting.  When the
    last payload and the FIN arrive between the poll's look into the queue and
    its test of the read half, the poll returns no bytes and no error, which is
    end of stream for the caller, although everything the peer sent is in the
    buffer and nothing was reset. *)
Theorem poll_read_eof_race :
  ∃ c : rconf0, read_reachable 7 1 Remote cfg8 links0 1 c ∧
    at_eof (poller c) ∧ idle (others c) ∧ pushed c = msg ∧ got c = [] ∧
    RecvBuffer.contents (recv (fst (memory c))) = msg ∧
    StreamState.is_reset (state (fst (memory c))) = false.
Proof.
  exists (rplay eof_race). split; [apply rplay_reachable; [vm_compute; reflexivity|calls]|].
  split_and!; try (vm_compute; reflexivity).
  - vm_compute. split_and!; done.
  - repeat constructor. by eexists.
Qed.

(** [poll_read] can report end of stream on a reset stream.  When the peer's
    RST arrives between the poll's test of the reset bit and its test of the
    read half, the poll returns end of stream without an error, although the
    stream is reset and the peer never finished it. *)
Theorem poll_read_hides_reset :
  ∃ c : rconf0, read_reachable 7 1 Remote cfg8 links0 1 c ∧
    at_eof (poller c) ∧ idle (others c) ∧ StreamState.is_reset (state (fst (memory c))) = true.
Proof.
  exists (rplay reset_race). split; [apply rplay_reachable; [vm_compute; reflexivity|calls]|].
  split_and!; try (vm_compute; reflexivity).
  - vm_compute. split_and!; done.
  - repeat constructor. by eexists.
Qed.

(** The reader parks; the payload is pushed, the wake-up is still to come. *)
Definition parked_then_push : list (move nat) :=
  MStart 16%nat :: replicate 7 MPoll ++ rdeliver Flags.empty msg 3.

Lemma reader_no_lost_wakeup_witness :
  let c := rplay parked_then_push in
  RecvBuffer.contents (recv (fst (memory c))) = msg ∧ ¬ notified 7 c ∧
  (notified 7 c ∨ waking RecvSlot (others c)).
Proof.
  intros c. split_and!; [vm_compute; reflexivity|vm_compute; intros H; inversion H|].
  apply (reader_no_lost_wakeup 7 1 Remote cfg8 links0 1 c links0_fresh);
    [apply rplay_reachable; [vm_compute; reflexivity|calls]|vm_compute; reflexivity|].
  left. vm_compute. discriminate.
Defined.

(** Two bytes of six are read while the rest stays buffered. *)
Definition read_two : list (move nat) :=
  rdeliver Flags.empty msg 4 ++ MStart 2%nat :: replicate 3 MPoll.

Lemma reader_bytes_fifo_witness :
  let c := rplay read_two in
  got c = take 2 msg ∧ pushed c = got c ++ RecvBuffer.contents (recv (fst (memory c))).
Proof.
  intros c. split; [vm_compute; reflexivity|].
  apply (reader_bytes_fifo 7 1 Remote cfg8 links0 1 c links0_fresh).
  apply rplay_reachable; [vm_compute; reflexivity|calls].
Defined.

(** The opener of stream 1 is task 7. *)
Definition oplay (l : list (move unit)) : oconf0 :=
  foldl (λ c a, do_move (ostep 7) (λ _ _, OAck1) a c) (wait_init 1 cfg8 links0 1) l.

(** The opener parks; the ACK is stored, the wake-up is still to come. *)
Definition parked_then_ack : list (move unit) := replicate 7 MPoll ++ rdeliver Flags.ACK [] 1.

Lemma opener_no_lost_wakeup_witness :
  let c := oplay parked_then_ack in
  ack_received (fst (memory c)) = true ∧ (notified 7 c ∨ waking AckSlot (others c)).
Proof.
  intros c. split; [vm_compute; reflexivity|].
  apply (opener_no_lost_wakeup 7 1 cfg8 links0 1 c); [|vm_compute; reflexivity|left; vm_compute; reflexivity].
  apply (moves_reach _ opener_done _ (session_call 1)); [vm_compute; reflexivity|calls].
Defined.

(** A FIN and a reset race for [fin_sent]: the FIN closes the write half, the
    reset sets the flag first. *)
Definition fin_vs_reset : list (move nat) :=
  [MCall 0 (local_fin_code 1 (Ret (Ok ()))); MCall 1 (local_reset_code 1 (Ret (Ok ())));
   MOther 0; MOther 0; MOther 1; MOther 1; MOther 1; MOther 1; MOther 0; MOther 1].

Definition rplay2 (l : list (move nat)) : rconf0 :=
  foldl (λ c a, do_move (reader_step 7) reader_next a c) (read_init 1 Remote cfg8 links0 2) l.

Lemma stream_terminates_once_witness :
  let c := rplay2 fin_vs_reset in
  queued (out_ch (snd (memory c))) = [Frame.rst 1] ∧
  (length (filter (λ f, terminal f = true) (queued (out_ch (snd (memory c))))) ≤ 1)%nat.
Proof.
  intros c. split; [vm_compute; reflexivity|].
  apply (stream_terminates_once 7 1 Remote cfg8 links0 2 c links0_fresh).
  apply moves_reach; [vm_compute; reflexivity|calls].
Defined.

End Schedules.
