(* ===== verification/FlowControl.v ===== *)
(** * End-to-end flow control

    Two endpoints of one stream, built from the stream operations the crate
    runs on each side, and the two ordered wires between their sessions.  The
    users write, read and shut down; the readers of the two sessions deliver
    frames in order.  Nobody resets the stream or closes the session. *)

From S2P Require Import Prelude Machine Errors Config Ids Frames Crates Window StreamState.
From S2P Require Import RecvBuffer StreamInner StreamFacts StreamInv Session Reader.
From Stdlib Require Import ZArith Lia.

Local Open Scope Z_scope.

(** The payload bytes and the window credit carried by a wire. *)
Definition payloads (w : list Frame.t) : list byte := concat (Frame.payload <$> w).
Definition delta_of (f : Frame.t) : Z :=
  match f with Frame.WindowUpdate _ _ d => d | _ => 0 end.
Definition deltas (w : list Frame.t) : Z := foldr (λ f acc, delta_of f + acc) 0 w.

Lemma payloads_app w1 w2 : payloads (w1 ++ w2) = payloads w1 ++ payloads w2.
Proof. unfold payloads. by rewrite fmap_app, concat_app. Qed.
Lemma deltas_app w1 w2 : deltas (w1 ++ w2) = deltas w1 + deltas w2.
Proof. unfold deltas. induction w1; simpl; lia. Qed.

(** A frame stream [i] sends while it is not reset. *)
Definition live_frame (i : StreamId) (f : Frame.t) : Prop :=
  match f with
  | Frame.Data j fl p => j = i ∧ (fl = Flags.empty ∨ fl = Flags.FIN ∧ p = [])
  | Frame.WindowUpdate j _ d => j = i ∧ 0 ≤ d
  | _ => False
  end.

Lemma deltas_nonneg i w : Forall (live_frame i) w → 0 ≤ deltas w.
Proof.
  induction 1 as [|f w Hf _ IH]; simpl; [done|]. destruct f; simpl in *; try lia; destruct Hf; lia.
Qed.

Section FlowControl.
Context {BF : BitflagsOps}.
Context {W : Type} {AW : AtomicWakerOps W}.
Context {C : Type → Type} {CH : UnboundedChannelOps C}.

(** One end: the stream, and what its user wrote to it and read from it. *)
Record endpoint : Type := mk_end {
  stream : StreamInner W;
  written : list byte;
  got : list byte;
}.

(** Both ends; [outw] carries the frames of [here], [inw] those of [there]. *)
Record net : Type := mk_net {
  here : endpoint;
  there : endpoint;
  outw : list Frame.t;
  inw : list Frame.t;
}.

Definition flip (n : net) : net := mk_net (there n) (here n) (inw n) (outw n).

(** What the session's reader does with a frame for an open stream. *)
Definition deliver (f : Frame.t) : M (W := W) (C := C) (MuxResult unit) :=
  match f with
  | Frame.Data _ flags payload => deliver_data flags payload
  | Frame.WindowUpdate _ _ delta => grant_send_credit delta;; mret (Ok ())
  | _ => mret (Ok ())
  end.

(** One move at this end.  [l] is the state of the session's channels, whose
    receivers are alive; [fs] are the frames the operation queued. *)
Inductive move : net → net → Prop :=
| Move_write cx buf s wr gt e o i l r s' l' fs :
    rx_alive (out_ch l) = true →
    poll_write cx buf (s, l) = (r, (s', l')) →
    queued (out_ch l') = queued (out_ch l) ++ fs →
    move (mk_net (mk_end s wr gt) e o i)
      (mk_net (mk_end s' (wr ++ match r with Ready (Ok n) => take n buf | _ => [] end) gt) e
        (o ++ fs) i)
| Move_read cx room s wr gt e o i l r buf' s' l' fs :
    rx_alive (out_ch l) = true →
    poll_read cx (ReadBuf.mk [] room) (s, l) = ((r, buf'), (s', l')) →
    queued (out_ch l') = queued (out_ch l) ++ fs →
    move (mk_net (mk_end s wr gt) e o i)
      (mk_net (mk_end s' wr (gt ++ ReadBuf.filled buf')) e (o ++ fs) i)
| Move_shutdown s wr gt e o i l u s' l' fs :
    rx_alive (out_ch l) = true →
    local_fin (s, l) = (u, (s', l')) →
    queued (out_ch l') = queued (out_ch l) ++ fs →
    move (mk_net (mk_end s wr gt) e o i) (mk_net (mk_end s' wr gt) e (o ++ fs) i)
| Move_deliver f s wr gt e o i l r s' l' fs :
    rx_alive (out_ch l) = true →
    deliver f (s, l) = (r, (s', l')) →
    queued (out_ch l') = queued (out_ch l) ++ fs →
    move (mk_net (mk_end s wr gt) e o (f :: i)) (mk_net (mk_end s' wr gt) e (o ++ fs) i).

(** Either end moves. *)
Inductive net_step : net → net → Prop :=
| Step_here n n' : move n n' → net_step n n'
| Step_there n n' : move (flip n) (flip n') → net_step n n'.

(** The stream [i] just opened between sessions with the given
    configurations. *)
Definition opened (i : StreamId) (cfg_a cfg_b : Config.t) : net :=
  mk_net (mk_end (new i Local cfg_a) [] []) (mk_end (new i Remote cfg_b) [] []) [] [].

(** ** The invariant of one end and of one direction *)

Definition is_fin (f : Frame.t) : Prop := ∃ i, f = Frame.fin i.

Definition end_inv (i : StreamId) (I : Z) (e : endpoint) : Prop :=
  let s := stream e in
  stream_inv i (config s) s ∧ 1 ≤ Config.max_frame_size (config s) ∧
  StreamState.is_reset (state s) = false ∧ SendWindow.closed (send_window s) = false ∧
  RecvWindow.initial (recv_window s) = I ∧ RecvWindow.wf (recv_window s).

(** Bytes from [a] to [b] over [w]; credit back over [v]. *)
Definition direction (I : Z) (a b : endpoint) (w v : list Frame.t) : Prop :=
  let buffered := RecvBuffer.contents (recv (stream b)) in
  written a = got b ++ buffered ++ payloads w ∧
  SendWindow.available (send_window (stream a)) + Z.of_nat (length (payloads w)) +
    Z.of_nat (length buffered) + RecvWindow.pending_credit (recv_window (stream b)) +
    deltas v = I ∧
  (StreamState.write_open (state (stream a)) = true →
     Forall (λ f, ¬ is_fin f) w ∧ StreamState.read_open (state (stream b)) = true) ∧
  (StreamState.read_open (state (stream b)) = false → payloads w = []) ∧
  (∀ w1 f w2, w = w1 ++ f :: w2 → is_fin f → payloads w2 = []).

Definition net_inv (i : StreamId) (I : Z) (n : net) : Prop :=
  end_inv i I (here n) ∧ end_inv i I (there n) ∧
  Forall (live_frame i) (outw n) ∧ Forall (live_frame i) (inw n) ∧
  direction I (here n) (there n) (outw n) (inw n) ∧
  direction I (there n) (here n) (inw n) (outw n).

Lemma net_inv_flip i I n : net_inv i I n ↔ net_inv i I (flip n).
Proof. unfold net_inv. destruct n; simpl. tauto. Qed.

(** ** Delivery *)

Lemma deliver_payload p s l :
  can_recv s = true → deliver_data Flags.empty p (s, l) = (Ok (), snd (push_data p (s, l))).
Proof.
  intros Hc. unfold deliver_data. rewrite !contains_spec.
  change (Z.land _ (Flags.bits Flags.ACK) =? _) with false.
  change (Z.land _ (Flags.bits Flags.FIN) =? _) with false.
  change (Z.land _ (Flags.bits Flags.RST) =? _) with false.
  unfold when, mbind, M_bind, mret, M_ret, get.
  cbn [fst snd]. destruct (bool_decide (p = [])) eqn:Hp; cbn [fst snd].
  - unfold push_data. by rewrite Hp.
  - by rewrite Hc.
Qed.

Lemma deliver_fin s l : deliver_data Flags.FIN [] (s, l) = (Ok (), snd (remote_fin (s, l))).
Proof. unfold deliver_data. rewrite !contains_spec. reflexivity. Qed.

(** What [poll_read] leaves alone. *)
Lemma poll_read_frame cx buf s l :
  stream_wf s →
  let s' := fst (snd (poll_read cx buf (s, l))) in
  id s' = id s ∧ config s' = config s ∧ state s' = state s ∧ send_window s' = send_window s.
Proof.
  intros Hwf. unfold poll_read. destruct (Nat.eqb_spec (ReadBuf.remaining buf) 0) as [|Hnz]; [done|].
  destruct (poll_read_loop_total 1 cx buf s l Hwf Hnz ltac:(lia)) as [-> _].
  destruct (poll_read_turn_spec cx buf s l Hwf Hnz) as (r' & _ & _ & ->).
  by destruct (StreamState.is_reset (state s)), (bool_decide (RecvBuffer.contents (recv s) = [])),
    (StreamState.read_open (state s)).
Qed.

(** Appending to a wire keeps the order of FIN and payload. *)
Lemma fin_order_snoc w f :
  (∀ w1 g w2, w = w1 ++ g :: w2 → is_fin g → payloads w2 = []) →
  (Forall (λ g, ¬ is_fin g) w ∨ Frame.payload f = []) →
  ∀ w1 g w2, w ++ [f] = w1 ++ g :: w2 → is_fin g → payloads w2 = [].
Proof.
  intros Hw Hf w1 g w2 Heq Hg. destruct w2 as [|x w2 _] using rev_ind; [done|].
  rewrite app_comm_cons, app_assoc in Heq. apply app_inj_tail in Heq as [-> ->].
  rewrite payloads_app. rewrite (Hw w1 g w2 eq_refl Hg).
  destruct Hf as [Hf|Hf]; [|unfold payloads; cbn; by rewrite Hf].
  apply Forall_app in Hf as [_ Hf]. by inversion Hf.
Qed.

(** ** The effect of each move on this end *)

(** What an operation changes besides the window, the buffer and the state. *)
Definition same_shape (s s' : StreamInner W) : Prop :=
  id s' = id s ∧ config s' = config s ∧
  SendWindow.closed (send_window s') = SendWindow.closed (send_window s).

Lemma write_effect cx buf s l r s' l' fs :
  stream_wf s → 1 ≤ Config.max_frame_size (config s) → rx_alive (out_ch l) = true →
  poll_write cx buf (s, l) = (r, (s', l')) → queued (out_ch l') = queued (out_ch l) ++ fs →
  let p := match r with Ready (Ok n) => take n buf | _ => [] end in
  same_shape s s' ∧ state s' = state s ∧ recv s' = recv s ∧ recv_window s' = recv_window s ∧
  SendWindow.available (send_window s') + Z.of_nat (length p) =
    SendWindow.available (send_window s) ∧
  (fs = [] ∧ p = [] ∨
   fs = [Frame.data (id s) Flags.empty p] ∧ StreamState.write_open (state s) = true).
Proof.
  intros Hwf Hmax Hrx. rewrite poll_write_spec, Hrx by done. pose proof Hwf as (_ & _ & [Ha1 Ha2] & _).
  intros He Hq p. subst p. unfold same_shape.
  assert (∀ r' : PollIo nat, (r', (s, l)) = (r, (s', l')) → fs = [] ∧ s' = s ∧ r' = r) as Hquiet.
  { intros r' [= -> -> ->]. split_and!; try done.
    apply (app_inv_head (queued (out_ch l'))). by rewrite app_nil_r. }
  revert He. destruct (StreamState.is_reset (state s));
    [intros (-> & -> & <-)%Hquiet; split_and!; try done; try (simpl; lia); by left|].
  destruct (StreamState.write_open (state s)) eqn:Ho; cbn [negb];
    [|intros (-> & -> & <-)%Hquiet; split_and!; try done; try (simpl; lia); by left].
  case_bool_decide as Hb;
    [intros (-> & -> & <-)%Hquiet; split_and!; try done; try (simpl; lia); by left|].
  destruct (SendWindow.closed (send_window s)) eqn:Hc;
    [intros (-> & -> & <-)%Hquiet; split_and!; try done; try (simpl; lia); by left|].
  destruct (Z.eqb_spec (SendWindow.available (send_window s)) 0) as [Hz|Hnz].
  - intros [= <- <- <-]. cbn. split_and!; try done. left.
    split; [|done]. apply (app_inv_head (queued (out_ch l))). by rewrite app_nil_r.
  - set (n := Z.min _ _).
    assert (0 ≤ n ≤ SendWindow.available (send_window s) ∧ n ≤ Z.of_nat (length buf)) as Hn
      by (unfold n, want; lia).
    intros [= <- <- <-]. cbn in *. rewrite queued_send, Hrx in Hq. apply app_inv_head in Hq as <-.
    rewrite length_take. split_and!; try done; [lia|by right].
Qed.

Lemma read_effect cx room s l r buf' s' l' fs :
  stream_wf s → rx_alive (out_ch l) = true → RecvWindow.wf (recv_window s) →
  RecvWindow.pending_credit (recv_window s) +
    Z.of_nat (length (RecvBuffer.contents (recv s))) ≤ U32_MAX →
  poll_read cx (ReadBuf.mk [] room) (s, l) = ((r, buf'), (s', l')) →
  queued (out_ch l') = queued (out_ch l) ++ fs →
  same_shape s s' ∧ state s' = state s ∧ send_window s' = send_window s ∧
  RecvBuffer.contents (recv s) = ReadBuf.filled buf' ++ RecvBuffer.contents (recv s') ∧
  RecvWindow.wf (recv_window s') ∧
  RecvWindow.initial (recv_window s') = RecvWindow.initial (recv_window s) ∧
  RecvWindow.pending_credit (recv_window s') + deltas fs =
    RecvWindow.pending_credit (recv_window s) + Z.of_nat (length (ReadBuf.filled buf')) ∧
  (fs = [] ∨ ∃ d, fs = [Frame.window_update (id s) d] ∧ 0 ≤ d).
Proof.
  intros Hwf Hrx Hrw Hfit He Hq.
  pose proof (poll_read_frame cx (ReadBuf.mk [] room) s l Hwf) as Hfr. rewrite He in Hfr.
  destruct Hfr as (Hid & Hcfg & Hst & Hsw). cbn in Hid, Hcfg, Hst, Hsw.
  destruct (poll_read_cases cx (ReadBuf.mk [] room) s l Hwf) as (r1 & b1 & s1 & l1 & E & Hc).
  rewrite E in He. simplify_eq. unfold same_shape. rewrite Hsw. destruct r1 as [[[]|e]|].
  - destruct Hc as (Hfill & _ & Hcont & _ & Hwin & Hout). cbn in *.
    specialize (Hout Hrx). rewrite Hq in Hout. apply app_inv_head in Hout as ->.
    set (bytes := RecvBuffer.contents (recv s)) in *. set (n := Nat.min room (length bytes)) in *.
    assert (length (take room bytes) = n) as Hlen by (by rewrite length_take).
    assert (Z.of_nat n ≤ Z.of_nat (length bytes)) as Hn by lia.
    assert (as_u32 (Z.of_nat n) = Z.of_nat n) as Hu.
    { unfold as_u32. apply Z.mod_small. destruct Hrw as (_ & Hp & _). clear -Hp Hn Hfit. lia. }
    rewrite Hfill, Hcont, take_drop, Hlen, Hwin. unfold after_consume in *. rewrite Hu.
    split_and!; try done.
    + apply RecvWindow.on_consume_wf; [done|lia|lia].
    + apply on_consume_initial.
    + rewrite <- (RecvWindow.on_consume_conserves (Z.of_nat n) (recv_window s)) by (done || lia).
      unfold updates, deltas. 
      destruct (RecvWindow.on_consume (Z.of_nat n) (recv_window s)) as [[d|] w']; cbn; lia.
    + destruct (RecvWindow.on_consume (Z.of_nat n) (recv_window s)) as [[d|] w'] eqn:Eo; [|by left].
      right. exists d. split; [done|]. apply on_consume_Some in Eo; [lia|]. apply Hrw.
  - destruct Hc as (_ & _ & -> & -> & ->). cbn. assert (fs = []) as ->.
    { apply (app_inv_head (queued (out_ch l))). by rewrite app_nil_r. }
    simpl. split_and!; try done; try apply Hrw; try lia; by left.
  - destruct Hc as (Hb & _ & _ & _ & Hb' & -> & -> & ->). assert (fs = []) as ->.
    { apply (app_inv_head (queued (out_ch l))). by rewrite app_nil_r. }
    rewrite Hb, Hb'. simpl. split_and!; try done; try apply Hrw; try lia; by left.
Qed.

Lemma fin_effect s l u s' l' fs :
  StreamState.is_reset (state s) = false → rx_alive (out_ch l) = true →
  local_fin (s, l) = (u, (s', l')) → queued (out_ch l') = queued (out_ch l) ++ fs →
  same_shape s s' ∧ send_window s' = send_window s ∧ recv s' = recv s ∧
  recv_window s' = recv_window s ∧ StreamState.is_reset (state s') = false ∧
  StreamState.read_open (state s') = StreamState.read_open (state s) ∧
  StreamState.write_open (state s') = false ∧ (fs = [] ∨ fs = [Frame.fin (id s)]).
Proof.
  intros Hr Hrx. unfold same_shape. run_m. rewrite Hr.
  assert (∀ l1 : Links C, queued (out_ch l1) = queued (out_ch l) ++ fs →
    queued (out_ch l1) = queued (out_ch l) → fs = []) as Hquiet.
  { intros l1 H1 H2. apply (app_inv_head (queued (out_ch l))). by rewrite app_nil_r, <- H1. }
  unfold StreamState.close_write. destruct (StreamState.write_open (state s)); cbn [fst snd negb].
  - destruct (negb _); cbn [fst snd]; intros [= <- <- <-] Hq; cbn in *; split_and!; try done.
    + rewrite queued_send, Hrx in Hq. apply app_inv_head in Hq. by right.
    + left. by eapply Hquiet.
  - intros [= <- <- <-] Hq. cbn in *. split_and!; try done. left. by eapply Hquiet.
Qed.

(** The frame at the head of the inbound wire reaches an open stream. *)
Lemma deliver_effect i f s l r s' l' :
  stream_inv i (config s) s → StreamState.is_reset (state s) = false →
  live_frame i f → (Frame.payload f ≠ [] → StreamState.read_open (state s) = true) →
  SendWindow.available (send_window s) + delta_of f ≤ U32_MAX →
  deliver f (s, l) = (r, (s', l')) →
  r = Ok () ∧ same_shape s s' ∧ queued (out_ch l') = queued (out_ch l) ∧ recv_window s' = recv_window s ∧
  RecvBuffer.contents (recv s') = RecvBuffer.contents (recv s) ++ Frame.payload f ∧
  SendWindow.available (send_window s') = SendWindow.available (send_window s) + delta_of f ∧
  StreamState.is_reset (state s') = false ∧
  StreamState.write_open (state s') = StreamState.write_open (state s) ∧
  (StreamState.read_open (state s') = StreamState.read_open (state s) ∧ ¬ is_fin f ∨
   StreamState.read_open (state s') = false ∧ is_fin f).
Proof.
  intros Hinv Hr Hlf Hopen Hfit. unfold same_shape.
  destruct f as [j fl p|j fl d| |]; cbn in *; try done.
  - destruct Hlf as (-> & [-> |(-> & ->)]).
    + destruct (decide (p = [])) as [->|Hp].
      * unfold deliver_data. rewrite !contains_spec. intros [= <- <- <-]. rewrite app_nil_r, Z.add_0_r.
        split_and!; try done. left. split; [done|]. by intros [? [=]].
      * rewrite deliver_payload by (unfold can_recv; by rewrite Hopen, Hr). run_m.
        rewrite bool_decide_eq_false_2 by done. intros [= <- <- <-]. cbn in *.
        rewrite Z.add_0_r, RecvBuffer.push_contents.
        split_and!; try done. left. split; [done|]. by intros [? [=]].
    + rewrite deliver_fin. run_m. intros [= <- <- <-]. cbn in *.
      rewrite app_nil_r, Z.add_0_r. split_and!; try done. right.
      split; [done|by exists i].
  - unfold mbind, M_bind. run_m. intros [= <- <- <-]. unfold SendWindow.grant in *.
    destruct Hlf as [-> Hd].
    destruct (Z.eqb_spec d 0) as [->|Hnz]; cbn in *; rewrite app_nil_r, ?Z.add_0_r;
      split_and!; try done.
    + left. split; [done|]. by intros [? [=]].
    + unfold saturating_add_u32. lia.
    + left. split; [done|]. by intros [? [=]].
Qed.

Lemma deliver_stream_inv i f s l :
  stream_inv i (config s) s → 1 ≤ Config.max_frame_size (config s) →
  StreamState.is_reset (state s) = false → live_frame i f →
  (Frame.payload f ≠ [] → StreamState.read_open (state s) = true) → delta_of f ≤ U32_MAX →
  stream_inv i (config s) (fst (snd (deliver f (s, l)))).
Proof.
  intros Hinv Hmax Hr Hlf Hopen Hd. destruct f as [j fl p|j fl d| |]; cbn in *; try done.
  - destruct Hlf as (-> & [-> |(-> & ->)]).
    + destruct (decide (p = [])) as [->|Hp].
      * unfold deliver_data. by rewrite !contains_spec.
      * rewrite deliver_payload by (unfold can_recv; by rewrite Hopen, Hr).
        by apply (apply_inv (OPush p) i (config s) s l).
    + rewrite deliver_fin. by apply (apply_inv ORemoteFin i (config s) s l).
  - apply (apply_inv (OGrant d) i (config s) s l); try done. split; [apply Hlf|done].
Qed.

Lemma end_inv_intro i I s s' wr gt wr' gt' :
  end_inv i I (mk_end s wr gt) → stream_inv i (config s) s' → same_shape s s' →
  StreamState.is_reset (state s') = false →
  RecvWindow.initial (recv_window s') = RecvWindow.initial (recv_window s) →
  RecvWindow.wf (recv_window s') → end_inv i I (mk_end s' wr' gt').
Proof.
  unfold end_inv, same_shape. cbn. intros (_ & ? & _ & ? & ? & _) ? (_ & -> & ->) ? -> ?. done.
Qed.

(** The clauses about FIN, when this end's wire grows by [fs]. *)
Lemma payloads_quiet fs : Forall (λ f, Frame.payload f = []) fs → payloads fs = [].
Proof. induction 1 as [|f fs Hf _ IH]; [done|]. unfold payloads in *. cbn. by rewrite Hf. Qed.

Lemma fin_order_app w fs :
  (∀ w1 g w2, w = w1 ++ g :: w2 → is_fin g → payloads w2 = []) →
  (fs = [] ∨ ∃ f, fs = [f] ∧ (Forall (λ g, ¬ is_fin g) w ∨ Frame.payload f = [])) →
  ∀ w1 g w2, w ++ fs = w1 ++ g :: w2 → is_fin g → payloads w2 = [].
Proof.
  intros Hw [->|(f & -> & Hf)]; [by rewrite app_nil_r|]. by apply fin_order_snoc.
Qed.

Lemma direction_bounds I a b w v i :
  is_u32 I → end_inv i I a → end_inv i I b → Forall (live_frame i) v → direction I a b w v →
  0 ≤ SendWindow.available (send_window (stream a)) ∧
  0 ≤ RecvWindow.pending_credit (recv_window (stream b)) ∧ 0 ≤ deltas v ∧
  SendWindow.available (send_window (stream a)) + deltas v ≤ U32_MAX ∧
  RecvWindow.pending_credit (recv_window (stream b)) +
    Z.of_nat (length (RecvBuffer.contents (recv (stream b)))) ≤ U32_MAX.
Proof.
  intros [_ HI] ((_ & _ & (_ & _ & [Ha _] & _) & _) & _) (_ & _ & _ & _ & _ & (_ & [Hp _])) Hv (_ & Hsum & _).
  pose proof (deltas_nonneg i v Hv). lia.
Qed.

#[local] Arguments payloads : simpl never.
#[local] Arguments deltas : simpl never.

Section Moves.
Variables (i : StreamId) (I : Z).
Hypothesis HI : is_u32 I.

Lemma move_write_inv cx buf s wr gt e o inn l r s' l' fs :
  rx_alive (out_ch l) = true → poll_write cx buf (s, l) = (r, (s', l')) →
  queued (out_ch l') = queued (out_ch l) ++ fs →
  net_inv i I (mk_net (mk_end s wr gt) e o inn) →
  net_inv i I (mk_net
    (mk_end s' (wr ++ match r with Ready (Ok n) => take n buf | _ => [] end) gt) e (o ++ fs) inn).
Proof.
  intros Hrx He Hq (Ha & Hb & Ho & Hin & Hd1 & Hd2). cbn in *.
  pose proof Ha as (Hinv & Hmax & Hr & _ & _ & Hrw). cbn in *.
  pose proof Hinv as (Hid & _ & Hwf & _).
  destruct (write_effect cx buf s l r s' l' fs Hwf Hmax Hrx He Hq)
    as (Hsh & Hst & Hrecv & Hwin & Hav & Hfs).
  pose proof (apply_inv (OWrite cx buf) i (config s) s l Logic.I Hmax Hinv) as Hinv'.
  cbn [apply] in Hinv'. rewrite He in Hinv'. cbn in Hinv'.
  set (p := match r with Ready (Ok n) => take n buf | _ => [] end) in *.
  assert (payloads fs = p ∧ deltas fs = 0 ∧ Forall (live_frame i) fs ∧ Forall (λ f, ¬ is_fin f) fs)
    as (Hpl & Hdl & Hlf & Hnf).
  { destruct Hfs as [[-> ->]|[-> _]]; [done|]. unfold payloads. cbn. rewrite app_nil_r.
    split_and!; try done; repeat constructor; auto. by intros [? [=]]. }
  destruct Hd1 as (D1 & D2 & D3 & D4 & D5), Hd2 as (E1 & E2 & E3 & E4 & E5). cbn in *.
  split_and!; cbn; try done.
  - eapply end_inv_intro; [exact Ha|..]; try done; by rewrite ?Hst, ?Hwin.
  - by apply Forall_app.
  - split_and!; cbn; rewrite ?Hst, ?payloads_app, ?Hpl, ?length_app.
    + by rewrite D1, <- !app_assoc.
    + lia.
    + intros Hw. destruct (D3 Hw). split; [by apply Forall_app|done].
    + intros Hc. rewrite (D4 Hc). destruct Hfs as [[_ ->]|[_ Hw]]; [done|].
      destruct (D3 Hw). congruence.
    + apply fin_order_app; [done|]. destruct Hfs as [[-> _]|[-> Hw]]; [by left|right].
      eexists. split; [done|]. left. by apply D3.
  - split_and!; cbn; rewrite ?Hst, ?Hrecv, ?Hwin, ?deltas_app, ?Hdl, ?Z.add_0_r; done.
Qed.

Lemma move_read_inv cx room s wr gt e o inn l r buf' s' l' fs :
  rx_alive (out_ch l) = true →
  poll_read cx (ReadBuf.mk [] room) (s, l) = ((r, buf'), (s', l')) →
  queued (out_ch l') = queued (out_ch l) ++ fs →
  net_inv i I (mk_net (mk_end s wr gt) e o inn) →
  net_inv i I (mk_net (mk_end s' wr (gt ++ ReadBuf.filled buf')) e (o ++ fs) inn).
Proof.
  intros Hrx He Hq (Ha & Hb & Ho & Hin & Hd1 & Hd2). cbn in *.
  pose proof Ha as (Hinv & Hmax & Hr & _ & _ & Hrw). cbn in *.
  pose proof Hinv as (Hid & _ & Hwf & _).
  pose proof (direction_bounds I _ _ _ _ i HI Hb Ha Ho Hd2) as (_ & _ & _ & _ & Hfit).
  destruct (read_effect cx room s l r buf' s' l' fs Hwf Hrx Hrw Hfit He Hq)
    as (Hsh & Hst & Hsw & Hcont & Hrw' & Hini & Hpend & Hfs).
  pose proof (apply_inv (ORead cx (ReadBuf.mk [] room)) i (config s) s l Logic.I Hmax Hinv) as Hinv'.
  cbn [apply] in Hinv'. rewrite He in Hinv'. cbn in Hinv'.
  assert (payloads fs = [] ∧ Forall (live_frame i) fs ∧ Forall (λ f, ¬ is_fin f) fs) as (Hpl & Hlf & Hnf).
  { destruct Hfs as [->|(d & -> & Hd)]; [done|]. split_and!; [done| |];
      repeat constructor; auto. by intros [? [=]]. }
  destruct Hd1 as (D1 & D2 & D3 & D4 & D5), Hd2 as (E1 & E2 & E3 & E4 & E5). cbn in *.
  split_and!; cbn; try done.
  - eapply end_inv_intro; [exact Ha|..]; try done. by rewrite Hst.
  - by apply Forall_app.
  - split_and!; cbn; rewrite ?Hst, ?Hsw, ?payloads_app, ?Hpl, ?app_nil_r; try done.
    + intros Hw. destruct (D3 Hw). split; [by apply Forall_app|done].
    + apply fin_order_app; [done|]. destruct Hfs as [->|(d & -> & _)]; [by left|right].
      eexists. split; [done|]. by right.
  - split_and!; cbn; rewrite ?Hst, ?deltas_app; try done.
    + rewrite E1, Hcont. by rewrite <- !app_assoc.
    + rewrite Hcont, length_app in E2. lia.
Qed.

Lemma move_shutdown_inv s wr gt e o inn l u s' l' fs :
  rx_alive (out_ch l) = true → local_fin (s, l) = (u, (s', l')) →
  queued (out_ch l') = queued (out_ch l) ++ fs →
  net_inv i I (mk_net (mk_end s wr gt) e o inn) →
  net_inv i I (mk_net (mk_end s' wr gt) e (o ++ fs) inn).
Proof.
  intros Hrx He Hq (Ha & Hb & Ho & Hin & Hd1 & Hd2). cbn in *.
  pose proof Ha as (Hinv & Hmax & Hr & _ & _ & Hrw). cbn in *.
  pose proof Hinv as (Hid & _ & Hwf & _).
  destruct (fin_effect s l u s' l' fs Hr Hrx He Hq)
    as (Hsh & Hsw & Hrecv & Hwin & Hr' & Hro & Hwo & Hfs).
  pose proof (apply_inv OFin i (config s) s l Logic.I Hmax Hinv) as Hinv'.
  cbn [apply] in Hinv'. rewrite He in Hinv'. cbn in Hinv'.
  assert (payloads fs = [] ∧ deltas fs = 0 ∧ Forall (live_frame i) fs) as (Hpl & Hdl & Hlf).
  { destruct Hfs as [-> | ->]; split_and!; try done. constructor; [|done]. split; [done|]. by right. }
  destruct Hd1 as (D1 & D2 & D3 & D4 & D5), Hd2 as (E1 & E2 & E3 & E4 & E5). cbn in *.
  split_and!; cbn; try done.
  - eapply end_inv_intro; [exact Ha|..]; try done; by rewrite Hwin.
  - by apply Forall_app.
  - split_and!; cbn; rewrite ?Hsw, ?Hwo, ?payloads_app, ?Hpl, ?app_nil_r; try done.
    apply fin_order_app; [done|]. destruct Hfs as [-> | ->]; [by left|right].
    eexists. split; [done|]. by right.
  - split_and!; cbn; rewrite ?Hro, ?Hrecv, ?Hwin, ?deltas_app, ?Hdl, ?Z.add_0_r; done.
Qed.

(** The head of the inbound wire meets the conditions of its delivery. *)
Lemma head_deliverable f s wr gt e o inn :
  net_inv i I (mk_net (mk_end s wr gt) e o (f :: inn)) →
  live_frame i f ∧ (Frame.payload f ≠ [] → StreamState.read_open (state s) = true) ∧
  SendWindow.available (send_window s) + delta_of f ≤ U32_MAX ∧ delta_of f ≤ U32_MAX.
Proof.
  intros (Ha & Hb & Ho & Hin & Hd1 & (_ & _ & _ & E4 & _)).
  pose proof (direction_bounds I _ _ _ _ i HI Ha Hb Hin Hd1) as (Hav & _ & _ & Hfit & _).
  cbn in *. apply Forall_cons_1 in Hin as [Hf Hin]. pose proof (deltas_nonneg i inn Hin).
  change (deltas (f :: inn)) with (delta_of f + deltas inn) in Hfit.
  split_and!; [done| |lia|lia]. intros Hp.
  destruct (StreamState.read_open (state s)); [done|]. specialize (E4 eq_refl).
  by apply app_eq_nil in E4 as [? _].
Qed.

Lemma move_deliver_inv f s wr gt e o inn l r s' l' fs :
  deliver f (s, l) = (r, (s', l')) → queued (out_ch l') = queued (out_ch l) ++ fs →
  net_inv i I (mk_net (mk_end s wr gt) e o (f :: inn)) →
  net_inv i I (mk_net (mk_end s' wr gt) e (o ++ fs) inn).
Proof.
  intros He Hq Hn. destruct (head_deliverable f s wr gt e o inn Hn) as (Hf & Hopen & Hfit & Hd).
  destruct Hn as (Ha & Hb & Ho & Hin & Hd1 & Hd2). cbn in *.
  pose proof Ha as (Hinv & Hmax & Hr & _ & _ & Hrw). cbn in *.
  destruct (deliver_effect i f s l r s' l' Hinv Hr Hf Hopen Hfit He)
    as (_ & Hsh & Hl & Hwin & Hcont & Hsend & Hr' & Hwo & Hro).
  assert (fs = []) as ->.
  { apply (app_inv_head (queued (out_ch l))). by rewrite app_nil_r, <- Hq. }
  pose proof (deliver_stream_inv i f s l Hinv Hmax Hr Hf Hopen Hd) as Hinv'.
  rewrite He in Hinv'. cbn in Hinv'. rewrite app_nil_r. apply Forall_cons_1 in Hin as [_ Hin].
  destruct Hd1 as (D1 & D2 & D3 & D4 & D5), Hd2 as (E1 & E2 & E3 & E4 & E5). cbn in *.
  change (deltas (f :: inn)) with (delta_of f + deltas inn) in D2.
  change (payloads (f :: inn)) with (Frame.payload f ++ payloads inn) in *.
  rewrite length_app in E2. split_and!; cbn; try done.
  - eapply end_inv_intro; [exact Ha|..]; try done; by rewrite Hwin.
  - split_and!; cbn; rewrite ?Hwo, ?Hsend; try done. lia.
  - split_and!; cbn; rewrite ?Hcont, ?Hwin, ?length_app.
    + by rewrite E1, <- !app_assoc.
    + lia.
    + intros Hw. destruct (E3 Hw) as [Hnf Hop]. apply Forall_cons_1 in Hnf as [Hnf ?]. split; [done|].
      destruct Hro as [[-> _]|[_ ?]]; [done|contradiction].
    + intros Hc. destruct Hro as [[Hro _]|[_ Hfin]]; [|by apply (E5 [] f inn)].
      rewrite Hro in Hc. specialize (E4 Hc). by apply app_eq_nil in E4 as [_ ?].
    + intros w1 g w2 -> Hg. by apply (E5 (f :: w1) g w2).
Qed.

End Moves.
Lemma move_inv i I n n' : is_u32 I → move n n' → net_inv i I n → net_inv i I n'.
Proof.
  intros HI Hm Hn. destruct Hm;
    [by eapply move_write_inv|by eapply move_read_inv|by eapply move_shutdown_inv|].
  by eapply move_deliver_inv.
Qed.

(** Streams of two sessions configured with the same initial window. *)
Definition compatible (cfg_a cfg_b : Config.t) : Prop :=
  Config.valid cfg_a ∧ Config.valid cfg_b ∧
  Config.initial_stream_window cfg_a = Config.initial_stream_window cfg_b.

Definition net_reachable (i : StreamId) (cfg_a cfg_b : Config.t) (n : net) : Prop :=
  rtc net_step (opened i cfg_a cfg_b) n.

Lemma end_inv_new i origin cfg :
  Config.valid cfg → end_inv i (Config.initial_stream_window cfg) (mk_end (new i origin cfg) [] []).
Proof.
  intros (Ht & H1 & H2 & _). unfold end_inv. cbn.
  split_and!; try done; [by apply stream_new_inv|].
  split; [apply Ht|]. unfold RecvWindow.threshold. cbn. lia.
Qed.

Lemma net_reachable_inv i cfg_a cfg_b n :
  compatible cfg_a cfg_b → net_reachable i cfg_a cfg_b n →
  net_inv i (Config.initial_stream_window cfg_a) n.
Proof.
  intros (Ha & Hb & Heq) Hr. set (I := Config.initial_stream_window cfg_a).
  assert (is_u32 I) as HI by apply Ha.
  assert (net_inv i I (opened i cfg_a cfg_b)) as H0.
  { pose proof (end_inv_new i Local cfg_a Ha). pose proof (end_inv_new i Remote cfg_b Hb) as H'.
    rewrite <- Heq in H'. unfold net_inv, opened, direction, payloads, deltas. cbn. fold I.
    split_and!; try done; try (rewrite <- ?Heq; fold I; lia); try (by intros [] ? ?). }
  induction Hr as [|n1 n2 n3 Hs _ IH]; [done|]. apply IH.
  destruct Hs as [n n' Hm|n n' Hm]; [by eapply move_inv|].
  apply net_inv_flip. apply net_inv_flip in H0. by eapply move_inv.
Qed.

Definition buffered (e : endpoint) : list byte := RecvBuffer.contents (recv (stream e)).

(** Credit is conserved end to end: in every reachable state and in both
    directions the sender's credit, the payload bytes in flight, the bytes
    buffered at the receiver, its tally of consumed bytes and the window updates
    in flight add up to the initial window.  So the receiver never buffers more
    than the initial window, and neither the saturation of [grant] nor the
    wrap-around of [on_consume] is ever reached. *)
Lemma flow_control_conservation i cfg_a cfg_b n :
  compatible cfg_a cfg_b → net_reachable i cfg_a cfg_b n →
  let I := Config.initial_stream_window cfg_a in
  let total (a b : endpoint) (w v : list Frame.t) :=
    SendWindow.available (send_window (stream a)) + Z.of_nat (length (payloads w)) +
    Z.of_nat (length (buffered b)) + RecvWindow.pending_credit (recv_window (stream b)) +
    deltas v in
  total (here n) (there n) (outw n) (inw n) = I ∧
  total (there n) (here n) (inw n) (outw n) = I ∧
  Z.of_nat (length (buffered (here n))) ≤ I ∧ Z.of_nat (length (buffered (there n))) ≤ I.
Proof.
  intros Hc Hr I total. pose proof (net_reachable_inv i cfg_a cfg_b n Hc Hr)
    as (Ha & Hb & Ho & Hi & Hd1 & Hd2).
  assert (is_u32 I) as HI by apply Hc.
  pose proof (direction_bounds I _ _ _ _ i HI Ha Hb Hi Hd1).
  pose proof (direction_bounds I _ _ _ _ i HI Hb Ha Ho Hd2).
  destruct Hd1 as (_ & D & _), Hd2 as (_ & E & _). subst total. unfold buffered, I. cbn. lia.
Qed.

(** The stream is a reliable FIFO pipe in both directions: what the peer
    has read, followed by what it has buffered, followed by the payload in
    flight, is exactly the sequence of bytes [poll_write] accepted. *)
Lemma stream_bytes_in_order i cfg_a cfg_b n :
  compatible cfg_a cfg_b → net_reachable i cfg_a cfg_b n →
  written (here n) = got (there n) ++ buffered (there n) ++ payloads (outw n) ∧
  written (there n) = got (here n) ++ buffered (here n) ++ payloads (inw n).
Proof.
  intros Hc Hr. pose proof (net_reachable_inv i cfg_a cfg_b n Hc Hr) as (_ & _ & _ & _ & (D & _) & (E & _)).
  done.
Qed.

(** End of stream means complete: when a read with room returns no bytes
    and no error, the user has read every byte the peer wrote, and the peer has
    shut its write half. *)
Lemma stream_eof_complete i cfg_a cfg_b n cx room l buf' s' l' :
  compatible cfg_a cfg_b → net_reachable i cfg_a cfg_b n → room ≠ 0%nat →
  poll_read cx (ReadBuf.mk [] room) (stream (here n), l) = ((Some (Ready (Ok ())), buf'), (s', l')) →
  ReadBuf.filled buf' = [] →
  got (here n) = written (there n) ∧
  StreamState.write_open (state (stream (there n))) = false.
Proof.
  intros Hc Hr Hroom He Hf. pose proof (net_reachable_inv i cfg_a cfg_b n Hc Hr)
    as (((_ & _ & Hwf & _) & _) & _ & _ & _ & _ & (E1 & _ & E3 & E4 & _)).
  destruct (poll_read_cases cx (ReadBuf.mk [] room) (stream (here n)) l Hwf)
    as (r & b & s1 & l1 & E & Hct). rewrite E in He. simplify_eq.
  destruct Hct as (Hfill & _ & _ & Heof & _). cbn in *. rewrite Hf in Hfill.
  assert (buffered (here n) = []) as Hb.
  { unfold buffered in *. destruct (RecvBuffer.contents (recv (stream (here n)))); [done|].
    destruct room; [done|]. discriminate. }
  unfold buffered in Hb. rewrite Hb in *. cbn in Heof. rewrite Nat.min_0_r in Heof.
  destruct (Heof eq_refl) as [?|Hclosed]; [done|].
  rewrite (E4 Hclosed), !app_nil_r in E1. split; [done|].
  destruct (StreamState.write_open _); [|done]. destruct (E3 eq_refl). congruence.
Qed.

(** No credit deadlock: once the wires are idle and the peer has read what
    arrived, an open stream accepts data again.  The tally the receiver holds
    back is always less than the window, so at least one byte can be written
    without any further window update. *)
Lemma flow_control_no_deadlock i cfg_a cfg_b n cx buf l :
  compatible cfg_a cfg_b → net_reachable i cfg_a cfg_b n →
  outw n = [] → inw n = [] → buffered (there n) = [] →
  StreamState.write_open (state (stream (here n))) = true → buf ≠ [] →
  rx_alive (out_ch l) = true →
  ∃ k, (1 ≤ k ≤ length buf)%nat ∧
    fst (poll_write cx buf (stream (here n), l)) = Ready (Ok k).
Proof.
  intros Hc Hr Ho Hi Hb Hw Hbuf Hrx. pose proof (net_reachable_inv i cfg_a cfg_b n Hc Hr)
    as (((_ & _ & Hwf & _) & Hmax & Hres & Hcl & _) &
        (_ & _ & _ & _ & Hini & (_ & Hp)) & _ & _ & (_ & D2 & _) & _).
  destruct Hc as ((_ & H1 & _) & _).
  unfold buffered in Hb. rewrite Ho, Hi, Hb in D2.
  unfold payloads, deltas in D2. cbn in D2.
  unfold RecvWindow.threshold in Hp. rewrite Hini in Hp.
  pose proof (Z.div_lt (Config.initial_stream_window cfg_a) 2 ltac:(lia) ltac:(lia)).
  assert (1 ≤ SendWindow.available (send_window (stream (here n)))) as Hav by lia.
  rewrite poll_write_spec, Hres, Hw, Hcl, Hrx by done. cbn [negb].
  rewrite bool_decide_eq_false_2 by done.
  destruct (Z.eqb_spec (SendWindow.available (send_window (stream (here n)))) 0); [lia|].
  eexists. split; [|reflexivity]. assert (0 < length buf)%nat by (destruct buf; simpl; [done|lia]).
  unfold want. lia.
Qed.

(** Between two well-behaved peers no frame is ever refused: whatever frame
    is next on a wire, its delivery succeeds, and in particular no data arrives
    after a FIN. *)
Theorem delivery_never_refused i cfg_a cfg_b n f w l :
  compatible cfg_a cfg_b → net_reachable i cfg_a cfg_b n → inw n = f :: w →
  fst (deliver f (stream (here n), l)) = Ok ().
Proof.
  intros Hc Hr Hin. pose proof (net_reachable_inv i cfg_a cfg_b n Hc Hr) as Hn.
  destruct (deliver f (stream (here n), l)) as [r [s' l']] eqn:E.
  destruct n as [[s wr gt] e o inn]. cbn in *. subst inn.
  assert (is_u32 (Config.initial_stream_window cfg_a)) as HI by apply Hc.
  destruct (head_deliverable i _ HI f s wr gt e o w Hn) as (Hf & Hopen & Hfit & _).
  destruct Hn as ((Hinv & _ & Hres & _) & _).
  by destruct (deliver_effect i f s l r s' l' Hinv Hres Hf Hopen Hfit E) as (-> & _).
Qed.

End FlowControl.

(** ** Concrete runs *)

Section Runs.

#[local] Instance flags_ops : BitflagsOps := documented_bitflags.

(** The moves of one end, as a function. *)
Inductive act : Type := AWrite (buf : list byte) | ARead (room : nat) | AFin | ADeliver.

Abbreviation net0 := (net (W := option Waker)).
Abbreviation idle := (links0 : Links list_chan).

Definition act_here (a : act) (n : net0) : net0 :=
  let s := stream (here n) in
  let go s' l' wr gt i := mk_net (mk_end s' wr gt) (there n) (outw n ++ lc_queue (out_ch l')) i in
  match a with
  | AWrite buf =>
    let '(r, (s', l')) := poll_write 7 buf (s, idle) in
    go s' l' (written (here n) ++ match r with Ready (Ok k) => take k buf | _ => [] end)
      (got (here n)) (inw n)
  | ARead room =>
    let '((r, buf'), (s', l')) := poll_read 7 (ReadBuf.mk [] room) (s, idle) in
    go s' l' (written (here n)) (got (here n) ++ ReadBuf.filled buf') (inw n)
  | AFin =>
    let '(_, (s', l')) := local_fin (s, idle) in
    go s' l' (written (here n)) (got (here n)) (inw n)
  | ADeliver =>
    match inw n with
    | [] => n
    | f :: i =>
      let '(_, (s', l')) := deliver f (s, idle) in
      go s' l' (written (here n)) (got (here n)) i
    end
  end.

Lemma act_here_step a n : rtc net_step n (act_here a n).
Proof.
  destruct n as [[s wr gt] e o i], a; cbn.
  - destruct (poll_write 7 buf (s, idle)) as [r [s' l']] eqn:E.
    apply rtc_once, Step_here. by eapply (Move_write 7 buf s wr gt e o i idle).
  - destruct (poll_read 7 (ReadBuf.mk [] room) (s, idle)) as [[r b] [s' l']] eqn:E.
    apply rtc_once, Step_here. by eapply (Move_read 7 room s wr gt e o i idle).
  - destruct (local_fin (s, idle)) as [u [s' l']] eqn:E.
    apply rtc_once, Step_here. by eapply (Move_shutdown s wr gt e o i idle).
  - destruct i as [|f i]; [done|].
    destruct (deliver f (s, idle)) as [r [s' l']] eqn:E.
    apply rtc_once, Step_here. by eapply (Move_deliver f s wr gt e o i idle).
Qed.

(** A script: [true] acts at this end, [false] at the other. *)
Definition act_at (p : bool * act) (n : net0) : net0 :=
  if fst p then act_here (snd p) n else flip (act_here (snd p) (flip n)).

Lemma flip_steps n n' : rtc (net_step (W := option Waker) (C := list_chan)) n n' →
  rtc net_step (flip n) (flip n').
Proof.
  induction 1 as [|n1 n2 n3 Hs _ IH]; [done|]. eapply rtc_l; [|exact IH].
  destruct Hs as [m m' Hm|m m' Hm]; [|by apply Step_here].
  apply Step_there. by destruct m, m'.
Qed.

Lemma script_reachable i cfg_a cfg_b script :
  net_reachable i cfg_a cfg_b (foldl (λ n p, act_at p n) (opened i cfg_a cfg_b) script).
Proof.
  unfold net_reachable. rewrite <- (rev_involutive script). induction (rev script) as [|p ps IH]; [done|].
  cbn. rewrite foldl_app. cbn. etrans; [exact IH|]. unfold act_at. destruct (fst p).
  - apply act_here_step.
  - set (n := foldl _ _ _). assert (n = flip (flip n)) as E by (by destruct n).
    rewrite E at 1. apply flip_steps, act_here_step.
Qed.

(** The client writes six bytes in two frames, the server reads five of them;
    the client shuts down. *)
Definition script1 : list (bool * act) :=
  [(true, AWrite msg); (true, AWrite (drop 4 msg)); (false, ADeliver); (false, ARead 4);
   (false, ADeliver); (false, ARead 1); (true, ADeliver); (true, AFin)].

Definition net1 : net0 := foldl (λ n p, act_at p n) (opened 1 cfg8 cfg8) script1.

Lemma net1_reachable : net_reachable 1 cfg8 cfg8 net1.
Proof. apply script_reachable. Qed.

Lemma cfg8_compatible : compatible cfg8 cfg8.
Proof. split_and!; [apply cfg8_valid|apply cfg8_valid|done]. Qed.

Lemma flow_control_conservation_witness :
  SendWindow.available (send_window (stream (here net1))) = 6 ∧
  length (buffered (there net1)) = 1%nat ∧
  Z.of_nat (length (buffered (there net1))) ≤ 8.
Proof.
  split_and!; [vm_compute; reflexivity|vm_compute; reflexivity|].
  apply (flow_control_conservation 1 cfg8 cfg8 net1 cfg8_compatible net1_reachable).
Defined.

Lemma stream_bytes_in_order_witness :
  got (there net1) = take 5 msg ∧
  written (here net1) = got (there net1) ++ buffered (there net1) ++ payloads (outw net1).
Proof.
  split; [vm_compute; reflexivity|].
  apply (stream_bytes_in_order 1 cfg8 cfg8 net1 cfg8_compatible net1_reachable).
Defined.

(** The server writes four bytes and shuts down; the client reads them and the
    end of the stream. *)
Definition net2 : net0 := foldl (λ n p, act_at p n) (opened 1 cfg8 cfg8)
  [(false, AWrite msg); (false, AFin); (true, ADeliver); (true, ADeliver); (true, ARead 9)].

Lemma net2_reachable : net_reachable 1 cfg8 cfg8 net2.
Proof. apply script_reachable. Qed.

Lemma stream_eof_complete_witness :
  got (here net2) = take 4 msg ∧ got (here net2) = written (there net2).
Proof.
  split; [vm_compute; reflexivity|].
  destruct (stream_eof_complete 1 cfg8 cfg8 net2 7 9 idle (ReadBuf.mk [] 9)
    (fst (snd (poll_read 7 (ReadBuf.mk [] 9) (stream (here net2), idle))))
    (snd (snd (poll_read 7 (ReadBuf.mk [] 9) (stream (here net2), idle))))
    cfg8_compatible net2_reachable) as [H _]; [done|vm_compute; reflexivity|done|exact H].
Defined.

(** Eight bytes use up the window; after the server has read them and its
    update has arrived, the client can write again. *)
Definition net3 : net0 := foldl (λ n p, act_at p n) (opened 1 cfg8 cfg8)
  [(true, AWrite msg); (true, AWrite msg); (true, AWrite msg); (false, ADeliver); (false, ADeliver);
   (false, ARead 7); (true, ADeliver); (false, ARead 7)].

Lemma net3_reachable : net_reachable 1 cfg8 cfg8 net3.
Proof. apply script_reachable. Qed.

Lemma flow_control_no_deadlock_witness :
  ∃ k, (1 ≤ k ≤ 6)%nat ∧ fst (poll_write 7 msg (stream (here net3), idle)) = Ready (Ok k).
Proof.
  apply (flow_control_no_deadlock 1 cfg8 cfg8 net3 7 msg idle cfg8_compatible net3_reachable);
    try (vm_compute; reflexivity). done.
Defined.

Definition net4 : net0 := foldl (λ n p, act_at p n) (opened 1 cfg8 cfg8)
  [(false, AWrite msg); (false, AFin)].

Lemma delivery_never_refused_witness :
  fst (deliver (Frame.data 1 Flags.empty (take 4 msg)) (stream (here net4), idle)) = Ok ().
Proof.
  apply (delivery_never_refused 1 cfg8 cfg8 net4 _ [Frame.fin 1] idle cfg8_compatible
    (script_reachable 1 cfg8 cfg8 _)). vm_compute. reflexivity.
Defined.

(** ** Sessions with different windows *)

Definition cfg_small : Config.t := Config.mk 4 4 16 None 0 0.
Definition cfg_large : Config.t := Config.mk 100 4 16 None 0 0.

(** The credit a sender starts with is its own configuration's, not the
    receiver's: with a window of 4 bytes at the sender and 100 at the receiver,
    the sender stalls after 4 bytes.  The wires are idle and the receiver has read
    everything, yet the write parks: the receiver's tally (4) is below its
    threshold (50), and only new data could raise it. *)
Theorem window_mismatch_stalls :
  let n := foldl (λ n p, act_at p n) (opened 1 cfg_small cfg_large)
    [(true, AWrite msg); (false, ADeliver); (false, ARead 10)] in
  Config.valid cfg_small ∧ Config.valid cfg_large ∧ net_reachable 1 cfg_small cfg_large n ∧
  outw n = [] ∧ inw n = [] ∧ buffered (there n) = [] ∧
  StreamState.write_open (state (stream (here n))) = true ∧
  fst (poll_write 7 msg (stream (here n), idle)) = PollPending ∧
  RecvWindow.pending_credit (recv_window (stream (there n))) = 4 ∧
  RecvWindow.threshold (recv_window (stream (there n))) = 50.
Proof.
  intros n. split_and!; try (vm_compute; reflexivity); try concrete. apply script_reachable.
Qed.

End Runs.
