(* ===== verification/WriterConc.v ===== *)
(** * Writing to a stream under concurrency ([src/stream/inner.rs])

    [poll_write] access by access: the loads of the lifecycle bits, the accesses of
    [SendWindow::poll_acquire] with the failures its weak swap may have, the send,
    and the refund when the session is gone.  One task polls reads and writes of a
    stream, one poll at a time, as [&mut self] asks for; any number of others run
    the loop-free operations of [StreamCode] on it, and the session's writer task
    takes frames off the queue or exits.  The frames the stream puts on the wire
    are accounted for under every interleaving; an order of RST and payload is
    not among what holds. *)

From S2P Require Import Prelude Machine Interleaving Errors Config Ids Frames Crates Window StreamState.
From S2P Require Import RecvBuffer StreamInner StreamFacts StreamInv Session Reader StreamCode StreamConc FlowControl.
From Stdlib Require Import ZArith Lia.
Import SendWindow (ppc, PClosed1, PLoad1, PCas1, PRegister, PClosed2, PLoad2, PCas2, PRet, pstep).

Local Open Scope Z_scope.

(** The accesses of [poll_write], in order. *)
Inductive wpc : Type :=
| WReset                        (* [state.is_reset()] *)
| WOpen                         (* [state.write_open()], then the empty buffer *)
| WAcquire (q : ppc)            (* [send_window.poll_acquire(cx, want)] *)
| WSend (n : Z)                 (* [out_tx.send(frame)] *)
| WRefund (n : Z)               (* the swap of [send_window.grant(n)] that succeeds *)
| WWake                         (* ... and its [waker.wake()] *)
| WCloseWrite                   (* [state.close_write()] *)
| WDone (r : PollIo nat).

Section WriterConc.
Context {BF : BitflagsOps}.
Context {W : Type} {AW : AtomicWakerOps W}.
Context {C : Type → Type} {CH : UnboundedChannelOps C}.
Abbreviation mem := (StreamInner W * Links C)%type.
Abbreviation avail s := (SendWindow.available (send_window s)).

(** What the poll does with the outcome of an access of [poll_acquire]. *)
Definition acquire_next (q : ppc) : wpc :=
  match q with
  | PRet Closed => WDone (Ready (Err (Error.io_msg Io.BrokenPipe "send window closed")))
  | PRet Pending => WDone PollPending
  | PRet (Acquired n) => WSend n
  | q => WAcquire q
  end.

(** One access; [spurious] is a failure of the weak swap. *)
Definition wstep (cx : Waker) (spurious : bool) (p : wpc) (buf : list byte) : M (W := W) (C := C) wpc :=
  match p with
  | WReset =>
    b ← get (λ s, StreamState.is_reset (state s));
    mret (if (b : bool) then WDone (Ready (Err reset_error)) else WOpen)
  | WOpen =>
    b ← get (λ s, StreamState.write_open (state s));
    max_frame ← get (λ s, Config.max_frame_size (config s));
    mret (if negb b then WDone (Ready (Err (Error.io_msg Io.BrokenPipe "write half closed")))
          else if bool_decide (buf = []) then WDone (Ready (Ok 0%nat))
          else
            let want := Z.min (Z.of_nat (length buf)) max_frame in
            WAcquire (PClosed1 (as_u32 (Z.min want U32_MAX))))
  | WAcquire q => λ '(s, l),
    let '(q', w) := pstep cx spurious q (send_window s) in (acquire_next q', (set_send_window w s, l))
  | WSend n =>
    i ← get id;
    ok ← send_out (Frame.data i Flags.empty (take (Z.to_nat n) buf));
    mret (if negb ok then (if n =? 0 then WCloseWrite else WRefund n) else WDone (Ready (Ok (Z.to_nat n))))
  | WRefund n => do_access (AddCredit n);; mret WWake
  | WWake => do_access WakeWindow;; mret WCloseWrite
  | WCloseWrite =>
    on_state StreamState.close_write;;
    mret (WDone (Ready (Err (Error.io_msg Io.BrokenPipe "session is shutting down"))))
  | WDone r => mret (WDone r)
  end.

(** ** Undisturbed *)

Fixpoint wrun (cx : Waker) (fuel : nat) (p : wpc) (buf : list byte) : M (W := W) (C := C) wpc :=
  match fuel with
  | O => mret p
  | S fuel' => p ← wstep cx false p buf; wrun cx fuel' p buf
  end.

Lemma wrun_done cx fuel r buf m : wrun cx fuel (WDone r) buf m = (WDone r, m).
Proof. induction fuel as [|fuel IH]; [done|]. exact IH. Qed.

Lemma wrun_step cx fuel p buf m :
  wrun cx (S fuel) p buf m = wrun cx fuel (fst (wstep cx false p buf m)) buf (snd (wstep cx false p buf m)).
Proof. done. Qed.

(** The send and what follows it. *)
Lemma wrun_send cx n buf (s : StreamInner W) (l : Links C) fuel :
  (4 ≤ fuel)%nat →
  wrun cx fuel (WSend n) buf (s, l) =
    (let '(r, m) := (i ← get id; ok ← send_out (Frame.data i Flags.empty (take (Z.to_nat n) buf));
       if negb ok then
         grant_window n;; on_state StreamState.close_write;;
         mret (Ready (Err (Error.io_msg Io.BrokenPipe "session is shutting down")))
       else mret (Ready (Ok (Z.to_nat n)))) (s, l) in (WDone r, m)).
Proof.
  intros Hf. do 4 (destruct fuel as [|fuel]; [lia|]). rewrite wrun_step. cbn [wstep]. run_m.
  destruct (fst (chan_send _ _)); cbn [negb fst snd]; [by rewrite wrun_done|].
  unfold SendWindow.grant. destruct (n =? 0) eqn:Hn.
  - rewrite wrun_step. cbn [wstep]. run_m. rewrite wrun_done. destruct s; cbn. by rewrite app_nil_r.
  - do 3 (rewrite wrun_step; cbn [wstep do_access]; run_m). by rewrite wrun_done.
Qed.

(** The next access. *)
Ltac acc := rewrite wrun_step;
  cbn [wstep pstep send_window set_send_window SendWindow.closed SendWindow.available SendWindow.waker fst snd
       acquire_next negb andb id config state recv_window recv recv_waker ack_received ack_waker fin_sent].

(** Run without interference, the accesses are [poll_write]. *)
Lemma wrun_poll_write cx buf (s : StreamInner W) (l : Links C) :
  wrun cx 13 WReset buf (s, l) =
    (WDone (fst (poll_write cx buf (s, l))), snd (poll_write cx buf (s, l))).
Proof.
  unfold poll_write. rewrite wrun_step. cbn [wstep]. run_m.
  destruct (StreamState.is_reset (state s)); [by rewrite wrun_done|].
  rewrite wrun_step. cbn [wstep]. run_m. destruct (StreamState.write_open (state s)); cbn [negb]; [|by rewrite wrun_done].
  case_bool_decide; [by rewrite wrun_done|]. unfold SendWindow.poll_acquire, SendWindow.try_take.
  set (d := as_u32 _). destruct s as [si cfg st [a cl k] r rw rk sa ak fs].
  cbn [send_window SendWindow.closed SendWindow.available SendWindow.waker].
  acc. destruct cl; [cbn [acquire_next]; by rewrite wrun_done|]. cbn [acquire_next]. acc. destruct (a =? 0) eqn:Ha; cbn [acquire_next].
  - do 3 acc. cbn [acquire_next]. rewrite Ha. cbn [acquire_next fst snd SendWindow.available].
    rewrite ?Ha. by rewrite wrun_done.
  - acc. rewrite Z.eqb_refl. cbn [acquire_next fst snd]. rewrite wrun_send by lia. run_m. cbn [send_window id config out_ch].
    by destruct (fst (chan_send _ _)).
Qed.

(** ** The machine *)

Variable me : Waker.            (* the task that uses the stream *)
Variable i : StreamId.

(** A poll of that task. *)
Inductive poll_pc : Type :=
| PWrite (p : wpc)
| PRead (p : rpc) (buf : ReadBuf.t).

(** The task: its poll, the buffer of its last write and the failures its swaps
    will have, and the bytes that earlier polls took. *)
Record task : Type := mk_task {
  t_pc : poll_pc;
  t_buf : list byte;
  t_fails : list bool;
  t_earlier : list byte;
}.

Definition task_step (p : task) : M (W := W) (C := C) task :=
  match t_pc p with
  | PWrite q =>
    q ← wstep me (default false (head (t_fails p))) q (t_buf p);
    mret (mk_task (PWrite q) (t_buf p) (tail (t_fails p)) (t_earlier p))
  | PRead q b =>
    '(q, b) ← rstep me q b; mret (mk_task (PRead q b) (t_buf p) (t_fails p) (t_earlier p))
  end.

Definition task_done (p : task) : bool :=
  match t_pc p with PWrite (WDone _) | PRead (RDone _) _ => true | _ => false end.

(** What a poll of a write of [buf] reported as taken. *)
Definition taken (p : poll_pc) (buf : list byte) : list byte :=
  match p with PWrite (WDone (Ready (Ok n))) => take n buf | _ => [] end.

(** What all polls so far did. *)
Definition wrote (p : task) : list byte := t_earlier p ++ taken (t_pc p) (t_buf p).

(** The next poll. *)
Inductive poll : Type :=
| PollWrite (buf : list byte) (fails : list bool)
| PollRead (room : nat).

Definition task_next (a : poll) (p : task) : task :=
  match a with
  | PollWrite buf fails => mk_task (PWrite WReset) buf fails (wrote p)
  | PollRead room => mk_task (PRead (rstart (ReadBuf.mk [] room)) (ReadBuf.mk [] room)) [] [] (wrote p)
  end.

(** [sent] is the history of the frames the session accepted from the stream;
    [credit] what the peer has granted it. *)
Record wconf : Type := mk_wconf {
  w_mem : mem;
  w_task : task;
  w_others : list code;
  w_sent : list Frame.t;
  w_credit : Z;
}.

(** The frames an access queued. *)
Definition newly (m m' : mem) : list Frame.t :=
  drop (length (queued (out_ch (snd m)))) (queued (out_ch (snd m'))).

Definition credit_of (c : code) : Z := match c with Do (AddCredit d) _ => d | _ => 0 end.

Inductive wr_step : wconf → wconf → Prop :=
| Wr_access m m' p p' ts h g :           (* the next access of the poll *)
    task_done p = false → task_step p m = (p', m') →
    wr_step (mk_wconf m p ts h g) (mk_wconf m' p' ts (h ++ newly m m') g)
| Wr_poll a m p ts h g :                 (* the task polls again *)
    task_done p = true → wr_step (mk_wconf m p ts h g) (mk_wconf m (task_next a p) ts h g)
| Wr_other m m' p ts h g j c c' :        (* an access of another task *)
    ts !! j = Some c → code_step c m = (c', m') →
    wr_step (mk_wconf m p ts h g) (mk_wconf m' p (<[j := c']> ts) (h ++ newly m m') (g + credit_of c))
| Wr_call m p ts h g j r c :             (* another task calls an operation *)
    ts !! j = Some (Ret r) → stream_call i c → (∀ d, c = grant_code d (Ret (Ok ())) → is_u32 d) →
    wr_step (mk_wconf m p ts h g) (mk_wconf m p (<[j := c]> ts) h g)
| Wr_take s l p ts h g :                 (* the session's writer takes a frame *)
    wr_step (mk_wconf (s, l) p ts h g)
      (mk_wconf (s, mkLinks (snd (chan_try_recv (out_ch l))) (closer_ch l) (woken l)) p ts h g)
| Wr_exit s l p ts h g :                 (* it exits *)
    wr_step (mk_wconf (s, l) p ts h g)
      (mk_wconf (s, mkLinks (chan_drop_rx (out_ch l)) (closer_ch l) (woken l)) p ts h g).

Definition write_init (origin : Origin) (config : Config.t) (l : Links C) (k : nat) : wconf :=
  mk_wconf (new i origin config, l) (mk_task (PWrite (WDone PollPending)) [] [] []) (replicate k (Ret (Ok ()))) [] 0.

Definition write_reachable origin config l k : wconf → Prop := rtc wr_step (write_init origin config l k).

(** ** What the accesses keep *)

Section Emission.
Variable max : Z.
Hypothesis Hmax : is_u32 max ∧ 1 ≤ max.

(** Credit the poll has taken from the window and not used yet. *)
Definition in_hand (p : poll_pc) : Z :=
  match p with PWrite (WSend n | WRefund n) => n | _ => 0 end.

(** Bounds on what a poll asks for and what it was given. *)
Definition asks (lim : Z) (q : ppc) : Prop :=
  match q with
  | PClosed1 d | PLoad1 d | PRegister d | PClosed2 d | PLoad2 d => 1 ≤ d ≤ lim
  | PCas1 d cur | PCas2 d cur => 1 ≤ d ≤ lim ∧ 1 ≤ cur
  | PRet _ => False
  end.

Definition poll_ok (buf : list byte) (p : poll_pc) : Prop :=
  let lim := Z.min (Z.of_nat (length buf)) max in
  match p with
  | PWrite (WAcquire q) => asks lim q
  | PWrite (WSend n | WRefund n) => 1 ≤ n ≤ lim
  | PRead (RUpdate d) _ => 1 ≤ d ≤ U32_MAX
  | _ => True
  end.

(** What neither poll nor anybody else changes. *)
Definition fixed (s s' : StreamInner W) : Prop :=
  id s' = id s ∧ config s' = config s ∧ RecvWindow.initial (recv_window s') = RecvWindow.initial (recv_window s).

Definition stream_fits (s : StreamInner W) : Prop :=
  id s = i ∧ Config.max_frame_size (config s) = max ∧ is_u32 (RecvWindow.initial (recv_window s)) ∧ is_u32 (avail s).

(** The frames an access adds. *)
Lemma newly_send (f : Frame.t) (s s' : StreamInner W) (l : Links C) ws :
  newly (s, l) (s', mkLinks (snd (chan_send f (out_ch l))) (closer_ch l) ws) = if rx_alive (out_ch l) then [f] else [].
Proof.
  unfold newly. cbn. rewrite queued_send. destruct (rx_alive (out_ch l)); [|by rewrite drop_all]. by rewrite drop_app_length.
Qed.

Lemma newly_none (s s' : StreamInner W) (l : Links C) cl ws :
  newly (s, l) (s', mkLinks (out_ch l) cl ws) = [].
Proof. unfold newly. cbn. apply drop_all. Qed.

Lemma newly_same (s s' : StreamInner W) (l : Links C) : newly (s, l) (s', l) = [].
Proof. unfold newly. cbn. apply drop_all. Qed.

(** What an access of the poll does. *)
Record poll_effect (buf : list byte) (p p' : poll_pc) (m m' : mem) : Prop := {
  pe_fixed : fixed (fst m) (fst m');
  pe_fin : fin_sent (fst m') = fin_sent (fst m);
  pe_u32 : is_u32 (avail (fst m'));
  pe_ok : poll_ok buf p';
  pe_frames : Forall (λ f, stream_frame i max f ∧ terminal f = false) (newly m m');
  pe_bytes : payloads (newly m m') = taken p' buf;
  pe_credit : avail (fst m') + in_hand p' + Z.of_nat (length (taken p' buf)) ≤ avail (fst m) + in_hand p;
}.

Lemma pstep_effect b q (w : SendWindow.t W) lim :
  asks lim q → is_u32 (SendWindow.available w) →
  let '(q', w') := pstep me b q w in
  is_u32 (SendWindow.available w') ∧
  match q' with
  | PRet (Acquired n) => 1 ≤ n ≤ lim ∧ SendWindow.available w' + n = SendWindow.available w
  | PRet _ => SendWindow.available w' = SendWindow.available w
  | _ => asks lim q' ∧ SendWindow.available w' = SendWindow.available w
  end.
Proof.
  unfold is_u32. destruct w as [a cl k]. destruct q; cbn; intros Hq Ha; try done;
    repeat case_match; simplify_eq; cbn;
    repeat match goal with H : _ && _ = true |- _ => apply andb_prop in H as [? H] end;
    rewrite ?Z.eqb_eq, ?Z.eqb_neq in *; subst; cbn; split_and?; try done; lia.
Qed.

Ltac effect := constructor; rewrite ?newly_same, ?newly_none, ?newly_send; try done; cbn in *; try lia.

Lemma wstep_effect b q buf (s : StreamInner W) (l : Links C) q' m' :
  stream_fits s → poll_ok buf (PWrite q) → (∀ r, q ≠ WDone r) → wstep me b q buf (s, l) = (q', m') →
  poll_effect buf (PWrite q) (PWrite q') (s, l) m'.
Proof.
  intros (Hi & Hc & Hrw & Ha) Hq Hd. destruct q as [| |q|n|n| | |r]; cbn [wstep]; run_m.
  - intros [= <- <-]. destruct (StreamState.is_reset _); effect.
  - intros [= <- <-]. destruct (StreamState.write_open _); cbn [negb]; [|effect].
    case_bool_decide as Hb; [subst; effect|].
    effect. rewrite Hc. unfold is_u32, as_u32 in *.
    assert (0 < length buf)%nat by (destruct buf; cbn; [done|lia]).
    rewrite (Z.min_l _ U32_MAX), Z.mod_small by (unfold U32_MAX in *; lia). lia.
  - destruct (pstep me b q (send_window s)) as [q1 w1] eqn:E. intros [= <- <-].
    pose proof (pstep_effect b q (send_window s) (Z.min (Z.of_nat (length buf)) max) Hq Ha) as He. rewrite E in He.
    destruct He as [Hu He]. destruct q1 as [| | | | | | |[n| |]]; [destruct He as [He1 He2]..| |]; effect.
  - cbn [poll_ok] in Hq. rewrite send_ok. intros [= <- <-]. destruct (rx_alive (out_ch l)) eqn:Ho; cbn [negb];
      [|rewrite (proj2 (Z.eqb_neq n 0)) by lia]; effect; rewrite ?Ho; try done.
    + apply Forall_singleton. split; [|done]. cbn. split; [done|left]. rewrite length_take. split_and!; [done| |lia].
      destruct buf; cbn in *; [lia|]. by destruct (Z.to_nat n) eqn:?; [lia|].
    + unfold payloads. cbn. by rewrite app_nil_r.
    + rewrite length_take. lia.
  - cbn [do_access]. run_m. intros [= <- <-]. cbn [poll_ok] in Hq.
    effect; unfold is_u32, saturating_add_u32 in *; lia.
  - cbn [do_access]. run_m. intros [= <- <-]. effect.
  - intros [= <- <-]. effect.
  - by destruct (Hd r).
Qed.

Lemma rstep_effect buf q b (s : StreamInner W) (l : Links C) q' b' m' :
  stream_fits s → poll_ok buf (PRead q b) → rstep me q b (s, l) = ((q', b'), m') →
  poll_effect buf (PRead q b) (PRead q' b') (s, l) m'.
Proof.
  intros (Hi & Hc & Hrw & Ha) Hq. destruct (decide (q = RDrain)) as [->|Hnd].
  { destruct (rstep_drain me b s l) as (k & b1 & r' & E & _). rewrite E. intros [= <- <- <-].
    destruct k; effect. }
  destruct q; try done; cbn [rstep]; run_m; try solve [intros [= <- <- <-]; try case_match; effect].
  - destruct (RecvWindow.on_consume _ _) as [[d|] w'] eqn:E; cbn [fst snd]; intros [= <- <- <-]; effect.
    + split_and!; [done|done|]. by rewrite <- (on_consume_initial (as_u32 (Z.of_nat n)) (recv_window s)), E.
    + by eapply on_consume_Some.
    + split_and!; [done|done|]. by rewrite <- (on_consume_initial (as_u32 (Z.of_nat n)) (recv_window s)), E.
  - intros [= <- <- <-]. effect.
    + destruct (rx_alive _); [|done]. apply Forall_singleton. by split.
    + by destruct (rx_alive _).
Qed.

Lemma task_effect p (m : mem) p' m' :
  stream_fits (fst m) → poll_ok (t_buf p) (t_pc p) → task_done p = false → task_step p m = (p', m') →
  poll_effect (t_buf p) (t_pc p) (t_pc p') m m' ∧ t_buf p' = t_buf p ∧ t_earlier p' = t_earlier p.
Proof.
  destruct m as [s l], p as [[q|q b] buf fs ea]; unfold task_step, task_done; cbn [t_pc t_buf t_fails t_earlier fst];
    unfold mbind, M_bind, mret, M_ret; intros Hs Hq Hd.
  - destruct (wstep me _ q buf (s, l)) as [q1 m1] eqn:E. intros [= <- <-]. split; [|done].
    eapply wstep_effect; [done|done| |done]. by intros r ->.
  - destruct (rstep me q b (s, l)) as [[q1 b1] m1] eqn:E. intros [= <- <-]. split; [|done]. by eapply rstep_effect.
Qed.

(** What the other tasks send and grant. *)
Fixpoint code_ok (c : code) : Prop :=
  match c with
  | Ret _ => True
  | Do a k =>
    code_ok k ∧ match a with SendOut f => f = Frame.fin i ∨ f = Frame.rst i | AddCredit d => is_u32 d | _ => True end
  | If _ yes no => code_ok yes ∧ code_ok no
  end.

Lemma stream_call_ok c :
  stream_call i c → (∀ d, c = grant_code d (Ret (Ok ())) → is_u32 d) → code_ok c.
Proof.
  intros [c' [flags p|d|]| | |] Hd; try (cbn; by auto 20).
  - clear Hd. unfold deliver_code, push_data_code.
    destruct (contains flags Flags.ACK), (contains flags Flags.FIN), (contains flags Flags.RST),
      (bool_decide (p = [])); cbn; auto 30.
  - specialize (Hd d eq_refl). unfold grant_code. by destruct (d =? 0).
Qed.

(** What an access of another task does. *)
Record code_effect (c c' : code) (m m' : mem) : Prop := {
  ce_fixed : fixed (fst m) (fst m');
  ce_u32 : is_u32 (avail (fst m'));
  ce_ok : code_ok c';
  ce_queue : queued (out_ch (snd m')) = queued (out_ch (snd m)) ++ newly m m';
  ce_frames : Forall (stream_frame i max) (newly m m');
  ce_bytes : payloads (newly m m') = [];
  ce_credit : avail (fst m') ≤ avail (fst m) + credit_of c ∧ 0 ≤ credit_of c;
}.

Lemma code_step_effect c (m : mem) c' m' :
  stream_fits (fst m) → code_ok c → code_step c m = (c', m') → code_effect c c' m m'.
Proof.
  destruct m as [s l]. intros (Hi & Hc & Hrw & Ha) Hok. unfold is_u32 in *.
  destruct c as [r|a k|tt y n]; cbn [code_step].
  - intros [= <- <-]. constructor; rewrite ?newly_same, ?app_nil_r; try done; cbn; lia.
  - destruct Hok as [Hk Hok]. destruct a; cbn [do_access]; run_m; intros [= <- <-];
      constructor; cbn [snd out_ch]; rewrite ?newly_same, ?newly_none, ?newly_send, ?app_nil_r; try done; cbn in *;
      unfold is_u32, saturating_add_u32 in *; try lia.
    + rewrite queued_send. by destruct (rx_alive _); rewrite ?app_nil_r.
    + destruct (rx_alive _); [|done]. apply Forall_singleton.
      destruct Hok as [-> | ->]; [apply stream_frame_fin|apply stream_frame_rst].
    + destruct (rx_alive _); [|done]. by destruct Hok as [-> | ->].
  - destruct Hok as [Hy Hn]. destruct tt; cbn [do_test]; run_m; intros [= <- <-];
      constructor; cbn [snd out_ch]; rewrite ?newly_same, ?app_nil_r; try done; cbn; try lia; by case_match.
Qed.

Definition ends (h : list Frame.t) : nat := length (filter (λ f, terminal f = true) h).

Lemma ends_app h1 h2 : ends (h1 ++ h2) = (ends h1 + ends h2)%nat.
Proof. unfold ends. by rewrite filter_app, length_app. Qed.

Lemma ends_none h : Forall (λ f, terminal f = false) h → ends h = 0%nat.
Proof. unfold ends. induction 1 as [|f h Hf _ IH]; [done|]. by rewrite filter_cons, Hf. Qed.

(** ** The invariant *)

Record wr_inv (initial : Z) (c : wconf) : Prop := {
  wi_fits : stream_fits (fst (w_mem c));
  wi_poll : poll_ok (t_buf (w_task c)) (t_pc (w_task c));
  wi_others : Forall (λ t, code_ok t ∧ fin_ok t || announcing t = true) (w_others c);
  wi_frames : Forall (stream_frame i max) (w_sent c);
  wi_bytes : payloads (w_sent c) = wrote (w_task c);
  wi_ends : (ends (w_sent c) + announcers (w_others c) ≤ Nat.b2n (fin_sent (fst (w_mem c))))%nat;
  wi_credit : avail (fst (w_mem c)) + in_hand (t_pc (w_task c)) + Z.of_nat (length (wrote (w_task c))) ≤ initial + w_credit c;
}.

Lemma fits_fixed s s' : fixed s s' → is_u32 (avail s') → stream_fits s → stream_fits s'.
Proof. intros (E1 & E2 & E3) Hu (H1 & H2 & H3 & _). unfold stream_fits. by rewrite E1, E2, E3. Qed.

Lemma wr_access I m m' p p' ts h g :
  task_done p = false → task_step p m = (p', m') →
  wr_inv I (mk_wconf m p ts h g) → wr_inv I (mk_wconf m' p' ts (h ++ newly m m') g).
Proof.
  intros Hd E [H1 H2 H3 H4 H5 H6 H7]. cbn [w_mem w_task w_others w_sent w_credit] in *.
  destruct (task_effect p m p' m' H1 H2 Hd E) as ([E1 E2 E3 E4 E5 E6 E7] & Eb & Ee).
  assert (taken (t_pc p) (t_buf p) = []) as Ht
    by (clear -Hd; unfold task_done in Hd; destruct (t_pc p) as [[| | | | | | |[[]|]]|]; done).
  unfold wrote in *. rewrite Ht, app_nil_r in H5, H7.
  constructor; cbn [w_mem w_task w_others w_sent w_credit]; rewrite ?Eb, ?Ee.
  - by eapply fits_fixed.
  - done.
  - done.
  - apply Forall_app. split; [done|]. eapply Forall_impl; [exact E5|]. by intros f [? _].
  - unfold wrote. by rewrite payloads_app, H5, E6, Eb, Ee.
  - rewrite ends_app, E2, (ends_none (newly m m')), Nat.add_0_r; [done|].
    eapply Forall_impl; [exact E5|]. by intros f [_ ?].
  - unfold wrote. rewrite Eb, Ee, length_app. lia.
Qed.

Lemma wr_other I m m' p ts h g j c c' :
  ts !! j = Some c → code_step c m = (c', m') →
  wr_inv I (mk_wconf m p ts h g) → wr_inv I (mk_wconf m' p (<[j := c']> ts) (h ++ newly m m') (g + credit_of c)).
Proof.
  intros Hj E [H1 H2 H3 H4 H5 H6 H7]. cbn [w_mem w_task w_others w_sent w_credit] in *. pose proof (Forall_lookup_1 _ _ _ _ H3 Hj) as [Hok Hfin].
  destruct (code_step_effect c m c' m' H1 Hok E) as [E1 E2 E3 E4 E5 E6 [E7 _]].
  destruct m as [s l], m' as [s' l']. cbn [fst snd] in *.
  destruct (code_step_fin c s s' l l' c' E Hfin) as [Hfin' Hpay].
  constructor; cbn [w_mem w_task w_others w_sent w_credit fst].
  - by eapply fits_fixed.
  - done.
  - by apply Forall_insert.
  - by apply Forall_app.
  - by rewrite payloads_app, E6, app_nil_r.
  - pose proof (announcers_insert ts j c c' Hj) as Ha. rewrite ends_app.
    unfold terminals in Hpay. rewrite E4, filter_app, length_app in Hpay. unfold ends in *. lia.
  - lia.
Qed.

Lemma wr_inv_step I c c' : wr_step c c' → wr_inv I c → wr_inv I c'.
Proof.
  intros [m m' p p' ts h g Hd E|a m p ts h g Hd|m m' p ts h g j t t' Hj E
    |m p ts h g j r t Hj Hc Hg|s l p ts h g|s l p ts h g] Hinv.
  - by eapply wr_access.
  - destruct Hinv as [H1 H2 H3 H4 H5 H6 H7]. cbn [w_mem w_task w_others w_sent w_credit] in *. constructor; cbn [w_mem w_task w_others w_sent w_credit]; auto.
    + destruct a as [buf fs|room]; [done|]. cbn. unfold rstart. cbn. by destruct (room =? 0)%nat.
    + rewrite H5. unfold wrote at 2. destruct a; cbn; by rewrite app_nil_r.
    + assert (0 ≤ in_hand (t_pc p)) by (destruct (t_pc p) as [[]|]; cbn in *; lia).
      unfold wrote at 1. destruct a; cbn; rewrite app_nil_r; lia.
  - by eapply wr_other.
  - destruct Hinv as [H1 H2 H3 H4 H5 H6 H7]. cbn [w_mem w_task w_others w_sent w_credit] in *. pose proof (stream_call_fin_ok i t Hc) as Hf.
    constructor; cbn [w_mem w_task w_others w_sent w_credit]; auto.
    + apply Forall_insert; [done|]. split; [by apply stream_call_ok|by rewrite Hf].
    + pose proof (announcers_insert ts j _ t Hj) as Hn. rewrite (fin_ok_not_announcing t Hf) in Hn. cbn in Hn. lia.
  - destruct Hinv. by constructor.
  - destruct Hinv. by constructor.
Qed.

End Emission.

Lemma wr_inv_init origin config l k :
  Config.valid config →
  wr_inv (Config.max_frame_size config) (Config.initial_stream_window config) (write_init origin config l k).
Proof.
  intros Hv. constructor; cbn; try done.
  - split_and!; try done; apply Hv.
  - by apply Forall_replicate.
  - unfold announcers. assert (∀ n, filter (λ c, announcing c = true) (replicate n (Ret (Ok ()))) = []) as ->; [|done].
    intros n. induction n; [done|]. cbn [replicate]. by rewrite filter_cons.
  - lia.
Qed.

(** C29: What a stream puts on the wire, under every interleaving of the accesses
    of its user's polls of reads and writes, of deliveries, grants, shutdowns, FINs,
    resets and drops by other tasks, and of the session's writer taking frames or
    exiting.  Every frame accepted from the stream has its id and is a non-empty
    payload without flags of at most [max_frame_size] bytes, a FIN or RST without
    payload, or a window update with a positive delta.  The payload bytes are exactly
    those that [poll_write] reported as taken, in that order: a poll that returned
    [Pending] or an error sent nothing.  They are never more than the initial window
    and the credit the peer granted.  At most one frame is a FIN or RST. *)
Theorem stream_emission_concurrent origin config l k c :
  Config.valid config → write_reachable origin config l k c →
  Forall (stream_frame i (Config.max_frame_size config)) (w_sent c) ∧
  payloads (w_sent c) = wrote (w_task c) ∧
  Z.of_nat (length (wrote (w_task c))) ≤ Config.initial_stream_window config + w_credit c ∧
  (length (filter (λ f, terminal f = true) (w_sent c)) ≤ if fin_sent (fst (w_mem c)) then 1 else 0)%nat.
Proof.
  intros Hv Hr.
  assert (is_u32 (Config.max_frame_size config) ∧ 1 ≤ Config.max_frame_size config) as Hm by (split; apply Hv).
  assert (wr_inv (Config.max_frame_size config) (Config.initial_stream_window config) c) as [H1 H2 H3 H4 H5 H6 H7].
  { pose proof (wr_inv_init origin config l k Hv) as H0. unfold write_reachable in Hr.
    induction Hr as [|c1 c2 c3 Hs _ IH]; [done|]. by eapply IH, wr_inv_step. }
  assert (0 ≤ in_hand (t_pc (w_task c))) by (destruct (t_pc (w_task c)) as [[]|]; cbn in *; lia).
  destruct H1 as (_ & _ & _ & Ha). unfold is_u32 in Ha.
  split_and!; [done|done|lia|]. unfold ends in H6. destruct (fin_sent _); cbn in H6; lia.
Qed.

(** ** Schedules *)

Inductive wmove : Type :=
| WmAccess | WmPoll (a : poll) | WmOther (j : nat) | WmCall (j : nat) (c : code) | WmTake | WmExit.

Definition do_wmove (a : wmove) (c : wconf) : wconf :=
  let '(mk_wconf m p ts h g) := c in
  match a with
  | WmAccess => let '(p', m') := task_step p m in mk_wconf m' p' ts (h ++ newly m m') g
  | WmPoll a => mk_wconf m (task_next a p) ts h g
  | WmOther j =>
    match ts !! j with
    | Some c => let '(c', m') := code_step c m in mk_wconf m' p (<[j := c']> ts) (h ++ newly m m') (g + credit_of c)
    | None => c
    end
  | WmCall j c => mk_wconf m p (<[j := c]> ts) h g
  | WmTake =>
    let '(s, l) := m in mk_wconf (s, mkLinks (snd (chan_try_recv (out_ch l))) (closer_ch l) (woken l)) p ts h g
  | WmExit => let '(s, l) := m in mk_wconf (s, mkLinks (chan_drop_rx (out_ch l)) (closer_ch l) (woken l)) p ts h g
  end.

Definition wmove_ok (a : wmove) (c : wconf) : bool :=
  match a with
  | WmAccess => negb (task_done (w_task c))
  | WmPoll _ => task_done (w_task c)
  | WmOther j => match w_others c !! j with Some _ => true | None => false end
  | WmCall j _ => match w_others c !! j with Some (Ret _) => true | _ => false end
  | WmTake | WmExit => true
  end.

Fixpoint wmoves_ok (l : list wmove) (c : wconf) : bool :=
  match l with [] => true | a :: l' => wmove_ok a c && wmoves_ok l' (do_wmove a c) end.

Definition wcall_ok (a : wmove) : Prop :=
  match a with
  | WmCall _ c => stream_call i c ∧ ∀ d, c = grant_code d (Ret (Ok ())) → is_u32 d
  | _ => True
  end.

Lemma do_wmove_step a c : wmove_ok a c = true → wcall_ok a → wr_step c (do_wmove a c).
Proof.
  destruct c as [m p ts h g], a; cbn.
  - intros ?%negb_true_iff _. destruct (task_step p m) eqn:E. by apply Wr_access.
  - intros. by apply Wr_poll.
  - destruct (ts !! j) as [c|] eqn:Hc; [|done]. intros. destruct (code_step c m) eqn:E. by eapply Wr_other.
  - destruct (ts !! j) as [[r| |]|] eqn:Hc; try done. intros _ []. by eapply Wr_call.
  - intros. destruct m. apply Wr_take.
  - intros. destruct m. apply Wr_exit.
Qed.

Lemma wmoves_reach l c :
  wmoves_ok l c = true → Forall wcall_ok l → rtc wr_step c (foldl (λ c a, do_wmove a c) c l).
Proof.
  revert c. induction l as [|a l IH]; intros c; cbn; [done|].
  intros [H1 H2]%andb_prop [H3 H4]%Forall_cons_1. eapply rtc_l; [by apply do_wmove_step|auto].
Qed.

End WriterConc.

Section Schedules.

#[local] Existing Instance documented_bitflags.

Abbreviation wconf0 := (wconf (W := option Waker) (C := list_chan)).

(** The user of stream 1 is task 7; there is one other task. *)
Definition wplay (l : list wmove) : wconf0 :=
  foldl (λ c a, do_wmove 7 a c) (write_init 1 Remote cfg8 links0 1) l.

Lemma wplay_reachable l :
  wmoves_ok 7 l (write_init (W := option Waker) 1 Remote cfg8 links0 1) = true → Forall (wcall_ok 1) l →
  write_reachable 7 1 Remote cfg8 links0 1 (wplay l).
Proof. apply wmoves_reach. Qed.

Lemma grants_u32 c :
  match c with Do (AddCredit d) _ => is_u32 d | _ => True end → ∀ d, c = grant_code d (Ret (Ok ())) → is_u32 d.
Proof. intros H d ->. unfold grant_code in H. destruct (Z.eqb_spec d 0); [subst; concrete|done]. Qed.

Ltac wcalls :=
  repeat (apply Forall_cons_2; [first [exact I|split; [first [apply Call_session, Call_deliver
    |apply Call_session, Call_grant]|apply grants_u32; concrete]]|]); apply Forall_nil_2.

(** A poll of a write of six bytes and its first [n] accesses. *)
Definition write_msg (fails : list bool) (n : nat) : list wmove :=
  WmPoll (PollWrite msg fails) :: replicate n WmAccess.

(** The first write sends four bytes after a failed swap, the second one uses up
    the window, the third finds it empty, registers, and takes the credit that is granted
    before it looks again.  Then the session's writer exits, and the fourth write,
    which acquired credit before, returns it and fails. *)
Definition busy_writer : list wmove :=
  write_msg [false; false; false; false; true] 8 ++ write_msg [] 6 ++ [WmTake] ++ write_msg [] 5 ++
  WmCall 0 (grant_code 7 (Ret (Ok ()))) :: replicate 2 (WmOther 0) ++ replicate 4 WmAccess ++
  write_msg [] 5 ++ WmExit :: replicate 4 WmAccess.

Lemma stream_emission_concurrent_witness :
  let c := wplay busy_writer in
  w_sent c = replicate 3 (Frame.data 1 Flags.empty (take 4 msg)) ∧ w_credit c = 7 ∧
  SendWindow.available (send_window (fst (w_mem c))) = 3 ∧
  payloads (w_sent c) = wrote (w_task c) ∧ Z.of_nat (length (wrote (w_task c))) ≤ 8 + 7.
Proof.
  intros c. split; [vm_compute; reflexivity|]. split; [vm_compute; reflexivity|]. split; [vm_compute; reflexivity|].
  destruct (stream_emission_concurrent 7 1 Remote cfg8 links0 1 c cfg8_valid) as (_ & H1 & H2 & _).
  { apply (wplay_reachable busy_writer); [vm_compute; reflexivity|wcalls]. }
  split; [exact H1|]. replace (w_credit c) with 7 in H2 by (vm_compute; reflexivity). exact H2.
Defined.

(** Payload can follow a RST.  While a poll of [poll_write] is past its checks, the
    session's reader refuses a payload after the peer's FIN and resets the stream:
    its RST is queued first, and the frame of the write after it; the write is
    reported as taken. *)
Definition reset_overtakes : list wmove :=
  WmCall 0 (deliver_code 1 Flags.FIN []) :: replicate 2 (WmOther 0) ++ write_msg [] 5 ++
  WmCall 0 (deliver_code 1 Flags.empty msg) :: replicate 6 (WmOther 0) ++ [WmAccess].

Lemma data_after_reset :
  ∃ c : wconf0, write_reachable 7 1 Remote cfg8 links0 1 c ∧
    w_sent c = [Frame.rst 1; Frame.data 1 Flags.empty (take 4 msg)] ∧ wrote (w_task c) = take 4 msg ∧
    StreamState.is_reset (state (fst (w_mem c))) = true.
Proof.
  exists (wplay reset_overtakes). split; [apply (wplay_reachable reset_overtakes); [vm_compute; reflexivity|wcalls]|].
  split_and!; vm_compute; reflexivity.
Qed.

End Schedules.
