(* ===== verification/Api.v ===== *)
(** * Sessions as the user sees them ([src/session/mod.rs], [src/stream/mod.rs])

    Construction, [open], [accept], [close] and the closer task.  The futures
    are modelled by their synchronous stretches: [open] runs up to its
    [await], is polled, and finishes with the outcome of the timed wait. *)

From S2P Require Import Prelude Machine Errors Config Ids Frames Crates Window StreamState.
From S2P Require Import RecvBuffer StreamInner Session.
From Stdlib Require Import ZArith Lia.

Local Open Scope Z_scope.

Section Api.
Context {W : Type} {AW : AtomicWakerOps W}.
Context {C : Type → Type} {CH : UnboundedChannelOps C}.
Context {X R : Type} {WO : WatchOps X R}.
Context {DO : DrainOrder}.

Abbreviation SM := (SM (W := W) (C := C) (X := X)).

(** ** Construction *)

(** The receivers [Session::new] hands to the tasks it spawns. *)
Record task_rx : Type := mk_task_rx {
  writer_rx : R;
  reader_rx : R;
  closer_rx : R;
  keepalive_rx : option R;
}.

(** [SessionInner { .. }] as [Session::new] builds it, before any task. *)
Definition fresh (config : Config.t) (role : Role.t) (shutdown : X) : Session W C X :=
  {| s_config := config;
     s_role := role;
     s_id_alloc := StreamIdAllocator.new role;
     s_registry := StreamRegistry.new;
     s_heap := [];
     s_out := chan_new;
     s_closer := chan_new;
     s_accept := chan_new;
     s_pong := chan_new;
     s_shutdown := shutdown;
     s_is_closing := false;
     s_peer_gone := false;
     s_tasks := None;
     s_woken := [] |}.

(** [Session::new]: the tasks subscribe to the shutdown watch one after the
    other; without keepalive the pong receiver is dropped; the receiver
    [watch::channel] returned is dropped at the end. *)
Definition session_new (config : Config.t) (role : Role.t) : task_rx * Session W C X :=
  let '(rx0, shutdown) := watch_channel false in
  let s := fresh config role shutdown in
  let '(wr, s) := shutdown_rx s in
  let '(rd, s) := shutdown_rx s in
  let '(cl, s) := shutdown_rx s in
  let '(ka, tasks, s) :=
    match Config.keepalive_interval config with
    | Some _ =>
      let '(ka, s) := shutdown_rx s in (Some ka, [TWriter; TReader; TCloser; TKeepalive], s)
    | None => (None, [TWriter; TReader; TCloser], set_pong (chan_drop_rx (s_pong s)) s)
    end in
  let s := set_tasks (Some tasks) s in
  (mk_task_rx wr rd cl ka, set_shutdown (watch_drop_rx rx0 (s_shutdown s)) s).

(** [Session::client], [Session::server]. *)
Definition client (config : Config.t) := session_new config Role.Client.
Definition server (config : Config.t) := session_new config Role.Server.

(** ** Opening *)

(** [Session::open] up to the timed wait for the ACK. *)
Definition open_start : SM (MuxResult (StreamId * Loc)) :=
  closed ← sget is_closed;
  gone ← sget s_peer_gone;
  if (closed : bool) || gone then mret (Err Error.SessionClosed) else
  len ← sget (λ s, StreamRegistry.len (s_registry s));
  config ← sget s_config;
  if Config.max_streams config <=? len
  then mret (Err (Error.TooManyStreams (Config.max_streams config))) else
  allocated ← (λ s, let r := StreamIdAllocator.allocate (s_id_alloc s) in
                    (fst r, set_id_alloc (snd r) s));
  match ok_or allocated (Error.TooManyStreams USIZE_MAX) with
  | Err e => mret (Err e)
  | Ok id =>
    loc ← alloc_stream (new id Local config);
    r ← reg_insert id loc;
    match r with
    | Err e => mret (Err e)
    | Ok _ =>
      sent ← s_send (Frame.syn id);
      if negb sent then reg_remove id;; mret (Err Error.SessionClosed)
      else mret (Ok (id, loc))
    end
  end.

(** One poll of [wait_acked] by the opener. *)
Definition open_poll (cx : Waker) (loc : Loc) : SM (option (Poll (MuxResult unit))) :=
  on_stream loc (wait_acked cx).

(** The end of [Session::open]: [Some r] is what [wait_acked] resolved to,
    [None] the elapsed timeout. *)
Definition open_finish (id : StreamId) (loc : Loc) (outcome : option (MuxResult unit))
  : SM (MuxResult Loc) :=
  match outcome with
  | Some (Ok _) => mret (Ok loc)
  | Some (Err e) => reg_remove id;; mret (Err e)
  | None => s_send (Frame.rst id);; reg_remove id;; mret (Err Error.Timeout)
  end.

(** ** Accepting *)

(** [Session::accept] up to its [select!]: the closed check, then the
    subscription. *)
Definition accept_start : SM (MuxResult R) :=
  closed ← sget is_closed;
  if (closed : bool) then mret (Err Error.SessionClosed) else
  rx ← shutdown_rx;
  mret (Ok rx).

(** One poll of the [select!] of [Session::accept], with the lock on the accept
    queue held; [None] is pending. *)
Definition accept_poll (rx : R) : SM (option (MuxResult Loc)) :=
  changed ← sget (λ s, watch_changed rx (s_shutdown s));
  match changed with
  | Some _ => mret (Some (Err Error.SessionClosed))
  | None =>
    next ← (λ s, let r := chan_try_recv (s_accept s) in (fst r, set_accept (snd r) s));
    match next with
    | None => mret None
    | Some loc =>
      st ← sget (λ s, s_heap s !! loc);
      match st with
      | None => mret None
      | Some st =>
        sent ← s_send (Frame.ack (id st));
        if negb sent then mret (Some (Err Error.SessionClosed)) else mret (Some (Ok loc))
      end
    end
  end.

(** ** Closing *)

(** [Session::close] up to the join of the tasks: the tasks it has to join. *)
Definition close_start : SM (list Task) :=
  initiate_shutdown ErrorCode.Normal;;
  tasks ← sget s_tasks;
  sput (set_tasks None);;
  mret (default [] tasks).

(** One turn of [closer_task]; [None] ends it. *)
Definition closer_turn (rx : R) : SM (option R) :=
  changed ← sget (λ s, watch_changed rx (s_shutdown s));
  match changed with
  | Some rx' =>
    down ← sget (λ s, watch_borrow (s_shutdown s));
    mret (if (down : bool) then None else Some rx')
  | None =>
    next ← (λ s, let r := chan_try_recv (s_closer s) in (fst r, set_closer (snd r) s));
    match next with
    | Some id => reg_remove id;; mret (Some rx)
    | None => mret (Some rx)
    end
  end.

(** ** The user's handle *)

(** [struct Stream] is a reference; its methods are the stream's, and [Drop]
    runs [on_user_drop]. *)
Definition stream_reset (loc : Loc) : SM (option unit) := on_stream loc local_reset.
Definition stream_poll_read (cx : Waker) (buf : ReadBuf.t) (loc : Loc)
  : SM (option (option (PollIo unit) * ReadBuf.t)) := on_stream loc (poll_read cx buf).
Definition stream_poll_write (cx : Waker) (buf : list byte) (loc : Loc)
  : SM (option (PollIo nat)) := on_stream loc (poll_write cx buf).
Definition stream_poll_flush : PollIo unit := Ready (Ok ()).
Definition stream_poll_shutdown (loc : Loc) : SM (PollIo unit) :=
  on_stream loc local_fin;; mret (Ready (Ok ())).
Definition stream_drop (loc : Loc) : SM (option unit) := on_stream loc on_user_drop.

End Api.
