(* ===== verification/Keepalive.v ===== *)
(** * The keepalive task ([src/session/keepalive.rs]) *)

From S2P Require Import Prelude Machine Errors Config Ids Frames Crates Window StreamInner Session.
From Stdlib Require Import ZArith Lia.

Local Open Scope Z_scope.

(** [await_pong] on the pongs that arrive in time: the ones left in the channel
    after the match, or [None] when the deadline passes first.  A closed channel
    ([closed]) ends the wait like a match. *)
Fixpoint await_pong (expected : Z) (pongs : list Z) (closed : bool) : option (list Z) :=
  match pongs with
  | [] => if closed then Some [] else None
  | got :: pongs' => if got =? expected then Some pongs' else await_pong expected pongs' closed
  end.

Section Keepalive.
Context {W : Type} {AW : AtomicWakerOps W}.
Context {C : Type → Type} {CH : UnboundedChannelOps C}.
Context {X R : Type} {WO : WatchOps X R}.
Context {DO : DrainOrder}.

Abbreviation SM := (SM (W := W) (C := C) (X := X)).

(** The state of the loop of [run]. *)
Record ka : Type := mk_ka { ka_rx : R; nonce : Z }.

(** The tick arm up to the wait for the pong: the nonce awaited, or [None] when
    the outbound queue is closed and the loop ends. *)
Definition ping (k : ka) : SM (option ka) :=
  let n := wrapping_add_u32 (nonce k) 1 in
  sent ← s_send (Frame.ping n);
  mret (if (sent : bool) then Some (mk_ka (ka_rx k) n) else None).

(** The rest of the tick arm: [pongs] arrive before the deadline. *)
Definition settle (k : ka) (pongs : list Z) (closed : bool) : SM (option ka) :=
  match await_pong (nonce k) pongs closed with
  | Some _ => mret (Some k)
  | None => initiate_shutdown ErrorCode.Timeout;; mret None
  end.

(** The shutdown arm. *)
Definition check_shutdown (k : ka) : SM (option (option ka)) :=
  changed ← sget (λ s, watch_changed (ka_rx k) (s_shutdown s));
  match changed with
  | None => mret None
  | Some rx' =>
    down ← sget (λ s, watch_borrow (s_shutdown s));
    mret (Some (if (down : bool) then None else Some (mk_ka rx' (nonce k))))
  end.

(** [let mut nonce: u32 = 0]. *)
Definition ka_start (rx : R) : ka := mk_ka rx 0.

End Keepalive.
