(* ===== verification/Writer.v ===== *)
(** * The outbound frame loop ([src/session/writer.rs])

    The sink is [tokio_util::codec::FramedWrite] over the connection, a
    parameter with its documented behaviour: [feed] encodes a frame into the
    sink's buffer, [flush] hands the whole buffer to the connection. *)

From S2P Require Import Prelude Machine Errors Config Ids Frames Header Codec Crates Window.
From S2P Require Import StreamInner Session.
From Stdlib Require Import ZArith Lia.

Local Open Scope Z_scope.

(** [FramedWrite]: [flushed] are the bytes the connection took, [unflushed] the
    encoded bytes still buffered.  An operation may fail for the connection's
    reasons, and an encoder error is passed on. *)
Class FramedWriteOps (K : Type) : Type := {
  fw_new : FrameCodec.t → K;
  fw_feed : Frame.t → K → MuxResult unit * K;
  fw_flush : K → MuxResult unit * K;
  fw_codec : K → FrameCodec.t;
  flushed : K → list byte;
  unflushed : K → list byte;
  fw_new_spec : ∀ c, fw_codec (fw_new c) = c ∧ flushed (fw_new c) = [] ∧ unflushed (fw_new c) = [];
  fw_feed_codec : ∀ f k, fw_codec (snd (fw_feed f k)) = fw_codec k;
  fw_flush_codec : ∀ k, fw_codec (snd (fw_flush k)) = fw_codec k;
  (* an encoder error is the result, and adds nothing *)
  fw_feed_reject : ∀ f k e, fst (FrameCodec.encode (fw_codec k) f []) = Err e →
    is_ok (fst (fw_feed f k)) = false ∧
    flushed (snd (fw_feed f k)) ++ unflushed (snd (fw_feed f k)) = flushed k ++ unflushed k;
  (* success appends the encoding *)
  fw_feed_ok : ∀ f k, fst (fw_feed f k) = Ok () →
    flushed (snd (fw_feed f k)) ++ unflushed (snd (fw_feed f k)) =
      flushed k ++ unflushed k ++ snd (FrameCodec.encode (fw_codec k) f []);
  (* a failure loses no order: what went out is a prefix of what was buffered *)
  fw_feed_err : ∀ f k, is_ok (fst (fw_feed f k)) = false →
    flushed (snd (fw_feed f k)) `prefix_of` flushed k ++ unflushed k;
  fw_flush_ok : ∀ k, fst (fw_flush k) = Ok () →
    flushed (snd (fw_flush k)) = flushed k ++ unflushed k ∧ unflushed (snd (fw_flush k)) = [];
  fw_flush_err : ∀ k, is_ok (fst (fw_flush k)) = false →
    flushed (snd (fw_flush k)) `prefix_of` flushed k ++ unflushed k;
}.

Section Writer.
Context {W : Type} {AW : AtomicWakerOps W}.
Context {C : Type → Type} {CH : UnboundedChannelOps C}.
Context {X R : Type} {WO : WatchOps X R}.
Context {DO : DrainOrder}.
Context {K : Type} {FW : FramedWriteOps K}.

Abbreviation SM := (SM (W := W) (C := C) (X := X)).

(** [write_one]. *)
Definition write_one (frame : Frame.t) (sink : K) : MuxResult unit * K :=
  match fw_feed frame sink with
  | (Err e, sink) => (Err e, sink)
  | (Ok _, sink) => fw_flush sink
  end.

(** [out_rx.recv()] / [try_recv()] when a frame is there. *)
Definition recv_out : SM (option Frame.t) := λ s,
  let r := chan_try_recv (s_out s) in (fst r, set_out (snd r) s).

(** The receive arm of the loop of [run]; [false] ends the loop, [None] is an
    empty queue. *)
Definition write_next (sink : K) : SM (option (bool * K)) :=
  frame ← recv_out;
  match frame with
  | None => mret None
  | Some frame =>
    let '(r, sink) := write_one frame sink in
    match r with
    | Ok _ => mret (Some (true, sink))
    | Err _ => initiate_shutdown ErrorCode.InternalError;; mret (Some (false, sink))
    end
  end.

(** One turn of the loop: the shutdown watch first. *)
Definition writer_turn (rx : R) (sink : K) : SM (option R * K) :=
  changed ← sget (λ s, watch_changed rx (s_shutdown s));
  match changed with
  | Some rx' =>
    down ← sget (λ s, watch_borrow (s_shutdown s));
    mret (if (down : bool) then None else Some rx', sink)
  | None =>
    r ← write_next sink;
    match r with
    | None => mret (Some rx, sink)
    | Some (go, sink) => mret (if (go : bool) then Some rx else None, sink)
    end
  end.

(** The [while let] of [drain]; its fuel is the length of the queue.  [false]
    is the early return. *)
Fixpoint feed_all (fuel : nat) (sink : K) : SM (bool * K) :=
  match fuel with
  | O => mret (true, sink)
  | S fuel' =>
    frame ← recv_out;
    match frame with
    | None => mret (true, sink)
    | Some frame =>
      let '(r, sink) := fw_feed frame sink in
      match r with
      | Err _ => mret (false, sink)
      | Ok _ => feed_all fuel' sink
      end
    end
  end.

(** [drain]: the sink after it; nothing is reported. *)
Definition drain (sink : K) : SM K :=
  n ← sget (λ s, length (queued (s_out s)));
  r ← feed_all n sink;
  mret (if fst r : bool then snd (fw_flush (snd r)) else snd r).

(** [FramedWrite::new(writer, FrameCodec::new(max_frame_size))]. *)
Definition writer_sink (config : Config.t) : K :=
  fw_new (FrameCodec.new (Config.max_frame_size config)).

End Writer.

(** ** A sink over a connection that never fails, and one that fails after a
    number of flushes *)

Record mem_sink : Type := mk_mem { ms_codec : FrameCodec.t; ms_out : list byte; ms_buf : list byte; ms_budget : option nat }.

Definition mem_feed (f : Frame.t) (k : mem_sink) : MuxResult unit * mem_sink :=
  match FrameCodec.encode (ms_codec k) f [] with
  | (Err e, _) => (Err e, k)
  | (Ok _, bs) => (Ok (), mk_mem (ms_codec k) (ms_out k) (ms_buf k ++ bs) (ms_budget k))
  end.

Definition mem_flush (k : mem_sink) : MuxResult unit * mem_sink :=
  match ms_budget k with
  | Some O => (Err (Error.Io (Error.io_os Io.BrokenPipe)), k)
  | b => (Ok (), mk_mem (ms_codec k) (ms_out k ++ ms_buf k) [] (pred <$> b))
  end.

#[export] Program Instance mem_sink_ops : FramedWriteOps mem_sink := {|
  fw_new c := mk_mem c [] [] None;
  fw_feed := mem_feed;
  fw_flush := mem_flush;
  fw_codec := ms_codec;
  flushed := ms_out;
  unflushed := ms_buf;
|}.
Solve All Obligations with
  (unfold mem_feed, mem_flush; intros; simpl in *; repeat case_match; simplify_eq/=;
   rewrite ?app_nil_r, <- ?app_assoc; try done;
   by apply prefix_app_r).
