(* ===== verification/SessionInv.v ===== *)
(** * The session invariant

    What holds of a session's shared state whatever its tasks and users do, and
    how a stretch of session code may move it ([evolves], a preorder).  Every
    piece of session code is built from a few primitives, each of which
    evolves the session. *)

From S2P Require Import Prelude Machine Errors Config Ids Frames Header Codec Crates Window.
From S2P Require Import StreamState RecvBuffer StreamInner StreamFacts StreamInv Session Reader Api.
From S2P Require Import Keepalive.
From Stdlib Require Import ZArith Lia.

Local Open Scope Z_scope.

(** The frames a session may queue under a frame limit: well-formed, and no
    payload over the limit. *)
Definition frame_ok (max : Z) (f : Frame.t) : Prop :=
  Frame.wf f ∧ Z.of_nat (length (Frame.payload f)) ≤ max.

Definition is_goaway (f : Frame.t) : bool :=
  match f with Frame.GoAway _ => true | _ => false end.

Definition goaways (fs : list Frame.t) : nat := length (List.filter is_goaway fs).

Lemma goaways_app fs gs : goaways (fs ++ gs) = (goaways fs + goaways gs)%nat.
Proof. unfold goaways. by rewrite filter_app, length_app. Qed.

Lemma stream_frame_ok i max f : is_u32 i → 0 ≤ max → stream_frame i max f → frame_ok max f ∧ is_goaway f = false.
Proof.
  intros Hi Hmax. unfold frame_ok. destruct f as [j fl p|j fl d| |]; cbn; try done.
  - intros (-> & [(-> & _ & ?)|([-> | ->] & ->)]); split_and!; try done; cbn; try apply Hi; lia.
  - intros (-> & -> & ?). unfold is_u32. split_and!; try done; try apply Hi; lia.
Qed.

(** By how much a registry may exceed [max_streams]. *)
Class Slack : Type := slack : nat.

(** Not at all. *)
Definition no_slack : Slack := 0%nat.

Section MOk.
Context {W : Type} {AW : AtomicWakerOps W}.
Context {C : Type → Type} {CH : UnboundedChannelOps C}.

(** Stream code that keeps the stream's invariant, moves its lifecycle forward
    and queues only frames of the stream. *)
Definition M_ok {A} (m : M (W := W) (C := C) A) : Prop := ∀ i cfg s l,
  1 ≤ Config.max_frame_size cfg → stream_inv i cfg s →
  stream_inv i cfg (fst (snd (m (s, l)))) ∧
  StreamState.le (state s) (state (fst (snd (m (s, l))))) ∧
  (ack_received s = true → ack_received (fst (snd (m (s, l)))) = true) ∧
  rx_alive (out_ch (snd (snd (m (s, l))))) = rx_alive (out_ch l) ∧
  ∃ fs, queued (out_ch (snd (snd (m (s, l))))) = queued (out_ch l) ++ fs ∧
    Forall (stream_frame i (Config.max_frame_size cfg)) fs.

Lemma M_ok_ret {A} (a : A) : M_ok (mret a).
Proof. intros i cfg s l Hm Hi. cbn. split_and!; try done. exists []. by rewrite app_nil_r. Qed.

Lemma M_ok_get {A} (f : StreamInner W → A) : M_ok (get f).
Proof. intros i cfg s l Hm Hi. cbn. split_and!; try done. exists []. by rewrite app_nil_r. Qed.

Lemma M_ok_bind {A B} (m : M A) (f : A → M B) :
  M_ok m → (∀ a, M_ok (f a)) → M_ok (mbind f m).
Proof.
  intros Hm Hf i cfg s l Hmax Hi. unfold mbind, M_bind.
  destruct (Hm i cfg s l Hmax Hi) as (Hi1 & Hle1 & Hk1 & Ha1 & fs1 & Hq1 & Hfs1).
  destruct (m (s, l)) as [a [s1 l1]]. cbn in *.
  destruct (Hf a i cfg s1 l1 Hmax Hi1) as (Hi2 & Hle2 & Hk2 & Ha2 & fs2 & Hq2 & Hfs2).
  split_and!; [done|by etrans|auto|congruence|]. exists (fs1 ++ fs2). rewrite Hq2, Hq1, app_assoc.
  split; [done|by apply Forall_app].
Qed.

Lemma M_ok_when b m : M_ok m → M_ok (when b m).
Proof. intros Hm. unfold when. destruct b; [done|apply M_ok_ret]. Qed.

(** Code whose effect is one of the operations. *)
Lemma M_ok_op {A} (m : M A) (o : op) :
  op_typed o → (∀ s l, snd (m (s, l)) = apply o (s, l)) → M_ok m.
Proof.
  intros Ho Hm i cfg s l Hmax Hi. rewrite Hm.
  destruct (apply_step_ok o i cfg s l Ho Hmax Hi) as (fs & (Hi' & Hle & _ & Hfs) & Hq).
  pose proof Hi as (_ & _ & Hwf & _). destruct (apply_appends o s Hwf l) as (_ & _ & Ha).
  split_and!; [done|done|by apply apply_keeps_ack|done|]. exists fs. split; [done|].
  destruct Hfs as [->|(f & -> & ? & _)]; [done|by constructor].
Qed.

Lemma mark_acked_M_ok : M_ok mark_acked.
Proof. by apply (M_ok_op _ OAck). Qed.
Lemma remote_fin_M_ok : M_ok remote_fin.
Proof. by apply (M_ok_op _ ORemoteFin). Qed.
Lemma remote_reset_M_ok : M_ok remote_reset.
Proof. by apply (M_ok_op _ ORemoteReset). Qed.
Lemma local_reset_M_ok : M_ok local_reset.
Proof. by apply (M_ok_op _ OReset). Qed.
Lemma push_data_M_ok p : M_ok (push_data p).
Proof. by apply (M_ok_op _ (OPush p)). Qed.
Lemma force_close_M_ok : M_ok force_close.
Proof. by apply (M_ok_op _ OForceClose). Qed.

End MOk.

Create HintDb mok discriminated.
#[export] Hint Resolve M_ok_ret M_ok_get mark_acked_M_ok remote_fin_M_ok remote_reset_M_ok
  local_reset_M_ok push_data_M_ok force_close_M_ok : mok.

(** Splits a sequence of stream code into its operations. *)
Ltac m_ok :=
  cbv zeta;
  repeat first
    [ solve [auto with mok] | apply M_ok_when | apply M_ok_bind; [|intros ?] | case_match ].

Lemma deliver_data_M_ok {BF : BitflagsOps} {W C} {AW : AtomicWakerOps W} {CH : UnboundedChannelOps C}
    flags payload : M_ok (W := W) (C := C) (deliver_data flags payload).
Proof. unfold deliver_data. m_ok. Qed.

(** ** The invariant *)

Section SessionInv.
Context {BF : BitflagsOps}.
Context {W : Type} {AW : AtomicWakerOps W}.
Context {C : Type → Type} {CH : UnboundedChannelOps C}.
Context {X R : Type} {WO : WatchOps X R}.
Context {DO : DrainOrder}.
Implicit Types (s : Session W C X).

(** A stream of the session's heap. *)
Definition heap_ok (cfg : Config.t) (st : StreamInner W) : Prop :=
  stream_inv (id st) cfg st ∧ is_u32 (id st) ∧ id st ≠ 0.

(** The registry is within [max_streams], and beyond it by no more than calls of
    [open] that overlap allow; see [Overlap]. *)
Context {SL : Slack}.

Record session_inv (s : Session W C X) : Prop := {
  inv_config : Config.valid (s_config s);
  inv_heap : Forall (heap_ok (s_config s)) (s_heap s);
  inv_registry : ∀ i loc, s_registry s !! i = Some loc →
    ∃ st, s_heap s !! loc = Some st ∧ id st = i;
  inv_accept : Forall (λ loc, ∃ st, s_heap s !! loc = Some st ∧
    Role.owns (s_role s) (id st) = false) (queued (s_accept s));
  inv_alloc : ∃ k, 0 ≤ k ∧ StreamIdAllocator.next (s_id_alloc s) = Role.first_id (s_role s) + 2 * k ∧
    StreamIdAllocator.next (s_id_alloc s) ≤ U32_MAX;
  inv_local : ∀ i loc, s_registry s !! i = Some loc → Role.owns (s_role s) i = true →
    i < StreamIdAllocator.next (s_id_alloc s);
  inv_size : StreamRegistry.len (s_registry s) ≤ Config.max_streams (s_config s) + Z.of_nat slack;
  inv_out : Forall (frame_ok (Config.max_frame_size (s_config s))) (queued (s_out s));
  inv_watch : watch_borrow (s_shutdown s) = true → s_is_closing s = true;
}.

(** With no slack the limit holds as it stands. *)
Lemma inv_limit s :
  slack = 0%nat → session_inv s → StreamRegistry.len (s_registry s) ≤ Config.max_streams (s_config s).
Proof. intros E [_ _ _ _ _ _ H _ _]. rewrite E in H. lia. Qed.

Lemma valid_room s : Config.valid (s_config s) → 0 ≤ Config.max_streams (s_config s) + Z.of_nat slack.
Proof. intros (_ & _ & _ & ?). lia. Qed.

(** How session code moves the session: the identity of the session is fixed,
    closing and the peer's departure are final, streams stay where they are and
    only move forward, the writer's end of the queue is left alone, and the frames queued are acceptable, with at most one
    GoAway, which marks the start of the shutdown. *)
Definition evolves (s s' : Session W C X) : Prop :=
  s_config s' = s_config s ∧ s_role s' = s_role s ∧
  (s_is_closing s = true → s_is_closing s' = true) ∧
  ((s_peer_gone s = true → s_peer_gone s' = true) ∧
   StreamIdAllocator.next (s_id_alloc s) ≤ StreamIdAllocator.next (s_id_alloc s')) ∧
  (∀ loc st, s_heap s !! loc = Some st → ∃ st', s_heap s' !! loc = Some st' ∧
     id st' = id st ∧ StreamState.le (state st) (state st') ∧
     (ack_received st = true → ack_received st' = true)) ∧
  rx_alive (s_out s') = rx_alive (s_out s) ∧
  ∃ fs, queued (s_out s') = queued (s_out s) ++ fs ∧
    Forall (frame_ok (Config.max_frame_size (s_config s))) fs ∧
    (goaways fs ≤ if s_is_closing s then 0 else if s_is_closing s' then 1 else 0)%nat.

#[global] Instance evolves_preorder : PreOrder evolves.
Proof.
  split.
  - intros s. unfold evolves. split_and!; try done.
    + intros loc st H. exists st. by split_and!.
    + exists []. rewrite app_nil_r. split_and!; [done|done|apply Nat.le_0_l].
  - intros s1 s2 s3 (C1 & R1 & K1 & [P1 N1] & H1 & A1 & fs1 & Q1 & F1 & G1) (C2 & R2 & K2 & [P2 N2] & H2 & A2 & fs2 & Q2 & F2 & G2).
    unfold evolves. split_and!; try congruence; auto; [lia|..].
    + intros loc st Hl. destruct (H1 loc st Hl) as (st1 & Hl1 & E1 & L1 & M1).
      destruct (H2 loc st1 Hl1) as (st2 & Hl2 & E2 & L2 & M2). exists st2.
      split_and!; [done|congruence|by etrans|auto].
    + exists (fs1 ++ fs2). rewrite C1 in F2. rewrite Q2, Q1, <- app_assoc, Forall_app, goaways_app.
      split_and!; try done.
      destruct (s_is_closing s1), (s_is_closing s2), (s_is_closing s3); try lia;
        specialize (K2 eq_refl); try specialize (K1 eq_refl); done.
Qed.

(** Session code that keeps the invariant and evolves the session. *)
Definition SM_ok {A} (m : SM (W := W) (C := C) (X := X) A) : Prop :=
  ∀ s, session_inv s → session_inv (snd (m s)) ∧ evolves s (snd (m s)).

Lemma SM_ok_ret {A} (a : A) : SM_ok (mret a).
Proof. intros s Hs. by split. Qed.

Lemma SM_ok_get {A} (f : Session W C X → A) : SM_ok (sget f).
Proof. intros s Hs. by split. Qed.

Lemma SM_ok_bind {A B} (m : SM A) (f : A → SM B) :
  SM_ok m → (∀ a, SM_ok (f a)) → SM_ok (mbind f m).
Proof.
  intros Hm Hf s Hs. unfold mbind, SM_bind. destruct (Hm s Hs) as [Hs1 He1].
  destruct (Hf (fst (m s)) (snd (m s)) Hs1) as [Hs2 He2]. split; [done|by etrans].
Qed.

Lemma SM_ok_when b m : SM_ok m → SM_ok (swhen b m).
Proof. intros Hm. unfold swhen. destruct b; [done|apply SM_ok_ret]. Qed.

(** ** The primitives *)

(** An update of fields the invariant does not mention. *)
Lemma quiet_update s s' :
  session_inv s → s_config s' = s_config s → s_role s' = s_role s →
  s_id_alloc s' = s_id_alloc s → s_registry s' = s_registry s → s_heap s' = s_heap s →
  s_out s' = s_out s → queued (s_accept s') = queued (s_accept s) →
  (s_is_closing s = true → s_is_closing s' = true) →
  (s_peer_gone s = true → s_peer_gone s' = true) →
  (watch_borrow (s_shutdown s') = true → s_is_closing s' = true) →
  session_inv s' ∧ evolves s s'.
Proof.
  intros [I1 I2 I3 I4 I5 I6 I7 I8 I9] Ec Er Ea Eg Eh Eo Eacc Hc Hp Hwt. split.
  - constructor; rewrite ?Ec, ?Er, ?Ea, ?Eg, ?Eh, ?Eo, ?Eacc; auto.
  - unfold evolves. rewrite Eh, Eo, Ea. split_and!; try done.
    + intros loc st H. exists st. by split_and!.
    + exists []. rewrite app_nil_r. split_and!; [done|done|apply Nat.le_0_l].
Qed.

(** Control frames carry no payload. *)
Definition control (f : Frame.t) : Prop := Frame.wf f ∧ Frame.payload f = [].

Lemma control_ok f max : control f → 0 ≤ max → frame_ok max f.
Proof. intros [Hw Hp] Hm. split; [done|]. by rewrite Hp. Qed.

Lemma s_send_spec f s :
  session_inv s → control f →
  session_inv (snd (s_send f s)) ∧
  queued (s_out (snd (s_send f s))) =
    queued (s_out s) ++ (if rx_alive (s_out s) then [f] else []).
Proof.
  intros [I1 I2 I3 I4 I5 I6 I7 I8 I9] Hf. cbn.
  assert (queued (snd (chan_send f (s_out s))) =
    queued (s_out s) ++ (if rx_alive (s_out s) then [f] else [])) as Hq.
  { rewrite queued_send. destruct (rx_alive (s_out s)); [done|by rewrite app_nil_r]. }
  split; [|done]. constructor; cbn; auto. rewrite Hq. apply Forall_app. split; [done|].
  destruct (rx_alive (s_out s)); [|done]. constructor; [|done]. apply control_ok; [done|].
  destruct I1 as (_ & _ & ? & _). lia.
Qed.

Lemma s_send_ok f : control f → is_goaway f = false → SM_ok (s_send f).
Proof.
  intros Hf Hg s Hs. destruct (s_send_spec f s Hs Hf) as [Hs' Hq]. split; [done|].
  unfold evolves. split_and!; try done.
  - intros loc st H. exists st. by split_and!.
  - apply rx_alive_send.
  - eexists. split; [exact Hq|]. destruct Hs as [(_ & _ & ? & _) _ _ _ _ _ _ _ _].
    destruct (rx_alive (s_out s)); [|split; [done|apply Nat.le_0_l]]. split.
    + constructor; [|done]. apply control_ok; [done|lia].
    + unfold goaways. cbn. rewrite Hg. apply Nat.le_0_l.
Qed.

Lemma len_delete i (g : StreamRegistry.t) :
  StreamRegistry.len (snd (StreamRegistry.remove i g)) ≤ StreamRegistry.len g.
Proof.
  unfold StreamRegistry.len, StreamRegistry.remove. cbn [snd].
  apply Nat2Z.inj_le. rewrite map_size_delete. destruct (g !! i); simpl; lia.
Qed.

Lemma reg_remove_ok i : SM_ok (reg_remove i).
Proof.
  intros s [I1 I2 I3 I4 I5 I6 I7 I8 I9]. split.
  - constructor; cbn; auto.
    + intros j loc H. apply lookup_delete_Some in H as [_ H]. by apply I3.
    + intros j loc H. apply lookup_delete_Some in H as [_ H]. by apply (I6 j loc).
    + eapply Z.le_trans; [apply len_delete|exact I7].
  - unfold evolves. cbn. split_and!; try done.
    + intros loc st H. exists st. by split_and!.
    + exists []. rewrite app_nil_r. split_and!; [done|done|apply Nat.le_0_l].
Qed.

Lemma on_stream_ok {A} loc (m : M (W := W) (C := C) A) : M_ok m → SM_ok (on_stream loc m).
Proof.
  intros Hm s Hs. unfold on_stream. destruct (s_heap s !! loc) as [st|] eqn:Hl; [|by split].
  pose proof Hs as [I1 I2 I3 I4 I5 I6 I7 I8 I9].
  destruct (Forall_lookup_1 _ _ _ _ I2 Hl) as (Hst & Hu & Hnz).
  destruct I1 as (Ht & Hw & Hmax & Hn).
  destruct (Hm (id st) (s_config s) st (mkLinks (s_out s) (s_closer s) (s_woken s)) Hmax Hst)
    as (Hi' & Hle & Hk & Ha & fs & Hq & Hfs).
  destruct (m (st, mkLinks (s_out s) (s_closer s) (s_woken s))) as [a [st' l']]. cbn in *.
  pose proof Hi' as (Hid & _).
  assert (Forall (λ f, frame_ok (Config.max_frame_size (s_config s)) f ∧ is_goaway f = false) fs) as Hok.
  { eapply Forall_impl; [|exact Hfs]. intros f Hf. eapply stream_frame_ok; [..|exact Hf]; [done|lia]. }
  assert (∀ l2 st2, s_heap s !! l2 = Some st2 → ∃ st2', <[loc := st']> (s_heap s) !! l2 = Some st2' ∧
    id st2' = id st2 ∧ StreamState.le (state st2) (state st2') ∧
    (ack_received st2 = true → ack_received st2' = true)) as Hheap.
  { intros l2 st2 H2. destruct (decide (l2 = loc)) as [->|Hne].
    - rewrite Hl in H2. simplify_eq. exists st'. rewrite list_lookup_insert_eq by (by eapply lookup_lt_Some).
      by split_and!.
    - exists st2. rewrite list_lookup_insert_ne by done. by split_and!. }
  split.
  - constructor; cbn; auto.
    + done.
    + apply Forall_insert; [done|]. unfold heap_ok. by rewrite Hid.
    + intros i l2 H2. destruct (I3 i l2 H2) as (st2 & H3 & <-).
      destruct (Hheap l2 st2 H3) as (st2' & ? & ? & _). eauto.
    + eapply Forall_impl; [|exact I4]. intros l2 (st2 & H2 & Ho).
      destruct (Hheap l2 st2 H2) as (st2' & ? & E2 & _). exists st2'. by rewrite E2.
    + rewrite Hq. apply Forall_app. split; [done|]. eapply Forall_impl; [|exact Hok]. by intros f [? _].
  - unfold evolves. cbn. split_and!; try done. exists fs. split_and!; [done| |].
    + eapply Forall_impl; [|exact Hok]. by intros f [? _].
    + enough (goaways fs = 0%nat) as -> by apply Nat.le_0_l. unfold goaways.
      clear -Hok. induction Hok as [|f fs [_ Hf] _ IH]; [done|]. cbn. by rewrite Hf.
Qed.

Lemma force_close_all_ok locs : SM_ok (force_close_all locs).
Proof.
  induction locs as [|loc locs IH]; [apply SM_ok_ret|]. cbn [force_close_all].
  apply SM_ok_bind; [apply on_stream_ok, force_close_M_ok|done].
Qed.

(** The shutdown up to the loop over the streams. *)
Definition shutdown_prefix (code : ErrorCode.t) (s : Session W C X) : Session W C X :=
  set_registry ∅ (set_out (snd (chan_send (Frame.go_away code) (s_out s))) (set_is_closing true s)).

Lemma initiate_shutdown_unfold code s :
  s_is_closing s = false →
  snd (initiate_shutdown code s) =
    (λ s1, set_shutdown (snd (watch_send true (s_shutdown s1))) s1)
      (snd (force_close_all (snd <$> drain_order (s_registry s)) (shutdown_prefix code s))).
Proof. intros H. unfold initiate_shutdown, mbind, SM_bind, sget. cbn [fst snd]. by rewrite H. Qed.

Lemma initiate_shutdown_again code s :
  s_is_closing s = true → snd (initiate_shutdown code s) = s.
Proof.
  intros H. unfold initiate_shutdown, mbind, SM_bind, sget. cbn. rewrite H. destruct s; cbn in *. by subst.
Qed.

Lemma shutdown_prefix_ok code s :
  session_inv s → ErrorCode.wf code → s_is_closing s = false →
  session_inv (shutdown_prefix code s) ∧ evolves s (shutdown_prefix code s).
Proof.
  intros Hs Hc Hcl.
  destruct (quiet_update s (set_is_closing true s) Hs) as [Hs1 _]; try done.
  destruct (s_send_spec (Frame.go_away code) _ Hs1) as [Hs2 Hq]; [by split|].
  pose proof Hs2 as [I1 I2 I3 I4 I5 I6 I7 I8 I9]. split.
  - constructor; cbn in *; auto.
    + intros i loc H. by rewrite lookup_empty in H.
    + intros i loc H. by rewrite lookup_empty in H.
    + unfold StreamRegistry.len. rewrite map_size_empty. by apply (valid_room s).
  - unfold evolves. cbn in *. split_and!; try done.
    + intros loc st H. exists st. by split_and!.
    + apply rx_alive_send.
    + eexists. split; [exact Hq|]. rewrite Hcl. destruct I1 as (_ & _ & ? & _).
      destruct (rx_alive (s_out s)); [|split; [done|cbn; lia]]. split; [|cbn; lia].
      constructor; [|done]. apply control_ok; [by split|lia].
Qed.

Lemma initiate_shutdown_ok code : ErrorCode.wf code → SM_ok (initiate_shutdown code).
Proof.
  intros Hc s Hs. destruct (s_is_closing s) eqn:Hcl; [by rewrite initiate_shutdown_again|].
  rewrite initiate_shutdown_unfold by done.
  destruct (shutdown_prefix_ok code s Hs Hc Hcl) as [Hs1 He1].
  destruct (force_close_all_ok (snd <$> drain_order (s_registry s)) _ Hs1) as [Hs2 He2].
  set (s2 := snd (force_close_all _ _)) in *.
  destruct (quiet_update s2 (set_shutdown (snd (watch_send true (s_shutdown s2))) s2) Hs2)
    as [Hs3 He3]; try done.
  { intros _. cbn. destruct He2 as (_ & _ & Hk & _). by apply Hk. }
  split; [done|]. transitivity (shutdown_prefix code s); [done|]. by transitivity s2.
Qed.

Lemma note_peer_gone_ok code : SM_ok (note_peer_gone code).
Proof. intros s Hs. apply quiet_update; try done; apply (inv_watch s Hs). Qed.

(** A new stream enters the heap. *)
Lemma alloc_stream_ok i origin s :
  session_inv s → is_u32 i → i ≠ 0 →
  let s' := snd (alloc_stream (new i origin (s_config s)) s) in
  session_inv s' ∧ evolves s s' ∧
  s_heap s' !! length (s_heap s) = Some (new i origin (s_config s)).
Proof.
  intros [I1 I2 I3 I4 I5 I6 I7 I8 I9] Hu Hnz s'.
  assert (∀ l st, s_heap s !! l = Some st → s_heap s' !! l = Some st) as Hold
    by (intros; by apply lookup_app_l_Some).
  split_and!.
  - subst s'. constructor; cbn; auto.
    + apply Forall_app. split; [done|]. constructor; [|done].
      split_and!; [apply stream_new_inv, I1|done|done].
    + intros j l H. destruct (I3 j l H) as (st & ? & ?). eauto.
    + eapply Forall_impl; [|exact I4]. intros l (st & ? & ?). eauto.
  - unfold evolves. cbn. split_and!; try done.
    + intros l st H. exists st. split_and!; [by apply Hold|done|done|done].
    + exists []. rewrite app_nil_r. split_and!; [done|done|apply Nat.le_0_l].
  - by apply list_lookup_middle.
Qed.

(** A stream of the heap enters the registry. *)
Lemma reg_insert_ok i loc st s :
  session_inv s → s_heap s !! loc = Some st → id st = i →
  StreamRegistry.len (s_registry s) < Config.max_streams (s_config s) + Z.of_nat slack →
  (Role.owns (s_role s) i = true → i < StreamIdAllocator.next (s_id_alloc s)) →
  session_inv (snd (reg_insert i loc s)) ∧ evolves s (snd (reg_insert i loc s)).
Proof.
  intros Hs Hl Hi Hlen Hown. unfold reg_insert, StreamRegistry.insert.
  destruct (s_registry s !! i) eqn:Hreg; [apply quiet_update; try done; apply (inv_watch s Hs)|].
  destruct Hs as [I1 I2 I3 I4 I5 I6 I7 I8 I9]. split.
  - constructor; cbn; auto.
    + intros j l H. apply lookup_insert_Some in H as [[<- <-]|[_ H]]; eauto.
    + intros j l H Hj. apply lookup_insert_Some in H as [[<- _]|[_ H]]; eauto.
    + unfold StreamRegistry.len in *. rewrite map_size_insert_None by done. lia.
  - unfold evolves. cbn. split_and!; try done.
    + intros l st' H. exists st'. by split_and!.
    + exists []. rewrite app_nil_r. split_and!; [done|done|apply Nat.le_0_l].
Qed.

(** A stream of the peer enters the accept queue. *)
Lemma accept_push_ok loc st s :
  session_inv s → s_heap s !! loc = Some st → Role.owns (s_role s) (id st) = false →
  let s' := set_accept (snd (chan_send loc (s_accept s))) s in
  session_inv s' ∧ evolves s s'.
Proof.
  intros [I1 I2 I3 I4 I5 I6 I7 I8 I9] Hl Ho s'. split.
  - subst s'. constructor; cbn; auto. rewrite queued_send.
    destruct (rx_alive (s_accept s)); [|done]. apply Forall_app. split; [done|]. constructor; eauto.
  - unfold evolves. cbn. split_and!; try done.
    + intros l st' H. exists st'. by split_and!.
    + exists []. rewrite app_nil_r. split_and!; [done|done|apply Nat.le_0_l].
Qed.

(** ** The reader *)

Lemma control_rst i : is_u32 i → control (Frame.rst i).
Proof. intros Hi. split; [|done]. by split. Qed.

Lemma control_syn i : is_u32 i → control (Frame.syn i).
Proof. intros Hi. split; [|done]. by split. Qed.

Lemma control_ack i : is_u32 i → control (Frame.ack i).
Proof. intros Hi. split; [|done]. by split. Qed.

Lemma peer_owned r i : i ≠ 0 → Role.owns r i = false → Role.owns (Role.peer r) i = true.
Proof.
  intros Hi. destruct r; cbn; destruct (Z.eqb_spec i 0); try done; destruct (i mod 2 =? 0); done.
Qed.

Lemma handle_syn_ok i : is_u32 i → i ≠ 0 → SM_ok (handle_syn i).
Proof.
  intros Hu Hnz s Hs. unfold handle_syn, mbind, SM_bind, sget. cbn [fst snd].
  pose proof (s_send_ok (Frame.rst i) (control_rst i Hu) eq_refl) as Hrst.
  destruct (Role.owns (s_role s) i) eqn:Hown; [by apply (SM_ok_ret _ s)|].
  destruct (s_peer_gone s); [by apply Hrst|].
  destruct (Z.leb_spec (Config.max_streams (s_config s)) (StreamRegistry.len (s_registry s)));
    [by apply Hrst|].
  destruct (alloc_stream_ok i Remote s Hs Hu Hnz) as (Hs1 & He1 & Hl1).
  change (fst (alloc_stream (new i Remote (s_config s)) s)) with (length (s_heap s)).
  set (s1 := snd (alloc_stream _ s)) in *.
  destruct (reg_insert_ok i (length (s_heap s)) _ s1 Hs1 Hl1 eq_refl) as [Hs2 He2]; [cbn; lia|cbn; congruence|].
  set (r2 := reg_insert i (length (s_heap s)) s1) in *.
  assert (evolves s (snd r2)) as He by (by transitivity s1).
  destruct (fst r2); [|by split]. cbn [fst snd].
  destruct He2 as (Ec & Er & _ & _ & Hh2 & _). destruct (Hh2 _ _ Hl1) as (st2 & Hl2 & Hid2 & _).
  destruct (accept_push_ok (length (s_heap s)) st2 (snd r2) Hs2 Hl2) as [Hs3 He3].
  { rewrite Hid2, Er. exact Hown. }
  set (s3 := set_accept _ (snd r2)) in *. assert (evolves s s3) by (by transitivity (snd r2)).
  destruct (negb _); [|by split].
  destruct (reg_remove_ok i s3 Hs3) as [Hs4 He4].
  destruct (Hrst _ Hs4) as [Hs5 He5]. split; [done|].
  transitivity s3; [done|]. by transitivity (snd (reg_remove i s3)).
Qed.

Lemma close_code_wf e : ErrorCode.wf (close_code e).
Proof. by destruct e. Qed.

(** Splits session code into its primitives. *)
Ltac sm_ok :=
  repeat first
    [ apply SM_ok_ret | apply SM_ok_get | apply SM_ok_when | apply reg_remove_ok
    | apply note_peer_gone_ok | apply initiate_shutdown_ok; by first [apply close_code_wf|done] | by apply handle_syn_ok
    | apply s_send_ok; [by first [apply control_rst|apply control_syn|apply control_ack]|done]
    | apply SM_ok_bind; [|intros ?] | case_match ].

Lemma handle_data_ok i flags payload : is_u32 i → SM_ok (handle_data i flags payload).
Proof.
  intros Hu. unfold handle_data. destruct (Z.eqb_spec i 0) as [|Hnz]; [apply SM_ok_ret|].
  sm_ok. apply on_stream_ok, deliver_data_M_ok.
Qed.

Lemma grant_M_ok d : is_u32 d → M_ok (W := W) (C := C) (grant_send_credit d).
Proof. intros Hd. by apply (M_ok_op _ (OGrant d)). Qed.

Lemma dispatch_ok f : Frame.wf f → SM_ok (dispatch f).
Proof.
  intros Hf. destruct f as [i fl p|i fl d|fl o|c]; cbn [dispatch] in *.
  - apply handle_data_ok, Hf.
  - sm_ok. apply on_stream_ok, grant_M_ok, Hf.
  - destruct (contains fl Flags.ACK); sm_ok.
    + intros s Hs. apply quiet_update; try done; apply (inv_watch s Hs).
    + apply s_send_ok; [|done]. split; [|done]. split; [done|apply Hf].
  - sm_ok.
Qed.

(** Items the decoder can produce: it only yields well-formed frames. *)
Definition item_ok (it : item) : Prop :=
  match it with NextFrame f => Frame.wf f | _ => True end.

Lemma on_item_ok it : item_ok it → SM_ok (on_item it).
Proof.
  destruct it as [f|e|]; cbn [on_item item_ok]; intros Hf.
  - apply SM_ok_bind; [by apply dispatch_ok|]. intros []; sm_ok.
  - sm_ok.
  - sm_ok.
Qed.

(** ** The user's side and the other tasks *)

Lemma allocate_ok s :
  session_inv s →
  let r := StreamIdAllocator.allocate (s_id_alloc s) in
  let s' := set_id_alloc (snd r) s in
  session_inv s' ∧ evolves s s' ∧
  ∀ i, fst r = Some i → is_u32 i ∧ i ≠ 0 ∧ Role.owns (s_role s) i = true ∧
    s_registry s' !! i = None ∧ i < StreamIdAllocator.next (s_id_alloc s').
Proof.
  intros [I1 I2 I3 I4 (k & Hk & Hn & Hle) I6 I7 I8 I9]. unfold StreamIdAllocator.allocate.
  set (cur := StreamIdAllocator.next (s_id_alloc s)) in *.
  assert (evolves s (set_id_alloc (snd (StreamIdAllocator.allocate (s_id_alloc s))) s)) as Hev.
  { unfold evolves. cbn. split_and!; try done.
    - unfold StreamIdAllocator.allocate. destruct (checked_add_u32 _ _) eqn:E; cbn; [|done].
      apply StreamIdAllocator.checked_add_u32_Some in E as [-> _]. lia.
    - intros l st H. exists st. by split_and!.
    - exists []. rewrite app_nil_r. split_and!; [done|done|apply Nat.le_0_l]. }
  unfold StreamIdAllocator.allocate in Hev. fold cur in Hev.
  destruct (checked_add_u32 cur 2) as [nxt|] eqn:E; cbn in *.
  - apply StreamIdAllocator.checked_add_u32_Some in E as [-> Hmax].
    split_and!; [|done|].
    + constructor; cbn; auto.
      * exists (k + 1). split_and!; [lia|lia|done].
      * intros i loc H Ho. specialize (I6 i loc H Ho). lia.
    + intros i [= <-]. assert (Role.owns (s_role s) cur = true) as Ho
        by (rewrite Hn; by apply Role.owns_first_plus).
      split_and!; [|by eapply Role.owns_nonzero|done| |cbn; lia].
      * split; [|lia]. rewrite Hn. destruct (s_role s); cbn; lia.
      * destruct (s_registry s !! cur) as [loc|] eqn:Hr; [|done]. specialize (I6 _ _ Hr Ho). lia.
  - split_and!; [|done|done]. constructor; cbn; eauto.
Qed.

Lemma open_start_ok : SM_ok open_start.
Proof.
  intros s Hs. unfold open_start, mbind, SM_bind, sget. cbn [fst snd].
  destruct (is_closed s || s_peer_gone s); [by apply (SM_ok_ret _ s)|].
  destruct (Z.leb_spec (Config.max_streams (s_config s)) (StreamRegistry.len (s_registry s)));
    [by apply (SM_ok_ret _ s)|].
  destruct (allocate_ok s Hs) as (Hs1 & He1 & Hid). set (s1 := set_id_alloc _ s) in *.
  destruct (fst (StreamIdAllocator.allocate (s_id_alloc s))) as [i|]; cbn [ok_or]; [|by split].
  destruct (Hid i eq_refl) as (Hu & Hnz & Ho & Hreg & Hlt).
  change (s_config s) with (s_config s1).
  destruct (alloc_stream_ok i Local s1 Hs1 Hu Hnz) as (Hs2 & He2 & Hl2).
  change (fst (alloc_stream (new i Local (s_config s1)) s1)) with (length (s_heap s1)).
  set (s2 := snd (alloc_stream _ s1)) in *.
  destruct (reg_insert_ok i (length (s_heap s1)) _ s2 Hs2 Hl2 eq_refl) as [Hs3 He3]; [cbn; lia|done|].
  set (r3 := reg_insert i (length (s_heap s1)) s2) in *.
  assert (evolves s (snd r3)) as He by (transitivity s1; [done|by transitivity s2]).
  destruct (fst r3); [|by split]. cbn [fst snd].
  destruct (s_send_ok (Frame.syn i) (control_syn i Hu) eq_refl _ Hs3) as [Hs4 He4].
  set (r4 := s_send (Frame.syn i) (snd r3)) in *.
  assert (evolves s (snd r4)) by (by transitivity (snd r3)).
  destruct (negb (fst r4)); [|by split]. cbn [fst snd].
  destruct (reg_remove_ok i (snd r4) Hs4) as [Hs5 He5]. split; [done|]. by transitivity (snd r4).
Qed.

Lemma wait_acked_M_ok cx : M_ok (W := W) (C := C) (wait_acked cx).
Proof. by apply (M_ok_op _ (OWaitAcked cx)). Qed.

Lemma open_poll_ok cx loc : SM_ok (open_poll cx loc).
Proof. apply on_stream_ok, wait_acked_M_ok. Qed.

Lemma open_finish_ok i loc outcome : is_u32 i → SM_ok (open_finish i loc outcome).
Proof. intros Hu. unfold open_finish. sm_ok. Qed.

Lemma shutdown_rx_ok : SM_ok shutdown_rx.
Proof.
  intros s Hs. apply quiet_update; try done. cbn.
  destruct (subscribe_spec (s_shutdown s)) as (_ & _ & -> & _). apply Hs.
Qed.

Lemma accept_start_ok : SM_ok accept_start.
Proof. unfold accept_start. sm_ok. apply shutdown_rx_ok. Qed.

Lemma try_recv_accept_ok : SM_ok (λ s, let r := chan_try_recv (s_accept s) in (fst r, set_accept (snd r) s)).
Proof.
  intros s [I1 I2 I3 I4 I5 I6 I7 I8 I9]. split.
  - constructor; cbn; auto. rewrite queued_try_recv. by apply Forall_tail.
  - unfold evolves. cbn. split_and!; try done.
    + intros l st H. exists st. by split_and!.
    + exists []. rewrite app_nil_r. split_and!; [done|done|apply Nat.le_0_l].
Qed.

Lemma accept_poll_ok rx : SM_ok (accept_poll rx).
Proof.
  unfold accept_poll. apply SM_ok_bind; [apply SM_ok_get|]. intros []; [apply SM_ok_ret|].
  apply SM_ok_bind; [apply try_recv_accept_ok|]. intros [loc|]; [|apply SM_ok_ret].
  intros s Hs. unfold mbind, SM_bind, sget. cbn [fst snd].
  destruct (s_heap s !! loc) as [st|] eqn:Hl; [|by apply (SM_ok_ret _ s)].
  pose proof (Forall_lookup_1 _ _ _ _ (inv_heap s Hs) Hl) as (_ & Hu & _).
  destruct (s_send_ok (Frame.ack (id st)) (control_ack _ Hu) eq_refl s Hs) as [Hs1 He1].
  by destruct (negb _).
Qed.

Lemma set_tasks_ok ts : SM_ok (sput (set_tasks ts)).
Proof. intros s Hs. apply quiet_update; try done; apply (inv_watch s Hs). Qed.

Lemma close_start_ok : SM_ok close_start.
Proof. unfold close_start. sm_ok. apply set_tasks_ok. Qed.

Lemma closer_turn_ok rx : SM_ok (closer_turn rx).
Proof.
  unfold closer_turn. apply SM_ok_bind; [apply SM_ok_get|]. intros []; sm_ok.
  intros s Hs. apply quiet_update; try done; apply (inv_watch s Hs).
Qed.

Lemma ping_ok (k : ka (R := R)) : SM_ok (ping k).
Proof.
  unfold ping. apply SM_ok_bind; [|intros ?; apply SM_ok_ret]. apply s_send_ok; [|done].
  split; [|done]. split; [done|]. unfold is_u32, wrapping_add_u32.
  pose proof (Z.mod_pos_bound (nonce k + 1) (U32_MAX + 1) ltac:(done)). lia.
Qed.

Lemma settle_ok (k : ka (R := R)) pongs closed : SM_ok (settle k pongs closed).
Proof. unfold settle. sm_ok. Qed.

(** The writer takes a frame: the queue shrinks, the rest is untouched. *)
Lemma recv_out_ok s :
  session_inv s →
  let s' := set_out (snd (chan_try_recv (s_out s))) s in
  session_inv s' ∧ queued (s_out s') = tail (queued (s_out s)).
Proof.
  intros [I1 I2 I3 I4 I5 I6 I7 I8 I9]. cbn. split; [|apply queued_try_recv].
  constructor; cbn; auto. rewrite queued_try_recv. by apply Forall_tail.
Qed.

Lemma fresh_inv config role shutdown :
  Config.valid config → watch_borrow shutdown = false →
  session_inv (fresh config role shutdown).
Proof.
  intros Hv Hw. constructor; cbn; rewrite ?queued_new; try done.
  - exists 0. split_and!; [done|lia|]. by destruct role.
  - exact (valid_room (fresh config role shutdown) Hv).
  - by rewrite Hw.
Qed.

End SessionInv.
