(* ===== verification/System.v ===== *)
(** * A session and its tasks

    The session's shared state under any sequence of what its tasks and its
    users do: the reader's items, the closer, the writer, the keepalive task,
    [open], [accept], [close] and the stream handles.  One step is a
    synchronous stretch of code, run undisturbed: on a runtime with several
    threads two stretches can also overlap, for example between the limit check
    and the insertion of two [open] calls: such overlaps are steps of
    [SessionConc].
    The history [h] collects every frame queued since the session was built. *)

From S2P Require Import Prelude Machine Errors Config Ids Frames Header Codec Crates Window.
From S2P Require Import StreamState RecvBuffer StreamInner StreamFacts StreamInv Session Reader Api.
From S2P Require Import Keepalive Writer SessionInv.
From Stdlib Require Import ZArith Lia.

Local Open Scope Z_scope.

Section System.
Context {BF : BitflagsOps}.
Context {W : Type} {AW : AtomicWakerOps W}.
Context {C : Type → Type} {CH : UnboundedChannelOps C}.
Context {X R : Type} {WO : WatchOps X R}.
Context {DO : DrainOrder}.

Abbreviation session := (Session W C X).

(** What the users' handles do to a stream. *)
Inductive user_op : Type :=
| URead (cx : Waker) (buf : ReadBuf.t)
| UWrite (cx : Waker) (buf : list byte)
| UShutdown
| UReset
| UDrop.

Definition user_apply (loc : Loc) (u : user_op) (s : session) : session :=
  match u with
  | URead cx buf => snd (stream_poll_read cx buf loc s)
  | UWrite cx buf => snd (stream_poll_write cx buf loc s)
  | UShutdown => snd (stream_poll_shutdown loc s)
  | UReset => snd (stream_reset loc s)
  | UDrop => snd (stream_drop loc s)
  end.

(** What can happen to a session, apart from the writer taking frames. *)
Inductive event : Type :=
| EItem (it : item)                       (* the reader *)
| EUser (loc : Loc) (u : user_op)         (* a stream handle *)
| EOpen                                   (* [open], up to its wait *)
| EOpenPoll (cx : Waker) (loc : Loc)
| EOpenFinish (i : StreamId) (loc : Loc) (outcome : option (MuxResult unit))
| EAccept                                 (* [accept], up to its [select!] *)
| EAcceptPoll (rx : R)
| EClose
| ECloser (rx : R)                        (* the closer task *)
| EPing (k : ka (R := R))                 (* the keepalive task *)
| ESettle (k : ka (R := R)) (pongs : list Z) (closed : bool)
| EWriteFailed.                           (* the writer, after a failed frame *)

Definition event_ok (e : event) : Prop :=
  match e with
  | EItem it => item_ok it
  | EOpenFinish i _ _ => is_u32 i
  | _ => True
  end.

Definition handle (e : event) (s : session) : session :=
  match e with
  | EItem it => snd (on_item it s)
  | EUser loc u => user_apply loc u s
  | EOpen => snd (open_start s)
  | EOpenPoll cx loc => snd (open_poll cx loc s)
  | EOpenFinish i loc o => snd (open_finish i loc o s)
  | EAccept => snd (accept_start s)
  | EAcceptPoll rx => snd (accept_poll rx s)
  | EClose => snd (close_start s)
  | ECloser rx => snd (closer_turn rx s)
  | EPing k => snd (ping k s)
  | ESettle k pongs closed => snd (settle k pongs closed s)
  | EWriteFailed => snd (initiate_shutdown ErrorCode.InternalError s)
  end.

Inductive step : session * list Frame.t → session * list Frame.t → Prop :=
| Step_event e s h fs :
    event_ok e → queued (s_out (handle e s)) = queued (s_out s) ++ fs →
    step (s, h) (handle e s, h ++ fs)
| Step_take s h :                         (* the writer takes a frame *)
    step (s, h) (snd (recv_out s), h)
| Step_writer_exit s h :                  (* the writer returns, dropping its receiver *)
    step (s, h) (set_out (chan_drop_rx (s_out s)) s, h).

(** The session [Session::new] builds. *)
Definition start (config : Config.t) (role : Role.t) : session := snd (session_new config role).

Definition runs (config : Config.t) (role : Role.t) (s : session) (h : list Frame.t) : Prop :=
  rtc step (start config role, []) (s, h).

(** ** Every event evolves the session *)

Section Evolves.
Context {SL : Slack}.

Lemma user_op_ok loc u : SM_ok (λ s, ((), user_apply loc u s)).
Proof.
  destruct u; intros s Hs; cbn.
  - by apply (on_stream_ok loc (poll_read cx buf)); [apply (M_ok_op _ (ORead cx buf))|].
  - by apply (on_stream_ok loc (poll_write cx buf)); [apply (M_ok_op _ (OWrite cx buf))|].
  - by apply (on_stream_ok loc local_fin); [apply (M_ok_op _ OFin)|].
  - by apply (on_stream_ok loc local_reset); [apply (M_ok_op _ OReset)|].
  - by apply (on_stream_ok loc on_user_drop); [apply (M_ok_op _ ODrop)|].
Qed.

Lemma handle_ok e s : event_ok e → session_inv s → session_inv (handle e s) ∧ evolves s (handle e s).
Proof.
  intros He Hs. destruct e; cbn [handle event_ok] in *.
  - by apply on_item_ok.
  - by apply (user_op_ok loc u s).
  - by apply open_start_ok.
  - by apply open_poll_ok.
  - by apply open_finish_ok.
  - by apply accept_start_ok.
  - by apply accept_poll_ok.
  - by apply close_start_ok.
  - by apply closer_turn_ok.
  - by apply ping_ok.
  - by apply settle_ok.
  - by apply initiate_shutdown_ok.
Qed.

Lemma start_spec config role :
  Config.valid config →
  session_inv (start config role) ∧ s_config (start config role) = config ∧
  s_role (start config role) = role ∧ s_is_closing (start config role) = false ∧
  queued (s_out (start config role)) = [].
Proof.
  intros Hv. unfold start, session_new.
  pose proof (channel_spec false) as (Hx & _). destruct (watch_channel false) as [rx0 x].
  assert (∀ y, watch_borrow (snd (watch_subscribe y)) = watch_borrow y) as Hsub
    by (intros y; apply subscribe_spec).
  assert (∀ r y, watch_borrow (watch_drop_rx r y) = watch_borrow y) as Hdrop
    by (intros r y; apply drop_rx_spec).
  cbn in *. destruct (Config.keepalive_interval config); cbn; split_and!; try done; try apply queued_new;
    apply (quiet_update (fresh config role x)); try done; try (by apply fresh_inv);
    cbn; by rewrite Hdrop, !Hsub, Hx.
Qed.

End Evolves.

#[local] Existing Instance no_slack.

(** What the history satisfies. *)
Definition history_ok (config : Config.t) (s : session) (h : list Frame.t) : Prop :=
  Forall (frame_ok (Config.max_frame_size config)) h ∧
  (goaways h ≤ if s_is_closing s then 1 else 0)%nat.

Lemma step_inv config s h s' h' :
  step (s, h) (s', h') → session_inv s → s_config s = config → history_ok config s h →
  session_inv s' ∧ s_config s' = config ∧ history_ok config s' h' ∧
  (s_is_closing s = true → s_is_closing s' = true) ∧ s_role s' = s_role s.
Proof.
  intros Hst Hs Hc (Hf & Hg). inversion Hst as [e ?? fs He Hq|?|?]; subst.
  - destruct (handle_ok e s He Hs) as (Hs' & Ec & Er & Hcl & _ & _ & _ & fs' & Hq' & Hfs & Hgs).
    rewrite Hq in Hq'. apply app_inv_head in Hq' as ->. split_and!; auto.
    split; [by apply Forall_app|]. rewrite goaways_app.
    destruct (s_is_closing s); [rewrite Hcl by done; lia|]. lia.
  - split_and!; try done. by apply recv_out_ok.
  - split_and!; try done. destruct Hs as [I1 I2 I3 I4 I5 I6 I7 I8 I9].
    constructor; cbn; auto. by rewrite queued_drop.
Qed.

Lemma steps_inv config s h s' h' :
  rtc step (s, h) (s', h') → session_inv s → s_config s = config → history_ok config s h →
  session_inv s' ∧ s_config s' = config ∧ history_ok config s' h' ∧
  (s_is_closing s = true → s_is_closing s' = true) ∧ s_role s' = s_role s.
Proof.
  intros Hr. remember (s, h) as x eqn:Hx. remember (s', h') as y eqn:Hy. revert s h Hx.
  induction Hr as [x|x [s1 h1] y H1 _ IH]; intros s h -> Hs Hc Hh; [by simplify_eq|].
  destruct (step_inv config s h s1 h1 H1 Hs Hc Hh) as (Hs1 & Hc1 & Hh1 & Hcl & Er).
  destruct (IH Hy s1 h1 eq_refl Hs1 Hc1 Hh1) as (? & ? & ? & ? & ?). split_and!; auto. congruence.
Qed.

Lemma runs_inv config role s h :
  Config.valid config → runs config role s h →
  session_inv s ∧ s_config s = config ∧ history_ok config s h ∧ s_role s = role.
Proof.
  intros Hv Hr. destruct (start_spec config role Hv) as (Hs & Hc & Hro & Hcl & Hq).
  destruct (steps_inv config _ [] s h Hr Hs Hc) as (? & ? & ? & _ & ?).
  - split; [done|apply Nat.le_0_l].
  - split_and!; congruence || done.
Qed.

(** ** Shutdown *)

(** A stream as [force_close] leaves it: closed both ways, nobody parked. *)
Definition shut (st : StreamInner W) : Prop :=
  StreamState.read_open (state st) = false ∧ StreamState.write_open (state st) = false ∧
  SendWindow.closed (send_window st) = true ∧
  registered (recv_waker st) = None ∧ registered (ack_waker st) = None ∧
  registered (SendWindow.waker (send_window st)) = None.

(** The task with waker [k] waits on the stream. *)
Definition parked (k : Waker) (st : StreamInner W) : Prop :=
  registered (recv_waker st) = Some k ∨ registered (ack_waker st) = Some k ∨
  registered (SendWindow.waker (send_window st)) = Some k.

Lemma force_close_spec st (l : Links C) :
  let '(_, (st', l')) := force_close (st, l) in
  shut st' ∧ out_ch l' = out_ch l ∧ ack_received st' = ack_received st ∧
  StreamState.is_reset (state st') = StreamState.is_reset (state st) ∧ id st' = id st ∧
  (∀ k, k ∈ woken l ∨ parked k st → k ∈ woken l').
Proof.
  run_m. cbn. unfold shut, parked. cbn. autorewrite with crates. split_and!; try done.
  intros k Hk. rewrite !elem_of_app.
  assert (∀ w, registered w = Some k → k ∈ option_list (registered w)) as Hin
    by (intros w ->; simpl; set_solver).
  destruct Hk as [?|[?|[?|?]]]; auto.
Qed.

Lemma force_close_all_spec locs (s : session) :
  (∀ loc st, s_heap s !! loc = Some st → (loc ∈ locs ∨ shut st) →
     ∃ st', s_heap (snd (force_close_all locs s)) !! loc = Some st' ∧ shut st' ∧
       ack_received st' = ack_received st ∧
       StreamState.is_reset (state st') = StreamState.is_reset (state st) ∧ id st' = id st) ∧
  (∀ loc st k, s_heap s !! loc = Some st → k ∈ s_woken s ∨ (loc ∈ locs ∧ parked k st) →
     k ∈ s_woken (snd (force_close_all locs s))) ∧
  s_out (snd (force_close_all locs s)) = s_out s ∧
  s_registry (snd (force_close_all locs s)) = s_registry s ∧
  s_is_closing (snd (force_close_all locs s)) = s_is_closing s ∧
  s_shutdown (snd (force_close_all locs s)) = s_shutdown s.
Proof.
  revert s. induction locs as [|l0 locs IH]; intros s; cbn [force_close_all].
  { cbn. split_and!; try done.
    - intros loc st Hl [?|?]; [set_solver|eauto 10].
    - intros loc st k Hl [?|[? _]]; [done|set_solver]. }
  unfold mbind, SM_bind, on_stream. destruct (s_heap s !! l0) as [st0|] eqn:H0; cbn [fst snd].
  2: { destruct (IH s) as (A1 & A2 & A3). split_and!; try apply A3.
       - intros loc st Hl [Hin|?]; [|eauto]. apply elem_of_cons in Hin as [->|?]; [congruence|eauto].
       - intros loc st k Hl [?|[Hin ?]]; [eauto|].
         apply elem_of_cons in Hin as [->|?]; [congruence|]. eapply A2; eauto. }
  pose proof (force_close_spec st0 (mkLinks (s_out s) (s_closer s) (s_woken s))) as Hfc.
  destruct (force_close _) as [u [st0' l']]. cbn [fst snd]. destruct Hfc as (Hshut & Hout & Hack & Hres & Hid & Hwoken).
  set (s1 := set_heap _ _). destruct (IH s1) as (A1 & A2 & A3 & A4 & A5 & A6).
  assert (s_heap s1 !! l0 = Some st0') as Hl0 by (cbn; apply list_lookup_insert_eq; by eapply lookup_lt_Some).
  rewrite A3, A4, A5, A6. split_and!; try done.
  - intros loc st Hl Hor. destruct (decide (loc = l0)) as [->|Hne].
    { simplify_eq. destruct (A1 l0 st0' Hl0 (or_intror Hshut)) as (st' & ? & ? & ? & ? & ?).
      exists st'. split_and!; congruence || done. }
    apply (A1 loc st); [cbn; by rewrite list_lookup_insert_ne|]. set_solver.
  - intros loc st k Hl Hor. destruct (decide (loc = l0)) as [->|Hne].
    + simplify_eq. apply (A2 l0 st0' k Hl0). left. apply Hwoken. cbn. naive_solver.
    + apply (A2 loc st k); [cbn; by rewrite list_lookup_insert_ne|].
      destruct Hor as [?|[? ?]]; [left; apply Hwoken; by left|right; set_solver].
Qed.

Lemma shutdown_effects code (s : session) :
  s_is_closing s = false →
  let s' := snd (initiate_shutdown code s) in
  s_is_closing s' = true ∧ s_registry s' = ∅ ∧
  (rx_alive (s_out s) = true → queued (s_out s') = queued (s_out s) ++ [Frame.go_away code]).
Proof.
  intros Hcl s'. subst s'. rewrite initiate_shutdown_unfold by done.
  destruct (force_close_all_spec (snd <$> drain_order (s_registry s)) (shutdown_prefix code s))
    as (_ & _ & A3 & A4 & A5 & _). cbn.
  rewrite A3, A4, A5. cbn. split_and!; try done. intros Hrx. by rewrite queued_send, Hrx.
Qed.

(** C21: Shutting down is complete and happens once.  The first
    [initiate_shutdown] marks the session closed, queues the GoAway with its
    code behind everything queued before, empties the registry, and leaves every
    stream that was registered closed both ways with a closed send window and
    nobody parked: every task that waited on one of them, to read, to write or to
    be acknowledged, has been woken.  Any later call, with any code, changes
    nothing. *)
Theorem shutdown_complete code code' (s : session) :
  session_inv s → s_is_closing s = false →
  let s' := snd (initiate_shutdown code s) in
  s_is_closing s' = true ∧ s_registry s' = ∅ ∧
  (rx_alive (s_out s) = true → queued (s_out s') = queued (s_out s) ++ [Frame.go_away code]) ∧
  (∀ i loc st, s_registry s !! i = Some loc → s_heap s !! loc = Some st →
     ∃ st', s_heap s' !! loc = Some st' ∧ shut st' ∧ ∀ k, parked k st → k ∈ s_woken s') ∧
  snd (initiate_shutdown code' s') = s'.
Proof.
  intros Hs Hcl s'. destruct (shutdown_effects code s Hcl) as (Hc & Hreg & Hq). fold s' in Hc, Hreg, Hq.
  split_and!; try done; [|by apply initiate_shutdown_again].
  intros i loc st Hl Hst. set (locs := snd <$> drain_order (s_registry s)).
  destruct (force_close_all_spec locs (shutdown_prefix code s)) as (A1 & A2 & _).
  assert (loc ∈ locs) as Hin.
  { unfold locs. apply list_elem_of_fmap. exists (i, loc). split; [done|].
    rewrite drain_order_perm. by apply elem_of_map_to_list. }
  destruct (A1 loc st Hst (or_introl Hin)) as (st' & Hl' & Hsh & _). exists st'.
  subst s'. rewrite initiate_shutdown_unfold by done.
  split_and!; [done|done|]. intros k Hk. apply (A2 loc st k Hst). by right.
Qed.

(** ** The session over its lifetime *)

(** Everything a session ever queues can be sent: with [max_frame_size] at
    most 16 MiB the writer's codec accepts every frame, so the writer never
    fails because of a frame. *)
Lemma session_frames_encodable config role s h dst :
  Config.valid config → Config.max_frame_size config ≤ ABSOLUTE_MAX_PAYLOAD →
  runs config role s h →
  fst (FrameCodec.encode_all (FrameCodec.new (Config.max_frame_size config)) h dst) = Ok ().
Proof.
  intros Hv Hmax Hr. destruct (runs_inv config role s h Hv Hr) as (_ & _ & (Hf & _) & _).
  destruct Hv as (_ & _ & Hm & _).
  rewrite FrameCodec.encode_all_sendable; [done|apply FrameCodec.new_wf; lia|].
  eapply Forall_impl; [|exact Hf]. intros f [Hw Hl]. split; [done|]. cbn. lia.
Qed.

(** At most one GoAway: over its whole lifetime a session queues a GoAway
    only when it starts to close, and never a second one, whatever combination
    of peer frames, errors, timeouts and [close] calls arrives; a session that
    started to close stays closed. *)
Theorem session_single_goaway config role s h s' h' :
  Config.valid config → runs config role s h → rtc step (s, h) (s', h') →
  (goaways h ≤ 1)%nat ∧ (s_is_closing s = false → goaways h = 0%nat) ∧
  (s_is_closing s = true → s_is_closing s' = true).
Proof.
  intros Hv Hr Hr'. destruct (runs_inv config role s h Hv Hr) as (Hs & Hc & Hh & _).
  destruct (steps_inv config s h s' h' Hr' Hs Hc Hh) as (_ & _ & _ & Hcl & _).
  destruct Hh as (_ & Hg). split_and!; [destruct (s_is_closing s); lia|intros Hx; rewrite Hx in Hg; lia|done].
Qed.

(** ** Opening *)

Lemma open_start_Ok config role s h s' i loc :
  Config.valid config → runs config role s h → open_start s = (Ok (i, loc), s') →
  i ≠ 0 ∧ s_is_closing s' = false ∧ s_registry s' !! i = Some loc ∧
  s_heap s' !! loc = Some (new i Local config).
Proof.
  intros Hv Hr. destruct (runs_inv config role s h Hv Hr) as (Hs & Hc & _ & Hro).
  unfold open_start, mbind, SM_bind, sget, is_closed. cbn [fst snd].
  destruct (s_is_closing s) eqn:Hcl; [done|]. destruct (s_peer_gone s) eqn:Hpg; cbn [orb]; [done|].
  rewrite Hc. destruct (_ <=? _); [done|]. destruct (allocate_ok s Hs) as (_ & _ & Hid).
  destruct (StreamIdAllocator.allocate (s_id_alloc s)) as [[j|] a'] eqn:Ea; cbn [fst snd ok_or] in *; [|done].
  destruct (Hid j eq_refl) as (_ & Hnz & Ho & Hreg & _). cbn in Hreg.
  unfold reg_insert, StreamRegistry.insert, alloc_stream, s_send. cbn. rewrite Hreg. cbn.
  rewrite send_ok. destruct (rx_alive (s_out s)) eqn:Hrx; cbn; [|done]. intros [= <- <- <-]. cbn.
  split_and!; [done|done|by rewrite lookup_insert_eq|by apply list_lookup_middle].
Qed.

(** C33: [open] up to its wait, on every branch.  It refuses on a closed session
    or after the peer's GoAway, at [max_streams] registered streams, or when the
    ids run out, and then changes nothing but possibly the allocator; it never
    fails for a duplicate id.  Otherwise it registers a fresh stream, waiting
    for its ACK, under a new id of our parity, with the SYN queued last; if the
    writer is gone the entry is removed again. *)
Theorem open_start_contract config role s h :
  Config.valid config → runs config role s h →
  let '(r, s') := open_start s in
  match r with
  | Ok (i, loc) =>
    s_is_closing s = false ∧ s_peer_gone s = false ∧ Role.owns role i = true ∧
    s_registry s !! i = None ∧ s_registry s' = <[i := loc]> (s_registry s) ∧
    s_heap s' !! loc = Some (new i Local config) ∧
    queued (s_out s') = queued (s_out s) ++ [Frame.syn i]
  | Err e =>
    s_registry s' = s_registry s ∧ queued (s_out s') = queued (s_out s) ∧
    (e = Error.SessionClosed ∧
       (s_is_closing s = true ∨ s_peer_gone s = true ∨ rx_alive (s_out s) = false) ∨
     e = Error.TooManyStreams (Config.max_streams config) ∧
       StreamRegistry.len (s_registry s) = Config.max_streams config ∨
     e = Error.TooManyStreams USIZE_MAX ∧ fst (StreamIdAllocator.allocate (s_id_alloc s)) = None)
  end.
Proof.
  intros Hv Hr. destruct (runs_inv config role s h Hv Hr) as (Hs & Hc & _ & Hro).
  unfold open_start, mbind, SM_bind, sget, is_closed. cbn [fst snd].
  destruct (s_is_closing s) eqn:Hcl; [cbn; split_and!; try done; left; by auto|].
  destruct (s_peer_gone s) eqn:Hpg; cbn [orb]; [cbn; split_and!; try done; left; by auto|].
  rewrite Hc.
  destruct (Z.leb_spec (Config.max_streams config) (StreamRegistry.len (s_registry s))) as [Hfull|Hroom].
  { cbn. split_and!; try done. right; left. split; [done|].
    pose proof (inv_limit s eq_refl Hs) as Hsz. rewrite Hc in Hsz. lia. }
  destruct (allocate_ok s Hs) as (_ & _ & Hid).
  destruct (StreamIdAllocator.allocate (s_id_alloc s)) as [[i|] a'] eqn:Ea; cbn [fst snd ok_or] in *.
  2: { cbn. split_and!; try done. by do 2 right. }
  destruct (Hid i eq_refl) as (_ & _ & Ho & Hreg & _). cbn in Hreg.
  unfold reg_insert, StreamRegistry.insert, alloc_stream, s_send. cbn. rewrite Hreg. cbn.
  rewrite send_ok. destruct (rx_alive (s_out s)) eqn:Hrx; cbn.
  - rewrite Hro in Ho. split_and!; try done; [by apply list_lookup_middle|by rewrite queued_send, Hrx].
  - split_and!; [by apply delete_insert_id|by rewrite queued_send, Hrx|left; by auto].
Qed.

End System.

#[export] Existing Instance no_slack.

(** ** Concrete runs *)

Section Witnesses.

#[local] Existing Instance documented_bitflags.

Abbreviation session0 := (Session (option Waker) list_chan cell).

(** Events run one after the other, with the frames each one queued. *)
Fixpoint run_events (es : list (event (R := nat))) (s : session0) (h : list Frame.t)
  : session0 * list Frame.t :=
  match es with
  | [] => (s, h)
  | e :: es' =>
    let s' := handle e s in
    run_events es' s' (h ++ drop (length (lc_queue (s_out s))) (lc_queue (s_out s')))
  end.

Lemma run_events_step e (s : session0) :
  session_inv s → event_ok e →
  lc_queue (s_out (handle e s)) =
    lc_queue (s_out s) ++ drop (length (lc_queue (s_out s))) (lc_queue (s_out (handle e s))).
Proof.
  intros Hs He. destruct (handle_ok e s He Hs) as (_ & _ & _ & _ & _ & _ & _ & fs & Hq & _).
  cbn in Hq. by rewrite Hq, drop_app_length.
Qed.

Lemma run_events_steps es (s : session0) h :
  Forall event_ok es → session_inv s →
  rtc step (s, h) (fst (run_events es s h), snd (run_events es s h)).
Proof.
  rewrite <- surjective_pairing. revert s h. induction es as [|e es IH]; intros s h He Hs; [done|].
  apply Forall_cons_1 in He as [He Hes]. cbn [run_events].
  eapply rtc_l; [|apply IH; [done|by apply handle_ok]].
  apply Step_event; [done|]. by apply run_events_step.
Qed.

(** A server: the peer opens stream 1 with a payload, the user accepts it (the
    stream is at location 0), reads, writes and reads until it parks. *)
Definition server_events : list (event (R := nat)) :=
  [EItem (NextFrame (Frame.Data 1 Flags.SYN msg)); EAcceptPoll 0%nat;
   EUser 0 (URead 5 (ReadBuf.mk [] 3)); EUser 0 (UWrite 5 msg);
   EUser 0 (URead 5 (ReadBuf.mk [] 9)); EUser 0 (URead 5 (ReadBuf.mk [] 9))].

Definition server0 : session0 := start cfg8 Role.Server.
Definition server1 : session0 := fst (run_events server_events server0 []).
Definition history1 : list Frame.t := snd (run_events server_events server0 []).

Lemma server_events_ok : Forall event_ok server_events.
Proof. unfold server_events. repeat constructor; cbn; concrete. Qed.

Lemma server1_runs : runs cfg8 Role.Server server1 history1.
Proof.
  apply run_events_steps; [apply server_events_ok|]. apply start_spec, cfg8_valid.
Qed.

Lemma session_frames_encodable_witness :
  history1 = [Frame.ack 1; Frame.data 1 Flags.empty (take 4 msg); Frame.window_update 1 6] ∧
  fst (FrameCodec.encode_all (FrameCodec.new 4) history1 []) = Ok ().
Proof.
  split; [vm_compute; reflexivity|].
  apply (session_frames_encodable cfg8 Role.Server server1 history1 [] cfg8_valid); [concrete|].
  apply server1_runs.
Defined.

Definition closing_events : list (event (R := nat)) :=
  [EItem (NextFrame (Frame.go_away ErrorCode.Normal)); EClose; EItem NextEof].

Lemma session_single_goaway_witness :
  let '(s, h) := run_events closing_events server1 history1 in
  s_is_closing s = true ∧ goaways h = 1%nat ∧ (goaways h ≤ 1)%nat.
Proof.
  assert (runs cfg8 Role.Server (fst (run_events closing_events server1 history1))
    (snd (run_events closing_events server1 history1))) as Hr.
  { unfold runs. etrans; [exact server1_runs|]. apply run_events_steps.
    - repeat constructor; cbn; concrete.
    - apply (runs_inv cfg8 Role.Server server1 history1 cfg8_valid server1_runs). }
  destruct (run_events closing_events server1 history1) as [s h] eqn:E. cbn in Hr.
  split_and!; [vm_compute in E; simplify_eq; reflexivity|vm_compute in E; simplify_eq; reflexivity|].
  apply (session_single_goaway cfg8 Role.Server _ _ _ _ cfg8_valid Hr (rtc_refl _ _)).
Defined.

(** The reader parked on stream 1 is woken by the shutdown. *)
Lemma shutdown_complete_witness :
  let s' := snd (initiate_shutdown ErrorCode.Normal server1) in
  parked 5 (default (new 0 Local cfg8) (s_heap server1 !! 0%nat)) ∧ s_registry s' = ∅ ∧ 5%nat ∈ s_woken s'.
Proof.
  assert (session_inv server1) as Hs
    by apply (runs_inv cfg8 Role.Server server1 history1 cfg8_valid server1_runs).
  assert (parked 5 (default (new 0 Local cfg8) (s_heap server1 !! 0%nat))) as Hp
    by (left; vm_compute; reflexivity).
  destruct (shutdown_complete ErrorCode.Normal ErrorCode.Timeout server1 Hs) as (_ & Hreg & _ & Hst & _);
    [vm_compute; reflexivity|].
  split_and!; [exact Hp|exact Hreg|].
  destruct (Hst 1 0%nat (default (new 0 Local cfg8) (s_heap server1 !! 0%nat))) as (st' & _ & _ & Hk);
    [vm_compute; reflexivity|vm_compute; reflexivity|].
  apply Hk, Hp.
Defined.

Definition client0 : session0 := start cfg8 Role.Client.

Lemma client0_runs : runs cfg8 Role.Client client0 [].
Proof. apply rtc_refl. Qed.

Lemma open_start_contract_witness :
  fst (open_start client0) = Ok (1, 0%nat) ∧
  s_registry (snd (open_start client0)) = <[1 := 0%nat]> ∅.
Proof.
  pose proof (open_start_contract cfg8 Role.Client client0 [] cfg8_valid client0_runs) as H.
  assert (fst (open_start client0) = Ok (1, 0%nat)) as E by (vm_compute; reflexivity).
  split; [exact E|]. destruct (open_start client0) as [r s']. cbn in E |- *. subst r.
  destruct H as (_ & _ & _ & _ & -> & _). reflexivity.
Defined.

End Witnesses.
