(* ===== verification/SessionConc.v ===== *)
(** * Opening, accepting and shutting down, access by access
    ([src/session/mod.rs], [src/session/reader.rs], [src/session/inner.rs])

    [System] runs the synchronous stretches of session code undisturbed.  On a
    runtime with several threads they overlap: here [Session::open] up to its
    wait, the reader's handling of a SYN and [initiate_shutdown] are programs
    whose steps are single accesses to the session's shared state: a load or a
    swap of a flag, one operation under the registry's lock, an allocation of
    an id ([Ids] shows it is atomic), a send on a channel, one stream's
    [force_close].  Any number of tasks run them, while the closer removes
    streams, timed-out openers withdraw and users act on streams. *)

From S2P Require Import Prelude Machine Interleaving Errors Config Ids Frames Crates Window StreamState.
From S2P Require Import RecvBuffer StreamInner StreamInv Session Reader Api Writer SessionInv System.
From Stdlib Require Import ZArith Lia.

Local Open Scope Z_scope.

(** ** The programs *)

(** [Session::open]. *)
Inductive open_pc : Type :=
| OpClosed                              (* [is_closed()] *)
| OpGone                                (* [peer_gone.load()] *)
| OpLen                                 (* [registry.len()] *)
| OpAlloc                               (* [id_alloc.allocate()] *)
| OpInsert (id : StreamId) (loc : Loc)  (* [registry.insert(..)] *)
| OpSend (id : StreamId) (loc : Loc)    (* [out_tx.send(syn)] *)
| OpUndo (id : StreamId)                (* [registry.remove(id)] *)
| OpDone (r : MuxResult (StreamId * Loc)).

(** The SYN part of [handle_data]. *)
Inductive syn_pc : Type :=
| SyGone (id : StreamId)
| SyLen (id : StreamId)
| SyInsert (id : StreamId)
| SyAccept (id : StreamId) (loc : Loc)
| SyUndo (id : StreamId)
| SyRefuse (id : StreamId)
| SyDone (r : option (MuxResult unit)).

(** [initiate_shutdown]. *)
Inductive shut_pc : Type :=
| ShSwap (code : ErrorCode.t)           (* [is_closing.swap(true)] *)
| ShGoAway (code : ErrorCode.t)
| ShDrain                               (* [registry.drain()] *)
| ShForce (locs : list Loc)             (* the loop, then [shutdown_tx.send(true)] *)
| ShDone.

(** Computes session code. *)
Ltac run_sm :=
  cbv beta iota zeta delta [mbind mret SM_bind SM_ret sget sput s_send reg_insert reg_remove reg_drain
    alloc_stream is_closed];
  cbn [fst snd ok_or].

Section Programs.
Context {W : Type} {AW : AtomicWakerOps W}.
Context {C : Type → Type} {CH : UnboundedChannelOps C}.
Context {X R : Type} {WO : WatchOps X R}.
Context {DO : DrainOrder}.

Abbreviation SM := (SM (W := W) (C := C) (X := X)).

Definition open_step (p : open_pc) : SM open_pc :=
  match p with
  | OpClosed =>
    b ← sget is_closed; mret (if (b : bool) then OpDone (Err Error.SessionClosed) else OpGone)
  | OpGone =>
    b ← sget s_peer_gone; mret (if (b : bool) then OpDone (Err Error.SessionClosed) else OpLen)
  | OpLen =>
    len ← sget (λ s, StreamRegistry.len (s_registry s));
    max ← sget (λ s, Config.max_streams (s_config s));
    mret (if max <=? len then OpDone (Err (Error.TooManyStreams max)) else OpAlloc)
  | OpAlloc =>
    config ← sget s_config;
    allocated ← (λ s, let r := StreamIdAllocator.allocate (s_id_alloc s) in
                      (fst r, set_id_alloc (snd r) s));
    match ok_or allocated (Error.TooManyStreams USIZE_MAX) with
    | Err e => mret (OpDone (Err e))
    | Ok id => loc ← alloc_stream (new id Local config); mret (OpInsert id loc)
    end
  | OpInsert id loc =>
    r ← reg_insert id loc;
    mret (match r with Err e => OpDone (Err e) | Ok _ => OpSend id loc end)
  | OpSend id loc =>
    sent ← s_send (Frame.syn id);
    mret (if negb sent then OpUndo id else OpDone (Ok (id, loc)))
  | OpUndo id => reg_remove id;; mret (OpDone (Err Error.SessionClosed))
  | OpDone r => mret (OpDone r)
  end.

Definition syn_start (role : Role.t) (id : StreamId) : syn_pc :=
  if Role.owns role id then SyDone (Some (Err (Error.Protocol "peer SYN with our parity")))
  else SyGone id.

Definition syn_step (p : syn_pc) : SM syn_pc :=
  match p with
  | SyGone id => b ← sget s_peer_gone; mret (if (b : bool) then SyRefuse id else SyLen id)
  | SyLen id =>
    len ← sget (λ s, StreamRegistry.len (s_registry s));
    max ← sget (λ s, Config.max_streams (s_config s));
    mret (if max <=? len then SyRefuse id else SyInsert id)
  | SyInsert id =>
    config ← sget s_config;
    loc ← alloc_stream (new id Remote config);
    r ← reg_insert id loc;
    mret (match r with
          | Err _ => SyDone (Some (Err (Error.Protocol "duplicate stream id")))
          | Ok _ => SyAccept id loc
          end)
  | SyAccept id loc =>
    sent ← (λ s, let r := chan_send loc (s_accept s) in (fst r, set_accept (snd r) s));
    mret (if negb sent then SyUndo id else SyDone None)
  | SyUndo id => reg_remove id;; mret (SyRefuse id)
  | SyRefuse id => s_send (Frame.rst id);; mret (SyDone (Some (Ok ())))
  | SyDone r => mret (SyDone r)
  end.

Definition shut_step (p : shut_pc) : SM shut_pc :=
  match p with
  | ShSwap code =>
    closing ← sget s_is_closing;
    sput (set_is_closing true);;
    mret (if (closing : bool) then ShDone else ShGoAway code)
  | ShGoAway code => s_send (Frame.go_away code);; mret ShDrain
  | ShDrain => streams ← reg_drain; mret (ShForce streams)
  | ShForce (loc :: locs) => on_stream loc force_close;; mret (ShForce locs)
  | ShForce [] =>
    sput (λ s, set_shutdown (snd (watch_send true (s_shutdown s))) s);; mret ShDone
  | ShDone => mret ShDone
  end.

(** *** Undisturbed runs *)

Fixpoint iter {P} (step : P → SM P) (n : nat) (p : P) : SM P :=
  match n with O => mret p | S n' => p ← step p; iter step n' p end.

Lemma iter_fix {P} (step : P → SM P) n p (s : Session W C X) :
  (∀ s, step p s = (p, s)) → iter step n p s = (p, s).
Proof. intros H. induction n as [|n IH]; [done|]. cbn. unfold mbind, SM_bind. by rewrite H. Qed.

Lemma iter_S {P} (step : P → SM P) n p (s : Session W C X) :
  iter step (S n) p s = iter step n (fst (step p s)) (snd (step p s)).
Proof. done. Qed.

(** Computes one access of a program. *)
Ltac access := rewrite iter_S; cbn [open_step syn_step shut_step]; run_sm.

Lemma open_undisturbed (s : Session W C X) :
  iter open_step 7 OpClosed s = (OpDone (fst (open_start s)), snd (open_start s)).
Proof.
  unfold open_start. access.
  destruct (s_is_closing s); [done|]. access. destruct (s_peer_gone s); [done|]. access.
  cbn [orb]. destruct (Config.max_streams (s_config s) <=? _); [done|]. access.
  destruct (fst (StreamIdAllocator.allocate (s_id_alloc s))) as [id|]; [|done].
  cbn [ok_or fst snd]. access. destruct (fst (StreamRegistry.insert _ _ _)) as [[]|e]; [|done]. access.
  by destruct (fst (chan_send _ _)).
Qed.

Lemma syn_undisturbed id (s : Session W C X) :
  iter syn_step 6 (syn_start (s_role s) id) s = (SyDone (fst (handle_syn id s)), snd (handle_syn id s)).
Proof.
  unfold handle_syn, syn_start. run_sm.
  destruct (Role.owns (s_role s) id); [by rewrite iter_fix|]. access. destruct (s_peer_gone s); [done|]. access.
  destruct (Config.max_streams (s_config s) <=? _); [done|]. access.
  destruct (fst (StreamRegistry.insert _ _ _)) as [[]|e]; [|done]. access.
  by destruct (fst (chan_send _ _)).
Qed.

Lemma force_undisturbed locs (s : Session W C X) :
  iter shut_step (S (length locs)) (ShForce locs) s =
    (ShDone, set_shutdown (snd (watch_send true (s_shutdown (snd (force_close_all locs s)))))
               (snd (force_close_all locs s))).
Proof.
  revert s. induction locs as [|loc locs IH]; intros s; [done|].
  change (S (length (loc :: locs))) with (S (S (length locs))). rewrite iter_S.
  exact (IH (snd (on_stream loc force_close s))).
Qed.

(** With as many steps as there are streams to close. *)
Lemma shutdown_undisturbed code (s : Session W C X) :
  iter shut_step (4 + size (s_registry s)) (ShSwap code) s =
    (ShDone, snd (initiate_shutdown code s)).
Proof.
  unfold initiate_shutdown. change (4 + size (s_registry s))%nat with (S (3 + size (s_registry s))). access.
  destruct (s_is_closing s); [by rewrite iter_fix|].
  change (3 + size (s_registry s))%nat with (S (2 + size (s_registry s))). access.
  change (2 + size (s_registry s))%nat with (S (S (size (s_registry s)))). access.
  set (s1 := set_registry _ _). set (locs := snd <$> drain_order (s_registry s)).
  replace (size (s_registry s)) with (length locs); [by rewrite force_undisturbed|].
  unfold locs. rewrite length_fmap, drain_order_perm. by rewrite length_map_to_list.
Qed.

End Programs.

(** ** The machine *)

Section Machine.
Context {W : Type} {AW : AtomicWakerOps W}.
Context {C : Type → Type} {CH : UnboundedChannelOps C}.
Context {X R : Type} {WO : WatchOps X R}.
Context {DO : DrainOrder}.

Abbreviation session := (Session W C X).

(** The shared state, the tasks calling [open], the reader's SYN handling and
    the tasks calling [initiate_shutdown]; [goaways_sent] counts the GoAways
    given to the outbound queue. *)
Record sconf : Type := mk_sconf {
  sess : session;
  openers : list open_pc;
  syn : syn_pc;
  shutters : list shut_pc;
  goaways_sent : nat;
}.

Definition sends_goaway (p : shut_pc) : nat := match p with ShGoAway _ => 1 | _ => 0 end.

Inductive sconf_step : sconf → sconf → Prop :=
| SC_open s ops sy shs n i p p' s' :                 (* an access of [open] *)
    ops !! i = Some p → open_step p s = (p', s') →
    sconf_step (mk_sconf s ops sy shs n) (mk_sconf s' (<[i := p']> ops) sy shs n)
| SC_open_call s ops sy shs n i r :                  (* a task calls [open] *)
    ops !! i = Some (OpDone r) →
    sconf_step (mk_sconf s ops sy shs n) (mk_sconf s (<[i := OpClosed]> ops) sy shs n)
| SC_syn s ops sy shs n p' s' :                      (* an access of the reader *)
    syn_step sy s = (p', s') →
    sconf_step (mk_sconf s ops sy shs n) (mk_sconf s' ops p' shs n)
| SC_syn_call s ops r shs n id :                     (* the reader gets a SYN *)
    sconf_step (mk_sconf s ops (SyDone r) shs n) (mk_sconf s ops (syn_start (s_role s) id) shs n)
| SC_shut s ops sy shs n i p p' s' :                 (* an access of a shutdown *)
    shs !! i = Some p → shut_step p s = (p', s') →
    sconf_step (mk_sconf s ops sy shs n)
      (mk_sconf s' ops sy (<[i := p']> shs) (n + sends_goaway p))
| SC_shut_call s ops sy shs n i code :               (* a task shuts the session down *)
    shs !! i = Some ShDone →
    sconf_step (mk_sconf s ops sy shs n) (mk_sconf s ops sy (<[i := ShSwap code]> shs) n)
| SC_stream {A} s ops sy shs n loc (m : M (W := W) (C := C) A) :   (* any stream operation *)
    sconf_step (mk_sconf s ops sy shs n) (mk_sconf (snd (on_stream loc m s)) ops sy shs n)
| SC_finish s ops sy shs n id loc o :                (* an opener's wait ends *)
    sconf_step (mk_sconf s ops sy shs n) (mk_sconf (snd (open_finish id loc o s)) ops sy shs n)
| SC_closer s ops sy shs n rx :                      (* a turn of the closer task *)
    sconf_step (mk_sconf s ops sy shs n) (mk_sconf (snd (closer_turn rx s)) ops sy shs n)
| SC_peer_gone s ops sy shs n code :                 (* the reader sees a GoAway *)
    sconf_step (mk_sconf s ops sy shs n) (mk_sconf (snd (note_peer_gone code s)) ops sy shs n)
| SC_take s ops sy shs n :                           (* the writer takes a frame *)
    sconf_step (mk_sconf s ops sy shs n) (mk_sconf (snd (recv_out s)) ops sy shs n).

(** A new session, [k] tasks that may open, [j] that may shut it down. *)
Definition sconf_init (config : Config.t) (role : Role.t) (k j : nat) : sconf :=
  mk_sconf (start config role) (replicate k (OpDone (Err Error.SessionClosed))) (SyDone None)
    (replicate j ShDone) 0.

Definition sconf_reachable config role k j : sconf → Prop :=
  rtc sconf_step (sconf_init config role k j).

(** ** Counting tasks *)

Fixpoint count {P} (f : P → nat) (ts : list P) : nat :=
  match ts with [] => 0 | t :: ts' => f t + count f ts' end.

Lemma count_insert {P} (f : P → nat) ts i p p' :
  ts !! i = Some p → (count f (<[i := p']> ts) + f p = count f ts + f p')%nat.
Proof.
  revert i. induction ts as [|t ts IH]; intros i Hi; [done|].
  destruct i as [|i]; simpl in *; [injection Hi as ->; lia|]. specialize (IH i Hi). lia.
Qed.

Lemma count_replicate {P} (f : P → nat) n p : f p = 0%nat → count f (replicate n p) = 0%nat.
Proof. intros H. induction n; simpl in *; [done|]. lia. Qed.

Lemma count_bound {P} (f : P → nat) ts : (∀ p, (f p ≤ 1)%nat) → (count f ts ≤ length ts)%nat.
Proof.
  intros H. induction ts as [|t ts IH]; simpl; [lia|]. specialize (H t). lia.
Qed.

(** Past the limit check and not yet registered. *)
Definition open_inflight (p : open_pc) : nat := match p with OpAlloc | OpInsert _ _ => 1 | _ => 0 end.
Definition syn_inflight (p : syn_pc) : nat := match p with SyInsert _ => 1 | _ => 0 end.

(** ** What the other steps leave alone *)

Definition same_control (s s' : session) : Prop :=
  s_config s' = s_config s ∧ s_role s' = s_role s ∧ s_id_alloc s' = s_id_alloc s.

Lemma on_stream_control {A} loc (m : M (W := W) (C := C) A) s :
  same_control s (snd (on_stream loc m s)) ∧ s_registry (snd (on_stream loc m s)) = s_registry s ∧
  s_is_closing (snd (on_stream loc m s)) = s_is_closing s.
Proof. unfold on_stream. destruct (s_heap s !! loc); [|done]. by destruct (snd (m _)). Qed.

Lemma open_finish_control id loc o s :
  same_control s (snd (open_finish id loc o s)) ∧
  s_registry (snd (open_finish id loc o s)) ⊆ s_registry s ∧
  s_is_closing (snd (open_finish id loc o s)) = s_is_closing s.
Proof. destruct o as [[]|]; cbn; split_and!; try done; apply delete_subseteq. Qed.

Lemma closer_turn_control rx s :
  same_control s (snd (closer_turn rx s)) ∧ s_registry (snd (closer_turn rx s)) ⊆ s_registry s ∧
  s_is_closing (snd (closer_turn rx s)) = s_is_closing s.
Proof.
  unfold closer_turn, mbind, SM_bind, sget. cbn [fst snd].
  destruct (watch_changed _ _); [done|]. cbn.
  destruct (fst (chan_try_recv _)); [|done]. split_and!; [done| |done]. apply delete_subseteq.
Qed.

(** What one access of [open] can do. *)
Inductive open_effect (s s' : session) : open_pc → open_pc → Prop :=
| OE_quiet p p' :                     (* it registers nothing *)
    s_registry s' ⊆ s_registry s → s_id_alloc s' = s_id_alloc s →
    (open_inflight p' = 0)%nat → (∀ m, p' ≠ OpDone (Err (Error.Protocol m)) ∨ p = p') →
    open_effect s s' p p'
| OE_check :                          (* the limit check passes *)
    s_registry s' = s_registry s → s_id_alloc s' = s_id_alloc s →
    StreamRegistry.len (s_registry s) < Config.max_streams (s_config s) →
    open_effect s s' OpLen OpAlloc
| OE_alloc loc :                      (* an id is taken *)
    s_registry s' = s_registry s →
    StreamIdAllocator.next (s_id_alloc s') = StreamIdAllocator.next (s_id_alloc s) + 2 →
    open_effect s s' OpAlloc (OpInsert (StreamIdAllocator.next (s_id_alloc s)) loc)
| OE_insert id loc :
    s_registry s !! id = None → s_registry s' = <[id := loc]> (s_registry s) →
    s_id_alloc s' = s_id_alloc s →
    open_effect s s' (OpInsert id loc) (OpSend id loc)
| OE_duplicate id loc e :
    is_Some (s_registry s !! id) → s_registry s' = s_registry s → s_id_alloc s' = s_id_alloc s →
    open_effect s s' (OpInsert id loc) (OpDone (Err e)).

Lemma open_step_effect p s p' s' :
  open_step p s = (p', s') →
  open_effect s s' p p' ∧ s_config s' = s_config s ∧ s_role s' = s_role s ∧
  s_is_closing s' = s_is_closing s.
Proof.
  destruct p; cbn [open_step]; run_sm.
  - intros [= <- <-]. split; [|done]. destruct (s_is_closing s); (apply OE_quiet; try done; by (intros ?; left)).
  - intros [= <- <-]. split; [|done]. destruct (s_peer_gone s); (apply OE_quiet; try done; by (intros ?; left)).
  - destruct (Z.leb_spec (Config.max_streams (s_config s)) (StreamRegistry.len (s_registry s)));
      intros [= <- <-]; (split; [|done]); [|by apply OE_check].
    apply OE_quiet; try done. by (intros ?; left).
  - unfold StreamIdAllocator.allocate.
    destruct (checked_add_u32 (StreamIdAllocator.next (s_id_alloc s)) 2) as [nxt|] eqn:E; cbn;
      intros [= <- <-]; (split; [|done]).
    + apply StreamIdAllocator.checked_add_u32_Some in E as [-> _]. by apply OE_alloc.
    + apply OE_quiet; try done. by (intros ?; left).
  - unfold StreamRegistry.insert. destruct (s_registry s !! id) as [l0|] eqn:E; cbn;
      intros [= <- <-]; (split; [|done]); [|by apply OE_insert].
    apply OE_duplicate; try done; by rewrite E.
  - intros [= <- <-]. split; [|done]. destruct (negb _); (apply OE_quiet; try done; by (intros ?; left)).
  - intros [= <- <-]. split; [|done]. apply OE_quiet; try done; [apply delete_subseteq|by (intros ?; left)].
  - intros [= <- <-]. split; [|done]. apply OE_quiet; try done. by (intros ?; right).
Qed.

(** What one access of the reader's SYN handling can do. *)
Inductive syn_effect (s s' : session) : syn_pc → syn_pc → Prop :=
| SE_quiet p p' :
    s_registry s' ⊆ s_registry s → (syn_inflight p' = 0)%nat → (∀ id, p' ≠ SyGone id) →
    (∀ id, p' = SyLen id → p = SyGone id) → syn_effect s s' p p'
| SE_check id :
    s_registry s' = s_registry s →
    StreamRegistry.len (s_registry s) < Config.max_streams (s_config s) →
    syn_effect s s' (SyLen id) (SyInsert id)
| SE_insert id loc :
    s_registry s' = <[id := loc]> (s_registry s) →
    syn_effect s s' (SyInsert id) (SyAccept id loc).

Lemma syn_step_effect p s p' s' :
  syn_step p s = (p', s') →
  syn_effect s s' p p' ∧ same_control s s' ∧ s_is_closing s' = s_is_closing s.
Proof.
  destruct p; cbn [syn_step]; run_sm.
  - destruct (s_peer_gone s); intros [= <- <-]; (split; [|done]); apply SE_quiet; try done; naive_solver.
  - destruct (Z.leb_spec (Config.max_streams (s_config s)) (StreamRegistry.len (s_registry s)));
      intros [= <- <-]; (split; [|done]); [|by apply SE_check]. by apply SE_quiet.
  - unfold StreamRegistry.insert. cbn. destruct (s_registry s !! id) as [l0|] eqn:E; cbn;
      intros [= <- <-]; (split; [|done]); [by apply SE_quiet|by apply SE_insert].
  - intros [= <- <-]. split; [|done]. destruct (negb _); by apply SE_quiet.
  - intros [= <- <-]. split; [|done]. apply SE_quiet; try done. apply delete_subseteq.
  - intros [= <- <-]. split; [|done]. by apply SE_quiet.
  - intros [= <- <-]. split; [|done]. apply SE_quiet; try done.
Qed.

(** *** The limit *)

Section Invariants.
Variable config : Config.t.
Variable role : Role.t.
Variable k : nat.               (* the tasks that may call [open] *)

Definition registered_streams (c : sconf) : Z := StreamRegistry.len (s_registry (sess c)).

Definition limit_inv (c : sconf) : Prop :=
  length (openers c) = k ∧ s_config (sess c) = config ∧ s_role (sess c) = role ∧
  registered_streams c + Z.of_nat (count open_inflight (openers c)) +
    Z.of_nat (syn_inflight (syn c)) ≤ Config.max_streams config + Z.of_nat k.

Lemma len_mono (g g' : StreamRegistry.t) : g ⊆ g' → StreamRegistry.len g ≤ StreamRegistry.len g'.
Proof. intros H. unfold StreamRegistry.len. apply Nat2Z.inj_le. by apply map_subseteq_size. Qed.

Lemma len_insert_le id loc (g : StreamRegistry.t) :
  StreamRegistry.len (<[id := loc]> g) ≤ StreamRegistry.len g + 1.
Proof.
  unfold StreamRegistry.len. rewrite map_size_insert. destruct (g !! id); cbn; lia.
Qed.

Lemma limit_shrink s s' ops sy shs shs' n n' :
  same_control s s' → s_registry s' ⊆ s_registry s →
  limit_inv (mk_sconf s ops sy shs n) → limit_inv (mk_sconf s' ops sy shs' n').
Proof.
  unfold limit_inv, registered_streams. cbn. intros (-> & -> & _) Hsub (Hl & Hc & Hr & Hb).
  apply len_mono in Hsub. split_and!; try done. lia.
Qed.

Lemma limit_open s ops sy shs n i p p' s' :
  ops !! i = Some p → open_step p s = (p', s') →
  limit_inv (mk_sconf s ops sy shs n) → limit_inv (mk_sconf s' (<[i := p']> ops) sy shs n).
Proof.
  unfold limit_inv, registered_streams. cbn. intros Hi Hs (Hl & Hc & Hr & Hb).
  destruct (open_step_effect p s p' s' Hs) as (He & -> & -> & _).
  rewrite length_insert. split_and!; try done.
  pose proof (count_insert open_inflight ops i p p' Hi) as Hcount.
  assert (count open_inflight (<[i := p']> ops) ≤ k)%nat as Hk.
  { rewrite <- Hl, <- (length_insert ops i p'). apply count_bound. intros []; cbn; lia. }
  assert (syn_inflight sy ≤ 1)%nat as Hsy by (destruct sy; cbn; lia).
  destruct He as [p p' Hsub _ Hin _|Hreg _ Hlen|loc Hreg _|id loc _ Hreg _|id loc e _ Hreg _];
    cbn in Hcount; try rewrite Hreg; try apply len_mono in Hsub; try lia.
  - subst config. lia.
  - pose proof (len_insert_le id loc (s_registry s)). lia.
Qed.

Lemma limit_syn s ops sy shs n p' s' :
  syn_step sy s = (p', s') →
  limit_inv (mk_sconf s ops sy shs n) → limit_inv (mk_sconf s' ops p' shs n).
Proof.
  unfold limit_inv, registered_streams. cbn. intros Hs (Hl & Hc & Hr & Hb).
  destruct (syn_step_effect sy s p' s' Hs) as (He & (-> & -> & _) & _). split_and!; try done.
  assert (count open_inflight ops ≤ k)%nat as Hk.
  { rewrite <- Hl. apply count_bound. intros []; cbn; lia. }
  destruct He as [p p' Hsub Hin _ _|id Hreg Hlen|id loc Hreg]; cbn in *;
    try rewrite Hreg; try apply len_mono in Hsub; try lia.
  - subst config. lia.
  - pose proof (len_insert_le id loc (s_registry s)). lia.
Qed.

(** *** Ids *)

Abbreviation next s := (StreamIdAllocator.next (s_id_alloc s)).

Definition ids_ok (s : session) : Prop :=
  s_role s = role ∧ (∃ n, 0 ≤ n ∧ next s = Role.first_id role + 2 * n) ∧
  ∀ id loc, s_registry s !! id = Some loc → Role.owns role id = true → id < next s.

Definition openers_ok (s : session) (ops : list open_pc) : Prop :=
  (∀ j id loc, ops !! j = Some (OpInsert id loc) →
     Role.owns role id = true ∧ id < next s ∧ s_registry s !! id = None) ∧
  (∀ j1 j2 id loc1 loc2, ops !! j1 = Some (OpInsert id loc1) → ops !! j2 = Some (OpInsert id loc2) →
     j1 = j2) ∧
  (∀ j m, ops !! j ≠ Some (OpDone (Err (Error.Protocol m)))).

Definition syn_ok (p : syn_pc) : Prop :=
  match p with SyGone id | SyLen id | SyInsert id => Role.owns role id = false | _ => True end.

Definition ids_inv (c : sconf) : Prop :=
  ids_ok (sess c) ∧ openers_ok (sess c) (openers c) ∧ syn_ok (syn c).

Lemma ids_ok_shrink s s' :
  s_role s' = s_role s → s_id_alloc s' = s_id_alloc s → s_registry s' ⊆ s_registry s →
  ids_ok s → ids_ok s'.
Proof.
  unfold ids_ok. intros -> -> Hsub (? & ? & H). split_and!; try done.
  intros id loc Hl. apply (lookup_weaken _ (s_registry s)) in Hl; eauto.
Qed.

Lemma openers_ok_shrink s s' ops :
  s_id_alloc s' = s_id_alloc s → s_registry s' ⊆ s_registry s → openers_ok s ops → openers_ok s' ops.
Proof.
  unfold openers_ok. intros -> Hsub (H1 & H2 & H3). split_and!; try done.
  intros j id loc Hj. destruct (H1 j id loc Hj) as (? & ? & ?). split_and!; try done.
  by eapply lookup_weaken_None.
Qed.

Lemma ids_shrink s s' ops sy shs shs' n n' :
  same_control s s' → s_registry s' ⊆ s_registry s →
  ids_inv (mk_sconf s ops sy shs n) → ids_inv (mk_sconf s' ops sy shs' n').
Proof.
  intros (_ & Hr & Ha) Hsub (H1 & H2 & H3). split_and!; [|by eapply openers_ok_shrink|done].
  by eapply ids_ok_shrink.
Qed.

(** A task that is not about to insert moves to another such point. *)
Lemma openers_ok_set s ops i p' :
  (∀ id loc, p' ≠ OpInsert id loc) → (∀ m, p' ≠ OpDone (Err (Error.Protocol m)) ∨ ops !! i = Some p') →
  openers_ok s ops → openers_ok s (<[i := p']> ops).
Proof.
  intros Hp Hd (H1 & H2 & H3).
  assert (∀ j q, <[i := p']> ops !! j = Some q → q = p' ∨ ops !! j = Some q) as Hlook.
  { intros j q Hj. destruct (decide (j = i)) as [->|]; [|rewrite list_lookup_insert_ne in Hj by done; auto].
    apply list_lookup_insert_Some in Hj as [(_ & -> & _)|[]]; auto. }
  split_and!.
  - intros j id loc [E|Hj]%Hlook; [by destruct (Hp id loc)|eauto].
  - intros j1 j2 id l1 l2 [E|Hj1]%Hlook [E'|Hj2]%Hlook; try (by destruct (Hp id l1)); try (by destruct (Hp id l2)).
    eauto.
  - intros j m Hj. apply Hlook in Hj as [<-|Hj]; [|by apply (H3 j m)].
    destruct (Hd m) as [|Hi]; [done|]. by apply (H3 i m).
Qed.

Lemma insert_lookup {P} (ops : list P) i j p q :
  <[i := p]> ops !! j = Some q → j = i ∧ q = p ∨ j ≠ i ∧ ops !! j = Some q.
Proof. intros [(-> & -> & _)|[? ?]]%list_lookup_insert_Some; auto. Qed.

(** A task takes the next id. *)
Lemma openers_ok_alloc s s' ops i loc :
  ids_ok s → s_registry s' = s_registry s → next s' = next s + 2 →
  openers_ok s ops → openers_ok s' (<[i := OpInsert (next s) loc]> ops).
Proof.
  intros (_ & (m & Hm & Hnext) & Hlt) Hreg Hn (H1 & H2 & H3).
  assert (Role.owns role (next s) = true) as Ho by (rewrite Hnext; by apply Role.owns_first_plus).
  unfold openers_ok. rewrite Hn, Hreg. split_and!.
  - intros j id l0 [(-> & [= -> ->])|[_ Hj]]%insert_lookup.
    + split_and!; [done|lia|]. destruct (s_registry s !! next s) eqn:E; [|done].
      specialize (Hlt _ _ E Ho). lia.
    + destruct (H1 j id l0 Hj) as (? & ? & ?). split_and!; try done. lia.
  - intros j1 j2 id l1 l2 [(-> & E1)|[? Hj1]]%insert_lookup [(-> & E2)|[? Hj2]]%insert_lookup;
      simplify_eq; [done| | |eauto].
    + destruct (H1 j2 _ l2 Hj2) as (_ & ? & _). lia.
    + destruct (H1 j1 _ l1 Hj1) as (_ & ? & _). lia.
  - intros j m0 [(-> & ?)|[_ Hj]]%insert_lookup; [done|by eapply H3].
Qed.

(** A task registers its stream; the others are about to register other ids. *)
Lemma openers_ok_insert s s' ops i id loc :
  ops !! i = Some (OpInsert id loc) → s_registry s' = <[id := loc]> (s_registry s) →
  s_id_alloc s' = s_id_alloc s → openers_ok s ops → openers_ok s' (<[i := OpSend id loc]> ops).
Proof.
  intros Hi Hreg Ha (H1 & H2 & H3). unfold openers_ok. rewrite Ha, Hreg. split_and!.
  - intros j id' l' [(_ & ?)|[Hne Hj]]%insert_lookup; [done|].
    destruct (H1 j id' l' Hj) as (? & ? & ?). split_and!; try done.
    rewrite lookup_insert_ne; [done|]. intros <-. by destruct Hne; eapply H2.
  - intros j1 j2 id' l1 l2 [(_ & ?)|[? Hj1]]%insert_lookup [(_ & ?)|[? Hj2]]%insert_lookup; eauto; done.
  - intros j m [(_ & ?)|[_ Hj]]%insert_lookup; [done|by eapply H3].
Qed.

Lemma ids_open s ops sy shs n i p p' s' :
  ops !! i = Some p → open_step p s = (p', s') →
  ids_inv (mk_sconf s ops sy shs n) → ids_inv (mk_sconf s' (<[i := p']> ops) sy shs n).
Proof.
  intros Hi Hs (Hok & Hops & Hsy). cbn in *.
  destruct (open_step_effect p s p' s' Hs) as (He & _ & Hr & _). unfold ids_inv. cbn.
  destruct He as [p p' Hsub Ha Hin Hd|Hreg Ha _|loc Hreg Hn|id loc Hnone Hreg Ha|id loc e Hdup _ _].
  - split_and!; [by eapply ids_ok_shrink| |done].
    apply openers_ok_set; [by intros id loc ->| |by eapply openers_ok_shrink].
    intros m. destruct (Hd m) as [?|<-]; auto.
  - split_and!; [eapply ids_ok_shrink; by try rewrite Hreg| |done].
    apply openers_ok_set; [done|by left|]. eapply openers_ok_shrink; by try rewrite Hreg.
  - split_and!; [|by apply openers_ok_alloc|done].
    destruct Hok as (Hrole & (m & Hm & Hnext) & Hlt).
    split_and!; [congruence|exists (m + 1); lia|]. rewrite Hreg, Hn. intros id l0 Hl Hown.
    specialize (Hlt id l0 Hl Hown). lia.
  - destruct Hops as (H1 & H2 & H3). destruct (H1 i id loc Hi) as (_ & Hidlt & _).
    split_and!; [|by eapply openers_ok_insert|done]. destruct Hok as (Hrole & Hal & Hlt).
    unfold ids_ok. rewrite Ha, Hreg. split_and!; [congruence|done|].
    intros id' l' [(<- & <-)|(? & Hl)]%lookup_insert_Some; eauto.
  - destruct Hops as (H1 & _). destruct (H1 i id loc Hi) as (_ & _ & E). rewrite E in Hdup. by destruct Hdup.
Qed.

(** The reader registers streams of the peer's parity only. *)
Lemma ids_syn s ops sy shs n p' s' :
  syn_step sy s = (p', s') →
  ids_inv (mk_sconf s ops sy shs n) → ids_inv (mk_sconf s' ops p' shs n).
Proof.
  intros Hs (Hok & Hops & Hsy). cbn in *.
  destruct (syn_step_effect sy s p' s' Hs) as (He & (_ & Hr & Ha) & _). unfold ids_inv. cbn.
  destruct He as [p p' Hsub Hin Hg Hl|id Hreg _|id loc Hreg].
  - split_and!; [by eapply ids_ok_shrink|by eapply openers_ok_shrink|].
    destruct p'; try done; [by destruct (Hg id)|]. by rewrite (Hl id eq_refl) in Hsy.
  - split_and!; [eapply ids_ok_shrink; by try rewrite Hreg| |done].
    eapply openers_ok_shrink; by try rewrite Hreg.
  - cbn in Hsy. destruct Hok as (Hrole & Hal & Hlt), Hops as (H1 & H2 & H3).
    unfold ids_ok, openers_ok. rewrite Hr, Ha, Hreg. split_and!; try done.
    + intros id' l' [(<- & <-)|(? & Hl)]%lookup_insert_Some; [congruence|eauto].
    + intros j id' l' Hj. destruct (H1 j id' l' Hj) as (? & ? & ?). split_and!; try done.
      rewrite lookup_insert_ne; [done|]. congruence.
Qed.

(** *** Shutdown *)

Definition goaway_inv (c : sconf) : Prop :=
  (goaways_sent c + count sends_goaway (shutters c) ≤ Nat.b2n (s_is_closing (sess c)))%nat.

(** The flag pays for the GoAway. *)
Lemma shut_step_control p s p' s' :
  shut_step p s = (p', s') →
  same_control s s' ∧ s_registry s' ⊆ s_registry s ∧
  (Nat.b2n (s_is_closing s) + sends_goaway p' ≤ Nat.b2n (s_is_closing s'))%nat.
Proof.
  destruct p as [code|code| |[|loc locs]|]; cbn [shut_step]; run_sm; intros [= <- <-].
  - cbn. split_and!; try done. by destruct (s_is_closing s).
  - cbn. split_and!; try done. lia.
  - cbn. split_and!; try done; [apply map_empty_subseteq|lia].
  - cbn. split_and!; try done. lia.
  - destruct (on_stream_control loc force_close s) as (? & -> & ->). split_and!; try done. cbn. lia.
  - cbn. split_and!; try done. lia.
Qed.

(** *** All steps *)

Definition sconf_inv (c : sconf) : Prop := limit_inv c ∧ ids_inv c ∧ goaway_inv c.

Lemma sconf_inv_shrink s s' ops sy shs n :
  same_control s s' ∧ s_registry s' ⊆ s_registry s ∧ s_is_closing s' = s_is_closing s →
  sconf_inv (mk_sconf s ops sy shs n) → sconf_inv (mk_sconf s' ops sy shs n).
Proof.
  intros (Hc & Hsub & Hcl) (H1 & H2 & H3).
  split_and!; [by eapply limit_shrink|by eapply ids_shrink|]. unfold goaway_inv in *. cbn in *. by rewrite Hcl.
Qed.

Lemma sconf_inv_step c c' : sconf_step c c' → sconf_inv c → sconf_inv c'.
Proof.
  intros [s ops sy shs n i p p' s' Hi Hs|s ops sy shs n i r Hi|s ops sy shs n p' s' Hs
         |s ops r shs n id|s ops sy shs n i p p' s' Hi Hs|s ops sy shs n i code Hi
         |A s ops sy shs n loc m|s ops sy shs n id loc o|s ops sy shs n rx|s ops sy shs n code
         |s ops sy shs n] (H1 & H2 & H3).
  - split_and!; [by eapply limit_open|by eapply ids_open|].
    destruct (open_step_effect p s p' s' Hs) as (_ & _ & _ & E). unfold goaway_inv in *. cbn in *. by rewrite E.
  - split_and!; [| |done].
    + unfold limit_inv in *. cbn in *. rewrite length_insert.
      pose proof (count_insert open_inflight ops i _ OpClosed Hi). cbn in *. destruct H1 as (? & ? & ? & ?).
      split_and!; try done. unfold registered_streams in *. cbn in *. lia.
    + destruct H2 as (? & ? & ?). split_and!; try done. by apply openers_ok_set; [|left|].
  - split_and!; [by eapply limit_syn|by eapply ids_syn|].
    destruct (syn_step_effect sy s p' s' Hs) as (_ & _ & E). unfold goaway_inv in *. cbn in *. by rewrite E.
  - assert (syn_inflight (syn_start (s_role s) id) = 0%nat) as E
      by (unfold syn_start; by destruct (Role.owns _ _)).
    split_and!; [| |done].
    + unfold limit_inv, registered_streams in *. cbn in *. by rewrite E.
    + destruct H2 as (Hok & ? & _). split_and!; try done. unfold syn_start, syn_ok.
      destruct Hok as (<- & _). by destruct (Role.owns _ _) eqn:?.
  - destruct (shut_step_control p s p' s' Hs) as (Hc & Hsub & Hpay).
    split_and!; [by apply (limit_shrink s s' ops sy shs _ n)|by apply (ids_shrink s s' ops sy shs _ n)|].
    unfold goaway_inv in *. cbn [goaways_sent shutters sess] in *.
    pose proof (count_insert sends_goaway shs i p p' Hi). lia.
  - split_and!; [done|done|]. unfold goaway_inv in *. cbn [goaways_sent shutters sess] in *.
    pose proof (count_insert sends_goaway shs i _ (ShSwap code) Hi) as E. cbn [sends_goaway] in E. lia.
  - apply (sconf_inv_shrink s); [|by split_and!]. destruct (on_stream_control loc m s) as (? & -> & ?). done.
  - apply (sconf_inv_shrink s); [apply open_finish_control|by split_and!].
  - apply (sconf_inv_shrink s); [apply closer_turn_control|by split_and!].
  - apply (sconf_inv_shrink s); [|by split_and!]. done.
  - apply (sconf_inv_shrink s); [|by split_and!]. done.
Qed.

End Invariants.

Lemma sconf_reachable_inv config role k j c :
  Config.valid config → sconf_reachable config role k j c → sconf_inv config role k c.
Proof.
  intros Hv Hr. assert (sconf_inv config role k (sconf_init config role k j)) as H0.
  { destruct (start_spec config role Hv) as (Hs & Hc & Hro & Hcl & _).
    assert (s_registry (start config role : session) = ∅ ∧
      s_id_alloc (start config role : session) = StreamIdAllocator.new role) as [Hreg Ha].
    { unfold start, session_new. destruct (watch_channel false). cbn.
      by destruct (Config.keepalive_interval config). }
    unfold sconf_inv, limit_inv, ids_inv, goaway_inv, ids_ok, openers_ok, registered_streams. cbn.
    rewrite Hreg, Ha, Hc, Hro, Hcl, length_replicate, !count_replicate by done.
    destruct Hv as (_ & _ & _ & Hmax). unfold StreamRegistry.len. rewrite map_size_empty.
    split_and!; try done; try lia.
    - exists 0. cbn. lia.
    - intros j' id loc [? _]%lookup_replicate_1. done.
    - intros j1 j2 id l1 l2 (? & _)%lookup_replicate_1. done.
    - intros j' m (? & _)%lookup_replicate_1. done. }
  induction Hr as [|c1 c2 c3 Hs _ IH]; [done|]. by eapply IH, sconf_inv_step.
Qed.

(** C25: The stream limit under concurrency: whatever [k] tasks calling [open],
    the reader taking SYNs, shutdowns, timeouts and the closer do at the same
    time, never more than [max_streams + k] streams are registered: the check
    and the insertion are separate accesses, so each task that can open may
    exceed the limit by one, and no more. *)
Theorem registry_bound_concurrent config role k j c :
  Config.valid config → sconf_reachable config role k j c →
  StreamRegistry.len (s_registry (sess c)) ≤ Config.max_streams config + Z.of_nat k.
Proof.
  intros Hv Hr. destruct (sconf_reachable_inv config role k j c Hv Hr) as ((_ & _ & _ & Hb) & _).
  unfold registered_streams in Hb. lia.
Qed.

(** C24: Concurrent [open]s, SYNs and shutdowns do not disturb each other's
    bookkeeping: no [open] ever fails with a duplicate id, two tasks that are
    about to register never hold the same id, and of all the tasks that call
    [initiate_shutdown] at most one queues a GoAway, which it does only after
    the session is marked closed. *)
Theorem session_races_safe config role k j c :
  Config.valid config → sconf_reachable config role k j c →
  (∀ i m, openers c !! i ≠ Some (OpDone (Err (Error.Protocol m)))) ∧
  (∀ i1 i2 id loc1 loc2, openers c !! i1 = Some (OpInsert id loc1) →
     openers c !! i2 = Some (OpInsert id loc2) → i1 = i2) ∧
  (goaways_sent c ≤ if s_is_closing (sess c) then 1 else 0)%nat.
Proof.
  intros Hv Hr. destruct (sconf_reachable_inv config role k j c Hv Hr) as (_ & (_ & (_ & H2 & H3) & _) & Hg).
  split_and!; [done|done|]. unfold goaway_inv in Hg. destruct (s_is_closing (sess c)); cbn in Hg; lia.
Qed.

(** The programs are the stretches of session code: run without interference,
    the accesses of [open], of the SYN handling and of [initiate_shutdown] give
    the results and the session state of [open_start], [handle_syn] and
    [initiate_shutdown], in at most seven, six and four plus the number of
    registered streams accesses. *)
Lemma session_code_equivalence id code (s : session) :
  iter open_step 7 OpClosed s = (OpDone (fst (open_start s)), snd (open_start s)) ∧
  iter syn_step 6 (syn_start (s_role s) id) s = (SyDone (fst (handle_syn id s)), snd (handle_syn id s)) ∧
  iter shut_step (4 + size (s_registry s)) (ShSwap code) s = (ShDone, snd (initiate_shutdown code s)).
Proof. split_and!; [apply open_undisturbed|apply syn_undisturbed|apply shutdown_undisturbed]. Qed.

End Machine.

(** ** Schedules *)

Section Schedules.

Abbreviation sconf0 := (sconf (W := option Waker) (C := list_chan) (X := cell)).

Inductive smove : Type :=
| SOpenCall (i : nat) | SOpen (i : nat) | SSynCall (id : StreamId) | SSyn
| SShutCall (i : nat) (code : ErrorCode.t) | SShut (i : nat).

Definition do_smove (a : smove) (c : sconf0) : sconf0 :=
  let '(mk_sconf s ops sy shs n) := c in
  match a with
  | SOpenCall i =>
    match ops !! i with Some (OpDone _) => mk_sconf s (<[i := OpClosed]> ops) sy shs n | _ => c end
  | SOpen i =>
    match ops !! i with
    | Some p => let '(p', s') := open_step p s in mk_sconf s' (<[i := p']> ops) sy shs n
    | None => c
    end
  | SSynCall id =>
    match sy with SyDone _ => mk_sconf s ops (syn_start (s_role s) id) shs n | _ => c end
  | SSyn => let '(p', s') := syn_step sy s in mk_sconf s' ops p' shs n
  | SShutCall i code =>
    match shs !! i with Some ShDone => mk_sconf s ops sy (<[i := ShSwap code]> shs) n | _ => c end
  | SShut i =>
    match shs !! i with
    | Some p => let '(p', s') := shut_step p s in
                mk_sconf s' ops sy (<[i := p']> shs) (n + sends_goaway p)
    | None => c
    end
  end.

Lemma do_smove_steps a c : rtc (sconf_step (R := nat)) c (do_smove a c).
Proof.
  destruct c as [s ops sy shs n], a; cbn.
  - destruct (ops !! i) as [[]|] eqn:E; try done. apply rtc_once. by eapply SC_open_call.
  - destruct (ops !! i) eqn:E; [|done]. destruct (open_step _ s) eqn:Es. apply rtc_once. by eapply SC_open.
  - destruct sy; try done. apply rtc_once, SC_syn_call.
  - destruct (syn_step sy s) eqn:Es. apply rtc_once. by eapply SC_syn.
  - destruct (shs !! i) as [[]|] eqn:E; try done. apply rtc_once. by eapply SC_shut_call.
  - destruct (shs !! i) eqn:E; [|done]. destruct (shut_step _ s) eqn:Es. apply rtc_once. by eapply SC_shut.
Qed.

Definition splay (config : Config.t) (k j : nat) (l : list smove) : sconf0 :=
  foldl (λ c a, do_smove a c) (sconf_init config Role.Client k j) l.

Lemma splay_reachable config k j l : sconf_reachable (R := nat) config Role.Client k j (splay config k j l).
Proof.
  unfold sconf_reachable, splay. generalize (sconf_init (W := option Waker) (C := list_chan) (X := cell) config Role.Client k j).
  induction l as [|a l IH]; intros c; cbn; [done|]. etrans; [apply do_smove_steps|apply IH].
Qed.

(** At most one stream. *)
Definition cfg_one : Config.t := Config.mk 8 4 1 None 0 0.

Lemma cfg_one_valid : Config.valid cfg_one.
Proof. concrete. Qed.

(** Two tasks pass the limit check one after the other, then both register. *)
Definition two_opens : list smove :=
  [SOpenCall 0; SOpenCall 1; SOpen 0; SOpen 0; SOpen 0; SOpen 1; SOpen 1; SOpen 1;
   SOpen 0; SOpen 0; SOpen 0; SOpen 1; SOpen 1; SOpen 1].

(** [max_streams] is not a hard cap: with a limit of one stream, two
    overlapping calls of [open] both succeed and two streams are registered. *)
Theorem max_streams_exceeded :
  ∃ c : sconf0, sconf_reachable (R := nat) cfg_one Role.Client 2 0 c ∧
    openers c = [OpDone (Ok (1, 0%nat)); OpDone (Ok (3, 1%nat))] ∧
    StreamRegistry.len (s_registry (sess c)) = 2 ∧ Config.max_streams (s_config (sess c)) = 1.
Proof.
  exists (splay cfg_one 2 0 two_opens). split; [apply splay_reachable|].
  split_and!; vm_compute; reflexivity.
Qed.

(** The opener has its id; the session shuts down completely; the opener
    registers its stream and sends the SYN. *)
Definition open_over_shutdown : list smove :=
  [SOpenCall 0; SOpen 0; SOpen 0; SOpen 0; SOpen 0; SShutCall 0 ErrorCode.Normal;
   SShut 0; SShut 0; SShut 0; SShut 0; SOpen 0; SOpen 0].

(** An [open] that overlaps a shutdown can miss it: when the shutdown runs
    between the opener's checks and its insertion, the new stream is registered
    on a closed session after the drain, its SYN is queued behind the final
    GoAway, the opener waits although the session is closed, and no later
    shutdown call closes the stream. *)
Theorem open_misses_shutdown :
  ∃ c : sconf0, sconf_reachable (R := nat) cfg8 Role.Client 1 1 c ∧
    openers c = [OpDone (Ok (1, 0%nat))] ∧ shutters c = [ShDone] ∧
    is_closed (sess c) = true ∧ s_registry (sess c) !! 1 = Some 0%nat ∧
    queued (s_out (sess c)) = [Frame.go_away ErrorCode.Normal; Frame.syn 1] ∧
    fst (open_poll 7 0 (sess c)) = Some PollPending ∧
    ∀ code, snd (initiate_shutdown code (sess c)) = sess c.
Proof.
  exists (splay cfg8 1 1 open_over_shutdown). split; [apply splay_reachable|].
  split_and!; vm_compute; reflexivity.
Qed.

Lemma registry_bound_concurrent_witness :
  StreamRegistry.len (s_registry (sess (splay cfg_one 2 0 two_opens))) = 2 ∧
  StreamRegistry.len (s_registry (sess (splay cfg_one 2 0 two_opens))) ≤ 3.
Proof.
  split; [vm_compute; reflexivity|].
  apply (registry_bound_concurrent (R := nat) cfg_one Role.Client 2 0 _ cfg_one_valid).
  apply splay_reachable.
Defined.

(** Two tasks shut the session down at the same time. *)
Definition two_shutdowns : list smove :=
  [SShutCall 0 ErrorCode.Normal; SShutCall 1 ErrorCode.Timeout; SShut 1; SShut 0; SShut 1; SShut 1].

Lemma session_races_safe_witness :
  goaways_sent (splay cfg_one 0 2 two_shutdowns) = 1%nat ∧
  (goaways_sent (splay cfg_one 0 2 two_shutdowns) ≤ 1)%nat.
Proof.
  split; [vm_compute; reflexivity|].
  destruct (session_races_safe (R := nat) cfg_one Role.Client 0 2 (splay cfg_one 0 2 two_shutdowns)
    cfg_one_valid) as (_ & _ & H); [apply splay_reachable|].
  etrans; [exact H|]. destruct (s_is_closing _); lia.
Defined.

End Schedules.
