(* ===== verification/Overlap.v ===== *)
(** * The session invariant under overlapping opens ([src/session/mod.rs])

    [System] runs each call of [open] up to its wait in one stretch.  On a runtime
    with several threads the limit check of one call and the registration of
    another overlap.  Here any number of tasks run [open] access by access
    ([SessionConc.open_step]), between and inside one another, while everything
    else that can happen to a session ([System.event]) goes on: the session
    invariant holds all the same, with the limit on the registry raised by the
    number of tasks that may be inside [open]. *)

From S2P Require Import Prelude Machine Interleaving Errors Config Ids Frames Header Codec Crates Window.
From S2P Require Import StreamState RecvBuffer StreamInner StreamFacts StreamInv Session Reader Api.
From S2P Require Import Keepalive Writer SessionInv System SessionConc.
From Stdlib Require Import ZArith Lia.

Local Open Scope Z_scope.

Section Overlap.
Context {BF : BitflagsOps}.
Context {W : Type} {AW : AtomicWakerOps W}.
Context {C : Type → Type} {CH : UnboundedChannelOps C}.
Context {X R : Type} {WO : WatchOps X R}.
Context {DO : DrainOrder}.

Abbreviation session := (Session W C X).

(** The session and the tasks that call [open]. *)
Record shared : Type := mk_shared { sh_s : session; sh_opens : list open_pc }.

Inductive overlap_step : shared → shared → Prop :=
| OV_access s ops i p p' s' :             (* an access of [open] *)
    ops !! i = Some p → open_step p s = (p', s') →
    overlap_step (mk_shared s ops) (mk_shared s' (<[i := p']> ops))
| OV_call s ops i r :                     (* a task calls [open] *)
    ops !! i = Some (OpDone r) →
    overlap_step (mk_shared s ops) (mk_shared s (<[i := OpClosed]> ops))
| OV_event e s ops :                      (* anything else *)
    event_ok (R := R) e → overlap_step (mk_shared s ops) (mk_shared (handle e s) ops)
| OV_take s ops :
    overlap_step (mk_shared s ops) (mk_shared (snd (recv_out s)) ops)
| OV_writer_exit s ops :
    overlap_step (mk_shared s ops) (mk_shared (set_out (chan_drop_rx (s_out s)) s) ops).

(** A new session and [k] tasks that may call [open]. *)
Definition overlap_init (config : Config.t) (role : Role.t) (k : nat) : shared :=
  mk_shared (start (R := R) config role) (replicate k (OpDone (Err Error.SessionClosed))).

Definition overlap_reachable config role k : shared → Prop := rtc overlap_step (overlap_init config role k).

(** ** What an opener relies on *)

(** What holds of a stream between its allocation and its SYN. *)
Definition open_ok (s : session) (p : open_pc) : Prop :=
  match p with
  | OpInsert i loc =>
    is_u32 i ∧ Role.owns (s_role s) i = true ∧ i < StreamIdAllocator.next (s_id_alloc s) ∧
    ∃ st, s_heap s !! loc = Some st ∧ id st = i
  | OpSend i _ | OpUndo i => is_u32 i
  | _ => True
  end.

(** Others do not take it away. *)
Lemma evolves_open_ok s s' p : evolves s s' → open_ok s p → open_ok s' p.
Proof.
  intros (_ & Er & _ & [_ Hn] & Hh & _). destruct p; cbn; try done. rewrite Er.
  intros (? & ? & ? & st & Hl & ?). destruct (Hh loc st Hl) as (st' & ? & ? & _).
  split_and!; [done|done|lia|]. exists st'. split; congruence.
Qed.

Lemma session_inv_slack (a b : Slack) (s : session) :
  session_inv (SL := a) s → StreamRegistry.len (s_registry s) ≤ Config.max_streams (s_config s) + Z.of_nat b →
  session_inv (SL := b) s.
Proof. intros [I1 I2 I3 I4 I5 I6 _ I8 I9] H. by constructor. Qed.

(** One access of [open].  It leaves at most as many streams in the registry,
    unless it registers the one it allocated. *)
Lemma open_step_ok (a : Slack) p p' (s s' : session) :
  open_step p s = (p', s') → session_inv (SL := a) s → open_ok s p →
  session_inv (SL := a + open_inflight p)%nat s' ∧ evolves s s' ∧ open_ok s' p' ∧
  ((open_inflight p' ≤ open_inflight p)%nat ∧
     StreamRegistry.len (s_registry s') + Z.of_nat (open_inflight p') ≤
     StreamRegistry.len (s_registry s) + Z.of_nat (open_inflight p) ∨
   s' = s ∧ StreamRegistry.len (s_registry s) < Config.max_streams (s_config s)).
Proof.
  intros E Hs Hp.
  assert (session_inv (SL := a + open_inflight p)%nat s) as Hs0
    by (apply (session_inv_slack a); [exact Hs|]; pose proof (inv_size (SL := a) s Hs); unfold slack in *; lia).
  destruct p as [| | | |i loc|i loc|i|r]; cbn [open_step] in E; revert E; run_sm; cbn [open_inflight].
  - intros [= <- <-]. split_and!; [done|done|by destruct (s_is_closing s)|left]. destruct (s_is_closing s); cbn; lia.
  - intros [= <- <-]. split_and!; [done|done|by destruct (s_peer_gone s)|left]. destruct (s_peer_gone s); cbn; lia.
  - destruct (Z.leb_spec (Config.max_streams (s_config s)) (StreamRegistry.len (s_registry s)));
      intros [= <- <-]; (split_and!; [done|done|done|]); [left; cbn; lia|by right].
  - destruct (allocate_ok (SL := (a + 1)%nat) s Hs0) as (Hs1 & He1 & Hid).
    destruct (fst (StreamIdAllocator.allocate (s_id_alloc s))) as [i|] eqn:Ea; cbn [ok_or fst snd]; intros [= <- <-].
    2: { split_and!; [done|done|done|left; cbn; lia]. }
    destruct (Hid i eq_refl) as (Hu & Hnz & Ho & _ & Hlt). set (s1 := set_id_alloc _ s) in *.
    destruct (alloc_stream_ok (SL := (a + 1)%nat) i Local s1 Hs1 Hu Hnz) as (Hs2 & He2 & Hl2).
    split_and!; [exact Hs2|by transitivity s1| |left; cbn; lia].
    cbn. split_and!; auto. by exists (new i Local (s_config s1)).
  - destruct Hp as (Hu & Ho & Hlt & st & Hl & Hi).
    destruct (reg_insert_ok (SL := (a + 1)%nat) i loc st s Hs0 Hl Hi) as [Hs1 He1];
      [pose proof (inv_size (SL := a) s Hs); unfold slack in *; lia|done|].
    unfold reg_insert, StreamRegistry.insert in *.
    destruct (s_registry s !! i) as [l0|] eqn:Hr; cbn [fst snd] in *; intros [= <- <-];
      (split_and!; [exact Hs1|exact He1|done|left]); cbn; [lia|].
    unfold StreamRegistry.len. rewrite map_size_insert_None by done. lia.
  - destruct (s_send_ok (SL := (a + 0)%nat) (Frame.syn i) (control_syn i Hp) eq_refl s Hs0) as [Hs1 He1].
    intros [= <- <-]. split_and!; [exact Hs1|exact He1|by destruct (negb _)|left]. destruct (negb _); cbn; lia.
  - destruct (reg_remove_ok (SL := (a + 0)%nat) i s Hs0) as [Hs1 He1]. intros [= <- <-].
    split_and!; [exact Hs1|exact He1|done|left]. pose proof (len_delete i (s_registry s)). cbn in *. lia.
  - intros [= <- <-]. split_and!; [done|done|done|left; cbn; lia].
Qed.

(** ** The invariant *)

Section Invariant.
Variable config : Config.t.
Variable role : Role.t.
Variable k : nat.

(** Calls of [open] past their check take up room before they register. *)
Definition room (ops : list open_pc) : Slack := (k - count open_inflight ops)%nat.

Record overlap_inv (c : shared) : Prop := {
  ov_tasks : length (sh_opens c) = k;
  ov_config : s_config (sh_s c) = config;
  ov_role : s_role (sh_s c) = role;
  ov_session : session_inv (SL := room (sh_opens c)) (sh_s c);
  ov_opens : Forall (open_ok (sh_s c)) (sh_opens c);
}.

Lemma inflight_bound ops : length ops = k → (count open_inflight ops ≤ k)%nat.
Proof. intros <-. apply count_bound. by intros []; cbn; lia. Qed.

Lemma overlap_quiet s s' ops :
  session_inv (SL := room ops) s' → evolves s s' →
  overlap_inv (mk_shared s ops) → overlap_inv (mk_shared s' ops).
Proof.
  intros Hs He [H1 H2 H3 _ H5]. pose proof He as (Ec & Er & _). constructor; cbn in *; auto; try congruence.
  eapply Forall_impl; [exact H5|]. intros p. by apply evolves_open_ok.
Qed.

Lemma overlap_access s ops i p p' s' :
  ops !! i = Some p → open_step p s = (p', s') →
  overlap_inv (mk_shared s ops) → overlap_inv (mk_shared s' (<[i := p']> ops)).
Proof.
  intros Hi E [H1 H2 H3 H4 H5]. cbn in *. pose proof (Forall_lookup_1 _ _ _ _ H5 Hi) as Hp.
  destruct (open_step_ok _ p p' s s' E H4 Hp) as (Hs & He & Hp' & Hlen). pose proof He as (Ec & Er & _).
  pose proof (inflight_bound ops H1) as Hb.
  pose proof (inflight_bound (<[i := p']> ops) ltac:(by rewrite length_insert)) as Hb'.
  pose proof (count_insert open_inflight ops i p p' Hi) as Hcount.
  pose proof (inv_size (SL := room ops) s H4) as Hsz.
  constructor; cbn; [by rewrite length_insert|congruence|congruence| |].
  - apply (session_inv_slack (room ops + open_inflight p)%nat); [exact Hs|]. rewrite Ec. unfold room, slack in *.
    destruct Hlen as [[Hle Hlen]|[-> Hlt]]; lia.
  - apply Forall_insert; [|done]. eapply Forall_impl; [exact H5|]. intros q. by apply evolves_open_ok.
Qed.

Lemma overlap_inv_step c c' : overlap_step c c' → overlap_inv c → overlap_inv c'.
Proof.
  intros [s ops i p p' s' Hi E|s ops i r Hi|e s ops He|s ops|s ops] Hc.
  - by eapply overlap_access.
  - destruct Hc as [H1 H2 H3 H4 H5]. cbn in *. pose proof (count_insert open_inflight ops i _ OpClosed Hi) as Hn.
    constructor; cbn; [by rewrite length_insert|done|done| |by apply Forall_insert].
    assert (room (<[i := OpClosed]> ops) = room ops) as -> by (unfold room; f_equal; cbn in Hn; lia). done.
  - destruct (handle_ok (SL := room ops) e s He (ov_session _ Hc)) as [Hs Hev]. by eapply overlap_quiet.
  - destruct (recv_out_ok (SL := room ops) s (ov_session _ Hc)) as [Hs _]. destruct Hc as [H1 H2 H3 _ H5].
    by constructor.
  - destruct Hc as [H1 H2 H3 [I1 I2 I3 I4 I5 I6 I7 I8 I9] H5]. constructor; cbn in *; auto.
    constructor; cbn; auto. by rewrite queued_drop.
Qed.

Lemma overlap_reachable_inv c :
  Config.valid config → overlap_reachable config role k c → overlap_inv c.
Proof.
  intros Hv Hr. assert (overlap_inv (overlap_init config role k)) as H0.
  { destruct (start_spec (SL := room (replicate k (OpDone (Err Error.SessionClosed)))) (W := W) (C := C) (X := X) (R := R)
      config role Hv) as (Hs & Hc & Hro & _).
    constructor; cbn; [by rewrite length_replicate|done|done|done|by apply Forall_replicate]. }
  induction Hr as [|c1 c2 c3 Hst _ IH]; [done|]. by eapply IH, overlap_inv_step.
Qed.

End Invariant.

(** C10: The session invariant.  Whatever the peer sends, the users do and the
    tasks interleave, with the calls of [open] of any number [k] of tasks
    overlapping access by access, between the other stretches of code, which run
    undisturbed: every registry entry refers to a live stream with that very id, ids
    are non-zero [u32]s, at most [max_streams + k] streams are registered, a
    registered id of our own parity was handed out by the allocator before, and
    the accept queue holds only streams the peer opened; the configuration and
    the role never change. *)
Theorem session_invariant config role k c :
  Config.valid config → overlap_reachable config role k c →
  let s := sh_s c in
  s_config s = config ∧ s_role s = role ∧
  (∀ i loc, s_registry s !! i = Some loc →
     is_u32 i ∧ i ≠ 0 ∧ ∃ st, s_heap s !! loc = Some st ∧ id st = i ∧ stream_inv i config st) ∧
  StreamRegistry.len (s_registry s) ≤ Config.max_streams config + Z.of_nat k ∧
  (∀ i loc, s_registry s !! i = Some loc → Role.owns role i = true →
     i < StreamIdAllocator.next (s_id_alloc s)) ∧
  Forall (λ loc, ∃ st, s_heap s !! loc = Some st ∧ Role.owns role (id st) = false)
    (queued (s_accept s)).
Proof.
  intros Hv Hr s. destruct (overlap_reachable_inv config role k c Hv Hr) as [_ Hc Hro Hs _].
  destruct Hs as [I1 I2 I3 I4 I5 I6 I7 I8 I9]. fold s in Hc, Hro, I2, I3, I4, I6, I7. rewrite Hc in *. rewrite Hro in *.
  split_and!; auto; [|unfold room, slack in I7; lia].
  intros i loc Hl. destruct (I3 i loc Hl) as (st & Hst & Hid).
  destruct (Forall_lookup_1 _ _ _ _ I2 Hst) as (Hinv & Hu & Hnz). subst i.
  split_and!; [done|done|]. by exists st.
Qed.

End Overlap.

(** ** A concrete run *)

Section Witnesses.

#[local] Existing Instance documented_bitflags.

Abbreviation shared0 := (shared (W := option Waker) (C := list_chan) (X := cell)).

(** One stream at most, and two tasks whose calls of [open] overlap: both pass
    the check before either registers. *)
Definition access_of (c : shared0) (i : nat) : shared0 :=
  match sh_opens c !! i with
  | Some (OpDone _) => mk_shared (sh_s c) (<[i := OpClosed]> (sh_opens c))
  | Some p => let '(p', s') := open_step p (sh_s c) in mk_shared s' (<[i := p']> (sh_opens c))
  | None => c
  end.

Lemma access_reaches c i : rtc (overlap_step (R := nat)) c (access_of c i).
Proof.
  destruct c as [s ops]. unfold access_of. cbn. destruct (ops !! i) as [p|] eqn:Hi; [|done].
  destruct p; try (apply rtc_once; destruct (open_step _ s) as [p' s'] eqn:E; by eapply OV_access).
  apply rtc_once. by eapply OV_call.
Qed.

Lemma accesses_reach l c : rtc (overlap_step (R := nat)) c (foldl access_of c l).
Proof. revert c. induction l as [|i l IH]; intros c; [done|]. etrans; [apply access_reaches|apply IH]. Qed.

Definition two_opens : shared0 :=
  foldl access_of (overlap_init (R := nat) cfg_one Role.Client 2)
    [0; 0; 0; 0; 1; 1; 1; 1; 0; 0; 0; 1; 1; 1]%nat.

Lemma session_invariant_witness :
  StreamRegistry.len (s_registry (sh_s two_opens)) = 2 ∧
  StreamRegistry.len (s_registry (sh_s two_opens)) ≤ 1 + 2.
Proof.
  split; [vm_compute; reflexivity|].
  apply (session_invariant (R := nat) cfg_one Role.Client 2 two_opens cfg_one_valid). apply accesses_reach.
Defined.

End Witnesses.
