(* ===== verification/Dispatch.v ===== *)
(** * What the reader does with what the peer sends

    The behaviour of [handle_data] on every branch, the robustness of the loop
    against arbitrary bytes, and what a reset costs the session when the peer's
    data is still in flight. *)

From S2P Require Import Prelude Machine Errors Config Ids Frames Header Codec Crates Window.
From S2P Require Import StreamState RecvBuffer StreamInner StreamFacts StreamInv Session Reader Api.
From S2P Require Import SessionInv System.
From Stdlib Require Import ZArith Lia.

Local Open Scope Z_scope.

Section Dispatch.
Context {BF : BitflagsOps}.
Context {W : Type} {AW : AtomicWakerOps W}.
Context {C : Type → Type} {CH : UnboundedChannelOps C}.
Context {X R : Type} {WO : WatchOps X R}.
Context {DO : DrainOrder}.

Abbreviation session := (Session W C X).

(** ** Arbitrary input *)

(** The items [FramedRead] yields on the bytes received so far: the decoded
    frames, then the error that stopped the decoder, if any. *)
Definition items_of (c : FrameCodec.t) (bytes : list byte) : list item :=
  let '(fs, e, _) := FrameCodec.decode_all c bytes in
  (NextFrame <$> fs) ++ option_list (NextErr <$> e).

Lemma decode_loop_items c fuel bytes :
  FrameCodec.wf c →
  Forall (FrameCodec.sendable c) (fst (fst (FrameCodec.decode_loop fuel c bytes))).
Proof.
  intros Hc. revert bytes. induction fuel as [|fuel IH]; intros bytes; [done|]. cbn.
  destruct (FrameCodec.decode c bytes) as [[[f|]|e] rest] eqn:E; cbn; try done.
  specialize (IH rest). destruct (FrameCodec.decode_loop fuel c rest) as [[fs e] rest'] eqn:E2. cbn in *.
  constructor; [|done]. by destruct (FrameCodec.decode_consumes c bytes rest f Hc E) as (h & _ & _ & ? & _).
Qed.

Lemma items_of_ok c bytes : FrameCodec.wf c → Forall item_ok (items_of c bytes).
Proof.
  intros Hc. unfold items_of, FrameCodec.decode_all.
  pose proof (decode_loop_items c (S (length bytes)) bytes Hc) as Hf.
  destruct (FrameCodec.decode_loop _ _ _) as [[fs e] rest]. cbn in Hf. apply Forall_app. split.
  - apply Forall_fmap. eapply Forall_impl; [|exact Hf]. by intros f [? _].
  - destruct e; repeat constructor.
Qed.

Lemma turn_ok {SL : Slack} rx items : Forall item_ok items → SM_ok (SL := SL) (X := X) (Reader.turn rx items).
Proof.
  intros Hi s Hs. unfold Reader.turn. destruct (watch_changed rx (s_shutdown s)); [by split|].
  destruct items as [|it items]; [by split|]. apply Forall_cons_1 in Hi as [Hi _].
  destruct (on_item_ok (SL := SL) it Hi s Hs) as [Hs' He']. by destruct (on_item it s) as [go s'].
Qed.

Lemma turn_items rx items (s : session) orx items' s' :
  Reader.turn rx items s = ((orx, items'), s') → items' = items ∨ ∃ it, items = it :: items'.
Proof.
  unfold Reader.turn. destruct (watch_changed rx (s_shutdown s)); [intros [= _ <- _]; by left|].
  destruct items as [|it items]; [intros [= _ <- _]; by left|].
  destruct (on_item it s). intros [= _ <- _]. right. by exists it.
Qed.

Lemma run_turns_ok fuel rx items : Forall item_ok items → SM_ok (X := X) (Reader.run_turns fuel rx items).
Proof.
  revert rx items. induction fuel as [|fuel IH]; intros rx items Hi s Hs; [by split|].
  cbn [Reader.run_turns]. destruct (turn_ok rx items Hi s Hs) as [Hs1 He1].
  destruct (Reader.turn rx items s) as [[orx items'] s1] eqn:E. cbn in Hs1, He1.
  assert (Forall item_ok items') as Hi'.
  { apply turn_items in E as [->|(it & ->)]; [done|]. by apply Forall_cons_1 in Hi as [_ ?]. }
  destruct orx as [rx'|]; [|by split].
  destruct (IH rx' items' Hi' s1 Hs1) as [Hs2 He2]. split; [done|by transitivity s1].
Qed.

(** A turn without a pending shutdown consumes an item. *)
Lemma turn_pending rx it items (s : session) :
  seen rx = version (s_shutdown s) →
  Reader.turn rx (it :: items) s =
    let '(go, s') := on_item it s in ((if (go : bool) then Some rx else None, items), s').
Proof. intros H. unfold Reader.turn. by rewrite (proj2 (changed_pending _ _) H). Qed.

(** The turns left: two per item, and one for a change not yet seen. *)
Definition turns_left (rx : R) (items : list item) (s : session) : nat :=
  (2 * length items + match watch_changed rx (s_shutdown s) with Some _ => 1 | None => 0 end)%nat.

Lemma run_turns_finish fuel rx items (s : session) :
  (turns_left rx items s ≤ fuel)%nat →
  let '((orx, rest), _) := Reader.run_turns fuel rx items s in orx = None ∨ rest = [].
Proof.
  unfold turns_left. revert rx items s. induction fuel as [|fuel IH]; intros rx items s Hf; cbn.
  - destruct items; [by right|simpl in Hf; lia].
  - unfold Reader.turn. destruct (watch_changed rx (s_shutdown s)) as [rx'|] eqn:Hch.
    + destruct (watch_borrow (s_shutdown s)); [by left|]. apply IH.
      apply changed_ready in Hch. rewrite (proj2 (changed_pending _ _) Hch). lia.
    + destruct items as [|it items].
      * apply IH. rewrite Hch. simpl. lia.
      * destruct (on_item it s) as [[] s1]; [|by left]. apply IH.
        simpl in Hf. destruct (watch_changed rx (s_shutdown s1)); simpl; lia.
Qed.

Lemma initiate_shutdown_closing code (s : session) :
  s_is_closing (snd (initiate_shutdown code s)) = true.
Proof.
  destruct (s_is_closing s) eqn:Hcl; [by rewrite initiate_shutdown_again|].
  rewrite initiate_shutdown_unfold by done. cbn.
  by destruct (force_close_all_spec (snd <$> drain_order (s_registry s)) (shutdown_prefix code s))
    as (_ & _ & _ & _ & -> & _).
Qed.

Lemma on_item_false it (s : session) :
  fst (on_item it s) = false → s_is_closing (snd (on_item it s)) = true.
Proof.
  destruct it as [f|e|]; cbn [on_item]; unfold mbind, SM_bind; cbn [fst snd].
  - destruct (fst (dispatch f s)); [done|]. intros _. apply initiate_shutdown_closing.
  - intros _. apply initiate_shutdown_closing.
  - intros _. apply initiate_shutdown_closing.
Qed.

Lemma run_turns_stop fuel rx items (s : session) :
  session_inv s → Forall item_ok items →
  let '((orx, _), s') := Reader.run_turns fuel rx items s in
  orx = None → s_is_closing s' = true.
Proof.
  revert rx items s. induction fuel as [|fuel IH]; intros rx items s Hs Hi; [done|]. cbn.
  destruct (turn_ok rx items Hi s Hs) as [Hs1 _].
  destruct (Reader.turn rx items s) as [[[rx'|] items'] s1] eqn:E; cbn in Hs1.
  - apply IH; [done|]. apply turn_items in E as [->|(it & ->)]; [done|].
    by apply Forall_cons_1 in Hi as [_ ?].
  - intros _. revert E. unfold Reader.turn. destruct (watch_changed rx (s_shutdown s)).
    + destruct (watch_borrow (s_shutdown s)) eqn:Hb; [|done]. intros [= _ <-]. by apply inv_watch.
    + destruct items as [|it items]; [done|]. pose proof (on_item_false it s) as Hof.
      destruct (on_item it s) as [[] s2]; [done|]. intros [= _ <-]. by apply Hof.
Qed.

(** C20: The reader survives anything the peer sends.  On every byte string the
    loop finishes: it either consumes every frame of the input or stops early,
    and it stops only with the session closed; in both cases the session
    invariant holds, so no input can corrupt the shared state, exceed the stream
    limit or make the session queue a frame it cannot send.  The loop needs at
    most two turns per frame. *)
Theorem reader_any_bytes config role s h rx bytes :
  Config.valid config → runs config role s h →
  let items := items_of (FrameCodec.new (Config.max_frame_size config)) bytes in
  let '((orx, rest), s') := Reader.run rx items s in
  (orx = None ∧ s_is_closing s' = true ∨ is_Some orx ∧ rest = []) ∧
  session_inv s' ∧ evolves s s'.
Proof.
  intros Hv Hr items. destruct (runs_inv config role s h Hv Hr) as (Hs & _).
  assert (Forall item_ok items) as Hi.
  { apply items_of_ok, FrameCodec.new_wf. destruct Hv as (_ & _ & ? & _). lia. }
  unfold Reader.run. set (fuel := (2 * length items + 1)%nat).
  pose proof (run_turns_finish fuel rx items s) as Hfin.
  pose proof (run_turns_stop fuel rx items s Hs Hi) as Hstop.
  destruct (run_turns_ok fuel rx items Hi s Hs) as [Hs' He'].
  destruct (Reader.run_turns fuel rx items s) as [[orx rest] s']. cbn in Hs', He'.
  split_and!; [|done|done].
  destruct orx as [rx'|]; [right|left; auto]. split; [done|]. destruct Hfin as [?|?]; [|done|done].
  unfold turns_left, fuel. destruct (watch_changed rx (s_shutdown s)); lia.
Qed.

(** ** Frames for streams *)

Lemma deliver_data_spec st (l : Links C) fl p :
  p = [] ∨ can_recv st = true →
  let '(r, (st', l')) := deliver_data fl p (st, l) in
  r = Ok () ∧ RecvBuffer.contents (recv st') = RecvBuffer.contents (recv st) ++ p ∧
  out_ch l' = out_ch l ∧
  ack_received st' = (contains fl Flags.ACK || ack_received st) ∧
  StreamState.read_open (state st') =
    (StreamState.read_open (state st) && negb (contains fl Flags.FIN || contains fl Flags.RST)) ∧
  StreamState.is_reset (state st') = (StreamState.is_reset (state st) || contains fl Flags.RST).
Proof.
  intros Hp. unfold deliver_data, when.
  destruct (contains fl Flags.ACK), (contains fl Flags.FIN), (contains fl Flags.RST);
    (destruct (bool_decide (p = [])) eqn:Hb;
     [apply bool_decide_eq_true in Hb; subst p; rewrite app_nil_r
     |apply bool_decide_eq_false in Hb; destruct Hp as [?|Hp]; [done|]]).
  all: unfold can_recv in *; run_m; cbn [fst snd]; rewrite ?Hp, ?(bool_decide_eq_false_2 _ Hb); cbn;
    rewrite ?Hp; cbn; rewrite ?(bool_decide_eq_false_2 _ Hb); cbn;
    rewrite ?RecvBuffer.push_contents, ?andb_true_r, ?andb_false_r, ?orb_true_r, ?orb_false_r;
    split_and!; try done.
Qed.

(** The session after a delivery to the stream at [loc]. *)
Lemma on_stream_deliver loc st fl p (s : session) :
  s_heap s !! loc = Some st → p = [] ∨ can_recv st = true →
  let '(r, s') := on_stream loc (deliver_data fl p) s in
  r = Some (Ok ()) ∧ s_registry s' = s_registry s ∧ s_out s' = s_out s ∧
  s_accept s' = s_accept s ∧
  ∃ st', s_heap s' = <[loc := st']> (s_heap s) ∧
    RecvBuffer.contents (recv st') = RecvBuffer.contents (recv st) ++ p ∧
    ack_received st' = (contains fl Flags.ACK || ack_received st) ∧
    StreamState.read_open (state st') =
      (StreamState.read_open (state st) && negb (contains fl Flags.FIN || contains fl Flags.RST)) ∧
    StreamState.is_reset (state st') = (StreamState.is_reset (state st) || contains fl Flags.RST).
Proof.
  intros Hl Hp. unfold on_stream. rewrite Hl.
  pose proof (deliver_data_spec st (mkLinks (s_out s) (s_closer s) (s_woken s)) fl p Hp) as Hd.
  destruct (deliver_data fl p _) as [r [st' l']]. cbn in *.
  destruct Hd as (-> & ? & ? & ? & ? & ?). split_and!; try done. exists st'. by split_and!.
Qed.

(** A frame reaches its stream and no other.  For a registered stream that
    can still receive (or a frame without payload), dispatching a [Data] frame
    appends exactly its payload to that stream's buffer, marks the ACK, closes
    the read half on FIN or RST and resets on RST; every other stream, the
    registry and the outbound queue are untouched. *)
Lemma data_reaches_stream i fl p loc st (s : session) :
  i ≠ 0 → contains fl Flags.SYN = false → s_registry s !! i = Some loc →
  s_heap s !! loc = Some st → p = [] ∨ can_recv st = true →
  let '(r, s') := dispatch (Frame.Data i fl p) s in
  r = Ok () ∧ s_registry s' = s_registry s ∧ s_out s' = s_out s ∧
  (∀ other, other ≠ loc → s_heap s' !! other = s_heap s !! other) ∧
  ∃ st', s_heap s' !! loc = Some st' ∧
    RecvBuffer.contents (recv st') = RecvBuffer.contents (recv st) ++ p ∧
    ack_received st' = (contains fl Flags.ACK || ack_received st) ∧
    StreamState.read_open (state st') =
      (StreamState.read_open (state st) && negb (contains fl Flags.FIN || contains fl Flags.RST)) ∧
    StreamState.is_reset (state st') = (StreamState.is_reset (state st) || contains fl Flags.RST).
Proof.
  intros Hi Hsyn Hreg Hl Hp. cbn [dispatch]. unfold handle_data.
  rewrite (proj2 (Z.eqb_neq _ _) Hi), Hsyn. unfold mbind, SM_bind, sget, StreamRegistry.get. cbn.
  rewrite Hreg. pose proof (on_stream_deliver loc st fl p s Hl Hp) as Hd.
  destruct (on_stream loc (deliver_data fl p) s) as [r s']. cbn.
  destruct Hd as (-> & ? & ? & _ & st' & Hh & Hst'). split_and!; try done.
  - intros other Hne. by rewrite Hh, list_lookup_insert_ne.
  - exists st'. split; [|done]. rewrite Hh. apply list_lookup_insert_eq. by eapply lookup_lt_Some.
Qed.

(** C32: A SYN from the peer, on every branch.  A SYN of our own parity is a
    protocol error; after the peer's GoAway or at [max_streams] registered
    streams it is answered by RST and nothing changes; an id already registered
    is a protocol error that leaves the registry alone; otherwise a fresh remote
    stream is registered under the id, offered once to [accept], and holds
    exactly the payload the SYN carried. *)
Theorem peer_syn_contract i fl p (s : session) :
  session_inv s → i ≠ 0 → contains fl Flags.SYN = true →
  let full := s_peer_gone s = true ∨ StreamRegistry.len (s_registry s) = Config.max_streams (s_config s) in
  let '(r, s') := dispatch (Frame.Data i fl p) s in
  (Role.owns (s_role s) i = true → r = Err (Error.Protocol "peer SYN with our parity") ∧ s' = s) ∧
  (Role.owns (s_role s) i = false → full →
     r = Ok () ∧ s_registry s' = s_registry s ∧ s_heap s' = s_heap s ∧
     s_out s' = snd (chan_send (Frame.rst i) (s_out s))) ∧
  (Role.owns (s_role s) i = false → ¬ full → is_Some (s_registry s !! i) →
     r = Err (Error.Protocol "duplicate stream id") ∧ s_registry s' = s_registry s ∧
     s_out s' = s_out s) ∧
  (Role.owns (s_role s) i = false → ¬ full → s_registry s !! i = None →
   rx_alive (s_accept s) = true →
     r = Ok () ∧ ∃ loc st, s_registry s' = <[i := loc]> (s_registry s) ∧
       queued (s_accept s') = queued (s_accept s) ++ [loc] ∧ s_heap s !! loc = None ∧
       s_heap s' !! loc = Some st ∧ RecvBuffer.contents (recv st) = p ∧ s_out s' = s_out s).
Proof.
  intros Hs Hi Hsyn full. cbn [dispatch]. unfold handle_data.
  rewrite (proj2 (Z.eqb_neq _ _) Hi), Hsyn.
  unfold handle_syn, mbind, SM_bind, sget, mret, SM_ret. cbn [fst snd].
  destruct (Role.owns (s_role s) i) eqn:Hown; cbn [fst snd]; [by split_and!|].
  pose proof (inv_limit s eq_refl Hs) as Hsz.
  destruct (s_peer_gone s) eqn:Hpg; cbn [fst snd].
  { split_and!; try done; intros _ Hf; exfalso; apply Hf; by left. }
  destruct (Z.leb_spec (Config.max_streams (s_config s)) (StreamRegistry.len (s_registry s))); cbn [fst snd].
  { split_and!; try done; intros _ Hf; exfalso; apply Hf; right; lia. }
  assert (¬ full) as Hnf by (intros [?|?]; [done|lia]).
  unfold reg_insert, StreamRegistry.insert, alloc_stream. cbn.
  destruct (s_registry s !! i) as [old|] eqn:Hreg; cbn [fst snd].
  { by split_and!. }
  rewrite !send_ok. cbn. destruct (rx_alive (s_accept s)) eqn:Hrx; cbn [fst snd negb].
  2: { cbn. by split_and!. }
  unfold StreamRegistry.get. cbn. rewrite lookup_insert_eq.
  set (s1 := set_accept _ _).
  pose proof (on_stream_deliver (length (s_heap s)) (new i Remote (s_config s)) fl p s1) as Hd.
  destruct (on_stream _ _ s1) as [r s']. cbn.
  destruct Hd as (-> & Hreg' & Hout & Hacc & st' & Hh & Hc & _);
    [by apply list_lookup_middle|by right|].
  split_and!; try done. intros _ _ _ _. split; [done|].
  exists (length (s_heap s)), st'. rewrite Hreg', Hacc, Hh, Hout. cbn. rewrite queued_send, Hrx.
  split_and!; try done.
  - by apply lookup_ge_None_2.
  - apply list_lookup_insert_eq. rewrite length_app. simpl. lia.
Qed.

(** Data for a stream that is not registered is answered by RST, so the
    peer learns that nobody is there, unless the frame itself carries ACK or RST,
    which would make two sessions reset each other for ever; id 0 is a protocol
    error.  Nothing else changes. *)
Lemma unknown_stream_contract i fl p (s : session) :
  contains fl Flags.SYN = false → s_registry s !! i = None →
  dispatch (Frame.Data i fl p) s =
    if i =? 0 then (Err (Error.Protocol "data on stream id 0"), s)
    else if contains fl Flags.ACK || contains fl Flags.RST then (Ok (), s)
    else (Ok (), set_out (snd (chan_send (Frame.rst i) (s_out s))) s).
Proof.
  intros Hsyn Hreg. cbn [dispatch]. unfold handle_data. destruct (i =? 0); [done|]. rewrite Hsyn.
  unfold mbind, SM_bind, sget, StreamRegistry.get. cbn. rewrite Hreg.
  by destruct (contains fl Flags.ACK), (contains fl Flags.RST).
Qed.

Lemma contains_empty fl : Flags.bits fl ≠ 0 → contains Flags.empty fl = false.
Proof. intros Hf. rewrite contains_spec. apply Z.eqb_neq. change (0 ≠ Flags.bits fl). congruence. Qed.

(** Data for a reset stream is refused; the stream queues nothing more. *)
Lemma deliver_refused p st (l : Links C) :
  p ≠ [] → StreamState.is_reset (state st) = true →
  fst (deliver_data Flags.empty p (st, l)) = Err (Error.Protocol "data after FIN") ∧
  out_ch (snd (snd (deliver_data Flags.empty p (st, l)))) = out_ch l.
Proof.
  intros Hp Hr. assert (can_recv st = false) as Hc by (unfold can_recv; rewrite Hr; apply andb_false_r).
  unfold deliver_data. rewrite bool_decide_eq_false_2 by done.
  rewrite !contains_empty by done. unfold mbind, M_bind, get, when. cbn [fst snd mret M_ret].
  rewrite Hc. cbn [negb fst snd mret M_ret]. split; [done|].
  unfold local_reset, mbind, M_bind, on_state, StreamState.mark_reset. cbn [fst snd].
  unfold StreamState.is_reset in Hr. by rewrite Hr.
Qed.

(** A reset stream takes the session down with it when the peer's data is
    still in flight: as long as the closer task has not removed the entry, one
    payload frame for the stream makes the reader answer with a protocol error,
    so the whole session closes with [ProtocolError] and every other stream is
    dropped from the registry. *)
Theorem reset_then_data_closes_session i loc st p (s : session) :
  s_is_closing s = false → i ≠ 0 → s_registry s !! i = Some loc →
  s_heap s !! loc = Some st → StreamState.is_reset (state st) = true → p ≠ [] →
  let '(go, s') := on_item (NextFrame (Frame.data i Flags.empty p)) s in
  go = false ∧ s_is_closing s' = true ∧ s_registry s' = ∅ ∧
  (rx_alive (s_out s) = true →
   queued (s_out s') = queued (s_out s) ++ [Frame.go_away ErrorCode.ProtocolError]).
Proof.
  intros Hcl Hi Hreg Hl Hreset Hp.
  destruct (deliver_refused p st (mkLinks (s_out s) (s_closer s) (s_woken s)) Hp Hreset) as [Hr Ho].
  cbn [on_item dispatch Frame.data]. unfold handle_data, mbind, SM_bind, sget, StreamRegistry.get.
  rewrite (proj2 (Z.eqb_neq _ _) Hi), contains_empty by done. cbn [fst snd mret SM_ret].
  rewrite Hreg. unfold on_stream. rewrite Hl.
  destruct (deliver_data Flags.empty p _) as [r [st' l']]. cbn in Hr, Ho. subst r. cbn [fst snd default close_code].
  set (s1 := set_heap _ _). destruct (shutdown_effects ErrorCode.ProtocolError s1 Hcl) as (H1 & H2 & H3).
  cbn. split_and!; try done. intros Hrx. rewrite H3; cbn; by rewrite Ho.
Qed.


End Dispatch.

(** ** Concrete runs *)

Section Witnesses.

#[local] Existing Instance documented_bitflags.

(** A SYN, a data frame, and bytes that are no frame. *)
Definition garbage : list byte :=
  snd (FrameCodec.encode_all (FrameCodec.new 4)
    [Frame.syn 1; Frame.data 1 Flags.empty (take 4 msg)] []) ++ replicate 12 Byte.xff.

Lemma reader_any_bytes_witness :
  let '((orx, rest), s') := Reader.run 0%nat (items_of (FrameCodec.new 4) garbage) server0 in
  orx = None ∧ s_is_closing s' = true.
Proof.
  pose proof (reader_any_bytes cfg8 Role.Server server0 [] 0%nat garbage cfg8_valid (rtc_refl _ _)) as H.
  cbn [Config.max_frame_size cfg8] in H.
  assert (fst (fst (Reader.run 0%nat (items_of (FrameCodec.new 4) garbage) server0)) = None) as E
    by (vm_compute; reflexivity).
  destruct (Reader.run 0%nat (items_of (FrameCodec.new 4) garbage) server0) as [[orx rest] s'].
  cbn in E. subst orx. destruct H as ([[_ H]|[[? [=]] _]] & _). by split.
Defined.

Definition stream1 : StreamInner (option Waker) :=
  default (new 0 Local cfg8) (s_heap server1 !! 0%nat).

Lemma data_reaches_stream_witness :
  fst (dispatch (Frame.Data 1 Flags.FIN msg) server1) = Ok ().
Proof.
  pose proof (data_reaches_stream 1 Flags.FIN msg 0%nat stream1 server1 ltac:(done)
    ltac:(vm_compute; reflexivity) ltac:(vm_compute; reflexivity) ltac:(vm_compute; reflexivity)
    ltac:(right; vm_compute; reflexivity)) as H.
  destruct (dispatch (Frame.Data 1 Flags.FIN msg) server1) as [r s']. apply H.
Defined.

Lemma server1_inv : session_inv server1.
Proof. apply (runs_inv cfg8 Role.Server server1 history1 cfg8_valid server1_runs). Qed.

Lemma peer_syn_contract_witness :
  ∃ loc, s_registry (snd (dispatch (Frame.Data 3 Flags.SYN msg) server1)) =
    <[3 := loc]> (s_registry server1).
Proof.
  pose proof (peer_syn_contract 3 Flags.SYN msg server1 server1_inv ltac:(done)
    ltac:(vm_compute; reflexivity)) as H. cbn zeta in H.
  destruct (dispatch (Frame.Data 3 Flags.SYN msg) server1) as [r s'].
  destruct H as (_ & _ & _ & H). destruct H as (_ & loc & st & Hreg & _).
  - reflexivity.
  - intros [E|E]; vm_compute in E; discriminate.
  - vm_compute. reflexivity.
  - vm_compute. reflexivity.
  - by exists loc.
Defined.

(** The user resets stream 1; the peer's data arrives before the closer runs. *)
Definition server2 : Session (option Waker) list_chan cell := handle (EUser (R := nat) 0 UReset) server1.
Definition stream2 : StreamInner (option Waker) :=
  default (new 0 Local cfg8) (s_heap server2 !! 0%nat).

Lemma reset_then_data_closes_session_witness :
  fst (on_item (NextFrame (Frame.data 1 Flags.empty msg)) server2) = false.
Proof.
  pose proof (reset_then_data_closes_session 1 0%nat stream2 msg server2
    ltac:(vm_compute; reflexivity) ltac:(done) ltac:(vm_compute; reflexivity)
    ltac:(vm_compute; reflexivity) ltac:(vm_compute; reflexivity) ltac:(done)) as H.
  destruct (on_item (NextFrame (Frame.data 1 Flags.empty msg)) server2) as [go s']. apply H.
Defined.

End Witnesses.
