(* ===== verification/Delivery.v ===== *)
(** * From the outbound queue to the wire

    The writer's loop and its final drain put the queued frames on the
    connection in order, and the peer's decoder gets them back. *)

From S2P Require Import Prelude Machine Errors Config Ids Frames Header Codec Crates Window.
From S2P Require Import StreamState RecvBuffer StreamInner StreamFacts StreamInv Session Reader Api.
From S2P Require Import Keepalive Writer SessionInv System.
From Stdlib Require Import ZArith Lia.

Local Open Scope Z_scope.

Section Delivery.
Context {BF : BitflagsOps}.
Context {W : Type} {AW : AtomicWakerOps W}.
Context {C : Type → Type} {CH : UnboundedChannelOps C}.
Context {X R : Type} {WO : WatchOps X R}.
Context {DO : DrainOrder}.
Context {K : Type} {FW : FramedWriteOps K}.

Abbreviation session := (Session W C X).

(** Successive turns of the writer's loop: the sink, and whether the loop is
    still running. *)
Fixpoint writer_turns (n : nat) (rx : R) (sink : K) (s : session) : option R * K * session :=
  match n with
  | O => (Some rx, sink, s)
  | S n' =>
    let '((orx, sink), s) := writer_turn rx sink s in
    match orx with
    | None => (None, sink, s)
    | Some rx => writer_turns n' rx sink s
    end
  end.

(** All that was fed to the sink. *)
Definition fed (k : K) : list byte := flushed k ++ unflushed k.

Lemma encode_wire_nil c f :
  FrameCodec.wf c → FrameCodec.sendable c f →
  FrameCodec.encode c f [] = (Ok (), FrameCodec.wire f).
Proof. intros. by rewrite FrameCodec.encode_sendable. Qed.

(** [try_recv] on a queue with a head. *)
Lemma recv_out_cons f fs (s : session) :
  queued (s_out s) = f :: fs →
  fst (recv_out s) = Some f ∧ queued (s_out (snd (recv_out s))) = fs.
Proof. intros Hq. cbn. by rewrite try_recv_head, queued_try_recv, Hq. Qed.

(** Whatever the connection does, the drain never puts anything on the wire but
    a prefix of the queue, in order. *)
Lemma feed_all_prefix n (k : K) (s : session) :
  FrameCodec.wf (fw_codec k) → Forall (FrameCodec.sendable (fw_codec k)) (queued (s_out s)) →
  let '((ok, k'), s') := feed_all n k s in
  fw_codec k' = fw_codec k ∧
  if ok : bool then ∃ done, queued (s_out s) = done ++ queued (s_out s') ∧
    fed k' = fed k ++ FrameCodec.wire_all done ∧ (length done = n ∨ queued (s_out s') = [])
  else flushed k' `prefix_of` fed k ++ FrameCodec.wire_all (queued (s_out s)).
Proof.
  revert k s. induction n as [|n IH]; intros k s Hc Hq.
  { cbn. split; [done|]. exists [].
    change (FrameCodec.wire_all []) with (@nil byte). rewrite app_nil_r. split_and!; [done|done|]. by left. }
  cbn [feed_all]. unfold mbind, SM_bind. destruct (queued (s_out s)) as [|f fs] eqn:Hs.
  { cbn. rewrite try_recv_head, Hs. cbn. split; [done|]. exists [].
    change (FrameCodec.wire_all []) with (@nil byte). rewrite app_nil_r, queued_try_recv, Hs. cbn. by split_and!; [..|right]. }
  destruct (recv_out_cons f fs s Hs) as [-> Hq1]. apply Forall_cons_1 in Hq as [Hf Hfs].
  destruct (fw_feed f k) as [r k1] eqn:Ef.
  pose proof (fw_feed_codec f k) as Hcod. rewrite Ef in Hcod. cbn in Hcod.
  destruct r as [[]|e].
  - pose proof (fw_feed_ok f k) as Hok. rewrite Ef, encode_wire_nil in Hok by done.
    specialize (Hok eq_refl). cbn in Hok.
    rewrite <- Hcod in Hc, Hfs. rewrite <- Hq1 in Hfs. specialize (IH k1 (snd (recv_out s)) Hc Hfs).
    destruct (feed_all n k1 (snd (recv_out s))) as [[ok k'] s']. destruct IH as [E IH].
    assert (fed k1 = fed k ++ FrameCodec.wire f) as Hfed by (unfold fed; by rewrite Hok, app_assoc).
    split; [congruence|]. rewrite Hfed, Hq1 in IH. destruct ok.
    + destruct IH as (done & Hd & Hfd & Hlen). exists (f :: done). rewrite Hd.
      split_and!; [done|by rewrite Hfd, FrameCodec.wire_all_cons, app_assoc|].
      destruct Hlen as [<-|]; [by left|by right].
    + by rewrite FrameCodec.wire_all_cons, app_assoc.
  - pose proof (fw_feed_err f k) as Her. rewrite Ef in Her. specialize (Her eq_refl). cbn.
    split; [done|]. by apply prefix_app_r.
Qed.

(** Whatever the connection does, what the final drain of the writer puts on
    the wire is a prefix of the encodings of the queued frames, in queue order,
    behind what was fed before; frames are never reordered, duplicated or
    corrupted, and only a tail can be lost. *)
Theorem drain_wire_prefix (k : K) (s : session) :
  FrameCodec.wf (fw_codec k) → Forall (FrameCodec.sendable (fw_codec k)) (queued (s_out s)) →
  flushed (fst (drain k s)) `prefix_of` fed k ++ FrameCodec.wire_all (queued (s_out s)).
Proof.
  intros Hc Hq. unfold drain, mbind, SM_bind, sget. cbn [fst snd].
  pose proof (feed_all_prefix (length (queued (s_out s))) k s Hc Hq) as Hp.
  destruct (feed_all _ k s) as [[[] k'] s']; cbn in *; destruct Hp as [_ Hp]; [|done].
  destruct Hp as (done & Hd & Hf & _). rewrite Hd, FrameCodec.wire_all_app, app_assoc, <- Hf.
  apply prefix_app_r. destruct (fw_flush k') as [[[]|e] k2] eqn:E.
  - pose proof (fw_flush_ok k') as Hok. rewrite E in Hok. destruct (Hok eq_refl) as [-> _]. done.
  - pose proof (fw_flush_err k') as Her. rewrite E in Her. by apply Her.
Qed.

(** ** A connection that is up *)

Section Up.
(** The connection accepts what it is given. *)
Variable up : K → Prop.
Hypothesis up_feed : ∀ f k, up k → FrameCodec.sendable (fw_codec k) f →
  fst (fw_feed f k) = Ok () ∧ up (snd (fw_feed f k)).
Hypothesis up_flush : ∀ k, up k → fst (fw_flush k) = Ok () ∧ up (snd (fw_flush k)).

Lemma feed_all_up n (k : K) (s : session) :
  FrameCodec.wf (fw_codec k) → Forall (FrameCodec.sendable (fw_codec k)) (queued (s_out s)) → up k →
  fst (fst (feed_all n k s)) = true ∧ up (snd (fst (feed_all n k s))).
Proof.
  revert k s. induction n as [|n IH]; intros k s Hc Hq Hk; [done|].
  cbn [feed_all]. unfold mbind, SM_bind. destruct (queued (s_out s)) as [|f fs] eqn:Hs.
  { cbn. by rewrite try_recv_head, Hs. }
  destruct (recv_out_cons f fs s Hs) as [-> Hq1]. apply Forall_cons_1 in Hq as [Hf Hfs].
  destruct (up_feed f k Hk Hf) as [Hok Hk1]. pose proof (fw_feed_codec f k) as Hcod.
  destruct (fw_feed f k) as [r k1]. cbn [fst snd] in *. subst r.
  apply IH; [by rewrite Hcod| |done]. by rewrite Hcod, Hq1.
Qed.

Lemma drain_up (k : K) (s : session) :
  FrameCodec.wf (fw_codec k) → Forall (FrameCodec.sendable (fw_codec k)) (queued (s_out s)) → up k →
  flushed (fst (drain k s)) = fed k ++ FrameCodec.wire_all (queued (s_out s)).
Proof.
  intros Hc Hq Hk. unfold drain, mbind, SM_bind, sget. cbn [fst snd].
  pose proof (feed_all_prefix (length (queued (s_out s))) k s Hc Hq) as Hp.
  destruct (feed_all_up (length (queued (s_out s))) k s Hc Hq Hk) as [Hok Hk'].
  destruct (feed_all _ k s) as [[ok k'] s']. cbn in *. subst ok. destruct Hp as (_ & done & Hd & Hf & Hlen).
  destruct (up_flush k' Hk') as [Hfl _]. destruct (fw_flush_ok k' Hfl) as [-> _].
  fold (fed k'). rewrite Hf. do 2 f_equal. rewrite Hd.
  enough (queued (s_out s') = []) as -> by (by rewrite app_nil_r).
  destruct Hlen as [Hlen|?]; [|done]. apply (f_equal length) in Hd. rewrite length_app in Hd.
  destruct (queued (s_out s')); [done|]. simpl in Hd. lia.
Qed.

Lemma write_one_up f (k : K) :
  FrameCodec.wf (fw_codec k) → FrameCodec.sendable (fw_codec k) f → up k →
  ∃ k', write_one f k = (Ok (), k') ∧ up k' ∧ fw_codec k' = fw_codec k ∧
    flushed k' = fed k ++ FrameCodec.wire f ∧ unflushed k' = [].
Proof.
  intros Hc Hf Hk. unfold write_one. destruct (up_feed f k Hk Hf) as [Hok Hk1].
  pose proof (fw_feed_codec f k) as Hcod. pose proof (fw_feed_ok f k Hok) as Hfed.
  rewrite encode_wire_nil in Hfed by done. destruct (fw_feed f k) as [r k1]. cbn in *. subst r.
  destruct (up_flush k1 Hk1) as [Hok2 Hk2]. destruct (fw_flush_ok k1 Hok2) as [Hfl Hun].
  pose proof (fw_flush_codec k1) as Hcod2. destruct (fw_flush k1) as [r k2]. cbn in *. subst r.
  exists k2. split_and!; [done|done|congruence| |done]. unfold fed. by rewrite Hfl, Hfed, app_assoc.
Qed.

(** One turn with a frame in the queue and no shutdown. *)
Lemma writer_turn_up rx (k : K) (s : session) f fs :
  FrameCodec.wf (fw_codec k) → FrameCodec.sendable (fw_codec k) f → up k →
  seen rx = version (s_shutdown s) → queued (s_out s) = f :: fs →
  ∃ k' s', writer_turn rx k s = ((Some rx, k'), s') ∧ up k' ∧ fw_codec k' = fw_codec k ∧
    flushed k' = fed k ++ FrameCodec.wire f ∧ unflushed k' = [] ∧
    queued (s_out s') = fs ∧ s_shutdown s' = s_shutdown s.
Proof.
  intros Hc Hf Hk Hseen Hq. destruct (write_one_up f k Hc Hf Hk) as (k' & Ew & Hk').
  destruct (recv_out_cons f fs s Hq) as [Hr Hq1]. exists k', (snd (recv_out s)).
  split_and!; try apply Hk'; [|done|done].
  unfold writer_turn, mbind, SM_bind, sget. cbn [fst snd].
  rewrite (proj2 (changed_pending _ _) Hseen). unfold write_next, mbind, SM_bind. by rewrite Hr, Ew.
Qed.

(** The running writer is a FIFO onto the wire: on a connection that is up,
    and while no shutdown is signalled, one turn per queued frame empties the
    queue and puts exactly the encodings of the frames on the wire, in order,
    flushed after each frame. *)
Theorem writer_flushes_in_order rx (k : K) (s : session) :
  FrameCodec.wf (fw_codec k) → Forall (FrameCodec.sendable (fw_codec k)) (queued (s_out s)) → up k →
  unflushed k = [] → seen rx = version (s_shutdown s) →
  ∃ k' s', writer_turns (length (queued (s_out s))) rx k s = (Some rx, k', s') ∧
    flushed k' = flushed k ++ FrameCodec.wire_all (queued (s_out s)) ∧ unflushed k' = [] ∧
    queued (s_out s') = [].
Proof.
  intros Hc Hq Hk Hun Hseen. remember (queued (s_out s)) as fs eqn:Hfs. symmetry in Hfs.
  revert k s Hc Hq Hk Hun Hseen Hfs. induction fs as [|f fs IH]; intros k s Hc Hq Hk Hun Hseen Hfs.
  { exists k, s. change (FrameCodec.wire_all []) with (@nil byte). by rewrite app_nil_r. }
  apply Forall_cons_1 in Hq as [Hf Hq].
  destruct (writer_turn_up rx k s f fs Hc Hf Hk Hseen Hfs)
    as (k1 & s1 & Et & Hk1 & Hcod & Hfl & Hun1 & Hq1 & Hsd).
  destruct (IH k1 s1) as (k' & s' & E & Hfl' & ?); try done; try (by rewrite ?Hcod, ?Hsd).
  exists k', s'. cbn [length writer_turns]. rewrite Et. split_and!; try done; try tauto.
  rewrite Hfl', Hfl, FrameCodec.wire_all_cons. unfold fed. by rewrite Hun, app_nil_r, app_assoc.
Qed.

(** C23: A graceful shutdown loses nothing.  Start to close a session whose
    [max_frame_size] is at most 16 MiB and whose connection takes what it is given:
    the writer's drain puts every frame queued so far and then the GoAway on the wire,
    and a decoder with the limit of the sender, fed those bytes in one piece, returns
    exactly these frames in this order, the GoAway last, with no error and no byte
    left over. *)
Theorem shutdown_delivers_queue config role s h code (k : K) :
  Config.valid config → Config.max_frame_size config ≤ ABSOLUTE_MAX_PAYLOAD →
  runs config role s h → ErrorCode.wf code →
  s_is_closing s = false → rx_alive (s_out s) = true →
  up k → fw_codec k = FrameCodec.new (Config.max_frame_size config) → unflushed k = [] →
  let s' := snd (initiate_shutdown code s) in
  let frames := queued (s_out s) ++ [Frame.go_away code] in
  ∃ bytes, flushed (fst (drain k s')) = flushed k ++ bytes ∧
    FrameCodec.decode_all (fw_codec k) bytes = (Frame.normalize <$> frames, None, []).
Proof.
  intros Hv Hmax Hr Hcode Hcl Hrx Hk Hcod Hun s' frames.
  destruct (runs_inv config role s h Hv Hr) as (Hs & Hc & _).
  destruct (shutdown_effects code s Hcl) as (_ & _ & Hq). specialize (Hq Hrx). fold s' frames in Hq.
  destruct (initiate_shutdown_ok code Hcode s Hs) as [Hs' (Hc' & _)]. fold s' in Hs', Hc'.
  destruct Hv as (_ & _ & Hm & _).
  assert (FrameCodec.wf (fw_codec k)) as Hwf by (rewrite Hcod; apply FrameCodec.new_wf; lia).
  assert (Forall (FrameCodec.sendable (fw_codec k)) frames) as Hsend.
  { pose proof (inv_out s' Hs') as Ho. rewrite Hq, Hc', Hc in Ho.
    eapply Forall_impl; [|exact Ho]. intros f [Hw Hl]. split; [done|]. rewrite Hcod. cbn. lia. }
  exists (FrameCodec.wire_all frames). split.
  - rewrite drain_up by (by rewrite ?Hq). unfold fed. by rewrite Hun, app_nil_r, Hq.
  - rewrite <- (app_nil_r (FrameCodec.wire_all frames)).
    rewrite FrameCodec.decode_all_frames by (done || apply FrameCodec.decode_nil). done.
Qed.

End Up.
End Delivery.

(** ** Concrete runs *)

Section Witnesses.

#[local] Existing Instance documented_bitflags.

Definition sink4 : mem_sink := fw_new (FrameCodec.new 4).

(** The in-memory connection is up as long as its budget is not limited. *)
Definition mem_up (k : mem_sink) : Prop := ms_budget k = None.

Lemma mem_up_feed f k :
  mem_up k → FrameCodec.sendable (fw_codec k) f →
  fst (fw_feed f k) = Ok () ∧ mem_up (snd (fw_feed f k)).
Proof.
  unfold mem_up. intros Hk [_ Hl]. cbn in *. unfold mem_feed.
  destruct (FrameCodec.encode (ms_codec k) f []) as [[[]|e] bs] eqn:E; [done|].
  exfalso. revert E. unfold FrameCodec.encode, FrameCodec.frame_parts. destruct f; try done.
  cbn in Hl. destruct (Z.ltb_spec (FrameCodec.max_payload (ms_codec k)) (Z.of_nat (length payload))); [lia|done].
Qed.

Lemma mem_up_flush k : mem_up k → fst (fw_flush k) = Ok () ∧ mem_up (snd (fw_flush k)).
Proof. unfold mem_up. intros Hk. cbn. unfold mem_flush. by rewrite Hk. Qed.

Lemma queue1_sendable : Forall (FrameCodec.sendable (fw_codec sink4)) (queued (s_out server1)).
Proof.
  assert (queued (s_out server1) = history1) as -> by (vm_compute; reflexivity).
  assert (history1 = [Frame.ack 1; Frame.data 1 Flags.empty (take 4 msg); Frame.window_update 1 6]) as ->
    by (vm_compute; reflexivity).
  repeat constructor; concrete.
Qed.

(** A connection that fails at the first flush. *)
Definition sink_down : mem_sink := mk_mem (FrameCodec.new 4) [] [] (Some 0%nat).

Lemma drain_wire_prefix_witness :
  flushed (fst (drain sink_down server1)) `prefix_of`
    fed sink_down ++ FrameCodec.wire_all (queued (s_out server1)).
Proof. apply (drain_wire_prefix sink_down server1); [concrete|apply queue1_sendable]. Defined.

Lemma writer_flushes_in_order_witness :
  ∃ k' s', writer_turns (length (queued (s_out server1))) 0%nat sink4 server1 = (Some 0%nat, k', s') ∧
    flushed k' = flushed sink4 ++ FrameCodec.wire_all (queued (s_out server1)).
Proof.
  destruct (writer_flushes_in_order mem_up mem_up_feed mem_up_flush 0%nat sink4 server1)
    as (k' & s' & E & Hf & _); [concrete|apply queue1_sendable|done|done|vm_compute; reflexivity|].
  exists k', s'. split; [exact E|exact Hf].
Defined.

Lemma shutdown_delivers_queue_witness :
  ∃ bytes, flushed (fst (drain sink4 (snd (initiate_shutdown ErrorCode.Normal server1)))) =
      flushed sink4 ++ bytes ∧
    FrameCodec.decode_all (fw_codec sink4) bytes =
      (Frame.normalize <$> (queued (s_out server1) ++ [Frame.go_away ErrorCode.Normal]), None, []).
Proof.
  apply (shutdown_delivers_queue mem_up mem_up_feed mem_up_flush cfg8 Role.Server server1 history1
    ErrorCode.Normal sink4 cfg8_valid);
    [concrete|apply server1_runs|concrete|vm_compute; reflexivity|vm_compute; reflexivity|done|done|done].
Defined.

End Witnesses.
