(* ===== verification/Liveness.v ===== *)
(** * Keepalive, end to end ([src/session/keepalive.rs], [src/session/reader.rs])

    A ping travels to the peer's reader, its pong to ours, and back to the
    keepalive task; a silent peer closes the session. *)

From S2P Require Import Prelude Machine Errors Config Ids Frames Header Codec Crates Window.
From S2P Require Import StreamState RecvBuffer StreamInner StreamFacts StreamInv Session Reader Api.
From S2P Require Import Keepalive SessionInv System.
From Stdlib Require Import ZArith Lia.

Local Open Scope Z_scope.

(** The nonce of the [m]-th ping. *)
Fixpoint nonce_after (m : nat) : Z :=
  match m with O => 0 | S m' => wrapping_add_u32 (nonce_after m') 1 end.

Lemma nonce_after_mod m : nonce_after m = Z.of_nat m mod (U32_MAX + 1).
Proof.
  induction m as [|m IH]; [done|]. cbn [nonce_after]. unfold wrapping_add_u32.
  rewrite IH, Nat2Z.inj_succ, <- Z.add_1_r. by rewrite Zplus_mod_idemp_l.
Qed.

Lemma nonce_after_inj m n :
  (m ≤ n)%nat → Z.of_nat n - Z.of_nat m ≤ U32_MAX → nonce_after m = nonce_after n → m = n.
Proof.
  intros Hle Hd. rewrite !nonce_after_mod. intros E.
  assert ((Z.of_nat n - Z.of_nat m) mod (U32_MAX + 1) = 0) as Hz
    by (rewrite Zminus_mod, <- E, Z.sub_diag; done).
  rewrite Z.mod_small in Hz by lia. lia.
Qed.

Lemma await_pong_found expected stale rest closed :
  is_Some (await_pong expected (stale ++ expected :: rest) closed).
Proof.
  induction stale as [|x stale IH]; cbn; [by rewrite Z.eqb_refl|]. destruct (x =? expected); [done|apply IH].
Qed.

Lemma await_pong_missing expected pongs :
  expected ∉ pongs → await_pong expected pongs false = None.
Proof.
  induction pongs as [|x pongs IH]; intros Hn; [done|]. cbn. apply not_elem_of_cons in Hn as [Hx Hn].
  destruct (Z.eqb_spec x expected); [congruence|auto].
Qed.

Section Liveness.
Context {BF : BitflagsOps}.
Context {W : Type} {AW : AtomicWakerOps W}.
Context {C : Type → Type} {CH : UnboundedChannelOps C}.
Context {X R : Type} {WO : WatchOps X R}.
Context {DO : DrainOrder}.

Abbreviation session := (Session W C X).

(** A keepalive round trip succeeds.  The tick queues a ping with the next
    nonce; the peer's reader answers with a pong of the same nonce and does
    nothing else; our reader hands that nonce to the keepalive task; and the
    task, finding it among the pongs that arrive in time, goes on without
    touching the session, however many stale or foreign pongs come before. *)
Theorem keepalive_roundtrip (k : ka (R := R)) (s peer : session) :
  rx_alive (s_out s) = true → rx_alive (s_out peer) = true → rx_alive (s_pong s) = true →
  let n := wrapping_add_u32 (nonce k) 1 in
  ∃ k' s1, ping k s = (Some k', s1) ∧ nonce k' = n ∧
    queued (s_out s1) = queued (s_out s) ++ [Frame.ping n] ∧
    (let '(r, peer') := dispatch (Frame.ping n) peer in
     r = Ok () ∧ queued (s_out peer') = queued (s_out peer) ++ [Frame.pong n] ∧
     s_heap peer' = s_heap peer ∧ s_registry peer' = s_registry peer) ∧
    (let '(r, s2) := dispatch (Frame.pong n) s1 in
     r = Ok () ∧ queued (s_pong s2) = queued (s_pong s) ++ [n] ∧ s_out s2 = s_out s1) ∧
    ∀ stale rest closed, settle k' (stale ++ n :: rest) closed s1 = (Some k', s1).
Proof.
  intros Ho Hp Hg n. exists (mk_ka (ka_rx k) n), (snd (s_send (Frame.ping n) s)).
  split_and!.
  - unfold ping, mbind, SM_bind. cbn. by rewrite send_ok, Ho.
  - done.
  - cbn. by rewrite queued_send, Ho.
  - unfold dispatch, Frame.ping. assert (contains Flags.empty Flags.ACK = false) as -> by (by rewrite contains_spec).
    unfold mbind, SM_bind. cbn. by rewrite queued_send, Hp.
  - unfold dispatch, Frame.pong. assert (contains Flags.ACK Flags.ACK = true) as -> by (by rewrite contains_spec).
    unfold mbind, SM_bind. cbn. by rewrite queued_send, Hg.
  - intros stale rest closed. unfold settle. cbn [nonce].
    by destruct (await_pong_found n stale rest closed) as [x ->].
Qed.

(** C38: A silent peer is detected.  When none of the pongs that arrive before the
    deadline carries the awaited nonce, whatever nonces they carry instead, the
    session closes with a GoAway of code [Timeout] and an empty registry.  The
    pong of any of the [2^32 - 1] pings before the awaited one carries another
    nonce, so a late pong of one of those does not keep the session open. *)
Theorem keepalive_timeout_closes (k : ka (R := R)) pongs (s : session) m :
  nonce k = nonce_after m → s_is_closing s = false → rx_alive (s_out s) = true →
  (nonce k ∉ pongs →
   let '(r, late) := settle k pongs false s in
   r = None ∧ s_is_closing late = true ∧ s_registry late = ∅ ∧
   queued (s_out late) = queued (s_out s) ++ [Frame.go_away ErrorCode.Timeout]) ∧
  (∀ j, (j < m)%nat → Z.of_nat m - Z.of_nat j ≤ U32_MAX → nonce_after j ≠ nonce k).
Proof.
  intros Hn Hcl Hrx. split.
  - intros Hp. unfold settle. rewrite await_pong_missing by done. unfold mbind, SM_bind. cbn.
    destruct (shutdown_effects ErrorCode.Timeout s Hcl) as (? & ? & Hq). split_and!; auto.
  - intros j Hj Hd E. rewrite Hn in E. apply nonce_after_inj in E; lia.
Qed.

End Liveness.

(** ** Concrete runs *)

Section Witnesses.

#[local] Existing Instance documented_bitflags.

Definition ka7 : ka (R := nat) := mk_ka 0%nat (nonce_after 7).

Definition cfg_ka : Config.t := Config.mk 8 4 16 (Some 1) 1 1.
Definition client_ka : Session (option Waker) list_chan cell := start cfg_ka Role.Client.

Lemma keepalive_roundtrip_witness :
  ∃ k' s1, ping ka7 client_ka = (Some k', s1) ∧ nonce k' = 8 ∧
    settle k' [3; 7; 8] false s1 = (Some k', s1).
Proof.
  destruct (keepalive_roundtrip ka7 client_ka server0) as (k' & s1 & E & Hn & _ & _ & _ & H);
    [vm_compute; reflexivity..|].
  exists k', s1. split_and!; [exact E|rewrite Hn; vm_compute; reflexivity|]. exact (H [3; 7] [] false).
Defined.

(** Late pongs of the pings three and six, and one with a nonce never sent. *)
Lemma ka7_nonce : nonce ka7 = 7.
Proof. vm_compute. reflexivity. Qed.

Lemma ka7_silent : nonce ka7 ∉ [3; 6; 99].
Proof. rewrite ka7_nonce. set_solver. Qed.

Lemma ka7_open : s_is_closing client_ka = false ∧ rx_alive (s_out client_ka) = true.
Proof. vm_compute. split; reflexivity. Qed.

Lemma keepalive_timeout_closes_witness :
  fst (settle ka7 [3; 6; 99] false client_ka) = None ∧ nonce_after 6 ≠ nonce ka7.
Proof.
  destruct (keepalive_timeout_closes ka7 [3; 6; 99] client_ka 7 eq_refl (proj1 ka7_open) (proj2 ka7_open)) as [H1 H2].
  specialize (H1 ka7_silent). destruct (settle ka7 [3; 6; 99] false client_ka) as [r late].
  split; [exact (proj1 H1)|]. apply H2; [lia|unfold U32_MAX; lia].
Defined.

End Witnesses.
