(* ===== verification/Handshake.v ===== *)
(** * Opening and accepting ([src/session/mod.rs])

    How [open] resolves, what [accept] returns, and how both end when the
    session shuts down. *)

From S2P Require Import Prelude Machine Errors Config Ids Frames Header Codec Crates Window.
From S2P Require Import StreamState RecvBuffer StreamInner StreamFacts StreamInv Session Reader Api.
From S2P Require Import Keepalive SessionInv System Dispatch.
From Stdlib Require Import ZArith Lia.

Local Open Scope Z_scope.

Section Handshake.
Context {BF : BitflagsOps}.
Context {W : Type} {AW : AtomicWakerOps W}.
Context {C : Type → Type} {CH : UnboundedChannelOps C}.
Context {X R : Type} {WO : WatchOps X R}.
Context {DO : DrainOrder}.

Abbreviation session := (Session W C X).








Lemma force_close_all_accept locs (s : session) :
  s_accept (snd (force_close_all locs s)) = s_accept s.
Proof.
  revert s. induction locs as [|l locs IH]; intros s; [done|]. cbn [force_close_all].
  unfold mbind, SM_bind. rewrite IH. unfold on_stream. destruct (s_heap s !! l); [|done].
  by destruct (snd (force_close _)).
Qed.

(** The shutdown is signalled on the watch. *)
Lemma shutdown_signals code (s : session) :
  s_is_closing s = false → receivers (s_shutdown s) ≠ 0%nat →
  version (s_shutdown (snd (initiate_shutdown code s))) = S (version (s_shutdown s)).
Proof.
  intros Hcl Hrx. rewrite initiate_shutdown_unfold by done.
  destruct (force_close_all_spec (snd <$> drain_order (s_registry s)) (shutdown_prefix code s))
    as (_ & _ & _ & _ & _ & Hsd). cbn. rewrite Hsd. cbn. by apply send_spec.
Qed.

(** [accept], once subscribed, on every branch: a shutdown signalled since
    the subscription makes it return [SessionClosed]; otherwise it takes the
    oldest stream the peer opened, queues its ACK and returns it, or waits when
    there is none; if the writer is gone it fails. *)
Lemma accept_poll_contract rx (s : session) :
  session_inv s →
  let '(r, s') := accept_poll rx s in
  (seen rx ≠ version (s_shutdown s) → r = Some (Err Error.SessionClosed) ∧ s' = s) ∧
  (seen rx = version (s_shutdown s) → queued (s_accept s) = [] → r = None) ∧
  (∀ loc rest, seen rx = version (s_shutdown s) → queued (s_accept s) = loc :: rest →
     ∃ st, s_heap s !! loc = Some st ∧ queued (s_accept s') = rest ∧
       Role.owns (s_role s) (id st) = false ∧
       if rx_alive (s_out s)
       then r = Some (Ok loc) ∧ queued (s_out s') = queued (s_out s) ++ [Frame.ack (id st)]
       else r = Some (Err Error.SessionClosed)).
Proof.
  intros Hs. unfold accept_poll, mbind, SM_bind, sget. cbn [fst snd].
  destruct (watch_changed rx (s_shutdown s)) as [rx'|] eqn:Hch.
  { assert (seen rx ≠ version (s_shutdown s)) as Hne
      by (intros E; apply changed_pending in E; congruence). cbn. by split_and!. }
  apply changed_pending in Hch. cbn. rewrite try_recv_head.
  destruct (queued (s_accept s)) as [|loc rest] eqn:Hq; cbn [head].
  { cbn. by split_and!. }
  pose proof (inv_accept s Hs) as Ha. rewrite Hq in Ha. apply Forall_cons_1 in Ha as [(st & Hl & Ho) _].
  cbn. rewrite Hl. cbn. rewrite !send_ok.
  destruct (rx_alive (s_out s)) eqn:Hrx; cbn; (split_and!; [done|done|]);
    intros loc' rest' _ [= <- <-]; exists st; rewrite queued_try_recv, Hq; cbn; split_and!; try done.
  by rewrite queued_send, Hrx.
Qed.

(** A shutdown that starts after [accept] has subscribed unblocks it: the
    next poll returns [SessionClosed], whatever happened in between that did not
    signal the watch. *)
Theorem accept_sees_shutdown (s s1 s2 : session) rx code :
  accept_start s = (Ok rx, s1) →
  version (s_shutdown s2) = version (s_shutdown s1) → receivers (s_shutdown s2) ≠ 0%nat →
  s_is_closing s2 = false →
  fst (accept_poll rx (snd (initiate_shutdown code s2))) = Some (Err Error.SessionClosed).
Proof.
  unfold accept_start, mbind, SM_bind, sget. cbn [fst snd]. destruct (is_closed s); [done|].
  cbn. intros [= <- <-] Hv Hrx Hcl. cbn in Hv.
  destruct (subscribe_spec (s_shutdown s)) as (Hseen & Hver & _).
  pose proof (shutdown_signals code s2 Hcl Hrx) as Hsig.
  unfold accept_poll, mbind, SM_bind, sget. cbn [fst snd].
  destruct (watch_changed _ _) eqn:Hch; [done|]. apply changed_pending in Hch. lia.
Qed.

(** A shutdown that falls between the closed check of [accept] and its
    subscription is missed.  The check passes; the session then shuts down
    completely; the subscription marks the signal as seen, so with no stream
    queued the poll waits although the session is closed, and no later shutdown
    call will ever signal the watch again. *)
Theorem accept_misses_shutdown (s : session) code code' :
  is_closed s = false → queued (s_accept s) = [] →
  let s1 := snd (initiate_shutdown code s) in
  let '(rx, s2) := shutdown_rx s1 in
  is_closed s2 = true ∧ fst (accept_poll rx s2) = None ∧ snd (initiate_shutdown code' s2) = s2.
Proof.
  intros Hcl Hq s1. destruct (shutdown_effects code s Hcl) as (Hc1 & _). fold s1 in Hc1.
  assert (s_accept s1 = s_accept s) as Hq1.
  { unfold s1. rewrite initiate_shutdown_unfold by done. cbn. by rewrite force_close_all_accept. }
  cbn. split_and!; [done| |by apply initiate_shutdown_again].
  destruct (subscribe_spec (s_shutdown s1)) as (Hseen & Hver & _).
  unfold accept_poll, mbind, SM_bind, sget. cbn [fst snd s_shutdown set_shutdown].
  rewrite (proj2 (changed_pending _ _)) by congruence. cbn. by rewrite try_recv_head, Hq1, Hq.
Qed.

End Handshake.

(** ** Concrete runs *)

Section Witnesses.

#[local] Existing Instance documented_bitflags.



(** A server with a stream waiting to be accepted. *)
Definition server_syn : Session (option Waker) list_chan cell :=
  handle (R := nat) (EItem (NextFrame (Frame.syn 1))) server0.

Lemma server_syn_inv : session_inv server_syn.
Proof. apply handle_ok; [concrete|]. apply start_spec, cfg8_valid. Qed.

Lemma accept_poll_contract_witness :
  fst (accept_poll 0%nat server_syn) = Some (Ok 0%nat).
Proof.
  pose proof (accept_poll_contract 0%nat server_syn server_syn_inv) as H.
  destruct (accept_poll 0%nat server_syn) as [r s'] eqn:E. destruct H as (_ & _ & H).
  destruct (H 0%nat [] eq_refl ltac:(vm_compute; reflexivity)) as (st & _ & _ & _ & Hr).
  vm_compute in Hr. apply Hr.
Defined.

Lemma accept_sees_shutdown_witness :
  fst (accept_poll (fst (watch_subscribe (s_shutdown server0)))
    (snd (initiate_shutdown ErrorCode.Normal (snd (accept_start server0))))) =
    Some (Err Error.SessionClosed).
Proof.
  apply (accept_sees_shutdown server0 (snd (accept_start server0)) (snd (accept_start server0))
    (fst (watch_subscribe (s_shutdown server0))) ErrorCode.Normal); vm_compute; congruence.
Defined.

Lemma accept_misses_shutdown_witness :
  let s1 := snd (initiate_shutdown ErrorCode.Normal server0) in
  let '(rx, s2) := shutdown_rx s1 in is_closed s2 = true ∧ fst (accept_poll rx s2) = None.
Proof.
  pose proof (accept_misses_shutdown server0 ErrorCode.Normal ErrorCode.Timeout
    ltac:(vm_compute; reflexivity) ltac:(vm_compute; reflexivity)) as H.
  cbn zeta in *. destruct (shutdown_rx _) as [rx s2]. destruct H as (? & ? & _). by split.
Defined.

End Witnesses.
