(* ===== verification/Tasks.v ===== *)
(** * The tasks of a session and [close] ([src/session/])

    The session together with what its tasks are doing: where each loop is, the
    receiver of the shutdown watch it holds, the calls of [open] and [accept] and
    the calls of [close] that join.  A move runs one task to its next await or
    runs one call of a user; [open] moves access by access, and [accept] may be
    held up between its closed check and its subscription.  Timers and the
    connection are outcomes that may come at any time; a connection may stall,
    and then holds up the writer.  A task that returns drops its receivers. *)

From S2P Require Import Prelude Machine Errors Config Ids Frames Header Codec Crates Window.
From S2P Require Import StreamState RecvBuffer StreamInner StreamFacts StreamInv Session Reader Api.
From S2P Require Import Keepalive Writer SessionInv System SessionConc Overlap Dispatch.
From Stdlib Require Import ZArith Lia.

Local Open Scope Z_scope.

#[global] Instance Task_eq_dec : EqDecision Task.
Proof. solve_decision. Defined.

Lemma Forall_submset {A} (P : A → Prop) (l k : list A) : l ⊆+ k → Forall P k → Forall P l.
Proof. rewrite !list.Forall_forall. intros Hs Hk x Hx. by eapply Hk, elem_of_submseteq. Qed.

Section Tasks.
Context {BF : BitflagsOps}.
Context {W : Type} {AW : AtomicWakerOps W}.
Context {C : Type → Type} {CH : UnboundedChannelOps C}.
Context {X R : Type} {WO : WatchOps X R}.
Context {DO : DrainOrder}.
Context {K : Type} {FW : FramedWriteOps K}.

Abbreviation session := (Session W C X).
Abbreviation SM := (SM (W := W) (C := C) (X := X)).

(** ** Where a task is *)

(** [writer::run]: in its [select!], in [write_one], in [drain], before the
    connection's [shutdown], returned. *)
Inductive wtask : Type :=
| WIdle (rx : R) (sink : K)
| WWrite (rx : R) (frame : Frame.t) (sink : K)
| WDrain (rx : R) (sink : K)
| WShut (rx : R) (sink : K)
| WExit (sink : K).

(** [keepalive::run]: in its [select!], in [await_pong], returned. *)
Inductive ktask : Type :=
| KIdle (k : ka (R := R))
| KWait (k : ka (R := R))
| KExit.

(** A call of [Session::close]: waiting for the lock on the tasks, or holding
    it with the tasks left to join. *)
Inductive cpc : Type :=
| CLock
| CJoin (ts : list Task).

Record node : Type := mkNode {
  n_s : session;
  n_stalled : bool;                       (* the connection takes nothing *)
  n_writer : wtask;
  n_reader : option R;                    (* [None]: returned *)
  n_closer : option R;
  n_ka : ktask;
  n_opens : list open_pc;                 (* calls of [open] up to their wait *)
  n_checked : nat;                        (* calls of [accept] past the closed check, not subscribed *)
  n_accepts : list R;                     (* waiting calls of [accept]; the first has the lock *)
  n_closes : list cpc;
  n_returned : nat;                       (* calls of [close] that returned *)
}.

Definition with_s (s : session) (n : node) : node :=
  mkNode s (n_stalled n) (n_writer n) (n_reader n) (n_closer n) (n_ka n) (n_opens n) (n_checked n) (n_accepts n)
    (n_closes n) (n_returned n).
Definition with_stalled (b : bool) (n : node) : node :=
  mkNode (n_s n) b (n_writer n) (n_reader n) (n_closer n) (n_ka n) (n_opens n) (n_checked n) (n_accepts n)
    (n_closes n) (n_returned n).
Definition with_writer (w : wtask) (s : session) (n : node) : node :=
  mkNode s (n_stalled n) w (n_reader n) (n_closer n) (n_ka n) (n_opens n) (n_checked n) (n_accepts n)
    (n_closes n) (n_returned n).
Definition with_reader (r : option R) (s : session) (n : node) : node :=
  mkNode s (n_stalled n) (n_writer n) r (n_closer n) (n_ka n) (n_opens n) (n_checked n) (n_accepts n)
    (n_closes n) (n_returned n).
Definition with_closer (r : option R) (s : session) (n : node) : node :=
  mkNode s (n_stalled n) (n_writer n) (n_reader n) r (n_ka n) (n_opens n) (n_checked n) (n_accepts n)
    (n_closes n) (n_returned n).
Definition with_ka (k : ktask) (s : session) (n : node) : node :=
  mkNode s (n_stalled n) (n_writer n) (n_reader n) (n_closer n) k (n_opens n) (n_checked n) (n_accepts n)
    (n_closes n) (n_returned n).
Definition with_opens (ops : list open_pc) (s : session) (n : node) : node :=
  mkNode s (n_stalled n) (n_writer n) (n_reader n) (n_closer n) (n_ka n) ops (n_checked n) (n_accepts n)
    (n_closes n) (n_returned n).
Definition with_accepts (c : nat) (rs : list R) (s : session) (n : node) : node :=
  mkNode s (n_stalled n) (n_writer n) (n_reader n) (n_closer n) (n_ka n) (n_opens n) c rs (n_closes n) (n_returned n).
Definition with_closes (cs : list cpc) (k : nat) (s : session) (n : node) : node :=
  mkNode s (n_stalled n) (n_writer n) (n_reader n) (n_closer n) (n_ka n) (n_opens n) (n_checked n) (n_accepts n) cs k.

Definition exited (t : Task) (n : node) : bool :=
  match t with
  | TWriter => match n_writer n with WExit _ => true | _ => false end
  | TReader => match n_reader n with None => true | _ => false end
  | TCloser => match n_closer n with None => true | _ => false end
  | TKeepalive => match n_ka n with KExit => true | _ => false end
  end.

(** ** The moves of the tasks *)

(** A receiver of the shutdown watch goes out of scope. *)
Definition drop_rx (rx : R) : SM unit := sput (λ s, set_shutdown (watch_drop_rx rx (s_shutdown s)) s).

(** [writer::run] to its next await; [None] is pending. *)
Definition writer_move (w : wtask) : SM (option wtask) :=
  match w with
  | WIdle rx sink =>
    changed ← sget (λ s, watch_changed rx (s_shutdown s));
    match changed with
    | Some rx' =>
      down ← sget (λ s, watch_borrow (s_shutdown s));
      mret (Some (if (down : bool) then WDrain rx' sink else WIdle rx' sink))
    | None =>
      frame ← recv_out;
      mret ((λ f, WWrite rx f sink) <$> frame)
    end
  | WWrite rx frame sink =>
    let '(r, sink) := write_one frame sink in
    match r with
    | Ok _ => mret (Some (WIdle rx sink))
    | Err _ => initiate_shutdown ErrorCode.InternalError;; mret (Some (WDrain rx sink))
    end
  | WDrain rx sink =>
    frame ← recv_out;
    match frame with
    | Some frame =>
      let '(r, sink) := fw_feed frame sink in
      mret (Some (match r with Ok _ => WDrain rx sink | Err _ => WShut rx sink end))
    | None => mret (Some (WShut rx (snd (fw_flush sink))))
    end
  | WShut rx sink =>
    drop_rx rx;;
    sput (λ s, set_out (chan_drop_rx (s_out s)) s);;
    mret (Some (WExit sink))
  | WExit _ => mret None
  end.

(** [reader::run] with the items the connection has for it. *)
Definition reader_move (rx : R) (items : list item) : SM (option R) :=
  r ← turn rx items;
  match fst r with
  | Some rx' => mret (Some rx')
  | None => drop_rx rx;; mret None
  end.

(** [closer_task]. *)
Definition closer_move (rx : R) : SM (option R) :=
  r ← closer_turn rx;
  match r with
  | Some rx' => mret (Some rx')
  | None => drop_rx rx;; sput (λ s, set_closer (chan_drop_rx (s_closer s)) s);; mret None
  end.

(** [keepalive::run] returns. *)
Definition ka_exit (rx : R) : SM ktask :=
  drop_rx rx;; sput (λ s, set_pong (chan_drop_rx (s_pong s)) s);; mret KExit.

(** The shutdown arm of its [select!]; [None] is pending. *)
Definition ka_poll (k : ka) : SM (option ktask) :=
  r ← check_shutdown k;
  match r with
  | None => mret None
  | Some (Some k') => mret (Some (KIdle k'))
  | Some None => t ← ka_exit (ka_rx k); mret (Some t)
  end.

(** The ticker fires. *)
Definition ka_tick (k : ka) : SM ktask :=
  r ← ping k;
  match r with
  | Some k' => mret (KWait k')
  | None => ka_exit (ka_rx k)
  end.

(** [await_pong] takes a pong from the channel; [hung] when its sender, which
    the reader owns, is gone. *)
Definition ka_pong (k : ka) (hung : bool) : SM (option ktask) :=
  got ← (λ s, let r := chan_try_recv (s_pong s) in (fst r, set_pong (snd r) s));
  match got with
  | Some got => mret (Some (if got =? nonce k then KIdle k else KWait k))
  | None => mret (if hung then Some (KIdle k) else None)
  end.

(** The deadline of the wait passes. *)
Definition ka_deadline (k : ka) : SM ktask :=
  initiate_shutdown ErrorCode.Timeout;; ka_exit (ka_rx k).

(** ** The node *)

Inductive move : Type :=
| MWriter
| MReader                                 (* the reader, nothing to read *)
| MItem (it : item)                       (* the reader, an item to read *)
| MCloser
| MKeepalive
| MTick
| MPong
| MDeadline
| MAcceptPoll
| MLock (i : nat)                         (* a [close] gets the lock *)
| MJoin (i : nat)                         (* a [close] joins a task or returns *)
| MUser (e : event (R := R))
| MAccept                                 (* [accept] up to its closed check *)
| MSubscribe                              (* ... and to its [select!] *)
| MAcceptDrop (i : nat)                   (* the future is dropped *)
| MClose
| MOpen                                   (* a call of [open] *)
| MOpenAccess (i : nat)
| MConn (stalled : bool).                 (* the connection stalls or takes bytes again *)

(** The events of the users that are one call each. *)
Definition user_event (e : event (R := R)) : bool :=
  match e with
  | EUser _ _ | EOpenPoll _ _ | EOpenFinish _ _ _ => true
  | _ => false
  end.

(** The writer awaits the connection. *)
Definition on_connection (w : wtask) : bool :=
  match w with WWrite _ _ _ | WDrain _ _ | WShut _ _ => true | _ => false end.

Definition joining (c : cpc) : bool := match c with CJoin _ => true | CLock => false end.

Definition nstep (m : move) (n : node) : option node :=
  let s := n_s n in
  match m with
  | MWriter =>
    if n_stalled n && on_connection (n_writer n) then None else
    let '(w, s') := writer_move (n_writer n) s in (λ w, with_writer w s' n) <$> w
  | MReader =>
    rx ← n_reader n;
    match watch_changed rx (s_shutdown s) with
    | Some _ => let '(r, s') := reader_move rx [] s in Some (with_reader r s' n)
    | None => None
    end
  | MItem it =>
    rx ← n_reader n;
    match watch_changed rx (s_shutdown s) with
    | Some _ => None
    | None => let '(r, s') := reader_move rx [it] s in Some (with_reader r s' n)
    end
  | MCloser =>
    rx ← n_closer n;
    match watch_changed rx (s_shutdown s), queued (s_closer s) with
    | None, [] => None
    | _, _ => let '(r, s') := closer_move rx s in Some (with_closer r s' n)
    end
  | MKeepalive =>
    match n_ka n with
    | KIdle k => let '(t, s') := ka_poll k s in (λ t, with_ka t s' n) <$> t
    | _ => None
    end
  | MTick =>
    match n_ka n with
    | KIdle k =>
      match watch_changed (ka_rx k) (s_shutdown s) with
      | Some _ => None
      | None => let '(t, s') := ka_tick k s in Some (with_ka t s' n)
      end
    | _ => None
    end
  | MPong =>
    match n_ka n with
    | KWait k => let '(t, s') := ka_pong k (exited TReader n) s in (λ t, with_ka t s' n) <$> t
    | _ => None
    end
  | MDeadline =>
    match n_ka n with
    | KWait k => let '(t, s') := ka_deadline k s in Some (with_ka t s' n)
    | _ => None
    end
  | MAccept =>
    if is_closed s then Some n else Some (with_accepts (S (n_checked n)) (n_accepts n) s n)
  | MSubscribe =>
    match n_checked n with
    | O => None
    | S c => let '(rx, s') := shutdown_rx s in Some (with_accepts c (n_accepts n ++ [rx]) s' n)
    end
  | MAcceptPoll =>
    match n_accepts n with
    | [] => None
    | rx :: rest =>
      match accept_poll rx s with
      | (Some _, s') => Some (with_accepts (n_checked n) rest (snd (drop_rx rx s')) n)
      | (None, _) => None
      end
    end
  | MAcceptDrop i =>
    rx ← n_accepts n !! i;
    Some (with_accepts (n_checked n) (delete i (n_accepts n)) (snd (drop_rx rx s)) n)
  | MOpen => Some (with_opens (n_opens n ++ [OpClosed]) s n)
  | MOpenAccess i =>
    p ← n_opens n !! i;
    let '(p', s') := open_step p s in Some (with_opens (<[i := p']> (n_opens n)) s' n)
  | MConn b => Some (with_stalled b n)
  | MUser e => if user_event e then Some (with_s (handle e s) n) else None
  | MClose =>
    Some (with_closes (n_closes n ++ [CLock]) (n_returned n)
      (snd (initiate_shutdown ErrorCode.Normal s)) n)
  | MLock i =>
    match n_closes n !! i with
    | Some CLock =>
      if existsb joining (n_closes n) then None else
      Some (with_closes (<[i := CJoin (default [] (s_tasks s))]> (n_closes n)) (n_returned n)
        (set_tasks None s) n)
    | _ => None
    end
  | MJoin i =>
    match n_closes n !! i with
    | Some (CJoin []) =>
      Some (with_closes (delete i (n_closes n)) (S (n_returned n)) s n)
    | Some (CJoin ts) =>
      t ← find (λ t, exited t n) ts;
      Some (with_closes (<[i := CJoin (filter (.≠ t) ts)]> (n_closes n)) (n_returned n) s n)
    | _ => None
    end
  end.

(** [Session::new] with its tasks at the start of their loops. *)
Definition node_new (config : Config.t) (role : Role.t) : node :=
  let '(rxs, s) := session_new config role in
  mkNode s false (WIdle (writer_rx rxs) (writer_sink config)) (Some (reader_rx rxs))
    (Some (closer_rx rxs))
    (match keepalive_rx rxs with Some rx => KIdle (ka_start rx) | None => KExit end) [] 0 [] [] 0.

Fixpoint nrun (ms : list move) (n : node) : option node :=
  match ms with
  | [] => Some n
  | m :: ms' => n' ← nstep m n; nrun ms' n'
  end.

(** ** What session code does to the shutdown *)

(** The closing flag and the watch move together, once. *)
Definition shut_rel (s s' : session) : Prop :=
  s_tasks s' = s_tasks s ∧
  ((s_is_closing s' = s_is_closing s ∧ s_shutdown s' = s_shutdown s) ∨
   (s_is_closing s = false ∧ s_is_closing s' = true ∧
    s_shutdown s' = snd (watch_send true (s_shutdown s)))).

(** The shutdown and the pongs are not touched at all. *)
Definition calm_rel (s s' : session) : Prop :=
  s_tasks s' = s_tasks s ∧ s_is_closing s' = s_is_closing s ∧
  s_shutdown s' = s_shutdown s ∧ s_pong s' = s_pong s.

#[local] Instance shut_rel_preorder : PreOrder shut_rel.
Proof.
  split; [intros s; split; [done|by left]|]. unfold shut_rel.
  intros s1 s2 s3 [T1 H1] [T2 H2]. split; [congruence|].
  destruct H1 as [[E1 E1']|(E1 & E1' & E1'')], H2 as [[E2 E2']|(E2 & E2' & E2'')];
    rewrite ?E1', ?E1'' in *; try congruence; [left|right|right]; split_and!; congruence.
Qed.

#[local] Instance calm_rel_preorder : PreOrder calm_rel.
Proof. split; [by repeat split|]. unfold calm_rel. intros s1 s2 s3. naive_solver congruence. Qed.

Lemma calm_shut s s' : calm_rel s s' → shut_rel s s'.
Proof. unfold calm_rel, shut_rel. naive_solver. Qed.

(** Session code every run of which is in a relation. *)
Definition SM_sat {A} (P : relation session) (m : SM A) : Prop := ∀ s, P s (snd (m s)).

Section Sat.
Context (P : relation session) `{!PreOrder P}.

Lemma sat_ret {A} (a : A) : SM_sat P (mret a).
Proof. intros s. cbn. reflexivity. Qed.
Lemma sat_get {A} (f : session → A) : SM_sat P (sget f).
Proof. intros s. cbn. reflexivity. Qed.
Lemma sat_bind {A B} (m : SM A) (f : A → SM B) :
  SM_sat P m → (∀ a, SM_sat P (f a)) → SM_sat P (mbind f m).
Proof. intros Hm Hf s. unfold mbind, SM_bind. transitivity (snd (m s)); [apply Hm|apply Hf]. Qed.
Lemma sat_when b m : SM_sat P m → SM_sat P (swhen b m).
Proof. destruct b; [done|]. intros _. apply sat_ret. Qed.
End Sat.

Lemma sat_calm {A} (m : SM A) : SM_sat calm_rel m → SM_sat shut_rel m.
Proof. intros H s. apply calm_shut, H. Qed.

Lemma calm_field {A} (m : SM A) :
  (∀ s, s_tasks (snd (m s)) = s_tasks s) → (∀ s, s_is_closing (snd (m s)) = s_is_closing s) →
  (∀ s, s_shutdown (snd (m s)) = s_shutdown s) → (∀ s, s_pong (snd (m s)) = s_pong s) →
  SM_sat calm_rel m.
Proof. intros. intros s. unfold calm_rel. auto. Qed.

Lemma s_send_calm f : SM_sat calm_rel (s_send f).
Proof. by apply calm_field. Qed.
Lemma reg_insert_calm i loc : SM_sat calm_rel (reg_insert i loc).
Proof. by apply calm_field. Qed.
Lemma reg_remove_calm i : SM_sat calm_rel (reg_remove i).
Proof. by apply calm_field. Qed.
Lemma reg_drain_calm : SM_sat calm_rel reg_drain.
Proof. by apply calm_field. Qed.
Lemma alloc_calm st : SM_sat calm_rel (alloc_stream st).
Proof. by apply calm_field. Qed.
Lemma recv_out_calm : SM_sat calm_rel recv_out.
Proof. by apply calm_field. Qed.
Lemma on_stream_calm {A} loc (m : M (W := W) (C := C) A) : SM_sat calm_rel (on_stream loc m).
Proof.
  intros s. unfold on_stream. destruct (s_heap s !! loc); [|by cbn].
  destruct (m _) as [a [st' l']]. by cbn.
Qed.

Lemma force_close_all_calm locs : SM_sat calm_rel (force_close_all locs).
Proof.
  induction locs as [|loc locs IH]; cbn [force_close_all]; [apply sat_ret, _|].
  apply sat_bind; [apply _|apply on_stream_calm|done].
Qed.

Lemma initiate_shutdown_shut code : SM_sat shut_rel (initiate_shutdown code).
Proof.
  intros s. destruct (s_is_closing s) eqn:Hcl; [by rewrite initiate_shutdown_again|].
  rewrite initiate_shutdown_unfold by done.
  pose proof (force_close_all_calm (snd <$> drain_order (s_registry s)) (shutdown_prefix code s))
    as (Ht & Hc & Hs & _).
  split; cbn in *; [done|]. right. rewrite Hs. by split_and!.
Qed.

Ltac sat :=
  repeat first
    [ apply sat_ret; apply _ | apply sat_get; apply _ | apply sat_when; [apply _|]
    | apply s_send_calm | apply reg_insert_calm | apply reg_remove_calm | apply alloc_calm
    | apply on_stream_calm | apply initiate_shutdown_shut
    | apply sat_calm; solve [apply s_send_calm|apply reg_insert_calm|apply reg_remove_calm
        |apply alloc_calm|apply on_stream_calm|apply recv_out_calm]
    | apply sat_bind; [apply _| |intros ?] | case_match ].

Lemma handle_syn_calm i : SM_sat calm_rel (handle_syn i).
Proof. unfold handle_syn. sat; by apply calm_field. Qed.

Lemma dispatch_shut f : SM_sat shut_rel (dispatch f).
Proof.
  destruct f as [i fl p|i fl d|fl o|c]; cbn [dispatch]; [unfold handle_data|..];
    try (apply sat_bind; [apply _| |intros ?]); sat;
    try (apply sat_calm, handle_syn_calm); intros s; (split; [done|by left]).
Qed.

Lemma on_item_shut it : SM_sat shut_rel (on_item it).
Proof.
  destruct it as [f|e|]; cbn [on_item]; [|sat|sat].
  apply sat_bind; [apply _|apply dispatch_shut|]. intros []; sat.
Qed.

Lemma user_calm e : user_event e = true → SM_sat calm_rel (λ s, ((), handle e s)).
Proof.
  assert (∀ A (m : SM A), SM_sat calm_rel m → SM_sat calm_rel (λ s, ((), snd (m s)))) as Hsnd
    by (intros A m Hm s; apply Hm).
  destruct e as [|loc u| | | | | | | | | |]; intros He; try done; cbn [handle].
  - destruct u; apply Hsnd, on_stream_calm.
  - apply Hsnd, on_stream_calm.
  - apply Hsnd. unfold open_finish. sat.
Qed.

Lemma open_step_calm p : SM_sat calm_rel (open_step p).
Proof. destruct p; cbn [open_step]; sat; by apply calm_field. Qed.

Lemma shutdown_rx_calm (s : session) :
  s_tasks (snd (shutdown_rx s)) = s_tasks s ∧ s_is_closing (snd (shutdown_rx s)) = s_is_closing s ∧
  s_pong (snd (shutdown_rx s)) = s_pong s ∧ s_out (snd (shutdown_rx s)) = s_out s.
Proof. done. Qed.

Lemma turn_unchanged rx items s :
  watch_changed rx (s_shutdown s) = None →
  turn rx items s = match items with
    | [] => ((Some rx, []), s)
    | i :: items' => let '(go, s') := on_item i s in ((if (go : bool) then Some rx else None, items'), s')
    end.
Proof. intros H. unfold turn. by rewrite H. Qed.

(** ** The invariant of the receivers *)

(** The receivers a task holds, and those it still waits on. *)
Definition held_w (w : wtask) : list R :=
  match w with WIdle rx _ | WWrite rx _ _ | WDrain rx _ | WShut rx _ => [rx] | WExit _ => [] end.
Definition waits_w (w : wtask) : list R :=
  match w with WIdle rx _ | WWrite rx _ _ => [rx] | _ => [] end.
Definition held_k (k : ktask) : list R :=
  match k with KIdle k | KWait k => [ka_rx k] | KExit => [] end.

Definition others (n : node) : list R :=
  option_list (n_reader n) ++ option_list (n_closer n) ++ held_k (n_ka n).
Definition held (n : node) : list R := held_w (n_writer n) ++ others n ++ n_accepts n.
Definition waits (n : node) : list R := waits_w (n_writer n) ++ others n.

(** A waiting receiver sees the shutdown exactly when there is one. *)
Definition rx_ok (s : session) (rx : R) : Prop :=
  if s_is_closing s then seen rx ≠ version (s_shutdown s) ∧ watch_borrow (s_shutdown s) = true
  else seen rx = version (s_shutdown s).

Definition rxs_inv (s : session) (hs ws : list R) : Prop :=
  receivers (s_shutdown s) = length hs ∧ (length ws ≤ length hs)%nat ∧ Forall (rx_ok s) ws.

(** Before the shutdown every call of [accept] that waits has seen the current
    version; one that subscribed after it has seen the shutdown, and misses it. *)
Definition node_inv (n : node) : Prop :=
  rxs_inv (n_s n) (held n) (waits n) ∧
  (s_is_closing (n_s n) = false → Forall (rx_ok (n_s n)) (n_accepts n)).

Lemma rxs_inv_shut s s' hs ws : shut_rel s s' → rxs_inv s hs ws → rxs_inv s' hs ws.
Proof.
  intros [_ [[Ec Ex]|(Ec & Ec' & Ex)]] (Hr & Hl & Hf).
  { unfold rxs_inv, rx_ok in *. rewrite Ec, Ex. by split_and!. }
  destruct (decide (receivers (s_shutdown s) = 0%nat)) as [E|Hne].
  { rewrite (send_closed true _ E) in Ex. cbn in Ex. destruct ws; [|cbn in *; lia].
    unfold rxs_inv. rewrite Ex. by split_and!. }
  destruct (send_spec true _ Hne) as (_ & Hb & Hv & Hn). unfold rxs_inv. rewrite Ex, Hn.
  split_and!; [done|done|]. eapply Forall_impl; [|exact Hf]. intros rx. unfold rx_ok.
  rewrite Ec, Ec', Ex, Hb, Hv. intros ->. split; [lia|done].
Qed.

Lemma rxs_inv_drop rx s hs hs' ws ws' :
  rxs_inv s hs ws → length hs = S (length hs') → (length ws' ≤ length hs')%nat → ws' ⊆+ ws →
  rxs_inv (snd (drop_rx rx s)) hs' ws'.
Proof.
  intros (Hr & Hl & Hf) Hh Hw Hin. destruct (drop_rx_spec rx (s_shutdown s)) as (Hv & Hb & Hc).
  unfold rxs_inv, rx_ok. cbn. rewrite Hc, Hv, Hb, Hr, Hh. split_and!; [done|done|].
  by eapply Forall_submset.
Qed.

Lemma rxs_inv_same s s' hs ws hs' ws' :
  s_is_closing s' = s_is_closing s → s_shutdown s' = s_shutdown s → length hs' = length hs →
  ws' ⊆+ ws → rxs_inv s hs ws → rxs_inv s' hs' ws'.
Proof.
  intros Ec Ex Eh Hin (Hr & Hl & Hf). unfold rxs_inv, rx_ok. rewrite Ec, Ex, Eh.
  apply submseteq_length in Hin as Hn.
  split_and!; [done|lia|]. by eapply Forall_submset.
Qed.

Lemma rxs_inv_perm s hs ws hs' ws' :
  rxs_inv s hs ws → hs' ≡ₚ hs → ws' ≡ₚ ws → rxs_inv s hs' ws'.
Proof.
  intros H Hh Hw. eapply rxs_inv_same; [..|exact H]; try done; [by rewrite Hh|by rewrite Hw].
Qed.

Lemma rx_ok_cases s rx :
  rx_ok s rx →
  (s_is_closing s = true ∧ is_Some (watch_changed rx (s_shutdown s)) ∧ watch_borrow (s_shutdown s) = true) ∨
  (s_is_closing s = false ∧ watch_changed rx (s_shutdown s) = None).
Proof.
  unfold rx_ok. destruct (s_is_closing s); [intros [Hn Hb]; left|intros E; right; split; [done|by apply changed_pending]].
  split_and!; [done| |done]. destruct (watch_changed rx (s_shutdown s)) eqn:E; [done|].
  by apply changed_pending in E.
Qed.

Lemma waits_rx_ok n rx : node_inv n → rx ∈ waits n → rx_ok (n_s n) rx.
Proof. intros [(_ & _ & Hf) _]. rewrite list.Forall_forall in Hf. apply Hf. Qed.

Lemma waits_held n : (length (waits n) ≤ length (held n))%nat.
Proof. unfold waits, held. rewrite !length_app. destruct (n_writer n); cbn; lia. Qed.

(** The waiting calls of [accept] before the shutdown. *)
Definition unaware (s : session) (rs : list R) : Prop := s_is_closing s = false → Forall (rx_ok s) rs.

Lemma unaware_same s s' rs rs' :
  (s_is_closing s' = false → s_is_closing s = false ∧ version (s_shutdown s') = version (s_shutdown s)) →
  rs' ⊆+ rs → unaware s rs → unaware s' rs'.
Proof.
  intros H Hin Hu Hc'. destruct (H Hc') as [Hc Hv]. specialize (Hu Hc). eapply Forall_submset; [exact Hin|].
  eapply Forall_impl; [|exact Hu]. intros rx. unfold rx_ok. by rewrite Hc, Hc', Hv.
Qed.

Lemma unaware_shut s s' rs : shut_rel s s' → unaware s rs → unaware s' rs.
Proof.
  intros [_ [[Ec Ex]|(_ & Ec & _)]]; [|by intros _ ?; congruence].
  apply unaware_same; [|done]. by rewrite Ec, Ex.
Qed.

Lemma node_inv_writer w w' n s :
  shut_rel (n_s n) s → node_inv n → n_writer n = w → length (held_w w') = length (held_w w) →
  waits_w w' ⊆+ waits_w w → node_inv (with_writer w' s n).
Proof.
  intros Hs [Hn Hu] E Hh Hw. split; [|by eapply unaware_shut]. apply (rxs_inv_shut _ _ _ _ Hs) in Hn.
  eapply rxs_inv_same; [..|exact Hn]; try done; unfold held, waits; cbn; rewrite E.
  - by rewrite !length_app, Hh.
  - by apply submseteq_app.
Qed.

Lemma writer_waits n rx sink : node_inv n → n_writer n = WIdle rx sink → rx_ok (n_s n) rx.
Proof. intros Hn E. apply (waits_rx_ok n); [done|]. unfold waits. rewrite E. cbn. set_solver. Qed.

Lemma writer_move_inv n w s :
  node_inv n → writer_move (n_writer n) (n_s n) = (Some w, s) → node_inv (with_writer w s n).
Proof.
  intros Hn E. destruct (n_writer n) as [rx sink|rx f sink|rx sink|rx sink|sink] eqn:Ew;
    cbn [writer_move] in E.
  - pose proof (writer_waits _ _ _ Hn Ew) as Hrx.
    unfold mbind, SM_bind, sget in E. cbn [fst snd] in E.
    destruct (rx_ok_cases _ _ Hrx) as [(Hc & [rx' Hrx'] & Hb)|[Hc Hch]]; [rewrite Hrx' in E|rewrite Hch in E].
    + cbn in E. rewrite Hb in E. unfold mret, SM_ret in E. simplify_eq.
      by eapply node_inv_writer; [reflexivity|done|exact Ew|done|apply submseteq_nil_l].
    + cbn [fst snd] in E. unfold mret, SM_ret in E. destruct (fst (recv_out (n_s n))); simplify_eq/=.
      eapply node_inv_writer; [|done|exact Ew|done|done]. by apply calm_shut, recv_out_calm.
  - destruct (write_one f sink) as [[|e] sink'].
    + unfold mret, SM_ret in E. simplify_eq. by eapply node_inv_writer; [reflexivity|done|exact Ew|..].
    + unfold mbind, SM_bind, mret, SM_ret in E. simplify_eq.
      eapply node_inv_writer; [|done|exact Ew|done|by apply submseteq_nil_l].
      apply initiate_shutdown_shut.
  - unfold mbind, SM_bind in E. cbn [fst snd] in E.
    assert (shut_rel (n_s n) (snd (recv_out (n_s n)))) by (apply calm_shut, recv_out_calm).
    destruct (fst (recv_out (n_s n))) as [f|]; [destruct (fw_feed f sink) as [[|] sink']|];
      unfold mret, SM_ret in E; simplify_eq; by (eapply node_inv_writer; [|done|exact Ew|..]).
  - unfold mbind, SM_bind, mret, SM_ret in E. simplify_eq.
    destruct Hn as [Hn Hu]. split; [|eapply unaware_same; [|done|exact Hu]; cbn; by destruct (drop_rx_spec rx (s_shutdown (n_s n))) as (-> & _)].
    pose proof (rxs_inv_drop rx (n_s n) (held n) (others n ++ n_accepts n) (waits n) (others n) Hn) as Hd.
    unfold held, waits in Hd. rewrite Ew in Hd. apply Hd; [done|rewrite length_app; lia|done].
  - by unfold mret, SM_ret in E.
Qed.

(** A step that drops no receiver, and one that drops [rx]. *)
Definition same_shut (s s' : session) : Prop :=
  s_is_closing s' = s_is_closing s ∧ s_shutdown s' = s_shutdown s ∧ s_tasks s' = s_tasks s.

Definition steps_drop (rx : R) (s s' : session) : Prop :=
  ∃ s1, shut_rel s s1 ∧ same_shut (snd (drop_rx rx s1)) s'.

Lemma node_inv_keep n n' :
  node_inv n → shut_rel (n_s n) (n_s n') → held n' ≡ₚ held n → waits n' ≡ₚ waits n → n_accepts n' = n_accepts n →
  node_inv n'.
Proof.
  intros [Hn Hu] Hs Hh Hw Ha. split; [eapply rxs_inv_perm; [by eapply rxs_inv_shut|done|done]|].
  rewrite Ha. by eapply unaware_shut.
Qed.

Lemma node_inv_drop n n' rx :
  node_inv n → steps_drop rx (n_s n) (n_s n') → held n ≡ₚ rx :: held n' → waits n' ⊆+ waits n →
  n_accepts n' ⊆+ n_accepts n → node_inv n'.
Proof.
  intros [Hn Hu] (s1 & Hs & Ec & Ex & _) Hh Hw Ha. split.
  - apply (rxs_inv_shut _ _ _ _ Hs) in Hn.
    eapply rxs_inv_same; [exact Ec|exact Ex|..]; [done|reflexivity|].
    eapply rxs_inv_drop; [exact Hn|by rewrite Hh|apply waits_held|done].
  - apply (unaware_shut _ _ _ Hs) in Hu. eapply unaware_same; [|exact Ha|exact Hu].
    rewrite Ec, Ex. cbn. by destruct (drop_rx_spec rx (s_shutdown s1)) as (-> & _).
Qed.

(** What a turn of a task does: it goes on with its receiver, or the session is
    closing and the receiver is dropped. *)
Lemma reader_move_cases rx items s r s' :
  rx_ok s rx → reader_move rx items s = (r, s') →
  (r = Some rx ∧ shut_rel s s' ∧ s_is_closing s = false) ∨
  (r = None ∧ steps_drop rx s s' ∧ s_is_closing s' = true).
Proof.
  intros Hrx E. unfold reader_move, mbind, SM_bind in E.
  destruct (rx_ok_cases _ _ Hrx) as [(Hc & [rx' Hrx'] & Hb)|[Hc Hch]].
  - unfold turn in E. rewrite Hrx', Hb in E. cbn in E. unfold mret, SM_ret in E. simplify_eq. right.
    split_and!; [done| |done]. exists s. split; [reflexivity|done].
  - rewrite turn_unchanged in E by done. destruct items as [|it items].
    { cbn in E. unfold mret, SM_ret in E. simplify_eq. left. split_and!; [done|reflexivity|done]. }
    pose proof (on_item_shut it s) as Hs. pose proof (on_item_false it s) as Hstop.
    destruct (on_item it s) as [[] s1]; cbn in *; unfold mret, SM_ret in E; simplify_eq.
    + left. by split_and!.
    + right. split_and!; [done| |by apply Hstop]. by exists s1.
Qed.

Lemma closer_move_cases rx s r s' :
  rx_ok s rx → closer_move rx s = (r, s') →
  (r = Some rx ∧ shut_rel s s' ∧ s_is_closing s = false) ∨
  (r = None ∧ steps_drop rx s s' ∧ s_is_closing s' = true).
Proof.
  intros Hrx E. unfold closer_move, closer_turn, mbind, SM_bind, sget in E. cbn [fst snd] in E.
  destruct (rx_ok_cases _ _ Hrx) as [(Hc & [rx' Hrx'] & Hb)|[Hc Hch]];
    [rewrite Hrx' in E|rewrite Hch in E]; cbn in E.
  - rewrite Hb in E. cbn in E. unfold mret, SM_ret in E. simplify_eq. right. split_and!; [done| |done].
    exists s. split; [reflexivity|by repeat split].
  - destruct (fst (chan_try_recv (s_closer s))); cbn in E; unfold mret, SM_ret in E; simplify_eq; left;
      (split_and!; [done| |done]); (split; [done|by left]).
Qed.

Lemma ka_exit_drop k s s1 t s' :
  shut_rel s s1 → ka_exit k s1 = (t, s') → t = KExit ∧ steps_drop k s s'.
Proof.
  intros Hs E. unfold ka_exit, mbind, SM_bind, mret, SM_ret in E. simplify_eq. split; [done|].
  exists s1. split; [done|by repeat split].
Qed.

(** The receivers of a node around those of one task. *)
Ltac rxs E := unfold held, waits, others; cbn; rewrite ?E; cbn; solve_Permutation.

Ltac less E := unfold waits, others; cbn; rewrite ?E; cbn; solve_submseteq.

Lemma in_others n rx : rx ∈ others n → rx ∈ waits n.
Proof. unfold waits. set_solver. Qed.

Lemma keepalive_inv n k t s :
  node_inv n → n_ka n = KIdle k ∨ n_ka n = KWait k →
  (held_k t = [ka_rx k] ∧ shut_rel (n_s n) s) ∨ (t = KExit ∧ steps_drop (ka_rx k) (n_s n) s) →
  node_inv (with_ka t s n).
Proof.
  intros Hn Hk [[Ht Hs]|[-> Hs]].
  - eapply node_inv_keep; [exact Hn|exact Hs|..|done]; unfold held, waits, others; cbn; rewrite Ht;
      destruct Hk as [-> | ->]; done.
  - eapply node_inv_drop; [exact Hn|exact Hs|..|done]; unfold held, waits, others; cbn;
      destruct Hk as [-> | ->]; cbn; first [solve_Permutation|solve_submseteq].
Qed.

Lemma ka_poll_cases k t s s' :
  rx_ok s (ka_rx k) → ka_poll k s = (Some t, s') →
  t = KExit ∧ steps_drop (ka_rx k) s s' ∧ s_is_closing s = true.
Proof.
  intros Hrx E. unfold ka_poll, check_shutdown, mbind, SM_bind, sget in E. cbn [fst snd] in E.
  destruct (rx_ok_cases _ _ Hrx) as [(Hc & [rx' Hrx'] & Hb)|[Hc Hch]];
    [rewrite Hrx' in E|rewrite Hch in E; done]. cbn in E. rewrite Hb in E. cbn in E.
  unfold mret, SM_ret in E. simplify_eq. split_and!; [done| |done].
  exists s. split; [reflexivity|by repeat split].
Qed.

Lemma ka_tick_cases k t s s' :
  ka_tick k s = (t, s') →
  (held_k t = [ka_rx k] ∧ calm_rel s s') ∨ (t = KExit ∧ steps_drop (ka_rx k) s s').
Proof.
  intros E. unfold ka_tick, ping, mbind, SM_bind in E.
  set (r := s_send _ s) in *. assert (calm_rel s (snd r)) as Hc by apply s_send_calm.
  destruct (fst r); cbn [fst snd] in E; [left|right].
  - unfold mret, SM_ret in E. injection E as <- <-. by split.
  - apply (ka_exit_drop _ s) in E; [done|by apply calm_shut].
Qed.

Lemma ka_pong_cases k hung t s s' :
  ka_pong k hung s = (Some t, s') → held_k t = [ka_rx k] ∧ shut_rel s s'.
Proof.
  intros E. unfold ka_pong, mbind, SM_bind in E. cbn [fst snd] in E.
  split.
  - destruct (fst (chan_try_recv (s_pong s))); [|destruct hung];
      unfold mret, SM_ret in E; simplify_eq; by repeat case_match.
  - destruct (fst (chan_try_recv (s_pong s))); [|destruct hung];
      unfold mret, SM_ret in E; simplify_eq; (split; [done|by left]).
Qed.

Lemma accepts_drop n i rx s :
  node_inv n → n_accepts n !! i = Some rx → shut_rel (n_s n) s →
  node_inv (with_accepts (n_checked n) (delete i (n_accepts n)) (snd (drop_rx rx s)) n).
Proof.
  intros Hn Hi Hs. apply delete_Permutation in Hi.
  eapply node_inv_drop; [exact Hn|by exists s|..|]; unfold held, waits, others; cbn; [|done|].
  - rewrite Hi at 1. solve_Permutation.
  - apply sublist_submseteq, sublist_delete.
Qed.

Lemma accept_poll_calm rx : SM_sat calm_rel (accept_poll rx).
Proof. unfold accept_poll. sat; by apply calm_field. Qed.

Lemma subscribe_inv n c :
  node_inv n →
  node_inv (with_accepts c (n_accepts n ++ [fst (shutdown_rx (n_s n))]) (snd (shutdown_rx (n_s n))) n).
Proof.
  intros [(Hr & Hl & Hf) Hu]. destruct (subscribe_spec (s_shutdown (n_s n))) as (Hse & Hv & Hb & Hn).
  assert (∀ rx, rx_ok (n_s n) rx → rx_ok (snd (shutdown_rx (n_s n))) rx) as Hok
    by (intros rx; unfold rx_ok; cbn; by rewrite Hv, Hb).
  split; [split_and!|].
  - unfold held, others in *. cbn. rewrite Hn, Hr, !length_app. cbn. lia.
  - unfold held, waits, others in *. cbn. rewrite !length_app in *. lia.
  - eapply Forall_impl; [exact Hok|exact Hf].
  - intros Hc. cbn in *. apply Forall_app. split; [eapply Forall_impl; [exact Hok|by apply Hu]|].
    constructor; [|done]. unfold rx_ok. cbn. by rewrite Hc, Hv.
Qed.

Lemma reader_waits n rx : node_inv n → n_reader n = Some rx → rx_ok (n_s n) rx.
Proof. intros Hn E. apply (waits_rx_ok n); [done|]. apply in_others. unfold others. rewrite E. cbn. set_solver. Qed.
Lemma closer_waits n rx : node_inv n → n_closer n = Some rx → rx_ok (n_s n) rx.
Proof. intros Hn E. apply (waits_rx_ok n); [done|]. apply in_others. unfold others. rewrite E. cbn. set_solver. Qed.
Lemma ka_waits n k : node_inv n → n_ka n = KIdle k → rx_ok (n_s n) (ka_rx k).
Proof. intros Hn E. apply (waits_rx_ok n); [done|]. apply in_others. unfold others. rewrite E. cbn. set_solver. Qed.
Lemma reader_move_inv n rx items r s :
  node_inv n → n_reader n = Some rx → reader_move rx items (n_s n) = (r, s) → node_inv (with_reader r s n).
Proof.
  intros Hn E Hm. destruct (reader_move_cases _ _ _ _ _ (reader_waits _ _ Hn E) Hm) as [(-> & Hs & _)|(-> & Hs & _)].
  - eapply node_inv_keep; [exact Hn|exact Hs|rxs E|rxs E|done].
  - eapply node_inv_drop; [exact Hn|exact Hs|rxs E|less E|done].
Qed.

Lemma closer_move_inv n rx r s :
  node_inv n → n_closer n = Some rx → closer_move rx (n_s n) = (r, s) → node_inv (with_closer r s n).
Proof.
  intros Hn E Hm. destruct (closer_move_cases _ _ _ _ (closer_waits _ _ Hn E) Hm) as [(-> & Hs & _)|(-> & Hs & _)].
  - eapply node_inv_keep; [exact Hn|exact Hs|rxs E|rxs E|done].
  - eapply node_inv_drop; [exact Hn|exact Hs|rxs E|less E|done].
Qed.

Lemma open_access_inv n i p :
  node_inv n → node_inv (with_opens (<[i := fst (open_step p (n_s n))]> (n_opens n)) (snd (open_step p (n_s n))) n).
Proof.
  intros Hn. eapply node_inv_keep; [exact Hn|by apply calm_shut, open_step_calm|done|done|done].
Qed.

Lemma nstep_inv m n n' : nstep m n = Some n' → node_inv n → node_inv n'.
Proof.
  intros E Hn. destruct m as [| |it| | | | | | |i|i|e| | |i| | |i|b]; cbn [nstep] in E.
  - case_match; [done|].
    destruct (writer_move (n_writer n) (n_s n)) as [[w|] s] eqn:Ew; simplify_eq/=. by apply writer_move_inv.
  - destruct (n_reader n) as [rx|] eqn:Er; [cbn in E|done]. case_match; [|done].
    destruct (reader_move rx [] (n_s n)) as [r1 s1] eqn:Em. simplify_eq. by eapply reader_move_inv.
  - destruct (n_reader n) as [rx|] eqn:Er; [cbn in E|done]. case_match; [done|].
    destruct (reader_move rx [it] (n_s n)) as [r1 s1] eqn:Em. simplify_eq. by eapply reader_move_inv.
  - destruct (n_closer n) as [rx|] eqn:Er; [cbn in E|done].
    destruct (closer_move rx (n_s n)) as [r s] eqn:Em.
    repeat case_match; simplify_eq; by eapply closer_move_inv.
  - destruct (n_ka n) as [k|k|] eqn:Ek; try done. destruct (ka_poll k (n_s n)) as [[t|] s] eqn:Em; simplify_eq/=.
    destruct (ka_poll_cases k t _ _ (ka_waits _ _ Hn Ek) Em) as (-> & Hs & _).
    eapply keepalive_inv; eauto.
  - destruct (n_ka n) as [k|k|] eqn:Ek; try done. case_match; [done|].
    destruct (ka_tick k (n_s n)) as [t s] eqn:Em. simplify_eq/=.
    eapply keepalive_inv; [done|eauto|]. destruct (ka_tick_cases _ _ _ _ Em) as [[? ?%calm_shut]|[? ?]]; eauto.
  - destruct (n_ka n) as [k|k|] eqn:Ek; try done.
    destruct (ka_pong k (exited TReader n) (n_s n)) as [[t|] s] eqn:Em; simplify_eq/=.
    eapply keepalive_inv; [done|eauto|]. left. by eapply ka_pong_cases.
  - destruct (n_ka n) as [k|k|] eqn:Ek; try done. destruct (ka_deadline k (n_s n)) as [t s] eqn:Em.
    simplify_eq/=. eapply keepalive_inv; [done|eauto|]. right. unfold ka_deadline, mbind, SM_bind in Em.
    by eapply ka_exit_drop, Em; apply initiate_shutdown_shut.
  - destruct (n_accepts n) as [|rx rest] eqn:Ea; [done|].
    pose proof (accept_poll_calm rx (n_s n)) as Hs.
    destruct (accept_poll rx (n_s n)) as [[r|] s] eqn:Em; [|done]. simplify_eq.
    pose proof (accepts_drop n 0 rx s Hn ltac:(by rewrite Ea) (calm_shut _ _ Hs)) as H. by rewrite Ea in H.
  - destruct (n_closes n !! i) as [[|ts]|]; try done. case_match; [done|]. simplify_eq.
    destruct Hn as [Hn Hu]. split; [eapply rxs_inv_same; [..|exact Hn]; done|exact Hu].
  - destruct (n_closes n !! i) as [[|[|t0 ts]]|]; try done; [by simplify_eq|].
    by apply bind_Some in E as (t & _ & [= <-]).
  - destruct (user_event e) eqn:He; simplify_eq. pose proof (user_calm e He (n_s n)) as Hs%calm_shut.
    eapply node_inv_keep; [exact Hn|exact Hs|done..].
  - case_match; by simplify_eq.
  - destruct (n_checked n) as [|c]; [done|]. simplify_eq/=. by apply subscribe_inv.
  - apply bind_Some in E as (rx & Hi & [= <-]). by apply (accepts_drop n i rx (n_s n) Hn Hi).
  - simplify_eq. eapply node_inv_keep; [exact Hn|apply initiate_shutdown_shut|done..].
  - by simplify_eq.
  - apply bind_Some in E as (p & _ & E). pose proof (open_access_inv n i p Hn) as H.
    destruct (open_step p (n_s n)). by simplify_eq.
  - by simplify_eq.
Qed.

(** ** Once the session closes *)




















Lemma find_elem {A} (f : A → bool) l x : find f l = Some x → x ∈ l ∧ f x = true.
Proof. intros H. apply find_some in H as [H1 H2]. split; [by apply list_elem_of_In|done]. Qed.












(** Once the session closes no call of [accept] joins the others, and those that
    saw the shutdown do not lose sight of it. *)
Definition quiet_rel (s s' : session) : Prop :=
  s_is_closing s = true → s_is_closing s' = true ∧ version (s_shutdown s') = version (s_shutdown s).

#[local] Instance quiet_rel_preorder : PreOrder quiet_rel.
Proof.
  split; [by intros s ?|]. intros s1 s2 s3 H1 H2 Hc. destruct (H1 Hc) as [Hc2 E2], (H2 Hc2) as [Hc3 E3].
  split; congruence.
Qed.












(** ** [close] joins every task *)

Definition covers (n : node) (ts : list Task) : Prop := ∀ t, exited t n = true ∨ t ∈ ts.

Record join_inv (n : node) : Prop := {
  join_here : ∀ ts, s_tasks (n_s n) = Some ts → covers n ts ∧ existsb joining (n_closes n) = false;
  join_taken : s_tasks (n_s n) = None → existsb joining (n_closes n) = false → covers n [];
  join_held : ∀ i ts, n_closes n !! i = Some (CJoin ts) → covers n ts;
  join_done : (0 < n_returned n)%nat → covers n [];
}.

Lemma join_inv_mono n n' :
  (∀ t, exited t n = true → exited t n' = true) → s_tasks (n_s n') = s_tasks (n_s n) →
  (n_closes n' = n_closes n ∨ n_closes n' = n_closes n ++ [CLock]) → n_returned n' = n_returned n →
  join_inv n → join_inv n'.
Proof.
  intros He Et Ec Er [H1 H2 H3 H4].
  assert (∀ ts, covers n ts → covers n' ts) as Hcov by (intros ts H t; destruct (H t); auto).
  assert (existsb joining (n_closes n') = existsb joining (n_closes n)) as Ej.
  { destruct Ec as [->| ->]; [done|]. rewrite existsb_app. cbn. by rewrite orb_false_r. }
  constructor; rewrite ?Et, ?Er, ?Ej; auto.
  - intros ts Hts. destruct (H1 ts Hts). auto.
  - intros i ts Hi. apply Hcov, (H3 i). destruct Ec as [Ec|Ec]; rewrite Ec in Hi; [done|].
    apply lookup_app_Some in Hi as [Hi|[_ Hi]]; [done|]. by apply list_lookup_singleton_Some in Hi as [_ Hi].
Qed.

(** The session code of the moves leaves the [JoinSet] alone. *)
Definition tasks_rel (s s' : session) : Prop := s_tasks s' = s_tasks s.

#[local] Instance tasks_rel_preorder : PreOrder tasks_rel.
Proof. split; [done|]. intros s1 s2 s3. unfold tasks_rel. congruence. Qed.

Lemma shut_tasks {A} (m : SM A) : SM_sat shut_rel m → SM_sat tasks_rel m.
Proof. intros H s. apply H. Qed.

Lemma tasks_field {A} (m : SM A) : (∀ s, s_tasks (snd (m s)) = s_tasks s) → SM_sat tasks_rel m.
Proof. done. Qed.

Ltac sat_tasks :=
  repeat first
    [ apply sat_ret; apply _ | apply sat_get; apply _ | apply sat_when; [apply _|]
    | apply shut_tasks, initiate_shutdown_shut
    | apply shut_tasks, sat_calm; first [apply s_send_calm|apply recv_out_calm|apply reg_remove_calm|apply on_stream_calm]
    | apply sat_bind; [apply _| |intros ?] | case_match | by apply tasks_field ].

Lemma turn_tasks rx items : SM_sat tasks_rel (turn rx items).
Proof.
  intros s. unfold turn. destruct (watch_changed rx (s_shutdown s)); [done|].
  destruct items as [|it items]; [done|]. destruct (on_item_shut it s) as [Ht _].
  by destruct (on_item it s).
Qed.

Lemma writer_move_tasks w : SM_sat tasks_rel (writer_move w).
Proof. destruct w; cbn [writer_move]; unfold drop_rx; sat_tasks. Qed.
Lemma reader_move_tasks rx items : SM_sat tasks_rel (reader_move rx items).
Proof. unfold reader_move, drop_rx. apply sat_bind; [apply _|apply turn_tasks|intros ?; sat_tasks]. Qed.
Lemma closer_move_tasks rx : SM_sat tasks_rel (closer_move rx).
Proof. unfold closer_move, closer_turn, drop_rx. sat_tasks. Qed.
Lemma ka_poll_tasks k : SM_sat tasks_rel (ka_poll k).
Proof. unfold ka_poll, check_shutdown, ka_exit, drop_rx. sat_tasks. Qed.
Lemma ka_tick_tasks k : SM_sat tasks_rel (ka_tick k).
Proof. unfold ka_tick, ping, ka_exit, drop_rx. sat_tasks. Qed.
Lemma ka_pong_tasks k hung : SM_sat tasks_rel (ka_pong k hung).
Proof. unfold ka_pong. sat_tasks. Qed.
Lemma ka_deadline_tasks k : SM_sat tasks_rel (ka_deadline k).
Proof. unfold ka_deadline, ka_exit, drop_rx. sat_tasks. Qed.

(** A move of one task, from the [tasks_rel] of its code. *)
Lemma join_inv_task n n' :
  join_inv n → (∀ t, exited t n = true → exited t n' = true) → tasks_rel (n_s n) (n_s n') →
  n_closes n' = n_closes n → n_returned n' = n_returned n → join_inv n'.
Proof. intros Hj He Ht Hc Hr. eapply join_inv_mono; eauto. Qed.

Lemma joining_at cs i ts : cs !! i = Some (CJoin ts) → existsb joining cs = true.
Proof.
  intros Hi. apply existsb_exists. exists (CJoin ts). split; [|done]. by eapply list_elem_of_In, list_elem_of_lookup_2.
Qed.

Lemma joining_set cs i c ts : cs !! i = Some c → existsb joining (<[i := CJoin ts]> cs) = true.
Proof. intros Hi. apply (joining_at _ i ts), list_lookup_insert_eq. by eapply lookup_lt_Some. Qed.

Lemma join_inv_lock n i :
  join_inv n → n_closes n !! i = Some CLock → existsb joining (n_closes n) = false →
  join_inv (with_closes (<[i := CJoin (default [] (s_tasks (n_s n)))]> (n_closes n)) (n_returned n)
    (set_tasks None (n_s n)) n).
Proof.
  intros [H1 H2 H3 H4] Hi Hj.
  assert (covers n (default [] (s_tasks (n_s n)))) as Hcov.
  { destruct (s_tasks (n_s n)) as [ts|] eqn:Et; [by apply H1|by apply H2]. }
  constructor; cbn; [done| |..|done].
  - intros _ Hf. by rewrite (joining_set _ _ _ _ Hi) in Hf.
  - intros j ts Hl. apply list_lookup_insert_Some in Hl as [(<- & [= <-] & _)|[_ Hl]]; [done|by eapply H3].
Qed.

Lemma join_inv_return n i :
  join_inv n → n_closes n !! i = Some (CJoin []) →
  join_inv (with_closes (delete i (n_closes n)) (S (n_returned n)) (n_s n) n).
Proof.
  intros [H1 H2 H3 H4] Hi. pose proof (H3 _ _ Hi) as Hcov. constructor; cbn; [|done| |done].
  - intros ts Hts. destruct (H1 ts Hts) as [_ Hj]. by rewrite (joining_at _ _ _ Hi) in Hj.
  - intros j ts _ t. left. by destruct (Hcov t) as [|?%elem_of_nil].
Qed.

Lemma join_inv_joined n i ts t :
  join_inv n → n_closes n !! i = Some (CJoin ts) → exited t n = true →
  join_inv (with_closes (<[i := CJoin (filter (.≠ t) ts)]> (n_closes n)) (n_returned n) (n_s n) n).
Proof.
  intros [H1 H2 H3 H4] Hi Ht.
  constructor; cbn; [| | |done].
  - intros ts' Hts. destruct (H1 ts' Hts) as [_ Hf]. by rewrite (joining_at _ _ _ Hi) in Hf.
  - intros _ Hf. by rewrite (joining_set _ _ _ _ Hi) in Hf.
  - intros j ts' Hl. apply list_lookup_insert_Some in Hl as [(<- & [= <-] & _)|[_ Hl]]; [|by eapply H3].
    intros t'. destruct (H3 _ _ Hi t') as [|Hin]; [by left|].
    destruct (decide (t' = t)) as [->|Hne]; [by left|right]. by apply list_elem_of_filter.
Qed.

Lemma join_inv_ka n t s :
  join_inv n → n_ka n ≠ KExit → s_tasks s = s_tasks (n_s n) → join_inv (with_ka t s n).
Proof.
  intros Hj Hk Ht. eapply join_inv_task; [done| |exact Ht|done|done]. intros []; try done. cbn. by destruct (n_ka n).
Qed.

Lemma join_inv_reader n rx r s :
  join_inv n → n_reader n = Some rx → s_tasks s = s_tasks (n_s n) → join_inv (with_reader r s n).
Proof.
  intros Hj Hr Ht. eapply join_inv_task; [done| |exact Ht|done|done]. intros []; try done. cbn. by rewrite Hr.
Qed.

Lemma join_inv_step m n n' : nstep m n = Some n' → join_inv n → join_inv n'.
Proof.
  intros E Hj. destruct m as [| |it| | | | | | |i|i|e| | |i| | |i|b]; cbn [nstep] in E.
  - case_match; [done|]. pose proof (writer_move_tasks (n_writer n) (n_s n)) as Ht.
    destruct (writer_move (n_writer n) (n_s n)) as [[w|] s] eqn:Em; simplify_eq/=.
    eapply join_inv_task; [done| |exact Ht|done|done]. intros []; try done. cbn.
    destruct (n_writer n) eqn:Ew; done.
  - destruct (n_reader n) as [rx|] eqn:Er; [cbn in E|done]. case_match; [|done].
    pose proof (reader_move_tasks rx [] (n_s n)) as Ht. destruct (reader_move rx [] (n_s n)). simplify_eq/=.
    by eapply join_inv_reader.
  - destruct (n_reader n) as [rx|] eqn:Er; [cbn in E|done]. case_match; [done|].
    pose proof (reader_move_tasks rx [it] (n_s n)) as Ht. destruct (reader_move rx [it] (n_s n)). simplify_eq/=.
    by eapply join_inv_reader.
  - destruct (n_closer n) as [rx|] eqn:Er; [cbn in E|done].
    pose proof (closer_move_tasks rx (n_s n)) as Ht. destruct (closer_move rx (n_s n)).
    repeat case_match; simplify_eq/=; (eapply join_inv_task; [done| |exact Ht|done|done]);
      intros []; try done; cbn; by rewrite Er.
  - destruct (n_ka n) as [k|k|] eqn:Ek; try done.
    pose proof (ka_poll_tasks k (n_s n)) as Ht. destruct (ka_poll k (n_s n)) as [[t|] s]; simplify_eq/=.
    apply join_inv_ka; [done|by rewrite Ek|exact Ht].
  - destruct (n_ka n) as [k|k|] eqn:Ek; try done. case_match; [done|].
    pose proof (ka_tick_tasks k (n_s n)) as Ht. destruct (ka_tick k (n_s n)) as [t s]; simplify_eq/=.
    apply join_inv_ka; [done|by rewrite Ek|exact Ht].
  - destruct (n_ka n) as [k|k|] eqn:Ek; try done.
    pose proof (ka_pong_tasks k (exited TReader n) (n_s n)) as Ht.
    destruct (ka_pong k (exited TReader n) (n_s n)) as [[t|] s]; simplify_eq/=.
    apply join_inv_ka; [done|by rewrite Ek|exact Ht].
  - destruct (n_ka n) as [k|k|] eqn:Ek; try done.
    pose proof (ka_deadline_tasks k (n_s n)) as Ht. destruct (ka_deadline k (n_s n)) as [t s]; simplify_eq/=.
    apply join_inv_ka; [done|by rewrite Ek|exact Ht].
  - destruct (n_accepts n) as [|rx rest]; [done|]. pose proof (accept_poll_calm rx (n_s n)) as (Ht & _).
    destruct (accept_poll rx (n_s n)) as [[r|] s]; simplify_eq/=.
    by eapply join_inv_task; [done| |exact Ht|done|done].
  - destruct (n_closes n !! i) as [[|ts]|] eqn:Ei; try done. case_match eqn:Ej; [done|]. simplify_eq/=.
    by eapply join_inv_lock.
  - destruct (n_closes n !! i) as [[|[|t0 ts]]|] eqn:Ei; try done.
    + simplify_eq/=. by eapply join_inv_return.
    + apply bind_Some in E as (t & Hf & [= <-]). apply find_elem in Hf as [_ Hf]. by eapply join_inv_joined.
  - destruct (user_event e) eqn:He; simplify_eq/=. destruct (user_calm e He (n_s n)) as (Ht & _).
    by eapply join_inv_task; [done| |exact Ht|done|done].
  - destruct (is_closed (n_s n)); simplify_eq/=; by eapply join_inv_task.
  - destruct (n_checked n); [done|]. simplify_eq/=. by eapply join_inv_task.
  - apply bind_Some in E as (rx & Hi & [= <-]). by eapply join_inv_task.
  - simplify_eq/=. destruct (initiate_shutdown_shut ErrorCode.Normal (n_s n)) as [Ht _].
    eapply join_inv_mono; [|exact Ht|by right|done|done]. done.
  - simplify_eq. by eapply join_inv_task.
  - apply bind_Some in E as (p & _ & E). destruct (open_step_calm p (n_s n)) as (Ht & _).
    destruct (open_step p (n_s n)) as [p' s']. simplify_eq. by eapply join_inv_task; [done| |exact Ht|done|done].
  - simplify_eq. by eapply join_inv_task.
Qed.

Lemma node_new_inv config role :
  node_inv (node_new config role) ∧ join_inv (node_new config role).
Proof.
  unfold node_new, session_new.
  destruct (channel_spec false) as (Hb & _ & Hn). destruct (watch_channel false) as [rx0 x]. cbn [fst snd] in *.
  cbn [shutdown_rx fresh s_shutdown set_shutdown fst snd].
  destruct (subscribe_spec x) as (S1 & V1 & _ & N1). destruct (watch_subscribe x) as [r1 x1].
  destruct (subscribe_spec x1) as (S2 & V2 & _ & N2). cbn in *. destruct (watch_subscribe x1) as [r2 x2].
  destruct (subscribe_spec x2) as (S3 & V3 & _ & N3). cbn in *. destruct (watch_subscribe x2) as [r3 x3]. cbn in *.
  destruct (Config.keepalive_interval config).
  - destruct (subscribe_spec x3) as (S4 & V4 & _ & N4). cbn in *. destruct (watch_subscribe x3) as [r4 x4]. cbn in *.
    destruct (drop_rx_spec rx0 x4) as (V5 & _ & N5). split.
    + split; [split_and!|done]; cbn; [lia|lia|]. unfold rx_ok. cbn. repeat constructor; congruence.
    + constructor; cbn; try done; [|intros; lia]. intros ts [= <-]. split; [|done].
      intros []; right; set_solver.
  - destruct (drop_rx_spec rx0 x3) as (V5 & _ & N5). split.
    + split; [split_and!|done]; cbn; [lia|lia|]. unfold rx_ok. cbn. repeat constructor; congruence.
    + constructor; cbn; try done; [|intros; lia]. intros ts [= <-]. split; [|done].
      intros []; [right; set_solver..|by left].
Qed.

Lemma nrun_inv ms n n' : nrun ms n = Some n' → node_inv n ∧ join_inv n → node_inv n' ∧ join_inv n'.
Proof.
  revert n. induction ms as [|m ms IH]; intros n E Hn; cbn in E; [by injection E as <-|].
  apply bind_Some in E as (n1 & E1 & E). apply (IH n1 E).
  destruct Hn. split; [by eapply nstep_inv|by eapply join_inv_step].
Qed.


(** C22: [close] returns only after every background task has exited: whatever
    the tasks and the users do, and however many calls of [close] overlap, a
    call returns in no state in which the writer, the reader, the closer or the
    keepalive task still runs. *)
Theorem close_joins_tasks config role ms n t :
  nrun ms (node_new config role) = Some n → (0 < n_returned n)%nat → exited t n = true.
Proof.
  intros E Hr. destruct (nrun_inv _ _ _ E (node_new_inv config role)) as [_ Hj].
  by destruct (join_done n Hj Hr t) as [|?%elem_of_nil].
Qed.

(** ** No task exits before the shutdown begins *)

Definition move_ok (m : move) : Prop :=
  match m with MUser e => event_ok e | MItem it => item_ok it | _ => True end.

Section Evolving.
Context {SL : Slack}.

Lemma drop_rx_ok rx : SM_ok (drop_rx rx).
Proof.
  intros s Hs. apply quiet_update; try done. cbn.
  destruct (drop_rx_spec rx (s_shutdown s)) as (_ & -> & _). apply Hs.
Qed.

Lemma drop_closer_ok : SM_ok (sput (λ s : session, set_closer (chan_drop_rx (s_closer s)) s)).
Proof. intros s Hs. apply quiet_update; try done; apply Hs. Qed.
Lemma drop_pong_ok : SM_ok (sput (λ s : session, set_pong (chan_drop_rx (s_pong s)) s)).
Proof. intros s Hs. apply quiet_update; try done; apply Hs. Qed.

Lemma reader_move_ok rx items : Forall item_ok items → SM_ok (reader_move rx items).
Proof.
  intros Hi. unfold reader_move. apply SM_ok_bind; [by apply turn_ok|]. intros [[] ?]; cbn; [apply SM_ok_ret|].
  apply SM_ok_bind; [apply drop_rx_ok|intros _; apply SM_ok_ret].
Qed.

Lemma closer_move_ok rx : SM_ok (closer_move rx).
Proof.
  unfold closer_move. apply SM_ok_bind; [apply closer_turn_ok|]. intros []; [apply SM_ok_ret|].
  apply SM_ok_bind; [apply drop_rx_ok|intros _]. apply SM_ok_bind; [apply drop_closer_ok|intros _; apply SM_ok_ret].
Qed.

Lemma ka_exit_ok rx : SM_ok (ka_exit rx).
Proof.
  unfold ka_exit. apply SM_ok_bind; [apply drop_rx_ok|intros _].
  apply SM_ok_bind; [apply drop_pong_ok|intros _; apply SM_ok_ret].
Qed.

Lemma ka_poll_ok k : SM_ok (ka_poll k).
Proof.
  unfold ka_poll, check_shutdown.
  repeat first [apply SM_ok_ret|apply SM_ok_get|apply ka_exit_ok|apply SM_ok_bind; [|intros ?]|case_match].
Qed.

Lemma ka_tick_ok k : SM_ok (ka_tick k).
Proof. unfold ka_tick. apply SM_ok_bind; [apply ping_ok|]. intros []; [apply SM_ok_ret|apply ka_exit_ok]. Qed.

Lemma ka_pong_ok k hung : SM_ok (ka_pong k hung).
Proof.
  unfold ka_pong. apply SM_ok_bind; [|intros []; apply SM_ok_ret].
  intros s Hs. apply quiet_update; try done; apply Hs.
Qed.

Lemma ka_deadline_ok k : SM_ok (ka_deadline k).
Proof. unfold ka_deadline. apply SM_ok_bind; [by apply initiate_shutdown_ok|intros _; apply ka_exit_ok]. Qed.

Lemma SM_ok_run {A} (m : SM A) s r s' :
  SM_ok m → session_inv s → m s = (r, s') → session_inv s' ∧ evolves s s'.
Proof. intros Hm Hs E. specialize (Hm s Hs). by rewrite E in Hm. Qed.

(** The writer, and a call of [open] that goes on. *)
Definition special (m : move) : bool := match m with MWriter | MOpenAccess _ => true | _ => false end.

(** Every other move evolves the session. *)
Lemma nstep_evolves m n n' :
  nstep m n = Some n' → special m = false → move_ok m → session_inv (n_s n) →
  session_inv (n_s n') ∧ evolves (n_s n) (n_s n').
Proof.
  intros E Hw Hm Hs. destruct m as [| |it| | | | | | |i|i|e| | |i| | |i|b]; try done; cbn [nstep move_ok] in *;
    repeat case_match; simplify_eq/=.
  all: try (apply bind_Some in E as (rx & Erx & E)); repeat case_match; simplify_eq/=.
  all: try (eapply SM_ok_run; [|exact Hs|eassumption];
    first [by apply reader_move_ok; repeat constructor|apply closer_move_ok|apply ka_poll_ok|apply ka_tick_ok
          |apply ka_pong_ok|apply ka_deadline_ok|apply shutdown_rx_ok]).
  all: try (by split).
  - match goal with H : accept_poll _ _ = _ |- _ => apply (SM_ok_run _ _ _ _ (accept_poll_ok _) Hs) in H as [Hs1 He1] end.
    edestruct (drop_rx_ok) as [Hs2 He2]; [exact Hs1|]. split; [exact Hs2|by etrans].
  - by apply set_tasks_ok.
  - by apply handle_ok.
  - by apply drop_rx_ok.
  - by apply initiate_shutdown_ok.
Qed.

(** The writer's moves on the session. *)
Lemma writer_move_ok w w' s s' :
  session_inv s → writer_move w s = (Some w', s') →
  session_inv s' ∧ s_config s' = s_config s ∧
  (s_is_closing s = true → s_is_closing s' = true) ∧
  rx_alive (s_out s') = match w' with WExit _ => false | _ => rx_alive (s_out s) end ∧
  (∀ p, open_ok s p → open_ok s' p).
Proof.
  intros Hs E. pose proof (recv_out_ok s Hs) as [Hr _].
  assert (rx_alive (snd (chan_try_recv (s_out s))) = rx_alive (s_out s)) as Ha by apply rx_alive_try_recv.
  destruct w as [rx sink|rx f sink|rx sink|rx sink|sink]; cbn [writer_move] in E.
  - unfold mbind, SM_bind, sget in E. cbn [fst snd] in E.
    destruct (watch_changed rx (s_shutdown s)); cbn in E; unfold mret, SM_ret in E.
    + by destruct (watch_borrow (s_shutdown s)); simplify_eq.
    + by destruct (fst (chan_try_recv (s_out s))); simplify_eq/=.
  - destruct (write_one f sink) as [[|e] sink']; [unfold mret, SM_ret in E; by simplify_eq|].
    unfold mbind, SM_bind, mret, SM_ret in E. simplify_eq.
    destruct (initiate_shutdown_ok ErrorCode.InternalError ltac:(done) s Hs) as [? He].
    pose proof He as (? & _ & ? & _ & _ & ? & _). split_and!; auto. intros p. by apply evolves_open_ok.
  - unfold mbind, SM_bind, recv_out in E. cbn [fst snd] in E.
    destruct (fst (chan_try_recv (s_out s))) as [f|]; [destruct (fw_feed f sink) as [[|] ?]|];
      unfold mret, SM_ret in E; by simplify_eq/=.
  - unfold mbind, SM_bind, mret, SM_ret in E. cbn in E. simplify_eq.
    destruct (drop_rx_ok rx s Hs) as [[I1 I2 I3 I4 I5 I6 I7 I8 I9] _].
    split_and!; [|done|done|apply rx_alive_drop|done].
    constructor; cbn in *; auto. by rewrite queued_drop.
  - done.
Qed.

End Evolving.

(** The tasks [Session::new] spawns. *)
Definition spawned (config : Config.t) : list Task :=
  match Config.keepalive_interval config with
  | Some _ => [TWriter; TReader; TCloser; TKeepalive]
  | None => [TWriter; TReader; TCloser]
  end.

Record live_inv (config : Config.t) (n : node) : Prop := {
  live_session : ∃ a : Slack, session_inv (SL := a) (n_s n);
  live_opens : Forall (open_ok (n_s n)) (n_opens n);
  live_config : s_config (n_s n) = config;
  live_out : rx_alive (s_out (n_s n)) = negb (exited TWriter n);
  live_writer : waits_w (n_writer n) = [] → s_is_closing (n_s n) = true;
  live_exit : ∀ t, t ∈ spawned config → exited t n = true → s_is_closing (n_s n) = true;
}.

Lemma writer_stops n w s :
  node_inv n → (waits_w (n_writer n) = [] → s_is_closing (n_s n) = true) →
  writer_move (n_writer n) (n_s n) = (Some w, s) → waits_w w = [] → s_is_closing s = true.
Proof.
  intros Hn Hc E Hw. destruct (n_writer n) as [rx sink|rx f sink|rx sink|rx sink|sink] eqn:Ew;
    cbn [writer_move] in E.
  - pose proof (writer_waits _ _ _ Hn Ew) as Hrx. unfold mbind, SM_bind, sget in E. cbn [fst snd] in E.
    destruct (rx_ok_cases _ _ Hrx) as [(Hcl & [rx' Hrx'] & Hb)|[_ Hch]]; [rewrite Hrx' in E|rewrite Hch in E];
      cbn in E; unfold mret, SM_ret in E; [by simplify_eq|].
    destruct (fst (chan_try_recv (s_out (n_s n)))); by simplify_eq/=.
  - destruct (write_one f sink) as [[|e] sink']; [unfold mret, SM_ret in E; by simplify_eq|].
    unfold mbind, SM_bind, mret, SM_ret in E. simplify_eq. apply initiate_shutdown_closing.
  - unfold mbind, SM_bind, recv_out in E. cbn [fst snd] in E.
    destruct (fst (chan_try_recv (s_out (n_s n)))) as [f|]; [destruct (fw_feed f sink) as [[|] ?]|];
      unfold mret, SM_ret in E; simplify_eq; by apply Hc.
  - unfold mbind, SM_bind, mret, SM_ret in E. cbn in E. simplify_eq. by apply Hc.
  - done.
Qed.

(** A move that lets a task exit closes the session. *)
Lemma steps_drop_closing rx s s' : steps_drop rx s s' → s_is_closing s = true → s_is_closing s' = true.
Proof. intros (s1 & (_ & [[Ec _]|(_ & Ec & _)]) & Ec' & _) Hc; rewrite Ec'; cbn; congruence. Qed.

Lemma ka_tick_exit k s s' :
  ka_tick k s = (KExit, s') → rx_alive (s_out s) = false.
Proof.
  unfold ka_tick, ping, mbind, SM_bind, s_send. cbn [fst snd]. rewrite send_ok.
  by destruct (rx_alive (s_out s)).
Qed.

Lemma ka_pong_alive k hung t s s' : ka_pong k hung s = (Some t, s') → t ≠ KExit.
Proof. intros E ->. by apply ka_pong_cases in E as [? _]. Qed.

Lemma nstep_exits m n n' t :
  nstep m n = Some n' → m ≠ MWriter → node_inv n → rx_alive (s_out (n_s n)) = true →
  exited t n = false → exited t n' = true → s_is_closing (n_s n') = true.
Proof.
  intros E Hw Hn Ha Ht Ht'. destruct m as [| |it| | | | | | |i|i|e| | |i| | |i|b]; try done; cbn [nstep] in E;
    try (by repeat (case_match || (apply bind_Some in E as (? & ? & E)) || simplify_eq); destruct t; cbn in *; congruence).
  - destruct (n_reader n) as [rx|] eqn:Er; [cbn in E|done]. case_match; [|done].
    destruct (reader_move rx [] (n_s n)) as [r1 s1] eqn:Em. simplify_eq/=.
    destruct (reader_move_cases _ _ _ _ _ (reader_waits _ _ Hn Er) Em) as [(-> & _)|(_ & _ & Hc)]; [|done].
    destruct t; cbn in *; rewrite ?Er in *; congruence.
  - destruct (n_reader n) as [rx|] eqn:Er; [cbn in E|done]. case_match; [done|].
    destruct (reader_move rx [it] (n_s n)) as [r1 s1] eqn:Em. simplify_eq/=.
    destruct (reader_move_cases _ _ _ _ _ (reader_waits _ _ Hn Er) Em) as [(-> & _)|(_ & _ & Hc)]; [|done].
    destruct t; cbn in *; rewrite ?Er in *; congruence.
  - destruct (n_closer n) as [rx|] eqn:Er; [cbn in E|done].
    destruct (closer_move rx (n_s n)) as [r1 s1] eqn:Em.
    destruct (closer_move_cases _ _ _ _ (closer_waits _ _ Hn Er) Em) as [(-> & _)|(_ & _ & Hc)];
      repeat case_match; simplify_eq/=; try done; destruct t; cbn in *; rewrite ?Er in *; congruence.
  - destruct (n_ka n) as [k|k|] eqn:Ek; try done. destruct (ka_poll k (n_s n)) as [[t1|] s] eqn:Em; simplify_eq/=.
    destruct (ka_poll_cases k t1 _ _ (ka_waits _ _ Hn Ek) Em) as (-> & Hs & Hc). by eapply steps_drop_closing.
  - destruct (n_ka n) as [k|k|] eqn:Ek; try done. case_match; [done|].
    destruct (ka_tick k (n_s n)) as [t1 s] eqn:Em. simplify_eq/=.
    destruct t; cbn in *; try congruence. rewrite Ek in Ht. case_match; try done. subst.
    apply ka_tick_exit in Em. congruence.
  - destruct (n_ka n) as [k|k|] eqn:Ek; try done.
    destruct (ka_pong k _ (n_s n)) as [[t1|] s] eqn:Em; simplify_eq/=.
    apply ka_pong_alive in Em. destruct t; cbn in *; try congruence. by case_match.
  - destruct (n_ka n) as [k|k|] eqn:Ek; try done. destruct (ka_deadline k (n_s n)) as [t1 s] eqn:Em.
    simplify_eq/=. unfold ka_deadline, mbind, SM_bind in Em.
    apply (ka_exit_drop _ (snd (initiate_shutdown ErrorCode.Timeout (n_s n)))) in Em as [_ Hd]; [|reflexivity].
    eapply steps_drop_closing; [exact Hd|]. apply initiate_shutdown_closing.
Qed.

Lemma evolves_facts (s s' : session) :
  evolves s s' → s_config s' = s_config s ∧ (s_is_closing s = true → s_is_closing s' = true) ∧
  rx_alive (s_out s') = rx_alive (s_out s).
Proof. by intros (? & _ & ? & _ & _ & ? & _). Qed.

Lemma writer_kept m n n' : nstep m n = Some n' → m ≠ MWriter → n_writer n' = n_writer n.
Proof.
  intros E Hw. destruct m; try done; cbn [nstep] in E;
    by repeat (case_match || (apply bind_Some in E as (? & ? & E)) || simplify_eq).
Qed.

Lemma live_inv_writer config n n' :
  live_inv config n → node_inv n → nstep MWriter n = Some n' → live_inv config n'.
Proof.
  intros [[a L1] L2 L3 L4 L5 L6] Hn E. cbn [nstep] in E. case_match; [done|].
  destruct (writer_move (n_writer n) (n_s n)) as [[w|] s] eqn:Em; simplify_eq/=.
  destruct (writer_move_ok (SL := a) _ _ _ _ L1 Em) as (Hs & Hc & Hcl & Ha & Ho).
  assert (waits_w w = [] → s_is_closing s = true) as Hw.
  { by apply (writer_stops _ _ _ Hn L5 Em). }
  constructor; cbn [n_s n_writer n_opens with_writer]; [by exists a| |by rewrite Hc| |done|].
  - by eapply Forall_impl.
  - rewrite Ha, L4. destruct (n_writer n); [by destruct w..|done].
  - intros t Hin Ht. destruct t; [|apply Hcl, (L6 _ Hin), Ht..]. apply Hw. by destruct w.
Qed.

Lemma live_inv_open config i n n' :
  live_inv config n → nstep (MOpenAccess i) n = Some n' → live_inv config n'.
Proof.
  intros [[a L1] L2 L3 L4 L5 L6] E. cbn [nstep] in E. apply bind_Some in E as (p & Hi & E).
  destruct (open_step p (n_s n)) as [p' s'] eqn:Eo. simplify_eq.
  destruct (open_step_ok a p p' _ _ Eo L1 (Forall_lookup_1 _ _ _ _ L2 Hi)) as (Hs & He & Hp & _).
  pose proof He as (Hc & _ & Hcl & _ & _ & Ha & _). constructor; cbn; auto.
  - by exists (a + open_inflight p)%nat.
  - apply Forall_insert; [|done]. eapply Forall_impl; [|exact L2]. intros q. by apply evolves_open_ok.
  - by rewrite Ha.
  - intros t Hin Ht. apply Hcl, (L6 t Hin). by destruct t.
Qed.

(** The calls of [open] of other moves. *)
Lemma opens_kept m n n' :
  nstep m n = Some n' → special m = false → n_opens n' = n_opens n ∨ n_opens n' = n_opens n ++ [OpClosed].
Proof.
  intros E Hm. destruct m; try done; cbn [nstep] in E;
    repeat (case_match || (apply bind_Some in E as (? & ? & E)) || simplify_eq); cbn; auto.
Qed.

Lemma live_inv_step config m n n' :
  nstep m n = Some n' → move_ok m → node_inv n → live_inv config n → live_inv config n'.
Proof.
  intros E Hm Hn HL. destruct (special m) eqn:Hw.
  { destruct m; try done; [by eapply live_inv_writer|by eapply live_inv_open]. }
  assert (m ≠ MWriter) as Hnw by (by intros ->). destruct HL as [[a L1] L2 L3 L4 L5 L6].
  destruct (nstep_evolves (SL := a) m n n' E Hw Hm L1) as [Hs He]. pose proof He as (Hc & Hcl & Ha)%evolves_facts.
  pose proof (writer_kept _ _ _ E Hnw) as Ew.
  constructor; [by exists a| |congruence| |rewrite Ew; auto|].
  - assert (Forall (open_ok (n_s n')) (n_opens n)) as Ho
      by (eapply Forall_impl; [|exact L2]; intros p; by apply evolves_open_ok).
    destruct (opens_kept m n n' E Hw) as [-> | ->]; [done|]. apply Forall_app. split; [done|by constructor].
  - rewrite Ha, L4. unfold exited. by rewrite Ew.
  - intros t Hin Ht. destruct (s_is_closing (n_s n)) eqn:Hcn; [auto|].
    destruct (exited t n) eqn:Htn; [specialize (L6 t Hin Htn); congruence|].
    eapply nstep_exits; [exact E|done|done| |exact Htn|exact Ht].
    rewrite L4. destruct (exited TWriter n) eqn:Ewr; [|done].
    unfold exited in Ewr. specialize (L5 ltac:(by destruct (n_writer n))). congruence.
Qed.

Lemma live_inv_new config role : Config.valid config → live_inv config (node_new config role).
Proof.
  intros Hv. pose proof (start_spec config role Hv : session_inv (start config role : session) ∧ _) as (Hs & Hc & _).
  assert (rx_alive (s_out (start config role : session)) = true) as Ha.
  { unfold start, session_new. destruct (watch_channel false).
    destruct (Config.keepalive_interval config); cbn; apply rx_alive_new. }
  unfold node_new. destruct (session_new config role) as [rxs s] eqn:E.
  assert (s = start config role) as -> by (unfold start; by rewrite E).
  constructor; cbn; auto; [by exists no_slack|done|].
  intros t Hin Ht. unfold spawned in Hin. unfold session_new in E. destruct (watch_channel false).
  destruct (Config.keepalive_interval config); injection E as <- E; cbn in *;
    destruct t; try done; set_solver.
Qed.

Lemma nrun_live config ms n n' :
  nrun ms n = Some n' → Forall move_ok ms → node_inv n → live_inv config n →
  node_inv n' ∧ live_inv config n'.
Proof.
  revert n. induction ms as [|m ms IH]; intros n E Hm Hn HL; cbn in E; [by injection E as <-|].
  apply bind_Some in E as (n1 & E1 & E). apply Forall_cons_1 in Hm as [Hm Hms].
  apply (IH n1 E Hms); [by eapply nstep_inv|by eapply live_inv_step].
Qed.

(** C19: The background tasks live as long as the session.  Whatever the peer,
    the connection and the users do, with calls of [open] that overlap access by
    access and calls of [accept] held up before they subscribe: as long as the
    shutdown has not begun every task [Session::new] spawned is still running, and
    each of them, like each [accept] that has subscribed, has seen the current
    version of the shutdown watch, so it waits; once the shutdown has begun, every
    task that is still in its loop finds it signalled.  The watch has exactly one
    receiver per running task and subscribed call. *)
Theorem tasks_live config role ms n :
  Config.valid config → nrun ms (node_new config role) = Some n → Forall move_ok ms →
  receivers (s_shutdown (n_s n)) = length (held n) ∧
  (s_is_closing (n_s n) = false →
     (∀ t, t ∈ spawned config → exited t n = false) ∧
     Forall (λ rx, watch_changed rx (s_shutdown (n_s n)) = None) (waits n ++ n_accepts n)) ∧
  (s_is_closing (n_s n) = true →
     Forall (λ rx, is_Some (watch_changed rx (s_shutdown (n_s n)))) (waits n) ∧
     (waits n ≠ [] → watch_borrow (s_shutdown (n_s n)) = true)).
Proof.
  intros Hv E Hm. destruct (node_new_inv config role) as [H0 _].
  destruct (nrun_live config ms _ _ E Hm H0 (live_inv_new config role Hv)) as [[(Hr & _ & Hf) Hu] HL].
  split_and!; [done|intros Hc; split|intros Hc; split].
  - intros t Hin. destruct (exited t n) eqn:Ht; [|done]. by rewrite (live_exit _ _ HL t Hin Ht) in Hc.
  - specialize (Hu Hc). apply Forall_app. split; (eapply Forall_impl; [|done]); intros rx Hrx;
      destruct (rx_ok_cases _ _ Hrx) as [(? & _)|[_ ?]]; congruence.
  - eapply Forall_impl; [|exact Hf]. intros rx Hrx. destruct (rx_ok_cases _ _ Hrx) as [(_ & ? & _)|[? _]]; congruence.
  - intros Hne. destruct (waits n) as [|rx ws]; [done|]. apply Forall_cons_1 in Hf as [Hrx _].
    destruct (rx_ok_cases _ _ Hrx) as [(_ & _ & ?)|[? _]]; congruence.
Qed.

End Tasks.

(** ** Concrete runs *)

Section Witnesses.

#[local] Existing Instance documented_bitflags.

Abbreviation node0 :=
  (node (W := option Waker) (C := list_chan) (X := cell) (R := nat) (K := mem_sink)).

Definition cfg_tasks : Config.t := Config.mk 8 4 16 (Some 1) 1 1.

Lemma cfg_tasks_valid : Config.valid cfg_tasks.
Proof. repeat split; vm_compute; congruence. Qed.

Definition client_node : node0 := node_new cfg_tasks Role.Client.

(** An [accept] waits, an [open] has queued its SYN, the writer has taken it,
    the keepalive task waits for a pong; then two users call [close]. *)
Definition one_open (i : nat) : list (move (R := nat)) := MOpen :: replicate 6 (MOpenAccess i).

Definition calls : list (move (R := nat)) := MAccept :: MSubscribe :: one_open 0 ++ [MWriter; MTick].

Definition busy : list (move (R := nat)) := calls ++ [MClose; MClose].

(** On the way the connection stalls and takes bytes again, and one more [open]
    is turned away. *)
Definition wind_down : list (move (R := nat)) :=
  [MConn true; MLock 0; MReader; MConn false; MWriter; MPong; MWriter; MKeepalive; MOpen; MOpenAccess 1;
   MWriter; MWriter; MJoin 0; MAcceptPoll; MWriter; MJoin 0; MCloser; MWriter; MJoin 0; MJoin 0; MJoin 0; MLock 0;
   MJoin 0].

Definition busy_node : node0 := default client_node (nrun busy client_node).
Definition rest_node : node0 := default client_node (nrun wind_down busy_node).



Lemma close_joins_tasks_witness : exited TWriter rest_node = true.
Proof.
  apply (close_joins_tasks cfg_tasks Role.Client (busy ++ wind_down)); [vm_compute; reflexivity|].
  vm_compute. lia.
Defined.

Definition open_node : node0 := default client_node (nrun calls client_node).

Lemma open_runs : nrun calls client_node = Some open_node.
Proof. vm_compute. reflexivity. Qed.

Lemma open_not_closing : s_is_closing (n_s open_node) = false.
Proof. vm_compute. reflexivity. Qed.

Lemma tasks_live_witness :
  s_is_closing (n_s open_node) = false ∧ exited TKeepalive open_node = false ∧
  receivers (s_shutdown (n_s open_node)) = length (held open_node).
Proof.
  assert (Forall move_ok calls) as Hm by repeat constructor.
  assert (TKeepalive ∈ spawned cfg_tasks) as Hk by (apply list_elem_of_In; cbn; auto).
  pose proof (tasks_live cfg_tasks Role.Client calls open_node cfg_tasks_valid open_runs Hm) as H.
  split_and!; [exact open_not_closing| |exact (proj1 H)].
  exact (proj1 (proj1 (proj2 H) open_not_closing) TKeepalive Hk).
Defined.

End Witnesses.
