(* ===== verification/UnitTests.v ===== *)
(** * The crate's own tests ([#[cfg(test)]] in [src/])

    Each unit test as a function of the modelled code that tells whether all its
    assertions hold, and the property test of the codec as a function of its
    generated input.  The unit tests are evaluated; the property test, which the
    crate samples, is proved for every input its generators can produce. *)

From S2P Require Import Prelude Machine Errors Ids Frames Header Codec Crates Window RecvBuffer.
From Stdlib Require Import ZArith Lia.
From Stdlib Require Strings.String.

Local Open Scope Z_scope.

#[global] Instance AcquireOutcome_eq_dec : EqDecision AcquireOutcome.
Proof. solve_decision. Defined.

#[global] Instance Header_eq_dec : EqDecision Header.t.
Proof. solve_decision. Defined.

(** [assert_eq!] as a boolean. *)
Notation "x '==' y" := (bool_decide (x = y)) (at level 70, no associativity).

(** [Bytes::from_static(b"..")]. *)
Definition bstr (s : string) : Bytes := String.list_byte_of_string s.

(** The further methods of [bitflags!] the tests call: union and truncation to
    the declared bits. *)
Class BitflagsTestOps : Type := {
  bitor : Flags.t → Flags.t → Flags.t;
  from_bits_truncate : Z → Flags.t;
  bitor_spec : ∀ f g, bitor f g = Flags.mk (Z.lor (Flags.bits f) (Flags.bits g));
  from_bits_truncate_spec : ∀ b, from_bits_truncate b = Flags.mk (Z.land b Flags.all_bits);
}.

#[export] Program Instance documented_bitflags_tests : BitflagsTestOps := {|
  bitor f g := Flags.mk (Z.lor (Flags.bits f) (Flags.bits g));
  from_bits_truncate b := Flags.mk (Z.land b Flags.all_bits);
|}.
Solve All Obligations with done.

(** ** [src/flow/window.rs] *)

Module WindowTests.
Section WindowTests.
Context {W : Type} {AW : AtomicWakerOps W}.

(** [poll_fn(|cx| match w.poll_acquire(cx, n) { Acquired(n) => .., _ => unreachable!() })]:
    [None] is the panic. *)
Definition acquire_now (n : Z) (w : SendWindow.t W) : option Z * SendWindow.t W :=
  match SendWindow.poll_acquire 0 n w with
  | (Acquired n, w) => (Some n, w)
  | (_, w) => (None, w)
  end.

Definition send_window_basic : bool :=
  let w := SendWindow.new 100 in
  let '(n, w) := acquire_now 30 w in
  let '(n', w) := acquire_now 200 w in
  (n == Some 30) && (n' == Some 70).

(** A spawned task that polls once when it starts and once more when it is
    woken; [early] tells whether it starts before [w] is changed by [f]. *)
Definition spawn_poll (early : bool) (f : SendWindow.t W → option Waker * SendWindow.t W)
    (w : SendWindow.t W) : option AcquireOutcome :=
  if early then
    match SendWindow.poll_acquire 1 16 w with
    | (Pending, w) =>
      let '(woken, w) := f w in
      if woken == Some 1%nat then Some (fst (SendWindow.poll_acquire 1 16 w)) else None
    | (o, _) => Some o
    end
  else Some (fst (SendWindow.poll_acquire 1 16 (snd (f w)))).

Definition send_window_pending_then_grant (early : bool) : bool :=
  let w := SendWindow.new 0 in
  spawn_poll early (SendWindow.grant 8) w == Some (Acquired 8).

Definition send_window_close_wakes (early : bool) : bool :=
  let w := SendWindow.new 0 in
  spawn_poll early SendWindow.close w == Some Closed.

End WindowTests.

Definition recv_window_threshold : bool :=
  let w := RecvWindow.new 100 in
  let '(r1, w) := RecvWindow.on_consume 10 w in
  let '(r2, w) := RecvWindow.on_consume 10 w in
  let '(r3, w) := RecvWindow.on_consume 30 w in
  let '(r4, w) := RecvWindow.on_consume 10 w in
  (r1 == None) && (r2 == None) && (r3 == Some 50) && (r4 == None).

Definition recv_window_zero_bytes_noop : bool :=
  let w := RecvWindow.new 100 in
  fst (RecvWindow.on_consume 0 w) == None.

End WindowTests.

(** ** [src/util/id.rs] *)

Module IdTests.

Definition allocates_with_correct_parity : bool :=
  let client := StreamIdAllocator.new Role.Client in
  let '(a1, client) := StreamIdAllocator.allocate client in
  let '(a2, client) := StreamIdAllocator.allocate client in
  let '(a3, client) := StreamIdAllocator.allocate client in
  let server := StreamIdAllocator.new Role.Server in
  let '(b1, server) := StreamIdAllocator.allocate server in
  let '(b2, server) := StreamIdAllocator.allocate server in
  (a1 == Some 1) && (a2 == Some 3) && (a3 == Some 5) && (b1 == Some 2) && (b2 == Some 4).

Definition role_owns_check : bool :=
  Role.owns Role.Client 1 && negb (Role.owns Role.Client 2) && Role.owns Role.Server 2 &&
  negb (Role.owns Role.Server 0) && negb (Role.owns Role.Server 1).

End IdTests.

(** ** [src/protocol/header.rs] *)

Module HeaderTests.
Section HeaderTests.
Context {BF : BitflagsOps} {BT : BitflagsTestOps}.

Definition roundtrip : bool :=
  let h := Header.mk PROTOCOL_VERSION FrameType.Data (bitor Flags.SYN Flags.ACK) 0xDEADBEEF 12345 in
  let buf := replicate HEADER_LEN Byte.x00 in
  let buf := Header.encode h buf in
  match Header.decode buf with Ok decoded => h == decoded | Err _ => false end.

Definition rejects_bad_version : bool :=
  let buf := replicate HEADER_LEN Byte.x00 in
  let buf := <[0%nat := u8_of 99]> buf in
  match Header.decode buf with
  | Err (Error.Protocol msg) => msg == "unsupported protocol version"%string
  | _ => false
  end.

Definition rejects_unknown_type : bool :=
  let buf := replicate HEADER_LEN Byte.x00 in
  let buf := <[0%nat := u8_of PROTOCOL_VERSION]> buf in
  let buf := <[1%nat := u8_of 99]> buf in
  match Header.decode buf with
  | Err (Error.Protocol msg) => msg == "unknown frame type"%string
  | _ => false
  end.

End HeaderTests.
End HeaderTests.

(** ** [src/stream/recv.rs] *)

Module RecvTests.

(** [None] when [read_into] does not finish. *)
Definition read_n (buf : RecvBuffer.t) (n : nat) : option (list byte * RecvBuffer.t) :=
  match RecvBuffer.read_into buf (ReadBuf.mk [] n) with
  | Some (read, rb, buf) => Some (take read (ReadBuf.filled rb), buf)
  | None => None
  end.

Definition drains_in_order : bool :=
  let b := RecvBuffer.new in
  let b := RecvBuffer.push (bstr "hello ") b in
  let b := RecvBuffer.push (bstr "world") b in
  match read_n b 100 with
  | Some (out, b) => (out == bstr "hello world") && RecvBuffer.is_empty b
  | None => false
  end.

Definition supports_partial_reads : bool :=
  let b := RecvBuffer.new in
  let b := RecvBuffer.push (bstr "abcdef") b in
  match read_n b 3 with
  | None => false
  | Some (out, b) =>
    (out == bstr "abc") && negb (RecvBuffer.is_empty b) &&
    match read_n b 100 with
    | Some (out, _) => out == bstr "def"
    | None => false
    end
  end.

Definition ignores_empty_pushes : bool :=
  let b := RecvBuffer.new in
  let b := RecvBuffer.push [] b in
  RecvBuffer.is_empty b.

End RecvTests.

(** ** [src/protocol/codec.rs] *)

Module CodecTests.
Section CodecTests.
Context {BF : BitflagsOps} {BT : BitflagsTestOps}.

(** [None] when an [unwrap] panics. *)
Definition roundtrip_one (frame : Frame.t) : option Frame.t :=
  let codec := FrameCodec.default in
  match FrameCodec.encode codec frame [] with
  | (Ok _, buf) =>
    match fst (FrameCodec.decode codec buf) with Ok f => f | Err _ => None end
  | (Err _, _) => None
  end.

Definition data_roundtrip : bool :=
  let payload := bstr "hello, world" in
  let frame := Frame.Data 7 (bitor Flags.SYN Flags.ACK) payload in
  match roundtrip_one frame with
  | Some (Frame.Data stream_id flags out) =>
    (stream_id == 7) && (flags == bitor Flags.SYN Flags.ACK) && (out == payload)
  | _ => false
  end.

Definition empty_data_roundtrip : bool :=
  let frame := Frame.fin 11 in
  match roundtrip_one frame with
  | Some (Frame.Data stream_id flags payload) =>
    (stream_id == 11) && (flags == Flags.FIN) && (payload == [])
  | _ => false
  end.

Definition window_update_roundtrip : bool :=
  match roundtrip_one (Frame.window_update 3 (64 * 1024)) with
  | Some (Frame.WindowUpdate stream_id _ delta) => (stream_id == 3) && (delta == 64 * 1024)
  | _ => false
  end.

Definition ping_roundtrip : bool :=
  match roundtrip_one (Frame.ping 0xCAFEBABE) with
  | Some (Frame.Ping flags opaque) => (flags == Flags.empty) && (opaque == 0xCAFEBABE)
  | _ => false
  end &&
  match roundtrip_one (Frame.pong 0xCAFEBABE) with
  | Some (Frame.Ping flags opaque) => (flags == Flags.ACK) && (opaque == 0xCAFEBABE)
  | _ => false
  end.

Definition goaway_roundtrip : bool :=
  match roundtrip_one (Frame.go_away ErrorCode.FlowControlError) with
  | Some (Frame.GoAway error_code) => error_code == ErrorCode.FlowControlError
  | _ => false
  end.

Definition partial_decode_returns_none : bool :=
  let codec := FrameCodec.default in
  let buf := u8_of <$> [1; 0; 0; 0] in
  match fst (FrameCodec.decode codec buf) with Ok None => true | _ => false end.

Definition enforces_max_payload : bool :=
  let codec := FrameCodec.new 8 in
  let frame := Frame.Data 1 Flags.empty (bstr "too long payload") in
  match fst (FrameCodec.encode codec frame []) with
  | Err (Error.Protocol _) => true
  | _ => false
  end.

(** *** The property test *)

(** What the generators draw: the arguments of their [prop_map]. *)
Inductive arb : Type :=
| ADataFrame (id : Z) (bits : byte) (data : list byte)
| AWindowUpdate (id delta : Z)
| APing (is_ack : bool) (op : Z)
| AGoAway (c : Z).

(** The ranges of [any::<u32>()] and of the payload's length. *)
Definition arb_ok (a : arb) : Prop :=
  match a with
  | ADataFrame id _ data => is_u32 id ∧ (length data < 1024)%nat
  | AWindowUpdate id delta => is_u32 id ∧ is_u32 delta
  | APing _ op => is_u32 op
  | AGoAway c => is_u32 c
  end.

Definition arb_flags (bits : byte) : Flags.t := from_bits_truncate (Z.land (u8_val bits) 0x000F).

Definition arb_frame (a : arb) : Frame.t :=
  match a with
  | ADataFrame id bits data => Frame.Data id (arb_flags bits) data
  | AWindowUpdate id delta => Frame.window_update id delta
  | APing is_ack op => if is_ack then Frame.pong op else Frame.ping op
  | AGoAway c => Frame.go_away (ErrorCode.from_u32 c)
  end.

(** The comparison of a decoded frame with the one encoded. *)
Definition same_frame (a b : Frame.t) : bool :=
  match a, b with
  | Frame.Data ai af ap, Frame.Data bi bf bp => (ai == bi) && (af == bf) && (ap == bp)
  | Frame.WindowUpdate ai _ ad, Frame.WindowUpdate bi _ bd => (ai == bi) && (ad == bd)
  | Frame.Ping af ao, Frame.Ping bf bo => (af == bf) && (ao == bo)
  | Frame.GoAway a, Frame.GoAway b => a == b
  | _, _ => false
  end.

Definition frame_codec_roundtrip (frames : list Frame.t) : bool :=
  let codec := FrameCodec.new ABSOLUTE_MAX_PAYLOAD in
  match FrameCodec.encode_all codec frames [] with
  | (Err _, _) => false
  | (Ok _, buf) =>
    match FrameCodec.decode_all codec buf with
    | (_, Some _, _) => false
    | (decoded, None, buf) =>
      (length buf == 0%nat) && (length decoded == length frames) &&
      forallb (λ p, same_frame p.1 p.2) (zip decoded frames)
    end
  end.

End CodecTests.
End CodecTests.

(** ** The tests pass *)

Section Pass.
Context {BF : BitflagsOps} {BT : BitflagsTestOps}.
Context {W : Type} {AW : AtomicWakerOps W}.

(** What the tests see of the generated flag methods is what their
    documentation says. *)
Lemma header_decode_documented bytes :
  Header.decode bytes = Header.decode (BF := documented_bitflags) bytes.
Proof. unfold Header.decode. by rewrite from_bits_spec. Qed.

Lemma codec_decode_documented c src :
  FrameCodec.decode c src = FrameCodec.decode (BF := documented_bitflags) c src.
Proof. unfold FrameCodec.decode. by rewrite header_decode_documented. Qed.

Lemma roundtrip_one_documented f :
  CodecTests.roundtrip_one f = CodecTests.roundtrip_one (BF := documented_bitflags) f.
Proof. unfold CodecTests.roundtrip_one. destruct (FrameCodec.encode _ _ _) as [[] ?]; [|done]. by rewrite codec_decode_documented. Qed.

(** Every unit test of the crate passes on the model: the windows, in both
    schedules of the tests that spawn a task, the id allocator and the roles,
    the header, the receive buffer and the codec. *)
Theorem unit_tests_pass :
  WindowTests.send_window_basic (W := W) = true ∧
  (∀ early, WindowTests.send_window_pending_then_grant (W := W) early = true) ∧
  (∀ early, WindowTests.send_window_close_wakes (W := W) early = true) ∧
  WindowTests.recv_window_threshold = true ∧ WindowTests.recv_window_zero_bytes_noop = true ∧
  IdTests.allocates_with_correct_parity = true ∧ IdTests.role_owns_check = true ∧
  HeaderTests.roundtrip = true ∧ HeaderTests.rejects_bad_version = true ∧
  HeaderTests.rejects_unknown_type = true ∧
  RecvTests.drains_in_order = true ∧ RecvTests.supports_partial_reads = true ∧
  RecvTests.ignores_empty_pushes = true ∧
  CodecTests.data_roundtrip = true ∧ CodecTests.empty_data_roundtrip = true ∧
  CodecTests.window_update_roundtrip = true ∧ CodecTests.ping_roundtrip = true ∧
  CodecTests.goaway_roundtrip = true ∧ CodecTests.partial_decode_returns_none = true ∧
  CodecTests.enforces_max_payload = true.
Proof.
  assert (bitor Flags.SYN Flags.ACK = Flags.mk 3) as Hor by (rewrite bitor_spec; reflexivity).
  split_and!; try (vm_compute; reflexivity).
  - intros [].
    + unfold WindowTests.send_window_pending_then_grant, WindowTests.spawn_poll, SendWindow.poll_acquire, SendWindow.grant.
      cbn. by rewrite wake_wakes, registered_register.
    + reflexivity.
  - intros [].
    + unfold WindowTests.send_window_close_wakes, WindowTests.spawn_poll, SendWindow.poll_acquire, SendWindow.close.
      cbn. by rewrite wake_wakes, registered_register.
    + reflexivity.
  - unfold HeaderTests.roundtrip. rewrite Hor, header_decode_documented. vm_compute. reflexivity.
  - unfold CodecTests.data_roundtrip. rewrite Hor, roundtrip_one_documented. vm_compute. reflexivity.
  - unfold CodecTests.empty_data_roundtrip. rewrite roundtrip_one_documented. vm_compute. reflexivity.
  - unfold CodecTests.window_update_roundtrip. rewrite roundtrip_one_documented. vm_compute. reflexivity.
  - unfold CodecTests.ping_roundtrip. rewrite !roundtrip_one_documented. vm_compute. reflexivity.
  - unfold CodecTests.goaway_roundtrip. rewrite roundtrip_one_documented. vm_compute. reflexivity.
Qed.

Lemma arb_frame_sendable a :
  CodecTests.arb_ok a →
  FrameCodec.sendable (FrameCodec.new ABSOLUTE_MAX_PAYLOAD) (CodecTests.arb_frame a) ∧
  Frame.canonical (CodecTests.arb_frame a).
Proof.
  assert (∀ b, Flags.wf (from_bits_truncate b)) as Hfl.
  { intros b. rewrite from_bits_truncate_spec. unfold Flags.wf. cbn [Flags.bits].
    by rewrite <- Z.land_assoc, Z.land_lnot_diag, Z.land_0_r. }
  unfold FrameCodec.sendable. destruct a as [i b data|i d|[] o|c]; cbn [CodecTests.arb_ok CodecTests.arb_frame];
    intros Ha; (split; [split|]); cbn in *; unfold ABSOLUTE_MAX_PAYLOAD; try done; try lia.
  - split; [apply Ha|apply Hfl].
  - by destruct Ha.
  - unfold ErrorCode.wf. by rewrite ErrorCode.as_u32_from_u32.
  - by apply ErrorCode.from_u32_canonical.
Qed.

Lemma same_frame_refl f : CodecTests.same_frame f f = true.
Proof. destruct f; cbn; by rewrite ?bool_decide_true. Qed.

(** The crate's property test of the codec holds for every input, not only
    for the sampled ones: any number of frames of any kind with any ids, flags,
    deltas and error codes and payloads of any bytes the generators allow are
    encoded and decoded back, one by one, with nothing left over. *)
Lemma frame_codec_proptest (inputs : list CodecTests.arb) :
  Forall CodecTests.arb_ok inputs →
  CodecTests.frame_codec_roundtrip (CodecTests.arb_frame <$> inputs) = true.
Proof.
  intros Hin. set (fs := CodecTests.arb_frame <$> inputs). set (c := FrameCodec.new ABSOLUTE_MAX_PAYLOAD).
  assert (FrameCodec.wf c) as Hc by (by apply FrameCodec.new_wf).
  assert (Forall (λ f, FrameCodec.sendable c f ∧ Frame.canonical f) fs) as Hfs.
  { apply Forall_fmap. eapply Forall_impl; [|exact Hin]. intros a. apply arb_frame_sendable. }
  apply list.Forall_and in Hfs as [Hs Hcan].
  assert (Frame.normalize <$> fs = fs) as Hn.
  { clear Hs. induction Hcan as [|f l Hf _ IH]; [done|]. cbn. rewrite IH. by rewrite Frame.normalize_canonical. }
  unfold CodecTests.frame_codec_roundtrip. fold c. rewrite FrameCodec.encode_all_sendable by done.
  change ([] ++ mjoin (FrameCodec.wire <$> fs)) with (FrameCodec.wire_all fs).
  rewrite <- (app_nil_r (FrameCodec.wire_all fs)), FrameCodec.decode_all_frames by done.
  rewrite Hn, !bool_decide_true by done. cbn.
  clear. induction fs as [|f l IH]; [done|]. cbn. by rewrite same_frame_refl, IH.
Qed.

End Pass.

Section Witnesses.

#[local] Existing Instance documented_bitflags.

Lemma frame_codec_proptest_witness :
  CodecTests.frame_codec_roundtrip (CodecTests.arb_frame <$>
    [CodecTests.ADataFrame 5 Byte.xff [Byte.x01]; CodecTests.AGoAway 99; CodecTests.APing true 7]) = true.
Proof. apply frame_codec_proptest. repeat constructor; vm_compute; congruence. Defined.

End Witnesses.
