(* ===== verification/Pair.v ===== *)
(** * What two sessions know of each other's streams

    An abstraction of two sessions joined by two ordered wires.  Of a session
    only a [view] is kept: the stream ids it has seen, those it has registered,
    those that can still receive and those a user may still write to.  Frames
    travel on the wires; a session emits frames and handles the ones that
    arrive.  The invariant says that a frame that carries bytes always finds a
    stream that can take them, and a SYN an id that is new. *)

From S2P Require Import Prelude Machine Errors Ids Frames.
From Stdlib Require Import ZArith Lia.

Local Open Scope Z_scope.

(** The stream a [Data] frame is for. *)
Definition fid (f : Frame.t) : option StreamId :=
  match f with Frame.Data i _ _ => Some i | _ => None end.

Definition carries (i : StreamId) (f : Frame.t) : Prop := fid f = Some i ∧ Frame.payload f ≠ [].
Definition ends (i : StreamId) (f : Frame.t) : Prop := f = Frame.fin i ∨ f = Frame.rst i.
Definition harmless (f : Frame.t) : Prop :=
  match f with Frame.WindowUpdate _ _ _ | Frame.Ping _ _ => True | _ => False end.
Definition pinging (f : Frame.t) : Prop := match f with Frame.Ping _ _ => True | _ => False end.

Lemma pinging_harmless w : Forall pinging w → Forall harmless w.
Proof. apply Forall_impl. by intros []. Qed.

(** The frames sessions exchange until one of them shuts down. *)
Definition shape (f : Frame.t) : Prop :=
  match f with
  | Frame.Data i fl p =>
    i ≠ 0 ∧ (f = Frame.syn i ∨ f = Frame.ack i ∨ ends i f ∨ fl = Flags.empty)
  | Frame.GoAway _ => False
  | _ => True
  end.

Definition quiet (i : StreamId) (w : list Frame.t) : Prop := Forall (λ f, ¬ carries i f) w.
Definition silent (i : StreamId) (w : list Frame.t) : Prop := Forall (λ f, fid f ≠ Some i) w.
Definition mentions (i : StreamId) (w : list Frame.t) : Prop := Exists (λ f, fid f = Some i) w.

Record view : Type := mk_view {
  v_own : StreamId → Prop;
  v_next : StreamId;
  v_known : StreamId → Prop;
  v_reg : StreamId → Prop;
  v_recv : StreamId → Prop;
  v_wr : StreamId → Prop;
}.

(** No stream is gained, and those that stay registered receive as before. *)
Definition shrinks (X X' : view) : Prop :=
  v_own X' = v_own X ∧ v_next X' = v_next X ∧
  ∀ i, (v_known X' i ↔ v_known X i) ∧ (v_wr X' i → v_wr X i) ∧ (v_reg X' i → v_reg X i) ∧
    (v_reg X' i → v_recv X i → v_recv X' i).

(** A stream [i] is added, open in both directions. *)
Definition gains (i : StreamId) (X X' : view) : Prop :=
  v_own X' = v_own X ∧ v_recv X' i ∧ v_known X' i ∧
  ∀ j, j ≠ i → (v_known X' j ↔ v_known X j) ∧ (v_wr X' j → v_wr X j) ∧ (v_reg X' j → v_reg X j) ∧
    (v_reg X' j → v_recv X j → v_recv X' j).

(** What a session does on its own, with the frames it queues. *)
Inductive emit (X X' : view) : list Frame.t → Prop :=
| E_quiet fs : shrinks X X' → Forall harmless fs → emit X X' fs
| E_ack i : shrinks X X' → v_known X i → i ≠ 0 → emit X X' [Frame.ack i]
| E_data i p : shrinks X X' → v_known X i → i ≠ 0 → v_wr X i → emit X X' [Frame.Data i Flags.empty p]
| E_end i f : shrinks X X' → v_known X i → i ≠ 0 → ¬ v_wr X' i → ends i f → emit X X' [f]
| E_open i :
    gains i X X' → v_own X i → i ≠ 0 → v_next X = i → v_next X' = i + 2 → emit X X' [Frame.syn i].

(** What it does with a frame that arrives. *)
Inductive handles (X X' : view) : Frame.t → list Frame.t → Prop :=
| H_harmless f fs : shrinks X X' → harmless f → Forall pinging fs → handles X X' f fs
| H_refuse i : shrinks X X' → ¬ v_wr X' i → handles X X' (Frame.syn i) [Frame.rst i]
| H_accept i : gains i X X' → v_next X' = v_next X → handles X X' (Frame.syn i) []
| H_unknown i f fs :
    shrinks X X' → fid f = Some i → f ≠ Frame.syn i → ¬ v_wr X i → ¬ v_reg X' i → fs = [] ∨ fs = [Frame.rst i] →
    handles X X' f fs
| H_deliver i f :
    fid f = Some i → f ≠ Frame.syn i →
    v_own X' = v_own X → v_next X' = v_next X →
    (∀ j, (v_known X' j ↔ v_known X j) ∧ (v_wr X' j → v_wr X j) ∧ (v_reg X' j → v_reg X j) ∧
       (v_reg X' j → v_recv X j → v_recv X' j ∨ j = i ∧ ends i f)) →
    handles X X' f [].

(** ** The invariant *)

(** Of the wire [P] from [X] to [Y], with [Q] the wire back. *)
Record dir_inv (X Y : view) (P Q : list Frame.t) : Prop := {
  d_shape : Forall shape P;
  d_reg : ∀ i, v_reg Y i → v_known Y i;
  d_recv : ∀ i, v_reg Y i → v_recv Y i ∨ quiet i P ∧ ¬ v_wr X i;
  d_end : ∀ i w1 f w2, P = w1 ++ f :: w2 → ends i f → quiet i w2 ∧ ¬ v_wr X i;
  d_syn : ∀ i w1 w2, P = w1 ++ Frame.syn i :: w2 →
    v_own X i ∧ (v_reg X i → v_recv X i) ∧ ¬ v_known Y i ∧
    silent i w1 ∧ Frame.syn i ∉ w2 ∧ silent i Q;
  d_next : ∀ i, v_own X i →
    v_known X i ∨ v_known Y i ∨ mentions i P ∨ mentions i Q → i < v_next X;
}.

Record pair_inv (X Y : view) (P Q : list Frame.t) : Prop := {
  p_there : dir_inv X Y P Q;
  p_back : dir_inv Y X Q P;
  p_own : ∀ i, v_own X i → v_own Y i → False;
}.

Lemma pair_inv_flip X Y P Q : pair_inv X Y P Q → pair_inv Y X Q P.
Proof. intros [A B H]. constructor; auto. intros i ? ?. by apply (H i). Qed.

(** ** Wires *)

Lemma silent_quiet i w : silent i w → quiet i w.
Proof. apply Forall_impl. intros f Hf [? _]. done. Qed.

Lemma silent_app i w1 w2 : silent i (w1 ++ w2) ↔ silent i w1 ∧ silent i w2.
Proof. apply Forall_app. Qed.
Lemma quiet_app i w1 w2 : quiet i (w1 ++ w2) ↔ quiet i w1 ∧ quiet i w2.
Proof. apply Forall_app. Qed.

Lemma harmless_silent i w : Forall harmless w → silent i w.
Proof. apply Forall_impl. by intros []. Qed.
Lemma harmless_shape w : Forall harmless w → Forall shape w.
Proof. apply Forall_impl. by intros []. Qed.

Lemma ends_fid i f : ends i f → fid f = Some i.
Proof. by intros [-> | ->]. Qed.
Lemma ends_no_payload i f : ends i f → Frame.payload f = [].
Proof. by intros [-> | ->]. Qed.
Lemma ends_shape i f : i ≠ 0 → ends i f → shape f.
Proof. intros Hi He. pose proof He as [-> | ->]; (split; [done|]); auto. Qed.
Lemma ends_fun i j f : ends i f → ends j f → i = j.
Proof. intros H1%ends_fid H2%ends_fid. congruence. Qed.

(** A wire that grows at its end, split around a frame. *)
Lemma snoc_split (w : list Frame.t) f w1 g w2 :
  w ++ [f] = w1 ++ g :: w2 → (w1 = w ∧ g = f ∧ w2 = []) ∨ ∃ w3, w2 = w3 ++ [f] ∧ w = w1 ++ g :: w3.
Proof.
  destruct w2 as [|x w3 _] using rev_ind; intros E.
  - apply app_inj_tail in E as [-> ->]. by left.
  - rewrite app_comm_cons, app_assoc in E. apply app_inj_tail in E as [-> ->]. right. by exists w3.
Qed.

Lemma app_split (w u w1 : list Frame.t) g w2 :
  w ++ u = w1 ++ g :: w2 →
  (∃ w3, w = w1 ++ g :: w3 ∧ w2 = w3 ++ u) ∨ (∃ u1, u = u1 ++ g :: w2 ∧ w1 = w ++ u1).
Proof.
  intros E. apply app_eq_inv in E as [(k & -> & E)|(k & -> & E)].
  - destruct k as [|x k]; cbn in E; [|simplify_eq; left; eauto].
    rewrite app_nil_r. right. exists []. rewrite app_nil_r. eauto.
  - right. eauto.
Qed.

Lemma not_mentions i w : ¬ mentions i w → silent i w.
Proof. by intros H%Forall_Exists_neg. Qed.
Lemma mentions_app i w1 w2 : mentions i (w1 ++ w2) ↔ mentions i w1 ∨ mentions i w2.
Proof. apply Exists_app. Qed.
Lemma mentions_one i f : mentions i [f] → fid f = Some i.
Proof. intros H. by inversion H as [|? ? H']; subst; [|inversion H']. Qed.
Lemma harmless_mentions i w : Forall harmless w → ¬ mentions i w.
Proof. intros H. apply Forall_Exists_neg. by apply harmless_silent. Qed.
Lemma syn_mentions i w : Frame.syn i ∈ w → mentions i w.
Proof. intros H. apply Exists_exists. exists (Frame.syn i). split; [by apply list_elem_of_In|done]. Qed.

(** The bytes a wire carries for the stream [i]. *)
Definition carried (i : StreamId) (w : list Frame.t) : list byte :=
  concat ((λ f, match f with Frame.Data j _ p => if j =? i then p else [] | _ => [] end) <$> w).

Lemma carried_app i w1 w2 : carried i (w1 ++ w2) = carried i w1 ++ carried i w2.
Proof. unfold carried. by rewrite fmap_app, concat_app. Qed.

(** Frames without bytes for [i] add nothing. *)
Lemma carried_quiet i w : quiet i w → carried i w = [].
Proof.
  induction 1 as [|f w Hf _ IH]; [done|]. unfold carried in *. cbn. rewrite IH, app_nil_r.
  destruct f as [j fl p| | |]; try done. destruct (Z.eqb_spec j i) as [->|]; [|done].
  destruct p; [done|]. by destruct Hf.
Qed.

Lemma carried_harmless i w : Forall harmless w → carried i w = [].
Proof. intros ?. by apply carried_quiet, silent_quiet, harmless_silent. Qed.


Lemma carried_empty i f w : Frame.payload f = [] ∨ fid f ≠ Some i → carried i (f :: w) = carried i w.
Proof.
  intros Hf. change (f :: w) with ([f] ++ w). rewrite carried_app, (carried_quiet i [f]); [done|].
  constructor; [|done]. intros [? ?]. by destruct Hf.
Qed.

Lemma carried_data i fl p w : carried i (Frame.Data i fl p :: w) = p ++ carried i w.
Proof. unfold carried. cbn. by rewrite Z.eqb_refl. Qed.

(** The credit a wire brings for the stream [i]. *)
Definition credited (i : StreamId) (w : list Frame.t) : Z :=
  foldr (λ f acc, match f with Frame.WindowUpdate j _ d => if j =? i then d + acc else acc | _ => acc end) 0 w.

Lemma credited_app i w1 w2 : credited i (w1 ++ w2) = credited i w1 + credited i w2.
Proof.
  unfold credited. induction w1 as [|f w1 IH]; cbn; [done|]. rewrite IH. destruct f; try done. destruct (_ =? _); lia.
Qed.

Lemma credited_nonneg i w : Forall Frame.wf w → 0 ≤ credited i w.
Proof.
  unfold credited. induction 1 as [|f w Hf _ IH]; cbn; [done|]. destruct f; try done. destruct (_ =? _); [|done].
  destruct Hf as (_ & _ & [? _]). lia.
Qed.

Lemma credited_pinging i w : Forall pinging w → credited i w = 0.
Proof. unfold credited. induction 1 as [|f w Hf _ IH]; cbn; [done|]. by destruct f. Qed.

(** ** How a direction is kept *)

Section Dir.
Implicit Types (X Y : view) (P Q : list Frame.t).

Lemma dir_sender X X' Y P Q : shrinks X X' → dir_inv X Y P Q → dir_inv X' Y P Q.
Proof.
  intros (Eo & En & Hs) [D1 D0 D2 D3 D4 D5]. constructor; [done|done|..].
  - intros i Hr. destruct (D2 i Hr) as [?|[? Hw]]; [by left|right]. split; [done|]. intros ?. by apply Hw, Hs.
  - intros i w1 f w2 E Hf. destruct (D3 i w1 f w2 E Hf) as [? Hw]. split; [done|]. intros ?. by apply Hw, Hs.
  - intros i w1 w2 E. rewrite Eo. destruct (D4 i w1 w2 E) as (? & Hr & ?). split_and!; try tauto.
    intros Hr'. by apply Hs, Hr, Hs.
  - intros i. rewrite Eo, En. intros Ho H. apply (D5 i Ho). destruct (Hs i) as ([? ?] & _). tauto.
Qed.

Lemma dir_receiver X Y Y' P Q : shrinks Y Y' → dir_inv X Y P Q → dir_inv X Y' P Q.
Proof.
  intros (Eo & En & Hs) [D1 D0 D2 D3 D4 D5]. constructor; [done|by intros i Hr; apply Hs, D0, Hs|..|].
  - intros i Hr. destruct (Hs i) as (_ & _ & Hr1 & Hr2). destruct (D2 i (Hr1 Hr)) as [?|?]; [left; auto|by right].
  - done.
  - intros i w1 w2 E. destruct (D4 i w1 w2 E) as (? & ? & Hk & ?). split_and!; try tauto.
    intros ?. by apply Hk, Hs.
  - intros i Ho H. apply (D5 i Ho). destruct (Hs i) as ([? ?] & _). tauto.
Qed.

Lemma dir_tail X Y f P Q : dir_inv X Y (f :: P) Q → dir_inv X Y P Q.
Proof.
  intros [D1 D0 D2 D3 D4 D5]. constructor.
  - by apply Forall_cons_1 in D1 as [_ ?].
  - done.
  - intros i Hr. destruct (D2 i Hr) as [?|[Hq ?]]; [by left|right]. by apply Forall_cons_1 in Hq as [_ ?].
  - intros i w1 g w2 ->. by apply (D3 i (f :: w1)).
  - intros i w1 w2 ->. destruct (D4 i (f :: w1) w2 eq_refl) as (? & ? & ? & Hs & ?).
    apply Forall_cons_1 in Hs as [_ ?]. destruct_and?. by split_and!.
  - intros i Ho H. apply (D5 i Ho). unfold mentions. rewrite Exists_cons. tauto.
Qed.

Lemma dir_back_tail X Y f P Q : dir_inv X Y P (f :: Q) → dir_inv X Y P Q.
Proof.
  intros [D1 D0 D2 D3 D4 D5]. constructor; [done..| |].
  - intros i w1 w2 E. destruct (D4 i w1 w2 E) as (? & ? & ? & ? & ? & Hs).
    apply Forall_cons_1 in Hs as [_ ?]. by split_and!.
  - intros i Ho H. apply (D5 i Ho). unfold mentions at 2. rewrite Exists_cons. tauto.
Qed.

Lemma dir_harmless X Y P Q fs : Forall harmless fs → dir_inv X Y P Q → dir_inv X Y (P ++ fs) Q.
Proof.
  intros Hf [D1 D0 D2 D3 D4 D5].
  assert (∀ i, quiet i fs) as Hqf by (intros; by apply silent_quiet, harmless_silent).
  constructor.
  - apply Forall_app. split; [done|by apply harmless_shape].
  - done.
  - intros i Hr. rewrite quiet_app. destruct (D2 i Hr) as [?|[? ?]]; [by left|by right].
  - intros i w1 g w2 E Hg. apply app_split in E as [(w3 & -> & ->)|(u1 & -> & ->)].
    + rewrite quiet_app. destruct (D3 i w1 g w3 eq_refl Hg). by split_and!.
    + apply Forall_app in Hf as [_ Hf]. apply Forall_cons_1 in Hf as [Hf _]. by destruct Hg as [-> | ->].
  - intros i w1 w2 E. apply app_split in E as [(w3 & -> & ->)|(u1 & -> & ->)].
    + destruct (D4 i w1 w3 eq_refl) as (? & ? & ? & ? & Hn & ?). split_and!; try done.
      intros [?|Hin%syn_mentions]%elem_of_app; [done|]. by eapply harmless_mentions.
    + apply Forall_app in Hf as [_ Hf]. by apply Forall_cons_1 in Hf as [Hf _].
  - intros i Ho H. apply (D5 i Ho). rewrite mentions_app in H. pose proof (harmless_mentions i fs Hf). tauto.
Qed.

Lemma dir_back_harmless X Y P Q fs : Forall harmless fs → dir_inv X Y P Q → dir_inv X Y P (Q ++ fs).
Proof.
  intros Hf [D1 D0 D2 D3 D4 D5]. constructor; [done..| |].
  - intros i w1 w2 E. destruct (D4 i w1 w2 E) as (? & ? & ? & ? & ? & ?). rewrite silent_app.
    split_and!; try done. by apply harmless_silent.
  - intros i Ho H. apply (D5 i Ho). rewrite mentions_app in H. pose proof (harmless_mentions i fs Hf). tauto.
Qed.

(** A frame for the stream [i] that is no SYN is queued at the end. *)
Lemma dir_snoc X Y P Q i f :
  shape f → fid f = Some i → f ≠ Frame.syn i →
  (carries i f → v_wr X i) → (ends i f → ¬ v_wr X i) → (v_own X i → i < v_next X) →
  dir_inv X Y P Q → dir_inv X Y (P ++ [f]) Q.
Proof.
  intros Hsh Hid Hns Hc He Hn [D1 D0 D2 D3 D4 D5].
  assert (∀ j, carries j f → j = i) as Hci by (intros j [? _]; congruence).
  constructor.
  - apply Forall_app. split; [done|]. by constructor.
  - done.
  - intros j Hr. destruct (D2 j Hr) as [?|[Hq Hw]]; [by left|right]. split; [|done].
    apply quiet_app. split; [done|]. constructor; [|done]. intros Hj. pose proof (Hci j Hj) as ->. auto.
  - intros j w1 g w2 E Hg. apply snoc_split in E as [(-> & -> & ->)|(w3 & -> & ->)].
    + assert (j = i) as -> by (apply ends_fid in Hg; congruence). split; [constructor|by apply He].
    + destruct (D3 j w1 g w3 eq_refl Hg) as [Hq Hw]. split; [|done].
      apply quiet_app. split; [done|]. constructor; [|done]. intros Hj. pose proof (Hci j Hj) as ->. auto.
  - intros j w1 w2 E. apply snoc_split in E as [(-> & Eg & ->)|(w3 & -> & ->)].
    + subst f. cbn in Hid. congruence.
    + destruct (D4 j w1 w3 eq_refl) as (? & ? & ? & ? & Hnin & ?). split_and!; try done.
      intros [?|Hin%list_elem_of_singleton]%elem_of_app; [done|]. subst f. cbn in Hid. congruence.
  - intros j Ho H. rewrite mentions_app in H. destruct H as [?|[?|[[?|Hm%mentions_one]|?]]];
      try (apply (D5 j Ho); tauto). assert (j = i) as -> by congruence. auto.
Qed.

(** A frame for [i] is queued on the wire back. *)
Lemma dir_back_snoc X Y P Q i f :
  fid f = Some i → Frame.syn i ∉ P → (v_own X i → i < v_next X) →
  dir_inv X Y P Q → dir_inv X Y P (Q ++ [f]).
Proof.
  intros Hid Hns Hn [D1 D0 D2 D3 D4 D5]. constructor; [done..| |].
  - intros j w1 w2 E. destruct (D4 j w1 w2 E) as (? & ? & ? & ? & ? & ?). rewrite silent_app.
    split_and!; try done. constructor; [|done]. intros ?. assert (j = i) as -> by congruence.
    apply Hns. rewrite E. set_solver.
  - intros j Ho H. rewrite mentions_app in H. destruct H as [?|[?|[?|[?|Hm%mentions_one]]]];
      try (apply (D5 j Ho); tauto). assert (j = i) as -> by congruence. auto.
Qed.

(** The sender gains the stream [i]. *)
Lemma dir_sender_gains X X' Y P Q i :
  gains i X X' → v_next X ≤ v_next X' → (v_own X i → i < v_next X') →
  silent i P → (v_reg Y i → v_recv Y i) → dir_inv X Y P Q → dir_inv X' Y P Q.
Proof.
  intros (Eo & _ & _ & Hs) Hle Hn Hsil Hrec [D1 D0 D2 D3 D4 D5]. constructor; [done|done|..].
  - intros j Hr. destruct (decide (j = i)) as [->|Hne]; [left; auto|].
    destruct (D2 j Hr) as [?|[? Hw]]; [by left|right]. split; [done|]. intros ?. by apply Hw, Hs.
  - intros j w1 f w2 E Hf. assert (j ≠ i) as Hne.
    { intros ->. rewrite E in Hsil. apply Forall_app in Hsil as [_ Hsil].
      apply Forall_cons_1 in Hsil as [Hsil _]. by apply Hsil, ends_fid. }
    destruct (D3 j w1 f w2 E Hf) as [? Hw]. split; [done|]. intros ?. by apply Hw, (Hs j Hne).
  - intros j w1 w2 E. rewrite Eo. assert (j ≠ i) as Hne.
    { intros ->. rewrite E in Hsil. apply Forall_app in Hsil as [_ Hsil].
      by apply Forall_cons_1 in Hsil as [Hsil _]. }
    destruct (D4 j w1 w2 E) as (? & Hr & ?). split_and!; try tauto.
    intros Hr'. by apply (Hs j Hne), Hr, (Hs j Hne).
  - intros j. rewrite Eo. intros Ho H. destruct (decide (j = i)) as [->|Hne]; [auto|].
    enough (j < v_next X) by lia. apply (D5 j Ho). destruct (Hs j Hne) as ([? ?] & _). tauto.
Qed.

(** The receiver gains the stream [i]. *)
Lemma dir_receiver_gains X Y Y' P Q i :
  gains i Y Y' → Frame.syn i ∉ P → (v_own X i → i < v_next X) →
  dir_inv X Y P Q → dir_inv X Y' P Q.
Proof.
  intros (Eo & Hri & Hki & Hs) Hns Hn [D1 D0 D2 D3 D4 D5]. constructor; [done|..|].
  - intros j Hr. destruct (decide (j = i)) as [->|Hne]; [done|]. by apply (Hs j Hne), D0, (Hs j Hne).
  - intros j Hr. destruct (decide (j = i)) as [->|Hne]; [by left|].
    destruct (Hs j Hne) as (_ & _ & Hr1 & Hr2). destruct (D2 j (Hr1 Hr)) as [?|?]; [left; auto|by right].
  - done.
  - intros j w1 w2 E. destruct (decide (j = i)) as [->|Hne]; [exfalso; apply Hns; rewrite E; set_solver|].
    destruct (D4 j w1 w2 E) as (? & ? & Hk & ?). split_and!; try tauto. intros ?. by apply Hk, (Hs j Hne).
  - intros j Ho H. destruct (decide (j = i)) as [->|Hne]; [auto|]. apply (D5 j Ho).
    destruct (Hs j Hne) as ([? ?] & _). tauto.
Qed.

(** The SYN of a stream just gained is queued. *)
Lemma dir_syn X Y P Q i :
  v_own X i → i ≠ 0 → v_recv X i → ¬ v_known Y i → silent i P → silent i Q → i < v_next X →
  dir_inv X Y P Q → dir_inv X Y (P ++ [Frame.syn i]) Q.
Proof.
  intros Ho Hnz Hrec Hk HsP HsQ Hn [D1 D0 D2 D3 D4 D5].
  assert (∀ j, ¬ carries j (Frame.syn i)) as Hc by (by intros j [_ ?]).
  constructor.
  - apply Forall_app. split; [done|]. constructor; [|done]. split; auto.
  - done.
  - intros j Hr. rewrite quiet_app. destruct (D2 j Hr) as [?|[? ?]]; [by left|right].
    split_and!; try done. by constructor.
  - intros j w1 g w2 E Hg. apply snoc_split in E as [(-> & -> & ->)|(w3 & -> & ->)].
    + by destruct Hg.
    + rewrite quiet_app. destruct (D3 j w1 g w3 eq_refl Hg). split_and!; try done. by constructor.
  - intros j w1 w2 E. apply snoc_split in E as [(-> & [= <-] & ->)|(w3 & -> & ->)].
    + split_and!; try done. set_solver.
    + destruct (D4 j w1 w3 eq_refl) as (? & ? & ? & ? & Hnin & ?). split_and!; try done.
      intros [?|Hin%list_elem_of_singleton]%elem_of_app; [done|]. injection Hin as ->.
      apply Forall_app in HsP as [_ HsP]. by apply Forall_cons_1 in HsP as [HsP _].
  - intros j Hoj H. rewrite mentions_app in H. destruct H as [?|[?|[[?|Hm%mentions_one]|?]]];
      try (apply (D5 j Hoj); tauto). by injection Hm as <-.
Qed.

End Dir.

(** ** How the pair is kept *)

Section Pair.
Implicit Types (X Y : view) (P Q : list Frame.t).

Lemma known_not_coming X Y P Q i : pair_inv X Y P Q → v_known X i → Frame.syn i ∉ Q.
Proof.
  intros HP Hk Hin. apply list_elem_of_split in Hin as (w1 & w2 & ->).
  by destruct (d_syn _ _ _ _ (p_back _ _ _ _ HP) i w1 w2 eq_refl) as (_ & _ & ? & _).
Qed.

(** Stream [i]'s frame that is no SYN, queued by [X] at the end of [P]. *)
Lemma pair_snoc X Y P Q i f :
  shape f → fid f = Some i → f ≠ Frame.syn i → Frame.syn i ∉ Q →
  (carries i f → v_wr X i) → (ends i f → ¬ v_wr X i) →
  (v_own X i → i < v_next X) → (v_own Y i → i < v_next Y) →
  pair_inv X Y P Q → pair_inv X Y (P ++ [f]) Q.
Proof.
  intros ? ? ? ? ? ? ? ? [H1 H2 H3]. constructor; [|by eapply dir_back_snoc|done].
  by eapply dir_snoc.
Qed.

Lemma pair_shrinks X X' Y P Q : shrinks X X' → pair_inv X Y P Q → pair_inv X' Y P Q.
Proof.
  intros Hs [H1 H2 H3]. constructor; [by eapply dir_sender|by eapply dir_receiver|].
  destruct Hs as (-> & _). done.
Qed.

Lemma pair_harmless X Y P Q fs : Forall harmless fs → pair_inv X Y P Q → pair_inv X Y (P ++ fs) Q.
Proof. intros ? [H1 H2 H3]. constructor; [by apply dir_harmless|by apply dir_back_harmless|done]. Qed.

Lemma pair_next X Y P Q i :
  pair_inv X Y P Q → v_known X i ∨ mentions i Q →
  (v_own X i → i < v_next X) ∧ (v_own Y i → i < v_next Y).
Proof.
  intros [H1 H2 _] Hk. split; intros Ho; [apply (d_next _ _ _ _ H1)|apply (d_next _ _ _ _ H2)]; tauto.
Qed.

Lemma emit_inv X X' Y P Q fs : emit X X' fs → pair_inv X Y P Q → pair_inv X' Y (P ++ fs) Q.
Proof.
  intros He HP. destruct He as [fs Hs Hf|i Hs Hk Hi|i p Hs Hk Hi Hw|i f Hs Hk Hi Hw Hf|i Hg Ho Hi Hn Hn'].
  - by apply pair_harmless, (pair_shrinks X).
  - apply (pair_shrinks X); [done|].
    destruct (pair_next X Y P Q i HP (or_introl Hk)).
    apply (pair_snoc X Y P Q i); auto; [split; auto|by eapply known_not_coming|by intros [_ ?]|by intros [?|?]].
  - apply (pair_shrinks X); [done|]. destruct (pair_next X Y P Q i HP (or_introl Hk)).
    apply (pair_snoc X Y P Q i); auto; [split; auto|by eapply known_not_coming|by intros [?|?]].
  - pose proof (pair_shrinks X X' Y P Q Hs HP) as HP'.
    assert (v_known X' i) as Hk' by (by apply Hs).
    destruct (pair_next X' Y P Q i HP' (or_introl Hk')).
    apply (pair_snoc X' Y P Q i); auto; [by apply (ends_shape i)|by apply ends_fid| | |].
    + by destruct Hf as [-> | ->].
    + by eapply known_not_coming.
    + intros [_ Hp]. by rewrite (ends_no_payload i) in Hp.
  - destruct HP as [H1 H2 H3].
    assert (¬ v_own Y i) as HoY by (intros ?; by apply (H3 i)).
    assert (∀ H : v_known X i ∨ v_known Y i ∨ mentions i P ∨ mentions i Q, False) as Hfresh
      by (intros H; pose proof (d_next _ _ _ _ H1 i Ho H); lia).
    assert (silent i P ∧ silent i Q) as [HsP HsQ] by (split; apply not_mentions; tauto).
    assert (v_reg Y i → v_recv Y i) as HrY.
    { intros Hr%(d_reg _ _ _ _ H1). exfalso. apply Hfresh. tauto. }
    pose proof Hg as (Eo & Hrec & Hkn & _). constructor; [| |by rewrite Eo].
    + apply dir_syn; try done; [by rewrite Eo|tauto|lia|].
      eapply (dir_sender_gains X); try done; lia.
    + apply (dir_back_snoc _ _ _ _ i); [done| |done|].
      * intros Hin%syn_mentions. apply Hfresh. tauto.
      * eapply dir_receiver_gains; try done. intros Hin%syn_mentions. apply Hfresh. tauto.
Qed.

(** A frame arrives: the head of [Q]. *)
Lemma head_syn X Y P Q i :
  pair_inv X Y P (Frame.syn i :: Q) →
  i ≠ 0 ∧ v_own Y i ∧ ¬ v_own X i ∧ ¬ v_known X i ∧ Frame.syn i ∉ Q ∧ silent i P ∧
  (v_reg Y i → v_recv Y i) ∧ i < v_next Y.
Proof.
  intros [H1 H2 H3]. destruct (d_syn _ _ _ _ H2 i [] Q eq_refl) as (Ho & Hr & Hk & _ & Hn & Hs).
  pose proof (d_shape _ _ _ _ H2) as [[Hi _] _]%Forall_cons_1.
  split_and!; try done; [intros ?; by apply (H3 i)|]. apply (d_next _ _ _ _ H2 i Ho).
  right; right; left. by constructor.
Qed.

Lemma head_not_syn X Y P Q f i :
  pair_inv X Y P (f :: Q) → fid f = Some i → f ≠ Frame.syn i →
  i ≠ 0 ∧ Frame.syn i ∉ Q ∧ Frame.syn i ∉ P.
Proof.
  intros [H1 H2 H3] Hf Hns. split_and!.
  - pose proof (d_shape _ _ _ _ H2) as [Hsh _]%Forall_cons_1. destruct f; simplify_eq/=. apply Hsh.
  - intros (w1 & w2 & ->)%list_elem_of_split.
    destruct (d_syn _ _ _ _ H2 i (f :: w1) w2 eq_refl) as (_ & _ & _ & Hs & _).
    by apply Forall_cons_1 in Hs as [? _].
  - intros (w1 & w2 & ->)%list_elem_of_split.
    destruct (d_syn _ _ _ _ H1 i w1 w2 eq_refl) as (_ & _ & _ & _ & _ & Hs).
    by apply Forall_cons_1 in Hs as [? _].
Qed.

Lemma pair_tail X Y P Q f : pair_inv X Y P (f :: Q) → pair_inv X Y P Q.
Proof. intros [H1 H2 H3]. constructor; [by eapply dir_back_tail|by eapply dir_tail|done]. Qed.

Lemma accept_inv X X' Y P Q i :
  gains i X X' → v_next X' = v_next X → pair_inv X Y P (Frame.syn i :: Q) → pair_inv X' Y P Q.
Proof.
  intros Hg Hn HP. destruct (head_syn _ _ _ _ _ HP) as (Hi & Ho & HoX & Hk & Hns & Hsil & Hr & Hlt).
  apply pair_tail in HP as [H1 H2 H3]. pose proof Hg as (Eo & _).
  constructor; [| |by rewrite Eo].
  - by eapply (dir_sender_gains X); try done; rewrite Hn.
  - by eapply dir_receiver_gains.
Qed.

Lemma rst_inv X Y P Q i :
  i ≠ 0 → Frame.syn i ∉ Q → ¬ v_wr X i → (v_own X i → i < v_next X) → (v_own Y i → i < v_next Y) →
  pair_inv X Y P Q → pair_inv X Y (P ++ [Frame.rst i]) Q.
Proof.
  intros. apply (pair_snoc X Y P Q i); auto; [apply (ends_shape i); [done|by right]|by intros [_ ?]].
Qed.

Lemma deliver_inv X X' Y P Q i f :
  fid f = Some i → f ≠ Frame.syn i → v_own X' = v_own X → v_next X' = v_next X →
  (∀ j, (v_known X' j ↔ v_known X j) ∧ (v_wr X' j → v_wr X j) ∧ (v_reg X' j → v_reg X j) ∧
     (v_reg X' j → v_recv X j → v_recv X' j ∨ j = i ∧ ends i f)) →
  pair_inv X Y P (f :: Q) → pair_inv X' Y P Q.
Proof.
  intros Hf Hns Eo En Hs HP. destruct (head_not_syn _ _ _ _ _ _ HP Hf Hns) as (Hi & HnQ & HnP).
  assert (∀ j, v_known X' j ↔ v_known X j) as Hk by apply Hs.
  destruct HP as [H1 H2 H3]. pose proof (dir_back_tail _ _ _ _ _ H1) as [D1 D0 D2 D3 D4 D5].
  pose proof (dir_tail _ _ _ _ _ H2) as [E1 E0 E2 E3 E4 E5].
  constructor; [constructor|constructor|by rewrite Eo]; try done.
  - intros j Hr. destruct (D2 j Hr) as [?|[? Hw]]; [by left|right]. split; [done|]. intros ?. by apply Hw, Hs.
  - intros j w1 g w2 E Hg. destruct (D3 j w1 g w2 E Hg) as [? Hw]. split; [done|]. intros ?. by apply Hw, Hs.
  - intros j w1 w2 E. rewrite Eo. destruct (D4 j w1 w2 E) as (? & Hr & ? & ? & ? & ?). split_and!; try done.
    intros Hr'. destruct (Hs j) as (_ & _ & Hr1 & Hr2). destruct (Hr2 Hr' (Hr (Hr1 Hr'))) as [?|[-> _]]; [done|].
    exfalso. apply HnP. rewrite E. set_solver.
  - intros j. rewrite Eo, En, Hk. apply D5.
  - intros j Hr. apply Hk, E0, Hs, Hr.
  - intros j Hr. destruct (Hs j) as (_ & _ & Hr1 & Hr2). destruct (E2 j (Hr1 Hr)) as [Hrec|?]; [|by right].
    destruct (Hr2 Hr Hrec) as [?|[-> Hend]]; [by left|right]. by apply (d_end _ _ _ _ H2 i [] f Q).
  - intros j w1 w2 E. rewrite Hk. by apply E4.
  - intros j. rewrite Hk. apply E5.
Qed.

Lemma handles_inv X X' Y P Q f fs :
  handles X X' f fs → pair_inv X Y P (f :: Q) → pair_inv X' Y (P ++ fs) Q.
Proof.
  intros Hh HP.
  destruct Hh as [f fs Hs _ Hf%pinging_harmless|i Hs Hw|i Hg Hn|i f fs Hs Hf Hns Hw Hnr Hfs|i f Hf Hns Eo En Hs].
  - by eapply pair_harmless, pair_shrinks, pair_tail.
  - destruct (head_syn _ _ _ _ _ HP) as (Hi & Ho & HoX & Hk & HnQ & Hsil & Hr & Hlt).
    apply pair_tail in HP. apply rst_inv; try done; [|by eapply pair_shrinks].
    destruct Hs as (-> & _). done.
  - rewrite app_nil_r. by eapply accept_inv.
  - destruct (head_not_syn _ _ _ _ _ _ HP Hf Hns) as (Hi & HnQ & _).
    destruct (pair_next X Y P (f :: Q) i HP) as [Hn1 Hn2]; [right; by constructor|].
    apply pair_tail in HP. pose proof (pair_shrinks _ _ _ _ _ Hs HP) as HP'.
    destruct Hfs as [-> | ->]; [by rewrite app_nil_r|]. destruct Hs as (Eo & En & Hs).
    apply rst_inv; try done; [intros ?; by apply Hw, Hs|by rewrite Eo, En].
  - rewrite app_nil_r. by eapply deliver_inv.
Qed.

(** What the invariant is for: bytes that arrive for a registered stream find
    it able to receive, and a SYN is for a new id of the peer. *)
Lemma arrival_deliverable X Y P Q f i :
  pair_inv X Y P (f :: Q) → carries i f → v_reg X i → v_recv X i.
Proof.
  intros [_ H2 _] Hc Hr. destruct (d_recv _ _ _ _ H2 i Hr) as [?|[Hq _]]; [done|].
  by apply Forall_cons_1 in Hq as [? _].
Qed.

(** ** Ids and bytes *)

(** A SYN is only queued for an id that nobody has seen. *)
Lemma emit_syn X X' Y P Q fs i :
  emit X X' fs → pair_inv X Y P Q → Frame.syn i ∈ fs →
  ¬ v_known X i ∧ ¬ v_known Y i ∧ silent i P ∧ silent i Q.
Proof.
  intros He HP Hin. destruct He as [fs Hs Hf|j Hs|j p Hs|j f Hs Hk Hi Hw Hf|j Hg Ho Hi Hn Hn'].
  - apply syn_mentions in Hin. by destruct (harmless_mentions i fs).
  - by apply list_elem_of_singleton in Hin.
  - by apply list_elem_of_singleton in Hin.
  - apply list_elem_of_singleton in Hin as <-. by destruct Hf.
  - apply list_elem_of_singleton in Hin. injection Hin as ->.
    assert (∀ H : v_known X j ∨ v_known Y j ∨ mentions j P ∨ mentions j Q, False) as Hfresh
      by (intros H; pose proof (d_next _ _ _ _ (p_there _ _ _ _ HP) j Ho H); lia).
    split_and!; [tauto|tauto|apply not_mentions; tauto|apply not_mentions; tauto].
Qed.

Lemma emit_known X X' fs i : emit X X' fs → v_known X i → v_known X' i.
Proof.
  intros [? Hs|? Hs|? ? Hs|? ? Hs|j (_ & _ & Hj & Hg) _ _ _ _]; try (intros ?; by apply Hs).
  destruct (decide (i = j)) as [->|Hne]; [done|]. intros ?. by apply (Hg i Hne).
Qed.

Lemma emit_reg X X' Y P Q fs i :
  emit X X' fs → pair_inv X Y P Q → v_known X i → v_reg X' i → v_reg X i.
Proof.
  intros He HP Hk. destruct He as [? Hs|? Hs|? ? Hs|? ? Hs|j Hg Ho Hi Hn Hn']; try (intros ?; by apply Hs).
  destruct (decide (i = j)) as [->|Hne]; [|by apply Hg].
  by destruct (emit_syn X X' Y P Q [Frame.syn j] j) as [? _]; [apply E_open|..]; try set_solver.
Qed.

(** Only a stream that may be written to sends bytes, and none is writable
    again. *)
Lemma emit_writes X X' fs i :
  emit X X' fs →
  (v_wr X' i → v_wr X i ∨ Frame.syn i ∈ fs) ∧ (carried i fs ≠ [] → v_wr X i) ∧
  (∀ f, f ∈ fs → fid f = Some i → v_known X' i).
Proof.
  assert (∀ f, Frame.payload f = [] → carried i [f] ≠ [] → v_wr X i) as Hno.
  { intros f Hf Hc. by rewrite carried_empty in Hc by (by left). }
  assert (∀ f g j, g ∈ [f] → fid f = Some j → fid g = Some i → i = j) as Hone.
  { intros f g j ->%list_elem_of_singleton. congruence. }
  intros [fs' Hs Hf|j Hs Hk|j p Hs Hk ? Hw|j f Hs Hk ? ? Hf|j (_ & _ & Hkj & Hg) _ _ _ _]; split_and!; try (intros ?; left; by apply Hs).
  - by rewrite carried_harmless.
  - intros f Hin Hid. exfalso. apply (harmless_mentions i fs' Hf), Exists_exists. exists f. split; [by apply list_elem_of_In|done].
  - by apply Hno.
  - intros f Hin Hid. rewrite (Hone _ _ j Hin eq_refl Hid). by apply Hs.
  - destruct (decide (j = i)) as [->|Hne]; [done|]. rewrite carried_empty by (right; cbn; congruence). done.
  - intros f Hin Hid. rewrite (Hone _ _ j Hin eq_refl Hid). by apply Hs.
  - apply Hno. by apply (ends_no_payload j).
  - intros g Hin Hid. rewrite (Hone _ _ j Hin (ends_fid _ _ Hf) Hid). by apply Hs.
  - destruct (decide (i = j)) as [->|Hne]; [right; set_solver|]. intros ?. left. by apply (Hg i Hne).
  - by apply Hno.
  - intros f Hin Hid. by rewrite (Hone _ _ j Hin eq_refl Hid).
Qed.

Lemma handles_writes X X' f fs i : handles X X' f fs → v_wr X' i → v_wr X i ∨ f = Frame.syn i.
Proof.
  intros [? ? Hs|? Hs|j (_ & _ & _ & Hg)|? ? ? Hs|? ? ? ? ? ? Hs]; try (intros ?; left; by apply Hs).
  destruct (decide (i = j)) as [->|Hne]; [by right|]. intros ?. left. by apply (Hg i Hne).
Qed.

(** Who owns which ids is fixed. *)
Lemma emit_own X X' fs : emit X X' fs → v_own X' = v_own X.
Proof. by intros [? [? _]|? [? _]|? ? [? _]|? ? [? _]|? [? _]]. Qed.
Lemma handles_own X X' f fs : handles X X' f fs → v_own X' = v_own X.
Proof. by intros [? ? [? _]|? [? _]|? [? _]|? ? ? [? _]|]. Qed.

(** A RST in answer is for a stream that is not registered. *)
Lemma handles_rst X X' Y P Q f fs i :
  handles X X' f fs → pair_inv X Y P (f :: Q) → Frame.rst i ∈ fs → ¬ v_known X' i ∨ ¬ v_reg X' i.
Proof.
  intros [? ? _ _ Hf%pinging_harmless|j Hs|j _|j ? ? _ _ _ _ Hr [-> | ->]|] HP Hin; try by apply elem_of_nil in Hin.
  - exfalso. eapply (harmless_mentions i); [done|]. apply Exists_exists. exists (Frame.rst i).
    split; [by apply list_elem_of_In|done].
  - apply list_elem_of_singleton in Hin as [= ->]. left. intros Hk.
    destruct (head_syn _ _ _ _ _ HP) as (_ & _ & _ & Hnk & _). by apply Hnk, Hs.
  - apply list_elem_of_singleton in Hin as [= ->]. by right.
Qed.

Lemma handles_known X X' f fs i : handles X X' f fs → v_known X i → v_known X' i.
Proof.
  intros [? ? Hs|? Hs|j (_ & _ & Hj & Hg)|? ? ? Hs|? ? ? ? ? ? Hs]; try (intros ?; by apply Hs).
  destruct (decide (i = j)) as [->|Hne]; [done|]. intros ?. by apply (Hg i Hne).
Qed.

Lemma handles_reg X X' Y P Q f fs i :
  handles X X' f fs → pair_inv X Y P (f :: Q) → v_known X i → v_reg X' i → v_reg X i.
Proof.
  intros Hh HP Hk. destruct Hh as [? ? Hs|? Hs|j (_ & _ & _ & Hg)|? ? ? Hs|? ? ? ? ? ? Hs]; try (intros ?; by apply Hs).
  destruct (decide (i = j)) as [->|Hne]; [|by apply Hg]. by destruct (head_syn _ _ _ _ _ HP) as (_ & _ & _ & ? & _).
Qed.

(** The answers to a frame carry nothing. *)
Lemma handles_answers X X' f fs i : handles X X' f fs → carried i fs = [] ∧ Frame.syn i ∉ fs.
Proof.
  assert (∀ j, carried i [Frame.rst j] = [] ∧ Frame.syn i ∉ [Frame.rst j]) as Hrst.
  { intros j. split; [apply carried_empty; by left|by intros ?%list_elem_of_singleton]. }
  intros [? ? _ _ Hf%pinging_harmless|? _|? _|? ? ? _ _ _ _ _ [-> | ->]|]; try done; try (split; [done|set_solver]).
  split; [by apply carried_harmless|]. intros Hin%syn_mentions. by eapply harmless_mentions.
Qed.

Lemma handles_credit X X' f fs i : handles X X' f fs → credited i fs = 0.
Proof. intros [? ? _ _ Hf|? _|? _|? ? ? _ _ _ _ _ [-> | ->]|]; try done. by apply credited_pinging. Qed.

Lemma handles_only_rst X X' f fs g i : handles X X' f fs → g ∈ fs → fid g = Some i → g = Frame.rst i.
Proof.
  intros [? ? _ _ Hf%pinging_harmless|j _|j _|j ? ? _ _ _ _ _ [-> | ->]|] Hin Hg; try by apply elem_of_nil in Hin.
  - exfalso. eapply (harmless_mentions i); [done|]. apply Exists_exists. exists g. split; [by apply list_elem_of_In|done].
  - apply list_elem_of_singleton in Hin as ->. by injection Hg as ->.
  - apply list_elem_of_singleton in Hin as ->. by injection Hg as ->.
Qed.

(** No frame for a stream precedes its SYN. *)
Lemma head_before_syn X Y P Q f i : pair_inv X Y P (f :: Q) → Frame.syn i ∈ Q → fid f ≠ Some i.
Proof.
  intros HP Hin Hf. destruct (decide (f = Frame.syn i)) as [->|Hns].
  - by destruct (head_syn _ _ _ _ _ HP) as (_ & _ & _ & _ & ? & _).
  - by destruct (head_not_syn _ _ _ _ _ _ HP Hf Hns) as (_ & ? & _).
Qed.

End Pair.
