(* ===== verification/Duplex.v ===== *)
(** * Two sessions end to end

    Two sessions of the crate, a client and a server, joined by a connection
    that delivers frames in order.  On both sides users open and accept streams,
    write, read, shut down and drop them, opens time out, the closer and the
    keepalive task run, the writers and the readers move frames; each step is a
    stretch of code between two awaits.  Nobody calls [Stream::reset] or
    [Session::close], no keepalive deadline passes and the connection does not
    fail.  Here: the system, and how each step of a side looks from the wire. *)

From S2P Require Import Prelude Machine Errors Config Ids Frames Header Codec Crates Window.
From S2P Require Import StreamState RecvBuffer StreamInner StreamFacts StreamInv Session Reader Api.
From S2P Require Import FlowControl Keepalive Writer SessionInv System Dispatch Pair.
From Stdlib Require Import ZArith Lia.

Local Open Scope Z_scope.

(** Runs [deliver_data fl p] on every branch, for a stream that can take [p]. *)
Ltac run_deliver fl p Hp :=
  let Hb := fresh "Hb" in
  unfold deliver_data, when;
  destruct (contains fl Flags.ACK), (contains fl Flags.FIN), (contains fl Flags.RST);
  (destruct (bool_decide (p = [])) eqn:Hb;
   [apply bool_decide_eq_true in Hb; subst p
   |apply bool_decide_eq_false in Hb; destruct Hp as [?|Hp]; [done|]]);
  unfold can_recv in *; run_m; cbn [fst snd]; rewrite ?Hp, ?(bool_decide_eq_false_2 _ Hb); cbn;
  rewrite ?Hp; cbn; rewrite ?(bool_decide_eq_false_2 _ Hb); cbn.

Section Duplex.
Context {BF : BitflagsOps}.
Context {W : Type} {AW : AtomicWakerOps W}.
Context {C : Type → Type} {CH : UnboundedChannelOps C}.
Context {X R : Type} {WO : WatchOps X R}.
Context {DO : DrainOrder}.

Abbreviation session := (Session W C X).

(** One side: the session, the streams its users hold and the calls of [open]
    that wait. *)
Record side : Type := mk_side {
  sd_s : session;
  sd_handles : list Loc;
  sd_opening : list (StreamId * Loc);
}.

(** What a user sees of a stream: the bytes a write took, the bytes a read
    brought, the end of the writing by [shutdown] or by dropping the handle. *)
Inductive io : Type :=
| Wrote (i : StreamId) (bytes : list byte)
| Got (i : StreamId) (bytes : list byte)
| Shut (i : StreamId).

Definition io_of {A} (loc : Loc) (f : StreamId → A → list io) (r : option A) (s : session) : list io :=
  match s_heap s !! loc, r with Some st, Some a => f (id st) a | _, _ => [] end.

(** The result of a call, as an entry of the log. *)
Definition user_io (loc : Loc) (u : user_op) (s : session) : list io :=
  match u with
  | UWrite cx buf =>
    io_of loc (λ i r, match r with Ready (Ok n) => [Wrote i (take n buf)] | _ => [] end)
      (fst (stream_poll_write cx buf loc s)) s
  | URead cx buf =>
    io_of loc (λ i r, [Got i (drop (length (ReadBuf.filled buf)) (ReadBuf.filled (snd r)))])
      (fst (stream_poll_read cx buf loc s)) s
  | UShutdown | UDrop => io_of loc (λ i _, [Shut i]) (Some ()) s
  | UReset => []
  end.

(** What a side does on its own, with what its users see. *)
Inductive local_step : side → list io → side → Prop :=
| L_user loc u s hs op :
    loc ∈ hs → u ≠ UReset → u ≠ UDrop →
    local_step (mk_side s hs op) (user_io loc u s) (mk_side (user_apply loc u s) hs op)
| L_drop loc s hs op :
    loc ∈ hs →
    local_step (mk_side s hs op) (user_io loc UDrop s)
      (mk_side (user_apply loc UDrop s) (filter (.≠ loc) hs) op)
| L_open r s s' hs op :
    open_start s = (r, s') →
    local_step (mk_side s hs op) []
      (mk_side s' hs (op ++ match r with Ok il => [il] | Err _ => [] end))
| L_open_poll cx i loc s s' hs op :
    (i, loc) ∈ op → open_poll cx loc s = (Some PollPending, s') →
    local_step (mk_side s hs op) [] (mk_side s' hs op)
| L_open_done cx i loc r r' s s1 s' hs op :
    (i, loc) ∈ op → open_poll cx loc s = (Some (Ready r), s1) →
    open_finish i loc (Some r) s1 = (r', s') →
    local_step (mk_side s hs op) []
      (mk_side s' (hs ++ match r' with Ok l => [l] | Err _ => [] end) (filter (.≠ (i, loc)) op))
| L_open_timeout i loc r s s' hs op :
    (i, loc) ∈ op → open_finish i loc None s = (r, s') →
    local_step (mk_side s hs op) [] (mk_side s' hs (filter (.≠ (i, loc)) op))
| L_accept s hs op :
    local_step (mk_side s hs op) [] (mk_side (snd (accept_start s)) hs op)
| L_accept_poll rx r s s' hs op :
    accept_poll rx s = (r, s') →
    local_step (mk_side s hs op) []
      (mk_side s' (hs ++ match r with Some (Ok l) => [l] | _ => [] end) op)
| L_closer rx s hs op :
    local_step (mk_side s hs op) [] (mk_side (snd (closer_turn rx s)) hs op)
| L_ping (k : ka (R := R)) s hs op :
    local_step (mk_side s hs op) [] (mk_side (snd (ping k s)) hs op).

(** Both sides; [dx_out] carries the frames of [dx_here]; the logs are what the
    users of each side have seen so far. *)
Record duplex : Type := mk_duplex {
  dx_here : side;
  dx_there : side;
  dx_out : list Frame.t;
  dx_in : list Frame.t;
  dx_log_here : list io;
  dx_log_there : list io;
}.

Definition turned (d : duplex) : duplex :=
  mk_duplex (dx_there d) (dx_here d) (dx_in d) (dx_out d) (dx_log_there d) (dx_log_here d).

Lemma turned_turned (d : duplex) : turned (turned d) = d.
Proof. by destruct d. Qed.

(** A step of this side. *)
Inductive half_step : duplex → duplex → Prop :=
| Half_local x ios x' y o i lx ly :
    local_step x ios x' → half_step (mk_duplex x y o i lx ly) (mk_duplex x' y o i (lx ++ ios) ly)
| Half_write f s s' hs op y o i lx ly :   (* the writer puts a frame on the connection *)
    recv_out s = (Some f, s') →
    half_step (mk_duplex (mk_side s hs op) y o i lx ly)
      (mk_duplex (mk_side s' hs op) y (o ++ [f]) i lx ly)
| Half_read f go s s' hs op y o i lx ly : (* the reader takes a frame off it *)
    on_item (NextFrame f) s = (go, s') →
    half_step (mk_duplex (mk_side s hs op) y o (f :: i) lx ly)
      (mk_duplex (mk_side s' hs op) y o i lx ly).

Inductive duplex_step : duplex → duplex → Prop :=
| Duplex_here d d' : half_step d d' → duplex_step d d'
| Duplex_there d d' : half_step (turned d) (turned d') → duplex_step d d'.

Definition duplex_new (cfg_a cfg_b : Config.t) : duplex :=
  mk_duplex (mk_side (start cfg_a Role.Client) [] []) (mk_side (start cfg_b Role.Server) [] []) [] [] [] [].

Definition duplex_reachable (cfg_a cfg_b : Config.t) : duplex → Prop :=
  rtc duplex_step (duplex_new cfg_a cfg_b).

(** ** What the operations do to a stream *)

Definition writable (st : StreamInner W) : bool :=
  StreamState.write_open (state st) && negb (StreamState.is_reset (state st)).

Lemma writable_not_reset st : writable st = true → StreamState.is_reset (state st) = false.
Proof. unfold writable. intros [_ ?%negb_true_iff]%andb_prop. done. Qed.

(** The frame a stream operation of a user queues. *)
Inductive user_frames (st st' : StreamInner W) : list Frame.t → Prop :=
| UF_none fs : Forall harmless fs → user_frames st st' fs
| UF_data p : writable st = true → user_frames st st' [Frame.Data (id st) Flags.empty p]
| UF_fin : writable st' = false → user_frames st st' [Frame.fin (id st)].

(** What a user's operation, other than a reset, does. *)
Definition user_effect (drop : bool) (st st' : StreamInner W) (l l' : Links C) : Prop :=
  id st' = id st ∧ can_recv st' = can_recv st ∧ (writable st' = true → writable st = true) ∧
  (∀ i, i ∈ queued (closer_ch l') → i ∈ queued (closer_ch l) ∨ drop = true ∧ i = id st) ∧
  ∃ fs, queued (out_ch l') = queued (out_ch l) ++ fs ∧ user_frames st st' fs.

Lemma user_effect_quiet st st' l l' :
  id st' = id st → state st' = state st → closer_ch l' = closer_ch l →
  queued (out_ch l') = queued (out_ch l) → user_effect false st st' l l'.
Proof.
  intros Hi Hs Hc Ho. unfold user_effect, can_recv, writable. rewrite Hs, Hc, Ho.
  split_and!; auto. exists []. rewrite app_nil_r. split; [done|by apply UF_none].
Qed.

Lemma poll_write_user cx buf st l :
  stream_wf st → rx_alive (out_ch l) = true →
  user_effect false st (fst (snd (poll_write cx buf (st, l)))) l (snd (snd (poll_write cx buf (st, l)))).
Proof.
  intros Hwf Hrx. rewrite poll_write_spec, Hrx by done.
  destruct (StreamState.is_reset (state st)) eqn:Hr; [by apply user_effect_quiet|].
  destruct (StreamState.write_open (state st)) eqn:Ho; [|by apply user_effect_quiet]. cbn [negb].
  case_bool_decide; [by apply user_effect_quiet|].
  destruct (SendWindow.closed (send_window st)); [by apply user_effect_quiet|].
  destruct (_ =? 0); [by apply user_effect_quiet|].
  set (n := Z.min _ _). unfold user_effect, can_recv, writable. cbn.
  split_and!; auto. eexists. rewrite queued_send, Hrx. split; [done|].
  apply UF_data. unfold writable. by rewrite Ho, Hr.
Qed.

Lemma poll_read_user cx buf st l :
  stream_wf st → rx_alive (out_ch l) = true →
  user_effect false st (fst (snd (poll_read cx buf (st, l)))) l (snd (snd (poll_read cx buf (st, l)))).
Proof.
  intros Hwf Hrx. unfold poll_read. destruct (Nat.eqb_spec (ReadBuf.remaining buf) 0); [by apply user_effect_quiet|].
  destruct (poll_read_loop_total 1 cx buf st l Hwf ltac:(done) ltac:(lia)) as [-> _].
  destruct (poll_read_turn_spec cx buf st l Hwf ltac:(done)) as (r' & _ & _ & ->).
  destruct (StreamState.is_reset (state st)); [by apply user_effect_quiet|].
  case_bool_decide; [by destruct (StreamState.read_open (state st)); apply user_effect_quiet|].
  cbn [fst snd]. unfold user_effect. split_and!; auto.
  - by destruct (fst (after_consume _ _)); auto.
  - eexists. split; [by apply queued_update_sent|]. apply UF_none.
    destruct (fst (after_consume _ _)); cbn; by repeat constructor.
Qed.

Lemma local_fin_user st l :
  rx_alive (out_ch l) = true →
  user_effect false st (fst (snd (local_fin (st, l)))) l (snd (snd (local_fin (st, l)))) ∧
  writable (fst (snd (local_fin (st, l)))) = false.
Proof.
  intros Hrx. unfold local_fin, writable. run_m.
  destruct (StreamState.is_reset (state st)) eqn:Hr; cbn [fst snd];
    [split; [by apply user_effect_quiet|by rewrite Hr, andb_false_r]|].
  destruct (StreamState.write_open (state st)) eqn:Ho; cbn; rewrite Ho; cbn.
  2: { split; [|done]. unfold user_effect, can_recv, writable. cbn. rewrite Ho. split_and!; [done|done|done|auto|].
       exists []. rewrite app_nil_r. split; [done|by apply UF_none]. }
  destruct (fin_sent st) eqn:Hfs; cbn; (split; [|done]); unfold user_effect, can_recv, writable; cbn;
    (split_and!; [done|done|done|auto|]).
  - exists []. rewrite app_nil_r. split; [done|by apply UF_none].
  - eexists. rewrite queued_send, Hrx. split; [done|]. by apply UF_fin.
Qed.

Lemma on_user_drop_user st l :
  rx_alive (out_ch l) = true →
  user_effect true st (fst (snd (on_user_drop (st, l)))) l (snd (snd (on_user_drop (st, l)))).
Proof.
  intros Hrx. unfold on_user_drop, mbind, M_bind, get, when. cbn [fst snd].
  assert (∀ i l1, i ∈ queued (snd (chan_send (id st) l1)) → i ∈ queued l1 ∨ i = id st) as Hs.
  { intros i l1. rewrite queued_send. destruct (rx_alive l1); set_solver. }
  destruct (StreamState.write_open (state st) && negb (StreamState.is_reset (state st))).
  - destruct (local_fin_user st l Hrx) as [(Hi & Hc & Hw & Hcl & fs & Hq & Hf) Hnw].
    destruct (local_fin (st, l)) as [u [st1 l1]]. cbn in *. unfold user_effect. cbn. rewrite Hi in *.
    split_and!; auto.
    + intros i [Hin|?]%Hs; [|by auto]. destruct (Hcl i Hin) as [?|[? _]]; [by left|done].
    + exists fs. auto.
  - cbn. unfold user_effect. cbn. split_and!; auto.
    + intros i [?|?]%Hs; auto.
    + exists []. rewrite app_nil_r. split; [done|by apply UF_none].
Qed.

(** What the delivery of a frame does. *)
Definition frame_effect (ended : bool) (st st' : StreamInner W) (l l' : Links C) : Prop :=
  id st' = id st ∧ out_ch l' = out_ch l ∧ (writable st' = true → writable st = true) ∧
  (can_recv st = true → can_recv st' = true ∨ ended = true) ∧
  (∀ i, i ∈ queued (closer_ch l') →
     i ∈ queued (closer_ch l) ∨ i = id st ∧ StreamState.is_reset (state st') = true).

Lemma deliver_data_effect st l fl p :
  p = [] ∨ can_recv st = true →
  fst (deliver_data fl p (st, l)) = Ok () ∧
  frame_effect (contains fl Flags.FIN || contains fl Flags.RST) st
    (fst (snd (deliver_data fl p (st, l)))) l (snd (snd (deliver_data fl p (st, l)))).
Proof.
  intros Hp.
  assert (∀ i l1, i ∈ queued (snd (chan_send (id st) l1)) → i ∈ queued l1 ∨ i = id st) as Hs.
  { intros i l1. rewrite queued_send. destruct (rx_alive l1); set_solver. }
  run_deliver fl p Hp.
  all: split; [done|]; unfold frame_effect, writable, can_recv; cbn;
    rewrite ?andb_true_r, ?andb_false_r; split_and!; auto; try done.
  all: try (intros i [?|?]%Hs; by auto).
Qed.

Lemma grant_effect d st l :
  frame_effect false st (fst (snd (grant_send_credit d (st, l)))) l (snd (snd (grant_send_credit d (st, l)))).
Proof.
  unfold grant_send_credit, grant_window, frame_effect, writable, can_recv. cbn. split_and!; auto.
Qed.

Lemma wait_acked_user cx st l :
  user_effect false st (fst (snd (wait_acked cx (st, l)))) l (snd (snd (wait_acked cx (st, l)))).
Proof. unfold wait_acked. run_m. destruct (ack_status st); by apply user_effect_quiet. Qed.

(** ** The view of a side *)

(** The streams a user may come to write to. *)
Definition pots (x : side) : list Loc :=
  sd_handles x ++ (snd <$> sd_opening x) ++ queued (s_accept (sd_s x)).

(** A stream that is in the hands of a user, or on its way there, and was not
    reset. *)
Definition in_use (x : side) (i : StreamId) : Prop := ∃ loc st,
  loc ∈ pots x ∧ s_heap (sd_s x) !! loc = Some st ∧ id st = i ∧ StreamState.is_reset (state st) = false.

Definition was_reset (x : side) (i : StreamId) : Prop := ∃ loc st,
  s_heap (sd_s x) !! loc = Some st ∧ id st = i ∧ StreamState.is_reset (state st) = true.

(** A stream whose writing has ended. *)
Definition ended (x : side) (i : StreamId) : Prop := ∃ loc st,
  s_heap (sd_s x) !! loc = Some st ∧ id st = i ∧ StreamState.write_open (state st) = false.

Definition view_of (x : side) : view :=
  let s := sd_s x in {|
  v_own i := Role.owns (s_role s) i = true;
  v_next := StreamIdAllocator.next (s_id_alloc s);
  v_known i := ∃ loc st, s_heap s !! loc = Some st ∧ id st = i;
  v_reg i := is_Some (s_registry s !! i);
  v_recv i := ∃ loc st, s_registry s !! i = Some loc ∧ s_heap s !! loc = Some st ∧ can_recv st = true;
  v_wr i := ∃ loc st, loc ∈ pots x ∧ s_heap s !! loc = Some st ∧ id st = i ∧ writable st = true;
|}.

Record side_inv (x : side) : Prop := {
  si_session : session_inv (sd_s x);
  si_open : s_is_closing (sd_s x) = false;
  si_here : s_peer_gone (sd_s x) = false;
  si_out : rx_alive (s_out (sd_s x)) = true;
  si_accept : rx_alive (s_accept (sd_s x)) = true;
  si_pots : NoDup (pots x);
  si_heap : ∀ loc, loc ∈ pots x → is_Some (s_heap (sd_s x) !! loc);
  (* a stream in use that was not reset is registered *)
  si_wr : ∀ loc st, loc ∈ pots x → s_heap (sd_s x) !! loc = Some st →
    StreamState.is_reset (state st) = false → s_registry (sd_s x) !! id st = Some loc;
  (* the closer only removes streams without a user, or reset ones *)
  si_closer : ∀ i, i ∈ queued (s_closer (sd_s x)) →
    v_known (view_of x) i ∧
    ∀ loc, s_registry (sd_s x) !! i = Some loc →
      loc ∉ pots x ∨ ∃ st, s_heap (sd_s x) !! loc = Some st ∧ StreamState.is_reset (state st) = true;
  si_unique : ∀ loc1 loc2 st1 st2, s_heap (sd_s x) !! loc1 = Some st1 →
    s_heap (sd_s x) !! loc2 = Some st2 → id st1 = id st2 → loc1 = loc2;
  si_opening : ∀ i loc, (i, loc) ∈ sd_opening x →
    ∃ st, s_heap (sd_s x) !! loc = Some st ∧ id st = i;
}.

Lemma unregistered_not_wr x i : side_inv x → s_registry (sd_s x) !! i = None → ¬ v_wr (view_of x) i.
Proof.
  intros Hx Hr (loc & st & Hin & Hl & <- & Hw). by rewrite (si_wr x Hx loc st Hin Hl (writable_not_reset st Hw)) in Hr.
Qed.

Lemma unregistered_not_in_use x i : side_inv x → s_registry (sd_s x) !! i = None → ¬ in_use x i.
Proof.
  intros Hx Hr (loc & st & Hin & Hl & <- & Hn). by rewrite (si_wr x Hx loc st Hin Hl Hn) in Hr.
Qed.

Lemma heap_nonzero x loc st : side_inv x → s_heap (sd_s x) !! loc = Some st → id st ≠ 0 ∧ is_u32 (id st).
Proof.
  intros Hx Hl. by destruct (Forall_lookup_1 _ _ _ _ (inv_heap _ (si_session x Hx)) Hl) as (_ & ? & ?).
Qed.

(** ** A side moves *)

(** The user's set of streams only shrinks. *)
Definition pots_shrink (x x' : side) : Prop :=
  NoDup (pots x') ∧ (∀ loc, loc ∈ pots x' → loc ∈ pots x) ∧
  (∀ il, il ∈ sd_opening x' → il ∈ sd_opening x).

Lemma pots_same x x' :
  side_inv x → sd_handles x' = sd_handles x → sd_opening x' = sd_opening x →
  queued (s_accept (sd_s x')) = queued (s_accept (sd_s x)) → pots_shrink x x'.
Proof.
  intros Hx Hh Ho Ha. unfold pots_shrink, pots. rewrite Hh, Ho, Ha. split_and!; [|done|done]. apply (si_pots x Hx).
Qed.

(** The stream at [loc] goes from [st] to [st'], with the channels [l']. *)
Definition put_stream (loc : Loc) (st' : StreamInner W) (l' : Links C) (s : session) : session :=
  set_heap (<[loc := st']> (s_heap s))
    (set_out (out_ch l') (set_closer (closer_ch l') (set_woken (woken l') s))).

Definition links_of (s : session) : Links C := mkLinks (s_out s) (s_closer s) (s_woken s).

Lemma on_stream_put {A} loc (m : M A) s st :
  s_heap s !! loc = Some st →
  on_stream loc m s = (Some (fst (m (st, links_of s))),
    put_stream loc (fst (snd (m (st, links_of s)))) (snd (snd (m (st, links_of s)))) s).
Proof. intros Hl. unfold on_stream. rewrite Hl. fold (links_of s). by destruct (m _) as [a [st' l']]. Qed.

Lemma put_stream_lookup loc st st' l' s loc2 st2 :
  s_heap s !! loc = Some st → id st' = id st → s_heap s !! loc2 = Some st2 →
  ∃ st2', s_heap (put_stream loc st' l' s) !! loc2 = Some st2' ∧ id st2' = id st2 ∧
    (loc2 = loc ∧ st2 = st ∧ st2' = st' ∨ loc2 ≠ loc ∧ st2' = st2).
Proof.
  intros Hl Hi H2. cbn. destruct (decide (loc2 = loc)) as [->|Hne].
  - rewrite list_lookup_insert_eq by (by eapply lookup_lt_Some). simplify_eq. eauto 10.
  - rewrite list_lookup_insert_ne by done. eauto 10.
Qed.

Lemma put_stream_back loc st st' l' s loc2 st2' :
  s_heap s !! loc = Some st → s_heap (put_stream loc st' l' s) !! loc2 = Some st2' →
  (loc2 = loc ∧ st2' = st') ∨ (loc2 ≠ loc ∧ s_heap s !! loc2 = Some st2').
Proof.
  intros Hl. cbn. destruct (decide (loc2 = loc)) as [->|Hne].
  - rewrite list_lookup_insert_eq by (by eapply lookup_lt_Some). intros [= ->]. by left.
  - rewrite list_lookup_insert_ne by done. by right.
Qed.

Lemma put_stream_inv x x' loc st st' l' :
  side_inv x → s_heap (sd_s x) !! loc = Some st → sd_s x' = put_stream loc st' l' (sd_s x) →
  session_inv (sd_s x') → pots_shrink x x' → id st' = id st →
  (writable st' = true → writable st = true) →
  (StreamState.is_reset (state st) = true → StreamState.is_reset (state st') = true) →
  rx_alive (out_ch l') = true →
  (∀ i, i ∈ queued (closer_ch l') → i ∈ queued (s_closer (sd_s x)) ∨
     i = id st ∧ (StreamState.is_reset (state st') = true ∨ loc ∉ pots x')) →
  side_inv x'.
Proof.
  intros Hx Hl Es Hs' (Hnd & Hsub & Hop) Hi Hw Hr Hrx Hcl.
  pose proof (put_stream_lookup loc st st' l' (sd_s x)) as Hfwd.
  pose proof (put_stream_back loc st st' l' (sd_s x)) as Hback.
  constructor; auto; rewrite ?Es; try apply Hx; auto.
  - intros loc2 Hin. destruct (si_heap x Hx loc2 (Hsub _ Hin)) as [st2 H2].
    destruct (Hfwd loc2 st2 Hl Hi H2) as (st2' & ? & _). eauto.
  - intros loc2 st2 Hin H2 Hw2. change (s_registry (put_stream loc st' l' (sd_s x))) with (s_registry (sd_s x)).
    destruct (Hback _ _ Hl H2) as [[-> ->]|[Hne H2']].
    + rewrite Hi. apply (si_wr x Hx loc st); auto.
      destruct (StreamState.is_reset (state st)); [by rewrite Hr in Hw2|done].
    + by apply (si_wr x Hx loc2 st2); auto.
  - intros i Hin. change (s_registry (put_stream loc st' l' (sd_s x))) with (s_registry (sd_s x)).
    assert (v_known (view_of x) i → v_known (view_of x') i) as Hk.
    { intros (loc2 & st2 & H2 & <-). destruct (Hfwd loc2 st2 Hl Hi H2) as (st2' & ? & ? & _).
      exists loc2, st2'. rewrite Es. auto. }
    change (queued (s_closer (put_stream loc st' l' (sd_s x)))) with (queued (closer_ch l')) in Hin.
    destruct (Hcl i Hin) as [Hin'|[-> Hor]].
    + destruct (si_closer x Hx i Hin') as [Hkn Hreg]. split; [auto|]. intros loc2 Hr2.
      destruct (Hreg loc2 Hr2) as [?|(st2 & H2 & Hre)]; [left; auto|right].
      destruct (Hfwd loc2 st2 Hl Hi H2) as (st2' & ? & _ & [(-> & -> & ->)|[_ ->]]); eauto.
    + split; [apply Hk; exists loc, st; auto|]. intros loc2 Hr2.
      destruct (inv_registry _ (si_session x Hx) _ _ Hr2) as (st2 & H2 & Hid2).
      pose proof (si_unique x Hx _ _ _ _ H2 Hl Hid2) as ->.
      destruct Hor as [Hre|?]; [right|by left]. destruct (Hfwd loc st Hl Hi Hl) as (st2' & ? & _ & [(_ & _ & ->)|[? _]]);
        [eauto|done].
  - intros loc1 loc2 st1 st2 H1 H2 He.
    destruct (Hback _ _ Hl H1) as [[-> ->]|[Hne1 H1']], (Hback _ _ Hl H2) as [[-> ->]|[Hne2 H2']]; [done|..];
      [apply (si_unique x Hx _ _ _ _ Hl H2'); congruence|apply (si_unique x Hx _ _ _ _ H1' Hl); congruence|].
    by apply (si_unique x Hx _ _ _ _ H1' H2').
  - intros i loc2 Hin. destruct (si_opening x Hx i loc2 (Hop _ Hin)) as (st2 & H2 & <-).
    destruct (Hfwd loc2 st2 Hl Hi H2) as (st2' & ? & ? & _). eauto.
Qed.

Lemma put_stream_view x x' loc st st' l' :
  side_inv x → s_heap (sd_s x) !! loc = Some st → sd_s x' = put_stream loc st' l' (sd_s x) →
  pots_shrink x x' → id st' = id st → (writable st' = true → writable st = true) →
  ∀ j, (v_known (view_of x') j ↔ v_known (view_of x) j) ∧ (v_wr (view_of x') j → v_wr (view_of x) j) ∧
    (v_reg (view_of x') j ↔ v_reg (view_of x) j) ∧
    (v_recv (view_of x) j → v_recv (view_of x') j ∨ j = id st ∧ can_recv st = true ∧ can_recv st' = false).
Proof.
  intros Hx Hl Es (_ & Hsub & _) Hi Hw j. cbn. rewrite Es.
  pose proof (put_stream_lookup loc st st' l' (sd_s x)) as Hfwd.
  pose proof (put_stream_back loc st st' l' (sd_s x)) as Hback. split_and!.
  - split.
    + intros (loc2 & st2 & H2 & <-). destruct (Hback _ _ Hl H2) as [[-> ->]|[Hne H2']]; eauto.
    + intros (loc2 & st2 & H2 & <-). destruct (Hfwd loc2 st2 Hl Hi H2) as (st2' & ? & ? & _). eauto.
  - intros (loc2 & st2 & Hin & H2 & <- & Hw2). destruct (Hback _ _ Hl H2) as [[-> ->]|[Hne H2']].
    + exists loc, st. auto.
    + exists loc2, st2. auto.
  - done.
  - intros (loc2 & st2 & Hr & H2 & Hc). destruct (Hfwd loc2 st2 Hl Hi H2) as (st2' & H2' & _ & [(-> & -> & ->)|[_ ->]]).
    + destruct (can_recv st') eqn:Hc'; [left; by exists loc, st'|right]. split_and!; try done.
      destruct (inv_registry _ (si_session x Hx) _ _ Hr) as (st2 & H3 & <-). congruence.
    + left. exists loc2, st2. auto.
Qed.

(** A step of a side, seen from the wire. *)
Definition moves (x x' : side) : Prop :=
  side_inv x' ∧ ∃ fs, queued (s_out (sd_s x')) = queued (s_out (sd_s x)) ++ fs ∧
    emit (view_of x) (view_of x') fs.

(** The user calls a method of the stream at [loc]. *)
Lemma user_method {A} x x' loc (m : M A) drop :
  side_inv x → SM_ok (on_stream (X := X) loc m) → loc ∈ pots x →
  sd_s x' = snd (on_stream loc m (sd_s x)) → pots_shrink x x' →
  (∀ st, s_heap (sd_s x) !! loc = Some st →
     user_effect drop st (fst (snd (m (st, links_of (sd_s x))))) (links_of (sd_s x))
       (snd (snd (m (st, links_of (sd_s x)))))) →
  (drop = true → loc ∉ pots x') →
  moves x x'.
Proof.
  intros Hx Hok Hin Es Hp Heff Hdrop. destruct (si_heap x Hx loc Hin) as [st Hl].
  destruct (Hok (sd_s x) (si_session x Hx)) as [Hs' (_ & _ & _ & _ & Hheap & Ha & _)].
  destruct (Heff st Hl) as (Hi & Hc & Hw & Hcl & fs & Hq & Hf).
  destruct (Hheap loc st Hl) as (st2 & Hl2 & _ & Hle & _).
  rewrite (on_stream_put loc m _ st Hl) in Es, Hs', Ha, Hl2. cbn [snd] in *. rewrite <- Es in Hs'.
  set (st' := fst (snd (m _))) in *. set (l' := snd (snd (m _))) in *.
  assert (st2 = st') as ->.
  { destruct (put_stream_back loc st st' l' (sd_s x) loc st2 Hl Hl2) as [[_ ?]|[? _]]; done. }
  pose proof (put_stream_view x x' loc st st' l' Hx Hl Es Hp Hi Hw) as Hv.
  assert (shrinks (view_of x) (view_of x')) as Hsh.
  { split_and!; [cbn; by rewrite Es|cbn; by rewrite Es|]. intros j. destruct (Hv j) as (? & ? & [? ?] & Hr).
    split_and!; auto. intros _ Hrec. destruct (Hr Hrec) as [?|(-> & Hc1 & Hc2)]; [done|congruence]. }
  destruct (heap_nonzero x loc st Hx Hl) as [Hnz _].
  assert (v_known (view_of x) (id st)) as Hk by (by exists loc, st).
  split.
  - apply (put_stream_inv x x' loc st st' l'); auto.
    + apply Hle.
    + cbn in Ha. rewrite Ha. apply (si_out x Hx).
    + intros i Hini. destruct (Hcl i Hini) as [?|[Hd ->]]; [by left|right; auto].
  - exists fs. rewrite Es. split; [exact Hq|]. destruct Hf as [fs Hf|p Hwr|Hnw].
    + by apply E_quiet.
    + apply E_data; auto. exists loc, st. auto.
    + apply E_end with (id st); [done|done|done| |by left].
      intros (loc2 & st2 & Hin2 & H2 & Hid2 & Hw2). rewrite Es in H2.
      destruct (put_stream_back _ _ _ _ _ _ _ Hl H2) as [[-> ->]|[Hne H2']]; [congruence|].
      by apply Hne, (si_unique x Hx loc2 loc st2 st).
Qed.

(** A step that leaves the streams alone and may remove registry entries. *)
Lemma side_rest x x' :
  side_inv x → session_inv (sd_s x') → pots_shrink x x' →
  s_heap (sd_s x') = s_heap (sd_s x) → s_role (sd_s x') = s_role (sd_s x) →
  s_id_alloc (sd_s x') = s_id_alloc (sd_s x) →
  s_is_closing (sd_s x') = s_is_closing (sd_s x) → s_peer_gone (sd_s x') = s_peer_gone (sd_s x) →
  rx_alive (s_out (sd_s x')) = rx_alive (s_out (sd_s x)) →
  rx_alive (s_accept (sd_s x')) = rx_alive (s_accept (sd_s x)) →
  (∀ i, i ∈ queued (s_closer (sd_s x')) → i ∈ queued (s_closer (sd_s x))) →
  (∀ i loc, s_registry (sd_s x') !! i = Some loc → s_registry (sd_s x) !! i = Some loc) →
  (∀ loc st, loc ∈ pots x' → s_heap (sd_s x) !! loc = Some st → StreamState.is_reset (state st) = false →
     s_registry (sd_s x) !! id st = Some loc → s_registry (sd_s x') !! id st = Some loc) →
  side_inv x' ∧ shrinks (view_of x) (view_of x').
Proof.
  intros Hx Hs' (Hnd & Hsub & Hop) Eh Er Ei Ec Ep Ea Eb Hcl Hreg Hkeep. split.
  - constructor; rewrite ?Eh, ?Ec, ?Ep, ?Ea, ?Eb; try apply Hx; auto.
    + intros loc Hin. apply Hx; auto.
    + intros loc st Hin Hl Hw. apply Hkeep; auto. by apply (si_wr x Hx); auto.
    + intros i Hin. destruct (si_closer x Hx i (Hcl i Hin)) as [Hk Hr]. split; [cbn; by rewrite Eh|].
      intros loc Hl. destruct (Hr loc (Hreg _ _ Hl)) as [?|?]; [left; auto|by right].
    + intros i loc Hin. apply (si_opening x Hx); auto.
  - split_and!; [cbn; by rewrite Er|cbn; by rewrite Ei|]. intros i. cbn. rewrite Eh. split_and!.
    + done.
    + intros (loc & st & ? & ?). exists loc, st. auto.
    + intros [loc Hl]. eauto.
    + intros [loc Hl] (loc2 & st & Hl2 & ?). pose proof (Hreg _ _ Hl) as Hl'. exists loc, st.
      assert (loc2 = loc) as -> by congruence. auto.
Qed.

Lemma filter_out {A} `{EqDecision A} (a : A) l : filter (.≠ a) l `sublist_of` l.
Proof. induction l as [|b l IH]; [done|]. rewrite filter_cons. case_decide; by constructor. Qed.

Lemma NoDup_pots x : side_inv x → NoDup (sd_handles x) ∧
  (∀ loc, loc ∈ sd_handles x → loc ∉ (snd <$> sd_opening x) ++ queued (s_accept (sd_s x))) ∧
  NoDup ((snd <$> sd_opening x) ++ queued (s_accept (sd_s x))).
Proof. intros Hx. pose proof (si_pots x Hx) as H. unfold pots in H. by apply list.NoDup_app in H. Qed.

(** A call on a stream that a user holds. *)
Lemma L_user_moves loc u s hs op :
  loc ∈ hs → u ≠ UReset → u ≠ UDrop → side_inv (mk_side s hs op) →
  moves (mk_side s hs op) (mk_side (user_apply loc u s) hs op).
Proof.
  intros Hin Hr Hd Hx. pose proof (si_session _ Hx) as Hs. pose proof (si_out _ Hx) as Ho. cbn in Hs, Ho.
  assert (loc ∈ pots (mk_side s hs op)) as Hpot by (unfold pots; set_solver).
  assert (∀ st, s_heap s !! loc = Some st → stream_wf st) as Hwf.
  { intros st Hl. by destruct (Forall_lookup_1 _ _ _ _ (inv_heap _ Hs) Hl) as ((_ & _ & ? & _) & _). }
  assert (∀ A (m : M A), s_accept (snd (on_stream loc m s)) = s_accept s) as Hacc.
  { intros A m. unfold on_stream. destruct (s_heap s !! loc); [|done]. by destruct (m _) as [? [? ?]]. }
  destruct u as [cx buf|cx buf| | |]; try done; cbn [user_apply].
  - apply (user_method _ _ loc (poll_read cx buf) false); auto; [by apply on_stream_ok, (M_ok_op _ (ORead cx buf))| | |done].
    + apply pots_same; auto. cbn. unfold stream_poll_read. by rewrite Hacc.
    + intros st Hl. apply poll_read_user; auto.
  - apply (user_method _ _ loc (poll_write cx buf) false); auto; [by apply on_stream_ok, (M_ok_op _ (OWrite cx buf))| | |done].
    + apply pots_same; auto. cbn. unfold stream_poll_write. by rewrite Hacc.
    + intros st Hl. apply poll_write_user; auto.
  - apply (user_method _ _ loc local_fin false); auto; [by apply on_stream_ok, (M_ok_op _ OFin)| | |done].
    + apply pots_same; auto. apply (f_equal queued), (Hacc _ local_fin).
    + intros st Hl. by apply local_fin_user.
Qed.

Lemma L_drop_moves loc s hs op :
  loc ∈ hs → side_inv (mk_side s hs op) →
  moves (mk_side s hs op) (mk_side (user_apply loc UDrop s) (filter (.≠ loc) hs) op).
Proof.
  intros Hin Hx. pose proof (si_out _ Hx) as Ho. cbn in Ho.
  destruct (NoDup_pots _ Hx) as (Hnd1 & Hdis & Hnd2). cbn in Hnd1, Hdis, Hnd2.
  assert (loc ∈ pots (mk_side s hs op)) as Hpot by (unfold pots; set_solver).
  assert (s_accept (user_apply loc UDrop s) = s_accept s) as Hacc.
  { cbn. unfold stream_drop, on_stream. destruct (s_heap s !! loc); [|done]. by destruct (on_user_drop _) as [? [? ?]]. }
  apply (user_method _ _ loc on_user_drop true); auto; [by apply on_stream_ok, (M_ok_op _ ODrop)|..].
  - unfold pots_shrink, pots. cbn [sd_s sd_handles sd_opening]. rewrite Hacc. split_and!; [| |done].
    2: { intros l. rewrite !(elem_of_app _ (_ ++ _)). intros [[_ ?]%list_elem_of_filter|?]; auto. }
    eapply sublist_NoDup; [exact (si_pots _ Hx)|]. apply sublist_app; [apply filter_out|done].
  - intros st Hl. by apply on_user_drop_user.
  - intros _. unfold pots. cbn [sd_s sd_handles sd_opening]. rewrite Hacc. intros [H|H]%elem_of_app.
    + by apply list_elem_of_filter in H as [? _].
    + by apply (Hdis loc Hin).
Qed.

(** A stream [st] with the new id [i] has entered the heap, the registry and the
    hands of a user; the others are where they were. *)
Record grows (x x' : side) (i : StreamId) (st : StreamInner W) (new : Loc) : Prop := {
  gr_free : new ∉ pots x;
  gr_id : id st = i;
  gr_new : s_heap (sd_s x') !! new = Some st;
  gr_at : s_registry (sd_s x') !! i = Some new;
  gr_old loc st2 : s_heap (sd_s x) !! loc = Some st2 →
    loc ≠ new ∧ id st2 ≠ i ∧ s_heap (sd_s x') !! loc = Some st2;
  gr_back loc st2 : s_heap (sd_s x') !! loc = Some st2 →
    s_heap (sd_s x) !! loc = Some st2 ∨ loc = new ∧ st2 = st;
  gr_registry j : j ≠ i → s_registry (sd_s x') !! j = s_registry (sd_s x) !! j;
  gr_perm : pots x' ≡ₚ new :: pots x;
}.

Lemma gr_pots x x' i st new : grows x x' i st new → ∀ loc, loc ∈ pots x' ↔ loc = new ∨ loc ∈ pots x.
Proof. intros Hg loc. rewrite (gr_perm _ _ _ _ _ Hg). apply elem_of_cons. Qed.

Lemma grows_intro x x' i st :
  side_inv x → ¬ v_known (view_of x) i → id st = i →
  s_heap (sd_s x') = s_heap (sd_s x) ++ [st] →
  s_registry (sd_s x') = <[i := length (s_heap (sd_s x))]> (s_registry (sd_s x)) →
  pots x' ≡ₚ length (s_heap (sd_s x)) :: pots x →
  grows x x' i st (length (s_heap (sd_s x))).
Proof.
  intros Hx Hk Hi Eh Er Hp. constructor; auto.
  - intros [? Hl%lookup_lt_Some]%(si_heap x Hx). lia.
  - rewrite Eh. by apply list_lookup_middle.
  - rewrite Er. apply lookup_insert_eq.
  - intros loc st2 Hl. apply lookup_lt_Some in Hl as Hlt. split_and!; [lia| |].
    + intros E. apply Hk. by exists loc, st2.
    + rewrite Eh. by apply lookup_app_l_Some.
  - intros loc st2. rewrite Eh. intros [?|[Hge Hl]]%lookup_app_Some; [by left|right].
    apply list_lookup_singleton_Some in Hl as [? ->]. split; [lia|done].
  - intros j Hj. rewrite Er. by apply lookup_insert_ne.
Qed.

Lemma grows_side x x' i st new :
  grows x x' i st new → side_inv x → session_inv (sd_s x') →
  s_closer (sd_s x') = s_closer (sd_s x) → s_is_closing (sd_s x') = false → s_peer_gone (sd_s x') = false →
  rx_alive (s_out (sd_s x')) = true → rx_alive (s_accept (sd_s x')) = true →
  (∀ il, il ∈ sd_opening x' → il ∈ sd_opening x ∨ il = (i, new)) → side_inv x'.
Proof.
  intros Hg Hx Hs' Ecl Hcl Hpg Ho Ha Hop. pose proof (gr_pots _ _ _ _ _ Hg) as Hpin.
  destruct Hg as [Hnew Hi Hlnew Hregi Hold Hback Hreg Hp]. constructor; auto.
  - rewrite Hp. constructor; [done|apply (si_pots x Hx)].
  - intros loc [->|Hin]%Hpin; [eauto|]. destruct (si_heap x Hx loc Hin) as [st2 Hl].
    destruct (Hold loc st2 Hl) as (_ & _ & ?). eauto.
  - intros loc st2 Hin Hl Hw. destruct (Hback loc st2 Hl) as [Hl'|[-> ->]]; [|by rewrite Hi].
    destruct (Hold loc st2 Hl') as (Hne & Hid & _). rewrite Hreg by done.
    apply (si_wr x Hx); auto. by apply Hpin in Hin as [->|].
  - rewrite Ecl. intros j Hin. destruct (si_closer x Hx j Hin) as [(loc1 & st1 & Hl1 & <-) Hr].
    destruct (Hold loc1 st1 Hl1) as (_ & Hid & ?). split; [by exists loc1, st1|].
    intros loc. rewrite Hreg by done. intros Hl.
    destruct (inv_registry _ (si_session x Hx) _ _ Hl) as (st2 & Hl2 & _).
    destruct (Hold loc st2 Hl2) as (Hne & _ & Hl2'). destruct (Hr loc Hl) as [Hn|(st3 & Hl3 & ?)].
    + left. intros [->|?]%Hpin; done.
    + right. exists st3. split; [|done]. by apply Hold.
  - intros loc1 loc2 st1 st2 [H1|[-> ->]]%Hback [H2|[-> ->]]%Hback He; [by eapply (si_unique x Hx)|..|done].
    + destruct (Hold _ _ H1) as (_ & ? & _). congruence.
    + destruct (Hold _ _ H2) as (_ & ? & _). congruence.
  - intros j loc Hin. destruct (Hop _ Hin) as [Hin'|[= -> ->]]; [|eauto].
    destruct (si_opening x Hx j loc Hin') as (st2 & Hl & <-). exists st2. split; [|done]. by apply Hold.
Qed.

Lemma grows_gains x x' i st new :
  grows x x' i st new → can_recv st = true → s_role (sd_s x') = s_role (sd_s x) →
  gains i (view_of x) (view_of x').
Proof.
  intros Hg Hc Ero. pose proof (gr_pots _ _ _ _ _ Hg) as Hpin.
  destruct Hg as [Hnew Hi Hlnew Hregi Hold Hback Hreg _].
  split_and!; [cbn; by rewrite Ero|exists new, st; auto|exists new, st; split_and!; auto; apply Hpin; by left|].
  intros j Hj. cbn. rewrite Hreg by done. split_and!; [split| | |].
  - intros (loc & st2 & [?|[-> ->]]%Hback & He); [eauto|congruence].
  - intros (loc & st2 & Hl & He). exists loc, st2. split; [by apply Hold|done].
  - intros (loc & st2 & Hin & [?|[-> ->]]%Hback & He & Hw); [|congruence].
    exists loc, st2. split_and!; auto. apply Hpin in Hin as [->|]; [|done].
    by destruct (Hold _ _ ltac:(eassumption)) as [? _].
  - done.
  - intros _ (loc & st2 & ? & Hl & ?). exists loc, st2. split_and!; auto. by apply Hold.
Qed.

Lemma add_stream x x' i st :
  side_inv x → session_inv (sd_s x') → ¬ v_known (view_of x) i → id st = i → can_recv st = true →
  s_heap (sd_s x') = s_heap (sd_s x) ++ [st] →
  s_registry (sd_s x') = <[i := length (s_heap (sd_s x))]> (s_registry (sd_s x)) →
  s_closer (sd_s x') = s_closer (sd_s x) → s_role (sd_s x') = s_role (sd_s x) →
  s_is_closing (sd_s x') = false → s_peer_gone (sd_s x') = false →
  rx_alive (s_out (sd_s x')) = true → rx_alive (s_accept (sd_s x')) = true →
  pots x' ≡ₚ length (s_heap (sd_s x)) :: pots x →
  (∀ il, il ∈ sd_opening x' → il ∈ sd_opening x ∨ il = (i, length (s_heap (sd_s x)))) →
  side_inv x' ∧ gains i (view_of x) (view_of x').
Proof.
  intros Hx Hs' Hk Hi Hc Eh Er Ecl Ero Hcl Hpg Ho Ha Hp Hop.
  pose proof (grows_intro x x' i st Hx Hk Hi Eh Er Hp) as Hg.
  split; [by eapply grows_side|by eapply grows_gains].
Qed.

Lemma moves_rest x x' fs :
  side_inv x' ∧ shrinks (view_of x) (view_of x') →
  queued (s_out (sd_s x')) = queued (s_out (sd_s x)) ++ fs → Forall harmless fs → moves x x'.
Proof. intros [Hx' Hs] Hq Hf. split; [done|]. exists fs. split; [done|by apply E_quiet]. Qed.

(** [open] up to its wait, on a session that is not closing. *)
Lemma open_start_live s :
  session_inv s → s_is_closing s = false → s_peer_gone s = false → rx_alive (s_out s) = true →
  (∃ e, open_start s = (Err e, s)) ∨
  ∃ i, open_start s = (Ok (i, length (s_heap s)),
    set_out (snd (chan_send (Frame.syn i) (s_out s)))
      (set_registry (<[i := length (s_heap s)]> (s_registry s))
        (set_heap (s_heap s ++ [new i Local (s_config s)])
          (set_id_alloc (StreamIdAllocator.mk (i + 2)) s)))) ∧
    i = StreamIdAllocator.next (s_id_alloc s) ∧ Role.owns (s_role s) i = true ∧ i ≠ 0.
Proof.
  intros Hs Hcl Hpg Hrx. unfold open_start, mbind, SM_bind, sget, is_closed. cbn [fst snd].
  rewrite Hcl, Hpg. cbn [orb]. destruct (_ <=? _); [left; by eexists|].
  destruct (allocate_ok s Hs) as (_ & _ & Hid). revert Hid. unfold StreamIdAllocator.allocate.
  set (i := StreamIdAllocator.next (s_id_alloc s)).
  destruct (checked_add_u32 i 2) as [nxt|] eqn:E; cbn [fst snd ok_or]; intros Hid.
  2: { left. eexists. unfold mret, SM_ret. f_equal. by destruct s. }
  apply StreamIdAllocator.checked_add_u32_Some in E as [-> _].
  destruct (Hid i eq_refl) as (_ & Hnz & Ho & Hreg & _). cbn in Hreg.
  right. exists i. split; [|done]. unfold reg_insert, StreamRegistry.insert, alloc_stream, s_send.
  cbn. rewrite Hreg. cbn. by rewrite send_ok, Hrx.
Qed.

Lemma L_open_moves r s s' hs op :
  open_start s = (r, s') → side_inv (mk_side s hs op) →
  (∀ i, v_own (view_of (mk_side s hs op)) i → v_known (view_of (mk_side s hs op)) i →
     i < v_next (view_of (mk_side s hs op))) →
  moves (mk_side s hs op) (mk_side s' hs (op ++ match r with Ok il => [il] | Err _ => [] end)).
Proof.
  intros E Hx Hlt. pose proof Hx as [Hs Hcl Hpg Hrx Hra _ _ _ _ _ _]. cbn in Hs, Hcl, Hpg, Hrx, Hra.
  pose proof (open_start_ok s Hs) as [Hs' _].
  destruct (open_start_live s Hs Hcl Hpg Hrx) as [[e Eo]|(i & Eo & Hi & Ho & Hnz)];
    rewrite Eo in E, Hs'; simplify_eq.
  - rewrite app_nil_r. apply (moves_rest _ _ []); [|by rewrite app_nil_r|done].
    apply side_rest; try done. by apply pots_same.
  - cbn in Hs'. set (i := StreamIdAllocator.next (s_id_alloc s)) in *.
    assert (¬ v_known (view_of (mk_side s hs op)) i) as Hk.
    { intros Hk. pose proof (Hlt i Ho Hk). cbn in *. subst i. lia. }
    destruct (add_stream (mk_side s hs op) (mk_side (set_out (snd (chan_send (Frame.syn i) (s_out s)))
      (set_registry (<[i := length (s_heap s)]> (s_registry s))
        (set_heap (s_heap s ++ [new i Local (s_config s)])
          (set_id_alloc (StreamIdAllocator.mk (i + 2)) s)))) hs (op ++ [(i, length (s_heap s))]))
      i (new i Local (s_config s))) as [Hx' Hg]; try done.
    + cbn. by rewrite rx_alive_send.
    + unfold pots. cbn. rewrite fmap_app. cbn. solve_Permutation.
    + cbn. intros il [?|?%list_elem_of_singleton]%elem_of_app; auto.
    + split; [done|]. exists [Frame.syn i]. cbn. rewrite queued_send, Hrx. split; [done|].
      by apply E_open.
Qed.

(** One poll of a call of [open] that waits. *)
Lemma on_stream_accept {A} loc (m : M A) (s : session) : s_accept (snd (on_stream loc m s)) = s_accept s.
Proof. unfold on_stream. destruct (s_heap s !! loc); [|done]. by destruct (m _) as [? [? ?]]. Qed.

Lemma L_open_poll_moves cx i loc s hs op :
  (i, loc) ∈ op → side_inv (mk_side s hs op) →
  moves (mk_side s hs op) (mk_side (snd (open_poll cx loc s)) hs op).
Proof.
  intros Hin Hx. apply (user_method _ _ loc (wait_acked cx) false); auto.
  - apply (open_poll_ok cx loc).
  - unfold pots. cbn. rewrite !elem_of_app, list_elem_of_fmap. right; left. by exists (i, loc).
  - apply pots_same; try done. cbn. unfold open_poll. by rewrite on_stream_accept.
  - intros st Hl. apply wait_acked_user.
  - done.
Qed.

Lemma filter_absent {A} `{EqDecision A} (a : A) (l : list A) : a ∉ l → filter (.≠ a) l = l.
Proof. induction l as [|b l IH]; [done|]. rewrite filter_cons. intros Hn. rewrite decide_True, IH; set_solver. Qed.

Lemma filter_one {A} `{EqDecision A} (a : A) l : NoDup l → a ∈ l → l ≡ₚ a :: filter (.≠ a) l.
Proof.
  induction 1 as [|b l Hb Hnd IH]; [set_solver|]. rewrite filter_cons. intros [->|Hin]%elem_of_cons.
  - rewrite decide_False by tauto. by rewrite filter_absent.
  - rewrite decide_True by (intros ->; done). rewrite (IH Hin) at 1. solve_Permutation.
Qed.

(** A call of [open] ends: its stream leaves the ones that wait. *)
Lemma opening_done s hs op i loc :
  side_inv (mk_side s hs op) → (i, loc) ∈ op →
  pots (mk_side s hs op) ≡ₚ loc :: pots (mk_side s hs (filter (.≠ (i, loc)) op)).
Proof.
  intros Hx Hin. destruct (NoDup_pots _ Hx) as (_ & _ & Hnd). cbn in Hnd.
  apply list.NoDup_app in Hnd as [Hnd%NoDup_fmap_1 _]. unfold pots. cbn.
  rewrite (filter_one (i, loc) op Hnd Hin) at 1. cbn. solve_Permutation.
Qed.

(** The entry of a stream without a user goes. *)
Lemma unregister_rest s s' hs op op' i loc st :
  side_inv (mk_side s hs op) → session_inv s' → loc ∉ pots (mk_side s' hs op') →
  pots_shrink (mk_side s hs op) (mk_side s' hs op') →
  s_heap s !! loc = Some st → id st = i →
  s_registry s' = base.delete i (s_registry s) →
  s_heap s' = s_heap s → s_role s' = s_role s → s_id_alloc s' = s_id_alloc s →
  s_is_closing s' = s_is_closing s → s_peer_gone s' = s_peer_gone s →
  rx_alive (s_out s') = rx_alive (s_out s) → s_accept s' = s_accept s → s_closer s' = s_closer s →
  side_inv (mk_side s' hs op') ∧ shrinks (view_of (mk_side s hs op)) (view_of (mk_side s' hs op')).
Proof.
  intros Hx Hs' Hout Hp Hl Hi Er Eh Ero Ei Ec Ep Eo Ea Ecl.
  apply side_rest; auto; cbn; rewrite ?Ea, ?Ecl, ?Er; auto.
  - intros j l. rewrite lookup_delete_Some. tauto.
  - intros l st2 Hin Hl2 _ Hr. rewrite lookup_delete_ne; [done|]. intros E. apply Hout.
    rewrite (si_unique _ Hx loc l st st2 Hl Hl2 ltac:(congruence)). unfold pots. cbn. by rewrite Ea.
Qed.

Lemma L_open_done_moves r i loc r' s s' hs op :
  (i, loc) ∈ op → open_finish i loc (Some r) s = (r', s') → side_inv (mk_side s hs op) →
  moves (mk_side s hs op)
    (mk_side s' (hs ++ match r' with Ok l => [l] | Err _ => [] end) (filter (.≠ (i, loc)) op)).
Proof.
  intros Hin E Hx. pose proof (opening_done s hs op i loc Hx Hin) as Hperm.
  pose proof (si_pots _ Hx) as Hnd. rewrite Hperm in Hnd. apply list.NoDup_cons in Hnd as [Hout Hnd].
  destruct (si_opening _ Hx i loc Hin) as (st & Hl & Hi). cbn in Hl.
  destruct (heap_nonzero _ _ _ Hx Hl) as [_ Hu].
  destruct (open_finish_ok i loc (Some r) ltac:(congruence) s (si_session _ Hx)) as [Hs' _].
  rewrite E in Hs'. cbn in Hs'.
  assert (∀ il, il ∈ filter (.≠ (i, loc)) op → il ∈ op) as Hop
    by (intros il Hil; by apply list_elem_of_filter in Hil as [_ ?]).
  destruct r as [[]|e]; unfold open_finish, reg_remove, mbind, SM_bind, mret, SM_ret in E; cbn in E; injection E as <- <-.
  - assert (pots (mk_side s (hs ++ [loc]) (filter (.≠ (i, loc)) op)) ≡ₚ pots (mk_side s hs op)) as Hp.
    { rewrite Hperm. unfold pots. cbn. solve_Permutation. }
    apply (moves_rest _ _ []); [|by rewrite app_nil_r|done]. apply side_rest; try done.
    unfold pots_shrink. rewrite Hp. split_and!; [by apply si_pots|by intros l; rewrite Hp|exact Hop].
  - rewrite app_nil_r. apply (moves_rest _ _ []); [|by rewrite app_nil_r|done].
    apply (unregister_rest s _ hs op _ i loc st); auto.
    split_and!; [done| |done]. intros l Hin'. rewrite Hperm. by right.
Qed.

Lemma L_open_timeout_moves i loc r s s' hs op :
  (i, loc) ∈ op → open_finish i loc None s = (r, s') → side_inv (mk_side s hs op) →
  moves (mk_side s hs op) (mk_side s' hs (filter (.≠ (i, loc)) op)).
Proof.
  intros Hin E Hx. pose proof (opening_done s hs op i loc Hx Hin) as Hperm.
  pose proof (si_pots _ Hx) as Hnd. rewrite Hperm in Hnd. apply list.NoDup_cons in Hnd as [Hout Hnd].
  destruct (si_opening _ Hx i loc Hin) as (st & Hl & Hi). cbn in Hl.
  destruct (heap_nonzero _ _ _ Hx Hl) as [Hnz Hu].
  destruct (open_finish_ok i loc None ltac:(congruence) s (si_session _ Hx)) as [Hs' _].
  rewrite E in Hs'. cbn in Hs'. unfold open_finish, reg_remove, s_send, mbind, SM_bind, mret, SM_ret in E.
  cbn in E. injection E as _ Es.
  destruct (unregister_rest s s' hs op (filter (.≠ (i, loc)) op) i loc st) as [Hx' Hsh]; try (by subst s'); auto.
  - subst s'. split_and!; [exact Hnd| |]; [intros l Hl'; rewrite Hperm; by right|].
    intros il Hil. by apply list_elem_of_filter in Hil as [_ ?].
  - subst s'. cbn. by rewrite rx_alive_send.
  - split; [done|]. exists [Frame.rst i]. rewrite <- Es at 1. cbn. rewrite queued_send, (si_out _ Hx : rx_alive (s_out s) = true).
    split; [done|]. apply E_end with i; auto; [by exists loc, st|congruence| |by right].
    intros (loc2 & st2 & Hin2 & H2 & Hid2 & _). apply Hout.
    assert (loc2 = loc) as <-; [|by subst s'].
    apply (si_unique _ Hx loc2 loc st2 st); [by subst s'|done|congruence].
Qed.

(** Nothing but the shutdown watch, the outbound and the accept queue moves. *)
Lemma side_channels s s' hs hs' op :
  side_inv (mk_side s hs op) → session_inv s' →
  pots_shrink (mk_side s hs op) (mk_side s' hs' op) →
  s_heap s' = s_heap s → s_role s' = s_role s → s_id_alloc s' = s_id_alloc s →
  s_registry s' = s_registry s → s_closer s' = s_closer s →
  s_is_closing s' = s_is_closing s → s_peer_gone s' = s_peer_gone s →
  rx_alive (s_out s') = rx_alive (s_out s) → rx_alive (s_accept s') = rx_alive (s_accept s) →
  side_inv (mk_side s' hs' op) ∧ shrinks (view_of (mk_side s hs op)) (view_of (mk_side s' hs' op)).
Proof. intros Hx Hs' Hp Eh Er Ei Eg Ecl Ec Ep Eo Ea. apply side_rest; auto; cbn; by rewrite ?Eg, ?Ecl. Qed.

Lemma L_accept_moves s hs op :
  side_inv (mk_side s hs op) → moves (mk_side s hs op) (mk_side (snd (accept_start s)) hs op).
Proof.
  intros Hx. destruct (accept_start_ok s (si_session _ Hx)) as [Hs' _]. pose proof (si_open _ Hx) as Hcl.
  unfold accept_start, mbind, SM_bind, sget, is_closed in *. cbn in Hcl, Hs' |- *. rewrite Hcl in *. cbn in *.
  apply (moves_rest _ _ []); [|by rewrite app_nil_r|done]. apply side_channels; try done. by apply pots_same.
Qed.

Lemma L_accept_poll_moves rx r s s' hs op :
  accept_poll rx s = (r, s') → side_inv (mk_side s hs op) →
  moves (mk_side s hs op) (mk_side s' (hs ++ match r with Some (Ok l) => [l] | _ => [] end) op).
Proof.
  intros E Hx. destruct (accept_poll_ok rx s (si_session _ Hx)) as [Hs' _]. rewrite E in Hs'. cbn in Hs'.
  pose proof (si_out _ Hx) as Hrx. cbn in Hrx. revert E.
  unfold accept_poll, mbind, SM_bind, sget, s_send, mret, SM_ret. cbn [fst snd].
  destruct (watch_changed rx (s_shutdown s)); cbn [fst snd].
  { intros [= <- <-]. rewrite app_nil_r. apply (moves_rest _ _ []); [|by rewrite app_nil_r|done].
    apply side_channels; try done. by apply pots_same. }
  rewrite try_recv_head. pose proof (queued_try_recv (s_accept s)) as Hq.
  assert (pots (mk_side s hs op) = hs ++ (snd <$> op) ++ queued (s_accept s)) as Hps by done.
  destruct (queued (s_accept s)) as [|loc q] eqn:Eq; cbn [head tail] in *.
  { intros [= <- <-]. rewrite app_nil_r. apply (moves_rest _ _ []); [|by rewrite app_nil_r|done].
    apply side_channels; try done; [|by cbn; rewrite rx_alive_try_recv].
    apply pots_same; try done. cbn. by rewrite Hq, Eq. }
  cbn. assert (loc ∈ pots (mk_side s hs op)) as Hin by (rewrite Hps; set_solver).
  destruct (si_heap _ Hx loc Hin) as [st Hl]. cbn in Hl. rewrite Hl. cbn. rewrite send_ok, Hrx. cbn. intros [= <- <-].
  destruct (heap_nonzero _ _ _ Hx Hl) as [Hnz _].
  set (s' := set_out _ _). assert (pots (mk_side s' (hs ++ [loc]) op) ≡ₚ pots (mk_side s hs op)) as Hp.
  { rewrite Hps. unfold pots. cbn. rewrite Hq. solve_Permutation. }
  destruct (side_channels s s' hs (hs ++ [loc]) op) as [Hx' Hsh]; try done.
  - unfold pots_shrink. rewrite Hp. split_and!; [by apply si_pots|by intros l; rewrite Hp|done].
  - cbn. by rewrite rx_alive_send.
  - cbn. by rewrite rx_alive_try_recv.
  - split; [done|]. exists [Frame.ack (id st)]. cbn. rewrite queued_send. cbn. rewrite Hrx. split; [done|].
    apply E_ack; [done|by exists loc, st|done].
Qed.

Lemma L_closer_moves rx s hs op :
  side_inv (mk_side s hs op) → moves (mk_side s hs op) (mk_side (snd (closer_turn rx s)) hs op).
Proof.
  intros Hx. destruct (closer_turn_ok rx s (si_session _ Hx)) as [Hs' _]. revert Hs'.
  unfold closer_turn, reg_remove, mbind, SM_bind, sget, mret, SM_ret. cbn [fst snd].
  destruct (watch_changed rx (s_shutdown s)); cbn [fst snd]; intros Hs'.
  { apply (moves_rest _ _ []); [|by rewrite app_nil_r|done]. apply side_channels; try done. by apply pots_same. }
  revert Hs'. rewrite try_recv_head. pose proof (queued_try_recv (s_closer s)) as Hq.
  destruct (queued (s_closer s)) as [|i q] eqn:Eq; cbn [head tail] in *; cbn; intros Hs';
    (apply (moves_rest _ _ []); [|by rewrite app_nil_r|done]);
    (apply side_rest; try done; [by apply pots_same|cbn; rewrite Hq, ?Eq; set_solver|..]; cbn).
  - intros j l. rewrite lookup_delete_Some. tauto.
  - intros loc st Hin Hl Hw Hr. rewrite lookup_delete_ne; [done|]. intros ->.
    destruct (si_closer _ Hx (id st)) as [_ Hc]; [cbn; rewrite Eq; set_solver|].
    destruct (Hc loc Hr) as [Hn|(st2 & Hl2 & Hre)]; [by apply Hn|].
    cbn in Hl2. congruence.
Qed.

Lemma L_ping_moves (k : ka (R := R)) s hs op :
  side_inv (mk_side s hs op) → moves (mk_side s hs op) (mk_side (snd (ping k s)) hs op).
Proof.
  intros Hx. destruct (ping_ok k s (si_session _ Hx)) as [Hs' _]. pose proof (si_out _ Hx) as Hrx. cbn in Hrx.
  unfold ping, s_send, mbind, SM_bind in *. cbn [fst snd mret SM_ret] in *.
  apply (moves_rest _ _ [Frame.ping (wrapping_add_u32 (nonce k) 1)]); [|cbn; by rewrite queued_send, Hrx|by repeat constructor].
  apply side_channels; try done; [by apply pots_same|cbn; by rewrite rx_alive_send].
Qed.

End Duplex.
