(* ===== verification/Endpoints.v ===== *)
(** * Two sessions agree

    The frames that arrive at a side of [Duplex], the invariant of the whole, and
    that a side takes every frame the other sends without an error, as far as its
    dispatch goes; [Wires.bytes_agree] adds the codec. *)

From S2P Require Import Prelude Machine Errors Config Ids Frames Header Codec Crates Window.
From S2P Require Import StreamState RecvBuffer StreamInner StreamFacts StreamInv Session Reader Api.
From S2P Require Import FlowControl Keepalive Writer SessionInv System Dispatch Pair Duplex.
From Stdlib Require Import ZArith Lia.

Local Open Scope Z_scope.

Section Endpoints.
Context {BF : BitflagsOps}.
Context {W : Type} {AW : AtomicWakerOps W}.
Context {C : Type → Type} {CH : UnboundedChannelOps C}.
Context {X R : Type} {WO : WatchOps X R}.
Context {DO : DrainOrder}.

Abbreviation session := (Session W C X).
Abbreviation side := (side (W := W) (C := C) (X := X)).
Abbreviation duplex := (duplex (W := W) (C := C) (X := X)).
Abbreviation bytes_in st := (RecvBuffer.contents (recv st)).

(** ** A step of a side, with the wires *)

(** The sides stay in step: known streams stay known, none is registered again,
    and a SYN is queued for a new id only. *)
Definition keeps (x x' : side) (Y : view) (P Q : list Frame.t) : Prop :=
  let X := view_of x in let X' := view_of x' in
  side_inv x' ∧ pair_inv X' Y (P ++ queued (s_out (sd_s x'))) Q ∧
  (∀ i, v_known X i → v_known X' i ∧ (v_reg X' i → v_reg X i)) ∧
  ∃ fs, queued (s_out (sd_s x')) = queued (s_out (sd_s x)) ++ fs ∧
    ∀ i, (Frame.syn i ∈ fs → ¬ v_known X i ∧ ¬ v_known Y i ∧
        silent i (P ++ queued (s_out (sd_s x))) ∧ silent i Q) ∧
      (v_wr X' i → v_wr X i ∨ Frame.syn i ∈ fs) ∧ (carried i fs ≠ [] → v_wr X i ∨ Frame.syn i ∈ fs) ∧
      (∀ f, f ∈ fs → fid f = Some i → v_known X' i) ∧ (v_own X' i ↔ v_own X i).

Lemma moves_keeps (x x' : side) Y P Q :
  moves x x' → pair_inv (view_of x) Y (P ++ queued (s_out (sd_s x))) Q → keeps x x' Y P Q.
Proof.
  intros (Hx' & fs & Hq & He) HP. unfold keeps. split_and!; [done| | |].
  - rewrite Hq, app_assoc. by eapply emit_inv.
  - intros i Hk. split; [by eapply emit_known|]. by eapply emit_reg.
  - exists fs. split; [done|]. intros i. destruct (emit_writes _ _ _ i He) as (? & ? & ?).
    split_and!; auto; [by eapply emit_syn|by rewrite (emit_own _ _ _ He)..].
Qed.

Lemma keeps_trans (x x1 x' : side) Y P Q : keeps x x1 Y P Q → keeps x1 x' Y P Q → keeps x x' Y P Q.
Proof.
  intros (_ & _ & H1 & fs1 & Hq1 & Hs1) (Hx' & HP' & H2 & fs2 & Hq2 & Hs2). unfold keeps. split_and!; auto.
  - intros i Hk. destruct (H1 i Hk) as [Hk1 Hr1]. destruct (H2 i Hk1) as [? ?]. auto.
  - exists (fs1 ++ fs2). rewrite Hq2, Hq1, app_assoc. split; [done|].
    intros i. destruct (Hs1 i) as (Hf1 & Hw1 & Hc1 & Hk1 & Ho1), (Hs2 i) as (Hf2 & Hw2 & Hc2 & Hk2 & Ho2).
    rewrite carried_app. split_and!.
    + intros [Hin|Hin]%elem_of_app; [auto|]. destruct (Hf2 Hin) as (Hk & ? & Hsil & ?).
      rewrite Hq1, app_assoc in Hsil. apply silent_app in Hsil as [? _]. split_and!; auto.
      intros Hk0. by apply Hk, H1.
    + intros Hw. rewrite elem_of_app. destruct (Hw2 Hw) as [?|?]; [|tauto]. destruct Hw1; tauto.
    + intros Hc. rewrite elem_of_app. destruct (carried i fs1) eqn:E1; [|destruct Hc1; [done|tauto..]].
      destruct (Hc2 Hc) as [?|?]; [destruct Hw1; tauto|tauto].
    + intros f [?|?]%elem_of_app ?; [|eauto]. apply H2. eauto.
    + tauto.
Qed.

Lemma local_step_keeps (x x' : side) ios Y P Q :
  local_step (R := R) x ios x' → side_inv x →
  pair_inv (view_of x) Y (P ++ queued (s_out (sd_s x))) Q → keeps x x' Y P Q.
Proof.
  intros Hst Hx HP. destruct Hst.
  - apply moves_keeps; [by apply L_user_moves|done].
  - apply moves_keeps; [by apply L_drop_moves|done].
  - apply moves_keeps; [|done]. eapply L_open_moves; [done..|].
    intros i Ho Hk. apply (d_next _ _ _ _ (p_there _ _ _ _ HP) i Ho). by left.
  - apply moves_keeps; [|done]. replace s' with (snd (open_poll cx loc s)) by (by rewrite H0).
    by eapply L_open_poll_moves.
  - assert (keeps (mk_side s hs op) (mk_side s1 hs op) Y P Q) as Hk.
    { apply moves_keeps; [|done]. replace s1 with (snd (open_poll cx loc s)) by (by rewrite H0).
      by eapply L_open_poll_moves. }
    eapply keeps_trans; [exact Hk|]. destruct Hk as (Hx1 & HP1 & _).
    apply moves_keeps; [by eapply L_open_done_moves|done].
  - apply moves_keeps; [by eapply L_open_timeout_moves|done].
  - apply moves_keeps; [by apply L_accept_moves|done].
  - apply moves_keeps; [by eapply L_accept_poll_moves|done].
  - apply moves_keeps; [by apply L_closer_moves|done].
  - apply moves_keeps; [by apply L_ping_moves|done].
Qed.

(** ** A frame arrives *)

(** What a stream does with a frame, seen from its side. *)
Lemma frame_method {A} s hs op loc st (m : M A) ended :
  side_inv (mk_side s hs op) → SM_ok (on_stream (X := X) loc m) → s_heap s !! loc = Some st →
  frame_effect ended st (fst (snd (m (st, links_of s)))) (links_of s) (snd (snd (m (st, links_of s)))) →
  let x := mk_side s hs op in
  let x' := mk_side (snd (on_stream loc m s)) hs op in
  side_inv x' ∧ s_out (sd_s x') = s_out s ∧
  v_own (view_of x') = v_own (view_of x) ∧ v_next (view_of x') = v_next (view_of x) ∧
  ∀ j, (v_known (view_of x') j ↔ v_known (view_of x) j) ∧ (v_wr (view_of x') j → v_wr (view_of x) j) ∧
    (v_reg (view_of x') j → v_reg (view_of x) j) ∧
    (v_reg (view_of x') j → v_recv (view_of x) j → v_recv (view_of x') j ∨ j = id st ∧ ended = true).
Proof.
  intros Hx Hok Hl (Hi & Ho & Hw & Hc & Hcl) x x'.
  destruct (Hok s (si_session _ Hx)) as [Hs' (_ & _ & _ & _ & Hheap & _)].
  destruct (Hheap loc st Hl) as (st2 & Hl2 & _ & Hle & _).
  rewrite (on_stream_put loc m s st Hl) in Hs', Hl2. cbn [snd] in *.
  assert (pots_shrink x x') as Hp by (apply pots_same; try done; cbn; by rewrite on_stream_accept).
  assert (sd_s x' = put_stream loc (fst (snd (m (st, links_of s)))) (snd (snd (m (st, links_of s)))) s) as Es
    by (cbn; by rewrite (on_stream_put loc m s st Hl)).
  set (st' := fst (snd (m _))) in *. set (l' := snd (snd (m _))) in *.
  assert (st2 = st') as ->.
  { by destruct (put_stream_back loc st st' l' s loc st2 Hl Hl2) as [[_ ?]|[? _]]. }
  pose proof (put_stream_view x x' loc st st' l' Hx Hl Es Hp Hi Hw) as Hv.
  split_and!.
  - apply (put_stream_inv x x' loc st st' l'); auto; [by rewrite Es|apply Hle| |].
    + rewrite Ho. exact (si_out _ Hx).
    + intros i Hin. destruct (Hcl i Hin) as [?|[-> ?]]; [by left|right; auto].
  - by rewrite Es.
  - cbn. unfold x' in Es. cbn in Es. by rewrite Es.
  - cbn. unfold x' in Es. cbn in Es. by rewrite Es.
  - intros j. destruct (Hv j) as (? & ? & [? ?] & Hr). split_and!; auto.
    intros _ Hrec. destruct (Hr Hrec) as [?|(-> & Hc1 & Hc2)]; [by left|right].
    destruct (Hc Hc1) as [?|?]; [congruence|done].
Qed.

(** What a frame does to the life of a stream: only a RST resets it, and only a
    frame for it ends its reading. *)
Definition frame_life (f : Frame.t) (st st' : StreamInner W) : Prop :=
  (StreamState.is_reset (state st) = true → StreamState.is_reset (state st') = true) ∧
  (StreamState.is_reset (state st') = true → StreamState.is_reset (state st) = true ∨ f = Frame.rst (id st)) ∧
  (StreamState.write_open (state st') = StreamState.write_open (state st) ∨
     StreamState.is_reset (state st') = true ∧ StreamState.write_open (state st') = false) ∧
  (SendWindow.closed (send_window st') = SendWindow.closed (send_window st) ∨
     StreamState.is_reset (state st') = true) ∧
  (StreamState.read_open (state st') = StreamState.read_open (state st) ∨
     StreamState.is_reset (state st') = true ∨ f = Frame.fin (id st)).

Lemma frame_life_refl f st : frame_life f st st.
Proof. unfold frame_life. tauto. Qed.

(** What it does to the windows: credit goes to the sending one. *)
Definition frame_windows (f : Frame.t) (st st' : StreamInner W) : Prop :=
  let avail st := SendWindow.available (send_window st) in
  recv_window st' = recv_window st ∧
  (avail st + credited (id st) [f] ≤ U32_MAX → avail st' = avail st + credited (id st) [f]).

(** A stream nothing has happened to. *)
Definition newborn (st : StreamInner W) : Prop :=
  let initial := Config.initial_stream_window (config st) in
  state st = StreamState.new ∧ SendWindow.closed (send_window st) = false ∧
  send_window st = SendWindow.new initial ∧ recv_window st = RecvWindow.new initial.

(** The bytes of a frame go to the stream registered for it, and to no other; a
    SYN may make a new stream. *)
Definition frame_data (f : Frame.t) (s s' : session) : Prop :=
  ∀ loc st', s_heap s' !! loc = Some st' →
    (∃ st, s_heap s !! loc = Some st ∧ id st' = id st ∧
       (s_registry s !! id st = Some loc →
          bytes_in st' = bytes_in st ++ carried (id st) [f] ∧ frame_windows f st st') ∧
       (s_registry s !! id st ≠ Some loc → bytes_in st' = bytes_in st) ∧ frame_life f st st') ∨
    (s_heap s !! loc = None ∧ bytes_in st' = [] ∧ f = Frame.syn (id st') ∧ newborn st').

Lemma frame_data_same f (s s' : session) :
  s_heap s' = s_heap s →
  (∀ i loc, s_registry s !! i = Some loc → carried i [f] = [] ∧ credited i [f] = 0) → frame_data f s s'.
Proof.
  intros Eh Hp loc st' Hl. rewrite Eh in Hl. left. exists st'. split_and!; auto; [|apply frame_life_refl].
  intros Hr. unfold frame_windows. destruct (Hp _ _ Hr) as [-> ->]. by rewrite app_nil_r, Z.add_0_r.
Qed.

(** A method of the stream registered at [loc]. *)
Lemma frame_data_method {A} f (s : session) loc st (m : M A) :
  s_registry s !! id st = Some loc → s_heap s !! loc = Some st →
  (∀ loc2 st2, s_heap s !! loc2 = Some st2 → id st2 = id st → loc2 = loc) →
  (∀ i, i ≠ id st → carried i [f] = [] ∧ credited i [f] = 0) →
  id (fst (snd (m (st, links_of s)))) = id st →
  bytes_in (fst (snd (m (st, links_of s)))) = bytes_in st ++ carried (id st) [f] →
  frame_windows f st (fst (snd (m (st, links_of s)))) →
  frame_life f st (fst (snd (m (st, links_of s)))) →
  frame_data f s (snd (on_stream loc m s)).
Proof.
  intros Hr Hl Hu Hf Hi Hb Hw Hlife loc2 st2 Hl2. rewrite (on_stream_put _ _ _ _ Hl) in Hl2. cbn [snd] in Hl2. left.
  destruct (put_stream_back _ _ _ _ _ _ _ Hl Hl2) as [[-> ->]|[Hne Hl2']]; [by exists st|].
  exists st2. split_and!; auto; [|apply frame_life_refl]. intros _. unfold frame_windows.
  destruct (Hf (id st2)) as [-> ->]; [|by rewrite app_nil_r, Z.add_0_r]. intros E. by apply Hne, (Hu _ _ Hl2').
Qed.

(** A side takes a frame without a fault. *)
Definition takes (f : Frame.t) (x : side) : Prop :=
  let x' := mk_side (snd (on_item (NextFrame f) (sd_s x))) (sd_handles x) (sd_opening x) in
  fst (on_item (NextFrame f) (sd_s x)) = true ∧ side_inv x' ∧ frame_data f (sd_s x) (sd_s x') ∧
  (∀ loc, loc ∈ pots x' → loc ∈ pots x ∨ s_heap (sd_s x) !! loc = None) ∧
  ∃ fs, queued (s_out (sd_s x')) = queued (s_out (sd_s x)) ++ fs ∧ handles (view_of x) (view_of x') f fs.

(** The reader goes on when the frame was dispatched. *)
Lemma takes_dispatch f s hs op s' fs :
  dispatch f s = (Ok (), s') → side_inv (mk_side s' hs op) → frame_data f s s' →
  (∀ loc, loc ∈ queued (s_accept s') → loc ∈ queued (s_accept s) ∨ s_heap s !! loc = None) →
  queued (s_out s') = queued (s_out s) ++ fs →
  handles (view_of (mk_side s hs op)) (view_of (mk_side s' hs op)) f fs →
  takes f (mk_side s hs op).
Proof.
  intros E Hx' Hd Hacc Hq Hh. unfold takes. cbn [sd_s sd_handles sd_opening].
  assert (on_item (NextFrame f) s = (true, s')) as ->.
  { cbn [on_item]. unfold mbind, SM_bind. by rewrite E. }
  cbn [fst snd]. split_and!; eauto. intros loc. unfold pots. cbn. rewrite !elem_of_app. naive_solver.
Qed.

Lemma shrinks_of_method (x x' : side) i :
  v_own (view_of x') = v_own (view_of x) → v_next (view_of x') = v_next (view_of x) →
  (∀ j, (v_known (view_of x') j ↔ v_known (view_of x) j) ∧ (v_wr (view_of x') j → v_wr (view_of x) j) ∧
    (v_reg (view_of x') j → v_reg (view_of x) j) ∧
    (v_reg (view_of x') j → v_recv (view_of x) j → v_recv (view_of x') j ∨ j = i ∧ false = true)) →
  shrinks (view_of x) (view_of x').
Proof.
  intros Eo En H. split_and!; [done|done|]. intros j. destruct (H j) as (? & ? & ? & Hr).
  split_and!; auto. intros Hreg Hrec. by destruct (Hr Hreg Hrec) as [?|[_ ?]].
Qed.

Lemma grant_life i fl d st (l : Links C) :
  frame_life (Frame.WindowUpdate i fl d) st (fst (snd (grant_send_credit d (st, l)))).
Proof. unfold grant_send_credit, grant_window, frame_life, SendWindow.grant. cbn. destruct (d =? 0); cbn; tauto. Qed.

Lemma grant_windows i fl d st (l : Links C) :
  id st = i → frame_windows (Frame.WindowUpdate i fl d) st (fst (snd (grant_send_credit d (st, l)))).
Proof.
  intros <-. unfold grant_send_credit, grant_window, frame_windows, SendWindow.grant. cbn. rewrite Z.eqb_refl, Z.add_0_r.
  split; [done|]. intros Hfit. destruct (Z.eqb_spec d 0) as [->|]; cbn; [lia|]. unfold saturating_add_u32. lia.
Qed.

Lemma deliver_windows i fl p st (l : Links C) :
  p = [] ∨ can_recv st = true → frame_windows (Frame.Data i fl p) st (fst (snd (deliver_data fl p (st, l)))).
Proof. intros Hp. unfold frame_windows. cbn [credited foldr]. rewrite Z.add_0_r. by run_deliver fl p Hp. Qed.

Lemma deliver_life i fl p st (l : Links C) :
  id st = i → p = [] ∨ can_recv st = true →
  (contains fl Flags.FIN = true → Frame.Data i fl p = Frame.fin i) →
  (contains fl Flags.RST = true → Frame.Data i fl p = Frame.rst i) →
  frame_life (Frame.Data i fl p) st (fst (snd (deliver_data fl p (st, l)))).
Proof.
  intros <- Hp. run_deliver fl p Hp.
  all: intros HF HR; unfold frame_life; cbn; naive_solver.
Qed.

Lemma takes_window_update i fl d s hs op :
  is_u32 d → side_inv (mk_side s hs op) → takes (Frame.WindowUpdate i fl d) (mk_side s hs op).
Proof.
  intros Hd Hx. destruct (s_registry s !! i) as [loc|] eqn:Hr.
  - destruct (inv_registry _ (si_session _ Hx) _ _ Hr) as (st & Hl & Hi). cbn in Hl.
    destruct (frame_method s hs op loc st (grant_send_credit d) false Hx) as (Hx' & Ho & Eo & En & Hv);
      [by apply on_stream_ok, grant_M_ok|done|apply grant_effect|].
    apply (takes_dispatch _ _ _ _ (snd (on_stream loc (grant_send_credit d) s)) []); auto.
    + cbn [dispatch]. unfold mbind, SM_bind, sget, StreamRegistry.get. cbn [fst snd]. by rewrite Hr.
    + apply (frame_data_method _ s loc st); auto;
        [by rewrite Hi| | |by rewrite app_nil_r|by apply grant_windows|apply grant_life].
      { intros loc2 st2 Hl2 Hid2. by apply (si_unique _ Hx loc2 loc st2 st). }
      intros j Hj. cbn. by rewrite (proj2 (Z.eqb_neq _ _)) by congruence.
    + rewrite on_stream_accept. auto.
    + cbn in Ho. by rewrite Ho, app_nil_r.
    + apply H_harmless; [by apply (shrinks_of_method _ _ (id st))|done|done].
  - apply (takes_dispatch _ _ _ _ s []); auto.
    + cbn [dispatch]. unfold mbind, SM_bind, sget, StreamRegistry.get. cbn [fst snd]. by rewrite Hr.
    + apply frame_data_same; [done|]. intros j loc Hj. cbn. by rewrite (proj2 (Z.eqb_neq _ _)) by congruence.
    + by rewrite app_nil_r.
    + apply H_harmless; [|done|done]. apply side_rest; try done; [apply Hx|by apply pots_same].
Qed.

Lemma takes_ping fl n s hs op :
  Frame.wf (Frame.Ping fl n) → side_inv (mk_side s hs op) → takes (Frame.Ping fl n) (mk_side s hs op).
Proof.
  intros Hwf Hx. destruct (dispatch_ok (Frame.Ping fl n) Hwf s (si_session _ Hx)) as [Hs' _].
  pose proof (si_out _ Hx) as Hrx. cbn in Hrx. revert Hs'.
  cbn [dispatch]. unfold mbind, SM_bind, mret, SM_ret, s_send. destruct (contains fl Flags.ACK) eqn:Hc; cbn [fst snd]; intros Hs'.
  - set (s' := set_pong _ _) in *. destruct (side_channels s s' hs hs op) as [Hx' Hsh]; try done; [by apply pots_same|].
    apply (takes_dispatch _ _ _ _ s' []); auto; [|by apply frame_data_same|by rewrite app_nil_r|by apply H_harmless].
    cbn [dispatch]. by rewrite Hc.
  - set (s' := set_out _ _) in *. destruct (side_channels s s' hs hs op) as [Hx' Hsh]; try done;
      [by apply pots_same|cbn; by rewrite rx_alive_send|].
    apply (takes_dispatch _ _ _ _ s' [Frame.pong n]); auto;
      [|by apply frame_data_same| |apply H_harmless; try done; by repeat constructor].
    + cbn [dispatch]. by rewrite Hc.
    + cbn. by rewrite queued_send, Hrx.
Qed.

(** A frame that is no SYN, for a stream that is not registered. *)
Lemma takes_unknown i fl p s hs op :
  i ≠ 0 → is_u32 i → contains fl Flags.SYN = false → Frame.Data i fl p ≠ Frame.syn i →
  s_registry s !! i = None → side_inv (mk_side s hs op) → takes (Frame.Data i fl p) (mk_side s hs op).
Proof.
  intros Hi Hu Hsyn Hns Hr Hx. pose proof (unknown_stream_contract i fl p s Hsyn Hr) as E.
  rewrite (proj2 (Z.eqb_neq _ _) Hi) in E. pose proof (si_out _ Hx) as Hrx. cbn in Hrx.
  pose proof (unregistered_not_wr _ i Hx Hr) as Hw.
  assert (∀ j loc, s_registry s !! j = Some loc → carried j [Frame.Data i fl p] = [] ∧
    credited j [Frame.Data i fl p] = 0) as Hpay.
  { intros j loc Hj. split; [|done]. apply carried_empty. right. cbn. congruence. }
  destruct (contains fl Flags.ACK || contains fl Flags.RST).
  - apply (takes_dispatch _ _ _ _ s []); auto; [by apply frame_data_same|by rewrite app_nil_r|].
    apply (H_unknown _ _ i); auto; [|by cbn; rewrite Hr; intros []].
    apply side_rest; try done; [apply Hx|by apply pots_same].
  - destruct (s_send_ok (Frame.rst i) (control_rst _ Hu) eq_refl s (si_session _ Hx)) as [Hs' _].
    destruct (side_channels s _ hs hs op Hx Hs') as [Hx' Hsh]; try done;
      [by apply pots_same|cbn; by rewrite rx_alive_send|].
    apply (takes_dispatch _ _ _ _ _ [Frame.rst i] E); auto; [by apply frame_data_same|cbn; by rewrite queued_send, Hrx|].
    apply (H_unknown _ _ i); auto. by cbn; rewrite Hr; intros [].
Qed.

(** A frame that is no SYN, for a registered stream that can take it. *)
Lemma takes_deliver i fl p loc st s hs op :
  i ≠ 0 → contains fl Flags.SYN = false → Frame.Data i fl p ≠ Frame.syn i →
  (contains fl Flags.FIN || contains fl Flags.RST = true → ends i (Frame.Data i fl p)) →
  s_registry s !! i = Some loc → s_heap s !! loc = Some st → id st = i → p = [] ∨ can_recv st = true →
  side_inv (mk_side s hs op) → takes (Frame.Data i fl p) (mk_side s hs op).
Proof.
  intros Hi Hsyn Hns Hend Hr Hl Hid Hp Hx.
  destruct (deliver_data_effect st (links_of s) fl p Hp) as [Hok Heff].
  destruct (frame_method s hs op loc st (deliver_data fl p) _ Hx
    (on_stream_ok _ _ (deliver_data_M_ok fl p)) Hl Heff) as (Hx' & Ho & Eo & En & Hv).
  apply (takes_dispatch _ _ _ _ (snd (on_stream loc (deliver_data fl p) s)) []); auto.
  - cbn [dispatch]. unfold handle_data. rewrite (proj2 (Z.eqb_neq _ _) Hi), Hsyn.
    unfold mbind, SM_bind, sget, StreamRegistry.get, mret, SM_ret. cbn [fst snd]. rewrite Hr.
    rewrite (on_stream_put _ _ _ _ Hl). cbn [fst snd default]. by rewrite Hok.
  - pose proof (deliver_data_spec st (links_of s) fl p Hp) as Hd.
    destruct Heff as (Hid' & _). apply (frame_data_method _ s loc st); auto;
      [by rewrite Hid| | | |by apply deliver_windows|].
    { intros loc2 st2 Hl2 Hid2. by apply (si_unique _ Hx loc2 loc st2 st). }
    { intros j Hj. split; [|done]. apply carried_empty. right. cbn. congruence. }
    { destruct (deliver_data fl p _) as [r [st' l']]. destruct Hd as (_ & Hb & _). cbn [fst snd].
      by rewrite Hb, Hid, carried_data, app_nil_r. }
    apply deliver_life; auto; intros Hf; rewrite contains_spec in Hf;
      (destruct Hend as [E|E]; [by rewrite !contains_spec, Hf, ?orb_true_r|..]); try done;
      injection E as -> _; by vm_compute in Hf.
  - rewrite on_stream_accept. auto.
  - cbn in Ho. by rewrite Ho, app_nil_r.
  - apply (H_deliver _ _ i); auto. intros j. destruct (Hv j) as (? & ? & ? & Hrec). split_and!; auto.
    intros Hrj Hj. destruct (Hrec Hrj Hj) as [?|[-> ?]]; [by left|right]. split; [done|auto].
Qed.

(** A SYN without flags or payload besides leaves the stream it makes alone. *)
Lemma deliver_syn st (l : Links C) : deliver_data Flags.SYN [] (st, l) = (Ok (), (st, l)).
Proof.
  unfold deliver_data. rewrite bool_decide_eq_true_2 by done.
  rewrite !contains_spec. reflexivity.
Qed.

Lemma dispatch_syn i s :
  i ≠ 0 → Role.owns (s_role s) i = false → s_peer_gone s = false → s_registry s !! i = None →
  rx_alive (s_accept s) = true →
  dispatch (Frame.syn i) s =
    if Config.max_streams (s_config s) <=? StreamRegistry.len (s_registry s)
    then (Ok (), set_out (snd (chan_send (Frame.rst i) (s_out s))) s)
    else (Ok (), snd (on_stream (length (s_heap s)) (deliver_data Flags.SYN [])
      (set_accept (snd (chan_send (length (s_heap s)) (s_accept s)))
        (set_registry (<[i := length (s_heap s)]> (s_registry s))
          (set_heap (s_heap s ++ [new i Remote (s_config s)]) s))))).
Proof.
  intros Hi Hown Hpg Hreg Hrx. cbn [dispatch Frame.syn]. unfold handle_data.
  rewrite (proj2 (Z.eqb_neq _ _) Hi).
  rewrite (contains_spec Flags.SYN Flags.SYN : contains Flags.SYN Flags.SYN = true).
  unfold handle_syn, mbind, SM_bind, sget, mret, SM_ret. cbn [fst snd]. rewrite Hown. cbn [fst snd].
  rewrite Hpg. cbn [fst snd]. destruct (_ <=? _); [done|]. cbn [fst snd]. unfold reg_insert, StreamRegistry.insert, alloc_stream. cbn.
  rewrite Hreg. cbn. rewrite send_ok, Hrx. cbn. unfold StreamRegistry.get. rewrite lookup_insert_eq. cbn.
  f_equal. rewrite (on_stream_put _ _ _ (new i Remote (s_config s))) by (by apply list_lookup_middle).
  by rewrite deliver_syn.
Qed.

Lemma takes_syn i s hs op :
  i ≠ 0 → is_u32 i → Role.owns (s_role s) i = false → ¬ v_known (view_of (mk_side s hs op)) i →
  side_inv (mk_side s hs op) → takes (Frame.syn i) (mk_side s hs op).
Proof.
  intros Hi Hu Hown Hk Hx. pose proof Hx as [Hs Hcl Hpg Hrx Hra _ _ _ _ _ _]. cbn in Hs, Hcl, Hpg, Hrx, Hra.
  assert (s_registry s !! i = None) as Hreg.
  { apply eq_None_not_Some. intros [loc Hl]. apply Hk. by destruct (inv_registry _ Hs _ _ Hl) as (st & ? & ?); exists loc, st. }
  pose proof (dispatch_syn i s Hi Hown Hpg Hreg Hra) as E.
  destruct (dispatch_ok (Frame.syn i) (conj Hu eq_refl) s Hs) as [Hs' _]. rewrite E in Hs'.
  destruct (_ <=? _).
  - destruct (side_channels s _ hs hs op Hx Hs') as [Hx' Hsh]; try done;
      [by apply pots_same|cbn; by rewrite rx_alive_send|].
    apply (takes_dispatch _ _ _ _ _ [Frame.rst i] E); auto;
      [by apply frame_data_same; [|intros; split; [apply carried_empty; by left|]]|cbn; by rewrite queued_send, Hrx|].
    apply H_refuse; [done|]. intros (loc & st & _ & Hl & Hid & _). apply Hk. by exists loc, st.
  - rewrite (on_stream_put _ _ _ (new i Remote (s_config s))) in E, Hs' by (by apply list_lookup_middle).
    rewrite deliver_syn in E, Hs'. cbn [fst snd] in E, Hs'. set (s' := put_stream _ _ _ _) in *.
    assert (s_heap s' = s_heap s ++ [new i Remote (s_config s)]) as Eh.
    { cbn. apply list_insert_id, list_lookup_middle. done. }
    destruct (add_stream (mk_side s hs op) (mk_side s' hs op) i (new i Remote (s_config s))) as [Hx' Hg]; try done.
    + cbn. by rewrite rx_alive_send.
    + unfold pots. cbn. rewrite queued_send, Hra. solve_Permutation.
    + auto.
    + apply (takes_dispatch _ _ _ _ s' [] E); auto; [| |by rewrite app_nil_r|by apply H_accept].
      2: { intros loc. cbn. rewrite queued_send, Hra. intros [?| ->%list_elem_of_singleton]%elem_of_app; [by left|right].
           by apply lookup_ge_None_2. }
      intros loc st'. rewrite Eh. intros [Hl|[Hge Hl]]%lookup_app_Some; [left|right].
      * exists st'. split_and!; auto; [|apply frame_life_refl]. intros _. unfold frame_windows. rewrite carried_empty by (by left). by rewrite app_nil_r, Z.add_0_r.
      * apply list_lookup_singleton_Some in Hl as [_ <-]. by split_and!; [apply lookup_ge_None|..].
Qed.

(** ** Every frame that arrives is taken *)

Lemma frame_taken f s hs op Y P Q :
  Frame.wf f → side_inv (mk_side s hs op) →
  pair_inv (view_of (mk_side s hs op)) Y P (f :: Q) → takes f (mk_side s hs op).
Proof.
  intros Hwf Hx HP.
  pose proof (d_shape _ _ _ _ (p_back _ _ _ _ HP)) as [Hsh _]%Forall_cons_1.
  destruct f as [i fl p|i fl d|fl n|c]; [|apply takes_window_update; try done; apply Hwf|by apply takes_ping|done].
  destruct Hsh as [Hi Hsh]. assert (is_u32 i) as Hu by apply Hwf.
  destruct (decide (Frame.Data i fl p = Frame.syn i)) as [E|Hns].
  { rewrite E in *. destruct (head_syn _ _ _ _ _ HP) as (_ & _ & Hown & Hk & _). apply takes_syn; auto.
    by apply not_true_is_false. }
  assert (contains fl Flags.SYN = false ∧
    (contains fl Flags.FIN || contains fl Flags.RST = true → ends i (Frame.Data i fl p))) as [Hsyn Hend].
  { rewrite !contains_spec. destruct Hsh as [?|[[= -> ->]|[[[= -> ->]|[= -> ->]]| ->]]]; try done;
      (split; [reflexivity|]); intros H; try (by vm_compute in H); [by left|by right]. }
  destruct (s_registry s !! i) as [loc|] eqn:Hr; [|by apply takes_unknown].
  destruct (inv_registry _ (si_session _ Hx) _ _ Hr) as (st & Hl & Hid). cbn in Hl.
  apply (takes_deliver i fl p loc st); auto. destruct p as [|b p]; [by left|right].
  destruct (arrival_deliverable _ _ _ _ _ i HP) as (loc2 & st2 & Hr2 & Hl2 & Hc); [done|by exists loc|].
  cbn in Hr2, Hl2. congruence.
Qed.

(** ** The whole system *)

Record duplex_inv (d : duplex) : Prop := {
  di_here : side_inv (dx_here d);
  di_there : side_inv (dx_there d);
  di_pair : pair_inv (view_of (dx_here d)) (view_of (dx_there d))
    (dx_out d ++ queued (s_out (sd_s (dx_here d)))) (dx_in d ++ queued (s_out (sd_s (dx_there d))));
  di_out : Forall Frame.wf (dx_out d);
  di_in : Forall Frame.wf (dx_in d);
}.

Lemma duplex_inv_turned d : duplex_inv (turned d) ↔ duplex_inv d.
Proof. split; intros [H1 H2 H3 H4 H5]; constructor; auto; by apply pair_inv_flip. Qed.

(** The writer moves a frame from the queue to the connection. *)
Lemma recv_out_side f s s' hs op :
  recv_out s = (Some f, s') → side_inv (mk_side s hs op) →
  side_inv (mk_side s' hs op) ∧ shrinks (view_of (mk_side s hs op)) (view_of (mk_side s' hs op)) ∧
  queued (s_out s) = f :: queued (s_out s') ∧ Frame.wf f.
Proof.
  intros E Hx. destruct (recv_out_ok s (si_session _ Hx)) as [Hs' Hq].
  unfold recv_out in E. injection E as Ef <-. rewrite try_recv_head in Ef.
  destruct (queued (s_out s)) as [|g q] eqn:Eq; cbn in Ef; [done|]. injection Ef as ->.
  destruct (side_channels s _ hs hs op Hx Hs') as [Hx' Hsh]; try done;
    [by apply pots_same|cbn; by rewrite rx_alive_try_recv|].
  split_and!; [done|done|by rewrite Hq|]. pose proof (inv_out _ (si_session _ Hx)) as Ho. cbn in Ho.
  rewrite Eq in Ho. by apply Forall_cons_1 in Ho as [[? _] _].
Qed.

Lemma half_step_inv d d' : half_step (R := R) d d' → duplex_inv d → duplex_inv d'.
Proof.
  intros Hst [Hx Hy HP Ho Hi].
  destruct Hst as [x ios x' y o i lx ly Hl|f s s' hs op y o i lx ly E|f go s s' hs op y o i lx ly E]; cbn in *.
  - destruct (local_step_keeps x x' ios _ o _ Hl Hx HP) as (? & ? & _). by constructor.
  - destruct (recv_out_side f s s' hs op E Hx) as (Hx' & Hsh & Hq & Hf). constructor; auto; cbn.
    + rewrite <- app_assoc. cbn. rewrite <- Hq. by eapply pair_shrinks.
    + apply Forall_app. split; [done|by constructor].
  - apply Forall_cons_1 in Hi as [Hf Hi].
    destruct (frame_taken f s hs op _ _ _ Hf Hx HP) as (_ & Hx' & _ & _ & fs & Hq & Hh). cbn in Hx', Hq, Hh.
    rewrite E in Hx', Hq, Hh. cbn in Hx', Hq, Hh. constructor; auto. cbn.
    rewrite Hq, app_assoc. by eapply handles_inv.
Qed.

(** A new session holds nothing. *)
Lemma start_empty cfg role :
  let s := start (W := W) (C := C) (X := X) (R := R) cfg role in
  s_heap s = [] ∧ s_registry s = ∅ ∧ s_peer_gone s = false ∧
  rx_alive (s_out s) = true ∧ rx_alive (s_accept s) = true ∧ queued (s_accept s) = [] ∧
  queued (s_closer s) = [].
Proof.
  unfold start, session_new. destruct (watch_channel false) as [rx0 x].
  destruct (Config.keepalive_interval cfg); cbn; split_and!; try done; (apply rx_alive_new || apply queued_new).
Qed.

Lemma start_silent cfg role :
  Config.valid cfg → queued (s_out (start (W := W) (C := C) (X := X) (R := R) cfg role)) = [].
Proof. intros Hv. by destruct (start_spec (W := W) (C := C) (X := X) (R := R) cfg role Hv) as (_ & _ & _ & _ & ->). Qed.

Lemma start_side cfg role :
  Config.valid cfg → side_inv (mk_side (start (W := W) (C := C) (R := R) cfg role) [] []).
Proof.
  intros Hv. destruct (start_spec (W := W) (C := C) (R := R) cfg role Hv) as (Hs & _ & _ & Hcl & _).
  destruct (start_empty cfg role) as (Hh & Hr & Hpg & Ho & Ha & Hq & Hc).
  constructor; cbn; auto; rewrite ?Hh, ?Hq, ?Hc; try done; try set_solver; constructor.
Qed.

Lemma start_dir cfg cfg' role role' :
  Config.valid cfg → Config.valid cfg' →
  dir_inv (view_of (mk_side (start (W := W) (C := C) (R := R) cfg role) [] []))
    (view_of (mk_side (start (W := W) (C := C) (R := R) cfg' role') [] [])) [] [].
Proof.
  intros Hv Hv'. destruct (start_empty cfg role) as (Hh & _ & _ & _ & _ & Hq & _).
  destruct (start_empty cfg' role') as (Hh' & Hr' & _).
  constructor; cbn; rewrite ?Hh, ?Hh', ?Hr'; try done.
  - intros i [? [=]].
  - intros i [? [=]].
  - intros i [] ? ? [=].
  - intros i [] ? [=].
  - intros i _ [(? & ? & [=] & _)|[(? & ? & [=] & _)|[H|H]]]; inversion H.
Qed.

Lemma duplex_reachable_inv cfg_a cfg_b d :
  Config.valid cfg_a → Config.valid cfg_b → duplex_reachable (R := R) cfg_a cfg_b d → duplex_inv d.
Proof.
  intros Ha Hb Hr. assert (duplex_inv (duplex_new (R := R) cfg_a cfg_b)) as Hn.
  { constructor; cbn; try done; try by apply start_side.
    destruct (start_spec (W := W) (C := C) (R := R) cfg_a Role.Client Ha) as (_ & _ & Hra & _ & ->).
    destruct (start_spec (W := W) (C := C) (R := R) cfg_b Role.Server Hb) as (_ & _ & Hrb & _ & ->).
    constructor; try by apply start_dir. cbn. rewrite Hra, Hrb. intros i Ho Ho'.
    apply Role.owns_exclusive in Ho. cbn in Ho, Ho'. congruence. }
  revert Hn. unfold duplex_reachable in Hr. induction Hr as [|d1 d2 d3 Hst _ IH]; [done|].
  intros Hd1. apply IH. destruct Hst as [d d' Hst|d d' Hst]; [by eapply half_step_inv|].
  apply duplex_inv_turned. eapply half_step_inv; [done|]. by apply duplex_inv_turned.
Qed.

(** A property of both directions, by induction on the steps. *)
Lemma reachable_both cfg_a cfg_b (I : duplex → Prop) :
  Config.valid cfg_a → Config.valid cfg_b →
  I (duplex_new (R := R) cfg_a cfg_b) → I (turned (duplex_new (R := R) cfg_a cfg_b)) →
  (∀ d d', half_step (R := R) d d' → duplex_inv d → I d ∧ I (turned d) → I d' ∧ I (turned d')) →
  ∀ d, duplex_reachable (R := R) cfg_a cfg_b d → I d ∧ I (turned d).
Proof.
  intros Ha Hb Hn Hn' Hstep d Hr.
  enough (∀ d0, duplex_inv d0 → I d0 ∧ I (turned d0) → rtc (duplex_step (R := R)) d0 d → I d ∧ I (turned d)) as H.
  { apply (H (duplex_new (R := R) cfg_a cfg_b)); [by eapply duplex_reachable_inv, rtc_refl|done|done]. }
  intros d0 Hd Hf Hst. induction Hst as [|d1 d2 d3 Hst _ IH]; [done|].
  destruct Hst as [d1 d2 Hst|d1 d2 Hst].
  - apply IH; [done|by eapply half_step_inv|by eapply Hstep].
  - apply IH; [done|by apply duplex_inv_turned; eapply half_step_inv; [done|apply duplex_inv_turned]|].
    pose proof (Hstep _ _ Hst) as Hfl. rewrite !turned_turned in Hfl.
    destruct Hfl; [by apply duplex_inv_turned|tauto|done].
Qed.

(** A side that accepts whatever the other may send next. *)
Definition at_peace (x : side) (arriving : list Frame.t) : Prop :=
  s_is_closing (sd_s x) = false ∧ goaways arriving = 0%nat ∧
  ∀ f rest, arriving = f :: rest → fst (dispatch f (sd_s x)) = Ok ().

Lemma half_at_peace d : duplex_inv d → at_peace (dx_here d) (dx_in d).
Proof.
  intros [Hx Hy HP Ho Hi]. split_and!; [apply Hx| |].
  - pose proof (d_shape _ _ _ _ (p_back _ _ _ _ HP)) as [Hsh _]%Forall_app.
    clear -Hsh. unfold goaways. induction Hsh as [|f w Hf _ IH]; [done|]. by destruct f.
  - intros f rest E. destruct d as [[s hs op] y o i lx ly]. cbn in *. subst i.
    apply Forall_cons_1 in Hi as [Hf _].
    destruct (frame_taken f s hs op _ _ _ Hf Hx HP) as (Hgo & _). revert Hgo. cbn [on_item sd_s].
    unfold mbind, SM_bind. by destruct (fst (dispatch f s)) as [[]|e].
Qed.

End Endpoints.
