(* ===== verification/Transparency.v ===== *)
(** * What is written is what is read

    The bytes of every stream of [Duplex], followed from the users' writes on
    one side to the users' reads on the other: through the frames in the queue
    and on the connection, and the receive buffer.  At the end of a stream the
    reader has everything its peer wrote. *)

From S2P Require Import Prelude Machine Errors Config Ids Frames Header Codec Crates Window.
From S2P Require Import StreamState RecvBuffer StreamInner StreamFacts StreamInv Session Reader Api.
From S2P Require Import FlowControl Keepalive Writer SessionInv System Dispatch Pair Duplex Endpoints.
From Stdlib Require Import ZArith Lia.

Local Open Scope Z_scope.

(** ** The logs, per stream *)

Definition wrote (i : StreamId) (log : list io) : list byte :=
  concat ((λ e, match e with Wrote j bs => if j =? i then bs else [] | _ => [] end) <$> log).

Definition got (i : StreamId) (log : list io) : list byte :=
  concat ((λ e, match e with Got j bs => if j =? i then bs else [] | _ => [] end) <$> log).

Lemma wrote_app i l1 l2 : wrote i (l1 ++ l2) = wrote i l1 ++ wrote i l2.
Proof. unfold wrote. by rewrite fmap_app, concat_app. Qed.
Lemma got_app i l1 l2 : got i (l1 ++ l2) = got i l1 ++ got i l2.
Proof. unfold got. by rewrite fmap_app, concat_app. Qed.
Section Transparency.
Context {BF : BitflagsOps}.
Context {W : Type} {AW : AtomicWakerOps W}.
Context {C : Type → Type} {CH : UnboundedChannelOps C}.
Context {X R : Type} {WO : WatchOps X R}.
Context {DO : DrainOrder}.

Abbreviation session := (Session W C X).
Abbreviation side := (side (W := W) (C := C) (X := X)).
Abbreviation duplex := (duplex (W := W) (C := C) (X := X)).

Abbreviation bytes_in st := (RecvBuffer.contents (recv st)).

(** ** Stream operations *)

(** What a step that logs [ios] does to the life of a stream: only the user ends
    the writing, and says so in the log. *)
Definition same_life (ios : list io) (st st' : StreamInner W) : Prop :=
  StreamState.is_reset (state st') = StreamState.is_reset (state st) ∧
  StreamState.read_open (state st') = StreamState.read_open (state st) ∧
  SendWindow.closed (send_window st') = SendWindow.closed (send_window st) ∧
  (StreamState.write_open (state st') = StreamState.write_open (state st) ∨
     StreamState.write_open (state st') = false ∧ Shut (id st) ∈ ios).

Lemma same_life_refl ios st : same_life ios st st.
Proof. unfold same_life. auto. Qed.

(** What a step that queues [fs] does to the windows: the credit of a write is in
    its payload, what is read is in the tally or in an update. *)
Abbreviation avail st := (SendWindow.available (send_window st)).
Abbreviation held st := (RecvWindow.pending_credit (recv_window st) + Z.of_nat (length (bytes_in st))).

Definition account (fs : list Frame.t) (st st' : StreamInner W) : Prop :=
  avail st' + Z.of_nat (length (carried (id st) fs)) = avail st ∧
  (RecvWindow.wf (recv_window st) → held st ≤ U32_MAX →
   RecvWindow.wf (recv_window st') ∧
   RecvWindow.initial (recv_window st') = RecvWindow.initial (recv_window st) ∧
   held st' + credited (id st) fs = held st).

Lemma account_same fs st st' :
  send_window st' = send_window st → recv_window st' = recv_window st → bytes_in st' = bytes_in st →
  carried (id st) fs = [] → credited (id st) fs = 0 → account fs st st'.
Proof. unfold account. intros -> -> -> -> ->. cbn. split_and!; [lia|]. intros. split_and!; auto; lia. Qed.

(** A call by the user that logs [ios]. *)
Definition call_data (ios : list io) (st st' : StreamInner W) (l l' : Links C) : Prop :=
  id st' = id st ∧ bytes_in st = got (id st) ios ++ bytes_in st' ∧ same_life ios st st' ∧
  (∀ i, i ≠ id st → wrote i ios = [] ∧ got i ios = []) ∧
  ∃ fs, queued (out_ch l') = queued (out_ch l) ++ fs ∧
    (∀ i, Frame.rst i ∉ fs ∧
       (Frame.fin i ∈ fs → i = id st ∧ StreamState.write_open (state st') = false)) ∧
    (∀ i, carried i fs = wrote i ios) ∧ account fs st st' ∧ (∀ i, i ≠ id st → credited i fs = 0).

Lemma call_data_quiet ios st st' (l l' : Links C) :
  (∀ i, wrote i ios = [] ∧ got i ios = []) → same_life ios st st' →
  id st' = id st → recv st' = recv st → recv_window st' = recv_window st → avail st' = avail st →
  queued (out_ch l') = queued (out_ch l) → call_data ios st st' l l'.
Proof.
  intros Hio Hl Hi Hr Hw Ha Hq. unfold call_data. rewrite Hr. destruct (Hio (id st)) as [_ ->]. split_and!; auto.
  exists []. rewrite app_nil_r. split_and!; [done|set_solver| | |done].
  - intros i. by destruct (Hio i) as [-> _].
  - unfold account. rewrite Ha, Hr, Hw. cbn. split_and!; [lia|]. intros. split_and!; auto; lia.
Qed.

(** The life of the stream is visibly the same. *)
Ltac life := unfold same_life; cbn; split_and!; try congruence; set_solver.
Ltac quiet_call := apply call_data_quiet; try done; try (cbn; congruence); life.

Lemma poll_write_data cx buf st (l : Links C) :
  stream_wf st → 1 ≤ Config.max_frame_size (config st) → rx_alive (out_ch l) = true →
  call_data (match fst (poll_write cx buf (st, l)) with Ready (Ok n) => [Wrote (id st) (take n buf)] | _ => [] end)
    st (fst (snd (poll_write cx buf (st, l)))) l (snd (snd (poll_write cx buf (st, l)))).
Proof.
  intros Hwf Hmax Hrx. pose proof (write_effect cx buf st l) as Heff. revert Heff.
  rewrite poll_write_spec, Hrx by done.
  destruct (StreamState.is_reset (state st)); [intros _; quiet_call|].
  destruct (StreamState.write_open (state st)) eqn:Hwo; [|intros _; quiet_call]. cbn [negb].
  assert (∀ i n, wrote i [Wrote (id st) (take n buf)] = if id st =? i then take n buf else []) as Hw
    by (intros i n; cbn; by rewrite app_nil_r).
  assert (∀ i, i ≠ id st → (id st =? i) = false) as Hne by (intros; apply Z.eqb_neq; congruence).
  case_bool_decide as Hb.
  { subst buf. intros _. unfold call_data. cbn. split_and!; auto; [apply same_life_refl|by intros i ->%Hne|].
    exists []. rewrite app_nil_r. split_and!; [done|set_solver| |by apply account_same|done]. intros i. cbn. by destruct (_ =? _). }
  destruct (SendWindow.closed (send_window st)) eqn:Hcl; [intros _; quiet_call|].
  destruct (Z.eqb_spec (avail st) 0) as [|_]; [intros _; quiet_call|].
  set (n := Z.to_nat _). intros Heff. unfold call_data. cbn [fst snd]. split_and!; auto.
  - life.
  - intros i Hi. by rewrite Hw, (Hne i Hi).
  - eexists. cbn. rewrite queued_send, Hrx. split_and!; [done| |done| |done].
    + intros i. by split; intros ?%list_elem_of_singleton.
    + destruct (Heff _ _ _ [Frame.data (id st) Flags.empty (take n buf)] Hwf Hmax eq_refl eq_refl) as (_ & _ & _ & _ & Ha & _);
        [cbn; by rewrite queued_send, Hrx|].
      unfold account. cbn in Ha |- *. rewrite Z.eqb_refl, app_nil_r. split; [exact Ha|]. intros. split_and!; auto; lia.
Qed.

Lemma got_one i j bs : got i [Got j bs] = if j =? i then bs else [].
Proof. cbn. by rewrite app_nil_r. Qed.

Lemma consume_account st r' n :
  (n ≤ length (bytes_in st))%nat → RecvBuffer.contents r' = drop n (bytes_in st) →
  account (updates st (fst (after_consume st n))) st
    (set_recv_window (snd (after_consume st n)) (set_recv r' st)).
Proof.
  intros Hn Hr'. unfold account. cbn [recv_window recv set_recv_window set_recv send_window].
  split; [destruct (fst (after_consume st n)); cbn; lia|]. intros Hw Hfit.
  assert (as_u32 (Z.of_nat n) = Z.of_nat n) as Hu.
  { unfold as_u32. apply Z.mod_small. destruct Hw as (_ & Hp & _). lia. }
  unfold after_consume. rewrite Hu, Hr', length_drop.
  split_and!; [apply RecvWindow.on_consume_wf; [done|lia..]|apply on_consume_initial|].
  pose proof (RecvWindow.on_consume_conserves (Z.of_nat n) (recv_window st) Hw ltac:(lia) ltac:(lia)) as Hc.
  destruct (RecvWindow.on_consume _ _) as [[d|] w']; cbn in Hc |- *; rewrite ?Z.eqb_refl; lia.
Qed.

Lemma poll_read_data cx buf st (l : Links C) :
  stream_wf st → rx_alive (out_ch l) = true →
  call_data [Got (id st) (drop (length (ReadBuf.filled buf)) (ReadBuf.filled (snd (fst (poll_read cx buf (st, l))))))]
    st (fst (snd (poll_read cx buf (st, l)))) l (snd (snd (poll_read cx buf (st, l)))).
Proof.
  intros Hwf Hrx.
  assert (∀ bs i, i ≠ id st → wrote i [Got (id st) bs] = [] ∧ got i [Got (id st) bs] = []) as Hother.
  { intros bs i Hi. rewrite got_one, (proj2 (Z.eqb_neq _ _)) by congruence. done. }
  unfold call_data. rewrite got_one, Z.eqb_refl.
  assert (∀ f : list byte, drop (length f) f = []) as Hd by (intros; apply drop_ge; lia).
  assert (∀ (Z : StreamId → Prop) st', send_window st' = send_window st → recv_window st' = recv_window st →
    bytes_in st' = bytes_in st → ∃ fs, queued (out_ch l) = queued (out_ch l) ++ fs ∧
    (∀ i, Frame.rst i ∉ fs ∧ (Frame.fin i ∈ fs → Z i)) ∧ (∀ i, carried i fs = []) ∧
    account fs st st' ∧ ∀ i, i ≠ id st → credited i fs = 0) as Hno.
  { intros Z st'. exists []. rewrite app_nil_r. split_and!; [done|set_solver|done|by apply account_same|done]. }
  unfold poll_read. destruct (Nat.eqb_spec (ReadBuf.remaining buf) 0); [cbn [fst snd]; rewrite Hd; split_and!; auto; (life || by apply Hno; cbn; congruence)|].
  destruct (poll_read_loop_total 1 cx buf st l Hwf ltac:(done) ltac:(lia)) as [-> _].
  destruct (poll_read_turn_spec cx buf st l Hwf ltac:(done)) as (r' & Hr' & _ & ->).
  destruct (StreamState.is_reset (state st)); [cbn [fst snd]; rewrite Hd; split_and!; auto; (life || by apply Hno; cbn; congruence)|].
  case_bool_decide as Hb.
  - rewrite Hb in Hr'. rewrite drop_nil in Hr'.
    destruct (StreamState.read_open (state st)) eqn:Hro; cbn [negb fst snd]; rewrite Hd;
      cbn [recv set_recv set_recv_waker]; rewrite Hr', Hb; split_and!; auto; (life || by apply Hno; cbn; congruence).
  - cbn [fst snd ReadBuf.filled]. rewrite drop_app_length. cbn [recv set_recv_window set_recv]. rewrite Hr', take_drop.
    split_and!; auto; [life|].
    eexists. split_and!; [by apply queued_update_sent|..].
    + destruct (fst (after_consume _ _)); cbn; [|set_solver].
      intros i. by split; intros ?%list_elem_of_singleton.
    + intros i. by destruct (fst (after_consume _ _)).
    + apply consume_account; [lia|done].
    + intros i Hi. destruct (fst (after_consume _ _)); cbn; [|done]. by rewrite (proj2 (Z.eqb_neq _ _)) by congruence.
Qed.

Lemma local_fin_data st (l : Links C) :
  call_data [Shut (id st)] st (fst (snd (local_fin (st, l)))) l (snd (snd (local_fin (st, l)))).
Proof.
  unfold local_fin. run_m.
  destruct (StreamState.is_reset (state st)) eqn:Hr; [quiet_call|]. cbn [fst snd].
  destruct (StreamState.write_open (state st)) eqn:Ho; cbn; rewrite Ho; cbn; [|quiet_call].
  destruct (fin_sent st) eqn:Hfs; cbn; [quiet_call|].
  unfold call_data. cbn. split_and!; auto; [life|]. rewrite queued_send. destruct (rx_alive (out_ch l)).
  - eexists. split_and!; [done| |intros i; cbn; by destruct (_ =? _)|apply account_same; try done; cbn; by rewrite Z.eqb_refl|done].
    intros i. split; [by intros ?%list_elem_of_singleton|]. by intros [= ->]%list_elem_of_singleton.
  - exists []. rewrite app_nil_r. split_and!; [done|set_solver|done|by apply account_same|done].
Qed.

Lemma on_user_drop_data st (l : Links C) :
  call_data [Shut (id st)] st (fst (snd (on_user_drop (st, l)))) l (snd (snd (on_user_drop (st, l)))).
Proof.
  unfold on_user_drop, mbind, M_bind, get, when. cbn [fst snd].
  destruct (StreamState.write_open (state st) && negb (StreamState.is_reset (state st)));
    [|quiet_call].
  pose proof (local_fin_data st l) as Hf. by destruct (local_fin (st, l)) as [u [st1 l1]].
Qed.

Lemma wait_acked_data cx st (l : Links C) :
  call_data [] st (fst (snd (wait_acked cx (st, l)))) l (snd (snd (wait_acked cx (st, l)))).
Proof. unfold wait_acked. run_m. destruct (ack_status st); quiet_call. Qed.

(** ** A step of a side *)

(** What a step that queues [fs] and logs [ios] does to the bytes. *)
Record step_data (x : side) (ios : list io) (x' : side) (fs : list Frame.t) : Prop := {
  sd_wrote : ∀ i, carried i fs = wrote i ios;
  sd_known : ∀ i, ¬ v_known (view_of x) i → wrote i ios = [] ∧ got i ios = [];
  sd_heap : ∀ loc st', s_heap (sd_s x') !! loc = Some st' →
    (∃ st, s_heap (sd_s x) !! loc = Some st ∧ id st = id st' ∧
       bytes_in st = got (id st') ios ++ bytes_in st' ∧ same_life ios st st') ∨
    (s_heap (sd_s x) !! loc = None ∧ bytes_in st' = [] ∧ Frame.syn (id st') ∈ fs ∧ newborn st');
  sd_fin : ∀ i, Frame.fin i ∈ fs → ended x' i;
  sd_rst : ∀ i, Frame.rst i ∈ fs → ¬ in_use x' i;
  sd_account : ∀ loc st st', s_heap (sd_s x) !! loc = Some st → s_heap (sd_s x') !! loc = Some st' → account fs st st';
  sd_credit : ∀ i, ¬ v_known (view_of x) i → credited i fs = 0;
}.

Definition step_bytes (x : side) (ios : list io) (x' : side) : Prop :=
  ∃ fs, queued (s_out (sd_s x')) = queued (s_out (sd_s x)) ++ fs ∧ step_data x ios x' fs.

(** A step that leaves the streams alone. *)
Lemma rest_step (x x' : side) fs :
  s_heap (sd_s x') = s_heap (sd_s x) → (∀ i, carried i fs = [] ∧ Frame.fin i ∉ fs ∧ credited i fs = 0) →
  (∀ i, Frame.rst i ∈ fs → ¬ in_use x' i) →
  queued (s_out (sd_s x')) = queued (s_out (sd_s x)) ++ fs → step_bytes x [] x'.
Proof.
  intros Eh Hf Hr Hq. exists fs. split; [done|].
  constructor; [by apply Hf|done| |intros i Hi; by destruct (Hf i) as (_ & ? & _)|done| |intros i _; apply Hf].
  - intros loc st' Hl. left. exists st'. rewrite <- Eh. split_and!; auto. apply same_life_refl.
  - intros loc st st' Hl. rewrite Eh, Hl. intros [= <-]. by apply account_same; try done; apply Hf.
Qed.

(** A call on the stream at [loc]. *)
Lemma call_frames {A} (x x' : side) loc st (m : M A) ios :
  side_inv x → s_heap (sd_s x) !! loc = Some st → sd_s x' = snd (on_stream loc m (sd_s x)) →
  call_data ios st (fst (snd (m (st, links_of (sd_s x))))) (links_of (sd_s x))
    (snd (snd (m (st, links_of (sd_s x))))) →
  ∃ fs, queued (s_out (sd_s x')) = queued (s_out (sd_s x)) ++ fs ∧ step_data x ios x' fs ∧
    ∀ i, Frame.rst i ∉ fs.
Proof.
  intros Hx Hl Es (Hi & Hb & Hlife & Hother & fs & Hq & Hrst & Hp & Hacc & Hcred).
  rewrite (on_stream_put _ _ _ _ Hl) in Es. cbn [snd] in Es. exists fs. rewrite Es. split_and!; [exact Hq| |apply Hrst].
  constructor; [done|intros i Hk| |intros i Hf|intros i Hr; by destruct (Hrst i)| |].
  - apply Hother. intros ->. apply Hk. by exists loc, st.
  - rewrite Es. intros loc2 st2 Hl2. left.
    destruct (put_stream_back _ _ _ _ _ _ _ Hl Hl2) as [[-> ->]|[Hne Hl2']].
    + exists st. rewrite Hi. auto.
    + exists st2. split_and!; [done|done| |apply same_life_refl]. destruct (Hother (id st2)) as [_ ->]; [|done].
      intros E. by apply Hne, (si_unique x Hx loc2 loc st2 st).
  - destruct (proj2 (Hrst i) Hf) as [-> Hwo]. eexists loc, _. rewrite Es. split_and!; [|exact Hi|exact Hwo].
    cbn. apply list_lookup_insert_eq. by eapply lookup_lt_Some.
  - rewrite Es. intros loc2 st2 st2' Hl2 Hl2'.
    destruct (put_stream_back _ _ _ _ _ _ _ Hl Hl2') as [[-> ->]|[Hne Hl3]]; simplify_eq; [done|].
    assert (id st2 ≠ id st) as Hid by (intros E; by apply Hne, (si_unique x Hx loc2 loc st2 st)).
    destruct (Hother _ Hid) as [Hw _]. apply account_same; try done; [by rewrite Hp|auto].
  - intros i Hk. apply Hcred. intros ->. apply Hk. by exists loc, st.
Qed.

Lemma call_step {A} (x x' : side) loc st (m : M A) ios :
  side_inv x → s_heap (sd_s x) !! loc = Some st → sd_s x' = snd (on_stream loc m (sd_s x)) →
  call_data ios st (fst (snd (m (st, links_of (sd_s x))))) (links_of (sd_s x))
    (snd (snd (m (st, links_of (sd_s x))))) → step_bytes x ios x'.
Proof. intros Hx Hl Es Hc. destruct (call_frames x x' loc st m ios Hx Hl Es Hc) as (fs & ? & ? & _). by exists fs. Qed.

Lemma user_step loc u s hs hs' op :
  loc ∈ hs → u ≠ UReset → side_inv (mk_side s hs op) →
  step_bytes (mk_side s hs op) (user_io loc u s) (mk_side (user_apply loc u s) hs' op).
Proof.
  intros Hin Hr Hx. pose proof (si_out _ Hx) as Ho. cbn in Ho.
  destruct (si_heap _ Hx loc) as [st Hl]; [unfold pots; set_solver|]. cbn in Hl.
  destruct (Forall_lookup_1 _ _ _ _ (inv_heap _ (si_session _ Hx)) Hl) as ((_ & Hcfg & Hwf & _) & _).
  pose proof (inv_config _ (si_session _ Hx)) as Hv.
  destruct u as [cx buf|cx buf| | |]; try done; cbn [user_apply user_io].
  - apply (call_step _ _ loc st (poll_read cx buf)); auto. unfold io_of, stream_poll_read.
    rewrite (on_stream_put _ _ _ _ Hl), Hl. cbn [fst]. by apply poll_read_data.
  - apply (call_step _ _ loc st (poll_write cx buf)); auto. unfold io_of, stream_poll_write.
    rewrite (on_stream_put _ _ _ _ Hl), Hl. cbn [fst]. apply poll_write_data; auto. rewrite Hcfg. apply Hv.
  - apply (call_step _ _ loc st local_fin); auto. unfold io_of. rewrite Hl. apply local_fin_data.
  - apply (call_step _ _ loc st on_user_drop); auto. unfold io_of. rewrite Hl. apply on_user_drop_data.
Qed.

(** A step that queues nothing. *)
Lemma quiet_step (x x' : side) :
  s_heap (sd_s x') = s_heap (sd_s x) → queued (s_out (sd_s x')) = queued (s_out (sd_s x)) →
  step_bytes x [] x'.
Proof. intros Eh Eq. apply (rest_step _ _ []); [done|by intros i; split_and!; [|apply not_elem_of_nil|]|set_solver|by rewrite app_nil_r]. Qed.

Lemma open_data r s s' hs op op' :
  open_start s = (r, s') → side_inv (mk_side s hs op) →
  step_bytes (mk_side s hs op) [] (mk_side s' hs op').
Proof.
  intros E [Hs Hcl Hpg Hrx _ _ _ _ _ _ _]. cbn in Hs, Hcl, Hpg, Hrx.
  destruct (open_start_live s Hs Hcl Hpg Hrx) as [[e Eo]|(i & Eo & _)]; rewrite Eo in E; simplify_eq.
  - by apply quiet_step.
  - exists [Frame.syn i]. cbn. rewrite queued_send, Hrx. split; [done|].
    constructor; [|done| |by intros j ?%list_elem_of_singleton..| |done].
    + intros j. cbn. by destruct (_ =? _).
    + cbn. intros loc st' [Hl|[Hge Hl]]%lookup_app_Some; [left; exists st'; split_and!; auto; apply same_life_refl|right].
      apply list_lookup_singleton_Some in Hl as [_ <-]. split_and!; [by apply lookup_ge_None|done|set_solver|done].
    + cbn. intros loc st st' Hl Hl'. rewrite (lookup_app_l_Some _ _ _ _ Hl) in Hl'. injection Hl' as <-.
      apply account_same; try done. cbn. by destruct (_ =? _).
Qed.

Lemma accept_poll_step rx s hs hs' op :
  rx_alive (s_out s) = true →
  step_bytes (mk_side s hs op) [] (mk_side (snd (accept_poll rx s)) hs' op).
Proof.
  intros Hrx. unfold accept_poll, mbind, SM_bind, sget, s_send. cbn [fst snd].
  destruct (watch_changed _ _); [by apply quiet_step|]. cbn [fst snd].
  destruct (fst (chan_try_recv (s_accept s))) as [loc|];
    [|by apply quiet_step]. cbn.
  destruct (s_heap s !! loc) as [st|]; [|by apply quiet_step]. cbn.
  rewrite send_ok, Hrx. apply (rest_step _ _ [Frame.ack (id st)]); [done| | |cbn; by rewrite queued_send, Hrx];
    [|by intros j ?%list_elem_of_singleton].
  intros j. split_and!; [cbn; by destruct (_ =? _)|by intros ?%list_elem_of_singleton|done].
Qed.

Lemma local_step_data (x x' : side) ios :
  local_step (R := R) x ios x' → side_inv x → step_bytes x ios x'.
Proof.
  intros Hst Hx. pose proof (si_out x Hx) as Hrx. destruct Hst; cbn in Hrx.
  - by apply user_step.
  - by apply (user_step loc UDrop).
  - by eapply open_data.
  - destruct (si_opening _ Hx i loc) as (st & Hl & _); [done|]. cbn in Hl.
    apply (call_step _ _ loc st (wait_acked cx)); auto; [|apply wait_acked_data].
    unfold open_poll in H0. cbn. by rewrite H0.
  - destruct (si_opening _ Hx i loc) as (st & Hl & _); [done|]. cbn in Hl.
    destruct (call_frames (mk_side s hs op) (mk_side s1 hs op) loc st (wait_acked cx) [])
      as (fs & Hq & [D1 D2 D3 D4 _ D6 D7] & Hrst); auto; [|apply wait_acked_data|].
    { unfold open_poll in H0. cbn. by rewrite H0. }
    assert (s_heap s' = s_heap s1 ∧ s_out s' = s_out s1) as [Eh Eo].
    { unfold open_finish in H1. by destruct r; inversion H1. }
    exists fs. cbn. rewrite Eo. split; [done|]. constructor; auto; [cbn; by rewrite Eh| | |cbn; by rewrite Eh].
    { intros j Hj. destruct (D4 j Hj) as (l & st2 & ? & ?). exists l, st2. cbn. by rewrite Eh. }
    intros j Hj. by destruct (Hrst j).
  - unfold open_finish, s_send, reg_remove, mbind, SM_bind, mret, SM_ret in H0. inversion H0.
    apply (rest_step _ _ [Frame.rst i]); [done| | |cbn; by rewrite queued_send, Hrx].
    + intros j. split_and!; [cbn; by destruct (_ =? _)|by intros ?%list_elem_of_singleton|done].
    + intros j [= ->]%list_elem_of_singleton (loc2 & st2 & Hin2 & Hl2 & Hid2 & _).
      destruct (si_opening _ Hx i loc) as (st & Hl & Hi); [done|]. cbn in Hl.
      assert (loc2 = loc) as -> by (apply (si_unique _ Hx loc2 loc st2 st); [exact Hl2|done|congruence]).
      pose proof (si_pots _ Hx) as Hnd. rewrite (opening_done _ _ _ i loc Hx) in Hnd by done.
      by apply list.NoDup_cons in Hnd as [Hout _].
  - apply quiet_step; unfold accept_start, mbind, SM_bind, sget; cbn; by destruct (is_closed s).
  - replace s' with (snd (accept_poll rx s)) by (by rewrite H). by apply accept_poll_step.
  - apply quiet_step; unfold closer_turn, reg_remove, mbind, SM_bind, sget; cbn;
      destruct (watch_changed _ _); cbn; try done;
      by destruct (fst (chan_try_recv (s_closer s))).
  - apply (rest_step _ _ [Frame.ping (wrapping_add_u32 (nonce k) 1)]); [done| |by intros j ?%list_elem_of_singleton|].
    { intros j. split_and!; [done|by intros ?%list_elem_of_singleton|done]. }
    unfold ping, s_send, mbind, SM_bind. cbn [fst snd mret SM_ret sd_s s_out set_out]. by rewrite queued_send, Hrx.
Qed.

(** ** The bytes of one direction *)

(** From the users of [x] to those of [y], with [P] between them. *)
Record flow (x y : side) (lx ly : list io) (P : list Frame.t) : Prop := {
  (* what [x] wrote was read, is in the buffer, or comes after; as long as the
     stream is registered, what comes after is on its way *)
  fl_bytes : ∀ loc st, s_heap (sd_s y) !! loc = Some st → ∃ rest,
    wrote (id st) lx = got (id st) ly ++ bytes_in st ++ rest ∧
    (s_registry (sd_s y) !! id st = Some loc → rest = carried (id st) P);
  fl_unread : ∀ i, ¬ v_known (view_of y) i → got i ly = [];
  fl_unwritten : ∀ i, ¬ v_known (view_of x) i → wrote i lx = [];
  fl_syn : ∀ i, Frame.syn i ∈ P → wrote i lx = carried i P;
}.

(** The sender moves. *)
Lemma flow_sender (x x' y : side) lx ly ios P fs :
  (∀ i, carried i fs = wrote i ios) →
  (∀ i, v_known (view_of x) i → v_known (view_of x') i) →
  (∀ i, ¬ v_known (view_of x) i → wrote i ios = []) →
  (∀ i, Frame.syn i ∈ fs → ¬ v_known (view_of x) i ∧ silent i P) →
  flow x y lx ly P → flow x' y (lx ++ ios) ly (P ++ fs).
Proof.
  intros Hw Hk Hn Hs [F1 F2 F3 F4]. constructor; [|done|..].
  - intros loc st Hl. destruct (F1 loc st Hl) as (rest & E & Hr). exists (rest ++ wrote (id st) ios).
    rewrite wrote_app, E, carried_app, Hw, !app_assoc. split; [done|]. intros Hreg. by rewrite Hr.
  - intros i Hi. rewrite wrote_app, Hn, F3; auto.
  - intros i Hin. rewrite wrote_app, carried_app, Hw. f_equal.
    apply elem_of_app in Hin as [?|Hin]; [auto|]. destruct (Hs i Hin) as [? ?].
    rewrite F3, carried_quiet by (done || by apply silent_quiet). done.
Qed.

(** The receiver moves; the wire goes from [P] to [P']. *)
Lemma flow_receiver (x y y' : side) lx ly ios P P' :
  (∀ loc st', s_heap (sd_s y') !! loc = Some st' →
     (∃ st p, s_heap (sd_s y) !! loc = Some st ∧ id st = id st' ∧
        bytes_in st ++ p = got (id st') ios ++ bytes_in st' ∧
        (s_registry (sd_s y') !! id st' = Some loc → s_registry (sd_s y) !! id st' = Some loc) ∧
        (s_registry (sd_s y) !! id st' = Some loc → carried (id st') P = p ++ carried (id st') P') ∧
        (s_registry (sd_s y) !! id st' ≠ Some loc → p = [])) ∨
     (¬ v_known (view_of y) (id st') ∧ bytes_in st' = [] ∧ wrote (id st') lx = carried (id st') P')) →
  (∀ i, v_known (view_of y) i → v_known (view_of y') i) →
  (∀ i, ¬ v_known (view_of y) i → got i ios = []) →
  (∀ i, Frame.syn i ∈ P' → Frame.syn i ∈ P ∧ carried i P = carried i P') →
  flow x y lx ly P → flow x y' lx (ly ++ ios) P'.
Proof.
  intros Hheap Hk Hn Hs [F1 F2 F3 F4]. constructor; [|..|done|].
  - intros loc st' Hl. rewrite got_app.
    destruct (Hheap loc st' Hl) as [(st & p & Hst & Hid & Hb & Hr & Hp & Hp0)|(Hnew & Hb & Hw)].
    + destruct (F1 loc st Hst) as (rest & E & Hrest). rewrite Hid in *.
      destruct (decide (s_registry (sd_s y) !! id st' = Some loc)) as [Hreg|Hreg].
      * exists (carried (id st') P'). split; [|done].
        rewrite E, (Hrest Hreg), (Hp Hreg), (app_assoc (bytes_in st)), Hb, !app_assoc. done.
      * exists rest. rewrite (Hp0 Hreg), app_nil_r in Hb. rewrite E, Hb, !app_assoc. split; [done|].
        intros ?. by destruct Hreg; auto.
    + exists (carried (id st') P'). rewrite Hb, F2, Hn, Hw by done. done.
  - intros i Hi. rewrite got_app, F2, Hn; auto.
  - intros i Hin. destruct (Hs i Hin) as [? <-]. auto.
Qed.

(** A stream that is still registered was registered at the same place. *)
Lemma registered_before (x x' : side) loc st i :
  side_inv x → s_heap (sd_s x) !! loc = Some st → id st = i →
  (v_known (view_of x) i → v_reg (view_of x') i → v_reg (view_of x) i) →
  s_registry (sd_s x') !! i = Some loc → s_registry (sd_s x) !! i = Some loc.
Proof.
  intros Hx Hl Hi Hreg Hr. destruct Hreg as [loc2 Hl2]; [by exists loc, st|by exists loc|].
  destruct (inv_registry _ (si_session x Hx) _ _ Hl2) as (st2 & H2 & Hi2).
  by rewrite (si_unique x Hx loc loc2 st st2) by congruence.
Qed.

Lemma local_flow (x x' y : side) ios lx ly o Q :
  local_step (R := R) x ios x' → side_inv x →
  pair_inv (view_of x) (view_of y) (o ++ queued (s_out (sd_s x))) Q →
  flow x y lx ly (o ++ queued (s_out (sd_s x))) → flow y x ly lx Q →
  flow x' y (lx ++ ios) ly (o ++ queued (s_out (sd_s x'))) ∧ flow y x' ly (lx ++ ios) Q.
Proof.
  intros Hst Hx HP Hout Hin.
  destruct (local_step_keeps x x' ios _ _ _ Hst Hx HP) as (_ & _ & Hk & fs & Hq & Hs).
  destruct (local_step_data x x' ios Hst Hx) as (fs' & Hq' & [D1 D2 D3 _ _ _ _]).
  assert (fs' = fs) as -> by (apply (app_inv_head (queued (s_out (sd_s x)))); congruence).
  split.
  - rewrite Hq, app_assoc. eapply flow_sender; [done|by apply Hk|by apply D2| |done].
    intros i Hi. destruct (Hs i) as [Hf _]. by destruct (Hf Hi) as (? & _ & ? & _).
  - eapply (flow_receiver _ _ _ _ _ _ Q); [|by apply Hk|by apply D2|done|done].
    intros loc st' Hl. destruct (D3 loc st' Hl) as [(st & Hst' & Hid & Hb & _)|(Hnone & Hb & Hsyn & _)]; [left|right].
    + exists st, []. rewrite app_nil_r. split_and!; auto.
      eapply (registered_before x x' loc st); auto. apply Hk.
    + destruct (proj1 (Hs _) Hsyn) as (? & Hky & _ & Hsil). split_and!; auto.
      rewrite (fl_unwritten _ _ _ _ _ Hin) by done. by rewrite carried_quiet by (by apply silent_quiet).
Qed.

(** A frame arrives. *)
Lemma read_flow f s s' go hs op (y : side) lx ly P Q :
  on_item (NextFrame f) s = (go, s') → Frame.wf f → side_inv (mk_side s hs op) →
  pair_inv (view_of (mk_side s hs op)) (view_of y) (P ++ queued (s_out s)) (f :: Q) →
  flow (mk_side s hs op) y lx ly (P ++ queued (s_out s)) → flow y (mk_side s hs op) ly lx (f :: Q) →
  flow (mk_side s' hs op) y lx ly (P ++ queued (s_out s')) ∧ flow y (mk_side s' hs op) ly lx Q.
Proof.
  intros E Hf Hx HP Hout Hin.
  destruct (frame_taken f s hs op _ _ _ Hf Hx HP) as (_ & _ & Hd & _ & fs & Hq & Hh).
  cbn [sd_s sd_handles sd_opening] in Hd, Hq, Hh. rewrite E in Hd, Hq, Hh. cbn [snd] in Hd, Hq, Hh. split.
  - rewrite Hq, app_assoc, <- (app_nil_r lx). eapply flow_sender; [| |done| |done].
    + intros i. by destruct (handles_answers _ _ _ _ i Hh) as [-> _].
    + intros i. by eapply handles_known.
    + intros i Hi. by destruct (handles_answers _ _ _ _ i Hh) as [_ ?].
  - rewrite <- (app_nil_r lx). eapply (flow_receiver _ _ _ _ _ _ (f :: Q)); [| |done| |done].
    + intros loc st' Hl. cbn. destruct (Hd loc st' Hl) as [(st & Hst & Hid & Hb1 & Hb2 & _)|(Hnone & Hb & -> & _)]; [left|right].
      * exists st, (if decide (s_registry s !! id st = Some loc) then carried (id st) [f] else []).
        rewrite Hid. split_and!; auto.
        -- case_decide as Hr; [by destruct (Hb1 Hr) as [-> _]|by rewrite Hb2, app_nil_r].
        -- eapply (registered_before (mk_side s hs op) (mk_side s' hs op) loc st); auto. by eapply handles_reg.
        -- intros Hr. rewrite decide_True by done. by rewrite <- carried_app.
        -- intros Hr. by rewrite decide_False.
      * destruct (head_syn _ _ _ _ _ HP) as (_ & _ & _ & Hk & _). split_and!; auto.
        rewrite (fl_syn _ _ _ _ _ Hin) by set_solver. apply carried_empty. by left.
    + intros i. by eapply handles_known.
    + intros i Hi. split; [set_solver|]. apply carried_empty. right. by eapply head_before_syn.
Qed.

(** ** Both directions *)

(** What is between the users of the two sides. *)
Definition pipe_out (d : duplex) : list Frame.t := dx_out d ++ queued (s_out (sd_s (dx_here d))).

Definition flow_out (d : duplex) : Prop :=
  flow (dx_here d) (dx_there d) (dx_log_here d) (dx_log_there d) (pipe_out d).

Lemma half_step_flow d d' :
  half_step (R := R) d d' → duplex_inv d → flow_out d ∧ flow_out (turned d) →
  flow_out d' ∧ flow_out (turned d').
Proof.
  intros Hst [Hx Hy HP Ho Hi] [Hout Hin]. unfold flow_out, pipe_out, turned in *.
  destruct Hst as [x ios x' y o i lx ly Hl|f s s' hs op y o i lx ly E|f go s s' hs op y o i lx ly E]; cbn in *.
  - by eapply local_flow.
  - destruct (recv_out_side f s s' hs op E Hx) as (_ & _ & Hq & _).
    rewrite <- app_assoc. cbn. rewrite <- Hq. unfold recv_out in E. injection E as _ <-.
    destruct Hout, Hin. by split; constructor.
  - apply Forall_cons_1 in Hi as [Hf _]. by eapply read_flow.
Qed.

Lemma duplex_reachable_flow cfg_a cfg_b d :
  Config.valid cfg_a → Config.valid cfg_b → duplex_reachable (R := R) cfg_a cfg_b d →
  flow_out d ∧ flow_out (turned d).
Proof.
  intros Ha Hb. apply reachable_both; auto; [| |exact half_step_flow].
  all: unfold flow_out, pipe_out, turned; cbn.
  all: rewrite (start_silent cfg_a) || rewrite (start_silent cfg_b); try done.
  all: constructor; cbn; try rewrite (proj1 (start_empty _ _)); try done; set_solver.
Qed.

(** The users of [y] see what those of [x] wrote. *)
Definition faithful (x y : side) (lx ly : list io) (P : list Frame.t) : Prop :=
  (∀ i, got i ly `prefix_of` wrote i lx) ∧
  (∀ loc st, loc ∈ sd_handles y → s_heap (sd_s y) !! loc = Some st →
     StreamState.is_reset (state st) = false →
     wrote (id st) lx = got (id st) ly ++ bytes_in st ++ carried (id st) P).

Lemma known_dec (y : side) i : v_known (view_of y) i ∨ ¬ v_known (view_of y) i.
Proof.
  destruct (list_find (λ st, id st = i) (s_heap (sd_s y))) as [[loc st]|] eqn:E.
  - apply list_find_Some in E as (? & ? & _). left. by exists loc, st.
  - apply list_find_None in E. right. intros (loc & st & Hl & Hi).
    by apply (Forall_lookup_1 _ _ _ _ E Hl).
Qed.

Lemma flow_faithful (x y : side) lx ly P : side_inv y → flow x y lx ly P → faithful x y lx ly P.
Proof.
  intros Hy [F1 F2 F3 F4]. split.
  - intros i. destruct (known_dec y i) as [(loc & st & Hl & <-)|Hn].
    + destruct (F1 loc st Hl) as (rest & -> & _). apply prefix_app_r. done.
    + rewrite F2 by done. apply prefix_nil.
  - intros loc st Hin Hl Hr. destruct (F1 loc st Hl) as (rest & -> & Hrest).
    rewrite Hrest; [done|]. apply (si_wr y Hy); [|done|done]. unfold pots. set_solver.
Qed.

(** The end of the stream at [loc]: nothing was read although there was room. *)
Definition at_eof (y : side) (loc : Loc) : Prop := ∃ cx buf, ReadBuf.remaining buf ≠ 0%nat ∧
  fst (stream_poll_read cx buf loc (sd_s y)) = Some (Some (Ready (Ok ())), buf).

Lemma at_eof_state (y : side) loc st :
  side_inv y → s_heap (sd_s y) !! loc = Some st → at_eof y loc →
  StreamState.is_reset (state st) = false ∧ bytes_in st = [] ∧ StreamState.read_open (state st) = false.
Proof.
  intros Hy Hl (cx & buf & Hrem & E). unfold stream_poll_read in E. rewrite (on_stream_put _ _ _ _ Hl) in E.
  cbn [fst] in E. injection E as E.
  destruct (Forall_lookup_1 _ _ _ _ (inv_heap _ (si_session y Hy)) Hl) as ((_ & _ & Hwf & _) & _).
  unfold poll_read in E. rewrite (proj2 (Nat.eqb_neq _ _) Hrem) in E.
  destruct (poll_read_loop_total 1 cx buf st (links_of (sd_s y)) Hwf Hrem ltac:(lia)) as [E1 _]. rewrite E1 in E.
  destruct (poll_read_turn_spec cx buf st (links_of (sd_s y)) Hwf Hrem) as (r' & _ & _ & E2). rewrite E2 in E.
  destruct (StreamState.is_reset (state st)); [done|]. case_bool_decide as Hb.
  - by destruct (StreamState.read_open (state st)).
  - exfalso. injection E as E. destruct buf as [fl rem]. cbn in *. injection E as _ E.
    destruct (bytes_in st); [done|]. cbn in E. lia.
Qed.

Lemma eof_quiet (V Y : view) P Q i :
  pair_inv V Y P Q → v_reg Y i → ¬ v_recv Y i → carried i P = [] ∧ ¬ v_wr V i.
Proof.
  intros HP Hr Hn. destruct (d_recv _ _ _ _ (p_there _ _ _ _ HP) i Hr) as [?|[? ?]]; [done|].
  split; [by apply carried_quiet|done].
Qed.

(** A user of [y] who sees the end of a stream has all that was written to it,
    and no user of [x] can write more. *)
Definition complete (x y : side) (lx ly : list io) : Prop := ∀ loc st,
  loc ∈ sd_handles y → s_heap (sd_s y) !! loc = Some st → at_eof y loc →
  got (id st) ly = wrote (id st) lx ∧
  ∀ loc' st', loc' ∈ sd_handles x → s_heap (sd_s x) !! loc' = Some st' → id st' = id st →
    writable st' = false.

Lemma flow_complete (x y : side) lx ly P Q :
  side_inv y → pair_inv (view_of x) (view_of y) P Q → flow x y lx ly P → complete x y lx ly.
Proof.
  intros Hy HP Hf loc st Hin Hl He. destruct (at_eof_state y loc st Hy Hl He) as (Hr & Hb & Ho).
  destruct (flow_faithful x y lx ly P Hy Hf) as [_ Hb2]. specialize (Hb2 loc st Hin Hl Hr).
  assert (s_registry (sd_s y) !! id st = Some loc) as Hreg
    by (apply (si_wr y Hy); [unfold pots; set_solver|done|done]).
  destruct (eof_quiet _ _ P Q (id st) HP) as [Hp Hw]; [by exists loc| |].
  - intros (loc2 & st2 & Hreg2 & Hl2 & Hc). assert (st2 = st) as -> by congruence.
    unfold can_recv in Hc. by rewrite Ho in Hc.
  - split; [by rewrite Hb2, Hb, Hp, !app_nil_r|]. intros loc' st' Hin' Hl' Hi.
    apply not_true_is_false. intros Hwr. apply Hw. exists loc', st'. unfold pots. split_and!; auto. set_solver.
Qed.

(** C1: Multiplexing is transparent.  In every reachable state of a client and a
    server joined by an ordered connection, on every stream, in both directions:
    what the users have read is a prefix of what their peers wrote, in order and
    without a byte lost, repeated or moved to another stream; and for a stream in
    use that was not reset, nothing is missing: what was written is what was
    read, followed by what waits in the receive buffer, followed by the payloads
    on the connection and in the sender's queue. *)
Theorem sessions_transparent cfg_a cfg_b d :
  Config.valid cfg_a → Config.valid cfg_b → duplex_reachable (R := R) cfg_a cfg_b d →
  faithful (dx_here d) (dx_there d) (dx_log_here d) (dx_log_there d) (pipe_out d) ∧
  faithful (dx_there d) (dx_here d) (dx_log_there d) (dx_log_here d) (pipe_out (turned d)).
Proof.
  intros Ha Hb Hr. destruct (duplex_reachable_inv _ _ _ Ha Hb Hr) as [Hx Hy _ _ _].
  destruct (duplex_reachable_flow _ _ _ Ha Hb Hr) as [Hf Hf']. split; by apply flow_faithful.
Qed.

(** The end of a stream means that everything arrived.  When, on either side,
    a read of a stream that the user holds, not overlapping a delivery, reports
    the end of the stream (success without a byte, although there was room), the
    user has read exactly the bytes the peer wrote on it, and the peer can write
    no more. *)
Lemma eof_is_complete cfg_a cfg_b d :
  Config.valid cfg_a → Config.valid cfg_b → duplex_reachable (R := R) cfg_a cfg_b d →
  complete (dx_here d) (dx_there d) (dx_log_here d) (dx_log_there d) ∧
  complete (dx_there d) (dx_here d) (dx_log_there d) (dx_log_here d).
Proof.
  intros Ha Hb Hr. destruct (duplex_reachable_inv _ _ _ Ha Hb Hr) as [Hx Hy HP _ _].
  destruct (duplex_reachable_flow _ _ _ Ha Hb Hr) as [Hf Hf'].
  split; [by eapply flow_complete|]. eapply flow_complete; [done|by apply pair_inv_flip|done].
Qed.

End Transparency.
