(* ===== verification/Lifecycle.v ===== *)
(** * When streams end

    In the system of [Duplex], what the end of a stream on one side says about
    the other side, while no user resets a stream, no session closes and the
    connection holds: a reset means that the peer let go of the stream, the end of
    its reading that the peer shut it down. *)

From S2P Require Import Prelude Machine Errors Config Ids Frames Header Codec Crates Window.
From S2P Require Import StreamState RecvBuffer StreamInner StreamFacts StreamInv Session Reader Api.
From S2P Require Import FlowControl Keepalive Writer SessionInv System Dispatch Pair Duplex Endpoints.
From S2P Require Import Transparency.
From Stdlib Require Import ZArith Lia.

Local Open Scope Z_scope.

Section Lifecycle.
Context {BF : BitflagsOps}.
Context {W : Type} {AW : AtomicWakerOps W}.
Context {C : Type → Type} {CH : UnboundedChannelOps C}.
Context {X R : Type} {WO : WatchOps X R}.
Context {DO : DrainOrder}.

Abbreviation session := (Session W C X).
Abbreviation side := (side (W := W) (C := C) (X := X)).
Abbreviation duplex := (duplex (W := W) (C := C) (X := X)).

(** ** The invariant of one direction *)

(** Of the wire [P] from [x] to [y]; [lx] is what the users of [x] have seen. *)
Record calm (x y : side) (lx : list io) (P : list Frame.t) : Prop := {
  c_use : ∀ i, in_use x i → Frame.rst i ∉ P ∧ ¬ was_reset y i;
  c_syn : ∀ i, Frame.syn i ∈ P → ¬ was_reset x i;
  c_shut : ∀ loc st, s_heap (sd_s x) !! loc = Some st → StreamState.is_reset (state st) = false →
    (StreamState.write_open (state st) = false → Shut (id st) ∈ lx) ∧
    SendWindow.closed (send_window st) = false;
  c_fin : ∀ i, Frame.fin i ∈ P → ended x i;
  c_eof : ∀ loc st, s_heap (sd_s y) !! loc = Some st → StreamState.is_reset (state st) = false →
    StreamState.read_open (state st) = false → ended x (id st);
}.

(** The sender moves. *)
Lemma calm_sender (x x' y : side) lx ios P fs :
  (∀ i, in_use x' i → in_use x i ∨ Frame.rst i ∉ P ∧ ¬ was_reset y i) →
  (∀ i, Frame.rst i ∈ fs → ¬ in_use x' i) →
  (∀ i, was_reset x' i → was_reset x i ∨ Frame.syn i ∉ P) →
  (∀ i, Frame.syn i ∈ fs → ¬ was_reset x' i) →
  (∀ loc st', s_heap (sd_s x') !! loc = Some st' → StreamState.is_reset (state st') = false →
     newborn st' ∨ ∃ st, s_heap (sd_s x) !! loc = Some st ∧ id st = id st' ∧
       StreamState.is_reset (state st) = false ∧
       SendWindow.closed (send_window st') = SendWindow.closed (send_window st) ∧
       (StreamState.write_open (state st') = StreamState.write_open (state st) ∨ Shut (id st) ∈ ios)) →
  (∀ i, ended x i → ended x' i) →
  (∀ i, Frame.fin i ∈ fs → ended x' i) →
  calm x y lx P → calm x' y (lx ++ ios) (P ++ fs).
Proof.
  intros Hu Hr Hw Hs Hh Hk Hf [C1 C2 C3 C4 C5]. constructor.
  - intros i Hi. rewrite elem_of_app.
    assert (Frame.rst i ∉ P ∧ ¬ was_reset y i) as [? ?] by (destruct (Hu i Hi); auto).
    split; [|done]. intros [?|Hin]; [done|]. by apply (Hr i).
  - intros i [Hin|Hin]%elem_of_app; [|auto]. intros Hi. destruct (Hw i Hi); [by apply (C2 i)|done].
  - intros loc st' Hl Hn. destruct (Hh loc st' Hl Hn) as [(-> & -> & _)|(st & Hst & Hid & Hn0 & -> & Hwo)]; [done|].
    destruct (C3 loc st Hst Hn0) as [Hsh Hc]. split; [|done]. rewrite <- Hid, elem_of_app.
    destruct Hwo as [->|?]; [|auto]. intros ?. left. auto.
  - intros i [Hin|Hin]%elem_of_app; eauto.
  - intros loc st Hl ? ?. eauto.
Qed.

(** The receiver moves; the wire goes from [P] to [P']. *)
Lemma calm_receiver (x y y' : side) lx P P' :
  (∀ f, f ∈ P' → f ∈ P) →
  (∀ i, was_reset y' i → was_reset y i ∨ Frame.rst i ∈ P) →
  (∀ loc st', s_heap (sd_s y') !! loc = Some st' → StreamState.is_reset (state st') = false →
     StreamState.read_open (state st') = false →
     (∃ st, s_heap (sd_s y) !! loc = Some st ∧ id st = id st' ∧ StreamState.is_reset (state st) = false ∧
        StreamState.read_open (state st) = false) ∨ Frame.fin (id st') ∈ P) →
  calm x y lx P → calm x y' lx P'.
Proof.
  intros Hp Hr Hh [C1 C2 C3 C4 C5]. constructor; auto.
  - intros i Hi. destruct (C1 i Hi) as [H1 H2]. split; [auto|]. intros Hw. destruct (Hr i Hw); auto.
  - intros loc st' Hl Hn Ho. destruct (Hh loc st' Hl Hn Ho) as [(st & Hst & <- & ? & ?)|Hin]; [eauto|].
    by apply C4.
Qed.

(** ** Steps *)

Lemma user_accept loc u (s : session) : s_accept (user_apply loc u s) = s_accept s.
Proof. destruct u; apply on_stream_accept. Qed.

(** [accept] takes the stream it returns off the queue. *)
Lemma accept_poll_queue rx r (s s' : session) :
  accept_poll rx s = (r, s') →
  (∀ l, l ∈ queued (s_accept s') → l ∈ queued (s_accept s)) ∧
  (∀ l, r = Some (Ok l) → l ∈ queued (s_accept s)).
Proof.
  unfold accept_poll, mbind, SM_bind, sget, s_send, mret, SM_ret. cbn [fst snd].
  destruct (watch_changed _ _); cbn [fst snd]; [by intros [= <- <-]|].
  rewrite try_recv_head. pose proof (queued_try_recv (s_accept s)) as Hq.
  assert (∀ l, l ∈ tail (queued (s_accept s)) → l ∈ queued (s_accept s)) as Ht
    by (intros l; destruct (queued (s_accept s)); set_solver).
  destruct (queued (s_accept s)) as [|loc q] eqn:Eq; cbn [head tail] in *.
  - intros [= <- <-]. cbn. rewrite Hq. set_solver.
  - cbn. destruct (s_heap s !! loc); cbn; [|intros [= <- <-]; cbn; rewrite Hq; set_solver].
    destruct (negb _); intros [= <- <-]; cbn; rewrite Hq; set_solver.
Qed.

(** No user takes a stream out of the air: a stream that is held was held, being
    opened or waiting; one that waits or is being opened did so before or is new. *)
Lemma local_step_places (x x' : side) ios :
  local_step (R := R) x ios x' → side_inv x →
  (∀ l, l ∈ sd_handles x' → l ∈ pots x) ∧
  (∀ il, il ∈ sd_opening x' → il ∈ sd_opening x ∨ s_heap (sd_s x) !! il.2 = None) ∧
  (∀ l, l ∈ queued (s_accept (sd_s x')) → l ∈ queued (s_accept (sd_s x))).
Proof.
  intros Hst Hx. destruct Hst; cbn [sd_s sd_handles sd_opening]; unfold pots; cbn [sd_s sd_handles sd_opening].
  - rewrite user_accept. set_solver.
  - rewrite (user_accept _ UDrop). split_and!; auto. intros l [_ ?]%list_elem_of_filter. set_solver.
  - destruct Hx as [Hs Hcl Hpg Hrx _ _ _ _ _ _ _]. cbn in Hs, Hcl, Hpg, Hrx.
    destruct (open_start_live s Hs Hcl Hpg Hrx) as [[e Eo]|(i & Eo & _)]; rewrite Eo in H; simplify_eq;
      (split_and!; [set_solver| |done]).
    + intros il. rewrite app_nil_r. auto.
    + intros il [?| ->%list_elem_of_singleton]%elem_of_app; [auto|right]. by apply lookup_ge_None_2.
  - replace s' with (snd (open_poll cx loc s)) by (by rewrite H0). unfold open_poll. rewrite on_stream_accept. set_solver.
  - split_and!.
    + intros l. rewrite !elem_of_app. intros [?|Hl]; [auto|right; left]. apply list_elem_of_fmap. exists (i, loc).
      split; [|done]. unfold open_finish in H1. destruct r; cbn in H1; injection H1 as <- _;
        [by apply list_elem_of_singleton in Hl as ->|by apply elem_of_nil in Hl].
    + intros il [_ ?]%list_elem_of_filter. auto.
    + assert (s_accept s' = s_accept s) as ->; [|done]. transitivity (s_accept s1).
      * unfold open_finish in H1. by destruct r; cbn in H1; injection H1 as _ <-.
      * replace s1 with (snd (open_poll cx loc s)) by (by rewrite H0). apply on_stream_accept.
  - split_and!; [set_solver|intros il [_ ?]%list_elem_of_filter; auto|].
    unfold open_finish in H0. cbn in H0. by injection H0 as _ <-.
  - unfold accept_start, mbind, SM_bind, sget. cbn. destruct (is_closed s); set_solver.
  - destruct (accept_poll_queue _ _ _ _ H) as [Hq Hr]. split_and!; auto.
    intros l. rewrite !elem_of_app. intros [?|Hl]; [auto|].
    right; right. apply Hr. destruct r as [[l'|]|]; [by apply list_elem_of_singleton in Hl as ->|by apply elem_of_nil in Hl..].
  - unfold closer_turn, reg_remove, mbind, SM_bind, sget. cbn.
    destruct (watch_changed _ _); [set_solver|]. destruct (fst (chan_try_recv (s_closer s))); set_solver.
  - set_solver.
Qed.

Lemma local_step_pots (x x' : side) ios :
  local_step (R := R) x ios x' → side_inv x →
  ∀ loc, loc ∈ pots x' → loc ∈ pots x ∨ s_heap (sd_s x) !! loc = None.
Proof.
  intros Hst Hx loc. destruct (local_step_places x x' ios Hst Hx) as (Hh & Ho & Ha).
  unfold pots at 1. rewrite !elem_of_app. intros [H|[(il & -> & H)%list_elem_of_fmap|H]]; [auto|..].
  - destruct (Ho _ H) as [?|?]; [left|by right]. unfold pots. rewrite !elem_of_app, list_elem_of_fmap. eauto.
  - left. unfold pots. rewrite !elem_of_app. auto.
Qed.

Lemma not_silent i f (P : list Frame.t) : silent i P → fid f = Some i → f ∉ P.
Proof. intros Hs Hf Hin. apply list_elem_of_In, (proj1 (List.Forall_forall _ _) Hs) in Hin. done. Qed.

Lemma unknown_not_reset (x : side) i : ¬ v_known (view_of x) i → ¬ was_reset x i.
Proof. intros Hk (loc & st & Hl & Hi & _). apply Hk. by exists loc, st. Qed.

(** What has ended stays ended. *)
Lemma ended_stays (x x' : side) i :
  side_inv x → (∀ i, v_known (view_of x) i → v_known (view_of x') i) →
  (∀ loc st', s_heap (sd_s x') !! loc = Some st' →
     (∃ st, s_heap (sd_s x) !! loc = Some st ∧ id st' = id st ∧
        (StreamState.write_open (state st) = false → StreamState.write_open (state st') = false)) ∨
     ¬ v_known (view_of x) (id st')) →
  ended x i → ended x' i.
Proof.
  intros Hx Hk Hh (loc & st & Hl & Hi & Hw).
  destruct (Hk i) as (loc' & st' & Hl' & Hi'); [by exists loc, st|].
  destruct (Hh loc' st' Hl') as [(st2 & Hl2 & Hi2 & Hm)|Hn]; [|destruct Hn; exists loc, st; split; [done|congruence]].
  assert (loc' = loc) as -> by (apply (si_unique x Hx loc' loc st2 st); [done|done|congruence]).
  exists loc, st'. split_and!; [done|done|]. apply Hm. congruence.
Qed.

(** A side acts on its own. *)
Lemma local_calm (x x' y : side) ios lx ly o Q :
  local_step (R := R) x ios x' → side_inv x →
  pair_inv (view_of x) (view_of y) (o ++ queued (s_out (sd_s x))) Q →
  calm x y lx (o ++ queued (s_out (sd_s x))) → calm y x ly Q →
  calm x' y (lx ++ ios) (o ++ queued (s_out (sd_s x'))) ∧ calm y x' ly Q.
Proof.
  intros Hst Hx HP Hout Hin.
  destruct (local_step_keeps x x' ios _ _ _ Hst Hx HP) as (_ & _ & Hk & fs & Hq & Hs).
  destruct (local_step_data x x' ios Hst Hx) as (fs' & Hq' & [_ _ D3 D5 D4 _ _]).
  assert (fs' = fs) as -> by (apply (app_inv_head (queued (s_out (sd_s x)))); congruence).
  pose proof (local_step_pots x x' ios Hst Hx) as Hp.
  assert (∀ i, was_reset x' i → was_reset x i) as Hreset.
  { intros i (loc & st' & Hl & <- & Hr).
    destruct (D3 loc st' Hl) as [(st & ? & ? & _ & E & _)|(_ & _ & _ & E & _)]; [|by rewrite E in Hr].
    exists loc, st. split_and!; [done|done|congruence]. }
  assert (∀ i, Frame.syn i ∈ fs → ¬ v_known (view_of x) i ∧ ¬ v_known (view_of y) i ∧
    silent i (o ++ queued (s_out (sd_s x)))) as Hfresh.
  { intros i Hi. by destruct (proj1 (Hs i) Hi) as (? & ? & ? & _). }
  split.
  - rewrite Hq, app_assoc. eapply calm_sender; [|exact D4|auto| | | | |done].
    + intros i (loc & st' & Hin' & Hl & <- & Hr).
      destruct (D3 loc st' Hl) as [(st & Hst' & Hid & _ & E & _)|(_ & _ & Hsyn & _)].
      * left. exists loc, st. destruct (Hp loc Hin') as [?|?]; [|congruence]. split_and!; congruence.
      * right. destruct (Hfresh _ Hsyn) as (_ & ? & ?). split; [by eapply not_silent|by apply unknown_not_reset].
    + intros i Hi Hr%Hreset. destruct (Hfresh _ Hi) as (? & _). by apply (unknown_not_reset x i).
    + intros loc st' Hl Hr. destruct (D3 loc st' Hl) as [(st & Hst' & Hid & _ & E1 & E2 & E3 & E4)|(_ & _ & _ & ?)]; [|by left].
      right. exists st. split_and!; auto; [congruence|]. destruct E4 as [?|[_ ?]]; auto.
    + intros i. apply ended_stays; [done|apply Hk|]. intros loc st' Hl.
      destruct (D3 loc st' Hl) as [(st & ? & ? & _ & _ & _ & _ & Hw)|(_ & _ & Hsyn & _)]; [left|right; by apply Hfresh].
      exists st. split_and!; [done|done|]. intros E. destruct Hw as [->|[? _]]; done.
    + exact D5.
  - eapply (calm_receiver _ _ _ _ Q); auto.
    intros loc st' Hl Hr Ho. left.
    destruct (D3 loc st' Hl) as [(st & Hst' & Hid & _ & E1 & E2 & _)|(_ & _ & _ & E & _)]; [|by rewrite E in Ho].
    exists st. split_and!; congruence.
Qed.

(** A frame arrives. *)
Lemma read_calm f s s' go hs op (y : side) lx ly P Q :
  on_item (NextFrame f) s = (go, s') → Frame.wf f → side_inv (mk_side s hs op) →
  pair_inv (view_of (mk_side s hs op)) (view_of y) (P ++ queued (s_out s)) (f :: Q) →
  calm (mk_side s hs op) y lx (P ++ queued (s_out s)) → calm y (mk_side s hs op) ly (f :: Q) →
  calm (mk_side s' hs op) y lx (P ++ queued (s_out s')) ∧ calm y (mk_side s' hs op) ly Q.
Proof.
  intros E Hf Hx HP Hout Hin.
  destruct (frame_taken f s hs op _ _ _ Hf Hx HP) as (_ & Hx' & Hd & Hp & fs & Hq & Hh).
  cbn [sd_s sd_handles sd_opening] in Hx', Hd, Hp, Hq, Hh. rewrite E in Hx', Hd, Hp, Hq, Hh.
  cbn [snd sd_s] in Hx', Hd, Hp, Hq, Hh.
  assert (∀ i, was_reset (mk_side s' hs op) i → was_reset (mk_side s hs op) i ∨ f = Frame.rst i) as Hreset.
  { intros i (loc & st' & Hl & <- & Hr). cbn in Hl.
    destruct (Hd loc st' Hl) as [(st & ? & Hid & _ & _ & _ & Hre & _)|(_ & _ & _ & E' & _)]; [|by rewrite E' in Hr].
    rewrite Hid. destruct (Hre Hr); [|by right]. left. by exists loc, st. }
  split.
  - rewrite Hq, app_assoc, <- (app_nil_r lx). eapply calm_sender; [| | | | | | |done].
    + intros i (loc & st' & Hin' & Hl & <- & Hr). cbn in Hl.
      destruct (Hd loc st' Hl) as [(st & Hst' & Hid & _ & _ & Hmono & _)|(_ & _ & -> & _)].
      * left. exists loc, st. destruct (Hp loc Hin') as [?|?]; [|congruence]. split_and!; [done|done|congruence|].
        destruct (StreamState.is_reset (state st)); [by rewrite Hmono in Hr|done].
      * right. destruct (head_syn _ _ _ _ _ HP) as (_ & _ & _ & _ & _ & Hsil & _).
        split; [by eapply not_silent|]. apply (c_syn _ _ _ _ Hin). set_solver.
    + intros i Hi. destruct (handles_rst _ _ _ _ _ _ _ i Hh HP Hi) as [Hk|Hr].
      * intros (loc & st & _ & Hl & Hid & _). apply Hk. by exists loc, st.
      * apply unregistered_not_in_use; [done|]. by apply eq_None_not_Some.
    + intros i Hi. destruct (Hreset i Hi) as [?| ->]; [by left|right].
      by destruct (head_not_syn _ _ _ _ _ i HP) as (_ & _ & ?).
    + intros i Hi. by destruct (handles_answers _ _ _ _ i Hh) as [_ ?].
    + intros loc st' Hl Hr. cbn in Hl.
      destruct (Hd loc st' Hl) as [(st & Hst' & Hid & _ & _ & Hmono & _ & Hw & Hc & _)|(_ & _ & _ & ?)]; [right|by left].
      exists st. destruct (StreamState.is_reset (state st)); [by rewrite Hmono in Hr|].
      destruct Hw as [?|[? _]]; [|congruence]. destruct Hc as [?|?]; [|congruence]. split_and!; auto.
    + intros i. apply ended_stays; [done|intros ?; by eapply handles_known|]. intros loc st' Hl. cbn in Hl.
      destruct (Hd loc st' Hl) as [(st & ? & ? & _ & _ & _ & _ & Hw & _)|(_ & _ & -> & _)]; [left|right].
      * exists st. split_and!; [done|done|]. intros E'. destruct Hw as [->|[_ ?]]; done.
      * by destruct (head_syn _ _ _ _ _ HP) as (_ & _ & _ & ? & _).
    + intros i Hi. exfalso. by discriminate (handles_only_rst _ _ _ _ _ i Hh Hi eq_refl).
  - eapply (calm_receiver _ _ _ _ (f :: Q)); [set_solver| | |done].
    + intros i Hi. destruct (Hreset i Hi) as [?| ->]; [by left|right; set_solver].
    + intros loc st' Hl Hr Ho. cbn in Hl.
      destruct (Hd loc st' Hl) as [(st & Hst' & Hid & _ & _ & Hmono & _ & _ & _ & Hro)|(_ & _ & _ & E' & _)]; [|by rewrite E' in Ho].
      destruct Hro as [?|[?| ->]]; [left|congruence|right; rewrite Hid; set_solver].
      exists st. split_and!; [done|done| |congruence].
      destruct (StreamState.is_reset (state st)); [by rewrite Hmono in Hr|done].
Qed.

(** ** Both directions *)

Definition calm_out (d : duplex) : Prop :=
  calm (dx_here d) (dx_there d) (dx_log_here d) (pipe_out d).

Lemma half_step_calm d d' :
  half_step (R := R) d d' → duplex_inv d → calm_out d ∧ calm_out (turned d) →
  calm_out d' ∧ calm_out (turned d').
Proof.
  intros Hst [Hx Hy HP Ho Hi] [Hout Hin]. unfold calm_out, pipe_out, turned in *.
  destruct Hst as [x ios x' y o i lx ly Hl|f s s' hs op y o i lx ly E|f go s s' hs op y o i lx ly E]; cbn in *.
  - by eapply local_calm.
  - destruct (recv_out_side f s s' hs op E Hx) as (_ & _ & Hq & _).
    rewrite <- app_assoc. cbn. rewrite <- Hq. unfold recv_out in E. injection E as _ <-.
    destruct Hout, Hin. by split; constructor.
  - apply Forall_cons_1 in Hi as [Hf _]. by eapply read_calm.
Qed.

Lemma duplex_reachable_calm cfg_a cfg_b d :
  Config.valid cfg_a → Config.valid cfg_b → duplex_reachable (R := R) cfg_a cfg_b d →
  calm_out d ∧ calm_out (turned d).
Proof.
  intros Ha Hb. apply reachable_both; auto; [| |exact half_step_calm].
  all: unfold calm_out, pipe_out, turned; cbn.
  all: rewrite (start_silent cfg_a) || rewrite (start_silent cfg_b); try done.
  all: constructor; cbn; unfold in_use, was_reset, pots; cbn; rewrite ?(proj1 (start_empty _ _)); try set_solver.
  all: intros i (loc & st & _ & Hl & _); by rewrite (proj1 (start_empty _ _)) in Hl.
Qed.

(** ** What the users may conclude *)

(** As long as the users of [x] use a stream that was not reset, it is not reset
    at [y] and no reset for it is on the way. *)
Definition let_be (x y : side) (P : list Frame.t) : Prop := ∀ i,
  in_use x i → Frame.rst i ∉ P ∧ ¬ was_reset y i.

(** When a user of [y] sees the end of a stream, a user of [x] shut it down. *)
Definition shut_before_eof (x y : side) (lx : list io) : Prop := ∀ loc st,
  loc ∈ sd_handles y → s_heap (sd_s y) !! loc = Some st → at_eof y loc → Shut (id st) ∈ lx.

Lemma calm_eof (x y : side) lx P Q :
  side_inv y → calm x y lx P → let_be y x Q → shut_before_eof x y lx.
Proof.
  intros Hy Hc Hb loc st Hin Hl He. destruct (at_eof_state y loc st Hy Hl He) as (Hr & _ & Ho).
  destruct (c_eof _ _ _ _ Hc loc st Hl Hr Ho) as (loc' & st' & Hl' & Hi & Hw).
  destruct (Hb (id st)) as [_ Hn]; [exists loc, st; split_and!; auto; unfold pots; set_solver|].
  rewrite <- Hi. apply (c_shut _ _ _ _ Hc loc' st' Hl'); [|done].
  apply not_true_is_false. intros Ht. apply Hn. by exists loc', st'.
Qed.

(** C8: The sessions reset a stream only when the other side let go of it.  In
    every state two sessions reach while no user calls [Stream::reset] or closes a
    session, no keepalive deadline passes and the connection holds: as long as one
    side uses a stream (a user holds it, an open waits for it, or it waits to be
    accepted) and it was not reset there, it is not reset on the other side either, and
    no RST for it is queued or on the connection.  The RSTs there are come from opens
    that timed out and streams that were dropped or refused. *)
Theorem reset_means_let_go cfg_a cfg_b d :
  Config.valid cfg_a → Config.valid cfg_b → duplex_reachable (R := R) cfg_a cfg_b d →
  let_be (dx_here d) (dx_there d) (pipe_out d) ∧
  let_be (dx_there d) (dx_here d) (pipe_out (turned d)).
Proof.
  intros Ha Hb Hr. destruct (duplex_reachable_calm _ _ _ Ha Hb Hr) as [[? _ _ _ _] [? _ _ _ _]]. done.
Qed.

(** C9: The end of a stream is the peer's doing, and it means that everything
    arrived, in every state two sessions reach while no user calls [Stream::reset] or
    closes a session, no keepalive deadline passes and the connection holds.  When, on
    either side, a read of a stream that the user holds, not overlapping a delivery,
    reports the end of the stream (success without a byte, although there was room), a
    user of the other side had shut the stream down or dropped it; the user has read
    exactly the bytes the peer wrote on it, and the peer can write no more.  (A session
    that shuts down ends its streams as well, and a read that overlaps a delivery can
    report the end too early: [StreamConc.poll_read_eof_race].) *)
Theorem eof_means_shutdown cfg_a cfg_b d :
  Config.valid cfg_a → Config.valid cfg_b → duplex_reachable (R := R) cfg_a cfg_b d →
  (shut_before_eof (dx_here d) (dx_there d) (dx_log_here d) ∧
   shut_before_eof (dx_there d) (dx_here d) (dx_log_there d)) ∧
  (complete (dx_here d) (dx_there d) (dx_log_here d) (dx_log_there d) ∧
   complete (dx_there d) (dx_here d) (dx_log_there d) (dx_log_here d)).
Proof.
  intros Ha Hb Hr. split; [|exact (eof_is_complete cfg_a cfg_b d Ha Hb Hr)].
  destruct (duplex_reachable_inv _ _ _ Ha Hb Hr) as [Hx Hy _ _ _].
  destruct (duplex_reachable_calm _ _ _ Ha Hb Hr) as [H1 H2].
  split; eapply calm_eof; eauto; [exact (c_use _ _ _ _ H2)|exact (c_use _ _ _ _ H1)].
Qed.

End Lifecycle.
