(* ===== verification/Credit.v ===== *)
(** * Credit across two sessions

    The flow control of every stream of [Duplex], between sessions that grant the
    same initial window: credit, payload and updates under way, bytes waiting to
    be read and bytes read but not yet granted again always add up to the window.
    So a receive buffer never holds more than the window, and a writer is never
    left without credit once its bytes were read. *)

From S2P Require Import Prelude Machine Errors Config Ids Frames Header Codec Crates Window.
From S2P Require Import StreamState RecvBuffer StreamInner StreamFacts StreamInv Session Reader Api.
From S2P Require Import FlowControl Keepalive Writer SessionInv System Dispatch Pair Duplex Endpoints.
From S2P Require Import Transparency Lifecycle.
From Stdlib Require Import ZArith Lia.

Local Open Scope Z_scope.

Section Credit.
Context {BF : BitflagsOps}.
Context {W : Type} {AW : AtomicWakerOps W}.
Context {C : Type → Type} {CH : UnboundedChannelOps C}.
Context {X R : Type} {WO : WatchOps X R}.
Context {DO : DrainOrder}.

Abbreviation session := (Session W C X).
Abbreviation side := (side (W := W) (C := C) (X := X)).
Abbreviation duplex := (duplex (W := W) (C := C) (X := X)).
Abbreviation bytes_in st := (RecvBuffer.contents (recv st)).
Abbreviation avail st := (SendWindow.available (send_window st)).
Abbreviation held st := (RecvWindow.pending_credit (recv_window st) + Z.of_nat (length (bytes_in st))).

(** ** The account of a stream *)

(** What [y] has of stream [i]: a registered stream that was not reset, or, while
    its SYN is on the wire [P] to it, a stream to come. *)
Inductive stands (y : side) (P : list Frame.t) (i : StreamId) : option (StreamInner W) → Prop :=
| S_here loc st :
    s_registry (sd_s y) !! i = Some loc → s_heap (sd_s y) !! loc = Some st →
    StreamState.is_reset (state st) = false → stands y P i (Some st)
| S_coming : Frame.syn i ∈ P → stands y P i None.

Section Window.
(** The initial window of both sides. *)
Variable I : Z.
Hypothesis HI : is_u32 I.

Definition credit_of (o : option (StreamInner W)) : Z := from_option (λ st, avail st) I o.
Definition held_of (o : option (StreamInner W)) : Z := from_option (λ st, held st) 0 o.
Definition sound (o : option (StreamInner W)) : Prop :=
  from_option (λ st, RecvWindow.wf (recv_window st) ∧ RecvWindow.initial (recv_window st) = I) True o.

(** Bytes from [x] to [y] over [P], credit back over [Q]. *)
Record ledger (x y : side) (P Q : list Frame.t) : Prop := {
  lg_sum : ∀ i o o', stands x Q i o → stands y P i o' →
    credit_of o + Z.of_nat (length (carried i P)) + held_of o' + credited i Q = I ∧ sound o';
  lg_quiet : ∀ i, ¬ v_known (view_of x) i → credited i P = 0;
  lg_config : Config.initial_stream_window (s_config (sd_s x)) = I;
}.

(** What is on either side is not negative. *)
Lemma stands_nonneg y P i o : side_inv y → stands y P i o → sound o → 0 ≤ credit_of o ∧ 0 ≤ held_of o.
Proof.
  intros Hy [loc st _ Hl _|_]; cbn; [|intros _; destruct HI; lia]. intros [(_ & ? & _) _].
  destruct (Forall_lookup_1 _ _ _ _ (inv_heap _ (si_session y Hy)) Hl) as ((_ & _ & (_ & _ & [? _] & _) & _) & _). lia.
Qed.

(** A stream has room for what is done to it. *)
Definition roomy (i : StreamId) (o : option (StreamInner W)) (arrived : list Frame.t) : Prop :=
  held_of o ≤ I ∧ credit_of o + credited i arrived ≤ I ∧ 0 ≤ credited i arrived ∧ sound o.

(** Stream [i] goes from [o] to [o'] while [arrived] is taken and [fs] queued. *)
Definition carries_on (i : StreamId) (o o' : option (StreamInner W)) (arrived fs : list Frame.t) : Prop :=
  credit_of o' + Z.of_nat (length (carried i fs)) = credit_of o + credited i arrived ∧
  held_of o' + credited i fs = held_of o + Z.of_nat (length (carried i arrived)) ∧ sound o'.

(** [x] moves: it takes [arrived] off the wire and queues [fs]. *)
Lemma ledger_moves (x x' y : side) P Q fs arrived :
  side_inv x → side_inv y → Forall Frame.wf P → Forall Frame.wf (arrived ++ Q) →
  (∀ i, v_known (view_of x) i → v_known (view_of x') i) →
  s_config (sd_s x') = s_config (sd_s x) →
  (∀ i, ¬ v_known (view_of x) i → credited i fs = 0 ∧ carried i fs = []) →
  (∀ i o', stands x' Q i o' → (Frame.syn i ∈ fs ∧ credit_of o' = I ∧ held_of o' = 0 ∧ sound o') ∨
     ∃ o, stands x (arrived ++ Q) i o ∧ (roomy i o arrived → carries_on i o o' arrived fs)) →
  (∀ i, Frame.syn i ∈ fs → arrived = [] ∧ ¬ v_known (view_of x) i ∧ ¬ v_known (view_of y) i ∧ silent i P ∧ silent i Q) →
  ledger x y P (arrived ++ Q) → ledger y x (arrived ++ Q) P →
  ledger x' y (P ++ fs) Q ∧ ledger y x' Q (P ++ fs).
Proof.
  intros Hx Hy HwP HwQ Hk Hcfg Hfs Hst Hsyn [L1 L2 L3] [M1 M2 M3].
  assert (∀ i o o', stands x' Q i o → stands y (P ++ fs) i o' →
    credit_of o + Z.of_nat (length (carried i (P ++ fs))) + held_of o' + credited i Q = I ∧ sound o' ∧
    credit_of o' + Z.of_nat (length (carried i Q)) + held_of o + credited i (P ++ fs) = I ∧ sound o) as Hsum.
  { intros i o1 o' H1 H2. rewrite carried_app, length_app, credited_app.
    destruct (decide (Frame.syn i ∈ fs)) as [Hin|Hnin].
    - destruct (Hsyn i Hin) as (-> & Hkx & Hky & HsP & HsQ). cbn [app] in L1, M1, M2, L2.
      destruct (Hst i o1 H1) as [(_ & E1 & E2 & Hs)|(o & Ho & _)].
      2: { exfalso. destruct Ho as [loc st Hr _ _|Hq]; [|by eapply not_silent in Hq].
           apply Hkx. destruct (inv_registry _ (si_session x Hx) _ _ Hr) as (st2 & ? & ?). by exists loc, st2. }
      assert (o' = None) as ->.
      { destruct H2 as [loc st Hr _ _|_]; [|done]. exfalso. apply Hky.
        destruct (inv_registry _ (si_session y Hy) _ _ Hr) as (st2 & ? & ?). by exists loc, st2. }
      destruct (Hfs i Hkx) as [-> ->]. rewrite E1, E2, (L2 i Hkx), (M2 i Hky). cbn.
      rewrite !carried_quiet by (by apply silent_quiet). cbn. split_and!; auto; lia.
    - destruct (Hst i o1 H1) as [[? _]|(o & Ho & Hon)]; [done|].
      assert (stands y P i o') as H2'.
      { destruct H2 as [loc st ? ? ?|[?|?]%elem_of_app]; [by eapply S_here|by apply S_coming|done]. }
      destruct (L1 i o o' Ho H2') as [E1 Hs']. destruct (M1 i o' o H2' Ho) as [E2 Hs].
      rewrite carried_app, length_app in E2. rewrite credited_app in E1.
      destruct (stands_nonneg _ _ _ _ Hx Ho Hs), (stands_nonneg _ _ _ _ Hy H2' Hs').
      apply Forall_app in HwQ as [HwA HwQ].
      pose proof (credited_nonneg i _ HwP). pose proof (credited_nonneg i _ HwQ). pose proof (credited_nonneg i _ HwA).
      destruct Hon as (F1 & F2 & F3); [split_and!; auto; lia|]. split_and!; auto; lia. }
  split; constructor; auto.
  - intros i o o' H1 H2. by destruct (Hsum i o o' H1 H2) as (? & ? & _).
  - intros i Hi. rewrite credited_app. destruct (Hfs i) as [-> _]; [auto|]. rewrite L2; auto.
  - by rewrite Hcfg.
  - intros i o' o H2 H1. by destruct (Hsum i o o' H1 H2) as (_ & _ & ? & ?).
  - intros i Hi. specialize (M2 i Hi). rewrite credited_app in M2. apply Forall_app in HwQ as [HwA HwQ].
    pose proof (credited_nonneg i _ HwQ). pose proof (credited_nonneg i _ HwA). lia.
Qed.

(** ** Steps *)

Lemma newborn_stands y loc st P i :
  side_inv y → Config.initial_stream_window (s_config (sd_s y)) = I → s_heap (sd_s y) !! loc = Some st →
  newborn st → bytes_in st = [] → stands y P i (Some st) →
  credit_of (Some st) = I ∧ held_of (Some st) = 0 ∧ sound (Some st).
Proof.
  intros Hy Hc Hl (_ & _ & Hs & Hr) Hb _. cbn. rewrite Hs, Hr, Hb. cbn.
  destruct (Forall_lookup_1 _ _ _ _ (inv_heap _ (si_session y Hy)) Hl) as ((_ & -> & _) & _). rewrite Hc.
  split_and!; auto. unfold RecvWindow.wf, RecvWindow.threshold. cbn. split; [done|lia].
Qed.

Lemma side_config (x x' : side) ios :
  local_step (R := R) x ios x' → side_inv x → s_config (sd_s x') = s_config (sd_s x).
Proof.
  intros Hst Hx. pose proof (si_session x Hx) as Hs.
  assert (∀ A (m : SM A), SM_ok m → s_config (snd (m (sd_s x))) = s_config (sd_s x)) as Hok
    by (intros A m Hm; apply (Hm _ Hs)).
  destruct Hst; cbn in *.
  - apply (Hok _ _ (user_op_ok loc u)).
  - apply (Hok _ _ (user_op_ok loc UDrop)).
  - rewrite <- (Hok _ _ open_start_ok). by rewrite H.
  - rewrite <- (Hok _ _ (open_poll_ok cx loc)). by rewrite H0.
  - rewrite <- (Hok _ _ (open_poll_ok cx loc)), H0. unfold open_finish in H1. by destruct r; injection H1 as _ <-.
  - unfold open_finish in H0. by injection H0 as _ <-.
  - apply (Hok _ _ accept_start_ok).
  - rewrite <- (Hok _ _ (accept_poll_ok rx)). by rewrite H.
  - apply (Hok _ _ (closer_turn_ok rx)).
  - apply (Hok _ _ (ping_ok k)).
Qed.

(** A stream on its way is not known yet. *)
Lemma coming_unknown X' Y P Q i : pair_inv X' Y P Q → Frame.syn i ∈ Q → ¬ v_known X' i.
Proof. intros HP (w1 & w2 & ->)%list_elem_of_split. apply (d_syn _ _ _ _ (p_back _ _ _ _ HP) i w1 w2 eq_refl). Qed.

Lemma registered_id (x : side) i loc st :
  side_inv x → s_registry (sd_s x) !! i = Some loc → s_heap (sd_s x) !! loc = Some st → id st = i.
Proof. intros Hx Hr Hl. destruct (inv_registry _ (si_session x Hx) _ _ Hr) as (st2 & ? & ?). congruence. Qed.

Lemma local_ledger (x x' y : side) ios o Q :
  local_step (R := R) x ios x' → side_inv x → side_inv y →
  pair_inv (view_of x) (view_of y) (o ++ queued (s_out (sd_s x))) Q →
  Forall Frame.wf (o ++ queued (s_out (sd_s x))) → Forall Frame.wf Q →
  ledger x y (o ++ queued (s_out (sd_s x))) Q → ledger y x Q (o ++ queued (s_out (sd_s x))) →
  ledger x' y (o ++ queued (s_out (sd_s x'))) Q ∧ ledger y x' Q (o ++ queued (s_out (sd_s x'))).
Proof.
  intros Hst Hx Hy HP Hw Hw' Hout Hin.
  destruct (local_step_keeps x x' ios _ _ _ Hst Hx HP) as (Hx' & _ & Hk & fs & Hq & Hs).
  destruct (local_step_data x x' ios Hst Hx) as (fs' & Hq' & [D1 D2 D3 _ _ D6 D7]).
  assert (fs' = fs) as -> by (apply (app_inv_head (queued (s_out (sd_s x)))); congruence).
  pose proof (side_config x x' ios Hst Hx) as Hcfg.
  rewrite Hq, app_assoc. apply (ledger_moves x x' y _ Q fs []); auto.
  - intros i Hi. by apply Hk.
  - intros i Hi. rewrite D1. split; [auto|by apply D2].
  - intros i o' Hst'. pose proof Hst' as Hcopy. destruct Hst' as [loc st' Hr Hl Hn|Hin']; [|right].
    + pose proof (registered_id x' i loc st' Hx' Hr Hl) as Hid.
      destruct (D3 loc st' Hl) as [(st & Hl0 & Hid0 & Hb & Hlife)|(_ & Hb & Hsyn & Hnew)]; [right|left].
      * exists (Some st). assert (id st = i) as Hi by congruence.
        assert (s_registry (sd_s x) !! i = Some loc) as Hr0.
        { apply (registered_before x x' loc st); auto. intros Hkn. by apply Hk. }
        destruct Hlife as (Hre & _). split; [by apply (S_here _ _ _ loc); [..|congruence]|].
        intros (Hh & _ & _ & Hso & Hini). destruct (D6 loc st st' Hl0 Hl) as [A1 A2]. rewrite Hi in A1, A2. cbn in *.
        destruct A2 as (? & ? & ?); [done|destruct HI; lia|]. unfold carries_on. cbn. split_and!; [lia|lia|done|congruence].
      * rewrite <- Hid. split; [done|]. eapply (newborn_stands x'); eauto. rewrite Hcfg. apply Hout.
    + exists None. split; [by apply S_coming|]. intros _. pose proof (coming_unknown _ _ _ _ _ HP Hin') as Hu.
      unfold carries_on. rewrite D1, (D7 i Hu). destruct (D2 i Hu) as [-> _]. cbn. split_and!; auto; lia.
  - intros i Hi. destruct (proj1 (Hs i) Hi) as (? & ? & ? & ?). split_and!; auto.
Qed.

Lemma read_ledger f s s' go hs op (y : side) P Q :
  on_item (NextFrame f) s = (go, s') → Forall Frame.wf (f :: Q) → Forall Frame.wf (P ++ queued (s_out s)) →
  side_inv (mk_side s hs op) → side_inv y →
  pair_inv (view_of (mk_side s hs op)) (view_of y) (P ++ queued (s_out s)) (f :: Q) →
  ledger (mk_side s hs op) y (P ++ queued (s_out s)) (f :: Q) →
  ledger y (mk_side s hs op) (f :: Q) (P ++ queued (s_out s)) →
  ledger (mk_side s' hs op) y (P ++ queued (s_out s')) Q ∧ ledger y (mk_side s' hs op) Q (P ++ queued (s_out s')).
Proof.
  intros E HwQ HwP Hx Hy HP Hout Hin. pose proof HwQ as [Hf _]%Forall_cons_1.
  destruct (frame_taken f s hs op _ _ _ Hf Hx HP) as (_ & Hx' & Hd & _ & fs & Hq & Hh).
  destruct (on_item_ok (NextFrame f) Hf s (si_session _ Hx)) as [_ (Hcfg & _)].
  cbn [sd_s sd_handles sd_opening] in Hx', Hd, Hq, Hh. rewrite E in Hx', Hd, Hq, Hh, Hcfg.
  cbn [snd sd_s] in Hx', Hd, Hq, Hh, Hcfg.
  assert (∀ i, carried i fs = [] ∧ Frame.syn i ∉ fs ∧ credited i fs = 0) as Hfs.
  { intros i. destruct (handles_answers _ _ _ _ i Hh) as [? ?]. split_and!; auto. by eapply handles_credit. }
  rewrite Hq, app_assoc. apply (ledger_moves (mk_side s hs op) (mk_side s' hs op) y _ Q fs [f]); auto.
  - intros i. by eapply handles_known.
  - intros i _. by destruct (Hfs i) as (? & _ & ?).
  - intros i o' Hst'. pose proof Hst' as Hcopy. right. unfold carries_on. destruct (Hfs i) as (-> & _ & ->).
    destruct Hst' as [loc st' Hr Hl Hn|Hin'].
    + pose proof (registered_id _ i loc st' Hx' Hr Hl) as Hid. cbn in Hr, Hl.
      destruct (Hd loc st' Hl) as [(st & Hl0 & Hid0 & Hb & _ & Hlife)|(_ & Hb & -> & Hnew)].
      * assert (id st = i) as Hi by congruence.
        assert (s_registry s !! i = Some loc) as Hr0.
        { apply (registered_before (mk_side s hs op) (mk_side s' hs op) loc st); auto. by eapply handles_reg. }
        destruct Hb as [Hb [Hrw Hav]]; [by rewrite Hi|]. rewrite Hi in Hb, Hav. destruct Hlife as (Hmono & _).
        exists (Some st). split.
        { apply (S_here _ _ _ loc); [done|done|]. destruct (StreamState.is_reset (state st)); [by rewrite Hmono in Hn|done]. }
        intros (Hh1 & Hc1 & _ & Hso & Hini). unfold credit_of, held_of, sound in *. cbn [from_option] in *. rewrite Hrw, Hb, length_app, Hav by (destruct HI; lia).
        cbn [length]. split_and!; auto; lia.
      * exists None. rewrite Hid. split; [apply S_coming; set_solver|]. intros _.
        destruct (newborn_stands _ loc st' Q i Hx') as (-> & -> & Hso); auto; [cbn; rewrite Hcfg; apply Hout|].
        rewrite carried_empty by (by left). cbn. split; [lia|]. split; [lia|exact Hso].
    + exists None. split; [apply S_coming; set_solver|]. intros (_ & Hc & Hnn & _).
      rewrite carried_empty by (right; by eapply head_before_syn). unfold credit_of in *. cbn [from_option] in *.
      split; [cbn [length]; lia|by cbn].
  - intros i Hi. by destruct (Hfs i) as (_ & ? & _).
Qed.

(** ** Both directions *)

Definition ledger_out (d : duplex) : Prop :=
  ledger (dx_here d) (dx_there d) (pipe_out d) (pipe_out (turned d)).

Lemma pipe_wf d : duplex_inv d → Forall Frame.wf (pipe_out d).
Proof.
  intros [Hx _ _ Ho _]. apply Forall_app. split; [done|].
  eapply Forall_impl; [|exact (inv_out _ (si_session _ Hx))]. by intros f [? _].
Qed.

Lemma half_step_ledger d d' :
  half_step (R := R) d d' → duplex_inv d → ledger_out d ∧ ledger_out (turned d) →
  ledger_out d' ∧ ledger_out (turned d').
Proof.
  intros Hst Hd [Hout Hin]. pose proof (pipe_wf d Hd) as HwP.
  pose proof (pipe_wf (turned d) (proj2 (duplex_inv_turned d) Hd)) as HwQ. destruct Hd as [Hx Hy HP _ _].
  unfold ledger_out, pipe_out, turned in *.
  destruct Hst as [x ios x' y o i lx ly Hl|f s s' hs op y o i lx ly E|f go s s' hs op y o i lx ly E]; cbn in *.
  - by eapply local_ledger.
  - destruct (recv_out_side f s s' hs op E Hx) as (_ & _ & Hq & _).
    rewrite <- !app_assoc. cbn. rewrite <- Hq. unfold recv_out in E. injection E as _ <-.
    assert (∀ P i o, stands (mk_side (set_out (snd (chan_try_recv (s_out s))) s) hs op) P i o → stands (mk_side s hs op) P i o) as Hs
      by (intros P j ob [loc st ? ? ?|?]; [by eapply S_here|by apply S_coming]).
    destruct Hout, Hin. by split; constructor; eauto.
  - by eapply read_ledger.
Qed.

Lemma duplex_reachable_ledger cfg_a cfg_b d :
  Config.valid cfg_a → Config.valid cfg_b →
  Config.initial_stream_window cfg_a = I → Config.initial_stream_window cfg_b = I →
  duplex_reachable (R := R) cfg_a cfg_b d → ledger_out d ∧ ledger_out (turned d).
Proof.
  intros Ha Hb Ea Eb. apply reachable_both; auto; [| |exact half_step_ledger].
  all: unfold ledger_out, pipe_out, turned; cbn.
  all: rewrite (start_silent cfg_a), (start_silent cfg_b) by done.
  all: constructor; cbn; [|done|].
  all: try by intros i o o' [loc st Hr _ _|?%elem_of_nil]; [cbn in Hr; rewrite (proj1 (proj2 (start_empty _ _))) in Hr|].
  - by destruct (start_spec (W := W) (C := C) (X := X) (R := R) cfg_a Role.Client Ha) as (_ & -> & _).
  - by destruct (start_spec (W := W) (C := C) (X := X) (R := R) cfg_b Role.Server Hb) as (_ & -> & _).
Qed.

End Window.

(** ** What the users may rely on *)

(** A stream that users hold on both sides, and that was not reset. *)
Record joined (x y : side) (loc loc' : Loc) (st st' : StreamInner W) : Prop := {
  jn_here : loc ∈ sd_handles x ∧ s_heap (sd_s x) !! loc = Some st;
  jn_there : loc' ∈ sd_handles y ∧ s_heap (sd_s y) !! loc' = Some st';
  jn_id : id st' = id st;
  jn_live : StreamState.is_reset (state st) = false;
}.

Lemma held_stands (x : side) P loc st :
  side_inv x → loc ∈ sd_handles x → s_heap (sd_s x) !! loc = Some st →
  StreamState.is_reset (state st) = false → stands x P (id st) (Some st).
Proof.
  intros Hx Hin Hl Hr. apply (S_here _ _ _ loc); [|done|done]. apply (si_wr x Hx); auto. unfold pots. set_solver.
Qed.

Lemma joined_live (x y : side) lx P loc loc' st st' :
  calm x y lx P → joined x y loc loc' st st' → StreamState.is_reset (state st') = false.
Proof.
  intros Hc [[Hin Hl] [_ Hl'] Hi Hr]. apply not_true_is_false. intros Ht.
  destruct (c_use _ _ _ _ Hc (id st)) as [_ []]; [|by exists loc', st'].
  exists loc, st. unfold pots. split_and!; auto. set_solver.
Qed.

(** The account of every stream that is joined. *)
Definition balanced (I : Z) (x y : side) (P Q : list Frame.t) : Prop := ∀ loc loc' st st',
  joined x y loc loc' st st' →
  avail st + Z.of_nat (length (carried (id st) P)) + Z.of_nat (length (bytes_in st')) +
    RecvWindow.pending_credit (recv_window st') + credited (id st) Q = I ∧
  Z.of_nat (length (bytes_in st')) ≤ I ∧
  0 ≤ RecvWindow.pending_credit (recv_window st') < Z.max (I / 2) 1.

Lemma ledger_balanced I d :
  is_u32 I → duplex_inv d → calm_out d → ledger_out I d → balanced I (dx_here d) (dx_there d) (pipe_out d) (pipe_out (turned d)).
Proof.
  intros HI Hd Hc HL loc loc' st st' Hj. pose proof (joined_live _ _ _ _ _ _ _ _ Hc Hj) as Hr'.
  pose proof (credited_nonneg (id st) _ (pipe_wf (turned d) (proj2 (duplex_inv_turned d) Hd))) as Hq.
  destruct Hd as [Hx Hy _ _ _], Hj as [[Hin Hl] [Hin' Hl'] Hi Hr].
  pose proof (held_stands _ (pipe_out (turned d)) loc st Hx Hin Hl Hr) as H1.
  pose proof (held_stands _ (pipe_out d) loc' st' Hy Hin' Hl' Hr') as H2. rewrite Hi in H2.
  destruct (lg_sum _ _ _ _ _ HL _ _ _ H1 H2) as [E [(_ & Hp & Hlt) Hini]].
  destruct (Forall_lookup_1 _ _ _ _ (inv_heap _ (si_session _ Hx)) Hl) as ((_ & _ & (_ & _ & [? _] & _) & _) & _).
  unfold credit_of, held_of in E. cbn [from_option] in E. unfold RecvWindow.threshold in Hlt. rewrite Hini in Hlt.
  split_and!; lia.
Qed.

(** C3: Credit is conserved across two sessions.  A client and a server grant the
    same initial window; in every reachable state, on every stream that users hold
    on both sides and that was not reset, in both directions: the sender's credit,
    its payload on the way, the bytes in the receive buffer, the bytes read but not
    yet granted again and the updates on the way back add up to the window.  The
    receive buffer never holds more than the window, and less than half of it (or
    nothing) is ever withheld. *)
Theorem sessions_conserve_credit cfg_a cfg_b d :
  Config.valid cfg_a → Config.valid cfg_b →
  Config.initial_stream_window cfg_b = Config.initial_stream_window cfg_a →
  duplex_reachable (R := R) cfg_a cfg_b d →
  let I := Config.initial_stream_window cfg_a in
  balanced I (dx_here d) (dx_there d) (pipe_out d) (pipe_out (turned d)) ∧
  balanced I (dx_there d) (dx_here d) (pipe_out (turned d)) (pipe_out d).
Proof.
  intros Ha Hb E Hr I. assert (is_u32 I) as HI by apply Ha.
  pose proof (duplex_reachable_inv _ _ _ Ha Hb Hr) as Hd.
  destruct (duplex_reachable_calm _ _ _ Ha Hb Hr) as [Hc Hc'].
  destruct (duplex_reachable_ledger I HI cfg_a cfg_b d Ha Hb eq_refl E Hr) as [HL HL'].
  split; [by apply ledger_balanced|]. apply (ledger_balanced I (turned d)); auto. by apply duplex_inv_turned.
Qed.

End Credit.
