(* ===== verification/Progress.v ===== *)
(** * A writer can always get on

    From every reachable state of [Duplex]: when the tasks move the frames that
    are under way and the peer reads what has arrived for a stream, the next write
    to that stream is accepted.  No state is a dead end for a stream in use. *)

From S2P Require Import Prelude Machine Errors Config Ids Frames Header Codec Crates Window.
From S2P Require Import StreamState RecvBuffer StreamInner StreamFacts StreamInv Session Reader Api.
From S2P Require Import FlowControl Keepalive Writer SessionInv System Dispatch Pair Duplex Endpoints.
From S2P Require Import Transparency Lifecycle Credit.
From Stdlib Require Import ZArith Lia.

Local Open Scope Z_scope.

Section Progress.
Context {BF : BitflagsOps}.
Context {W : Type} {AW : AtomicWakerOps W}.
Context {C : Type → Type} {CH : UnboundedChannelOps C}.
Context {X R : Type} {WO : WatchOps X R}.
Context {DO : DrainOrder}.

Abbreviation session := (Session W C X).
Abbreviation side := (side (W := W) (C := C) (X := X)).
Abbreviation duplex := (duplex (W := W) (C := C) (X := X)).
Abbreviation bytes_in st := (RecvBuffer.contents (recv st)).

(** ** The help a writer needs *)

(** The writer or the reader task of this side moves a frame. *)
Inductive transport : duplex → duplex → Prop :=
| Tr_write f s s' hs op y o i lx ly :
    recv_out s = (Some f, s') →
    transport (mk_duplex (mk_side s hs op) y o i lx ly) (mk_duplex (mk_side s' hs op) y (o ++ [f]) i lx ly)
| Tr_read f go s s' hs op y o i lx ly :
    on_item (NextFrame f) s = (go, s') →
    transport (mk_duplex (mk_side s hs op) y o (f :: i) lx ly) (mk_duplex (mk_side s' hs op) y o i lx ly).

(** Frames move on either side, or the user there reads the stream at [loc]. *)
Inductive helps (loc : Loc) : duplex → duplex → Prop :=
| Helps_here d d' : transport d d' → helps loc d d'
| Helps_there d d' : transport (turned d) (turned d') → helps loc d d'
| Helps_read cx buf x s hs op o i lx ly :
    loc ∈ hs →
    helps loc (mk_duplex x (mk_side s hs op) o i lx ly)
      (mk_duplex x (mk_side (user_apply loc (URead cx buf) s) hs op) o i lx (ly ++ user_io loc (URead cx buf) s)).

Lemma transport_half d d' : transport d d' → half_step (R := R) d d'.
Proof. intros []; [by apply Half_write|by eapply Half_read]. Qed.

Lemma helps_step loc d d' : helps loc d d' → duplex_step (R := R) d d'.
Proof.
  intros [d1 d1' H|d1 d1' H|cx buf x s hs op o i lx ly Hin].
  - by apply Duplex_here, transport_half.
  - by apply Duplex_there, transport_half.
  - apply Duplex_there. apply (Half_local (mk_side s hs op) _ (mk_side _ hs op)). by apply L_user.
Qed.

(** ** What is kept on the way *)

Section Window.
Variable I : Z.
Hypothesis HI : is_u32 I.

Record settled_in (d : duplex) : Prop := {
  st_inv : duplex_inv d;
  st_calm : calm_out d ∧ calm_out (turned d);
  st_ledger : ledger_out I d ∧ ledger_out I (turned d);
}.

Lemma settled_turned d : settled_in d → settled_in (turned d).
Proof.
  intros [H1 [H2 H3] [H4 H5]]. constructor; [by apply duplex_inv_turned|..]; by rewrite turned_turned.
Qed.

Lemma settled_half d d' : half_step (R := R) d d' → settled_in d → settled_in d'.
Proof.
  intros Hst [H1 H2 H3]. constructor; [by eapply half_step_inv|by eapply half_step_calm|by eapply half_step_ledger].
Qed.

Lemma settled_helps loc d d' : rtc (helps loc) d d' → settled_in d → settled_in d'.
Proof.
  induction 1 as [|d1 d2 d3 Hst%helps_step _ IH]; [done|]. intros Hd. apply IH.
  destruct Hst as [e e' Hst|e e' Hst]; [by eapply settled_half|].
  rewrite <- (turned_turned e'). apply settled_turned. eapply settled_half; [done|]. by apply settled_turned.
Qed.

(** A user of [x] holds stream [i], which was not reset; when [w] holds, it can be
    written to. *)
Definition keeps_hold (x : side) (loc : Loc) (i : StreamId) (w : bool) : Prop := ∃ st,
  loc ∈ sd_handles x ∧ s_heap (sd_s x) !! loc = Some st ∧ id st = i ∧
  StreamState.is_reset (state st) = false ∧ (w = true → StreamState.write_open (state st) = true).

Lemma keeps_in_use x loc i w : keeps_hold x loc i w → in_use x i.
Proof. intros (st & Hin & Hl & Hi & Hr & _). exists loc, st. unfold pots. split_and!; auto. set_solver. Qed.

Lemma transport_keeps d d' loc loc' i w w' :
  transport d d' → settled_in d → keeps_hold (dx_here d) loc i w → keeps_hold (dx_there d) loc' i w' →
  keeps_hold (dx_here d') loc i w ∧ dx_there d' = dx_there d.
Proof.
  intros Hst [[Hx Hy HP Ho Hi] [_ Hc] _] (st & Hin & Hl & Hid & Hr & Hw) Hk%keeps_in_use.
  destruct Hst as [f s s' hs op y o inn lx ly E|f go s s' hs op y o inn lx ly E]; cbn in Hx, HP, Hi, Hin, Hl, Hc, Hk |- *; split; try done.
  - unfold recv_out in E. injection E as _ <-. by exists st.
  - apply Forall_cons_1 in Hi as [Hf _].
    destruct (frame_taken f s hs op _ _ _ Hf Hx HP) as (_ & _ & Hd & _). cbn [sd_s] in Hd. rewrite E in Hd. cbn [snd] in Hd.
    destruct (on_item_ok (NextFrame f) Hf s (si_session _ Hx)) as [_ (_ & _ & _ & _ & Hh & _)].
    destruct (Hh loc st Hl) as (st' & Hl' & Hid' & _). rewrite E in Hl'. cbn in Hl'.
    destruct (Hd loc st' Hl') as [(st2 & Hl2 & _ & _ & _ & Hlife)|(Hnone & _)]; [|congruence]. simplify_eq.
    destruct Hlife as (_ & Hre & Hwo & _). exists st'. split_and!; auto.
    + apply not_true_is_false. intros Ht. destruct (Hre Ht) as [?| ->]; [congruence|].
      destruct (c_use _ _ _ _ Hc (id st) Hk) as [Hno _]. apply Hno. unfold pipe_out. cbn. set_solver.
    + intros Ht. destruct Hwo as [->|[Ht' _]]; [auto|]. destruct (Hre Ht') as [?| ->]; [congruence|].
      destruct (c_use _ _ _ _ Hc (id st) Hk) as [Hno _]. exfalso. apply Hno. unfold pipe_out. cbn. set_solver.
Qed.

(** ** Emptying a direction *)

(** The writer task sends everything that is queued. *)
Lemma send_all s hs op y o i lx ly : ∃ s',
  rtc transport (mk_duplex (mk_side s hs op) y o i lx ly)
    (mk_duplex (mk_side s' hs op) y (o ++ queued (s_out s)) i lx ly) ∧
  queued (s_out s') = [] ∧ s_heap s' = s_heap s.
Proof.
  remember (queued (s_out s)) as q eqn:Eq. revert s o Eq. induction q as [|f q IH]; intros s o Eq.
  - exists s. rewrite app_nil_r. by split_and!.
  - destruct (recv_out s) as [r s1] eqn:E. assert (r = Some f ∧ queued (s_out s1) = q ∧ s_heap s1 = s_heap s) as (-> & Hq & Hh).
    { unfold recv_out in E. injection E as <- <-. rewrite try_recv_head, <- Eq. cbn. by rewrite queued_try_recv, <- Eq. }
    destruct (IH s1 (o ++ [f]) (eq_sym Hq)) as (s' & Hst & ? & ?). exists s'. split_and!; [|done|congruence].
    eapply rtc_l; [by apply (Tr_write f s s1)|]. by rewrite <- app_assoc in Hst.
Qed.

(** The reader task takes everything that has arrived. *)
Lemma take_all s hs op y o i lx ly :
  settled_in (mk_duplex (mk_side s hs op) y o i lx ly) → ∃ s',
  rtc transport (mk_duplex (mk_side s hs op) y o i lx ly) (mk_duplex (mk_side s' hs op) y o [] lx ly) ∧
  ∀ j, carried j (queued (s_out s')) = carried j (queued (s_out s)).
Proof.
  revert s. induction i as [|f i IH]; intros s Hd; [by exists s|].
  destruct (on_item (NextFrame f) s) as [go s1] eqn:E.
  assert (transport (mk_duplex (mk_side s hs op) y o (f :: i) lx ly) (mk_duplex (mk_side s1 hs op) y o i lx ly)) as Hst
    by (by eapply Tr_read).
  destruct (IH s1) as (s' & Hst' & Hc); [by eapply settled_half; [apply transport_half|]|].
  exists s'. split; [by eapply rtc_l|]. intros j. rewrite Hc.
  destruct Hd as [[Hx _ HP _ Hi] _ _]. cbn in Hx, HP, Hi. apply Forall_cons_1 in Hi as [Hf _].
  destruct (frame_taken f s hs op _ _ _ Hf Hx HP) as (_ & _ & _ & _ & fs & Hq & Hh). cbn [sd_s] in Hq. rewrite E in Hq.
  cbn [snd] in Hq. destruct (handles_answers _ _ _ _ j Hh) as [Hn _]. by rewrite Hq, carried_app, Hn, app_nil_r.
Qed.

(** Frames move on either side. *)
Definition moves_frames (d d' : duplex) : Prop := transport d d' ∨ transport (turned d) (turned d').

Lemma frames_help loc d d' : rtc moves_frames d d' → rtc (helps loc) d d'.
Proof. apply rtc_subrel. intros e e' [?|?]; [by apply Helps_here|by apply Helps_there]. Qed.

Lemma frames_turned d d' : rtc moves_frames d d' → rtc moves_frames (turned d) (turned d').
Proof.
  induction 1 as [|d1 d2 d3 Hst _ IH]; [done|]. eapply rtc_l; [|exact IH]. unfold moves_frames.
  rewrite !turned_turned. by destruct Hst; [right|left].
Qed.

Lemma transports_move d d' : rtc transport d d' → rtc moves_frames d d'.
Proof. apply rtc_subrel. by left. Qed.

Lemma frames_keep d d' loc loc' i w w' :
  rtc moves_frames d d' → settled_in d → keeps_hold (dx_here d) loc i w → keeps_hold (dx_there d) loc' i w' →
  settled_in d' ∧ keeps_hold (dx_here d') loc i w ∧ keeps_hold (dx_there d') loc' i w'.
Proof.
  induction 1 as [|d1 d2 d3 Hst _ IH]; [done|]. intros Hd H1 H2. destruct Hst as [Hst|Hst].
  - destruct (transport_keeps d1 d2 loc loc' i w w') as [? E]; auto. rewrite <- E in H2.
    apply IH; auto. by eapply settled_half; [apply transport_half|].
  - destruct (transport_keeps (turned d1) (turned d2) loc' loc i w' w) as [? E]; auto; [by apply settled_turned|].
    cbn in E. rewrite <- E in H1. apply IH; auto. rewrite <- (turned_turned d2). apply settled_turned.
    eapply settled_half; [by apply transport_half|by apply settled_turned].
Qed.

(** All that this side has sent arrives. *)
Lemma flush d :
  settled_in d → ∃ d', rtc moves_frames d d' ∧ pipe_out d' = [] ∧
    (∀ j, carried j (pipe_out (turned d')) = carried j (pipe_out (turned d))) ∧
    s_heap (sd_s (dx_here d')) = s_heap (sd_s (dx_here d)).
Proof.
  intros Hd. destruct d as [[s hs op] [t hs' op'] o i lx ly].
  destruct (send_all s hs op (mk_side t hs' op') o i lx ly) as (s' & Hst & Hq & Hh).
  apply transports_move in Hst. set (d1 := mk_duplex (mk_side s' hs op) _ _ _ _ _) in *.
  assert (settled_in (turned d1)) as Hd1
    by (apply settled_turned; eapply (settled_helps 0); [by apply frames_help|done]).
  destruct (take_all t hs' op' (mk_side s' hs op) i (o ++ queued (s_out s)) ly lx Hd1) as (t' & Hst' & Hc).
  exists (turned (mk_duplex (mk_side t' hs' op') (mk_side s' hs op) i [] ly lx)). split_and!.
  - etrans; [exact Hst|]. rewrite <- (turned_turned d1). by apply frames_turned, transports_move.
  - cbn. by rewrite Hq.
  - intros j. unfold pipe_out, turned. cbn [dx_out dx_here dx_in dx_there sd_s]. by rewrite !carried_app, Hc.
  - done.
Qed.

(** The user there reads all that waits for the stream. *)
Lemma read_all d loc i w :
  settled_in d → keeps_hold (dx_there d) loc i w → ∃ d', rtc (helps loc) d d' ∧ dx_here d' = dx_here d ∧
    pipe_out d' = pipe_out d ∧
    ∃ st, loc ∈ sd_handles (dx_there d') ∧ s_heap (sd_s (dx_there d')) !! loc = Some st ∧ id st = i ∧
      StreamState.is_reset (state st) = false ∧ bytes_in st = [].
Proof.
  intros [[_ Hy _ _ _] _ _] (st & Hin & Hl & Hi & Hr & _). destruct d as [x [s hs op] o inn lx ly]. cbn in *.
  destruct (decide (bytes_in st = [])) as [Hb|Hb]; [eexists; split; [done|]; cbn; eauto 10|].
  set (buf := ReadBuf.mk [] (length (bytes_in st))).
  assert (ReadBuf.remaining buf ≠ 0%nat) as Hrem by (cbn; by destruct (bytes_in st)).
  destruct (Forall_lookup_1 _ _ _ _ (inv_heap _ (si_session _ Hy)) Hl) as ((_ & _ & Hwf & _) & _).
  eexists. split; [apply rtc_once; by apply (Helps_read loc 0%nat buf)|]. split_and!; [done|done|].
  cbn [user_apply dx_there sd_s sd_handles]. unfold stream_poll_read. rewrite (on_stream_put _ _ _ _ Hl). cbn [snd].
  unfold poll_read. rewrite (proj2 (Nat.eqb_neq _ _) Hrem).
  destruct (poll_read_loop_total 1 0%nat buf st (links_of s) Hwf Hrem ltac:(lia)) as [-> _].
  destruct (poll_read_turn_spec 0%nat buf st (links_of s) Hwf Hrem) as (r' & Hr' & _ & ->).
  rewrite Hr, bool_decide_eq_false_2 by done. cbn [fst snd].
  eexists. split_and!; [done|cbn; by apply list_lookup_insert_eq, (lookup_lt_Some _ _ st)|..]; try done.
  cbn in Hr' |- *. rewrite Hr', Nat.min_id. by apply drop_ge.
Qed.

(** With nothing under way and nothing to read, a write is accepted. *)
Lemma idle_writable d loc loc' st st' cx buf :
  1 ≤ I → settled_in d → joined (dx_here d) (dx_there d) loc loc' st st' →
  StreamState.write_open (state st) = true → buf ≠ [] →
  bytes_in st' = [] → carried (id st) (pipe_out d) = [] → credited (id st) (pipe_out (turned d)) = 0 →
  ∃ n, (0 < n)%nat ∧ fst (stream_poll_write cx buf loc (sd_s (dx_here d))) = Some (Ready (Ok n)).
Proof.
  intros H1 [Hd [Hc _] [HL _]] Hj Hw Hbuf Hb Hp Hq.
  destruct (ledger_balanced I d HI Hd Hc HL _ _ _ _ Hj) as (E & _ & Hlt). rewrite Hb, Hp, Hq in E. cbn in E.
  destruct Hj as [[Hin Hl] _ _ Hr]. destruct Hd as [Hx _ _ _ _].
  destruct (c_shut _ _ _ _ Hc loc st Hl Hr) as [_ Hcl].
  destruct (Forall_lookup_1 _ _ _ _ (inv_heap _ (si_session _ Hx)) Hl) as ((_ & Hcfg & Hwf & _) & _).
  assert (1 ≤ Config.max_frame_size (config st)) as Hmax by (rewrite Hcfg; apply (inv_config _ (si_session _ Hx))).
  assert (1 ≤ SendWindow.available (send_window st)) as Ha.
  { destruct (Z.max_spec (I / 2) 1) as [[_ ->]|[_ ->]] in Hlt; [lia|]. pose proof (Z.div_le_upper_bound I 2 I). lia. }
  unfold stream_poll_write. rewrite (on_stream_put _ _ _ _ Hl). cbn [fst].
  rewrite poll_write_spec, Hr, Hw, Hcl by done. cbn [negb]. rewrite bool_decide_eq_false_2 by done.
  rewrite (proj2 (Z.eqb_neq _ _)) by lia. unfold links_of. cbn [out_ch]. rewrite (si_out _ Hx). cbn [fst].
  eexists. split; [|done]. assert (0 < length buf)%nat by (destruct buf; cbn; [done|lia]). unfold want. lia.
Qed.

Lemma writer_helped d loc loc' i cx buf :
  1 ≤ I → settled_in d → keeps_hold (dx_here d) loc i true → keeps_hold (dx_there d) loc' i false → buf ≠ [] →
  ∃ d' n, rtc (helps loc') d d' ∧ (0 < n)%nat ∧
    fst (stream_poll_write cx buf loc (sd_s (dx_here d'))) = Some (Ready (Ok n)).
Proof.
  intros H1 Hd Hh Ht Hbuf.
  destruct (flush d Hd) as (d1 & Hs1 & Hp1 & _). destruct (frames_keep _ _ _ _ _ _ _ Hs1 Hd Hh Ht) as (Hd1 & Hh1 & Ht1).
  destruct (read_all d1 loc' i false Hd1 Ht1) as (d2 & Hs2 & E2 & Hp2 & st2 & Hin2 & Hl2 & Hi2 & Hr2 & Hb2).
  pose proof (settled_helps _ _ _ Hs2 Hd1) as Hd2. rewrite <- E2 in Hh1.
  assert (keeps_hold (dx_there d2) loc' i false) as Ht2 by (exists st2; by split_and!).
  destruct (flush (turned d2) (settled_turned _ Hd2)) as (d3 & Hs3 & Hp3 & Hc3 & Eh3).
  destruct (frames_keep _ _ _ _ _ _ _ Hs3 (settled_turned _ Hd2) Ht2 Hh1) as (Hd3 & Ht3 & Hh3).
  apply frames_turned in Hs3. rewrite turned_turned in Hs3, Hc3. cbn [dx_here turned] in Eh3.
  destruct Hh3 as (st & Hin & Hl & Hi & Hr & Hw), Ht3 as (st' & Hin' & Hl' & Hi' & _).
  assert (st' = st2) as -> by (rewrite Eh3 in Hl'; congruence).
  destruct (idle_writable (turned d3) loc loc' st st2 cx buf) as (n & Hn & E); auto.
  - by apply settled_turned.
  - constructor; [done|done|congruence|done].
  - by rewrite Hi, Hc3, Hp2, Hp1.
  - by rewrite turned_turned, Hp3.
  - exists (turned d3), n. split_and!; auto. etrans; [by apply frames_help|]. etrans; [exact Hs2|by apply frames_help].
Qed.

End Window.

(** A writer can always get on, as far as frames go.  A client and a server grant the same initial
    window.  In every reachable state, for every stream that users hold on both
    sides, that was not reset and whose writing was not ended, seen from either
    side: moves of the tasks, which carry the frames under way, and reads of the
    stream by the peer lead to a state in which a write of any bytes is accepted
    with at least one byte.  No sequence of operations leads into a deadlock of
    the flow control. *)
Lemma writer_can_proceed cfg_a cfg_b d e loc loc' st st' cx buf :
  Config.valid cfg_a → Config.valid cfg_b →
  Config.initial_stream_window cfg_b = Config.initial_stream_window cfg_a →
  duplex_reachable (R := R) cfg_a cfg_b d → e = d ∨ e = turned d →
  joined (dx_here e) (dx_there e) loc loc' st st' → StreamState.write_open (state st) = true → buf ≠ [] →
  ∃ e' n, rtc (helps loc') e e' ∧ (0 < n)%nat ∧
    fst (stream_poll_write cx buf loc (sd_s (dx_here e'))) = Some (Ready (Ok n)).
Proof.
  intros Ha Hb E Hr He Hj Hw Hbuf. set (I := Config.initial_stream_window cfg_a). assert (is_u32 I) as HI by apply Ha.
  assert (settled_in I d) as Hd.
  { constructor; [exact (duplex_reachable_inv _ _ _ Ha Hb Hr)|exact (duplex_reachable_calm _ _ _ Ha Hb Hr)|].
    exact (duplex_reachable_ledger I HI _ _ _ Ha Hb eq_refl E Hr). }
  assert (settled_in I e) as Hs by (destruct He as [-> | ->]; [done|by apply settled_turned]).
  pose proof (joined_live _ _ _ _ _ _ _ _ (proj1 (st_calm _ _ Hs)) Hj) as Hr'.
  destruct Hj as [[Hin Hl] [Hin' Hl'] Hi Hlive].
  eapply (writer_helped I HI e loc loc' (id st)); auto; [apply Ha|by exists st|by exists st'].
Qed.

End Progress.
