(* ===== verification/Wires.v ===== *)
(** * Two sessions over bytes

    The system of [Duplex] again, with the connection as the program sees it: the
    writer tasks encode frames into a [FramedWrite], the connection delivers the
    bytes in pieces of any size, the reader tasks take frames off what has
    arrived with [FrameCodec].  Both sides use the same [max_frame_size], at most
    16 MiB, and the connection does not fail.  The systems do the same: so all
    that was shown of frames in [Duplex] holds of bytes. *)

From S2P Require Import Prelude Machine Errors Config Ids Frames Header Codec Crates Window.
From S2P Require Import StreamState RecvBuffer StreamInner StreamFacts StreamInv Session Reader Api.
From S2P Require Import FlowControl Keepalive Writer SessionInv System Dispatch Delivery Pair Duplex Endpoints.
From S2P Require Import Transparency Lifecycle Credit Progress.
From Stdlib Require Import ZArith Lia.

Local Open Scope Z_scope.

Section Wires.
Context {BF : BitflagsOps}.
Context {W : Type} {AW : AtomicWakerOps W}.
Context {C : Type → Type} {CH : UnboundedChannelOps C}.
Context {X R : Type} {WO : WatchOps X R}.
Context {DO : DrainOrder}.
Context {K : Type} {FW : FramedWriteOps K}.

Abbreviation session := (Session W C X).
Abbreviation side := (side (W := W) (C := C) (X := X)).
Abbreviation duplex := (duplex (W := W) (C := C) (X := X)).

(** One direction of the connection: the sink of the sender, what the receiver
    has read, and the part of it that its decoder has not consumed. *)
Record line : Type := mk_line {
  ln_sink : K;
  ln_read : list byte;
  ln_buf : list byte;
}.

Record wide : Type := mk_wide {
  wd_here : side;
  wd_there : side;
  wd_out : line;
  wd_in : line;
  wd_log_here : list io;
  wd_log_there : list io;
}.

Definition reversed (w : wide) : wide :=
  mk_wide (wd_there w) (wd_here w) (wd_in w) (wd_out w) (wd_log_there w) (wd_log_here w).

Lemma reversed_twice w : reversed (reversed w) = w.
Proof. by destruct w. Qed.

(** [framed.next()] on the bytes that are buffered; [None] when it has to read
    more. *)
Definition framed_next (config : Config.t) (buf : list byte) : option item * list byte :=
  match FrameCodec.decode (FrameCodec.new (Config.max_frame_size config)) buf with
  | (Ok (Some f), rest) => (Some (NextFrame f), rest)
  | (Ok None, rest) => (None, rest)
  | (Err e, rest) => (Some (NextErr e), rest)
  end.

(** The tasks of this side and the connection move bytes. *)
Inductive wide_carry : wide → wide → Prop :=
| Wide_write go k k' rd buf s s' hs op y i lx ly :   (* a turn of the writer task *)
    write_next k s = (Some (go, k'), s') →
    wide_carry (mk_wide (mk_side s hs op) y (mk_line k rd buf) i lx ly)
      (mk_wide (mk_side s' hs op) y (mk_line k' rd buf) i lx ly)
| Wide_arrive k rd buf chunk rest x y o lx ly :      (* bytes come in *)
    flushed k = rd ++ chunk ++ rest →
    wide_carry (mk_wide x y o (mk_line k rd buf) lx ly)
      (mk_wide x y o (mk_line k (rd ++ chunk) (buf ++ chunk)) lx ly)
| Wide_read it buf buf' go k rd s s' hs op y o lx ly :  (* a turn of the reader task *)
    framed_next (s_config s) buf = (Some it, buf') → on_item it s = (go, s') →
    wide_carry (mk_wide (mk_side s hs op) y o (mk_line k rd buf) lx ly)
      (mk_wide (mk_side s' hs op) y o (mk_line k rd buf') lx ly).

(** A step of this side. *)
Inductive wide_half : wide → wide → Prop :=
| Wide_local x ios x' y o i lx ly :
    local_step (R := R) x ios x' → wide_half (mk_wide x y o i lx ly) (mk_wide x' y o i (lx ++ ios) ly)
| Wide_tasks w w' : wide_carry w w' → wide_half w w'.

Inductive wide_step : wide → wide → Prop :=
| Wide_here w w' : wide_half w w' → wide_step w w'
| Wide_there w w' : wide_half (reversed w) (reversed w') → wide_step w w'.

Definition line_new (config : Config.t) : line := mk_line (writer_sink config) [] [].

Definition wide_new (cfg_a cfg_b : Config.t) : wide :=
  mk_wide (mk_side (start (R := R) cfg_a Role.Client) [] []) (mk_side (start (R := R) cfg_b Role.Server) [] [])
    (line_new cfg_a) (line_new cfg_b) [] [].

Definition wide_reachable (cfg_a cfg_b : Config.t) : wide → Prop := rtc wide_step (wide_new cfg_a cfg_b).

(** ** Frames for bytes *)

(** The connection accepts what it is given, from the start. *)
Record steady (up : K → Prop) : Prop := {
  up_new : ∀ c, up (fw_new c);
  up_feed : ∀ f k, up k → FrameCodec.sendable (fw_codec k) f →
    fst (fw_feed f k) = Ok () ∧ up (snd (fw_feed f k));
  up_flush : ∀ k, up k → fst (fw_flush k) = Ok () ∧ up (snd (fw_flush k));
}.

Section Up.
Variable up : K → Prop.
Hypothesis Hup : steady up.

(** The frame limit of both sides. *)
Variable m : Z.
Hypothesis Hm : 1 ≤ m ≤ ABSOLUTE_MAX_PAYLOAD.
Let codec := FrameCodec.new m.

Lemma codec_wf : FrameCodec.wf codec.
Proof. apply FrameCodec.new_wf. lia. Qed.

(** The line holds the frames [fs]: their bytes are in the decoder's buffer and on
    the way. *)
Definition holds_frames (l : line) (fs : list Frame.t) : Prop :=
  up (ln_sink l) ∧ fw_codec (ln_sink l) = codec ∧ unflushed (ln_sink l) = [] ∧
  Forall (FrameCodec.sendable codec) fs ∧
  ∃ rest, flushed (ln_sink l) = ln_read l ++ rest ∧ ln_buf l ++ rest = FrameCodec.wire_all fs.

Record stands_for (w : wide) (d : duplex) : Prop := {
  sf_here : wd_here w = dx_here d;
  sf_there : wd_there w = dx_there d;
  sf_out : holds_frames (wd_out w) (dx_out d);
  sf_in : holds_frames (wd_in w) (dx_in d);
  sf_log_here : wd_log_here w = dx_log_here d;
  sf_log_there : wd_log_there w = dx_log_there d;
  sf_limits : Config.max_frame_size (s_config (sd_s (dx_here d))) = m ∧
    Config.max_frame_size (s_config (sd_s (dx_there d))) = m;
}.

Lemma stands_for_turned w d : stands_for w d → stands_for (reversed w) (turned d).
Proof. intros [? ? ? ? ? ? [? ?]]. by constructor. Qed.

(** What is queued can be sent. *)
Lemma queue_sendable (x : side) :
  side_inv x → Config.max_frame_size (s_config (sd_s x)) = m →
  Forall (FrameCodec.sendable codec) (queued (s_out (sd_s x))).
Proof.
  intros Hx Hc. eapply Forall_impl; [|exact (inv_out _ (si_session x Hx))].
  intros f [? Hl]. rewrite Hc in Hl. split; [done|]. cbn. lia.
Qed.

(** The writer puts the head of the queue on the line. *)
Lemma write_frame f k s s' rd buf fs hs op :
  side_inv (mk_side s hs op) → Config.max_frame_size (s_config s) = m →
  recv_out s = (Some f, s') → holds_frames (mk_line k rd buf) fs →
  ∃ k', write_next k s = (Some (true, k'), s') ∧ holds_frames (mk_line k' rd buf) (fs ++ [f]).
Proof.
  intros Hx Hc E (Hu & Hk & Hun & Hfs & rest & Hfl & Hb). cbn in *.
  destruct (recv_out_side f s s' hs op E Hx) as (_ & _ & Hq & _).
  pose proof (queue_sendable _ Hx Hc) as Hs. cbn in Hs. rewrite Hq in Hs. apply Forall_cons_1 in Hs as [Hf _].
  destruct (write_one_up up (up_feed _ Hup) (up_flush _ Hup) f k) as (k' & Ew & Hu' & Hk' & Hfl' & Hun'); [by rewrite Hk; apply codec_wf|by rewrite Hk|done|].
  exists k'. split.
  - unfold write_next, mbind, SM_bind. rewrite E. cbn [fst snd]. by rewrite Ew.
  - split_and!; cbn; auto; [congruence|apply Forall_app; by split; [|apply Forall_singleton]|].
    exists (rest ++ FrameCodec.wire f). rewrite Hfl'. unfold fed. rewrite Hun, app_nil_r, Hfl, !app_assoc, Hb.
    rewrite FrameCodec.wire_all_app. split; [done|]. f_equal. unfold FrameCodec.wire_all. cbn. by rewrite app_nil_r.
Qed.

(** The decoder takes the frames off the line one by one, and finds no fault. *)
Lemma next_frame config k rd buf fs :
  Config.max_frame_size config = m → Forall shape fs → holds_frames (mk_line k rd buf) fs →
  framed_next config buf = (None, buf) ∨
  ∃ f fs' buf', fs = f :: fs' ∧ framed_next config buf = (Some (NextFrame f), buf') ∧
    holds_frames (mk_line k rd buf') fs'.
Proof.
  intros Hc Hsh (Hu & Hk & Hun & Hfs & rest & Hfl & Hb). cbn in *. unfold framed_next. rewrite Hc. fold codec.
  destruct (FrameCodec.split_prefix codec fs buf rest codec_wf Hfs Hb) as (fs1 & fs2 & tail & -> & -> & Ht & Hd).
  destruct fs1 as [|f fs1]; [left; cbn; by rewrite Hd|right].
  apply Forall_app in Hfs as [[Hf Hfs1]%Forall_cons_1 Hfs2]. exists f, (fs1 ++ fs2), (FrameCodec.wire_all fs1 ++ tail).
  assert (Frame.normalize f = f) as Hnf by (apply Forall_cons_1 in Hsh as [Hsh _]; by destruct f).
  rewrite FrameCodec.wire_all_cons, <- app_assoc, FrameCodec.decode_frame, Hnf by (done || apply codec_wf).
  split_and!; [done|done|]. split_and!; cbn; auto; [by apply Forall_app|]. exists rest. split; [done|].
  by rewrite FrameCodec.wire_all_app, <- app_assoc, Ht.
Qed.

(** ** The bytes do what the frames do *)

Lemma limits_kept (x x' : side) ios :
  local_step (R := R) x ios x' → side_inv x → Config.max_frame_size (s_config (sd_s x)) = m →
  Config.max_frame_size (s_config (sd_s x')) = m.
Proof. intros Hst Hx <-. by rewrite (side_config x x' ios Hst Hx). Qed.

Lemma in_shape d : duplex_inv d → Forall shape (dx_in d) ∧ Forall Frame.wf (dx_in d).
Proof. intros [_ _ HP _ Hi]. split; [|done]. by pose proof (d_shape _ _ _ _ (p_back _ _ _ _ HP)) as [? _]%Forall_app. Qed.

Lemma wide_half_frames w w' d :
  wide_half w w' → duplex_inv d → stands_for w d →
  ∃ d', (half_step (R := R) d d' ∨ d' = d) ∧ stands_for w' d'.
Proof.
  intros Hst Hd Hs. pose proof (in_shape d Hd) as [Hsh Hwf]. pose proof (di_here d Hd) as Hx.
  destruct d as [x0 y0 o0 i0 lx0 ly0], Hs as [E1 E2 Ho Hi E3 E4 [L1 L2]]. cbn in *.
  destruct Hst as [x ios x' y o i lx ly Hl|w1 w1' [go k k' rd buf s s' hs op y i lx ly E
    |k rd buf chunk rest x y o lx ly E|it buf buf' go k rd s s' hs op y o lx ly E1' E2']]; cbn in *; subst.
  - eexists. split; [left; by apply Half_local|]. constructor; cbn; auto. split; [|done]. by eapply limits_kept.
  - destruct (recv_out s) as [[f|] s1] eqn:Er; [|unfold write_next, mbind, SM_bind in E; rewrite Er in E; done].
    destruct (write_frame f k s s1 rd buf o0 hs op Hx L1 Er Ho) as (k1 & Ew & Ho'). rewrite Ew in E. simplify_eq.
    eexists. split; [left; by apply Half_write|]. constructor; cbn; auto. split; [|done].
    unfold recv_out in Er. by injection Er as _ <-.
  - eexists. split; [by right|]. constructor; cbn; auto. destruct Hi as (? & ? & ? & ? & rest' & Hf & Hb). cbn in *.
    split_and!; cbn; auto. exists rest. rewrite E in Hf. apply app_inv_head in Hf as <-. by rewrite E, <- !app_assoc.
  - destruct (next_frame (s_config s) k rd buf i0 L1 Hsh Hi) as [En|(f & fs' & buf2 & -> & En & Hi')]; [congruence|].
    rewrite En in E1'. simplify_eq. eexists. split; [left; by eapply Half_read|]. constructor; cbn; auto. split; [|done].
    apply Forall_cons_1 in Hwf as [Hf _]. destruct (on_item_ok (NextFrame f) Hf s (si_session _ Hx)) as [_ (Hc & _)].
    rewrite E2' in Hc. cbn in Hc. by rewrite Hc.
Qed.

Lemma frames_carried w d d' :
  transport d d' → duplex_inv d → stands_for w d → ∃ w', rtc wide_carry w w' ∧ stands_for w' d'.
Proof.
  intros Hst Hd Hs. pose proof (in_shape d Hd) as [Hsh Hwf]. pose proof (di_here d Hd) as Hx.
  destruct w as [x0 y0 [ko ro bo] [ki ri bi] lx0 ly0], Hs as [E1 E2 Ho Hi E3 E4 [L1 L2]]. cbn in *.
  destruct Hst as [f s s' hs op y o i lx ly E|f go s s' hs op y o i lx ly E]; cbn in *; subst.
  - destruct (write_frame f ko s s' ro bo o hs op Hx L1 E Ho) as (k1 & Ew & Ho').
    eexists. split; [by apply rtc_once; eapply Wide_write|]. constructor; cbn; auto. split; [|done].
    unfold recv_out in E. by injection E as _ <-.
  - destruct Hi as (H1 & H2 & H3 & H4 & rest & Hf & Hb). cbn [ln_sink ln_read ln_buf] in H1, H2, H3, Hf, Hb.
    assert (holds_frames (mk_line ki (ri ++ rest) (bi ++ rest)) (f :: i)) as Hi.
    { split_and!; cbn; auto. exists []. by rewrite !app_nil_r. }
    destruct (next_frame (s_config s) _ _ _ _ L1 Hsh Hi) as [En|(g & fs' & buf2 & [= <- <-] & En & Hi')].
    { exfalso. unfold framed_next in En. rewrite L1, Hb, FrameCodec.wire_all_cons, FrameCodec.decode_frame in En;
        [done|apply codec_wf|by apply Forall_cons_1 in H4 as [? _]]. }
    eexists. split.
    { eapply rtc_l; [by apply (Wide_arrive ki ri bi rest []); rewrite app_nil_r|]. apply rtc_once. by eapply Wide_read. }
    constructor; cbn; auto. split; [|done].
    apply Forall_cons_1 in Hwf as [Hwf _]. destruct (on_item_ok (NextFrame f) Hwf s (si_session _ Hx)) as [_ (Hc & _)].
    assert (s' = snd (on_item (NextFrame f) s)) as -> by (cbn; by rewrite E). by rewrite Hc.
Qed.

Lemma frames_wide_half w d d' :
  half_step (R := R) d d' → duplex_inv d → stands_for w d → ∃ w', rtc wide_half w w' ∧ stands_for w' d'.
Proof.
  intros Hst Hd Hs. assert (transport d d' → ∃ w', rtc wide_half w w' ∧ stands_for w' d') as Ht.
  { intros Ht. destruct (frames_carried w d d' Ht Hd Hs) as (w' & Hw & Hs'). exists w'. split; [|done].
    eapply rtc_subrel; [|exact Hw]. apply Wide_tasks. }
  destruct Hst as [x ios x' y o i lx ly Hl|f s s' hs op y o i lx ly E|f go s s' hs op y o i lx ly E];
    [|by apply Ht, Tr_write|by eapply Ht, Tr_read].
  pose proof (di_here _ Hd) as Hx. destruct w as [x0 y0 o0 i0 lx0 ly0], Hs as [E1 E2 Ho Hi E3 E4 [L1 L2]]. cbn in *. subst.
  eexists. split; [by apply rtc_once, Wide_local|]. constructor; cbn; auto. split; [|done]. by eapply limits_kept.
Qed.

Lemma wide_step_frames w w' d :
  wide_step w w' → duplex_inv d → stands_for w d →
  ∃ d', rtc (duplex_step (R := R)) d d' ∧ duplex_inv d' ∧ stands_for w' d'.
Proof.
  intros [w1 w1' Hst|w1 w1' Hst] Hd Hs.
  - destruct (wide_half_frames _ _ _ Hst Hd Hs) as (d' & [Hh| ->] & Hs'); [|by exists d].
    exists d'. split_and!; auto; [by apply rtc_once, Duplex_here|by eapply half_step_inv].
  - apply duplex_inv_turned in Hd. apply stands_for_turned in Hs.
    destruct (wide_half_frames _ _ _ Hst Hd Hs) as (d' & Hh & Hs'%stands_for_turned). rewrite reversed_twice in Hs'.
    destruct Hh as [Hh| ->].
    + exists (turned d'). split_and!; auto; [|by apply duplex_inv_turned; eapply half_step_inv].
      apply rtc_once, Duplex_there. by rewrite turned_turned.
    + exists d. rewrite turned_turned in Hs'. split_and!; [done|by apply duplex_inv_turned|done].
Qed.

Lemma frames_wide_step w d d' :
  duplex_step (R := R) d d' → duplex_inv d → stands_for w d →
  ∃ w', rtc wide_step w w' ∧ duplex_inv d' ∧ stands_for w' d'.
Proof.
  intros [d1 d1' Hst|d1 d1' Hst] Hd Hs.
  - destruct (frames_wide_half _ _ _ Hst Hd Hs) as (w' & Hw & Hs'). exists w'. split_and!; auto; [|by eapply half_step_inv].
    eapply rtc_subrel; [|exact Hw]. apply Wide_here.
  - apply duplex_inv_turned in Hd. apply stands_for_turned in Hs.
    destruct (frames_wide_half _ _ _ Hst Hd Hs) as (w' & Hw & Hs'%stands_for_turned). rewrite turned_turned in Hs'.
    exists (reversed w'). split_and!; auto; [|by apply duplex_inv_turned; eapply half_step_inv].
    rewrite <- (reversed_twice w). clear -Hw. induction Hw as [|w1 w2 w3 Hst _ IH]; [done|].
    eapply rtc_l; [|exact IH]. apply Wide_there. by rewrite !reversed_twice.
Qed.





Lemma wide_start cfg_a cfg_b :
  Config.valid cfg_a → Config.valid cfg_b → Config.max_frame_size cfg_a = m → Config.max_frame_size cfg_b = m →
  stands_for (wide_new cfg_a cfg_b) (duplex_new (R := R) cfg_a cfg_b).
Proof.
  intros Ha Hb Ea Eb.
  assert (∀ cfg, Config.max_frame_size cfg = m → holds_frames (line_new cfg) []) as Hl.
  { intros cfg E. unfold line_new, writer_sink. rewrite E. destruct (fw_new_spec (K := K) codec) as (H1 & H2 & H3).
    split_and!; cbn; auto; [apply (up_new _ Hup)|by exists []]. }
  constructor; cbn; auto.
  destruct (start_spec (W := W) (C := C) (X := X) (R := R) cfg_a Role.Client Ha) as (_ & -> & _).
  by destruct (start_spec (W := W) (C := C) (X := X) (R := R) cfg_b Role.Server Hb) as (_ & -> & _).
Qed.

Lemma wide_reachable_frames cfg_a cfg_b w :
  Config.valid cfg_a → Config.valid cfg_b → Config.max_frame_size cfg_a = m → Config.max_frame_size cfg_b = m →
  wide_reachable cfg_a cfg_b w → ∃ d, duplex_reachable (R := R) cfg_a cfg_b d ∧ stands_for w d.
Proof.
  intros Ha Hb Ea Eb Hr. unfold wide_reachable in Hr. apply rtc_ind_r with
    (P := λ w, ∃ d, duplex_reachable (R := R) cfg_a cfg_b d ∧ stands_for w d) in Hr; [done|..].
  - exists (duplex_new (R := R) cfg_a cfg_b). split; [apply rtc_refl|by apply wide_start].
  - intros w1 w2 _ Hst (d & Hd & Hs).
    destruct (wide_step_frames w1 w2 d Hst) as (d' & Hd' & _ & Hs'); [exact (duplex_reachable_inv _ _ _ Ha Hb Hd)|done|].
    exists d'. split; [|done]. unfold duplex_reachable. by etrans.
Qed.

End Up.

Lemma duplex_reachable_bytes up m cfg_a cfg_b d :
  steady up → 1 ≤ m ≤ ABSOLUTE_MAX_PAYLOAD →
  Config.valid cfg_a → Config.valid cfg_b → Config.max_frame_size cfg_a = m → Config.max_frame_size cfg_b = m →
  duplex_reachable (R := R) cfg_a cfg_b d → ∃ w, wide_reachable cfg_a cfg_b w ∧ stands_for up m w d.
Proof.
  intros Hup Hm Ha Hb Ea Eb Hr. unfold duplex_reachable in Hr. apply rtc_ind_r with
    (P := λ d, ∃ w, wide_reachable cfg_a cfg_b w ∧ stands_for up m w d) in Hr; [done|..].
  - exists (wide_new cfg_a cfg_b). split; [apply rtc_refl|by apply wide_start].
  - intros d1 d2 Hr1 Hst (w & Hw & Hs).
    destruct (frames_wide_step up Hup m Hm w d1 d2 Hst) as (w' & Hw' & _ & Hs'); [exact (duplex_reachable_inv _ _ _ Ha Hb Hr1)|done|].
    exists w'. split; [|done]. unfold wide_reachable. by etrans.
Qed.

(** C5: Frames are a faithful picture of the bytes.  Two sessions with the same
    [max_frame_size], at most 16 MiB, over a connection that takes the bytes it is
    given and delivers them in order, in pieces of any size.  Every state of the
    system in which the writer tasks encode and the reader tasks decode is a state
    of the system that exchanges frames, with the same sessions and the same views
    of the users: the bytes under way are the encodings of the frames under way.
    And the other way round: whatever can happen with frames can happen with bytes. *)
Theorem bytes_are_frames up cfg_a cfg_b :
  steady up → Config.valid cfg_a → Config.valid cfg_b →
  Config.max_frame_size cfg_b = Config.max_frame_size cfg_a → Config.max_frame_size cfg_a ≤ ABSOLUTE_MAX_PAYLOAD →
  let m := Config.max_frame_size cfg_a in
  (∀ w, wide_reachable cfg_a cfg_b w → ∃ d, duplex_reachable (R := R) cfg_a cfg_b d ∧ stands_for up m w d) ∧
  (∀ d, duplex_reachable (R := R) cfg_a cfg_b d → ∃ w, wide_reachable cfg_a cfg_b w ∧ stands_for up m w d).
Proof.
  intros Hup Ha Hb E Hle m. assert (1 ≤ m ≤ ABSOLUTE_MAX_PAYLOAD) as Hm by (split; [apply Ha|done]). split.
  - intros w Hw. by apply (wide_reachable_frames up Hup m Hm cfg_a cfg_b w).
  - intros d Hd. by apply (duplex_reachable_bytes up m cfg_a cfg_b d).
Qed.

(** A side that gets on with the other: it is not closing and announces nothing of
    the kind, its writer has no error to report, and whatever its decoder finds in
    the bytes that have arrived is a frame that it takes without an error. *)
Definition in_harmony (x : side) (out into : line) : Prop :=
  s_is_closing (sd_s x) = false ∧ goaways (queued (s_out (sd_s x))) = 0%nat ∧
  (∀ go k s', write_next (ln_sink out) (sd_s x) = (Some (go, k), s') → go = true) ∧
  match fst (framed_next (s_config (sd_s x)) (ln_buf into)) with
  | None => True
  | Some (NextFrame f) => goaways [f] = 0%nat ∧ fst (dispatch f (sd_s x)) = Ok ()
  | Some _ => False
  end.

Lemma half_in_harmony up m w d :
  steady up → 1 ≤ m ≤ ABSOLUTE_MAX_PAYLOAD → duplex_inv d → stands_for up m w d →
  in_harmony (wd_here w) (wd_out w) (wd_in w).
Proof.
  intros Hup Hm Hd Hs. pose proof (in_shape d Hd) as [Hsh Hwf]. destruct (half_at_peace d Hd) as (Hc & Hg & Hdis).
  pose proof Hd as [Hx _ HP _ _].
  destruct w as [x0 y0 [ko ro bo] [ki ri bi] lx0 ly0], Hs as [E1 E2 Ho Hi E3 E4 [L1 L2]]. cbn in *. subst x0 y0 lx0 ly0.
  split_and!; cbn [ln_sink ln_buf]; [done| | |].
  - pose proof (d_shape _ _ _ _ (p_there _ _ _ _ HP)) as [_ Hq]%Forall_app. clear -Hq. unfold goaways.
    induction Hq as [|f q Hf _ IH]; [done|]. by destruct f.
  - intros go k s' E. destruct d as [[s hs op] y o i lx ly]. cbn in *.
    destruct (recv_out s) as [[f|] s1] eqn:Er; [|unfold write_next, mbind, SM_bind in E; rewrite Er in E; done].
    destruct (write_frame up Hup m Hm f ko s s1 ro bo o hs op Hx L1 Er Ho) as (k1 & Ew & _). congruence.
  - destruct (next_frame up m Hm _ ki ri bi _ L1 Hsh Hi) as [->|(f & fs' & buf' & Ef & -> & _)]; [done|]. cbn [fst].
    split; [|by apply (Hdis f fs')]. rewrite Ef in Hsh. apply Forall_cons_1 in Hsh as [Hsh _]. by destruct f.
Qed.

(** C4: Two sessions of the crate never fall out with each other, down to the
    bytes.  A client and a server with the same [max_frame_size], at most 16 MiB,
    are joined by a connection that takes the bytes it is given and delivers them in
    order, in pieces of any size.  On both sides users open, accept, read, write,
    shut down and drop streams, opens time out, and the tasks run, in any order of
    these operations and for any number of streams; nobody resets a stream or closes
    a session, and no keepalive deadline passes.  Then neither session starts to
    close or queues a GoAway, no write of a frame fails, and whatever a decoder finds
    in the bytes that have arrived is a frame, not an error and not a GoAway, and is
    dispatched without an error: no payload reaches a stream that cannot receive, no
    SYN has the wrong parity or a used id. *)
Theorem bytes_agree up cfg_a cfg_b w :
  steady up → Config.valid cfg_a → Config.valid cfg_b →
  Config.max_frame_size cfg_b = Config.max_frame_size cfg_a → Config.max_frame_size cfg_a ≤ ABSOLUTE_MAX_PAYLOAD →
  wide_reachable cfg_a cfg_b w →
  in_harmony (wd_here w) (wd_out w) (wd_in w) ∧ in_harmony (wd_there w) (wd_in w) (wd_out w).
Proof.
  intros Hup Ha Hb E Hle Hw. assert (1 ≤ Config.max_frame_size cfg_a ≤ ABSOLUTE_MAX_PAYLOAD) as Hm by (split; [apply Ha|done]).
  destruct (wide_reachable_frames up Hup _ Hm cfg_a cfg_b w) as (d & Hr & Hs); auto.
  pose proof (duplex_reachable_inv _ _ _ Ha Hb Hr) as Hd. split; [by eapply half_in_harmony|].
  apply (half_in_harmony up (Config.max_frame_size cfg_a) (reversed w) (turned d)); auto;
    [by apply duplex_inv_turned|by apply stands_for_turned].
Qed.


(** C6: Multiplexing over bytes is transparent.  Two sessions with the same
    [max_frame_size], at most 16 MiB, over a connection that takes the bytes it is
    given and delivers them in order, in pieces of any size.  In every state they reach
    while nobody resets a stream or closes a session and no keepalive deadline passes:
    neither session is closing, so no frame was refused and no decoder found a fault;
    on every stream and in both directions what the users have read is a prefix of what
    their peers wrote; and a user whose read, not overlapping a delivery, reports the
    end of a stream has read all of it. *)
Theorem bytes_transparent up cfg_a cfg_b w :
  steady up → Config.valid cfg_a → Config.valid cfg_b →
  Config.max_frame_size cfg_b = Config.max_frame_size cfg_a → Config.max_frame_size cfg_a ≤ ABSOLUTE_MAX_PAYLOAD →
  wide_reachable cfg_a cfg_b w →
  (s_is_closing (sd_s (wd_here w)) = false ∧ s_is_closing (sd_s (wd_there w)) = false) ∧
  (∀ i, got i (wd_log_there w) `prefix_of` wrote i (wd_log_here w) ∧
     got i (wd_log_here w) `prefix_of` wrote i (wd_log_there w)) ∧
  complete (wd_here w) (wd_there w) (wd_log_here w) (wd_log_there w) ∧
  complete (wd_there w) (wd_here w) (wd_log_there w) (wd_log_here w).
Proof.
  intros Hup Ha Hb E Hle Hw.
  destruct (wide_reachable_frames up Hup (Config.max_frame_size cfg_a) ltac:(split; [apply Ha|done]) cfg_a cfg_b w)
    as (d & Hr & [-> -> _ _ -> -> _]); auto.
  destruct (duplex_reachable_inv _ _ _ Ha Hb Hr) as [Hx Hy HP _ _].
  destruct (duplex_reachable_flow _ _ _ Ha Hb Hr) as [Hf Hf'].
  split_and!; [apply Hx|apply Hy| |by eapply flow_complete|].
  - intros i. split; [by apply (flow_faithful _ _ _ _ _ Hy Hf)|by apply (flow_faithful _ _ _ _ _ Hx Hf')].
  - eapply flow_complete; [done|by apply pair_inv_flip|done].
Qed.

End Wires.
