(* ===== verification/Users.v ===== *)
(** * What a user may rely on while others move

    The step-wise facts of [Duplex] that the theorems on programs are made of:
    which stream is where, which streams nobody has touched yet, and what stays
    true of a stream that can no longer be written, or that nobody uses. *)

From S2P Require Import Prelude Machine Errors Config Ids Frames Header Codec Crates Window.
From S2P Require Import StreamState RecvBuffer StreamInner StreamFacts StreamInv Session Reader Api.
From S2P Require Import FlowControl Keepalive Writer SessionInv System Dispatch Pair Duplex Endpoints.
From S2P Require Import Transparency Lifecycle.
From Stdlib Require Import ZArith Lia.

Local Open Scope Z_scope.

Section Users.
Context {BF : BitflagsOps}.
Context {W : Type} {AW : AtomicWakerOps W}.
Context {C : Type → Type} {CH : UnboundedChannelOps C}.
Context {X R : Type} {WO : WatchOps X R}.
Context {DO : DrainOrder}.

Abbreviation session := (Session W C X).
Abbreviation side := (side (W := W) (C := C) (X := X)).
Abbreviation duplex := (duplex (W := W) (C := C) (X := X)).

(** The stream at [loc] is stream [i]. *)
Definition names (x : side) (loc : Loc) (i : StreamId) : Prop :=
  ∃ st, s_heap (sd_s x) !! loc = Some st ∧ id st = i.

(** A stream that exists and can no longer be written. *)
Definition settled (x : side) (i : StreamId) : Prop := v_known (view_of x) i ∧ ¬ v_wr (view_of x) i.

(** Nobody has touched stream [i]. *)
Definition untouched (i : StreamId) (l : list io) : Prop :=
  wrote i l = [] ∧ got i l = [] ∧ Shut i ∉ l.

(** The streams that are being opened or wait to be accepted. *)
Definition waits (x : side) : list Loc := (snd <$> sd_opening x) ++ queued (s_accept (sd_s x)).

Lemma names_known x loc i : names x loc i → v_known (view_of x) i.
Proof. intros (st & ? & ?). by exists loc, st. Qed.

Lemma names_fun x loc i i' : names x loc i → names x loc i' → i = i'.
Proof. intros (st & ? & ?) (st' & ? & ?). congruence. Qed.

Lemma names_inj x loc loc' i : side_inv x → names x loc i → names x loc' i → loc = loc'.
Proof. intros Hx (st & ? & ?) (st' & ? & ?). by apply (si_unique x Hx loc loc' st st'); [..|congruence]. Qed.

Lemma untouched_app i l1 l2 : untouched i (l1 ++ l2) ↔ untouched i l1 ∧ untouched i l2.
Proof.
  unfold untouched. rewrite wrote_app, got_app, elem_of_app. split.
  - intros ([-> ->]%app_eq_nil & [-> ->]%app_eq_nil & H). tauto.
  - intros [(-> & -> & ?) (-> & -> & ?)]. tauto.
Qed.

Lemma untouched_nil i : untouched i [].
Proof. split_and!; [done..|set_solver]. Qed.

(** A call on a stream is logged under its id. *)
Lemma user_io_other loc u (s : session) st i :
  s_heap s !! loc = Some st → i ≠ id st → untouched i (user_io loc u s).
Proof.
  intros Hl Hi. assert ((id st =? i) = false) as He by (apply Z.eqb_neq; congruence).
  destruct u; cbn [user_io]; try apply untouched_nil; unfold io_of; rewrite Hl.
  - destruct (fst (stream_poll_read _ _ _ _)); [|apply untouched_nil].
    split_and!; cbn; rewrite ?He; [done..|]. by intros ?%list_elem_of_singleton.
  - destruct (fst (stream_poll_write _ _ _ _)) as [[[|]|]|]; try apply untouched_nil.
    split_and!; cbn; rewrite ?He; [done..|]. by intros ?%list_elem_of_singleton.
  - split_and!; [done..|]. by intros [= ->]%list_elem_of_singleton.
  - split_and!; [done..|]. by intros [= ->]%list_elem_of_singleton.
Qed.

(** What a step that logs [ios] leaves as it was. *)
Record onward (x x' y : side) (ios : list io) : Prop := {
  on_own : ∀ i, v_own (view_of x') i ↔ v_own (view_of x) i;
  on_names : ∀ loc i, names x loc i → names x' loc i;
  on_back : ∀ loc i, names x' loc i →
    names x loc i ∨ s_heap (sd_s x) !! loc = None ∧ ¬ v_known (view_of x) i;
  on_settled : ∀ i, settled x i → settled x' i ∧ wrote i ios = [];
  on_gone : ∀ i, v_known (view_of y) i → ¬ v_own (view_of y) i → ¬ in_use x i → ¬ in_use x' i;
  on_waits : ∀ loc, loc ∈ waits x' → loc ∈ waits x ∨ s_heap (sd_s x) !! loc = None;
}.

(** Streams stay where they are. *)
Lemma names_stay (x x' : side) :
  side_inv x → (∀ i, v_known (view_of x) i → v_known (view_of x') i) →
  (∀ loc st', s_heap (sd_s x') !! loc = Some st' →
     (∃ st, s_heap (sd_s x) !! loc = Some st ∧ id st' = id st) ∨ ¬ v_known (view_of x) (id st')) →
  ∀ loc i, names x loc i → names x' loc i.
Proof.
  intros Hx Hk Hh loc i Hn. destruct (Hk i (names_known _ _ _ Hn)) as (loc' & st' & Hl' & Hi').
  destruct (Hh loc' st' Hl') as [(st2 & Hl2 & Hi2)|Hno]; [|destruct Hno; rewrite Hi'; by eapply names_known].
  rewrite (names_inj x loc loc' i Hx Hn); [by exists st'|]. exists st2. split; [done|congruence].
Qed.

Lemma local_onward (x x' y : side) ios P Q :
  local_step (R := R) x ios x' → side_inv x → pair_inv (view_of x) (view_of y) (P ++ queued (s_out (sd_s x))) Q →
  onward x x' y ios.
Proof.
  intros Hst Hx HP.
  destruct (local_step_keeps x x' ios _ _ _ Hst Hx HP) as (_ & _ & Hk & fs & Hq & Hs).
  destruct (local_step_data x x' ios Hst Hx) as (fs' & Hq' & [D1 _ D3 _ _ _ _]).
  assert (fs' = fs) as -> by (apply (app_inv_head (queued (s_out (sd_s x)))); congruence).
  destruct (local_step_places x x' ios Hst Hx) as (_ & Ho & Ha).
  constructor.
  - intros i. apply Hs.
  - apply names_stay; [done|apply Hk|]. intros loc st' Hl.
    destruct (D3 loc st' Hl) as [(st & ? & ? & _)|(_ & _ & Hsyn & _)]; [left; by exists st|right].
    by destruct (proj1 (Hs _) Hsyn) as [? _].
  - intros loc i (st' & Hl & <-). destruct (D3 loc st' Hl) as [(st & ? & ? & _)|(? & _ & Hsyn & _)]; [left|right].
    + exists st. split; [done|congruence].
    + by destruct (proj1 (Hs _) Hsyn) as [? _].
  - intros i [Hki Hw]. destruct (Hs i) as (Hf & Hw' & Hc & _ & _).
    assert (Frame.syn i ∉ fs) as Hns by (intros [? _]%Hf; done).
    split; [split; [by apply Hk|]; intros [?|?]%Hw'; done|]. rewrite <- D1.
    destruct (carried i fs) eqn:E; [done|]. by destruct Hc.
  - intros i Hky _ Hu (loc & st' & Hin' & Hl & <- & Hr). apply Hu.
    destruct (D3 loc st' Hl) as [(st & Hst' & Hid & _ & E & _)|(_ & _ & Hsyn & _)].
    + exists loc, st. destruct (local_step_pots x x' ios Hst Hx loc Hin') as [?|?]; [|congruence]. split_and!; congruence.
    + by destruct (proj1 (Hs _) Hsyn) as (_ & ? & _).
  - intros loc [(il & -> & H)%list_elem_of_fmap|H]%elem_of_app.
    + destruct (Ho _ H) as [?|?]; [left|by right]. apply elem_of_app. left. apply list_elem_of_fmap. eauto.
    + left. apply elem_of_app. auto.
Qed.

Lemma read_onward f s s' go hs op (y : side) P Q :
  on_item (NextFrame f) s = (go, s') → Frame.wf f → side_inv (mk_side s hs op) →
  pair_inv (view_of (mk_side s hs op)) (view_of y) (P ++ queued (s_out s)) (f :: Q) →
  onward (mk_side s hs op) (mk_side s' hs op) y [].
Proof.
  intros E Hf Hx HP.
  destruct (frame_taken f s hs op _ _ _ Hf Hx HP) as (_ & Hx' & Hd & Hp & fs & Hq & Hh).
  cbn [sd_s sd_handles sd_opening] in Hx', Hd, Hp, Hq, Hh. rewrite E in Hx', Hd, Hp, Hq, Hh.
  cbn [snd sd_s] in Hx', Hd, Hp, Hq, Hh.
  assert (∀ i, f = Frame.syn i → ¬ v_known (view_of (mk_side s hs op)) i ∧ v_own (view_of y) i) as Hsyn.
  { intros i ->. by destruct (head_syn _ _ _ _ _ HP) as (_ & ? & _ & ? & _). }
  constructor; cbn [sd_s].
  - intros i. by rewrite (handles_own _ _ _ _ Hh).
  - apply names_stay; [done|intros i; by eapply handles_known|]. intros loc st' Hl. cbn in *.
    destruct (Hd loc st' Hl) as [(st & ? & ? & _)|(_ & _ & Hsy & _)]; [left; by exists st|right; by apply Hsyn].
  - intros loc i (st' & Hl & <-). cbn in Hl. destruct (Hd loc st' Hl) as [(st & ? & ? & _)|(? & _ & Hsy & _)]; [left|right].
    + exists st. split; [done|congruence].
    + split; [done|by apply Hsyn].
  - intros i [Hki Hw]. split; [|done]. split; [by eapply handles_known|].
    intros Hw'. destruct (handles_writes _ _ _ _ _ Hh Hw') as [?|Hfs]; [done|]. by destruct (Hsyn i Hfs).
  - intros i Hky Hno Hu (loc & st' & Hin' & Hl & <- & Hr). cbn in Hl. apply Hu.
    destruct (Hd loc st' Hl) as [(st & Hst' & Hid & _ & _ & Hmono & _)|(_ & _ & Hfs & _)].
    + exists loc, st. destruct (Hp loc Hin') as [?|?]; [|congruence]. split_and!; [done|done|congruence|].
      destruct (StreamState.is_reset (state st)); [by rewrite Hmono in Hr|done].
    + by destruct Hno; apply Hsyn.
  - intros loc Hw. assert (loc ∈ pots (mk_side s' hs op)) as Hin.
    { unfold pots, waits in *. cbn in *. rewrite !elem_of_app in *. auto. }
    destruct (Hp loc Hin) as [Hpo|?]; [|by right]. left. unfold pots in Hpo. cbn in Hpo.
    apply elem_of_app in Hpo as [Hh'|?]; [|done]. exfalso.
    pose proof (si_pots _ Hx') as Hnd. unfold pots in Hnd. cbn in Hnd.
    apply list.NoDup_app in Hnd as (_ & Hdis & _). by apply (Hdis loc Hh').
Qed.

(** One side moves; the other is as it was. *)
Lemma half_onward d d' :
  half_step (R := R) d d' → duplex_inv d →
  ∃ ios, onward (dx_here d) (dx_here d') (dx_there d) ios ∧ dx_there d' = dx_there d ∧
    dx_log_here d' = dx_log_here d ++ ios ∧ dx_log_there d' = dx_log_there d.
Proof.
  intros Hst [Hx Hy HP Ho Hi].
  destruct Hst as [x ios x' y o i lx ly Hl|f s s' hs op y o i lx ly E|f go s s' hs op y o i lx ly E]; cbn in *.
  - exists ios. split_and!; try done. by eapply local_onward.
  - exists []. rewrite app_nil_r. split_and!; try done. unfold recv_out in E. injection E as _ <-.
    constructor; auto; intros; tauto.
  - exists []. rewrite app_nil_r. split_and!; try done. apply Forall_cons_1 in Hi as [Hf _]. by eapply read_onward.
Qed.

(** ** Streams nobody has touched *)

Definition unused_out (d : duplex) : Prop :=
  let x := dx_here d in let l := dx_log_here d in
  (∀ loc i, loc ∈ waits x → names x loc i → untouched i l) ∧
  (∀ i, ¬ v_known (view_of x) i → untouched i l).

(** What a side logs is about streams its users hold. *)
Lemma local_step_logs (x x' : side) ios i :
  local_step (R := R) x ios x' → side_inv x → (∀ loc, loc ∈ sd_handles x → ¬ names x loc i) → untouched i ios.
Proof.
  intros Hst Hx Hno. destruct Hst as [loc u s hs op Hin|loc s hs op Hin| | | | | | | |]; try apply untouched_nil.
  all: destruct (si_heap _ Hx loc) as [st Hl]; [unfold pots; set_solver|]; cbn in Hl.
  all: apply (user_io_other _ _ _ st); [done|]; intros ->; apply (Hno loc Hin); by exists st.
Qed.

Lemma waits_not_held (x : side) loc : side_inv x → loc ∈ waits x → loc ∉ sd_handles x.
Proof.
  intros Hx Hw Hh. pose proof (si_pots x Hx) as Hnd. unfold pots in Hnd.
  apply list.NoDup_app in Hnd as (_ & Hdis & _). by apply (Hdis loc Hh).
Qed.

Lemma half_step_unused d d' :
  half_step (R := R) d d' → duplex_inv d → unused_out d → unused_out d'.
Proof.
  intros Hst Hd [H1 H2]. destruct (half_onward d d' Hst Hd) as (ios & Hon & _ & El & _).
  pose proof Hd as [Hx _ _ _ _].
  assert (∀ i, (∀ loc, loc ∈ sd_handles (dx_here d) → ¬ names (dx_here d) loc i) → untouched i ios) as Hios.
  { intros i Hno. destruct Hst; cbn in *.
    - apply app_inv_head in El as ->. by eapply local_step_logs.
    - rewrite <- (app_nil_r lx) in El at 1. apply app_inv_head in El as <-. apply untouched_nil.
    - rewrite <- (app_nil_r lx) in El at 1. apply app_inv_head in El as <-. apply untouched_nil. }
  unfold unused_out. rewrite El. split; intros.
  - apply untouched_app. destruct (on_waits _ _ _ _ Hon loc H) as [Hw|Hnone].
    + destruct (on_back _ _ _ _ Hon loc i H0) as [Hn|[Hnone _]].
      * split; [by eapply H1|]. apply Hios. intros loc' Hh' Hn'.
        rewrite (names_inj _ loc' loc i Hx Hn' Hn) in Hh'. by apply (waits_not_held _ loc Hx).
      * exfalso. destruct (si_heap _ Hx loc) as [st Hl]; [|congruence].
        unfold pots, waits in *. rewrite elem_of_app. auto.
    + assert (¬ v_known (view_of (dx_here d)) i) as Hk.
      { intros (loc2 & st2 & Hl2 & Hi2). destruct (half_step_inv d d' Hst Hd) as [Hx' _ _ _ _].
        assert (loc2 = loc) as -> by (apply (names_inj _ loc2 loc i Hx'); [|done]; apply Hon; by exists st2).
        congruence. }
      split; [by apply H2|]. apply Hios. intros loc' _ Hn'. apply Hk. by eapply names_known.
  - assert (¬ v_known (view_of (dx_here d)) i) as Hk.
    { intros (loc2 & st2 & Hl2 & Hi2). apply H, (names_known _ loc2), (on_names _ _ _ _ Hon). by exists st2. }
    apply untouched_app. split; [by apply H2|]. apply Hios. intros loc' _ Hn'. apply Hk. by eapply names_known.
Qed.

Lemma duplex_reachable_unused cfg_a cfg_b d :
  Config.valid cfg_a → Config.valid cfg_b → duplex_reachable (R := R) cfg_a cfg_b d →
  unused_out d ∧ unused_out (turned d).
Proof.
  intros Ha Hb. apply reachable_both; auto.
  - split; intros; apply untouched_nil.
  - split; intros; apply untouched_nil.
  - intros d1 d2 Hst Hd [H1 H2]. split; [by eapply half_step_unused|].
    by destruct Hst.
Qed.

End Users.
