(* ===== verification/Utf8.v ===== *)
(** * UTF-8 text

    [String::from_utf8_lossy] of the standard library, which the echo client
    prints with: the bytes are cut into characters and ill-formed sequences, and
    each of the latter becomes U+FFFD.  Text that is well formed, as every
    [String] is, comes out as it went in. *)

From S2P Require Import Prelude Machine.
From Stdlib Require Import ZArith Lia.

Local Open Scope Z_scope.

Definition within (lo hi : Z) (b : byte) : bool := (lo <=? u8_val b) && (u8_val b <=? hi).
Definition continuation (b : byte) : bool := within 0x80 0xBF b.

(** How many bytes the character that starts with [b] has; 0 when none does. *)
Definition width (b : byte) : nat :=
  if within 0 0x7F b then 1 else if within 0xC2 0xDF b then 2
  else if within 0xE0 0xEF b then 3 else if within 0xF0 0xF4 b then 4 else 0.

(** The second byte of a character of three or four bytes: no overlong forms, no
    surrogates, nothing past U+10FFFF. *)
Definition second (b b1 : byte) : bool :=
  if within 0xE0 0xE0 b then within 0xA0 0xBF b1
  else if within 0xED 0xED b then within 0x80 0x9F b1
  else if within 0xF0 0xF0 b then within 0x90 0xBF b1
  else if within 0xF4 0xF4 b then within 0x80 0x8F b1
  else continuation b1.

(** The characters, [None] for an ill-formed sequence (as long a beginning of a
    character as there is, or a single byte). *)
Fixpoint chars (s : list byte) : list (option (list byte)) :=
  match s with
  | [] => []
  | b :: s1 =>
    match width b, s1 with
    | 1%nat, _ => Some [b] :: chars s1
    | 2%nat, b1 :: s2 => if continuation b1 then Some [b; b1] :: chars s2 else None :: chars s1
    | 3%nat, b1 :: s2 =>
      if second b b1 then
        match s2 with
        | b2 :: s3 => if continuation b2 then Some [b; b1; b2] :: chars s3 else None :: chars s2
        | [] => [None]
        end
      else None :: chars s1
    | 4%nat, b1 :: s2 =>
      if second b b1 then
        match s2 with
        | b2 :: s3 =>
          if continuation b2 then
            match s3 with
            | b3 :: s4 => if continuation b3 then Some [b; b1; b2; b3] :: chars s4 else None :: chars s3
            | [] => [None]
            end
          else None :: chars s2
        | [] => [None]
        end
      else None :: chars s1
    | _, _ => None :: chars s1
    end
  end.

(** U+FFFD. *)
Definition replacement : list byte := [Byte.xef; Byte.xbf; Byte.xbd].

Definition from_utf8_lossy (s : list byte) : list byte := chars s ≫= default replacement.

(** What [str] guarantees. *)
Definition utf8 (s : list byte) : Prop := Forall is_Some (chars s).

#[global] Instance utf8_dec s : Decision (utf8 s).
Proof. unfold utf8. apply _. Defined.

(** A well-formed text is empty or a character and a well-formed text; the
    character stays when text is appended. *)
Lemma utf8_cases s :
  utf8 s → s = [] ∨ ∃ c s', s = c ++ s' ∧ c ≠ [] ∧ utf8 s' ∧
    ∀ t, chars (s ++ t) = Some c :: chars (s' ++ t).
Proof.
  unfold utf8. destruct s as [|b s1]; [by left|]. cbn [chars]. intros H. right.
  destruct (width b) as [|[|[|[|[|n]]]]] eqn:Hw; repeat (case_match; subst);
    try (by apply Forall_cons_1 in H as [[? [=]] _]);
    match goal with H : Forall is_Some (Some ?c :: chars ?s) |- _ =>
      apply Forall_cons_1 in H as [_ H]; exists c, s end;
    (split_and!; [done|done|exact H|]); intros t; simpl; rewrite Hw;
    repeat match goal with E : _ = true |- _ => rewrite E end; done.
Qed.

(** Induction on the characters. *)
Lemma utf8_ind (P : list byte → Prop) :
  P [] →
  (∀ c s, utf8 s → (∀ t, chars ((c ++ s) ++ t) = Some c :: chars (s ++ t)) → P s → P (c ++ s)) →
  ∀ s, utf8 s → P s.
Proof.
  intros H0 Hc s. remember (length s) as n eqn:Hn. revert s Hn.
  induction n as [n IH] using lt_wf_ind. intros s -> Hu.
  destruct (utf8_cases s Hu) as [->|(c & s' & -> & Hne & Hu' & Ht)]; [done|].
  apply Hc; [done|done|]. apply (IH (length s')); [|done|done].
  rewrite length_app. destruct c; [done|]. simpl. lia.
Qed.

Lemma from_utf8_lossy_id s : utf8 s → from_utf8_lossy s = s.
Proof.
  revert s. unfold from_utf8_lossy. apply utf8_ind; [done|]. intros c s _ Ht IH.
  specialize (Ht []). rewrite !app_nil_r in Ht. rewrite Ht. cbn. by rewrite IH.
Qed.

Lemma utf8_app s t : utf8 s → utf8 t → utf8 (s ++ t).
Proof.
  intros Hs Hu. revert s Hs. apply utf8_ind; [done|]. intros c s _ Ht IH.
  unfold utf8. rewrite Ht. by constructor.
Qed.
