(* ===== verification/Tokio.v ===== *)
(** * The helpers of [tokio::io]

    The programs under [examples/] move bytes with [AsyncWriteExt::write_all],
    [AsyncReadExt::read_to_end], [io::copy] and [io::copy_bidirectional], which
    live in another package.  The future of such a helper is a parameter of the
    model: a machine that asks for the next poll of a reader or writer and is told
    the reply, with the documented behaviour as laws on its exchanges.  An
    instance meets the laws and lets runs be evaluated. *)

From S2P Require Import Prelude Machine Errors.

Abbreviation IoResult := (Result Error.io_error).

(** What a helper works on: the one stream of [write_all] and [read_to_end] is
    the first; [copy] reads the first and writes the second. *)
Inductive lane : Type := First | Second.

#[global] Instance lane_eq_dec : EqDecision lane.
Proof. solve_decision. Defined.

(** A poll of [AsyncRead] or [AsyncWrite] and its outcome. *)
Inductive call : Type :=
| CRead (e : lane) (room : nat)
| CWrite (e : lane) (buf : list byte)
| CFlush (e : lane)
| CShutdown (e : lane).

Inductive reply : Type :=
| RPending
| RRead (bytes : list byte)
| RWrote (n : nat)
| RDone
| RFailed (e : Error.io_error).

Abbreviation trace := (list (call * reply)).

(** What the traits allow: no more is read than there is room, no more written
    than was offered. *)
Definition fits (c : call) (r : reply) : Prop :=
  match c, r with
  | _, RPending | _, RFailed _ | CFlush _, RDone | CShutdown _, RDone => True
  | CRead _ room, RRead bs => length bs ≤ room
  | CWrite _ buf, RWrote n => n ≤ length buf
  | _, _ => False
  end.

(** The bytes read from [e] and written to [e]. *)
Definition taken1 (e : lane) (cr : call * reply) : list byte :=
  match cr with (CRead e' _, RRead bs) => if decide (e' = e) then bs else [] | _ => [] end.
Definition put1 (e : lane) (cr : call * reply) : list byte :=
  match cr with (CWrite e' buf, RWrote n) => if decide (e' = e) then take n buf else [] | _ => [] end.
Definition taken (e : lane) (tr : trace) : list byte := tr ≫= taken1 e.
Definition put (e : lane) (tr : trace) : list byte := tr ≫= put1 e.

(** [e] reported its end. *)
Definition at_end (e : lane) (tr : trace) : Prop :=
  ∃ room, room ≠ 0 ∧ (CRead e room, RRead []) ∈ tr.

(** A poll failed, or a write took nothing. *)
Definition upset (cr : call * reply) : Prop :=
  match snd cr with RFailed _ | RWrote 0 => True | _ => False end.
Definition troubled (tr : trace) : Prop := ∃ cr, cr ∈ tr ∧ upset cr.

Lemma taken_snoc e tr cr : taken e (tr ++ [cr]) = taken e tr ++ taken1 e cr.
Proof. unfold taken. by rewrite bind_app, bind_singleton. Qed.
Lemma put_snoc e tr cr : put e (tr ++ [cr]) = put e tr ++ put1 e cr.
Proof. unfold put. by rewrite bind_app, bind_singleton. Qed.

Lemma at_end_snoc e tr cr :
  at_end e (tr ++ [cr]) ↔ at_end e tr ∨ ∃ room, room ≠ 0 ∧ cr = (CRead e room, RRead []).
Proof. unfold at_end. setoid_rewrite elem_of_app. setoid_rewrite list_elem_of_singleton. naive_solver. Qed.

Lemma troubled_snoc tr cr : troubled (tr ++ [cr]) ↔ troubled tr ∨ upset cr.
Proof. unfold troubled. setoid_rewrite elem_of_app. setoid_rewrite list_elem_of_singleton. naive_solver. Qed.

(** ** The helpers *)

Inductive helper : Type :=
| WriteAll (bytes : list byte)
| ReadToEnd
| Copy
| CopyBidirectional.

(** The polls a helper makes: never into a full buffer, never of no bytes. *)
Definition asks (h : helper) (c : call) : Prop :=
  match c with CRead _ room => room ≠ 0 | CWrite _ buf => buf ≠ [] | _ => True end ∧
  match h, c with
  | WriteAll _, CWrite First _ | ReadToEnd, CRead First _
  | Copy, (CRead First _ | CWrite Second _ | CFlush Second)
  | CopyBidirectional, _ => True
  | _, _ => False
  end.

(** What a helper has written so far. *)
Definition conveys (h : helper) (tr : trace) : Prop :=
  match h with
  | WriteAll bytes => put First tr `prefix_of` bytes
  | ReadToEnd => True
  | Copy => put Second tr `prefix_of` taken First tr
  | CopyBidirectional => put Second tr `prefix_of` taken First tr ∧ put First tr `prefix_of` taken Second tr
  end.

(** What its success means; [read_to_end] leaves the bytes in the vector. *)
Definition achieves (h : helper) (tr : trace) (vec : list byte) : Prop :=
  match h with
  | WriteAll bytes => put First tr = bytes
  | ReadToEnd => at_end First tr ∧ vec = taken First tr
  | Copy => at_end First tr ∧ put Second tr = taken First tr
  | CopyBidirectional => at_end First tr ∧ at_end Second tr ∧
      put Second tr = taken First tr ∧ put First tr = taken Second tr
  end.

(** The exchanges of a future. *)
Inductive runs {J : Type} (next : J → call + IoResult (list byte)) (answer : J → reply → J) (j0 : J)
  : trace → J → Prop :=
| runs_start : runs next answer j0 [] j0
| runs_step tr j c r :
    runs next answer j0 tr j → next j = inl c → fits c r →
    runs next answer j0 (tr ++ [(c, r)]) (answer j r).

Class TokioIo (J : Type) : Type := {
  job_new : helper → J;
  job_next : J → call + IoResult (list byte);   (* the next poll, or the result *)
  job_answer : J → reply → J;
  job_asks : ∀ h tr j c,
    runs job_next job_answer (job_new h) tr j → job_next j = inl c → asks h c;
  job_conveys : ∀ h tr j, runs job_next job_answer (job_new h) tr j → conveys h tr;
  job_achieves : ∀ h tr j vec,
    runs job_next job_answer (job_new h) tr j → job_next j = inr (Ok vec) → achieves h tr vec;
  (* a helper only fails when a poll did *)
  job_fails : ∀ h tr j e,
    runs job_next job_answer (job_new h) tr j → job_next j = inr (Err e) → troubled tr;
}.

(** A future of the helper [h] after the exchanges [tr]. *)
Abbreviation job h tr j := (runs job_next job_answer (job_new h) tr j).

(** ** An instance *)

(** One direction of a copy: to be filled, to be emptied, to be shut, done. *)
Inductive half : Type := HRead | HWrite (buf : list byte) | HShut | HOver.

Definition half_next (from to : lane) (h : half) : option call :=
  match h with
  | HRead => Some (CRead from 64)
  | HWrite buf => Some (CWrite to buf)
  | HShut => Some (CShutdown to)
  | HOver => None
  end.

Definition half_answer (last h : half) (r : reply) : half :=
  match h, r with
  | HRead, RRead [] => last
  | HRead, RRead bs => HWrite bs
  | HWrite buf, RWrote n => match drop n buf with [] => HRead | buf' => HWrite buf' end
  | HShut, RDone => HOver
  | _, _ => h
  end.

(** The error a reply ends a helper with. *)
Definition reply_error (r : reply) : option Error.io_error :=
  match r with
  | RFailed e => Some e
  | RWrote 0 => Some (Error.io_msg Io.OtherKind "write zero byte into writer")
  | _ => None
  end.

Inductive sjob : Type :=
| SWriteAll (buf : list byte)
| SReadToEnd (vec : list byte)
| SCopy (h : half)
| SBoth (h1 h2 : half) (turn : bool)
| SOver (r : IoResult (list byte)).

Definition sjob_new (h : helper) : sjob :=
  match h with
  | WriteAll bytes => SWriteAll bytes
  | ReadToEnd => SReadToEnd []
  | Copy => SCopy HRead
  | CopyBidirectional => SBoth HRead HRead true
  end.

(** Whose turn it is: the other direction's when this one is done. *)
Definition picks (h1 h2 : half) (turn : bool) : bool :=
  match h1, h2 with HOver, _ => false | _, HOver => true | _, _ => turn end.

Definition sjob_next (j : sjob) : call + IoResult (list byte) :=
  match j with
  | SWriteAll [] => inr (Ok [])
  | SWriteAll buf => inl (CWrite First buf)
  | SReadToEnd vec => inl (CRead First 32)
  | SCopy h => match half_next First Second h with Some c => inl c | None => inr (Ok []) end
  | SBoth h1 h2 turn =>
    match (if picks h1 h2 turn then half_next First Second h1 else half_next Second First h2) with
    | Some c => inl c
    | None => inr (Ok [])
    end
  | SOver r => inr r
  end.

Definition sjob_answer (j : sjob) (r : reply) : sjob :=
  match reply_error r with
  | Some e => SOver (Err e)
  | None =>
    match j, r with
    | SWriteAll buf, RWrote n => SWriteAll (drop n buf)
    | SReadToEnd vec, RRead [] => SOver (Ok vec)
    | SReadToEnd vec, RRead bs => SReadToEnd (vec ++ bs)
    | SCopy h, _ => SCopy (half_answer HOver h r)
    | SBoth h1 h2 turn, _ =>
      if picks h1 h2 turn then SBoth (half_answer HShut h1 r) h2 false
      else SBoth h1 (half_answer HShut h2 r) true
    | _, _ => j
    end
  end.

(** What is in flight in one direction. *)
Definition half_buf (h : half) : list byte := match h with HWrite buf => buf | _ => [] end.

Definition carries (from to : lane) (tr : trace) (h : half) : Prop :=
  taken from tr = put to tr ++ half_buf h ∧ h ≠ HWrite [] ∧
  (h = HShut ∨ h = HOver → at_end from tr).

Lemma carries_step from to tr h c r last :
  carries from to tr h → half_next from to h = Some c → fits c r → reply_error r = None →
  last = HShut ∨ last = HOver → carries from to (tr ++ [(c, r)]) (half_answer last h r).
Proof.
  intros (Hb & Hw & He) Hn Hf Hr Hl. unfold carries. rewrite taken_snoc, put_snoc, at_end_snoc, Hb.
  destruct h as [|buf| |]; simplify_eq/=.
  - destruct r as [|bs|n| |e]; try done; simpl; rewrite ?decide_True, ?app_nil_r by done; [naive_solver|].
    destruct bs as [|b bs]; simpl; [|rewrite ?app_nil_r; naive_solver].
    destruct Hl as [-> | ->]; simpl; rewrite app_nil_r; (split_and!; [done|done|]); intros _; right;
      by exists 64.
  - destruct r as [|bs|n| |e]; try done; simpl; rewrite ?app_nil_r; [naive_solver|].
    rewrite decide_True by done. rewrite <- app_assoc. pose proof (take_drop n buf) as Hd.
    destruct (drop n buf) as [|b buf']; simpl in *; rewrite <- Hd at 1; rewrite ?app_nil_r; naive_solver.
  - destruct r as [|bs|n| |e]; try done; simpl; rewrite ?app_nil_r; naive_solver.
Qed.

(** The other direction moves. *)
Lemma carries_other from to tr h h' c r :
  from ≠ to → carries from to tr h → half_next to from h' = Some c → carries from to (tr ++ [(c, r)]) h.
Proof.
  intros Hne (Hb & Hw & He) Hn. unfold carries. rewrite taken_snoc, put_snoc, at_end_snoc.
  assert (taken1 from (c, r) = [] ∧ put1 to (c, r) = []) as [-> ->]
    by (destruct h'; simplify_eq/=; destruct r; simpl; rewrite ?decide_False by congruence; done).
  rewrite !app_nil_r. naive_solver.
Qed.

Lemma carries_prefix from to tr h : carries from to tr h → put to tr `prefix_of` taken from tr.
Proof. intros (-> & _). by apply prefix_app_r. Qed.

Definition sjob_ok (h : helper) (tr : trace) (j : sjob) : Prop :=
  conveys h tr ∧
  match h, j with
  | WriteAll bytes, SWriteAll buf => bytes = put First tr ++ buf
  | ReadToEnd, SReadToEnd vec => vec = taken First tr
  | ReadToEnd, SOver (Ok vec) => achieves ReadToEnd tr vec
  | Copy, SCopy hf => carries First Second tr hf ∧ hf ≠ HShut
  | CopyBidirectional, SBoth h1 h2 _ => carries First Second tr h1 ∧ carries Second First tr h2
  | _, SOver (Err _) => troubled tr
  | _, _ => False
  end.

(** A failed poll moves no byte. *)
Lemma upset_quiet e c r err : reply_error r = Some err → taken1 e (c, r) = [] ∧ put1 e (c, r) = [].
Proof.
  destruct r as [| |[|n]| |]; simpl; try done; intros _; destruct c; simpl; try done.
  by case_decide.
Qed.

Lemma sjob_step h tr j c r :
  sjob_ok h tr j → sjob_next j = inl c → fits c r → sjob_ok h (tr ++ [(c, r)]) (sjob_answer j r).
Proof.
  intros [Hc Hj] Hn Hf. unfold sjob_answer. destruct (reply_error r) as [err|] eqn:Hr.
  { assert (∀ e, taken e (tr ++ [(c, r)]) = taken e tr ∧ put e (tr ++ [(c, r)]) = put e tr) as Hq.
    { intros e. rewrite taken_snoc, put_snoc. destruct (upset_quiet e c r err Hr) as [-> ->].
      by rewrite !app_nil_r. }
    split.
    - destruct (Hq First) as [T1 P1], (Hq Second) as [T2 P2].
      by destruct h; simpl in *; rewrite ?T1, ?P1, ?T2, ?P2.
    - assert (troubled (tr ++ [(c, r)])); [|by destruct h]. apply troubled_snoc. right.
      by destruct r as [| |[|n]| |]. }
  destruct h as [bytes| | |], j as [buf|vec|hf|h1 h2 turn|res]; try done; simpl in Hj.
  - destruct buf as [|b buf]; simplify_eq/=. destruct r as [| |n| |]; try done; split; simpl;
      rewrite put_snoc; simpl; rewrite ?app_nil_r; try done.
    + apply prefix_app, prefix_take.
    + by rewrite <- app_assoc, take_drop.
  - simplify_eq/=. destruct r as [|[|b bs]| | |]; try done; (split; [done|]); simpl.
    + by rewrite taken_snoc, app_nil_r.
    + rewrite taken_snoc, at_end_snoc. simpl. rewrite app_nil_r. split; [right; by exists 32|done].
    + by rewrite taken_snoc.
  - destruct Hj as [Hj Hns]. simpl in Hn. destruct (half_next First Second hf) as [c'|] eqn:Hh; simplify_eq.
    pose proof (carries_step _ _ _ _ _ _ HOver Hj Hh Hf Hr (or_intror eq_refl)) as Hs.
    split; [by eapply carries_prefix|]. split; [done|].
    destruct hf, r as [|[]| | |]; try done; simpl. by case_match.
  - destruct Hj as [H1 H2]. simpl in Hn. destruct (picks h1 h2 turn).
    + destruct (half_next First Second h1) as [c'|] eqn:Hh; simplify_eq.
      pose proof (carries_step _ _ _ _ _ _ HShut H1 Hh Hf Hr (or_introl eq_refl)) as H1'.
      pose proof (carries_other Second First tr h2 h1 c r ltac:(done) H2 Hh) as H2'.
      split; [split; by eapply carries_prefix|done].
    + destruct (half_next Second First h2) as [c'|] eqn:Hh; simplify_eq.
      pose proof (carries_step _ _ _ _ _ _ HShut H2 Hh Hf Hr (or_introl eq_refl)) as H2'.
      pose proof (carries_other First Second tr h1 h2 c r ltac:(done) H1 Hh) as H1'.
      split; [split; by eapply carries_prefix|done].
Qed.

Lemma sjob_runs h tr j : runs sjob_next sjob_answer (sjob_new h) tr j → sjob_ok h tr j.
Proof.
  intros Hr. induction Hr as [|tr j c r _ IH Hn Hf]; [|by apply sjob_step].
  assert (∀ from to, carries from to [] HRead) as Hc by (intros; unfold carries; naive_solver).
  destruct h; split; simpl; auto using prefix_nil; by split.
Qed.

#[export] Instance simple_jobs : TokioIo sjob.
Proof.
  refine {| job_new := sjob_new; job_next := sjob_next; job_answer := sjob_answer |}.
  - intros h tr j c [_ Hj]%sjob_runs Hn.
    destruct h, j as [buf|vec|hf|h1 h2 turn|res]; try done; simpl in Hn.
    + by destruct buf; simplify_eq.
    + by simplify_eq.
    + destruct Hj as [(_ & Hw & _) Hs]. destruct hf; simplify_eq/=; split; try done; congruence.
    + destruct Hj as [(_ & Hw1 & _) (_ & Hw2 & _)].
      destruct (picks h1 h2 turn); [destruct h1|destruct h2]; simplify_eq/=; split; try done; congruence.
  - by intros h tr j [? _]%sjob_runs.
  - intros h tr j vec [_ Hj]%sjob_runs Hn.
    destruct h, j as [buf|vec'|hf|h1 h2 turn|res]; try done; simpl in Hn; try (by destruct res; simplify_eq).
    + destruct buf; simplify_eq. simpl. by rewrite app_nil_r.
    + destruct hf; simplify_eq/=. destruct Hj as [(-> & _ & He) _]. simpl. rewrite app_nil_r. auto.
    + destruct Hj as [(E1 & _ & He1) (E2 & _ & He2)]. destruct h1, h2, turn; simplify_eq/=.
      all: rewrite app_nil_r in E1, E2; auto.
  - intros h tr j e [_ Hj]%sjob_runs Hn.
    destruct h, j as [buf|vec'|hf|h1 h2 turn|res]; try done; simpl in Hn; try (by destruct res; simplify_eq).
    + by destruct buf.
    + by destruct hf.
    + by destruct (picks h1 h2 turn); [destruct h1|destruct h2].
Defined.
