(* ===== verification/Programs.v ===== *)
(** * The example programs ([examples/])

    The asynchronous programs under [examples/] as terms: each await, spawn, drop
    and message is a constructor, the rest of the program its continuation.  The
    tasks of two processes run over the two sessions of [Duplex], interleaved with
    each other and with the tasks of the sessions; a step of a task is one call of
    the library, one poll by a [tokio::io] helper, or one exchange with the
    operating system. *)

From S2P Require Import Prelude Machine Errors Config Ids Frames Header Codec Crates Window.
From S2P Require Import StreamState RecvBuffer StreamInner StreamFacts StreamInv Session Reader Api.
From S2P Require Import FlowControl Keepalive Writer SessionInv System Dispatch Pair Duplex Endpoints.
From S2P Require Import Transparency Lifecycle Users Utf8 Tokio.
From Stdlib Require Import ZArith Lia.

(** What the helpers and the programs hold: a multiplexed stream, or a socket. *)
Inductive endpoint : Type :=
| OnStream (loc : Loc)
| OnSock (k : nat).

(** What the programs print, one constructor per format string. *)
Inductive message : Type :=
| Response (text : list byte)
| SessionStarted
| Listening
| Connected (conn : nat)
| SessionEnded (e : Error.t)
| SessionGone (e : Error.t)
| EchoErrored (e : Error.io_error)
| ForwardingEnded (e : Error.io_error)
| DialFailed (e : Error.io_error).

(** What can be seen of a process from outside: the lines it was given, what it
    printed, and the polls and results of its helpers, with the two endpoints of
    each. *)
Inductive seen : Type :=
| SawLine (line : list byte)
| Printed (m : message)
| Polled (a b : endpoint) (c : call) (r : reply)
| Finished (a b : endpoint) (r : IoResult (list byte)).

Section Programs.
Context {BF : BitflagsOps}.
Context {W : Type} {AW : AtomicWakerOps W}.
Context {C : Type → Type} {CH : UnboundedChannelOps C}.
Context {X R : Type} {WO : WatchOps X R}.
Context {DO : DrainOrder}.
Context {J : Type} {TK : TokioIo J}.

Abbreviation session := (Session W C X).
Abbreviation side := (side (W := W) (C := C) (X := X)).
Abbreviation duplex := (duplex (W := W) (C := C) (X := X)).

Inductive prog : Type :=
| Open (k : MuxResult Loc → prog)                           (* [session.open().await] *)
| Opening (i : StreamId) (loc : Loc) (k : MuxResult Loc → prog)  (* inside [open] *)
| Accept (k : MuxResult Loc → prog)                         (* [session.accept().await] *)
| Accepting (rx : R) (k : MuxResult Loc → prog)             (* inside [accept] *)
| Await (a b : endpoint) (j : J) (k : IoResult (list byte) → prog)
| Shutdown (loc : Loc) (k : IoResult unit → prog)           (* [stream.shutdown().await] *)
| Drop (loc : Loc) (k : prog)                               (* the end of a stream's scope *)
| Spawn (child k : prog)                                    (* [tokio::spawn] *)
| Sys (k : IoResult unit → prog)                            (* bind, connect, [set_nodelay] *)
| GetSock (k : IoResult nat → prog)                         (* a socket accepted or dialed *)
| NextLine (k : IoResult (option (list byte)) → prog)       (* [stdin.next_line().await] *)
| Show (m : message) (k : prog)
| Close (k : prog)                                          (* [session.close().await] *)
| Loop (body after : prog)
| Continue
| Break
| Return.

(** The operator [?]: go on with the value, or leave by [bail]. *)
Definition or_leave {E A} (bail : prog) (k : A → prog) (r : Result E A) : prog :=
  match r with Ok a => k a | Err _ => bail end.

(** The helpers, on streams and sockets. *)
Definition write_all (loc : Loc) (bytes : list byte) := Await (OnStream loc) (OnStream loc) (job_new (WriteAll bytes)).
Definition read_to_end (loc : Loc) := Await (OnStream loc) (OnStream loc) (job_new ReadToEnd).
Definition copy (r w : endpoint) := Await r w (job_new Copy).
Definition copy_bidirectional (a b : endpoint) := Await a b (job_new CopyBidirectional).

(** ** [examples/tcp_server.rs] *)

(** The task [handle_conn] spawns for a stream; [io::split] hands out two halves
    of the one stream. *)
Definition echo_stream (stream : Loc) : prog :=
  copy (OnStream stream) (OnStream stream) (λ r,
    let finish := Shutdown stream (λ _, Drop stream Return) in
    match r with Err e => Show (EchoErrored e) finish | Ok _ => finish end).

(** [handle_conn], from [Session::server] on. *)
Definition handle_conn : prog :=
  Loop
    (Accept (λ r,
      match r with
      | Ok stream => Spawn (echo_stream stream) Continue
      | Err e => Show (SessionEnded e) Break
      end))
    (Close Return).

(** [main]: a task per connection.  The connection of the client at hand is the
    one with the number [mine]; the others have sessions of their own. *)
Definition tcp_server_main (mine : nat) : prog :=
  Sys (or_leave Return (λ _,            (* [TcpListener::bind] *)
  Show Listening
  (Loop
    (GetSock (or_leave Return (λ conn,
     Sys (or_leave Return (λ _,         (* [set_nodelay] *)
     Show (Connected conn)
     (if conn =? mine then Spawn handle_conn Continue else Continue))))))
    Return))).

(** ** [examples/tcp_client.rs] *)

Definition newline : list byte := [Byte.x0a].

Definition send_line (line : list byte) (stream : Loc) : prog :=
  let leave := Drop stream Return in
  write_all stream line (or_leave leave (λ _,
  write_all stream newline (or_leave leave (λ _,
  Shutdown stream (or_leave leave (λ _,
  read_to_end stream (or_leave leave (λ response,
  Show (Response (from_utf8_lossy response))
  (Drop stream Continue))))))))).

Definition tcp_client_main : prog :=
  Sys (or_leave Return (λ _,            (* [TcpStream::connect] *)
  Sys (or_leave Return (λ _,            (* [set_nodelay] *)
  Loop
    (NextLine (or_leave Return (λ line,
      match line with
      | Some line => Open (or_leave Return (send_line line))
      | None => Break
      end)))
    (Close Return))))).

(** ** [examples/forward_server.rs] *)

Definition forward (a b : endpoint) (tunnel : Loc) : prog :=
  copy_bidirectional a b (λ r,
    let finish := Drop tunnel Return in
    match r with Err e => Show (ForwardingEnded e) finish | Ok _ => finish end).

Definition forward_server_main : prog :=
  Sys (or_leave Return (λ _,            (* [transport_listener] *)
  Sys (or_leave Return (λ _,            (* [proxy_listener] *)
  Show Listening
  (Sys (or_leave Return (λ _,           (* [transport_listener.accept()] *)
  Loop
    (GetSock (or_leave Return (λ proxy_stream,
     Open (λ r,
      match r with
      | Ok tunnel => Spawn (forward (OnSock proxy_stream) (OnStream tunnel) tunnel) Continue
      | Err e => Show (SessionGone e) Break
      end))))
    (Close Return)))))))).

(** ** [examples/forward_client.rs] *)

(** The task spawned for a tunnel. *)
Definition forward_tunnel (tunnel : Loc) : prog :=
  GetSock (λ r,
    match r with
    | Ok local => forward (OnStream tunnel) (OnSock local) tunnel
    | Err e => Show (DialFailed e) (Drop tunnel Return)
    end).

Definition forward_client_main : prog :=
  Sys (or_leave Return (λ _,            (* [TcpStream::connect] *)
  Show SessionStarted
  (Loop
    (Accept (λ r,
      match r with
      | Ok tunnel => Spawn (forward_tunnel tunnel) Continue
      | Err e => Show (SessionGone e) Break
      end))
    (Close Return)))).

(** ** Running a task *)

(** The loops a task is in: the body of each and what follows it. *)
Abbreviation task := (prog * list (prog * prog))%type.

(** What a step needs from outside: a waker, the deadline of [open], or a reply
    of the operating system. *)
Inductive choice : Type :=
| Run (cx : Waker)
| Elapsed
| SysSays (r : IoResult unit)
| LineSays (r : IoResult (option (list byte)))
| SockSays (r : reply).

(** What a step does. *)
Record effect : Type := mk_effect {
  e_side : side;
  e_ios : list io;
  e_task : task;
  e_spawned : list task;
  e_seen : list seen;
  e_socks : nat;
}.

(** The poll of a stream by a helper: what it does to the session and how the
    result looks to the helper. *)
Definition user_of (c : call) (cx : Waker) : option user_op :=
  match c with
  | CRead _ room => Some (URead cx (ReadBuf.mk [] room))
  | CWrite _ buf => Some (UWrite cx buf)
  | CFlush _ => None
  | CShutdown _ => Some UShutdown
  end.

Definition io_reply {A} (f : A → reply) (p : PollIo A) : reply :=
  match p with Ready (Ok a) => f a | Ready (Err e) => RFailed e | PollPending => RPending end.

Definition reply_of (c : call) (cx : Waker) (loc : Loc) (s : session) : option reply :=
  match c with
  | CRead _ room =>
    match fst (stream_poll_read cx (ReadBuf.mk [] room) loc s) with
    | Some (Some p, buf) => Some (io_reply (λ _, RRead (ReadBuf.filled buf)) p)
    | _ => None
    end
  | CWrite _ buf => io_reply RWrote <$> fst (stream_poll_write cx buf loc s)
  | CFlush _ => Some (io_reply (λ _, RDone) stream_poll_flush)
  | CShutdown _ => Some (io_reply (λ _, RDone) (fst (stream_poll_shutdown loc s)))
  end.

Definition lane_of (c : call) : lane :=
  match c with CRead e _ | CWrite e _ | CFlush e | CShutdown e => e end.

#[local] Instance fits_dec c r : Decision (fits c r).
Proof. destruct c, r; simpl; apply _. Defined.

(** One step of a task; [n] sockets were handed out before.  [None]: the task
    cannot move this way.  A [main] that comes to [close] or returns ends the part
    of the run that is looked at: the runtime then drops the other tasks. *)
Definition advance (ch : choice) (n : nat) (t : task) (x : side) : option effect :=
  let '(p, loops) := t in
  let '(mk_side s hs op) := x in
  let go p' x' := Some (mk_effect x' [] (p', loops) [] [] n) in
  let local p' v := Some (mk_effect x [] (p', loops) [] v n) in
  match p, ch with
  | Open k, Run _ =>
    let '(r, s') := open_start s in
    go (match r with Ok (i, loc) => Opening i loc k | Err e => k (Err e) end)
      (mk_side s' hs (op ++ match r with Ok il => [il] | Err _ => [] end))
  | Opening i loc k, Run cx =>
    if decide ((i, loc) ∈ op) then
      match open_poll cx loc s with
      | (Some PollPending, s') => go p (mk_side s' hs op)
      | (Some (Ready r), s1) =>
        let '(r', s') := open_finish i loc (Some r) s1 in
        go (k r') (mk_side s' (hs ++ match r' with Ok l => [l] | Err _ => [] end) (filter (.≠ (i, loc)) op))
      | (None, _) => None
      end
    else None
  | Opening i loc k, Elapsed =>
    if decide ((i, loc) ∈ op) then
      let '(r, s') := open_finish i loc None s in
      go (k r) (mk_side s' hs (filter (.≠ (i, loc)) op))
    else None
  | Accept k, Run _ =>
    go (match fst (accept_start s) with Ok rx => Accepting rx k | Err e => k (Err e) end)
      (mk_side (snd (accept_start s)) hs op)
  | Accepting rx k, Run _ =>
    let '(r, s') := accept_poll rx s in
    go (match r with Some r' => k r' | None => p end)
      (mk_side s' (hs ++ match r with Some (Ok l) => [l] | _ => [] end) op)
  | Await a b j k, _ =>
    match job_next j with
    | inr r => local (k r) [Finished a b r]
    | inl c =>
      match (match lane_of c with First => a | Second => b end), ch with
      | OnStream loc, Run cx =>
        if decide (loc ∈ hs) then
          r ← reply_of c cx loc s;
          let p' := Await a b (job_answer j r) k in
          match user_of c cx with
          | Some u => Some (mk_effect (mk_side (user_apply loc u s) hs op) (user_io loc u s) (p', loops) []
              [Polled a b c r] n)
          | None => local p' [Polled a b c r]
          end
        else None
      | OnSock _, SockSays r =>
        if decide (fits c r) then local (Await a b (job_answer j r) k) [Polled a b c r] else None
      | _, _ => None
      end
    end
  | Shutdown loc k, Run _ =>
    if decide (loc ∈ hs) then
      match fst (stream_poll_shutdown loc s) with
      | Ready r => Some (mk_effect (mk_side (user_apply loc UShutdown s) hs op) (user_io loc UShutdown s)
          (k r, loops) [] [] n)
      | PollPending => None
      end
    else None
  | Drop loc k, Run _ =>
    if decide (loc ∈ hs) then
      Some (mk_effect (mk_side (user_apply loc UDrop s) (filter (.≠ loc) hs) op) (user_io loc UDrop s)
        (k, loops) [] [] n)
    else None
  | Spawn child k, _ => Some (mk_effect x [] (k, loops) [(child, [])] [] n)
  | Sys k, SysSays r => local (k r) []
  | GetSock k, SysSays (Ok _) => Some (mk_effect x [] (k (Ok n), loops) [] [] (S n))
  | GetSock k, SysSays (Err e) => local (k (Err e)) []
  | NextLine k, LineSays (Ok (Some line)) =>
    if decide (utf8 line) then local (k (Ok (Some line))) [SawLine line] else None
  | NextLine k, LineSays r => local (k r) []
  | Show m k, _ => local k [Printed m]
  | Loop body after, _ => Some (mk_effect x [] (body, (body, after) :: loops) [] [] n)
  | Continue, _ =>
    match loops with
    | (body, after) :: _ => local body []
    | [] => None
    end
  | Break, _ =>
    match loops with
    | (_, after) :: loops' => Some (mk_effect x [] (after, loops') [] [] n)
    | [] => None
    end
  | _, _ => None
  end.

(** ** Two processes *)

(** The tasks of a process, the sockets handed out to it, what was seen of it. *)
Record proc : Type := mk_proc {
  pr_tasks : list task;
  pr_socks : nat;
  pr_seen : list seen;
}.

(** A process that begins with the program [p]. *)
Definition begin (p : prog) : proc := mk_proc [(p, [])] 0 [].

(** A task of the process moves. *)
Inductive proc_step : side → proc → list io → side → proc → Prop :=
| Proc_step m ch t x p e :
    pr_tasks p !! m = Some t → advance ch (pr_socks p) t x = Some e →
    proc_step x p (e_ios e) (e_side e)
      (mk_proc (<[m := e_task e]> (pr_tasks p) ++ e_spawned e) (e_socks e) (pr_seen p ++ e_seen e)).

(** A task of the session moves: the closer, the keepalive, the writer or the
    reader. *)
Inductive idle_step : duplex → duplex → Prop :=
| Idle_closer (rx : R) s hs op y o i lx ly :
    idle_step (mk_duplex (mk_side s hs op) y o i lx ly)
      (mk_duplex (mk_side (snd (closer_turn rx s)) hs op) y o i lx ly)
| Idle_ping (k : ka (R := R)) s hs op y o i lx ly :
    idle_step (mk_duplex (mk_side s hs op) y o i lx ly)
      (mk_duplex (mk_side (snd (ping k s)) hs op) y o i lx ly)
| Idle_write f s s' hs op y o i lx ly :
    recv_out s = (Some f, s') →
    idle_step (mk_duplex (mk_side s hs op) y o i lx ly)
      (mk_duplex (mk_side s' hs op) y (o ++ [f]) i lx ly)
| Idle_read f go s s' hs op y o i lx ly :
    on_item (NextFrame f) s = (go, s') →
    idle_step (mk_duplex (mk_side s hs op) y o (f :: i) lx ly)
      (mk_duplex (mk_side s' hs op) y o i lx ly).

Record net : Type := mk_net {
  n_d : duplex;
  n_here : proc;
  n_there : proc;
}.

Definition swapped (n : net) : net := mk_net (turned (n_d n)) (n_there n) (n_here n).

Inductive net_half : net → net → Prop :=
| Net_task x ios x' y o i lx ly p p' q :
    proc_step x p ios x' p' →
    net_half (mk_net (mk_duplex x y o i lx ly) p q) (mk_net (mk_duplex x' y o i (lx ++ ios) ly) p' q)
| Net_idle d d' p q :
    idle_step d d' → net_half (mk_net d p q) (mk_net d' p q).

Inductive net_step : net → net → Prop :=
| Net_here n n' : net_half n n' → net_step n n'
| Net_there n n' : net_half (swapped n) (swapped n') → net_step n n'.

(** A client process and a server process, with their sessions as the programs
    configure them. *)
Definition net_new (client server : prog) : net :=
  mk_net (duplex_new (R := R) Config.default Config.default) (begin client) (begin server).

Definition net_reachable (client server : prog) : net → Prop := rtc net_step (net_new client server).

(** ** The sessions below *)

Lemma advance_local ch n t x e :
  advance ch n t x = Some e →
  local_step (R := R) x (e_ios e) (e_side e) ∨ e_ios e = [] ∧ e_side e = x.
Proof.
  destruct t as [p loops], x as [s hs op].
  destruct p as [k|i loc k|k|rx k|a b j k|loc k|loc k|child k|k|k|k|m k|k|body after| | |]; cbn [advance].
  - destruct ch; try done. destruct (open_start s) as [r s'] eqn:E. intros [= <-]. left. by apply L_open.
  - destruct ch; try done; (case_decide; [|done]).
    + destruct (open_poll cx loc s) as [[[r|]|] s1] eqn:E; try done.
      * destruct (open_finish i loc (Some r) s1) as [r' s'] eqn:E'. intros [= <-]. left. by eapply L_open_done.
      * intros [= <-]. left. by eapply L_open_poll.
    + destruct (open_finish i loc None s) as [r s'] eqn:E. intros [= <-]. left. by eapply L_open_timeout.
  - destruct ch; try done. intros [= <-]. left. apply L_accept.
  - destruct ch; try done. destruct (accept_poll rx s) as [r s'] eqn:E. intros [= <-]. left. by eapply L_accept_poll.
  - destruct (job_next j) as [c|r]; [|intros [= <-]; by right].
    destruct (match lane_of c with First => a | Second => b end), ch; try done; (case_decide; [|done]);
      [|intros [= <-]; by right].
    destruct (reply_of c cx loc s); [|done]. cbn.
    destruct (user_of c cx) as [u|] eqn:Eu; intros [= <-]; [left|by right].
    apply L_user; [done|by destruct c; simplify_eq/=..].
  - destruct ch; try done. case_decide; [|done]. destruct (fst (stream_poll_shutdown loc s)); [|done].
    intros [= <-]. left. by apply (L_user loc UShutdown).
  - destruct ch; try done. case_decide; [|done]. intros [= <-]. left. by apply L_drop.
  - intros [= <-]. by right.
  - destruct ch; try done. intros [= <-]. by right.
  - destruct ch as [| |[]| |]; try done; intros [= <-]; by right.
  - destruct ch as [| | |[[]|]|]; try done; try (case_decide; [|done]); intros [= <-]; by right.
  - intros [= <-]. by right.
  - done.
  - intros [= <-]. by right.
  - destruct loops as [|[]]; [done|]. intros [= <-]. by right.
  - destruct loops as [|[]]; [done|]. intros [= <-]. by right.
  - done.
Qed.

Lemma proc_step_local x p ios x' p' :
  proc_step x p ios x' p' → local_step (R := R) x ios x' ∨ ios = [] ∧ x' = x.
Proof. intros [m ch t ? ? e _ E]. by eapply advance_local. Qed.

Lemma idle_half d d' : idle_step d d' → half_step (R := R) d d'.
Proof.
  intros [rx s hs op y o i lx ly|k s hs op y o i lx ly|f s s' hs op y o i lx ly E|f go s s' hs op y o i lx ly E].
  - rewrite <- (app_nil_r lx) at 2. apply Half_local, L_closer.
  - rewrite <- (app_nil_r lx) at 2. apply Half_local, L_ping.
  - by apply Half_write.
  - by eapply Half_read.
Qed.

Lemma net_half_sessions n n' : net_half n n' → half_step (R := R) (n_d n) (n_d n') ∨ n_d n' = n_d n.
Proof.
  intros [x ios x' y o i lx ly p p' q Hp|d d' p q Hi]; cbn; [|left; by apply idle_half].
  destruct (proc_step_local _ _ _ _ _ Hp) as [?|[-> ->]]; [left; by apply Half_local|right].
  by rewrite app_nil_r.
Qed.

(** The sessions of the programs behave as two sessions do. *)
Lemma net_sessions client server n :
  net_reachable client server n → duplex_reachable (R := R) Config.default Config.default (n_d n).
Proof.
  unfold net_reachable, duplex_reachable. intros Hr.
  change (duplex_new Config.default Config.default) with (n_d (net_new client server)).
  induction Hr as [|n1 n2 n3 Hst _ IH]; [done|]. transitivity (n_d n2); [|done].
  assert (∀ d d' : duplex, turned d = turned d' → d = d') as Hinj by (by intros [] [] [=]; subst).
  destruct Hst as [n1 n2 Hst|n1 n2 Hst]; destruct (net_half_sessions _ _ Hst) as [Hd|Hd].
  - by apply rtc_once, Duplex_here.
  - by rewrite Hd.
  - by apply rtc_once, Duplex_there.
  - by rewrite (Hinj _ _ Hd).
Qed.

(** ** A poll of a stream by a helper *)

Definition polled_io (c : call) (cx : Waker) (loc : Loc) (s : session) : list io :=
  match user_of c cx with Some u => user_io loc u s | None => [] end.

Lemma heap_wf (x : side) loc st : side_inv x → s_heap (sd_s x) !! loc = Some st → stream_wf st.
Proof. intros Hx Hl. by destruct (Forall_lookup_1 _ _ _ _ (inv_heap _ (si_session x Hx)) Hl) as ((_ & _ & ? & _) & _). Qed.

(** How a read ends: it fails on a reset stream only, waits or brings bytes, and
    brings none at the end of the stream only. *)
Lemma read_reply e room cx loc (x : side) st r :
  side_inv x → s_heap (sd_s x) !! loc = Some st → room ≠ 0 →
  reply_of (CRead e room) cx loc (sd_s x) = Some r →
  user_io loc (URead cx (ReadBuf.mk [] room)) (sd_s x) = [Got (id st) (taken1 e (CRead e room, r))] ∧
  fits (CRead e room) r ∧ (r = RRead [] → at_eof x loc) ∧
  (upset (CRead e room, r) → StreamState.is_reset (state st) = true).
Proof.
  intros Hx Hl Hroom. unfold at_eof. cbn [reply_of user_io]. unfold io_of, stream_poll_read.
  destruct (poll_read_cases cx (ReadBuf.mk [] room) st (links_of (sd_s x)) (heap_wf x loc st Hx Hl))
    as (p & buf & st' & l' & E & Hc).
  rewrite (on_stream_put _ _ _ _ Hl), E, Hl. cbn. intros [= <-]. unfold read_contract in Hc. cbn in Hc.
  destruct p as [[[]|err]|]; cbn.
  - destruct Hc as (Hf & Hrem & _). rewrite decide_True by done. split_and!; [done| | |done].
    + rewrite Hf, length_take. lia.
    + intros [= Hn]. exists cx, (ReadBuf.mk [] room). split; [done|]. rewrite (on_stream_put _ _ _ _ Hl), E. cbn.
      do 3 f_equal. destruct buf as [fl rem]. cbn in *. subst fl.
      destruct (RecvBuffer.contents (recv st)) as [|b bs]; [|by destruct room].
      cbn in Hrem. rewrite Nat.min_0_r in Hrem. f_equal; [done|lia].
  - destruct Hc as (Hr & _ & -> & _). by split_and!.
  - destruct Hc as (_ & _ & _ & _ & _ & _ & -> & _). by split_and!.
Qed.

(** How a write ends: it fails only when the stream was reset or ended by its user,
    and it takes at least a byte. *)
Lemma write_reply e buf cx loc (x : side) st r :
  side_inv x → s_heap (sd_s x) !! loc = Some st → buf ≠ [] →
  reply_of (CWrite e buf) cx loc (sd_s x) = Some r →
  let ios := user_io loc (UWrite cx buf) (sd_s x) in
  wrote (id st) ios = put1 e (CWrite e buf, r) ∧ got (id st) ios = [] ∧ Shut (id st) ∉ ios ∧
  fits (CWrite e buf) r ∧ (∀ bs, r ≠ RRead bs) ∧
  (upset (CWrite e buf, r) → StreamState.is_reset (state st) = true ∨
     StreamState.write_open (state st) = false ∨ SendWindow.closed (send_window st) = true).
Proof.
  intros Hx Hl Hbuf. cbn [reply_of user_io]. unfold io_of, stream_poll_write.
  pose proof (heap_wf x loc st Hx Hl) as Hwf. pose proof (si_out x Hx) as Hrx.
  destruct (Forall_lookup_1 _ _ _ _ (inv_heap _ (si_session x Hx)) Hl) as ((_ & Hcfg & _) & _).
  pose proof (inv_config _ (si_session x Hx)) as (_ & _ & Hmax & _).
  rewrite (on_stream_put _ _ _ _ Hl), Hl, poll_write_spec by done.
  replace (rx_alive (out_ch (links_of (sd_s x)))) with true by (symmetry; exact Hrx).
  rewrite bool_decide_false by done.
  destruct (StreamState.is_reset (state st)) eqn:Hreset; cbn; [intros [= <-]; split_and!; auto; set_solver|].
  destruct (StreamState.write_open (state st)) eqn:Hwo; cbn; [|intros [= <-]; split_and!; auto; set_solver].
  destruct (SendWindow.closed (send_window st)) eqn:Hcl; cbn; [intros [= <-]; split_and!; auto; set_solver|].
  destruct (Z.eqb_spec (SendWindow.available (send_window st)) 0) as [Hz|Hnz]; cbn;
    [intros [= <-]; split_and!; auto; set_solver|].
  intros [= <-]. cbn. rewrite Z.eqb_refl, decide_True, app_nil_r by done.
  assert (1 ≤ Z.min (SendWindow.available (send_window st)) (want st (length buf)) ≤ Z.of_nat (length buf))%Z as Hn.
  { unfold want. rewrite Hcfg. destruct Hwf as (_ & _ & Hsw & _). unfold SendWindow.wf, is_u32 in Hsw.
    destruct buf; [done|]. cbn [length]. lia. }
  split_and!; [done|done|by intros ?%list_elem_of_singleton|lia|done|].
  unfold upset. cbn. case_match; [lia|done].
Qed.

(** Whatever poll a helper makes of a stream. *)
Lemma poll_logged h c cx loc (x : side) st r :
  side_inv x → s_heap (sd_s x) !! loc = Some st → asks h c → reply_of c cx loc (sd_s x) = Some r →
  let ios := polled_io c cx loc (sd_s x) in
  fits c r ∧ wrote (id st) ios = put1 (lane_of c) (c, r) ∧ got (id st) ios = taken1 (lane_of c) (c, r) ∧
  (Shut (id st) ∈ ios → c = CShutdown (lane_of c)) ∧ (r = RRead [] → at_eof x loc) ∧
  (upset (c, r) → StreamState.is_reset (state st) = true ∨
     StreamState.write_open (state st) = false ∨ SendWindow.closed (send_window st) = true).
Proof.
  intros Hx Hl [Hask _] Hr. destruct c as [e room|e buf|e|e]; cbn [lane_of].
  - destruct (read_reply e room cx loc x st r Hx Hl Hask Hr) as (E & Hf & He & Hu).
    unfold polled_io. cbn [user_of]. rewrite E. cbn. rewrite Z.eqb_refl, app_nil_r.
    split_and!; auto; try (by destruct r). by intros ?%list_elem_of_singleton.
  - destruct (write_reply e buf cx loc x st r Hx Hl Hask Hr) as (Hw & Hg & Hs & Hf & Hn & Hu).
    unfold polled_io. cbn [user_of]. rewrite Hg. split_and!; auto; try (by intros ?%Hs); try (by intros ->%Hn); by destruct r.
  - cbn in Hr. injection Hr as <-. split_and!; try done. by intros ?%elem_of_nil.
  - cbn in Hr. injection Hr as <-. unfold polled_io. cbn. unfold io_of. rewrite Hl. by split_and!.
Qed.

End Programs.
