(* ===== verification/Processes.v ===== *)
(** * Reasoning about the processes

    What every proof about the programs of [Programs] uses: what holds of the two
    sessions in a reachable state, what the end of a stream or a failed poll says,
    how a task that waits for a helper moves, and how an invariant of a pool of
    tasks, each with the stream it holds, goes on when one of them moves. *)

From S2P Require Import Prelude Machine Errors Config Ids Frames Header Codec Crates Window.
From S2P Require Import StreamState RecvBuffer StreamInner StreamFacts StreamInv Session Reader Api.
From S2P Require Import FlowControl Keepalive Writer SessionInv System Dispatch Pair Duplex Endpoints.
From S2P Require Import Transparency Lifecycle Users Utf8 Tokio Programs.
From Stdlib Require Import ZArith Lia.

(** ** Pools of tasks *)

Section Pool.
Context {T : Type}.

(** Each task is [P], with the stream it holds; no two hold the same. *)
Definition pool_ok (P : T → option Loc → Prop) (ts : list T) : Prop :=
  ∃ hs : list (option Loc), Forall2 P ts hs ∧ NoDup (omap (λ h, h) hs).

Lemma pool_single (P : T → option Loc → Prop) t h : P t h → pool_ok P [t].
Proof.
  intros Ht. exists [h]. split; [by constructor|]. destruct h; cbn; [apply NoDup_singleton|apply NoDup_nil_2].
Qed.

Lemma pool_mono (P P' : T → option Loc → Prop) ts : (∀ t h, P t h → P' t h) → pool_ok P ts → pool_ok P' ts.
Proof. intros Hp (hs & Hf & Hn). exists hs. split; [|done]. eapply Forall2_impl; eauto. Qed.

Lemma pool_lookup (P : T → option Loc → Prop) ts m t : pool_ok P ts → ts !! m = Some t → ∃ h, P t h.
Proof. intros (hs & Hf & _) Hm. destruct (Forall2_lookup_l _ _ _ _ _ Hf Hm) as (h & _ & ?). eauto. Qed.

Lemma Forall2_change {A B} (P P' : A → B → Prop) l k :
  Forall2 P l k → (∀ x y, y ∈ k → P x y → P' x y) → Forall2 P' l k.
Proof. induction 1; intros Hc; constructor; [apply Hc; [left|done]|]. apply IHForall2. intros. apply Hc; [by right|done]. Qed.

Lemma Forall2_held (P : T → option Loc → Prop) ts hs h : Forall2 P ts hs → h ∈ hs → ∃ t, P t h.
Proof. intros Hf [j Hj]%list_elem_of_lookup. destruct (Forall2_lookup_r _ _ _ _ _ Hf Hj) as (t & _ & ?). eauto. Qed.

(** A task moves from [t] to [t'] and spawns [new]: it and its children hold what
    it held before, or what nobody held. *)
Lemma pool_move (P P' : T → option Loc → Prop) ts m t t' new :
  pool_ok P ts → ts !! m = Some t →
  (∀ h, P t h → ∃ h' hn, P' t' h' ∧ Forall2 P' new hn ∧ NoDup (omap (λ h, h) (h' :: hn)) ∧
     (∀ loc, Some loc ∈ h' :: hn → h = Some loc ∨ ∀ t2, ¬ P t2 (Some loc)) ∧
     (∀ t2 h2, P t2 h2 → (∀ loc, h = Some loc → h2 ≠ Some loc) → P' t2 h2)) →
  pool_ok P' (<[m := t']> ts ++ new).
Proof.
  intros (hs & Hf & Hn) (t1 & t2 & -> & ->)%list_elem_of_split_length Hstep.
  apply Forall2_app_inv_l in Hf as (h1 & h2' & Hf1 & Hf2 & ->).
  apply Forall2_cons_inv_l in Hf2 as (h & h2 & Ht & Hf2 & ->).
  destruct (Hstep h Ht) as (h' & hn & Ht' & Hnew & Hn' & Hfrom & Hkeep).
  assert (NoDup (omap (λ h, h) (h :: h1 ++ h2))) as Hnd by (by rewrite Permutation_middle).
  assert (∀ loc, h = Some loc → Some loc ∉ h1 ++ h2) as Hout.
  { intros loc -> Hin. cbn in Hnd. apply list.NoDup_cons in Hnd as [Hno _]. apply Hno.
    apply list_elem_of_omap. by exists (Some loc). }
  replace (<[length t1 := t']> (t1 ++ t :: t2)) with (t1 ++ t' :: t2)
    by (rewrite <- (Nat.add_0_r (length t1)), insert_app_r; done).
  exists (h1 ++ h' :: h2 ++ hn). rewrite <- app_assoc, <- app_comm_cons. split.
  - apply Forall2_app; [|constructor; [done|]; apply Forall2_app; [|done]].
    + eapply Forall2_change; [exact Hf1|]. intros u v Hv Hu. apply Hkeep; [done|]. intros loc E ->.
      apply (Hout loc E). set_solver.
    + eapply Forall2_change; [exact Hf2|]. intros u v Hv Hu. apply Hkeep; [done|]. intros loc E ->.
      apply (Hout loc E). set_solver.
  - assert (h1 ++ h' :: h2 ++ hn ≡ₚ (h' :: hn) ++ (h1 ++ h2)) as -> by solve_Permutation.
    rewrite omap_app. apply list.NoDup_app. split_and!; [done| |].
    + intros loc ([loc'|] & Hin & [= ->])%list_elem_of_omap ([loc2|] & Hin2 & [= ->])%list_elem_of_omap.
      destruct (Hfrom loc Hin) as [E|Hno]; [by apply (Hout loc E)|].
      apply elem_of_app in Hin2 as [Hin2|Hin2]; [destruct (Forall2_held _ _ _ _ Hf1 Hin2)|destruct (Forall2_held _ _ _ _ Hf2 Hin2)];
        by eapply Hno.
    + cbn in Hnd. destruct h; [by apply list.NoDup_cons in Hnd as [_ ?]|done].
Qed.

End Pool.

Section Processes.
Context {BF : BitflagsOps}.
Context {W : Type} {AW : AtomicWakerOps W}.
Context {C : Type → Type} {CH : UnboundedChannelOps C}.
Context {X R : Type} {WO : WatchOps X R}.
Context {DO : DrainOrder}.
Context {J : Type} {TK : TokioIo J}.

Abbreviation session := (Session W C X).
Abbreviation side := (side (W := W) (C := C) (X := X)).
Abbreviation duplex := (duplex (W := W) (C := C) (X := X)).
Abbreviation prog := (prog (R := R) (J := J)).
Abbreviation task := (prog * list (prog * prog))%type.
Abbreviation net := (net (W := W) (C := C) (X := X) (R := R) (J := J)).

(** ** What is known of the sessions *)

Record facts (d : duplex) : Prop := {
  fa_inv : duplex_inv d;
  fa_flow : flow_out d;
  fa_calm : calm_out d;
  fa_calm_back : calm_out (turned d);
  fa_unused : unused_out d;
}.

Definition known_facts (d : duplex) : Prop := facts d ∧ facts (turned d).

Lemma default_valid : Config.valid Config.default.
Proof. concrete. Qed.

Lemma known_turned (d : duplex) : known_facts d → known_facts (turned d).
Proof. intros [? ?]. split; [done|by rewrite turned_turned]. Qed.

Lemma reachable_facts client server (n : net) : net_reachable client server n → known_facts (n_d n).
Proof.
  intros Hr%net_sessions. pose proof default_valid as Hv.
  pose proof (duplex_reachable_inv _ _ _ Hv Hv Hr) as Hd.
  destruct (duplex_reachable_flow _ _ _ Hv Hv Hr), (duplex_reachable_calm _ _ _ Hv Hv Hr),
    (duplex_reachable_unused _ _ _ Hv Hv Hr).
  split; constructor; auto. by apply duplex_inv_turned.
Qed.

(** An invariant of the two processes, by induction on the steps; both states
    are known. *)
Lemma net_induction client server (I : net → Prop) :
  I (net_new client server) →
  (∀ n n', net_half n n' → known_facts (n_d n) → known_facts (n_d n') → I n → I n') →
  (∀ n n', net_half (swapped n) (swapped n') → known_facts (n_d n) → known_facts (n_d n') → I n → I n') →
  ∀ n, net_reachable client server n → I n.
Proof.
  intros H0 Hhere Hthere. apply rtc_ind_r; [done|]. intros n1 n2 Hr Hst IH.
  pose proof (reachable_facts _ _ _ Hr). assert (net_reachable client server n2) as ?%reachable_facts by (by eapply rtc_r).
  destruct Hst; eauto.
Qed.

(** ** One side moves *)

Lemma onward_refl (x y : side) : onward x x y [].
Proof. constructor; auto. Qed.

(** A task moves. *)
Lemma advance_onward ch n t (x : side) e y o i lx ly :
  advance ch n t x = Some e → duplex_inv (mk_duplex x y o i lx ly) → onward x (e_side e) y (e_ios e).
Proof.
  intros [Hst|[-> ->]]%advance_local [Hx _ HP _ _]; [|apply onward_refl]. by eapply local_onward.
Qed.

(** A task of the session moves. *)
Lemma idle_onward (d d' : duplex) :
  idle_step (R := R) d d' → duplex_inv d →
  onward (dx_here d) (dx_here d') (dx_there d) [] ∧ dx_there d' = dx_there d ∧
  dx_log_here d' = dx_log_here d ∧ dx_log_there d' = dx_log_there d ∧
  sd_handles (dx_here d') = sd_handles (dx_here d).
Proof.
  intros Hi Hd. destruct (half_onward d d' (idle_half _ _ Hi) Hd) as (ios & Ho & ? & El & ?).
  assert (dx_log_here d' = dx_log_here d ∧ sd_handles (dx_here d') = sd_handles (dx_here d)) as [E ?] by (by destruct Hi).
  rewrite E in El. assert (ios = []) as ->; [|by split_and!].
  apply (app_inv_head (dx_log_here d)). by rewrite <- El, app_nil_r.
Qed.

(** ** What a poll says about the peer *)

(** The end of a stream: the peer shut it down, can write no more, and all it wrote
    was read. *)
Lemma eof_facts d loc i :
  facts d → facts (turned d) → loc ∈ sd_handles (dx_here d) → names (dx_here d) loc i → at_eof (dx_here d) loc →
  settled (dx_there d) i ∧ got i (dx_log_here d) = wrote i (dx_log_there d) ∧
  Shut i ∈ dx_log_there d ∧ in_use (dx_here d) i.
Proof.
  intros [[Hx Hy HP _ _] _ Hc Hc' _] [_ Hf _ _ _] Hin (st & Hl & <-) He.
  destruct (at_eof_state _ _ _ Hx Hl He) as (Hr & Hb & Ho).
  assert (in_use (dx_here d) (id st)) as Hu by (exists loc, st; split_and!; auto; unfold pots; set_solver).
  assert (s_registry (sd_s (dx_here d)) !! id st = Some loc) as Hreg
    by (apply (si_wr _ Hx); [unfold pots; set_solver|done|done]).
  destruct (flow_complete _ _ _ _ _ _ Hx (pair_inv_flip _ _ _ _ HP) Hf loc st Hin Hl He) as [Hg _].
  split_and!; auto.
  - split.
    + destruct (c_eof _ _ _ _ Hc' loc st Hl Hr Ho) as (loc' & st' & ? & ? & _). by exists loc', st'.
    + apply (eof_quiet _ _ _ _ (id st) (pair_inv_flip _ _ _ _ HP)); [by exists loc|].
      intros (loc2 & st2 & Hreg2 & Hl2 & Hcr). assert (st2 = st) as -> by congruence.
      unfold can_recv in Hcr. by rewrite Ho in Hcr.
  - refine (calm_eof _ _ _ _ (pipe_out d) Hx Hc' _ loc st Hin Hl He). exact (c_use _ _ _ _ Hc).
Qed.

(** A poll of a stream that its user has not shut down fails only when the peer
    has let go of it. *)
Lemma upset_facts d loc st :
  facts d → s_heap (sd_s (dx_here d)) !! loc = Some st → Shut (id st) ∉ dx_log_here d →
  StreamState.is_reset (state st) = true ∨ StreamState.write_open (state st) = false ∨
    SendWindow.closed (send_window st) = true →
  ¬ in_use (dx_there d) (id st).
Proof.
  intros [_ _ Hc Hc' _] Hl Hs Hbad Hu. destruct (c_use _ _ _ _ Hc' (id st) Hu) as [_ Hn].
  assert (StreamState.is_reset (state st) = false) as Hr.
  { apply not_true_is_false. intros ?. apply Hn. by exists loc, st. }
  destruct (c_shut _ _ _ _ Hc loc st Hl Hr) as [Hw Hcl].
  destruct Hbad as [?|[?|?]]; [congruence|by apply Hs, Hw|congruence].
Qed.

(** What was read stays a part of what was written. *)
Lemma read_prefix d i : facts d → got i (dx_log_there d) `prefix_of` wrote i (dx_log_here d).
Proof. intros [[Hx Hy _ _ _] Hf _ _ _]. by apply (flow_faithful _ _ _ _ _ Hy Hf). Qed.

(** ** New streams *)

(** [accept] brings a stream of the peer that nobody has touched. *)
Lemma accept_brings rx (y y' x : side) s' ios loc ly :
  accept_poll rx (sd_s y) = (Some (Ok loc), s') → side_inv y → onward y y' x ios →
  (∀ loc i, loc ∈ waits y → names y loc i → untouched i ly) →
  loc ∈ waits y ∧ ∃ i, names y' loc i ∧ ¬ v_own (view_of y') i ∧ untouched i ly.
Proof.
  intros E Hy Ho Hu. destruct (accept_poll_queue _ _ _ _ E) as [_ Hq]. specialize (Hq loc eq_refl).
  assert (loc ∈ waits y) as Hw by (unfold waits; set_solver).
  destruct (proj1 (Forall_forall _ _) (inv_accept _ (si_session y Hy)) loc) as (st & Hl & Hown); [by apply list_elem_of_In|].
  assert (names y loc (id st)) as Hn by (by exists st).
  split; [done|]. exists (id st). split_and!; [by apply (on_names _ _ _ _ Ho)| |by eapply Hu].
  rewrite (on_own _ _ _ _ Ho). cbn. by rewrite Hown.
Qed.

(** [open] brings a stream that nobody has touched. *)
Lemma open_brings (x x' y : side) i loc ios lx :
  (i, loc) ∈ sd_opening x → side_inv x → onward x x' y ios →
  (∀ loc i, loc ∈ waits x → names x loc i → untouched i lx) →
  loc ∈ waits x ∧ names x' loc i ∧ untouched i lx.
Proof.
  intros Hop Hx Ho Hu. destruct (si_opening x Hx i loc Hop) as (st & Hl & Hi).
  assert (loc ∈ waits x) as Hw.
  { unfold waits. rewrite elem_of_app, list_elem_of_fmap. left. by exists (i, loc). }
  assert (names x loc i) as Hn by (by exists st). split_and!; [done|by apply (on_names _ _ _ _ Ho)|by eapply Hu].
Qed.

(** ** A task that waits for a helper *)

Definition end_of (a b : endpoint) (c : call) : endpoint := match lane_of c with First => a | Second => b end.

Inductive await_effect (a b : endpoint) (j : J) (k : IoResult (list byte) → prog) (loops : list (prog * prog))
    (x : side) (n : nat) : effect → Prop :=
| AE_done r :
    job_next j = inr r → await_effect a b j k loops x n (mk_effect x [] (k r, loops) [] [Finished a b r] n)
| AE_stream c r cx loc x' :
    job_next j = inl c → end_of a b c = OnStream loc → loc ∈ sd_handles x →
    reply_of c cx loc (sd_s x) = Some r → sd_handles x' = sd_handles x →
    await_effect a b j k loops x n (mk_effect x' (polled_io c cx loc (sd_s x))
      (Await a b (job_answer j r) k, loops) [] [Polled a b c r] n)
| AE_sock c r m :
    job_next j = inl c → end_of a b c = OnSock m → fits c r →
    await_effect a b j k loops x n (mk_effect x [] (Await a b (job_answer j r) k, loops) [] [Polled a b c r] n).

Lemma advance_await ch n a b j k loops x e :
  advance ch n (Await a b j k, loops) x = Some e → await_effect a b j k loops x n e.
Proof.
  destruct x as [s hs op]. cbn [advance]. destruct (job_next j) as [c|r] eqn:Ej; [|intros [= <-]; by constructor].
  destruct (match lane_of c with First => a | Second => b end) as [loc|m] eqn:Ee, ch; try done; (case_decide; [|done]);
    [|intros [= <-]; by eapply AE_sock].
  destruct (reply_of c cx loc s) as [r|] eqn:Er; [|done]. cbn.
  pose proof (λ x', AE_stream a b j k loops (mk_side s hs op) n c r cx loc x' Ej Ee H Er) as Hae.
  unfold polled_io in Hae. destruct (user_of c cx); intros [= <-]; by apply Hae.
Qed.

(** Nobody else's stream is touched by a poll. *)
Lemma polled_other c cx loc (x : side) i i' : names x loc i → i' ≠ i → untouched i' (polled_io c cx loc (sd_s x)).
Proof.
  intros (st & Hl & <-) Hne. unfold polled_io. destruct (user_of c cx); [|apply untouched_nil]. by eapply user_io_other.
Qed.

End Processes.
