(* ===== verification/Echo.v ===== *)
(** * The echo programs ([examples/tcp_client.rs], [examples/tcp_server.rs])

    The client sends each line it is given over a stream of its own and prints
    what comes back; the server copies every stream back to where it came from.
    The theorem: whatever the scheduling, what the client prints is what it was
    given. *)

From S2P Require Import Prelude Machine Errors Config Ids Frames Header Codec Crates Window.
From S2P Require Import StreamState RecvBuffer StreamInner StreamFacts StreamInv Session Reader Api.
From S2P Require Import FlowControl Keepalive Writer SessionInv System Dispatch Pair Duplex Endpoints.
From S2P Require Import Transparency Lifecycle Users Utf8 Tokio Programs Processes.
From Stdlib Require Import ZArith Lia.

Section Echo.
Context {BF : BitflagsOps}.
Context {W : Type} {AW : AtomicWakerOps W}.
Context {C : Type → Type} {CH : UnboundedChannelOps C}.
Context {X R : Type} {WO : WatchOps X R}.
Context {DO : DrainOrder}.
Context {J : Type} {TK : TokioIo J}.

Abbreviation session := (Session W C X).
Abbreviation side := (side (W := W) (C := C) (X := X)).
Abbreviation duplex := (duplex (W := W) (C := C) (X := X)).
Abbreviation prog := (prog (R := R) (J := J)).
Abbreviation task := (prog * list (prog * prog))%type.
Abbreviation net := (net (W := W) (C := C) (X := X) (R := R) (J := J)).

(** ** The server

    The client is [dx_here], the server [dx_there]. *)

(** Stream [i] was echoed: the client can write no more and all it wrote was
    written back; or the client has let go of it. *)
Definition echo_done (d : duplex) (i : StreamId) : Prop :=
  settled (dx_here d) i ∧ wrote i (dx_log_there d) = wrote i (dx_log_here d) ∨
  v_known (view_of (dx_there d)) i ∧ ¬ v_own (view_of (dx_there d)) i ∧ ¬ in_use (dx_here d) i.

(** The copy of stream [i] is under way: what was exchanged is in the log, it only
    sees the end when all was read, it only fails when the client let go. *)
Definition copying (d : duplex) (j : J) (i : StreamId) : Prop := ∃ tr,
  job Copy tr j ∧ wrote i (dx_log_there d) = put Second tr ∧ got i (dx_log_there d) = taken First tr ∧
  Shut i ∉ dx_log_there d ∧
  (at_end First tr → settled (dx_here d) i ∧ wrote i (dx_log_here d) = got i (dx_log_there d)) ∧
  (troubled tr → ¬ in_use (dx_here d) i).

(** The server holds, at [loc], a stream the client opened. *)
Definition serves (d : duplex) (loc : Loc) (F : StreamId → Prop) : Prop := ∃ i,
  names (dx_there d) loc i ∧ loc ∈ sd_handles (dx_there d) ∧ ¬ v_own (view_of (dx_there d)) i ∧ F i.

(** The places in the program. *)
Definition accept_rest (r : MuxResult Loc) : prog :=
  match r with
  | Ok stream => Spawn (echo_stream stream) Continue
  | Err e => Show (SessionEnded e) Break
  end.
Definition conn_loop : list (prog * prog) := [(Accept accept_rest, Close Return)].
Definition echo_finish (loc : Loc) : prog := Shutdown loc (λ _, Drop loc Return).
Definition echo_rest (loc : Loc) (r : IoResult (list byte)) : prog :=
  match r with Err e => Show (EchoErrored e) (echo_finish loc) | Ok _ => echo_finish loc end.

Definition serve_conn (mine conn : nat) : prog := if conn =? mine then Spawn handle_conn Continue else Continue.
Definition after_nodelay (mine conn : nat) : IoResult unit → prog :=
  or_leave Return (λ _, Show (Connected conn) (serve_conn mine conn)).
Definition next_conn (mine : nat) : prog := GetSock (or_leave Return (λ conn, Sys (after_nodelay mine conn))).
Definition listen_loop (mine : nat) : list (prog * prog) := [(next_conn mine, Return)].

(** [main] of the server. *)
Inductive main_task : task → Prop :=
| M_bind mine : main_task (tcp_server_main mine, [])
| M_listening mine : main_task (Show Listening (Loop (next_conn mine) Return), [])
| M_loop mine : main_task (Loop (next_conn mine) Return, [])
| M_next mine : main_task (next_conn mine, listen_loop mine)
| M_nodelay mine conn : main_task (Sys (after_nodelay mine conn), listen_loop mine)
| M_connected mine conn : main_task (Show (Connected conn) (serve_conn mine conn), listen_loop mine)
| M_serve mine : main_task (Spawn handle_conn Continue, listen_loop mine)
| M_continue mine : main_task (Continue, listen_loop mine)
| M_return loops : main_task (Return, loops).

(** Where a task of the server can be, what is then true, and the stream it holds. *)
Inductive server_task (d : duplex) : task → option Loc → Prop :=
| S_start : server_task d (handle_conn, []) None
| S_accept : server_task d (Accept accept_rest, conn_loop) None
| S_accepting rx : server_task d (Accepting rx accept_rest, conn_loop) None
| S_spawn loc :
    serves d loc (λ i, untouched i (dx_log_there d)) →
    server_task d (Spawn (echo_stream loc) Continue, conn_loop) (Some loc)
| S_continue : server_task d (Continue, conn_loop) None
| S_ended e : server_task d (Show (SessionEnded e) Break, conn_loop) None
| S_break : server_task d (Break, conn_loop) None
| S_close : server_task d (Close Return, []) None
| S_copy loc j :
    serves d loc (copying d j) →
    server_task d (Await (OnStream loc) (OnStream loc) j (echo_rest loc), []) (Some loc)
| S_errored loc e :
    serves d loc (echo_done d) → server_task d (Show (EchoErrored e) (echo_finish loc), []) (Some loc)
| S_finish loc : serves d loc (echo_done d) → server_task d (echo_finish loc, []) (Some loc)
| S_drop loc : serves d loc (echo_done d) → server_task d (Drop loc Return, []) (Some loc)
| S_main t : main_task t → server_task d t None.

Record server_ok (d : duplex) (ts : list task) : Prop := {
  so_pool : pool_ok (server_task d) ts;
  so_shut : ∀ i, Shut i ∈ dx_log_there d → echo_done d i;
}.

(** The facts of a stream move from [d] to [d']. *)
Definition serves_on (d d' : duplex) (loc : Loc) : Prop := ∀ i,
  names (dx_there d) loc i → loc ∈ sd_handles (dx_there d) → ¬ v_own (view_of (dx_there d)) i →
  names (dx_there d') loc i ∧ loc ∈ sd_handles (dx_there d') ∧ ¬ v_own (view_of (dx_there d')) i ∧
  (untouched i (dx_log_there d) → untouched i (dx_log_there d')) ∧
  (∀ j, copying d j i → copying d' j i) ∧ (echo_done d i → echo_done d' i).

Lemma server_task_on d d' t h :
  (∀ loc, h = Some loc → serves_on d d' loc) → server_task d t h → server_task d' t h.
Proof.
  intros Hon. destruct 1; try by constructor.
  all: constructor; match goal with H : serves _ ?l _ |- _ => specialize (Hon l eq_refl) end.
  all: match goal with H : serves _ _ _ |- _ => destruct H as (i & Hn & Hh & Ho & HF) end.
  all: destruct (Hon i Hn Hh Ho) as (? & ? & ? & ? & ? & ?); exists i; auto.
Qed.

(** ** The client moves *)

Lemma echo_done_client d d' ios i :
  onward (dx_here d) (dx_here d') (dx_there d) ios → dx_there d' = dx_there d →
  dx_log_here d' = dx_log_here d ++ ios → dx_log_there d' = dx_log_there d →
  echo_done d i → echo_done d' i.
Proof.
  intros Ho Ey El El'. unfold echo_done. rewrite Ey, El, El', wrote_app. intros [[Hs Hw]|(Hk & Hno & Hu)].
  - left. destruct (on_settled _ _ _ _ Ho i Hs) as [? ->]. by rewrite app_nil_r.
  - right. split_and!; [done|done|]. by apply (on_gone _ _ _ _ Ho).
Qed.

Lemma copying_client d d' ios j loc i :
  onward (dx_here d) (dx_here d') (dx_there d) ios → dx_there d' = dx_there d →
  dx_log_here d' = dx_log_here d ++ ios → dx_log_there d' = dx_log_there d →
  names (dx_there d) loc i → ¬ v_own (view_of (dx_there d)) i →
  copying d j i → copying d' j i.
Proof.
  intros Ho Ey El El' Hn Hno (tr & Hj & Hw & Hg & Hs & He & Ht). exists tr. rewrite El, El', wrote_app.
  split_and!; auto.
  - intros Hend. destruct (He Hend) as [Hst E]. destruct (on_settled _ _ _ _ Ho i Hst) as [? ->].
    by rewrite app_nil_r.
  - intros Hb. apply (on_gone _ _ _ _ Ho); [by eapply names_known|done|auto].
Qed.

Lemma server_client d d' ios ts :
  onward (dx_here d) (dx_here d') (dx_there d) ios → dx_there d' = dx_there d →
  dx_log_here d' = dx_log_here d ++ ios → dx_log_there d' = dx_log_there d →
  server_ok d ts → server_ok d' ts.
Proof.
  intros Ho Ey El El' [Hp Hs]. constructor.
  - eapply pool_mono; [|exact Hp]. intros t h. apply server_task_on. intros loc _ i Hn Hh Hno.
    rewrite Ey, El'. split_and!; auto; [|by eapply echo_done_client].
    intros j. by eapply copying_client.
  - rewrite El'. intros i Hi. eapply echo_done_client; eauto.
Qed.

(** ** The server moves *)

(** A stream that is not touched. *)
Lemma server_other d d' ios loc :
  onward (dx_there d) (dx_there d') (dx_here d) ios → dx_here d' = dx_here d →
  dx_log_there d' = dx_log_there d ++ ios → dx_log_here d' = dx_log_here d →
  (loc ∈ sd_handles (dx_there d) → loc ∈ sd_handles (dx_there d')) →
  (∀ i, names (dx_there d) loc i → untouched i ios) → serves_on d d' loc.
Proof.
  intros Ho Ex El El' Hh Hu i Hn Hin Hno. destruct (Hu i Hn) as (Hw & Hg & Hs).
  assert (wrote i (dx_log_there d') = wrote i (dx_log_there d)) as Ew by (by rewrite El, wrote_app, Hw, app_nil_r).
  assert (got i (dx_log_there d') = got i (dx_log_there d)) as Eg by (by rewrite El, got_app, Hg, app_nil_r).
  assert (¬ v_own (view_of (dx_there d')) i) by (by rewrite (on_own _ _ _ _ Ho)).
  assert (names (dx_there d') loc i) as Hn' by (by apply (on_names _ _ _ _ Ho)).
  split_and!; auto.
  - rewrite El, untouched_app. intros ?. split; [done|]. by split_and!.
  - intros j (tr & ? & ? & ? & ? & ? & ?). exists tr. rewrite Ex, El', Ew, Eg, El, elem_of_app.
    by split_and!; [..|intros [?|?]| |].
  - unfold echo_done. rewrite Ex, El', Ew. intros [?|(_ & _ & ?)]; [by left|right].
    split_and!; [by eapply names_known|done|done].
Qed.

(** What a task of the server does: it and its children are in their places and
    hold what it held, or a stream that was waiting; other streams are not
    touched; whatever is shut down was echoed, and is not written again. *)
Definition acts (d d' : duplex) (ios : list io) (h : option Loc) (t' : task) (new : list task) : Prop :=
  ∃ h' hn, server_task d' t' h' ∧ Forall2 (server_task d') new hn ∧ NoDup (omap (λ h, h) (h' :: hn)) ∧
    (∀ loc, Some loc ∈ h' :: hn → h = Some loc ∨ loc ∈ waits (dx_there d)) ∧
    (∀ loc, loc ∈ sd_handles (dx_there d) → h ≠ Some loc → loc ∈ sd_handles (dx_there d')) ∧
    (∀ loc i, names (dx_there d) loc i → h ≠ Some loc → untouched i ios) ∧
    (∀ i, Shut i ∈ ios → echo_done d' i) ∧ (∀ i, Shut i ∈ dx_log_there d → wrote i ios = []).

(** A step that logs nothing. *)
Lemma acts_silent d d' h t' new h' hn :
  server_task d' t' h' → Forall2 (server_task d') new hn → NoDup (omap (λ h, h) (h' :: hn)) →
  (∀ loc, Some loc ∈ h' :: hn → h = Some loc ∨ loc ∈ waits (dx_there d)) →
  (∀ loc, loc ∈ sd_handles (dx_there d) → loc ∈ sd_handles (dx_there d')) → acts d d' [] h t' new.
Proof.
  intros. exists h', hn. split_and!; auto; [intros; apply untouched_nil|]. by intros i ?%elem_of_nil.
Qed.

(** The usual case: no child, the same stream held. *)
Lemma acts_on d d' h t' :
  server_task d' t' h → (∀ loc, loc ∈ sd_handles (dx_there d) → loc ∈ sd_handles (dx_there d')) →
  acts d d' [] h t' [].
Proof.
  intros Ht Hh. apply (acts_silent d d' h t' [] h []); auto.
  - destruct h; cbn; [apply NoDup_singleton|apply NoDup_nil_2].
  - intros loc [= ->]%list_elem_of_singleton. by left.
Qed.

(** A step of the copy. *)
Lemma copy_poll d d' cx loc i j c r :
  facts (turned d) → facts d → facts d' → names (dx_there d) loc i → loc ∈ sd_handles (dx_there d) →
  job_next j = inl c → reply_of c cx loc (sd_s (dx_there d)) = Some r →
  dx_here d' = dx_here d → dx_log_here d' = dx_log_here d →
  dx_log_there d' = dx_log_there d ++ polled_io c cx loc (sd_s (dx_there d)) →
  copying d j i →
  copying d' (job_answer j r) i ∧ Shut i ∉ dx_log_there d'.
Proof.
  intros Hf Hfd Hf' Hn Hin Hj Hr Ex El El' (tr & Hjob & Hw & Hg & Hs & He & Ht). pose proof Hn as (st & Hl & Hi).
  destruct (poll_logged Copy c cx loc (dx_there d) st r) as (Hfit & Pw & Pg & Ps & Pe & Pu);
    [apply Hf|done|by eapply job_asks|done|]. rewrite Hi in *.
  destruct (job_asks Copy tr j c Hjob Hj) as [Hne Hlane].
  assert (Shut i ∉ dx_log_there d') as Hs'.
  { rewrite El', elem_of_app. intros [?|E%Ps]; [done|]. rewrite E in Hlane. by destruct (lane_of c). }
  split; [|done]. exists (tr ++ [(c, r)]). rewrite taken_snoc, put_snoc, at_end_snoc, troubled_snoc.
  assert (put1 Second (c, r) = put1 (lane_of c) (c, r) ∧ taken1 First (c, r) = taken1 (lane_of c) (c, r)) as [-> ->]
    by (by destruct c as [[]|[]|[]|[]], r).
  assert (wrote i (dx_log_there d') = put Second tr ++ put1 (lane_of c) (c, r)) as Ew by (by rewrite El', wrote_app, Hw, Pw).
  assert (got i (dx_log_there d') = taken First tr ++ taken1 (lane_of c) (c, r)) as Eg by (by rewrite El', got_app, Hg, Pg).
  split_and!; [by apply runs_step|done|done|done| |].
  - rewrite Ex, El. intros [Hend|(room & Hroom & [= -> ->])].
    + destruct (He Hend) as [Hst E]. split; [done|]. rewrite E.
      pose proof (read_prefix d' i Hf') as Hp. rewrite El, E, Eg, Hg in Hp.
      rewrite Eg, Hg. apply prefix_length_eq; [by apply prefix_app_r|]. by apply prefix_length.
    + destruct (eof_facts (turned d) loc i) as (Hst & E & _); [done|by rewrite turned_turned|done..|by apply Pe|].
      split; [done|]. cbn in Eg |- *. rewrite Eg, app_nil_r, <- Hg. by symmetry.
  - rewrite Ex. intros [?|Hu]; [auto|]. rewrite <- Hi. apply (upset_facts (turned d) loc st); [done|done|by rewrite Hi|].
    by apply Pu.
Qed.

(** The end of the copy. *)
Lemma copy_over d j i r loc :
  names (dx_there d) loc i → ¬ v_own (view_of (dx_there d)) i →
  job_next j = inr r → copying d j i → echo_done d i.
Proof.
  intros Hn Hno Hj (tr & Hjob & Hw & Hg & Hs & He & Ht). destruct r as [vec|e].
  - left. destruct (job_achieves Copy tr j vec Hjob Hj) as [Hend E]. destruct (He Hend) as [? ->].
    split; [done|]. by rewrite Hw, E, <- Hg.
  - right. split_and!; [by eapply names_known|done|]. apply Ht. by eapply job_fails.
Qed.

Lemma echo_done_server d d' ios i :
  onward (dx_there d) (dx_there d') (dx_here d) ios → dx_here d' = dx_here d →
  dx_log_there d' = dx_log_there d ++ ios → dx_log_here d' = dx_log_here d →
  wrote i ios = [] → echo_done d i → echo_done d' i.
Proof.
  intros Ho Ex El El' Hw. unfold echo_done. rewrite Ex, El, El', wrote_app, Hw, app_nil_r.
  intros [?|((loc & st & ? & ?) & ? & ?)]; [by left|right]. rewrite (on_own _ _ _ _ Ho). split_and!; auto.
  apply (names_known _ loc), (on_names _ _ _ _ Ho). by exists st.
Qed.

(** A call on the stream that the task holds. *)
Lemma acts_stream d d' ios loc i t' h' :
  side_inv (dx_there d) → names (dx_there d) loc i → (∀ i', i' ≠ i → untouched i' ios) →
  server_task d' t' h' → h' = Some loc ∨ h' = None →
  (∀ loc', loc' ∈ sd_handles (dx_there d) → loc' ≠ loc → loc' ∈ sd_handles (dx_there d')) →
  (Shut i ∈ ios → echo_done d' i) → (Shut i ∈ dx_log_there d → wrote i ios = []) →
  acts d d' ios (Some loc) t' [].
Proof.
  intros Hy Hn Hu Ht Hh' Hh Hs Hw. exists h', []. split_and!; auto.
  - destruct h'; cbn; [apply NoDup_singleton|apply NoDup_nil_2].
  - intros loc' [= <-]%list_elem_of_singleton. destruct Hh'; simplify_eq. by left.
  - intros loc' i' Hn' Hne. apply Hu. intros ->. apply Hne. by rewrite (names_inj _ loc loc' i Hy).
  - intros i' Hin. destruct (decide (i' = i)) as [->|Hne]; [auto|]. by destruct (Hu i' Hne) as (_ & _ & ?).
  - intros i' Hin. destruct (decide (i' = i)) as [->|Hne]; [auto|]. by destruct (Hu i' Hne) as (? & _).
Qed.

(** [shutdown] and the drop of an echoed stream. *)
Lemma shut_acts (x y y' : side) o i lx ly loc u t' h' :
  let d := mk_duplex x y o i lx ly in
  let ios := user_io loc u (sd_s y) in
  let d' := mk_duplex x y' o i lx (ly ++ ios) in
  u = UShutdown ∨ u = UDrop → side_inv y → onward y y' x ios → h' = Some loc ∨ h' = None →
  (∀ loc', loc' ∈ sd_handles y → loc' ≠ loc → loc' ∈ sd_handles y') →
  (∀ j, names y' loc j → ¬ v_own (view_of y') j → echo_done d' j → server_task d' t' h') →
  serves d loc (echo_done d) → acts d d' ios (Some loc) t' [].
Proof.
  intros d ios d' Hu Hy Ho Hh' Hh Ht (j & (st & Hl & <-) & _ & Hno & Hd).
  assert (names y loc (id st)) as Hn by (by exists st).
  assert (ios = [Shut (id st)]) as E by (unfold ios; destruct Hu as [-> | ->]; cbn; unfold io_of; cbn in Hl; by rewrite Hl).
  assert (echo_done d' (id st)) as Hd' by (apply (echo_done_server d d' ios); auto; by rewrite E).
  apply (acts_stream d d' ios loc (id st) t' h'); auto; [| |by rewrite E].
  - intros i' Hne. by eapply user_io_other.
  - apply (Ht (id st)); [by apply (on_names _ _ _ _ Ho)|by rewrite (on_own _ _ _ _ Ho)|done].
Qed.

(** The task that copies a stream moves. *)
Lemma copy_acts ch n e (x y : side) o i lx ly loc j :
  let d := mk_duplex x y o i lx ly in
  let d' := mk_duplex x (e_side e) o i lx (ly ++ e_ios e) in
  known_facts d → known_facts d' →
  advance ch n (Await (OnStream loc) (OnStream loc) j (echo_rest loc), []) y = Some e →
  serves d loc (copying d j) → acts d d' (e_ios e) (Some loc) (e_task e) (e_spawned e).
Proof.
  intros d d' [Hfd Hft] [Hfd' _] Ha (i0 & Hn & Hh & Hno & Hc). pose proof (fa_inv _ Hft) as Hti.
  pose proof (advance_onward _ _ _ _ _ x i o ly lx Ha Hti) as Hon. destruct Hti as [Hy _ _ _ _]. cbn in Hy.
  revert Hfd' Hon. unfold d'. clear d'.
  destruct (advance_await _ _ _ _ _ _ _ _ _ Ha) as [r Hj|c r cx loc' y' Hj Hend Hin Hr Eh|c r m _ Hend _]; cbn.
  - rewrite app_nil_r. intros _ _. apply acts_on; [|done].
    assert (serves d loc (echo_done d)) as Hsv by (exists i0; split_and!; auto; by eapply copy_over).
    destruct r; [by apply S_finish|by apply S_errored].
  - intros Hfd' Hon. assert (loc' = loc) as -> by (unfold end_of in Hend; destruct (lane_of c); congruence).
    destruct (copy_poll d _ cx loc i0 j c r Hft Hfd Hfd') as [Hc' Hs']; auto.
    apply (acts_stream d _ _ loc i0 _ (Some loc)); [done|done|intros i' Hne; by eapply polled_other| |by left| | |].
    + apply S_copy. exists i0. cbn [dx_there]. rewrite Eh, (on_own _ _ _ _ Hon). split_and!; auto. by apply (on_names _ _ _ _ Hon).
    + intros loc2 ? _. cbn. by rewrite Eh.
    + intros Hs. destruct Hs'. cbn. set_solver.
    + intros Hs. by destruct Hc as (tr & _ & _ & _ & Hns & _).
  - unfold end_of in Hend. by destruct (lane_of c).
Qed.

(** [main] moves. *)
Lemma main_acts ch n t e (x y : side) o i lx ly :
  let d := mk_duplex x y o i lx ly in
  let d' := mk_duplex x (e_side e) o i lx (ly ++ e_ios e) in
  advance ch n t y = Some e → main_task t → acts d d' (e_ios e) None (e_task e) (e_spawned e).
Proof.
  intros d d' Ha Ht.
  assert (∀ t', main_task t' → e_side e = y → e_ios e = [] → e_task e = t' → e_spawned e = [] →
    acts d d' (e_ios e) None (e_task e) (e_spawned e)) as Hon.
  { intros t' Hm Es Ei -> ->. unfold d'. rewrite Es, Ei, app_nil_r. by apply acts_on; [apply S_main|]. }
  destruct y as [s hs op]. destruct Ht as [mine|mine|mine|mine|mine conn|mine conn|mine|mine|loops]; cbn in Ha.
  - destruct ch; try done. injection Ha as <-. eapply Hon; try done. destruct r; constructor.
  - injection Ha as <-. eapply Hon; try done. constructor.
  - injection Ha as <-. eapply Hon; try done. constructor.
  - destruct ch as [| |[[]|err]| |]; try done; injection Ha as <-; eapply Hon; try done; constructor.
  - destruct ch; try done. injection Ha as <-. eapply Hon; try done. destruct r; constructor.
  - injection Ha as <-. eapply Hon; try done. cbn. unfold serve_conn. destruct (conn =? mine)%nat; constructor.
  - injection Ha as <-. unfold d'. cbn. rewrite app_nil_r.
    apply (acts_silent _ _ _ _ _ None [None]); [apply S_main, M_continue| |apply NoDup_nil_2| |done].
    + constructor; [apply S_start|constructor].
    + by intros loc [[=]|[=]%list_elem_of_singleton]%elem_of_cons.
  - injection Ha as <-. eapply Hon; try done. constructor.
  - done.
Qed.

Lemma server_acts ch n t e (x y : side) o i lx ly h :
  let d := mk_duplex x y o i lx ly in
  let d' := mk_duplex x (e_side e) o i lx (ly ++ e_ios e) in
  known_facts d → known_facts d' → advance ch n t y = Some e → server_task d t h →
  acts d d' (e_ios e) h (e_task e) (e_spawned e).
Proof.
  intros d d' Hkf Hkf' Ha Ht. pose proof Hkf as [_ Hft]. pose proof (fa_inv _ Hft) as Hti. pose proof Hti as [Hy _ _ _ _].
  pose proof (advance_onward _ _ _ _ _ x i o ly lx Ha Hti) as Hon. cbn in Hy. clear Hti.
  assert (∀ loc j, t = (Await (OnStream loc) (OnStream loc) j (echo_rest loc), []) → serves d loc (copying d j) →
    acts d d' (e_ios e) (Some loc) (e_task e) (e_spawned e)) as Hcopy.
  { intros loc j -> Hsv. by apply (copy_acts ch n e x y o i lx ly loc j). }
  destruct y as [s hs op]. revert Hcopy Hon. unfold d'. clear d' Hkf'.
  destruct Ht as [| |rx|loc Hsv| | | | |loc j Hsv|loc err Hsv|loc Hsv|loc Hsv|t Hm]; cbn in Ha.
  - injection Ha as <-. cbn. rewrite app_nil_r. intros _ _. apply acts_on; [apply S_accept|done].
  - destruct ch; try done. injection Ha as <-. cbn. rewrite app_nil_r. intros _ _. apply acts_on; [|done].
    destruct (fst (accept_start s)); constructor.
  - destruct ch; try done. destruct (accept_poll rx s) as [r s'] eqn:E. injection Ha as <-. cbn.
    rewrite app_nil_r. intros _ Hon.
    destruct r as [[loc|err]|].
    + destruct (accept_brings rx (mk_side s hs op) (mk_side s' (hs ++ [loc]) op) x s' [] loc ly) as (Hw & j & Hn & Hno & Hu);
        [done..|apply (fa_unused _ Hft)|].
      apply (acts_silent _ _ _ _ _ (Some loc) []); [|done|apply NoDup_singleton| |cbn; set_solver].
      * apply S_spawn. exists j. cbn. split_and!; auto. set_solver.
      * intros loc' [= ->]%list_elem_of_singleton. by right.
    + apply acts_on; [constructor|cbn; set_solver].
    + apply acts_on; [constructor|cbn; set_solver].
  - injection Ha as <-. cbn. rewrite app_nil_r. intros _ _.
    apply (acts_silent _ _ _ _ _ None [Some loc]); [constructor| |apply NoDup_singleton| |done].
    + constructor; [|constructor]. apply (S_copy d loc (job_new Copy)).
      destruct Hsv as (j & ? & ? & ? & (Hw & Hg & Hs)). exists j. split_and!; auto.
      exists []. split_and!; auto; [constructor|by intros (? & _ & ?%elem_of_nil)|by intros (? & ?%elem_of_nil & _)].
    + intros loc' [[=]|[= ->]%list_elem_of_singleton]%elem_of_cons. by left.
  - injection Ha as <-. cbn. rewrite app_nil_r. intros _ _. apply acts_on; [apply S_accept|done].
  - injection Ha as <-. cbn. rewrite app_nil_r. intros _ _. apply acts_on; [apply S_break|done].
  - injection Ha as <-. cbn. rewrite app_nil_r. intros _ _. apply acts_on; [apply S_close|done].
  - done.
  - intros Hcopy _. by apply (Hcopy loc j).
  - injection Ha as <-. cbn. rewrite app_nil_r. intros _ _. apply acts_on; [by constructor|done].
  - destruct ch; try done. case_decide; [|done]. injection Ha as <-. cbn [e_side e_ios e_task e_spawned]. intros _ Hon.
    eapply (shut_acts x (mk_side s hs op) (mk_side (user_apply loc UShutdown s) hs op) o i lx ly loc UShutdown _ (Some loc)); auto.
    intros j Hn Hno Hd. apply S_drop. by exists j.
  - destruct ch; try done. case_decide; [|done]. injection Ha as <-. cbn [e_side e_ios e_task e_spawned]. intros _ Hon.
    eapply (shut_acts x (mk_side s hs op) (mk_side (user_apply loc UDrop s) (filter (.≠ loc) hs) op) o i lx ly loc UDrop _ None);
      eauto using S_main, M_return. intros loc' Hl Hne. by apply list_elem_of_filter.
  - intros _ _. exact (main_acts ch n t e x (mk_side s hs op) o i lx ly Ha Hm).
Qed.

Lemma server_holds_task d t loc : server_task d t (Some loc) → loc ∈ sd_handles (dx_there d).
Proof. remember (Some loc) as h eqn:Eh. destruct 1; simplify_eq; by match goal with H : serves _ _ _ |- _ => destruct H as (? & _ & ? & _) end. Qed.

Lemma server_step (x y y' : side) o i lx ly ios q q' :
  let d := mk_duplex x y o i lx ly in
  let d' := mk_duplex x y' o i lx (ly ++ ios) in
  known_facts d → known_facts d' → proc_step y q ios y' q' →
  server_ok d (pr_tasks q) → server_ok d' (pr_tasks q').
Proof.
  intros d d' Hf Hf' Hst [Hpool Hshut]. destruct Hst as [m ch t y q e Hm Ha].
  assert (onward y (e_side e) x (e_ios e)) as Hon.
  { eapply advance_onward; [exact Ha|]. apply (fa_inv _ (proj2 Hf)). }
  pose proof (λ h, server_acts ch _ t e x y o i lx ly h Hf Hf' Ha) as Hacts. fold d d' in Hacts. cbn [pr_tasks].
  constructor.
  - eapply pool_move; [exact Hpool|exact Hm|]. intros h Hh.
    destruct (Hacts h Hh) as (h' & hn & H1 & H2 & H3 & H4 & H5 & H6 & _). exists h', hn. split_and!; auto.
    + intros loc Hin. destruct (H4 loc Hin) as [?|Hw]; [by left|right]. intros t2 Hin2%server_holds_task.
      eapply (waits_not_held y); [|exact Hw|exact Hin2]. apply (di_there _ (fa_inv _ (proj1 Hf))).
    + intros t2 h2 Ht2 Hne. eapply server_task_on; [|exact Ht2]. intros loc ->.
      assert (h ≠ Some loc) as Hne' by (intros E; by apply (Hne loc)).
      eapply server_other; [exact Hon|done|done|done|by intros ?; apply H5|]. intros j Hn. by apply (H6 loc).
  - destruct (pool_lookup _ _ _ _ Hpool Hm) as (h & Hh).
    destruct (Hacts h Hh) as (h' & hn & _ & _ & _ & _ & _ & _ & H7 & H8).
    intros j [Hj|Hj]%elem_of_app; [|auto]. eapply (echo_done_server d); [exact Hon|done|done|done|auto|auto].
Qed.

Lemma server_idle d d' ts :
  idle_step (R := R) (turned d) (turned d') → known_facts d → server_ok d ts → server_ok d' ts.
Proof.
  intros Hi Hf [Hpool Hshut]. destruct (idle_onward _ _ Hi (fa_inv _ (proj2 Hf))) as (Hon & Ex & El & El' & Eh). cbn in *.
  rewrite <- (app_nil_r (dx_log_there d)) in El. constructor.
  - eapply pool_mono; [|exact Hpool]. intros t h. apply server_task_on. intros loc _.
    eapply server_other; [exact Hon|done|done|done|by rewrite Eh|]. intros j _. apply untouched_nil.
  - intros j. rewrite El, app_nil_r. intros Hj. eapply echo_done_server; [exact Hon|done|done|done|done|auto].
Qed.

(** ** The client *)

(** The lines it was given, the responses it printed, and what they should be. *)
Definition lines_of (v : list seen) : list (list byte) :=
  omap (λ e, match e with SawLine line => Some line | _ => None end) v.
Definition responses_of (v : list seen) : list (list byte) :=
  omap (λ e, match e with Printed (Response text) => Some text | _ => None end) v.
Definition echoes (lines : list (list byte)) : list (list byte) := (λ line, line ++ newline) <$> lines.

(** Every line was answered; every line but the last. *)
Definition answered (v : list seen) : Prop := responses_of v = echoes (lines_of v).
Definition asked (v : list seen) (line : list byte) : Prop := ∃ lines,
  lines_of v = lines ++ [line] ∧ responses_of v = echoes lines ∧ utf8 line.

(** The client holds, at [loc], a stream. *)
Definition holds_at (d : duplex) (loc : Loc) (F : StreamId → Prop) : Prop := ∃ i,
  names (dx_here d) loc i ∧ loc ∈ sd_handles (dx_here d) ∧ F i.

(** After [before], it writes [bytes] to stream [i]. *)
Definition sending (d : duplex) (before bytes : list byte) (j : J) (i : StreamId) : Prop := ∃ tr,
  job (WriteAll bytes) tr j ∧ wrote i (dx_log_here d) = before ++ put First tr ∧ got i (dx_log_here d) = [].

Definition has_sent (d : duplex) (bytes : list byte) (i : StreamId) : Prop :=
  wrote i (dx_log_here d) = bytes ∧ got i (dx_log_here d) = [].

(** It reads stream [i]; at the end, it has what it wrote. *)
Definition reading (d : duplex) (bytes : list byte) (j : J) (i : StreamId) : Prop := ∃ tr,
  job ReadToEnd tr j ∧ wrote i (dx_log_here d) = bytes ∧ got i (dx_log_here d) = taken First tr ∧
  (at_end First tr → settled (dx_there d) i ∧ got i (dx_log_here d) = wrote i (dx_log_there d) ∧
     got i (dx_log_here d) = bytes).

(** The places in the program. *)
Definition after_read (loc : Loc) : IoResult (list byte) → prog :=
  or_leave (Drop loc Return) (λ response, Show (Response (from_utf8_lossy response)) (Drop loc Continue)).
Definition after_shutdown (loc : Loc) : IoResult unit → prog :=
  or_leave (Drop loc Return) (λ _, read_to_end loc (after_read loc)).
Definition after_newline (loc : Loc) : IoResult (list byte) → prog :=
  or_leave (Drop loc Return) (λ _, Shutdown loc (after_shutdown loc)).
Definition after_line (loc : Loc) : IoResult (list byte) → prog :=
  or_leave (Drop loc Return) (λ _, write_all loc newline (after_newline loc)).
Definition after_open (line : list byte) : MuxResult Loc → prog := or_leave Return (send_line line).
Definition next_line : prog :=
  NextLine (or_leave Return (λ line, match line with Some line => Open (after_open line) | None => Break end)).
Definition line_loop : list (prog * prog) := [(next_line, Close Return)].

Inductive client_task (d : duplex) (v : list seen) : task → Prop :=
| C_connect : answered v → client_task d v (tcp_client_main, [])
| C_nodelay : answered v →
    client_task d v (Sys (or_leave Return (λ _, Loop next_line (Close Return))), [])
| C_loop : answered v → client_task d v (Loop next_line (Close Return), [])
| C_next : answered v → client_task d v (next_line, line_loop)
| C_open line : asked v line → client_task d v (Open (after_open line), line_loop)
| C_opening line i loc : asked v line → client_task d v (Opening i loc (after_open line), line_loop)
| C_line line loc j :
    asked v line → holds_at d loc (sending d [] line j) →
    client_task d v (Await (OnStream loc) (OnStream loc) j (after_line loc), line_loop)
| C_newline line loc j :
    asked v line → holds_at d loc (sending d line newline j) →
    client_task d v (Await (OnStream loc) (OnStream loc) j (after_newline loc), line_loop)
| C_shutdown line loc :
    asked v line → holds_at d loc (has_sent d (line ++ newline)) →
    client_task d v (Shutdown loc (after_shutdown loc), line_loop)
| C_read line loc j :
    asked v line → holds_at d loc (reading d (line ++ newline) j) →
    client_task d v (Await (OnStream loc) (OnStream loc) j (after_read loc), line_loop)
| C_show line loc :
    asked v line → client_task d v (Show (Response (line ++ newline)) (Drop loc Continue), line_loop)
| C_drop loc : answered v → client_task d v (Drop loc Continue, line_loop)
| C_continue : answered v → client_task d v (Continue, line_loop)
| C_break : answered v → client_task d v (Break, line_loop)
| C_close : answered v → client_task d v (Close Return, [])
| C_leave line loc : asked v line → client_task d v (Drop loc Return, line_loop)
| C_return loops : answered v ∨ (∃ line, asked v line) → client_task d v (Return, loops).

(** Steps that do not touch the streams the client holds. *)
Lemma client_task_on d d' v t :
  (∀ loc i, names (dx_here d) loc i → names (dx_here d') loc i) →
  sd_handles (dx_here d') = sd_handles (dx_here d) → dx_log_here d' = dx_log_here d →
  (∀ i, settled (dx_there d) i →
     settled (dx_there d') i ∧ wrote i (dx_log_there d') = wrote i (dx_log_there d)) →
  client_task d v t → client_task d' v t.
Proof.
  intros Hn Hh Hl Hs.
  assert (∀ loc (F F' : StreamId → Prop), (∀ i, F i → F' i) → holds_at d loc F → holds_at d' loc F') as Hho.
  { intros loc F F' HF (i & ? & ? & ?). exists i. rewrite Hh. auto. }
  assert (∀ bs bs' j i, sending d bs bs' j i → sending d' bs bs' j i) as Hse.
  { intros bs bs' j i (tr & ? & ? & ?). exists tr. by rewrite Hl. }
  assert (∀ bs i, has_sent d bs i → has_sent d' bs i) as Hst by (intros bs i; unfold has_sent; by rewrite Hl).
  assert (∀ bs j i, reading d bs j i → reading d' bs j i) as Hre.
  { intros bs j i (tr & ? & ? & ? & He). exists tr. rewrite Hl. split_and!; auto.
    intros (Hset & ? & ?)%He. destruct (Hs i Hset) as [? ->]. done. }
  destruct 1; econstructor; eauto.
Qed.

(** What is seen besides lines and responses does not matter. *)
Lemma seen_quiet v w :
  lines_of w = [] → responses_of w = [] →
  (answered v → answered (v ++ w)) ∧ (∀ line, asked v line → asked (v ++ w) line).
Proof.
  intros Hl Hr. unfold answered, asked. unfold lines_of, responses_of in *. rewrite !omap_app, Hl, Hr, !app_nil_r. auto.
Qed.

(** A line comes in; its response is printed. *)
Lemma asked_line v line : answered v → utf8 line → asked (v ++ [SawLine line]) line.
Proof.
  intros Ha Hu. exists (lines_of v). unfold lines_of, responses_of. rewrite !omap_app. cbn. by rewrite app_nil_r.
Qed.
Lemma answered_line v line : asked v line → answered (v ++ [Printed (Response (line ++ newline))]).
Proof.
  intros (lines & Hl & Hr & _). unfold answered, lines_of, responses_of. rewrite !omap_app.
  fold (lines_of v) (responses_of v). rewrite Hl, Hr. unfold echoes. cbn. by rewrite app_nil_r, fmap_app.
Qed.

(** The client polls the stream it holds. *)
Lemma client_polls h (d d' : duplex) cx loc i j c r tr :
  facts d → names (dx_here d) loc i → job h tr j → job_next j = inl c →
  reply_of c cx loc (sd_s (dx_here d)) = Some r →
  dx_log_here d' = dx_log_here d ++ polled_io c cx loc (sd_s (dx_here d)) →
  job h (tr ++ [(c, r)]) (job_answer j r) ∧ asks h c ∧
  wrote i (dx_log_here d') = wrote i (dx_log_here d) ++ put1 (lane_of c) (c, r) ∧
  got i (dx_log_here d') = got i (dx_log_here d) ++ taken1 (lane_of c) (c, r) ∧
  (r = RRead [] → at_eof (dx_here d) loc).
Proof.
  intros Hf (st & Hl & <-) Hjob Hj Hr El. pose proof (job_asks h tr j c Hjob Hj) as Ha.
  destruct (poll_logged h c cx loc (dx_here d) st r) as (Hfit & Pw & Pg & _ & Pe & _); [apply Hf|done..|].
  rewrite El, wrote_app, got_app, Pw, Pg. split_and!; auto. by apply runs_step.
Qed.

Lemma sending_polls d d' cx loc i j c r before bytes :
  facts d → names (dx_here d) loc i → job_next j = inl c →
  reply_of c cx loc (sd_s (dx_here d)) = Some r →
  dx_log_here d' = dx_log_here d ++ polled_io c cx loc (sd_s (dx_here d)) →
  sending d before bytes j i → sending d' before bytes (job_answer j r) i.
Proof.
  intros Hf Hn Hj Hr El (tr & Hjob & Hw & Hg).
  destruct (client_polls _ d d' cx loc i j c r tr Hf Hn Hjob Hj Hr El) as (Hjob' & [_ Ha] & Ew & Eg & _).
  exists (tr ++ [(c, r)]). rewrite put_snoc, Ew, Eg, Hw, Hg. split; [done|].
  destruct c as [e room|[] buf|e|e]; try done. cbn [lane_of]. by rewrite app_assoc.
Qed.

Lemma reading_polls d d' cx loc i j c r bytes ts :
  facts d → facts (turned d) → facts (turned d') → server_ok d ts →
  names (dx_here d) loc i → loc ∈ sd_handles (dx_here d) → job_next j = inl c →
  reply_of c cx loc (sd_s (dx_here d)) = Some r →
  dx_there d' = dx_there d → dx_log_there d' = dx_log_there d →
  dx_log_here d' = dx_log_here d ++ polled_io c cx loc (sd_s (dx_here d)) →
  reading d bytes j i → reading d' bytes (job_answer j r) i.
Proof.
  intros Hf Hft Hft' Hsv Hn Hh Hj Hr Ey Ely El (tr & Hjob & Hw & Hg & He).
  destruct (client_polls _ d d' cx loc i j c r tr Hf Hn Hjob Hj Hr El) as (Hjob' & [_ Ha] & Ew & Eg & Hend).
  destruct c as [[] room|e buf|e|e]; try done. cbn [lane_of] in Ew, Eg.
  exists (tr ++ [(CRead First room, r)]). rewrite taken_snoc, at_end_snoc, Ey, Ely.
  split_and!; [done|by rewrite Ew, Hw, app_nil_r|by rewrite Eg, Hg|]. intros [Hold|(room' & Hroom & [= -> ->])].
  - destruct (He Hold) as (Hset & E1 & E2). split; [done|].
    assert (got i (dx_log_here d') = got i (dx_log_here d)) as ->; [|done].
    pose proof (read_prefix (turned d') i Hft') as Hp. unfold turned in Hp. cbn [dx_log_here dx_log_there] in Hp. rewrite Ely, <- E1 in Hp.
    symmetry. rewrite Eg in Hp |- *. apply prefix_length_eq; [by apply prefix_app_r|by apply prefix_length].
  - destruct (eof_facts d loc i) as (Hset & E & Hs & Hu); auto. cbn in Eg. rewrite app_nil_r in Eg. rewrite Eg.
    split_and!; auto. destruct (so_shut _ _ Hsv i Hs) as [[_ E']|(_ & _ & ?)]; [|done]. by rewrite E, E'.
Qed.

(** The client waits for a helper. *)
Lemma client_awaits ch n j loc (k : IoResult (list byte) → prog) e (x y : side) o i lx ly v F F' :
  let d := mk_duplex x y o i lx ly in
  let d' := mk_duplex (e_side e) y o i (lx ++ e_ios e) ly in
  advance ch n (Await (OnStream loc) (OnStream loc) j k, line_loop) x = Some e →
  onward x (e_side e) y (e_ios e) → holds_at d loc F →
  (∀ r, job_next j = inr r → (e_side e = x ∧ e_ios e = []) → client_task d v (k r, line_loop)) →
  (∀ c cx r i, job_next j = inl c → reply_of c cx loc (sd_s x) = Some r →
     dx_log_here d' = dx_log_here d ++ polled_io c cx loc (sd_s x) → names x loc i → loc ∈ sd_handles x →
     F i → F' (job_answer j r) i) →
  (∀ j', holds_at d' loc (F' j') → client_task d' v (Await (OnStream loc) (OnStream loc) j' k, line_loop)) →
  client_task d' v (e_task e) ∧ e_spawned e = [] ∧ lines_of (e_seen e) = [] ∧ responses_of (e_seen e) = [].
Proof.
  intros d d' Ha Hon (i0 & Hn & Hh & HF) Hover Hpoll Hgo. revert Hon Hover Hpoll Hgo. unfold d'. clear d'.
  destruct (advance_await _ _ _ _ _ _ _ _ _ Ha) as [r Hj|c r cx loc' x' Hj Hend Hin Hr Eh|c r m _ Hend _]; cbn.
  - rewrite app_nil_r. intros _ Hover _ _. split_and!; auto.
  - assert (loc' = loc) as -> by (unfold end_of in Hend; destruct (lane_of c); congruence).
    intros Hon _ Hpoll Hgo. split_and!; auto. apply Hgo. exists i0. cbn [dx_here]. rewrite Eh.
    split_and!; auto; [by apply (on_names _ _ _ _ Hon)|by eapply Hpoll].
  - unfold end_of in Hend. by destruct (lane_of c).
Qed.

Lemma client_task_seen d v w t :
  lines_of w = [] → responses_of w = [] → client_task d v t → client_task d (v ++ w) t.
Proof.
  intros Hl Hr. destruct (seen_quiet v w Hl Hr) as [Ha Hb]. destruct 1; econstructor; eauto.
  destruct H as [?|[line ?]]; eauto.
Qed.

Lemma utf8_newline : utf8 newline.
Proof. apply (bool_decide_unpack _). vm_compute. done. Qed.

(** The client sends the line, the newline, and reads the answer. *)
Lemma client_streams ch n t e (x y : side) o i lx ly v ts :
  let d := mk_duplex x y o i lx ly in
  let d' := mk_duplex (e_side e) y o i (lx ++ e_ios e) ly in
  known_facts d → known_facts d' → server_ok d ts → advance ch n t x = Some e → client_task d v t →
  (∃ loc j k, t = (Await (OnStream loc) (OnStream loc) j k, line_loop)) →
  client_task d' v (e_task e) ∧ e_spawned e = [] ∧ lines_of (e_seen e) = [] ∧ responses_of (e_seen e) = [].
Proof.
  intros d d' [Hf Hft] [Hf' Hft'] Hsv Ha Ht (loc & j & k & ->).
  pose proof (advance_onward _ _ _ _ _ y o i lx ly Ha (fa_inv _ Hf)) as Hon.
  inversion Ht as [| | | | | |line ? ? Hv Hho|line ? ? Hv Hho| |line ? ? Hv Hho| | | | | | |]; subst.
  - eapply (client_awaits _ _ _ _ _ _ _ _ _ _ _ _ v _ (λ j', sending d' [] line j')); [exact Ha|exact Hon|exact Hho|..].
    + intros [vec|err] Hj _; [|by eapply C_leave]. apply (C_newline d v line loc (job_new (WriteAll newline))); [done|].
      destruct Hho as (i0 & ? & ? & (tr & Hjob & Hw & Hg)). exists i0. split_and!; auto. exists [].
      pose proof (job_achieves _ _ _ _ Hjob Hj) as E. cbn in E. split_and!; [constructor| |done]. by rewrite Hw, E, app_nil_r.
    + intros c cx r i0 Hj Hr El Hn Hh. by eapply sending_polls.
    + intros j' Hho'. by eapply C_line.
  - eapply (client_awaits _ _ _ _ _ _ _ _ _ _ _ _ v _ (λ j', sending d' line newline j')); [exact Ha|exact Hon|exact Hho|..].
    + intros [vec|err] Hj _; [|by eapply C_leave]. apply (C_shutdown d v line loc); [done|].
      destruct Hho as (i0 & ? & ? & (tr & Hjob & Hw & Hg)). exists i0. split_and!; auto.
      pose proof (job_achieves _ _ _ _ Hjob Hj) as E. cbn in E. split; [by rewrite Hw, E|done].
    + intros c cx r i0 Hj Hr El Hn Hh. by eapply sending_polls.
    + intros j' Hho'. by eapply C_newline.
  - eapply (client_awaits _ _ _ _ _ _ _ _ _ _ _ _ v _ (λ j', reading d' (line ++ newline) j')); [exact Ha|exact Hon|exact Hho|..].
    + intros [vec|err] Hj _; [|by eapply C_leave].
      destruct Hho as (i0 & ? & ? & (tr & Hjob & Hw & Hg & He)).
      destruct (job_achieves _ _ _ _ Hjob Hj) as [(_ & _ & E)%He ->]. rewrite <- Hg, E. cbn.
      pose proof Hv as (_ & _ & _ & Hu). rewrite from_utf8_lossy_id by (apply utf8_app; [done|apply utf8_newline]). by apply C_show.
    + intros c cx r i0 Hj Hr El Hn Hh. apply (reading_polls d d' cx loc i0 j c r _ ts Hf Hft Hft' Hsv Hn Hh Hj Hr eq_refl eq_refl El).
    + intros j' Hho'. by eapply C_read.
Qed.

(** [open] has brought a stream: the line is sent on it. *)
Lemma client_opened (x x' y : side) o i lx ly v line j loc :
  facts (mk_duplex x y o i lx ly) → (j, loc) ∈ sd_opening x → onward x x' y [] → sd_handles x' = sd_handles x ++ [loc] →
  asked v line → client_task (mk_duplex x' y o i lx ly) v (send_line line loc, line_loop).
Proof.
  intros Hf Hop Ho Hh Hv. destruct (open_brings x x' y j loc [] lx) as (_ & Hn & Hw & Hg & _);
    [done|apply (fa_inv _ Hf)|done|apply (fa_unused _ Hf)|].
  apply (C_line _ v line loc (job_new (WriteAll line))); [done|]. exists j. cbn [dx_here]. rewrite Hh.
  split_and!; [done|set_solver|]. exists []. split_and!; [constructor|done|done].
Qed.

Lemma client_acts ch n t e (x y : side) o i lx ly v ts :
  let d := mk_duplex x y o i lx ly in
  let d' := mk_duplex (e_side e) y o i (lx ++ e_ios e) ly in
  known_facts d → known_facts d' → server_ok d ts → advance ch n t x = Some e → client_task d v t →
  client_task d' (v ++ e_seen e) (e_task e) ∧ e_spawned e = [].
Proof.
  intros d d' Hkf Hkf' Hsv Ha Ht. pose proof Hkf as [Hf _].
  pose proof (advance_onward _ _ _ _ _ y o i lx ly Ha (fa_inv _ Hf)) as Hon.
  assert ((∃ loc j k, t = (Await (OnStream loc) (OnStream loc) j k, line_loop)) →
    client_task d' (v ++ e_seen e) (e_task e) ∧ e_spawned e = []) as Hstream.
  { intros Hs. destruct (client_streams ch n t e x y o i lx ly v ts Hkf Hkf' Hsv Ha Ht Hs) as (? & ? & ? & ?).
    split; [by apply client_task_seen|done]. }
  destruct x as [s hs op].
  destruct Ht as [Hv|Hv|Hv|Hv|line Hv|line j loc Hv|line loc j Hv Hho|line loc j Hv Hho|line loc Hv Hho|line loc j Hv Hho
    |line loc Hv|loc Hv|Hv|Hv|Hv|line loc Hv|loops Hv]; cbn in Ha; try (by apply Hstream; eauto);
    clear Hstream Hkf'; unfold d'; clear d'.
  - destruct ch; try done. injection Ha as <-. cbn. rewrite !app_nil_r. split; [|done].
    destruct r; [by apply C_nodelay|apply C_return; by left].
  - destruct ch; try done. injection Ha as <-. cbn. rewrite !app_nil_r. split; [|done].
    destruct r; [by apply C_loop|apply C_return; by left].
  - injection Ha as <-. cbn. rewrite !app_nil_r. split; [by apply C_next|done].
  - destruct ch as [| | |[[line|]|err]|]; try done.
    + case_decide; [|done]. injection Ha as <-. cbn. rewrite app_nil_r. split; [|done]. by apply C_open, asked_line.
    + injection Ha as <-. cbn. rewrite !app_nil_r. split; [by apply C_break|done].
    + injection Ha as <-. cbn. rewrite !app_nil_r. split; [apply C_return; by left|done].
  - destruct ch; try done. destruct (open_start s) as [[[j loc]|err] s'] eqn:E; injection Ha as <-; cbn;
      rewrite !app_nil_r; (split; [|done]); [by apply C_opening|apply C_return; eauto].
  - destruct ch; try done; (case_decide as Hop; [|done]).
    + destruct (open_poll cx loc s) as [[[r|]|] s1]; try done.
      * destruct r as [[]|err]; cbn in Ha; injection Ha as <-; cbn in Hon |- *; rewrite !app_nil_r;
          (split; [|done]); [by eapply client_opened|apply C_return; eauto].
      * injection Ha as <-. cbn. rewrite !app_nil_r. split; [by apply C_opening|done].
    + injection Ha as <-. cbn. rewrite !app_nil_r. split; [apply C_return; eauto|done].
  - destruct ch; try done. case_decide; [|done]. injection Ha as <-. cbn [e_side e_ios e_task e_spawned e_seen] in Hon |- *.
    rewrite app_nil_r. split; [|done]. destruct Hho as (i0 & Hn & Hh & Hw & Hg).
    apply (C_read _ v line loc (job_new ReadToEnd)); [done|]. exists i0. cbn [dx_here dx_log_here].
    split_and!; [by apply (on_names _ _ _ _ Hon)|done|]. exists [].
    pose proof Hn as (st & Hl & Hi). cbn in Hl. unfold io_of. unfold d in Hw, Hg. cbn [dx_log_here] in Hw, Hg |- *.
    rewrite Hl, wrote_app, got_app, Hw, Hg.
    split_and!; [constructor|by rewrite app_nil_r|done|]. by intros (? & _ & ?%elem_of_nil).
  - injection Ha as <-. cbn. rewrite app_nil_r. split; [|done]. by apply C_drop, answered_line.
  - destruct ch; try done. case_decide; [|done]. injection Ha as <-. cbn. rewrite app_nil_r. split; [by apply C_continue|done].
  - injection Ha as <-. cbn. rewrite !app_nil_r. split; [by apply C_next|done].
  - injection Ha as <-. cbn. rewrite !app_nil_r. split; [by apply C_close|done].
  - destruct ch; try done. case_decide; [|done]. injection Ha as <-. cbn. rewrite app_nil_r. split; [apply C_return; eauto|done].
Qed.

(** ** Both *)

Record echo_inv (n : net) : Prop := {
  ei_client : ∃ t, pr_tasks (n_here n) = [t] ∧ client_task (n_d n) (pr_seen (n_here n)) t;
  ei_server : server_ok (n_d n) (pr_tasks (n_there n));
}.

Lemma echo_start mine : echo_inv (net_new tcp_client_main (tcp_server_main mine)).
Proof.
  constructor.
  - eexists. split; [done|]. by apply C_connect.
  - constructor; [eapply pool_single, S_main, M_bind|]. by intros i ?%elem_of_nil.
Qed.

Lemma echo_here n n' :
  net_half n n' → known_facts (n_d n) → known_facts (n_d n') → echo_inv n → echo_inv n'.
Proof.
  intros Hst Hf Hf' [(t & Ets & Ht) Hsv]. destruct Hst as [x ios x' y o i lx ly p p' q Hp|d d' p q Hi]; cbn in *.
  - destruct Hp as [m ch t' x p e Hm Ha]. rewrite Ets in Hm. apply list_lookup_singleton_Some in Hm as [-> ->].
    pose proof (advance_onward _ _ _ _ _ y o i lx ly Ha (fa_inv _ (proj1 Hf))) as Hon.
    destruct (client_acts ch (pr_socks p) t' e x y o i lx ly (pr_seen p) (pr_tasks q)) as [Hc Hs]; auto.
    constructor; [|by eapply (server_client (mk_duplex x y o i lx ly))].
    exists (e_task e). cbn. by rewrite Ets, Hs.
  - destruct (idle_onward d d' Hi (fa_inv _ (proj1 Hf))) as (Hon & Ey & El & El' & Eh). constructor; cbn.
    + exists t. split; [done|]. eapply (client_task_on d); auto; [apply Hon|]. intros j Hj. by rewrite Ey, El'.
    + eapply (server_client d d' []); auto. by rewrite app_nil_r.
Qed.

Lemma echo_there n n' :
  net_half (swapped n) (swapped n') → known_facts (n_d n) → known_facts (n_d n') → echo_inv n → echo_inv n'.
Proof.
  intros Hst Hf Hf' [(t & Ets & Ht) Hsv]. destruct n as [[x y o i lx ly] p q], n' as [[x' y' o' i' lx' ly'] p' q'].
  unfold swapped, turned in Hst. cbn in *. inversion Hst as [? ios ? ? ? ? ? ? ? ? ? Hp|? ? ? ? Hi]; subst.
  - constructor; [|by eapply server_step].
    exists t. split; [done|]. eapply (client_task_on (mk_duplex x' y o' i' lx' ly)); auto.
    cbn [dx_there dx_log_there]. intros j Hj.
    destruct Hp as [m ch t' y q e _ Ha].
    pose proof (advance_onward _ _ _ _ _ x' i' o' ly lx' Ha (fa_inv _ (proj2 Hf))) as Hon.
    destruct (on_settled _ _ _ _ Hon j Hj) as [Hs' Hw]. split; [exact Hs'|]. cbn [n_d dx_log_there].
    by rewrite wrote_app, Hw, app_nil_r.
  - change (idle_step (R := R) (turned (mk_duplex x y o i lx ly)) (turned (mk_duplex x' y' o' i' lx' ly'))) in Hi.
    destruct (idle_onward _ _ Hi (fa_inv _ (proj2 Hf))) as (Hon & Ex & El & El' & Eh). cbn in *. subst x' ly' lx'.
    constructor; [|by eapply server_idle]. exists t. split; [done|].
    eapply (client_task_on (mk_duplex x y o i lx ly)); auto. intros j Hj.
    by destruct (on_settled _ _ _ _ Hon j Hj).
Qed.

(** C2: The echo programs echo.  [examples/tcp_client.rs] and
    [examples/tcp_server.rs] run over two sessions with the default configuration,
    the client's connection being any one the server accepts; tasks, polls and
    frames interleave in any way.  The run is looked at while the connection holds
    and both sessions are open: no failure, close, reset or keepalive timeout, and no
    poll that overlaps the delivery of a frame; it ends when [main] returns or closes
    the session.  At every moment of it, what the client has printed is, for each line
    it was given except possibly the last, that line and a newline, in order: no
    response is cut short, mixed up with another or printed for a stream that failed.
    Without these conditions a read can report the end of a stream early, and the
    client then prints a response that is cut short. *)
Theorem echo_correct mine n :
  net_reachable tcp_client_main (tcp_server_main mine) n →
  ∃ lines, responses_of (pr_seen (n_here n)) = echoes lines ∧
    (lines_of (pr_seen (n_here n)) = lines ∨ ∃ line, lines_of (pr_seen (n_here n)) = lines ++ [line]).
Proof.
  intros Hr. assert (echo_inv n) as [(t & _ & Ht) _].
  { revert n Hr. apply net_induction; [apply echo_start|exact echo_here|exact echo_there]. }
  assert (answered (pr_seen (n_here n)) ∨ ∃ line, asked (pr_seen (n_here n)) line) as [Ha|(line & lines & Hl & Hs & _)]
    by (destruct Ht; eauto); eauto.
Qed.

End Echo.
