(* ===== verification/Tunnel.v ===== *)
(** * The reverse tunnel ([examples/forward_server.rs], [examples/forward_client.rs])

    The server opens a stream for every connection it is given and copies bytes
    both ways; the client connects every stream it accepts to a local service and
    copies bytes both ways.  The theorems: what comes out at one end of a tunnel is
    what went in at the other, and all of it when both copies succeed. *)

From S2P Require Import Prelude Machine Errors Config Ids Frames Header Codec Crates Window.
From S2P Require Import StreamState RecvBuffer StreamInner StreamFacts StreamInv Session Reader Api.
From S2P Require Import FlowControl Keepalive Writer SessionInv System Dispatch Pair Duplex Endpoints.
From S2P Require Import Transparency Lifecycle Users Utf8 Tokio Programs Processes.
From Stdlib Require Import ZArith Lia.

#[global] Instance endpoint_eq_dec : EqDecision endpoint.
Proof. solve_decision. Defined.

(** ** What a process was seen to exchange *)

(** The two ends of a copy; [ls] is the place of the stream: the client of the
    tunnel has it first, the server second. *)
Definition port (ls : lane) (loc : Loc) (k : nat) : endpoint * endpoint :=
  match ls with First => (OnStream loc, OnSock k) | Second => (OnSock k, OnStream loc) end.

Definition ends_of (e : seen) : option (endpoint * endpoint) :=
  match e with Polled a b _ _ | Finished a b _ => Some (a, b) | _ => None end.

Definition about (ab : endpoint * endpoint) (v : list seen) : list seen := filter (λ e, ends_of e = Some ab) v.

(** The polls between two ends. *)
Definition exchanges (ab : endpoint * endpoint) (v : list seen) : trace :=
  omap (λ e, match e with Polled _ _ c r => Some (c, r) | _ => None end) (about ab v).

Lemma port_inj ls loc k loc' k' : port ls loc k = port ls loc' k' → loc = loc' ∧ k = k'.
Proof. destruct ls; by intros [= -> ->]. Qed.

Lemma about_app ab v w : about ab (v ++ w) = about ab v ++ about ab w.
Proof. apply list.filter_app. Qed.

Lemma exchanges_app ab v w : exchanges ab (v ++ w) = exchanges ab v ++ exchanges ab w.
Proof. unfold exchanges. by rewrite about_app, omap_app. Qed.

Lemma exchanges_blank ab v : about ab v = [] → exchanges ab v = [].
Proof. unfold exchanges. by intros ->. Qed.

Lemma about_other ab e : ends_of e ≠ Some ab → about ab [e] = [].
Proof. intros H. unfold about. by rewrite filter_cons_False. Qed.

Lemma exchanges_polled a b c r : exchanges (a, b) [Polled a b c r] = [(c, r)].
Proof. unfold exchanges, about. by rewrite filter_cons_True. Qed.
Lemma exchanges_finished ab a b r : exchanges ab [Finished a b r] = [].
Proof. unfold exchanges, about. rewrite filter_cons. by case_decide. Qed.

Section Tunnel.
Context {BF : BitflagsOps}.
Context {W : Type} {AW : AtomicWakerOps W}.
Context {C : Type → Type} {CH : UnboundedChannelOps C}.
Context {X R : Type} {WO : WatchOps X R}.
Context {DO : DrainOrder}.
Context {J : Type} {TK : TokioIo J}.

Abbreviation side := (side (W := W) (C := C) (X := X)).
Abbreviation duplex := (duplex (W := W) (C := C) (X := X)).
Abbreviation prog := (prog (R := R) (J := J)).
Abbreviation task := (prog * list (prog * prog))%type.
Abbreviation net := (net (W := W) (C := C) (X := X) (R := R) (J := J)).

(** ** The streams of a process

    The process is [dx_here]. *)

(** Stream [i] at [loc] carries what socket [k] exchanges with it: the log of the
    session is the log of the copy, the copy is faithful, it sees the end of the
    stream only when all was read, and when it succeeds it has moved everything. *)
Record wire (ls : lane) (d : duplex) (v : list seen) (loc : Loc) (i : StreamId) (k : nat) : Prop := {
  wi_wrote : wrote i (dx_log_here d) = put ls (exchanges (port ls loc k) v);
  wi_got : got i (dx_log_here d) = taken ls (exchanges (port ls loc k) v);
  wi_conveys : conveys CopyBidirectional (exchanges (port ls loc k) v);
  wi_end : at_end ls (exchanges (port ls loc k) v) →
    settled (dx_there d) i ∧ got i (dx_log_here d) = wrote i (dx_log_there d);
  wi_done : ∀ vec, Finished (port ls loc k).1 (port ls loc k).2 (Ok vec) ∈ v →
    achieves CopyBidirectional (exchanges (port ls loc k) v) vec;
  wi_only : ∀ k', k' ≠ k → about (port ls loc k') v = [];
}.

Record wired (ls : lane) (d : duplex) (v : list seen) : Prop := {
  wd_wire : ∀ loc i, names (dx_here d) loc i → ∃ k, wire ls d v loc i k;
  wd_named : ∀ loc k, about (port ls loc k) v ≠ [] → ∃ i, names (dx_here d) loc i;
  wd_waits : ∀ loc k, loc ∈ waits (dx_here d) → about (port ls loc k) v = [];
}.

(** A stream that no copy has touched. *)
Lemma wire_blank ls d v loc i k :
  wrote i (dx_log_here d) = [] → got i (dx_log_here d) = [] →
  (∀ k', about (port ls loc k') v = []) → wire ls d v loc i k.
Proof.
  intros Hw Hg Hb. pose proof (exchanges_blank _ _ (Hb k)) as E. constructor; rewrite ?E; auto; try done.
  - by intros (? & _ & ?%elem_of_nil).
  - intros vec Hin. exfalso. apply (not_elem_of_nil (Finished (port ls loc k).1 (port ls loc k).2 (Ok vec))).
    rewrite <- (Hb k). apply list_elem_of_filter. split; [|done]. by destruct ls.
Qed.

(** The socket of a stream that only one socket has touched. *)
Lemma wire_at ls d v loc i k k0 :
  wire ls d v loc i k0 → (∀ k', k' ≠ k → about (port ls loc k') v = []) → wire ls d v loc i k.
Proof.
  intros Hw Hb. destruct (decide (k = k0)) as [->|Hne]; [done|].
  pose proof (exchanges_blank _ _ (Hb k0 ltac:(done))) as E.
  apply wire_blank; [by rewrite (wi_wrote _ _ _ _ _ _ Hw), E|by rewrite (wi_got _ _ _ _ _ _ Hw), E|].
  intros k'. destruct (decide (k' = k0)) as [->|]; [by apply Hb|by apply (wi_only _ _ _ _ _ _ Hw)].
Qed.

(** The peer moves. *)
Lemma wired_peer ls d d' v ios :
  onward (dx_there d) (dx_there d') (dx_here d) ios → dx_here d' = dx_here d →
  dx_log_here d' = dx_log_here d → dx_log_there d' = dx_log_there d ++ ios →
  wired ls d v → wired ls d' v.
Proof.
  intros Ho Ex El Ely [H1 H2 H3]. constructor; rewrite ?Ex; auto. intros loc i Hn.
  destruct (H1 loc i Hn) as (k & [W1 W2 W3 W4 W5 W6]). exists k. constructor; rewrite ?El; auto.
  intros (Hs & E)%W4. destruct (on_settled _ _ _ _ Ho i Hs) as [? Hw]. by rewrite Ely, wrote_app, Hw, app_nil_r.
Qed.

(** The process moves: it touches the stream at [loc] at most, and what is seen is
    about that stream. *)
Lemma wired_step ls d d' v w ios (held : option Loc) :
  facts d → onward (dx_here d) (dx_here d') (dx_there d) ios → dx_there d' = dx_there d →
  dx_log_here d' = dx_log_here d ++ ios → dx_log_there d' = dx_log_there d →
  (∀ loc i, names (dx_here d) loc i → held ≠ Some loc → wrote i ios = [] ∧ got i ios = []) →
  (∀ i, ¬ v_known (view_of (dx_here d)) i → wrote i ios = [] ∧ got i ios = []) →
  (∀ loc k, held ≠ Some loc → about (port ls loc k) w = []) →
  (∀ loc, held = Some loc → loc ∈ sd_handles (dx_here d)) →
  (∀ loc i, held = Some loc → names (dx_here d) loc i → ∃ k, wire ls d' (v ++ w) loc i k) →
  wired ls d v → wired ls d' (v ++ w).
Proof.
  intros Hf Ho Ey El Ely Hios Hunk Habout Hheld Hwire [H1 H2 H3]. pose proof (di_here _ (fa_inv _ Hf)) as Hx.
  assert (∀ loc, held = Some loc → is_Some (s_heap (sd_s (dx_here d)) !! loc)) as Hheap.
  { intros loc Hh. apply (si_heap _ Hx). unfold pots. apply elem_of_app. left. auto. }
  assert (∀ loc k, s_heap (sd_s (dx_here d)) !! loc = None → about (port ls loc k) (v ++ w) = []) as Hnone.
  { intros loc k Hl. rewrite about_app. destruct (about (port ls loc k) v) eqn:E.
    - apply Habout. intros Hh. destruct (Hheap loc Hh) as [? ?]. congruence.
    - exfalso. destruct (H2 loc k) as (i & st & ? & _); [by rewrite E|congruence]. }
  constructor.
  - intros loc i Hn'. destruct (on_back _ _ _ _ Ho loc i Hn') as [Hn|[Hno Hk]].
    + destruct (decide (held = Some loc)) as [Hh|Hh]; [by apply Hwire|].
      destruct (H1 loc i Hn) as (k & [W1 W2 W3 W4 W5 W6]). destruct (Hios loc i Hn Hh) as [Ew Eg].
      assert (∀ k, exchanges (port ls loc k) (v ++ w) = exchanges (port ls loc k) v) as Eex.
      { intros k'. by rewrite exchanges_app, (exchanges_blank _ w), app_nil_r by auto. }
      exists k. constructor; rewrite ?Eex, ?Ey, ?El, ?Ely, ?wrote_app, ?got_app, ?Ew, ?Eg, ?app_nil_r; auto.
      * intros vec [?|Hin]%elem_of_app; [auto|]. exfalso.
        apply (not_elem_of_nil (Finished (port ls loc k).1 (port ls loc k).2 (Ok vec))). rewrite <- (Habout loc k Hh).
        apply list_elem_of_filter. split; [by destruct ls|done].
      * intros k' Hk'. rewrite about_app, W6, Habout by done. done.
    + exists 0%nat. destruct (proj2 (fa_unused _ Hf) i Hk) as (Ew & Eg & _). destruct (Hunk i Hk) as [Ew' Eg'].
      apply wire_blank; [by rewrite El, wrote_app, Ew, Ew'|by rewrite El, got_app, Eg, Eg'|auto].
  - intros loc k. rewrite about_app. destruct (about (port ls loc k) v) eqn:E.
    + intros Hne. destruct (decide (held = Some loc)) as [Hh|Hh]; [|by rewrite Habout in Hne].
      destruct (Hheap loc Hh) as [st Hl]. exists (id st). apply (on_names _ _ _ _ Ho). by exists st.
    + intros _. destruct (H2 loc k) as (i & Hn); [by rewrite E|]. exists i. by apply (on_names _ _ _ _ Ho).
  - intros loc k Hw. destruct (on_waits _ _ _ _ Ho loc Hw) as [Hw0|]; [|auto]. rewrite about_app, H3 by done.
    apply Habout. intros Hh. by apply (waits_not_held _ loc Hx Hw0), Hheld.
Qed.

(** ** A copy moves *)

(** A poll of one end moves no bytes at the other. *)
Lemma lane_other e c r : lane_of c ≠ e → put1 e (c, r) = [] ∧ taken1 e (c, r) = [] ∧ ∀ room, c ≠ CRead e room.
Proof.
  intros Hne. destruct c as [e' room|e' buf|e'|e'], r; cbn in *; rewrite ?decide_False by done; split_and!; try done; congruence.
Qed.

(** The copy polls the stream or the socket; [ios] is what the session logs. *)
Lemma wire_polled ls d d' v loc i k j c r ios :
  let a := (port ls loc k).1 in let b := (port ls loc k).2 in
  facts (turned d') → job CopyBidirectional (exchanges (port ls loc k) v) j → job_next j = inl c → fits c r →
  dx_there d' = dx_there d → dx_log_here d' = dx_log_here d ++ ios → dx_log_there d' = dx_log_there d →
  wrote i ios = put1 ls (c, r) → got i ios = taken1 ls (c, r) →
  (∀ room, c = CRead ls room → r = RRead [] →
     settled (dx_there d) i ∧ got i (dx_log_here d) = wrote i (dx_log_there d)) →
  (∀ res, Finished a b res ∉ v) → wire ls d v loc i k →
  wire ls d' (v ++ [Polled a b c r]) loc i k ∧
  job CopyBidirectional (exchanges (port ls loc k) (v ++ [Polled a b c r])) (job_answer j r).
Proof.
  intros a b Hf' Hjob Hj Hfit Ey El Ely Hw Hg Hend Hnf [W1 W2 W3 W4 W5 W6].
  assert (port ls loc k = (a, b)) as Eab by apply surjective_pairing.
  assert (exchanges (port ls loc k) (v ++ [Polled a b c r]) = exchanges (port ls loc k) v ++ [(c, r)]) as Ex.
  { by rewrite exchanges_app, Eab, exchanges_polled. }
  assert (job CopyBidirectional (exchanges (port ls loc k) (v ++ [Polled a b c r])) (job_answer j r)) as Hjob'
    by (rewrite Ex; by apply runs_step).
  split; [|done]. constructor.
  - by rewrite Ex, put_snoc, El, wrote_app, W1, Hw.
  - by rewrite Ex, taken_snoc, El, got_app, W2, Hg.
  - by eapply job_conveys.
  - rewrite Ex, at_end_snoc, Ey, Ely. intros [Hold|(room & _ & [= -> ->])].
    + destruct (W4 Hold) as [Hs E]. split; [done|]. rewrite <- E.
      pose proof (read_prefix (turned d') i Hf') as Hp. unfold turned in Hp. cbn [dx_log_here dx_log_there] in Hp.
      rewrite Ely, <- E in Hp. symmetry. rewrite El, got_app in Hp |- *.
      apply prefix_length_eq; [by apply prefix_app_r|by apply prefix_length].
    + destruct (Hend room) as [Hs E]; [done..|]. split; [done|]. rewrite El, got_app, Hg, <- E. cbn.
      case_decide; by rewrite app_nil_r.
  - intros vec [Hin|Hin%list_elem_of_singleton]%elem_of_app; [by destruct (Hnf (Ok vec))|done].
  - intros k' Hne. rewrite about_app, W6 by done. apply about_other. cbn. rewrite <- Eab. intros [= E].
    by apply Hne; destruct (port_inj _ _ _ _ _ E).
Qed.

(** The copy ends. *)
Lemma wire_finished ls d v loc i k j r :
  job CopyBidirectional (exchanges (port ls loc k) v) j → job_next j = inr r →
  wire ls d v loc i k → wire ls d (v ++ [Finished (port ls loc k).1 (port ls loc k).2 r]) loc i k.
Proof.
  intros Hjob Hj [W1 W2 W3 W4 W5 W6].
  assert (∀ k', exchanges (port ls loc k') (v ++ [Finished (port ls loc k).1 (port ls loc k).2 r]) =
    exchanges (port ls loc k') v) as Ex by (intros k'; by rewrite exchanges_app, exchanges_finished, app_nil_r).
  constructor; rewrite ?Ex; auto.
  - intros vec Hin. apply elem_of_app in Hin as [Hin|Hin]; [auto|]. apply list_elem_of_singleton in Hin as [= <-].
    by eapply job_achieves.
  - intros k' Hne. rewrite about_app, W6 by done. apply about_other. cbn. rewrite <- surjective_pairing. intros [= E].
    by apply Hne; destruct (port_inj _ _ _ _ _ E).
Qed.

(** ** The places in the programs *)

Definition forward_rest (loc : Loc) (r : IoResult (list byte)) : prog :=
  match r with Err e => Show (ForwardingEnded e) (Drop loc Return) | Ok _ => Drop loc Return end.
Definition tunnel_accepted (r : MuxResult Loc) : prog :=
  match r with Ok tunnel => Spawn (forward_tunnel tunnel) Continue | Err e => Show (SessionGone e) Break end.
Definition proxy_opened (k : nat) (r : MuxResult Loc) : prog :=
  match r with
  | Ok tunnel => Spawn (forward (OnSock k) (OnStream tunnel) tunnel) Continue
  | Err e => Show (SessionGone e) Break
  end.
Definition proxy_next : prog := GetSock (or_leave Return (λ k, Open (proxy_opened k))).

(** The body of the main loop. *)
Definition main_body (ls : lane) : prog := match ls with First => Accept tunnel_accepted | Second => proxy_next end.
Definition main_loop (ls : lane) : list (prog * prog) := [(main_body ls, Close Return)].
Definition main_rest (ls : lane) : prog := Loop (main_body ls) (Close Return).
Definition transport_rest : prog := Sys (or_leave Return (λ _, main_rest Second)).

(** The process holds a stream; no copy has touched it; a copy is at work on it. *)
Definition held (d : duplex) (loc : Loc) : Prop :=
  (∃ i, names (dx_here d) loc i) ∧ loc ∈ sd_handles (dx_here d).
Definition blank (ls : lane) (d : duplex) (v : list seen) (loc : Loc) : Prop :=
  held d loc ∧ ∀ k, about (port ls loc k) v = [].
Definition forwarding (ls : lane) (d : duplex) (v : list seen) (loc : Loc) (k : nat) (j : J) : Prop :=
  held d loc ∧ (∀ k', k' ≠ k → about (port ls loc k') v = []) ∧
  (∀ r, Finished (port ls loc k).1 (port ls loc k).2 r ∉ v) ∧
  job CopyBidirectional (exchanges (port ls loc k) v) j.

Inductive tunnel_task (d : duplex) (v : list seen) : lane → task → option Loc → Prop :=
(* [forward_client] *)
| T_connect : tunnel_task d v First (forward_client_main, []) None
| T_started : tunnel_task d v First (Show SessionStarted (main_rest First), []) None
| T_accepting rx : tunnel_task d v First (Accepting rx tunnel_accepted, main_loop First) None
| T_spawn loc :
    blank First d v loc → tunnel_task d v First (Spawn (forward_tunnel loc) Continue, main_loop First) (Some loc)
| T_dial loc : blank First d v loc → tunnel_task d v First (forward_tunnel loc, []) (Some loc)
| T_failed loc e : held d loc → tunnel_task d v First (Show (DialFailed e) (Drop loc Return), []) (Some loc)
(* [forward_server] *)
| T_bind : tunnel_task d v Second (forward_server_main, []) None
| T_bind_proxy : tunnel_task d v Second (Sys (or_leave Return (λ _, Show Listening transport_rest)), []) None
| T_listening : tunnel_task d v Second (Show Listening transport_rest, []) None
| T_transport : tunnel_task d v Second (transport_rest, []) None
| T_open k : tunnel_task d v Second (Open (proxy_opened k), main_loop Second) None
| T_opening i loc k : tunnel_task d v Second (Opening i loc (proxy_opened k), main_loop Second) None
| T_opened loc k :
    blank Second d v loc →
    tunnel_task d v Second (Spawn (forward (OnSock k) (OnStream loc) loc) Continue, main_loop Second) (Some loc)
(* both *)
| T_loop ls : tunnel_task d v ls (main_rest ls, []) None
| T_body ls : tunnel_task d v ls (main_body ls, main_loop ls) None
| T_continue ls : tunnel_task d v ls (Continue, main_loop ls) None
| T_gone ls e : tunnel_task d v ls (Show (SessionGone e) Break, main_loop ls) None
| T_break ls : tunnel_task d v ls (Break, main_loop ls) None
| T_close ls : tunnel_task d v ls (Close Return, []) None
| T_return ls loops : tunnel_task d v ls (Return, loops) None
| T_copy ls loc k j :
    forwarding ls d v loc k j →
    tunnel_task d v ls (Await (port ls loc k).1 (port ls loc k).2 j (forward_rest loc), []) (Some loc)
| T_ended ls loc e : held d loc → tunnel_task d v ls (Show (ForwardingEnded e) (Drop loc Return), []) (Some loc)
| T_drop ls loc : held d loc → tunnel_task d v ls (Drop loc Return, []) (Some loc).

Lemma tunnel_task_held d v ls t loc : tunnel_task d v ls t (Some loc) → held d loc.
Proof.
  remember (Some loc) as h eqn:Eh.
  destruct 1; simplify_eq; try match goal with H : blank _ _ _ _ |- _ => apply H | H : forwarding _ _ _ _ _ _ |- _ => apply H end;
    done.
Qed.

(** A task that somebody else does not touch. *)
Lemma tunnel_task_on d d' v w ls t h :
  (∀ loc, h = Some loc → (held d loc → held d' loc) ∧ ∀ k, about (port ls loc k) w = []) →
  tunnel_task d v ls t h → tunnel_task d' (v ++ w) ls t h.
Proof.
  intros Hon Ht.
  assert (∀ loc, h = Some loc → blank ls d v loc → blank ls d' (v ++ w) loc) as Hb.
  { intros loc E [? Hbl]. destruct (Hon loc E) as [Hh Hw]. split; [auto|]. intros k. by rewrite about_app, Hbl, Hw. }
  assert (∀ loc k j, h = Some loc → forwarding ls d v loc k j → forwarding ls d' (v ++ w) loc k j) as Hf.
  { intros loc k j E (? & Ho & Hn & Hj). destruct (Hon loc E) as [Hh Hw]. split_and!; auto.
    - intros k' ?. by rewrite about_app, Ho, Hw.
    - intros r [Hin|Hin]%elem_of_app; [by apply (Hn r)|].
      apply (not_elem_of_nil (Finished (port ls loc k).1 (port ls loc k).2 r)). rewrite <- (Hw k).
      apply list_elem_of_filter. split; [by destruct ls|done].
    - by rewrite exchanges_app, (exchanges_blank _ w), app_nil_r by auto. }
  assert (∀ loc, h = Some loc → held d loc → held d' loc) as Hh by (intros loc E; apply (Hon loc E)).
  destruct Ht; constructor; auto.
Qed.

(** ** A task moves *)

(** The task and its children are in their places and hold what it held, or a
    stream that was waiting; the streams of others stay, and nothing is seen of
    them; the streams stay wired. *)
Definition forwards (ls : lane) (d d' : duplex) (v w : list seen) (h : option Loc) (t' : task) (new : list task) : Prop :=
  (∃ h' hn, tunnel_task d' (v ++ w) ls t' h' ∧ Forall2 (tunnel_task d' (v ++ w) ls) new hn ∧
    NoDup (omap (λ h, h) (h' :: hn)) ∧
    (∀ loc, Some loc ∈ h' :: hn → h = Some loc ∨ loc ∈ waits (dx_here d))) ∧
  (∀ loc, loc ∈ sd_handles (dx_here d) → h ≠ Some loc → loc ∈ sd_handles (dx_here d')) ∧
  (∀ loc k, h ≠ Some loc → about (port ls loc k) w = []) ∧ wired ls d' (v ++ w).

(** Nothing is exchanged. *)
Lemma wired_still ls d d' v w ios :
  facts d → onward (dx_here d) (dx_here d') (dx_there d) ios → dx_there d' = dx_there d →
  dx_log_here d' = dx_log_here d ++ ios → dx_log_there d' = dx_log_there d →
  (∀ i, wrote i ios = [] ∧ got i ios = []) → (∀ ab, about ab w = []) →
  wired ls d v → wired ls d' (v ++ w).
Proof. intros. eapply (wired_step ls d d' v w ios None); auto; done. Qed.

(** A step in which no copy moves. *)
Lemma forwards_still ls d d' v w ios h t' new h' hn :
  facts d → onward (dx_here d) (dx_here d') (dx_there d) ios → dx_there d' = dx_there d →
  dx_log_here d' = dx_log_here d ++ ios → dx_log_there d' = dx_log_there d →
  (∀ i, wrote i ios = [] ∧ got i ios = []) → (∀ ab, about ab w = []) →
  (∀ loc, loc ∈ sd_handles (dx_here d) → h ≠ Some loc → loc ∈ sd_handles (dx_here d')) →
  tunnel_task d' (v ++ w) ls t' h' → Forall2 (tunnel_task d' (v ++ w) ls) new hn →
  NoDup (omap (λ h, h) (h' :: hn)) → (∀ loc, Some loc ∈ h' :: hn → h = Some loc ∨ loc ∈ waits (dx_here d)) →
  wired ls d v → forwards ls d d' v w h t' new.
Proof. intros. split_and!; auto; [|by eapply wired_still]. by exists h', hn. Qed.

(** The usual case: nothing happens to the session, no child, the same stream held. *)
Lemma forwards_on ls (x y : side) o i lx ly v w h t' :
  let d := mk_duplex x y o i lx ly in
  let d' := mk_duplex x y o i (lx ++ []) ly in
  facts d → (∀ ab, about ab w = []) → tunnel_task d (v ++ w) ls t' h → wired ls d v → forwards ls d d' v w h t' [].
Proof.
  intros d d' Hf Hw Ht Hwd. apply (forwards_still ls d d' v w [] h t' [] h []); auto; [apply onward_refl| | |].
  - unfold d'. by rewrite app_nil_r.
  - destruct h; cbn; [apply NoDup_singleton|apply NoDup_nil_2].
  - intros loc [= ->]%list_elem_of_singleton. by left.
Qed.

(** A step of the main task, which holds nothing. *)
Lemma forwards_main ls (x x' y : side) o i lx ly v t' :
  let d := mk_duplex x y o i lx ly in
  let d' := mk_duplex x' y o i (lx ++ []) ly in
  facts d → onward x x' y [] → (∀ loc, loc ∈ sd_handles x → loc ∈ sd_handles x') →
  tunnel_task d' v ls t' None → wired ls d v → forwards ls d d' v [] None t' [].
Proof.
  intros d d' Hf Ho Hh Ht Hwd. apply (forwards_still ls d d' v [] [] None t' [] None []); auto.
  - by rewrite app_nil_r.
  - apply NoDup_nil_2.
  - by intros loc [=]%list_elem_of_singleton.
Qed.

(** A stream comes in. *)
Lemma forwards_brings ls (x x' y : side) o i lx ly v loc j t' :
  let d := mk_duplex x y o i lx ly in
  let d' := mk_duplex x' y o i (lx ++ []) ly in
  facts d → onward x x' y [] → sd_handles x' = sd_handles x ++ [loc] → loc ∈ waits x → names x' loc j →
  (blank ls d' v loc → tunnel_task d' v ls t' (Some loc)) → wired ls d v → forwards ls d d' v [] None t' [].
Proof.
  intros d d' Hf Ho Hh Hw Hn Ht Hwd. apply (forwards_still ls d d' v [] [] None t' [] (Some loc) []); auto.
  - intros loc' ? _. cbn. rewrite Hh. set_solver.
  - rewrite app_nil_r. apply Ht. split; [split; [by exists j|cbn; rewrite Hh; set_solver]|].
    intros k. by apply (wd_waits _ _ _ Hwd).
  - apply NoDup_singleton.
  - intros loc' [= ->]%list_elem_of_singleton. by right.
Qed.

(** A copy of a stream begins. *)
Lemma forwarding_new ls d v loc k : blank ls d v loc → forwarding ls d v loc k (job_new CopyBidirectional).
Proof.
  intros [Hh Hb]. split_and!; auto.
  - intros r Hin. apply (not_elem_of_nil (Finished (port ls loc k).1 (port ls loc k).2 r)). rewrite <- (Hb k).
    apply list_elem_of_filter. split; [by destruct ls|done].
  - rewrite (exchanges_blank _ _ (Hb k)). constructor.
Qed.

(** A child is spawned for the stream that the task holds. *)
Lemma forwards_spawn ls (x y : side) o i lx ly v loc t' child :
  let d := mk_duplex x y o i lx ly in
  let d' := mk_duplex x y o i (lx ++ []) ly in
  facts d → tunnel_task d v ls t' None → tunnel_task d v ls child (Some loc) → wired ls d v →
  forwards ls d d' v [] (Some loc) t' [child].
Proof.
  intros d d' Hf Ht Hc Hwd. assert (d' = d) as Ed by (unfold d'; by rewrite app_nil_r).
  apply (forwards_still ls d d' v [] [] (Some loc) t' [child] None [Some loc]); auto; rewrite ?Ed, ?app_nil_r; auto.
  - apply onward_refl.
  - apply NoDup_singleton.
  - intros loc' [[=]|[= ->]%list_elem_of_singleton]%elem_of_cons. by left.
Qed.

(** A step of the copy of the stream at [loc]. *)
Lemma forwards_copy ls d d' v ev ios loc i k t' :
  facts d → onward (dx_here d) (dx_here d') (dx_there d) ios → dx_there d' = dx_there d →
  dx_log_here d' = dx_log_here d ++ ios → dx_log_there d' = dx_log_there d →
  names (dx_here d) loc i → loc ∈ sd_handles (dx_here d) → sd_handles (dx_here d') = sd_handles (dx_here d) →
  (∀ i', i' ≠ i → untouched i' ios) → ends_of ev = Some (port ls loc k) →
  wire ls d' (v ++ [ev]) loc i k → tunnel_task d' (v ++ [ev]) ls t' (Some loc) →
  wired ls d v → forwards ls d d' v [ev] (Some loc) t' [].
Proof.
  intros Hf Ho Ey El Ely Hn Hh Eh Hu Ee Hwi Ht Hwd. pose proof (di_here _ (fa_inv _ Hf)) as Hx.
  assert (∀ loc' k', Some loc ≠ Some loc' → about (port ls loc' k') [ev] = []) as Hab.
  { intros loc' k' Hne. apply about_other. rewrite Ee. intros [= E]. apply Hne. by destruct (port_inj _ _ _ _ _ E) as [-> _]. }
  split_and!; auto.
  - exists (Some loc), []. split_and!; auto; [apply NoDup_singleton|]. intros loc' [= ->]%list_elem_of_singleton. by left.
  - intros loc' ? _. by rewrite Eh.
  - eapply (wired_step ls d d' v [ev] ios (Some loc)); auto.
    + intros loc' i' Hn' Hne. destruct (Hu i') as (? & ? & _); [|done]. intros ->.
      by rewrite (names_inj _ loc loc' i Hx Hn Hn') in Hne.
    + intros i' Hk. destruct (Hu i') as (? & ? & _); [|done]. intros ->. by apply Hk, (names_known _ loc).
    + by intros loc' [= <-].
    + intros loc' i' [= <-] Hn'. exists k. by rewrite (names_fun _ _ _ _ Hn' Hn).
Qed.

(** The copy is still at work. *)
Lemma forwarding_polled ls d d' v loc k j j' c r :
  forwarding ls d v loc k j → held d' loc →
  let ev := Polled (port ls loc k).1 (port ls loc k).2 c r in
  job CopyBidirectional (exchanges (port ls loc k) (v ++ [ev])) j' → forwarding ls d' (v ++ [ev]) loc k j'.
Proof.
  intros (_ & Hothers & Hnf & _) Hh ev Hj. split_and!; auto.
  - intros k' Hne. rewrite about_app, Hothers by done. apply about_other. cbn. rewrite <- surjective_pairing.
    intros [= E]. by apply Hne; destruct (port_inj _ _ _ _ _ E).
  - intros res [Hin|Hin]%elem_of_app; [by apply (Hnf res)|by apply list_elem_of_singleton in Hin].
Qed.

(** The place of the stream among the two ends. *)
Lemma end_of_port ls loc k c :
  end_of (port ls loc k).1 (port ls loc k).2 c = if decide (lane_of c = ls) then OnStream loc else OnSock k.
Proof. unfold end_of. by destruct ls, (lane_of c). Qed.

(** A copy polls the stream or the socket, or ends. *)
Lemma copy_forwards ch n e ls (x y : side) o i lx ly v loc k j :
  let d := mk_duplex x y o i lx ly in
  let d' := mk_duplex (e_side e) y o i (lx ++ e_ios e) ly in
  known_facts d → known_facts d' →
  advance ch n (Await (port ls loc k).1 (port ls loc k).2 j (forward_rest loc), []) x = Some e →
  wired ls d v → forwarding ls d v loc k j →
  forwards ls d d' v (e_seen e) (Some loc) (e_task e) (e_spawned e).
Proof.
  intros d d' [Hf Hft] [Hf' Hft'] Ha Hwd Hfw. pose proof Hfw as (((i0 & Hn) & Hh) & Hothers & Hnf & Hjob).
  pose proof (advance_onward _ _ _ _ _ y o i lx ly Ha (fa_inv _ Hf)) as Hon.
  destruct (wd_wire _ _ _ Hwd loc i0 Hn) as (k0 & Hw0%(wire_at _ _ _ _ _ k)); [|done].
  revert Hf' Hft' Hon. unfold d'. clear d'.
  destruct (advance_await _ _ _ _ _ _ _ _ _ Ha) as [r Hj|c r cx loc' x' Hj Hend Hin Hr Eh|c r m Hj Hend Hfit];
    cbn [e_side e_ios e_task e_spawned e_seen]; try rewrite end_of_port in Hend; intros Hf' Hft' Hon.
  - apply (forwards_copy ls d _ v _ [] loc i0 k); auto; [intros; apply untouched_nil|cbn; by destruct ls| |].
    + rewrite app_nil_r. by eapply wire_finished.
    + destruct r; [apply T_drop|apply T_ended]; (split; [by exists i0|done]).
  - case_decide as Hl; [|done]. injection Hend as <-. destruct Hn as (st & Hst & <-).
    destruct (poll_logged CopyBidirectional c cx loc x st r) as (Hfit & Pw & Pg & _ & Pe & _);
      [apply Hf|done|by eapply job_asks|done|]. rewrite Hl in Pw, Pg.
    assert (names x loc (id st)) as Hn by (by exists st).
    destruct (wire_polled ls d (mk_duplex x' y o i (lx ++ polled_io c cx loc (sd_s x)) ly) v loc (id st) k j c r
      (polled_io c cx loc (sd_s x))) as [Hwi Hjob']; auto.
    { intros room Hc Hre. destruct (eof_facts d loc (id st)) as (? & ? & _); auto. }
    apply (forwards_copy ls d _ v _ (polled_io c cx loc (sd_s x)) loc (id st) k); auto;
      [intros i' Hne; by eapply polled_other|cbn; by destruct ls|].
    apply T_copy, (forwarding_polled ls d _ v loc k j); [done| |done].
    split; [exists (id st); by apply (on_names _ _ _ _ Hon)|]. cbn. by rewrite Eh.
  - case_decide as Hl; [done|]. destruct (lane_other ls c r Hl) as (Hp & Ht & Hc).
    destruct (wire_polled ls d (mk_duplex x y o i (lx ++ []) ly) v loc i0 k j c r []) as [Hwi Hjob']; auto.
    { intros room Hc'. by destruct (Hc room). }
    apply (forwards_copy ls d _ v _ [] loc i0 k); auto; [intros; apply untouched_nil|cbn; by destruct ls|].
    apply T_copy, (forwarding_polled ls d _ v loc k j); [done| |done]. split; [by exists i0|done].
Qed.

(** The end of a child: the stream is dropped. *)
Lemma drop_forwards ls (y : side) s hs op o i lx ly v loc :
  let ios := user_io loc UDrop s in
  let x' := mk_side (user_apply loc UDrop s) (filter (.≠ loc) hs) op in
  let d := mk_duplex (mk_side s hs op) y o i lx ly in
  let d' := mk_duplex x' y o i (lx ++ ios) ly in
  facts d → onward (mk_side s hs op) x' y ios → held d loc → wired ls d v →
  forwards ls d d' v [] (Some loc) (Return, []) [].
Proof.
  intros ios x' d d' Hf Ho ((j & st & Hl & _) & Hin) Hwd. cbn in Hl.
  assert (ios = [Shut (id st)]) as E by (unfold ios; cbn; unfold io_of; by rewrite Hl).
  apply (forwards_still ls d d' v [] ios (Some loc) (Return, []) [] None []); auto.
  - by rewrite E.
  - intros loc' ? Hne. apply list_elem_of_filter. split; [congruence|done].
  - apply T_return.
  - apply NoDup_nil_2.
  - by intros loc' [=]%list_elem_of_singleton.
Qed.

Lemma about_printed ab m : about ab [Printed m] = [].
Proof. by apply about_other. Qed.

(** A step that the session does not see. *)
Ltac on_own Ha := injection Ha as <-; cbn;
  apply forwards_on; [done|by intros; rewrite ?about_printed|rewrite ?app_nil_r|done].

(** The server waits inside [open]. *)
Lemma opening_forwards ch n e (x y : side) o i lx ly v j loc k :
  let d := mk_duplex x y o i lx ly in
  let d' := mk_duplex (e_side e) y o i (lx ++ e_ios e) ly in
  facts d → onward x (e_side e) y (e_ios e) →
  advance ch n (Opening j loc (proxy_opened k), main_loop Second) x = Some e → wired Second d v →
  forwards Second d d' v (e_seen e) None (e_task e) (e_spawned e).
Proof.
  intros d d' Hf Hon Ha Hwd. pose proof (di_here _ (fa_inv _ Hf)) as Hx. unfold d'. clear d'.
  destruct x as [s hs op]. cbn in Ha, Hx. destruct ch; try done; (case_decide as Hop; [|done]).
  - destruct (open_poll cx loc s) as [[[r|]|] s1]; try done.
    + destruct r as [[]|err]; cbn in Ha; injection Ha as <-; cbn in Hon |- *.
      * destruct (open_brings (mk_side s hs op) _ y j loc [] lx Hop Hx Hon (proj1 (fa_unused _ Hf))) as (Hw & Hn & _).
        by eapply forwards_brings; [..|apply T_opened|].
      * apply forwards_main; auto; [cbn; set_solver|apply T_gone].
    + injection Ha as <-. cbn in Hon |- *. apply forwards_main; auto. apply T_opening.
  - injection Ha as <-. cbn in Hon |- *. apply forwards_main; auto. apply T_gone.
Qed.

Lemma tunnel_acts ch n t e (x y : side) o i lx ly v ls h :
  let d := mk_duplex x y o i lx ly in
  let d' := mk_duplex (e_side e) y o i (lx ++ e_ios e) ly in
  known_facts d → known_facts d' → advance ch n t x = Some e → wired ls d v → tunnel_task d v ls t h →
  forwards ls d d' v (e_seen e) h (e_task e) (e_spawned e).
Proof.
  intros d d' Hkf Hkf' Ha Hwd Ht. pose proof Hkf as [Hf _]. pose proof (di_here _ (fa_inv _ Hf)) as Hx.
  pose proof (advance_onward _ _ _ _ _ y o i lx ly Ha (fa_inv _ Hf)) as Hon. unfold d' in *. clear d'.
  assert (∀ loc k j, t = (Await (port ls loc k).1 (port ls loc k).2 j (forward_rest loc), []) → forwarding ls d v loc k j →
    forwards ls d (mk_duplex (e_side e) y o i (lx ++ e_ios e) ly) v (e_seen e) (Some loc) (e_task e) (e_spawned e)) as Hcopy.
  { intros loc k j -> Hfw. by apply (copy_forwards ch n e ls x y o i lx ly v loc k j). }
  assert (∀ j loc k, t = (Opening j loc (proxy_opened k), main_loop Second) → ls = Second →
    forwards ls d (mk_duplex (e_side e) y o i (lx ++ e_ios e) ly) v (e_seen e) None (e_task e) (e_spawned e)) as Hopening.
  { intros j loc k -> ->. by apply (opening_forwards ch n e x y o i lx ly v j loc k). }
  destruct x as [s hs op]. cbn in Hx. clear Hkf'.
  destruct Ht as [| |rx|loc Hb|loc Hb|loc err Hh| | | | |k|j loc k|loc k Hb|ls|ls|ls|ls err|ls|ls|ls loops
    |ls loc k j Hfw|ls loc err Hh|ls loc Hh]; cbn in Ha.
  - destruct ch; try done. on_own Ha. destruct r; [apply T_started|apply T_return].
  - on_own Ha. apply T_loop.
  - destruct ch; try done. destruct (accept_poll rx s) as [[[loc|err]|] s'] eqn:E; injection Ha as <-; cbn in Hon |- *.
    + destruct (accept_brings rx (mk_side s hs op) (mk_side s' (hs ++ [loc]) op) y s' [] loc lx) as (Hw & j & Hn & _);
        [done..|apply (fa_unused _ Hf)|]. by eapply forwards_brings; [..|apply T_spawn|].
    + apply forwards_main; auto; [cbn; set_solver|apply T_gone].
    + apply forwards_main; auto; [cbn; set_solver|apply T_accepting].
  - injection Ha as <-. cbn. apply forwards_spawn; auto; [apply T_continue|by apply T_dial].
  - destruct ch as [| |[[]|err]| |]; try done; on_own Ha.
    + by apply (T_copy d v First loc n), forwarding_new.
    + by apply T_failed, Hb.
  - on_own Ha. by apply T_drop.
  - destruct ch; try done. on_own Ha. destruct r; [apply T_bind_proxy|apply T_return].
  - destruct ch; try done. on_own Ha. destruct r; [apply T_listening|apply T_return].
  - on_own Ha. apply T_transport.
  - destruct ch; try done. on_own Ha. destruct r; [apply T_loop|apply T_return].
  - destruct ch; try done. destruct (open_start s) as [[[j loc]|err] s'] eqn:E; injection Ha as <-; cbn in Hon |- *.
    + apply forwards_main; auto. apply T_opening.
    + apply forwards_main; auto. apply T_gone.
  - by apply (Hopening j loc k).
  - injection Ha as <-. cbn. apply forwards_spawn; auto; [apply T_continue|].
    by apply (T_copy d v Second loc k), forwarding_new.
  - on_own Ha. apply T_body.
  - destruct ls.
    + destruct ch; try done. injection Ha as <-. cbn in Hon |- *. apply forwards_main; auto.
      destruct (fst (accept_start s)); [apply T_accepting|apply T_gone].
    + destruct ch as [| |[[]|err]| |]; try done; on_own Ha; [apply T_open|apply T_return].
  - on_own Ha. apply T_body.
  - on_own Ha. apply T_break.
  - on_own Ha. apply T_close.
  - done.
  - done.
  - by apply (Hcopy loc k j).
  - on_own Ha. by apply T_drop.
  - destruct ch; try done. case_decide; [|done]. injection Ha as <-. cbn in Hon |- *. by apply drop_forwards.
Qed.

(** ** Both processes *)

Record tunnel_side (ls : lane) (d : duplex) (ts : list task) (v : list seen) : Prop := {
  ts_pool : pool_ok (tunnel_task d v ls) ts;
  ts_wired : wired ls d v;
}.

(** The process moves. *)
Lemma tunnel_moves ls (x x' y : side) o i lx ly ios p p' :
  let d := mk_duplex x y o i lx ly in
  let d' := mk_duplex x' y o i (lx ++ ios) ly in
  known_facts d → known_facts d' → proc_step x p ios x' p' →
  tunnel_side ls d (pr_tasks p) (pr_seen p) → tunnel_side ls d' (pr_tasks p') (pr_seen p').
Proof.
  intros d d' Hf Hf' Hst [Hpool Hwd]. destruct Hst as [m ch t x p e Hm Ha]. cbn [pr_tasks pr_seen].
  pose proof (advance_onward _ _ _ _ _ y o i lx ly Ha (fa_inv _ (proj1 Hf))) as Hon.
  pose proof (λ h, tunnel_acts ch _ t e x y o i lx ly (pr_seen p) ls h Hf Hf' Ha Hwd) as Hacts. fold d d' in Hacts.
  constructor.
  - eapply pool_move; [exact Hpool|exact Hm|]. intros h Hh.
    destruct (Hacts h Hh) as ((h' & hn & H1 & H2 & H3 & H4) & H5 & H6 & _). exists h', hn. split_and!; auto.
    + intros loc Hin. destruct (H4 loc Hin) as [?|Hw]; [by left|right]. intros t2 [_ Hin2]%tunnel_task_held.
      eapply (waits_not_held x); [|exact Hw|exact Hin2]. apply (di_here _ (fa_inv _ (proj1 Hf))).
    + intros t2 h2 Ht2 Hne. eapply tunnel_task_on; [|exact Ht2]. intros loc ->.
      assert (h ≠ Some loc) as Hne' by (intros E; by apply (Hne loc)). split; [|auto].
      intros [(j & Hn) Hin]. split; [exists j; by apply (on_names _ _ _ _ Hon)|by apply H5].
  - destruct (pool_lookup _ _ _ _ Hpool Hm) as (h & Hh). by apply (Hacts h Hh).
Qed.

(** The session or the peer moves. *)
Lemma tunnel_still ls d d' ts v :
  (∀ loc i, names (dx_here d) loc i → names (dx_here d') loc i) →
  sd_handles (dx_here d') = sd_handles (dx_here d) → wired ls d' v →
  tunnel_side ls d ts v → tunnel_side ls d' ts v.
Proof.
  intros Hn Eh Hwd [Hpool _]. constructor; [|done]. eapply pool_mono; [|exact Hpool]. intros t h Ht.
  rewrite <- (app_nil_r v). eapply tunnel_task_on; [|exact Ht]. intros loc _. split; [|done].
  intros [(i & ?) ?]. split; [exists i; auto|by rewrite Eh].
Qed.

Lemma tunnel_half ls ls' n n' :
  net_half n n' → known_facts (n_d n) → known_facts (n_d n') →
  tunnel_side ls (n_d n) (pr_tasks (n_here n)) (pr_seen (n_here n)) →
  tunnel_side ls' (turned (n_d n)) (pr_tasks (n_there n)) (pr_seen (n_there n)) →
  tunnel_side ls (n_d n') (pr_tasks (n_here n')) (pr_seen (n_here n')) ∧
  tunnel_side ls' (turned (n_d n')) (pr_tasks (n_there n')) (pr_seen (n_there n')).
Proof.
  intros Hst Hf Hf' H1 H2. destruct Hst as [x ios x' y o i lx ly p p' q Hp|d d' p q Hi]; cbn in *.
  - split; [by eapply tunnel_moves|]. destruct Hp as [m ch t x p e _ Ha].
    pose proof (advance_onward _ _ _ _ _ y o i lx ly Ha (fa_inv _ (proj1 Hf))) as Hon.
    eapply tunnel_still; [| | |exact H2]; try done. eapply (wired_peer _ (turned (mk_duplex x y o i lx ly))); [exact Hon|done..|apply H2].
  - destruct (idle_onward d d' Hi (fa_inv _ (proj1 Hf))) as (Hon & Ey & El & El' & Eh). split.
    + eapply tunnel_still; [apply Hon|done| |exact H1]. rewrite <- (app_nil_r (pr_seen p)).
      eapply (wired_still ls d d' _ [] []); [apply Hf|done|done|by rewrite app_nil_r|done..|apply H1].
    + eapply (tunnel_still _ (turned d)); [cbn; by rewrite Ey|cbn; by rewrite Ey| |exact H2].
      eapply (wired_peer _ (turned d) (turned d')); [exact Hon|done|done|cbn; by rewrite app_nil_r|apply H2].
Qed.

Definition tunnel_inv (n : net) : Prop :=
  tunnel_side First (n_d n) (pr_tasks (n_here n)) (pr_seen (n_here n)) ∧
  tunnel_side Second (turned (n_d n)) (pr_tasks (n_there n)) (pr_seen (n_there n)).

Lemma wired_start ls cfg cfg' (d : duplex) :
  d = duplex_new (R := R) cfg cfg' ∨ d = turned (duplex_new (R := R) cfg cfg') → wired ls d [].
Proof.
  intros Hd. assert (∀ loc i, ¬ names (dx_here d) loc i) as Hn.
  { intros loc i (st & Hl & _). by destruct Hd as [-> | ->]; cbn in Hl; rewrite (proj1 (start_empty _ _)) in Hl. }
  constructor; [|done|done]. intros loc i H. by destruct (Hn loc i).
Qed.

(** The socket that was seen working on a stream is the one it is wired to. *)
Lemma wire_of ls d v loc i k :
  wired ls d v → names (dx_here d) loc i → exchanges (port ls loc k) v ≠ [] → wire ls d v loc i k.
Proof.
  intros Hw Hn Hx. destruct (wd_wire _ _ _ Hw loc i Hn) as (k0 & Hk). destruct (decide (k = k0)) as [->|Hne]; [done|].
  destruct Hx. by apply exchanges_blank, (wi_only _ _ _ _ _ _ Hk).
Qed.

Lemma tunnel_reachable n : net_reachable forward_client_main forward_server_main n → tunnel_inv n.
Proof.
  revert n. apply net_induction.
  - split; constructor; try (by eapply wired_start; eauto); eapply pool_single; [apply T_connect|apply T_bind].
  - intros n n' Hst Hf Hf' [H1 H2]. by eapply tunnel_half.
  - intros n n' Hst Hf Hf' [H1 H2].
    destruct (tunnel_half Second First (swapped n) (swapped n') Hst) as [H2' H1']; cbn in *.
    + by apply known_turned.
    + by apply known_turned.
    + done.
    + by rewrite turned_turned.
    + split; [by rewrite turned_turned in H1'|done].
Qed.

(** C7: The tunnel is faithful.  [examples/forward_client.rs] and
    [examples/forward_server.rs] run over two sessions with the default
    configuration, with any number of tunnels and any interleaving.  The run is
    looked at while the connection holds and both sessions are open: no failure,
    close, reset or keepalive timeout, and no poll that overlaps the delivery of a
    frame; it ends when [main] returns or closes the session.  Take a socket of the
    client and a socket of the server whose copies were seen working on the same
    stream: at every moment, what was written to either socket is a prefix of what was
    read from the other; and when both copies have succeeded within such a run, it is
    all of it, in both directions. *)
Theorem tunnel_correct n i loc k loc' k' :
  let here := exchanges (OnStream loc, OnSock k) (pr_seen (n_here n)) in
  let there := exchanges (OnSock k', OnStream loc') (pr_seen (n_there n)) in
  net_reachable forward_client_main forward_server_main n →
  names (dx_here (n_d n)) loc i → names (dx_there (n_d n)) loc' i → here ≠ [] → there ≠ [] →
  (put Second here `prefix_of` taken First there ∧ put First there `prefix_of` taken Second here) ∧
  (∀ vec vec', Finished (OnStream loc) (OnSock k) (Ok vec) ∈ pr_seen (n_here n) →
     Finished (OnSock k') (OnStream loc') (Ok vec') ∈ pr_seen (n_there n) →
     put Second here = taken First there ∧ put First there = taken Second here).
Proof.
  intros here there Hr Hn Hn' Hx Hy. subst here there. pose proof (reachable_facts _ _ _ Hr) as [Hf Hft].
  destruct (tunnel_reachable n Hr) as [[_ Hw] [_ Hw']].
  destruct (wire_of First _ _ loc i k Hw Hn Hx) as [W1 W2 [W3 W3'] W4 W5 _].
  destruct (wire_of Second _ _ loc' i k' Hw' Hn' Hy) as [V1 V2 [V3 V3'] V4 V5 _].
  pose proof (read_prefix (n_d n) i Hf) as P1. pose proof (read_prefix (turned (n_d n)) i Hft) as P2.
  cbn [port fst snd turned dx_here dx_there dx_log_here dx_log_there conveys achieves] in *.
  split; [split|].
  - etrans; [exact W3|]. rewrite <- W2. etrans; [exact P2|]. by rewrite V1.
  - etrans; [exact V3'|]. rewrite <- V2. etrans; [exact P1|]. by rewrite W1.
  - intros vec vec' (E1 & E2 & E3 & E4)%W5 (F1 & F2 & F3 & F4)%V5.
    destruct (W4 E1) as [_ G1], (V4 F2) as [_ G2]. split; congruence.
Qed.

End Tunnel.
