(* ===== verification/ProgramRuns.v ===== *)
(** * Runs of the example programs

    The steps of [Programs] as executable actions, and a run of the echo
    programs, in which the client is given a line and prints it, and of the
    tunnel, in which two bytes go each way. *)

From S2P Require Import Prelude Machine Errors Config Ids Frames Header Codec Crates Window.
From S2P Require Import StreamState RecvBuffer StreamInner StreamFacts StreamInv Session Reader Api.
From S2P Require Import FlowControl Keepalive Writer SessionInv System Dispatch Pair Duplex Endpoints.
From S2P Require Import Transparency Lifecycle Users Utf8 Tokio Programs Processes Echo Tunnel.
From Stdlib Require Import ZArith Lia.

Section ProgramRuns.

#[local] Existing Instance documented_bitflags.

Abbreviation net0 := (net (W := option Waker) (C := list_chan) (X := cell) (R := nat) (J := sjob)).

Inductive net_act : Type :=
| NTask (m : nat) (ch : choice)
| NWrite
| NRead.

(** The action on this side; nothing happens when it is not enabled. *)
Definition net_act_here (a : net_act) (n : net0) : net0 :=
  let '(mk_net (mk_duplex (mk_side s hs op) y o i lx ly) p q) := n in
  match a with
  | NTask m ch =>
    match pr_tasks p !! m with
    | Some t =>
      match advance ch (pr_socks p) t (mk_side s hs op) with
      | Some e =>
        mk_net (mk_duplex (e_side e) y o i (lx ++ e_ios e) ly)
          (mk_proc (<[m := e_task e]> (pr_tasks p) ++ e_spawned e) (e_socks e) (pr_seen p ++ e_seen e)) q
      | None => n
      end
    | None => n
    end
  | NWrite =>
    match recv_out s with
    | (Some f, s') => mk_net (mk_duplex (mk_side s' hs op) y (o ++ [f]) i lx ly) p q
    | _ => n
    end
  | NRead =>
    match i with
    | f :: i' => mk_net (mk_duplex (mk_side (snd (on_item (NextFrame f) s)) hs op) y o i' lx ly) p q
    | [] => n
    end
  end.

Lemma net_act_half a n : net_act_here a n = n ∨ net_half n (net_act_here a n).
Proof.
  destruct n as [[[s hs op] y o i lx ly] p q]. destruct a as [m ch| |]; cbn [net_act_here].
  - destruct (pr_tasks p !! m) as [t|] eqn:Em; [|by left].
    destruct (advance ch (pr_socks p) t (mk_side s hs op)) as [e|] eqn:Ea; [right|by left].
    apply Net_task. by eapply Proc_step.
  - destruct (recv_out s) as [[f|] s'] eqn:E; [right|by left]. by apply Net_idle, Idle_write.
  - destruct i as [|f i]; [by left|right].
    apply Net_idle, (Idle_read f (fst (on_item (NextFrame f) s))). apply surjective_pairing.
Qed.

(** Actions of the client ([true]) and the server. *)
Fixpoint net_play (script : list (bool * net_act)) (n : net0) : net0 :=
  match script with
  | [] => n
  | (true, a) :: script' => net_play script' (net_act_here a n)
  | (false, a) :: script' => net_play script' (swapped (net_act_here a (swapped n)))
  end.

Lemma net_play_steps script n : rtc net_step n (net_play script n).
Proof.
  assert (∀ m : net0, swapped (swapped m) = m) as Hss by (by intros [[] ? ?]).
  revert n. induction script as [|[[] a] script IH]; intros n; cbn [net_play]; [done|..].
  - destruct (net_act_half a n) as [->|Hst]; [apply IH|]. eapply rtc_l; [by apply Net_here|apply IH].
  - destruct (net_act_half a (swapped n)) as [->|Hst]; [rewrite Hss; apply IH|].
    eapply rtc_l; [apply Net_there|apply IH]. by rewrite Hss.
Qed.

(** Five frames at most in one direction. *)
Definition to_server : list (bool * net_act) := replicate 5 (true, NWrite) ++ replicate 5 (false, NRead).
Definition to_client : list (bool * net_act) := replicate 5 (false, NWrite) ++ replicate 5 (true, NRead).

Definition hi : list byte := [Byte.x68; Byte.x69].
Definition go (n : nat) : list (bool * net_act) := replicate n (true, NTask 0 (Run 1)).
Definition serve (m n : nat) : list (bool * net_act) := replicate n (false, NTask m (Run 1)).

Definition echo_script : list (bool * net_act) :=
  [(true, NTask 0 (SysSays (Ok ()))); (true, NTask 0 (SysSays (Ok ()))); (true, NTask 0 (Run 1));
   (true, NTask 0 (LineSays (Ok (Some hi)))); (true, NTask 0 (Run 1))]
  ++ ((λ ch, (false, NTask 0 ch)) <$> [SysSays (Ok ()); Run 1; Run 1; SysSays (Ok ()); SysSays (Ok ()); Run 1; Run 1])
  ++ to_server ++ serve 1 4 ++ to_client ++ go 6 ++ to_server ++ serve 2 6 ++ to_client ++ go 4.

Definition echo_played : net0 := net_play echo_script (net_new tcp_client_main (tcp_server_main 0)).

Lemma echo_played_reachable : net_reachable tcp_client_main (tcp_server_main 0) echo_played.
Proof. apply net_play_steps. Qed.

Lemma echo_correct_witness :
  lines_of (pr_seen (n_here echo_played)) = [hi] ∧ responses_of (pr_seen (n_here echo_played)) = [hi ++ newline] ∧
  ∃ lines, responses_of (pr_seen (n_here echo_played)) = echoes lines ∧
    (lines_of (pr_seen (n_here echo_played)) = lines ∨
     ∃ line, lines_of (pr_seen (n_here echo_played)) = lines ++ [line]).
Proof.
  split; [vm_compute; reflexivity|split; [vm_compute; reflexivity|]].
  exact (echo_correct 0 echo_played echo_played_reachable).
Defined.

(** One tunnel: the proxy socket sends and ends, the local service answers and
    ends. *)
Definition says (side : bool) (rs : list choice) : list (bool * net_act) := (λ r, (side, NTask 1 r)) <$> rs.

Definition tunnel_script : list (bool * net_act) :=
  ((λ ch, (false, NTask 0 ch)) <$> [SysSays (Ok ()); SysSays (Ok ()); Run 1; SysSays (Ok ()); Run 1; SysSays (Ok ()); Run 1])
  ++ to_client ++ [(true, NTask 0 (SysSays (Ok ())))] ++ go 5 ++ to_server ++ serve 0 2
  ++ says false [SockSays (RRead hi); Run 1; Run 1; Run 1; SockSays (RRead []); Run 1; Run 1] ++ to_client
  ++ says true [SysSays (Ok ()); Run 1; SockSays (RRead hi); SockSays (RWrote 2); Run 1; Run 1; SockSays (RRead []);
       SockSays RDone; Run 1; Run 1] ++ to_server
  ++ says false [Run 1; SockSays (RWrote 2); Run 1; SockSays RDone; Run 1].

Definition tunnel_played : net0 := net_play tunnel_script (net_new forward_client_main forward_server_main).

Lemma tunnel_played_reachable : net_reachable forward_client_main forward_server_main tunnel_played.
Proof. apply net_play_steps. Qed.

Lemma tunnel_correct_witness :
  let here := exchanges (OnStream 0, OnSock 0) (pr_seen (n_here tunnel_played)) in
  let there := exchanges (OnSock 0, OnStream 0) (pr_seen (n_there tunnel_played)) in
  Finished (OnStream 0) (OnSock 0) (Ok []) ∈ pr_seen (n_here tunnel_played) ∧
  Finished (OnSock 0) (OnStream 0) (Ok []) ∈ pr_seen (n_there tunnel_played) ∧
  put Second here = hi ∧ put Second here = taken First there ∧ put First there = taken Second here.
Proof.
  assert (names (dx_here (n_d tunnel_played)) 0 2) as Hn by (eexists; split; [vm_compute; reflexivity|reflexivity]).
  assert (names (dx_there (n_d tunnel_played)) 0 2) as Hn' by (eexists; split; [vm_compute; reflexivity|reflexivity]).
  destruct (tunnel_correct tunnel_played 2 0 0 0 0 tunnel_played_reachable Hn Hn') as [_ H];
    [vm_compute; discriminate|vm_compute; discriminate|].
  assert (Finished (OnStream 0) (OnSock 0) (Ok []) ∈ pr_seen (n_here tunnel_played)) as Hf
    by (apply last_Some_elem_of; vm_compute; reflexivity).
  assert (Finished (OnSock 0) (OnStream 0) (Ok []) ∈ pr_seen (n_there tunnel_played)) as Hf'
    by (apply last_Some_elem_of; vm_compute; reflexivity).
  cbn zeta. split; [exact Hf|]. split; [exact Hf'|]. split; [vm_compute; reflexivity|]. exact (H [] [] Hf Hf').
Defined.

End ProgramRuns.
