(* ===== verification/Scenario.v ===== *)
(** * A run of two sessions

    The steps of [Duplex] as executable actions, and a run of them: a client
    opens two streams, writes to both, shuts one down; the server accepts them,
    reads, and sees the end of the one. *)

From S2P Require Import Prelude Machine Errors Config Ids Frames Header Codec Crates Window.
From S2P Require Import StreamState RecvBuffer StreamInner StreamFacts StreamInv Session Reader Api.
From S2P Require Import FlowControl Keepalive Writer SessionInv System Dispatch Pair Duplex Endpoints.
From S2P Require Import Transparency Lifecycle Credit Progress.
From Stdlib Require Import ZArith Lia.

Local Open Scope Z_scope.

#[local] Instance read_buf_eq_dec : EqDecision ReadBuf.t.
Proof. solve_decision. Defined.
#[local] Instance user_op_eq_dec : EqDecision user_op.
Proof. solve_decision. Defined.

Section Scenario.

#[local] Existing Instance documented_bitflags.

Abbreviation duplex0 := (duplex (W := option Waker) (C := list_chan) (X := cell)).

Inductive act : Type :=
| AOpen
| AOpenDone (cx : Waker) (i : StreamId) (loc : Loc)
| AAcceptPoll (rx : nat)
| AUser (loc : Loc) (u : user_op)
| ADrop (loc : Loc)
| ACloser (rx : nat)
| AWrite
| ARead.

#[local] Instance act_eq_dec : EqDecision act.
Proof. solve_decision. Defined.

Abbreviation side0 := (side (W := option Waker) (C := list_chan) (X := cell)).

(** What a side does on its own; [None] when it is not enabled. *)
Definition local_act (a : act) (x : side0) : option (list io * side0) :=
  let '(mk_side s hs op) := x in
  match a with
  | AOpen =>
    let '(r, s') := open_start s in
    Some ([], mk_side s' hs (op ++ match r with Ok il => [il] | Err _ => [] end))
  | AOpenDone cx j loc =>
    if decide ((j, loc) ∈ op) then
      match open_poll cx loc s with
      | (Some (Ready r), s1) =>
        let '(r', s') := open_finish j loc (Some r) s1 in
        Some ([], mk_side s' (hs ++ match r' with Ok l => [l] | Err _ => [] end) (filter (.≠ (j, loc)) op))
      | _ => None
      end
    else None
  | AAcceptPoll rx =>
    let '(r, s') := accept_poll rx s in
    Some ([], mk_side s' (hs ++ match r with Some (Ok l) => [l] | _ => [] end) op)
  | AUser loc u =>
    if decide (loc ∈ hs) then
      match u with
      | UReset | UDrop => None
      | _ => Some (user_io loc u s, mk_side (user_apply loc u s) hs op)
      end
    else None
  | ADrop loc =>
    if decide (loc ∈ hs) then 
      Some (user_io loc UDrop s, mk_side (user_apply loc UDrop s) (filter (.≠ loc) hs) op) else None
  | ACloser rx => Some ([], mk_side (snd (closer_turn rx s)) hs op)
  | AWrite | ARead => None
  end.

Lemma local_act_step a x ios x' : local_act a x = Some (ios, x') → local_step (R := nat) x ios x'.
Proof.
  destruct x as [s hs op]. destruct a as [|cx j loc|rx|loc u|loc|rx| |]; cbn [local_act]; try done.
  - destruct (open_start s) as [r s'] eqn:E. intros [= <- <-]. by apply L_open.
  - case_decide; [|done]. destruct (open_poll cx loc s) as [[[r|]|] s1] eqn:E1; try done.
    destruct (open_finish j loc (Some r) s1) as [r' s'] eqn:E2. intros [= <- <-]. by eapply L_open_done.
  - destruct (accept_poll rx s) as [r s'] eqn:E. intros [= <- <-]. by eapply L_accept_poll.
  - case_decide; [|done]. destruct u as [cx buf|cx buf| | |]; try done; intros [= <- <-];
      [by apply (L_user loc (URead cx buf))|by apply (L_user loc (UWrite cx buf))|by apply (L_user loc UShutdown)].
  - case_decide; [|done]. intros [= <- <-]. by apply L_drop.
  - intros [= <- <-]. apply L_closer.
Qed.

(** The action on this side; [None] when it is not enabled. *)
Definition perform (a : act) (d : duplex0) : option duplex0 :=
  let '(mk_duplex x y o i lx ly) := d in
  let '(mk_side s hs op) := x in
  match a with
  | AWrite =>
    match recv_out s with
    | (Some f, s') => Some (mk_duplex (mk_side s' hs op) y (o ++ [f]) i lx ly)
    | _ => None
    end
  | ARead =>
    match i with
    | f :: i' => Some (mk_duplex (mk_side (snd (on_item (NextFrame f) s)) hs op) y o i' lx ly)
    | [] => None
    end
  | _ => '(ios, x') ← local_act a x; Some (mk_duplex x' y o i (lx ++ ios) ly)
  end.

Lemma perform_half a d d' : perform a d = Some d' → half_step (R := nat) d d'.
Proof.
  destruct d as [[s hs op] y o i lx ly]. unfold perform. destruct (decide (a = AWrite ∨ a = ARead)) as [[-> | ->]|Hn].
  - destruct (recv_out s) as [[f|] s'] eqn:E; [|done]. intros [= <-]. by apply Half_write.
  - destruct i as [|f i]; [done|]. intros [= <-]. apply (Half_read f (fst (on_item (NextFrame f) s))).
    apply surjective_pairing.
  - destruct (local_act a (mk_side s hs op)) as [[ios x']|] eqn:E; cbn; intros H.
    + apply local_act_step in E. destruct a; simplify_eq; solve [by apply Half_local|destruct Hn; auto].
    + destruct a; try done; destruct Hn; auto.
Qed.

(** Actions of the client ([true]) and the server. *)
Fixpoint play (script : list (bool * act)) (d : duplex0) : option duplex0 :=
  match script with
  | [] => Some d
  | (true, a) :: script' => perform a d ≫= play script'
  | (false, a) :: script' => (turned <$> perform a (turned d)) ≫= play script'
  end.

Lemma play_steps script d d' : play script d = Some d' → rtc (duplex_step (R := nat)) d d'.
Proof.
  revert d. induction script as [|[[] a] script IH]; cbn [play]; intros d; [by intros [= <-]|..].
  - destruct (perform a d) as [d1|] eqn:E; cbn; [|done]. intros H.
    eapply rtc_l; [by apply Duplex_here, (perform_half a)|auto].
  - destruct (perform a (turned d)) as [d1|] eqn:E; cbn; [|done]. intros H.
    eapply rtc_l; [apply Duplex_there|by apply IH]. apply (perform_half a).
    rewrite E. by destruct d1.
Qed.

(** The client is [true]; streams 1 and 3 are at its locations 0 and 1, and at
    the same locations of the server. *)
Definition script : list (bool * act) :=
  [(true, AOpen); (true, AOpen); (true, AWrite); (true, AWrite); (false, ARead); (false, ARead);
   (false, AAcceptPoll 0); (false, AAcceptPoll 0); (false, AWrite); (false, AWrite); (true, ARead);
   (true, ARead); (true, AOpenDone 7 1 0); (true, AOpenDone 7 3 1);
   (true, AUser 0 (UWrite 7 msg)); (true, AUser 1 (UWrite 7 msg)); (true, AUser 0 UShutdown);
   (true, AWrite); (true, AWrite); (true, AWrite); (false, ARead); (false, ARead); (false, ARead);
   (false, AUser 0 (URead 9 (ReadBuf.mk [] 64))); (false, AUser 1 (URead 9 (ReadBuf.mk [] 2)))].

Definition played : duplex0 := default (duplex_new (R := nat) cfg8 cfg8) (play script (duplex_new (R := nat) cfg8 cfg8)).

Lemma played_reachable : duplex_reachable (R := nat) cfg8 cfg8 played.
Proof. apply (play_steps script). vm_compute. reflexivity. Qed.

Definition server_stream (loc : Loc) : StreamInner (option Waker) :=
  default (new 0 Local cfg8) (s_heap (sd_s (dx_there played)) !! loc).

(** The server got the bytes the client wrote on both streams, less what waits
    in the buffer of the second. *)
Example played_bytes :
  got 1 (dx_log_there played) = take 4 msg ∧ wrote 1 (dx_log_here played) = take 4 msg ∧
  got 3 (dx_log_there played) = take 2 msg ∧ wrote 3 (dx_log_here played) = take 4 msg.
Proof. vm_compute. split_and!; reflexivity. Qed.

Lemma server_holds loc : loc ∈ [0; 1]%nat →
  loc ∈ sd_handles (dx_there played) ∧ s_heap (sd_s (dx_there played)) !! loc = Some (server_stream loc).
Proof.
  assert (sd_handles (dx_there played) = [0; 1]%nat) as -> by (vm_compute; reflexivity).
  intros Hin. split; [done|]. unfold server_stream.
  assert (is_Some (s_heap (sd_s (dx_there played)) !! loc)) as [st ->]; [|done].
  apply elem_of_cons in Hin as [->|Hin%list_elem_of_singleton]; [|subst loc]; vm_compute; eauto.
Qed.

Lemma sessions_transparent_witness :
  let st := server_stream 1 in
  StreamState.is_reset (state st) = false ∧
  wrote (id st) (dx_log_here played) =
    got (id st) (dx_log_there played) ++ RecvBuffer.contents (recv st) ++ carried (id st) (pipe_out played).
Proof.
  destruct (sessions_transparent cfg8 cfg8 played cfg8_valid cfg8_valid played_reachable) as [[_ H] _].
  destruct (server_holds 1%nat ltac:(right; left)) as [Hin Hl].
  assert (StreamState.is_reset (state (server_stream 1)) = false) as Hr by (vm_compute; reflexivity).
  split; [exact Hr|]. exact (H 1%nat (server_stream 1) Hin Hl Hr).
Defined.

Lemma reset_means_let_go_witness :
  in_use (dx_there played) (id (server_stream 1)) ∧
  ¬ was_reset (dx_here played) (id (server_stream 1)).
Proof.
  destruct (reset_means_let_go cfg8 cfg8 played cfg8_valid cfg8_valid played_reachable) as [_ H].
  destruct (server_holds 1%nat ltac:(right; left)) as [Hin Hl].
  assert (in_use (dx_there played) (id (server_stream 1))) as Hu.
  { exists 1%nat, (server_stream 1). split_and!; [by apply elem_of_app; left|done|done|vm_compute; reflexivity]. }
  split; [exact Hu|]. exact (proj2 (H _ Hu)).
Defined.

Lemma eof_means_shutdown_witness :
  at_eof (dx_there played) 0 ∧ Shut (id (server_stream 0)) ∈ dx_log_here played ∧
  got (id (server_stream 0)) (dx_log_there played) = wrote (id (server_stream 0)) (dx_log_here played).
Proof.
  assert (at_eof (dx_there played) 0) as He
    by (exists 9%nat, (ReadBuf.mk [] 5); split; [done|vm_compute; reflexivity]).
  destruct (eof_means_shutdown cfg8 cfg8 played cfg8_valid cfg8_valid played_reachable) as [[H _] [H' _]].
  destruct (server_holds 0%nat ltac:(left)) as [Hin Hl].
  split; [exact He|]. split; [exact (H 0%nat (server_stream 0) Hin Hl He)|].
  exact (proj1 (H' 0%nat (server_stream 0) Hin Hl He)).
Defined.

(** The client goes on writing to the second stream until its credit is used up. *)
Definition filled : duplex0 :=
  default played (play (replicate 2 (true, AUser 1 (UWrite 7 msg))) played).

Lemma filled_reachable : duplex_reachable (R := nat) cfg8 cfg8 filled.
Proof.
  unfold duplex_reachable. etrans; [exact played_reachable|].
  apply (play_steps (replicate 2 (true, AUser 1 (UWrite 7 msg)))). vm_compute. reflexivity.
Qed.

Definition filled_client : StreamInner (option Waker) :=
  default (new 0 Local cfg8) (s_heap (sd_s (dx_here filled)) !! 1%nat).
Definition filled_server : StreamInner (option Waker) :=
  default (new 0 Local cfg8) (s_heap (sd_s (dx_there filled)) !! 1%nat).

Lemma filled_joined : joined (dx_here filled) (dx_there filled) 1 1 filled_client filled_server.
Proof.
  constructor; [split|split|..]; try (vm_compute; reflexivity).
  - assert (sd_handles (dx_here filled) = [0; 1]%nat) as -> by (vm_compute; reflexivity). set_solver.
  - assert (sd_handles (dx_there filled) = [0; 1]%nat) as -> by (vm_compute; reflexivity). set_solver.
Qed.

Lemma sessions_conserve_credit_witness :
  SendWindow.available (send_window filled_client) = 0 ∧
  carried 3 (pipe_out filled) ≠ [] ∧
  SendWindow.available (send_window filled_client) + Z.of_nat (length (carried (id filled_client) (pipe_out filled))) +
    Z.of_nat (length (RecvBuffer.contents (recv filled_server))) +
    RecvWindow.pending_credit (recv_window filled_server) + credited (id filled_client) (pipe_out (turned filled)) = 8.
Proof.
  split; [vm_compute; reflexivity|]. split; [vm_compute; discriminate|].
  destruct (sessions_conserve_credit cfg8 cfg8 filled cfg8_valid cfg8_valid eq_refl filled_reachable) as [H _].
  exact (proj1 (H _ _ _ _ filled_joined)).
Defined.

End Scenario.
