(* ===== verification/WireRun.v ===== *)
(** * A run over bytes

    The steps of [Wires] as executable actions, and a run of them in which frames
    are cut at arbitrary places on their way. *)

From S2P Require Import Prelude Machine Errors Config Ids Frames Header Codec Crates Window.
From S2P Require Import StreamState RecvBuffer StreamInner StreamFacts StreamInv Session Reader Api.
From S2P Require Import FlowControl Keepalive Writer SessionInv System Dispatch Delivery Pair Duplex Endpoints.
From S2P Require Import Transparency Lifecycle Credit Progress Wires Scenario.
From Stdlib Require Import ZArith Lia.

Local Open Scope Z_scope.

Section WireRun.

#[local] Existing Instance documented_bitflags.

Abbreviation wide0 := (wide (W := option Waker) (C := list_chan) (X := cell) (K := mem_sink)).

Inductive wact : Type :=
| WSide (a : act)
| WArrive (n : nat)     (* at most [n] bytes come in *)
| WWrite
| WRead.

Definition wide_perform (a : wact) (w : wide0) : option wide0 :=
  let '(mk_wide x y (mk_line ko ro bo) (mk_line ki ri bi) lx ly) := w in
  let '(mk_side s hs op) := x in
  let here s' o i := Some (mk_wide (mk_side s' hs op) y o i lx ly) in
  match a with
  | WSide a => '(ios, x') ← local_act a x; Some (mk_wide x' y (mk_line ko ro bo) (mk_line ki ri bi) (lx ++ ios) ly)
  | WArrive n =>
    let coming := drop (length ri) (flushed ki) in
    if decide (flushed ki = ri ++ coming)
    then here s (mk_line ko ro bo) (mk_line ki (ri ++ take n coming) (bi ++ take n coming)) else None
  | WWrite =>
    match write_next ko s with
    | (Some (_, k'), s') => here s' (mk_line k' ro bo) (mk_line ki ri bi)
    | _ => None
    end
  | WRead =>
    match framed_next (s_config s) bi with
    | (Some it, b') => here (snd (on_item it s)) (mk_line ko ro bo) (mk_line ki ri b')
    | _ => None
    end
  end.

Lemma wide_perform_half a w w' : wide_perform a w = Some w' → wide_half (R := nat) w w'.
Proof.
  destruct w as [[s hs op] y [ko ro bo] [ki ri bi] lx ly]. destruct a as [a|n| |]; cbn [wide_perform].
  - destruct (local_act a (mk_side s hs op)) as [[ios x']|] eqn:E; cbn; [|done]. intros [= <-].
    by apply Wide_local, (local_act_step a).
  - case_decide as E; [|done]. intros [= <-]. eapply Wide_tasks, Wide_arrive. by rewrite take_drop.
  - destruct (write_next ko s) as [[[go k']|] s'] eqn:E; [|done]. intros [= <-]. by eapply Wide_tasks, Wide_write.
  - destruct (framed_next (s_config s) bi) as [[it|] b'] eqn:E; [|done]. intros [= <-].
    eapply Wide_tasks, Wide_read; [done|]. apply surjective_pairing.
Qed.

Fixpoint wide_play (script : list (bool * wact)) (w : wide0) : option wide0 :=
  match script with
  | [] => Some w
  | (true, a) :: script' => wide_perform a w ≫= wide_play script'
  | (false, a) :: script' => (reversed <$> wide_perform a (reversed w)) ≫= wide_play script'
  end.

Lemma wide_play_steps script w w' : wide_play script w = Some w' → rtc (wide_step (R := nat)) w w'.
Proof.
  revert w. induction script as [|[[] a] script IH]; cbn [wide_play]; intros w; [by intros [= <-]|..].
  - destruct (wide_perform a w) as [w1|] eqn:E; cbn; [|done]. intros H.
    eapply rtc_l; [by apply Wide_here, (wide_perform_half a)|auto].
  - destruct (wide_perform a (reversed w)) as [w1|] eqn:E; cbn; [|done]. intros H.
    eapply rtc_l; [apply Wide_there|by apply IH]. apply (wide_perform_half a). by rewrite reversed_twice.
Qed.

(** A stream is opened and accepted, the client writes four bytes and ends it;
    the server gets the SYN in two pieces, the payload in two, the first of them
    with part of the header, and the FIN with the rest. *)
Definition wide_script : list (bool * wact) :=
  [(true, WSide AOpen); (true, WWrite); (false, WArrive 5); (false, WArrive 7); (false, WRead);
   (false, WSide (AAcceptPoll 0)); (false, WWrite); (true, WArrive 50); (true, WRead); (true, WSide (AOpenDone 7 1 0));
   (true, WSide (AUser 0 (UWrite 7 msg))); (true, WSide (AUser 0 UShutdown)); (true, WWrite); (true, WWrite);
   (false, WArrive 13); (false, WArrive 60); (false, WRead); (false, WRead);
   (false, WSide (AUser 0 (URead 9 (ReadBuf.mk [] 64))))].

Definition wide_played : wide0 :=
  default (wide_new (R := nat) cfg8 cfg8) (wide_play wide_script (wide_new (R := nat) cfg8 cfg8)).

Lemma wide_played_reachable : wide_reachable (R := nat) cfg8 cfg8 wide_played.
Proof. apply (wide_play_steps wide_script). vm_compute. reflexivity. Qed.

Lemma mem_steady : steady mem_up.
Proof. constructor; [done|exact mem_up_feed|exact mem_up_flush]. Qed.

Lemma bytes_are_frames_witness :
  ln_buf (wd_out wide_played) = [] ∧
  ∃ d, duplex_reachable (R := nat) cfg8 cfg8 d ∧ stands_for mem_up 4 wide_played d.
Proof.
  split; [vm_compute; reflexivity|].
  destruct (bytes_are_frames (R := nat) mem_up cfg8 cfg8 mem_steady cfg8_valid cfg8_valid eq_refl) as [H _]; [concrete|].
  exact (H wide_played wide_played_reachable).
Defined.

Lemma bytes_transparent_witness :
  got 1 (wd_log_there wide_played) = take 4 msg ∧ wrote 1 (wd_log_here wide_played) = take 4 msg ∧
  got 1 (wd_log_there wide_played) `prefix_of` wrote 1 (wd_log_here wide_played).
Proof.
  split; [vm_compute; reflexivity|]. split; [vm_compute; reflexivity|].
  destruct (bytes_transparent mem_up cfg8 cfg8 wide_played mem_steady cfg8_valid cfg8_valid eq_refl) as (_ & H & _);
    [concrete|exact wide_played_reachable|]. exact (proj1 (H 1)).
Defined.

Definition wide_after (script : list (bool * wact)) : wide0 :=
  default (wide_new (R := nat) cfg8 cfg8) (wide_play script (wide_new (R := nat) cfg8 cfg8)).

(** The payload and the FIN have arrived and wait to be decoded. *)
Definition wide_arrived : wide0 := wide_after (take 16 wide_script).

Lemma wide_arrived_reachable : wide_reachable (R := nat) cfg8 cfg8 wide_arrived.
Proof. apply (wide_play_steps (take 16 wide_script)). vm_compute. reflexivity. Qed.

Lemma bytes_agree_witness :
  fst (framed_next cfg8 (ln_buf (wd_out wide_arrived))) = Some (NextFrame (Frame.data 1 Flags.empty (take 4 msg))) ∧
  in_harmony (wd_there wide_arrived) (wd_in wide_arrived) (wd_out wide_arrived).
Proof.
  split; [vm_compute; reflexivity|].
  destruct (bytes_agree mem_up cfg8 cfg8 wide_arrived mem_steady cfg8_valid cfg8_valid eq_refl) as [_ H];
    [concrete|exact wide_arrived_reachable|]. exact H.
Defined.







(** The frame limit is not negotiated.  A server that takes at most two bytes a
    frame gets the four bytes of a client that sends up to four: its decoder
    refuses the frame, and the session closes although every write of the client
    was within the limit of its own configuration. *)
Definition cfg_small : Config.t := Config.mk 8 2 16 None 0 0.

Lemma frame_limits_differ : ∃ w,
  wide_reachable (R := nat) cfg8 cfg_small w ∧
  wrote 1 (wd_log_here w) = take 4 msg ∧ s_is_closing (sd_s (wd_there w)) = true.
Proof.
  eexists (default (wide_new cfg8 cfg_small) (wide_play (take 17 wide_script) (wide_new (R := nat) cfg8 cfg_small))).
  split; [|split; vm_compute; reflexivity].
  apply (wide_play_steps (take 17 wide_script)). vm_compute. reflexivity.
Qed.

End WireRun.
